(* ===== verification/_CoqProject ===== *)
-Q . S2P
Prelude.v
Varint.v
Effects.v
Handles.v
Threads.v
Rustls.v
World.v
Frames.v
Toy.v
Utf8.v
Format.v
QuicKeys.v
QuicKeysFacts.v
BatchFacts.v
KeysTests.v
Config.v
ConfigFacts.v
Tcp.v
TcpFacts.v
QuicHs.v
QuicHsFacts.v
Shim.v
Isolation.v
Safety.v
SafetyFacts.v
LastErrors.v
Loopback.v
Fixture.v
ConnTests.v
ConnTestsFacts.v
ReplayTests.v
RejectTest.v
QuicPacket.v
QuicPacketFacts.v
FrameScan.v
FrameScanFacts.v
RustlsPackets.v
TransportParams.v
RawClientHello.v
Drivers.v
Hoare.v
Bench.v
DriverRules.v
DriverTrace.v
ApiEnds.v
DriverEnds.v
HarnessTests.v
TlsScenarios.v
Verdicts.v
Quiche.v
ToyQuiche.v
RawFrames.v
Resumption.v
RawScenarios.v
RawFacts.v
RawWindow.v
ReplayFacts.v
StatusFacts.v
RawEnds.v
H3i.v
Compress.v
CompressTests.v
