(* ===== verification/Prelude.v ===== *)
(** * A verification library for Navette's Rust sources

    Navette is a networking stack written in Mojo. Its TLS and QUIC
    cryptography is reached through a Rust library with a C interface
    ([src/crates/librustls-mojo]), and its protocol behaviour is tested by
    Rust harnesses that talk QUIC and HTTP/3 at the wire level
    ([src/conformance/tls-conformance], [quiche-raw-frame-scenarios],
    [h3i-scenarios]). Bodies are decompressed through a second, small library
    over zlib and brotli ([src/crates/libcompress-mojo]). This library models
    those five crates and proves what makes them correct.

    ** The program

    The shim is a set of [extern "C"] functions over process-wide tables of
    configurations, connections and key sets. A caller holds [i32] handles into
    the tables, all drawn from one counter (handles.rs); a function reports
    failure by -1 and, with few exceptions, leaves a message for
    [rlsm_last_error] (error.rs).
    Configurations (config.rs) are shared with the TLS-over-TCP connections
    (tcp.rs); QUIC connections (quic_hs.rs) run rustls's handshake and hand out
    key sets; key sets (quic.rs) protect and open packets, one by one or in
    batches, in the caller's memory. The harness builds packets on top of the
    shim (quic_packet.rs) or of rustls keys it holds itself (lib.rs), opens the
    replies, walks their frames for a CONNECTION_CLOSE and feeds CRYPTO data to
    a TLS connection; its drivers take a connection to the point a scenario
    attacks, and each binary judges the CONNECTION_CLOSE it got. The raw-frame
    scenarios do the same with a patched quiche client (lib.rs), with 0-RTT
    resumption, capture and replay (resumption.rs); the HTTP/3 scenarios with
    the h3i client.

    ** How it is modelled

    A function is a program of the state monad of [Effects]: it returns,
    panics, has undefined behaviour, or runs out of the fuel of a loop whose
    bound the code does not show. The state of the shim is [World.world]: typed
    memory blocks, the handle counter, the last error, one finite map per table,
    and the readings of the clock. Machine integers are [Z] with the casts of
    the source written out ([as_i32], [as_usize], ...); sums of [usize]s wrap
    where the code does not bound them, as in a release build. rustls,
    aws-lc-rs and the PEM parser are the class [Rustls]; what their
    documentation promises is [RustlsLaws] and [TcpLaws], and [Toy] is an
    executable instance of all three, over which witnesses are evaluated. The
    harnesses run over scripts: what each receive gives, the readings of the
    clock, the results of the other system calls; what they send and print is
    logged in their state. quiche is the class [Quiche.Quiche] with the toy
    instance of [ToyQuiche], h3i the class [H3i.H3i].

    - [Prelude]: integers, byte strings, slices, tactics.
    - [Varint]: QUIC integers ([encode_varint], [decode_varint],
      [varint_width] of quic_packet.rs).
    - [Effects]: the monad and the memory.
    - [Handles]: handles.rs, with a step relation for any interleaving of
      operations on two tables.
    - [Threads]: the same operations as the steps of threads, with the mutexes
      and without them, and the machine of atomic calls they refine.
    - [Rustls]: the interface to the libraries and its laws.
    - [World]: the shim's state, its memory accesses, error.rs.
    - [Frames]: what programs leave alone, how tables evolve, how errors are
      reported; the tactics that establish it for a whole function.
    - [Toy]: the executable instance.
    - [Utf8]: [str::from_utf8] and [String::from_utf8_lossy].
    - [Format]: what the harnesses use of [format!].
    - [QuicKeys], [QuicKeysFacts], [BatchFacts]: quic.rs; [KeysTests]: its unit
      tests, run on the model.
    - [Config], [ConfigFacts]: config.rs and the insecure configuration of
      tcp.rs.
    - [Tcp], [TcpFacts]: tcp.rs.
    - [QuicHs], [QuicHsFacts]: quic_hs.rs.
    - [Shim]: all exported functions as one set of calls. [Safety]: what a
      caller owes each of them ([valid_call]) and a total judgement for programs
      that neither panic nor leave their buffers; [SafetyFacts]: it holds of
      every call. [LastErrors]: one last error per thread. [Isolation]: objects
      of one handle and calls on others.
    - [Loopback], [Fixture]: the drivers of the handshake tests (the tests of
      quic_hs.rs and tests_resumption_fixture.rs). [Bench]: the handshake
      benchmark (benches/handshake.rs).
    - [ConnTests], [ConnTestsFacts]: the unit tests of quic_hs.rs and why they
      pass; [ReplayTests]: tests_replay_authenticator.rs; [RejectTest]: the test
      of tests_resumption_fixture.rs that declines 0-RTT.
    - [QuicPacket], [QuicPacketFacts]: quic_packet.rs and
      [decrypt_initial_inplace] of the harness, against the class [KeysApi];
      [KeysApiLaws] is the contract the round trips need of the shim, and the
      shim's model is shown to keep it.
    - [FrameScan], [FrameScanFacts]: the frame walkers of the harness.
    - [RustlsPackets]: the packet functions of the harness that use rustls keys.
    - [TransportParams]: the transport-parameter builders and a decoder.
    - [RawClientHello]: raw_client_hello.rs and a decoder.
    - [Drivers]: the handshake drivers of the harness. [Hoare] is a logic of
      triples over [prog], [DriverRules] its rules for the harness's calls,
      [DriverTrace] what the drivers send, [ApiEnds] and [DriverEnds] that they
      end.
    - [HarnessTests]: the unit tests of tls-conformance, run on the model.
    - [TlsScenarios], [Verdicts]: the assertions and the [main] of each binary
      of tls-conformance, and what an exit code says.
    - [Quiche], [ToyQuiche]: the interface to quiche and an instance.
    - [RawFrames], [Resumption], [RawScenarios]: lib.rs, resumption.rs and the
      binaries of quiche-raw-frame-scenarios. [RawFacts]: what their exit codes
      say; [RawWindow]: when a connection is handed over, and the close that is
      lost; [ReplayFacts], [StatusFacts]: capture and replay, statuses in 0-RTT;
      [RawEnds]: they end.
    - [H3i]: h3i-scenarios.
    - [Compress]: libcompress-mojo, with the class [Decoder] of what a decoder
      promises its caller, kept by the gzip and the brotli wrapper;
      [CompressTests]: the round trips of its tests.

    ** What the theorems show

    - Handles: the counter's exact sequence past its exhaustion; before it, no
      handle is ever live in two tables or issued twice ([handle_sequence],
      [handles_never_shared]). Threads: every interleaving has the effect of
      atomic calls ([tables_refine_atomic]), and although closures nest two
      mutexes no call waits for ever ([calls_complete]).
    - The shim as a whole: every reachable state is well-formed
      ([shim_states_well_formed]). A message is left only with the result -1,
      and -1 comes with a message, except in [rlsm_quic_conn_alert] (-1 also
      says that there is no alert), in [rlsm_last_error] itself and in the two
      probes of the test build, which leave the message alone
      ([shim_errors_reported]). A process that keeps to the contracts of the
      calls ([valid_call]: integers in range, pointers null or valid for the
      lengths passed, no negative lengths or offsets in a batch) never panics,
      never has undefined behaviour and never writes outside the buffers of its
      calls, for any library that keeps [PrimitiveLaws] ([processes_return]). A
      thread reads the message its own failed call left, whatever the other
      threads did since ([own_error_fetched]). A client that does not pass a handle can neither
      see nor change the objects behind it ([handles_do_not_interfere]).
    - Packet protection: over any sequence of calls the packets that were sealed
      under a handle, one by one or in batches, have increasing numbers
      ([sealed_numbers_increase]; a packet a batch reports as failed is not
      among them, and its number can come back); payload and header protection are undone by the peer; batch decryption is the single
      call packet by packet; two defects of the batch calls are proved as they
      are ([batch_encrypt_forgets_nonce], [batch_unprotect_negative_offset]).
      The unit tests of these calls pass with any library whose Initial keys
      work ([keys_tests_pass], [batch_seal_tested]).
    - Handshake: the replay authenticator depends on the stream and not on how
      it was cut ([authenticator_of_stream]); a key change is recorded, blocks
      writing and is taken once ([key_change_protocol]); alerts, key updates and
      0-RTT keys; the flight lost on a small buffer. A handshake through
      handles, buffers and the key-change protocol is the exchange of flights
      between the two connections, and the handles it ends with are those of
      the last 1-RTT keys ([handles_handshake_is_direct]); the resumption
      fixture leaves its server as the ingress hook would
      ([fixture_mirrors_ingress]); a row of the benchmark sums up finished
      handshakes of which the calls of the server were timed
      ([bench_rows_measured]), with the configuration of the HTTP/3 server
      ([bench_config_mirrors_shim]). The unit tests of the handshake pass with
      any library in which the handshakes they drive finish ([conn_tests_pass],
      [reject_test_passes]), and those of the replay authenticator are decided
      by the random bytes of the ClientHellos
      ([authenticator_tests_decided]).
    - TLS over TCP and configurations: data goes through in order and is
      counted, and ciphertext is left over only when rustls asks for no more
      ([read_tls_feeds_front], [write_plaintext_in_order]); the ALPN parser
      accepts exactly the well-formed lists.
    - Wire format: integers, CONNECTION_CLOSE frames, long and short packets,
      ClientHello and transport parameters are read back as they were written;
      the frame walkers end on every payload without a slice out of range
      ([walkers_total]), and up to the first frame of a type they do not know
      they do what the frames say ([scan_feeds_frames]). The crate's own unit tests of these parts pass ([harness_tests_pass]).
    - Drivers: the Handshake packets of a run are numbered 0, 1, 2, ... in the
      order they are sent ([handshake_packets_numbered]); an injection is
      sent once, instead of the client's Finished or behind it
      ([injection_replaces_finished], [injection_appended_once]); the drivers
      end whatever arrives ([drivers_end]).
    - Verdicts: a scenario exits with 0 exactly when the close it expects was
      there, and that close came from a datagram that opens under the keys of
      the run (the Initial keys it was issued, or keys of its connection), or
      from the connection the scenario injected its packet into ([verdicts_earned], [raw_verdicts_earned],
      [h3_verdicts_exact]).
    - Raw frames: the Handshake-keys connection is handed over before the
      Finished is sent ([connects_in_handshake_window]); the replay sends the
      datagrams the resumed connection gave, unchanged and in order, from a
      socket of its own ([replay_is_verbatim]); a status verdict is a status
      reported on the stream of the request, on the connection that took it in
      0-RTT ([zero_rtt_statuses_answered]); the scenarios end
      ([raw_scenarios_end]); a close decoded at the deadline is lost
      ([close_lost_at_deadline]).
    - Decompression: the unit tests pass with libraries that decode their two
      bodies ([input_cap_tests_pass], [round_trip_tests_pass]); whatever zlib and brotli do, output is handed over only
      within the caps of the decoder ([decompression_capped]); what zlib leaves
      of a chunk enters its stream in no later call ([gzip_takes_fronts]).

    ** Bounds and fuel

    [read_tls_loop] and [write_plaintext_loop] have one unit of fuel per byte
    of input, [alpn_loop], the frame walkers and the loop over ACK ranges one
    per byte of the buffer: each iteration consumes at least one. The theorems
    about them say that the fuel is never used up. Packet numbers are bounded
    by [2^32] in the packet round trips because the builders write the low four
    bytes only. The pumps of the drivers have fuel for the flights a TLS
    connection can produce, a bound the classes [HandshakeEnds] and, for the
    benchmark, [RunsDry] name; a loop that
    watches a deadline has one unit per reading of the clock; the walk over a
    datagram one per byte. The loops over what quiche has to send and over its
    events take their fuel as arguments, and [raw_scenarios_end] gives bounds
    that are enough for a client that dries up ([QuicheDries]). Sixteen
    hexadecimal digits print a [u64].

    ** What is not modelled

    Mojo code and bindings; rustls, aws-lc-rs, quiche and h3i, which are
    interfaces, with the session stores and random numbers inside them; threads
    above the level of the handle tables and of the last error, and memory
    orderings weaker than one order of the counter's updates; the debug
    assertions, which a release build does not have; how long sleeping and
    receiving take; the certificates and the session stores of the unit
    tests of the shim, which the tests are given; the raw primitives the
    benchmark times and the layout of its columns; the build glue. *)

From Stdlib Require Export ZArith Lia.
From stdpp Require Export base gmap list strings pretty.

#[global] Open Scope Z_scope.

(** ** Machine integers

    A w-bit integer is a [Z]; the casts of the source ([as u8], [as usize],
    [as i32], ...) are written out as reductions modulo [2^w]. *)

Definition as_u8 (z : Z) : Z := z mod 2 ^ 8.
Definition as_u16 (z : Z) : Z := z mod 2 ^ 16.
Definition as_u32 (z : Z) : Z := z mod 2 ^ 32.
Definition as_u64 (z : Z) : Z := z mod 2 ^ 64.
Definition as_usize (z : Z) : Z := z mod 2 ^ 64.
Definition as_i32 (z : Z) : Z := (z + 2 ^ 31) mod 2 ^ 32 - 2 ^ 31.

Definition i32_max : Z := 2 ^ 31 - 1.
Definition i32_min : Z := - 2 ^ 31.
Definition u32_max : Z := 2 ^ 32 - 1.

Definition in_i32 (z : Z) : Prop := i32_min ≤ z ≤ i32_max.
Definition in_u64 (z : Z) : Prop := 0 ≤ z < 2 ^ 64.

(** The release profile does not check overflow: [usize] sums wrap. *)
Definition usize_add (a b : Z) : Z := as_usize (a + b).

Lemma as_usize_id z : 0 ≤ z < 2 ^ 64 → as_usize z = z.
Proof. intros. by apply Z.mod_small. Qed.

Lemma as_usize_nonneg_i32 z : in_i32 z → 0 ≤ z → as_usize z = z.
Proof.
  unfold in_i32, i32_min, i32_max. intros. apply as_usize_id. lia.
Qed.

Lemma as_usize_neg_i32 z : in_i32 z → z < 0 → as_usize z = 2 ^ 64 + z.
Proof.
  unfold in_i32, i32_min, i32_max, as_usize. intros.
  symmetry. apply (Z.mod_unique _ _ (-1)); lia.
Qed.

Lemma as_i32_id z : in_i32 z → as_i32 z = z.
Proof.
  unfold in_i32, i32_min, i32_max, as_i32. intros.
  rewrite Z.mod_small; lia.
Qed.

Lemma as_i32_in z : in_i32 (as_i32 z).
Proof.
  unfold in_i32, i32_min, i32_max, as_i32.
  pose proof (Z.mod_pos_bound (z + 2 ^ 31) (2 ^ 32)). lia.
Qed.

Lemma Zeven_of_nat n : Z.even (Z.of_nat n) = Nat.even n.
Proof.
  induction n as [|n IH]; [done|].
  rewrite Nat2Z.inj_succ, Z.even_succ, Nat.even_succ.
  by rewrite <- Z.negb_even, <- Nat.negb_even, IH.
Qed.

(** ** Bytes *)

Definition is_byte (b : Z) : Prop := 0 ≤ b < 256.
Abbreviation bytes := (list Z) (only parsing).
Definition all_bytes (l : list Z) : Prop := Forall is_byte l.

#[global] Instance is_byte_dec b : Decision (is_byte b).
Proof. unfold is_byte. apply _. Defined.

#[global] Instance all_bytes_dec l : Decision (all_bytes l).
Proof. unfold all_bytes. apply _. Defined.

(** Length of a list as an integer ([len()] of a slice). *)
Definition zlen {A} (l : list A) : Z := Z.of_nat (length l).

Lemma zlen_nil {A} : zlen (@nil A) = 0.
Proof. done. Qed.
Lemma zlen_cons {A} (x : A) l : zlen (x :: l) = 1 + zlen l.
Proof. unfold zlen. simpl. lia. Qed.
Lemma zlen_app {A} (k l : list A) : zlen (k ++ l) = zlen k + zlen l.
Proof. unfold zlen. rewrite length_app. lia. Qed.
Lemma zlen_nonneg {A} (l : list A) : 0 ≤ zlen l.
Proof. unfold zlen. lia. Qed.
Lemma zlen_replicate {A} n (x : A) : zlen (replicate n x) = Z.of_nat n.
Proof. unfold zlen. by rewrite length_replicate. Qed.

(** Big-endian bytes of an integer ([to_be_bytes]) and the integer of
    big-endian bytes ([from_be_bytes], or the loop [v = (v << 8) | b]). *)
Fixpoint be_bytes (n : nat) (v : Z) : bytes :=
  match n with
  | O => []
  | S n' => be_bytes n' (Z.shiftr v 8) ++ [as_u8 v]
  end.

Definition be_step (v b : Z) : Z := Z.lor (as_u64 (Z.shiftl v 8)) b.
Definition be_fold (v : Z) (l : bytes) : Z := foldl be_step v l.
Definition be_val (l : bytes) : Z := be_fold 0 l.

Lemma length_be_bytes n v : length (be_bytes n v) = n.
Proof.
  revert v. induction n as [|n IH]; intros v; [done|].
  simpl. rewrite length_app, IH. simpl. lia.
Qed.

Lemma all_bytes_be_bytes n v : all_bytes (be_bytes n v).
Proof.
  revert v. induction n as [|n IH]; intros v; simpl; [constructor|].
  apply Forall_app. split; [apply IH|].
  constructor; [|constructor].
  unfold as_u8, is_byte. apply Z.mod_pos_bound. lia.
Qed.

(** The step of the decoding loop is multiplication and addition as long as
    the shifted value fits in 64 bits. *)
Lemma be_step_arith v b :
  0 ≤ v < 2 ^ 56 → is_byte b → be_step v b = v * 256 + b.
Proof.
  unfold is_byte, be_step, as_u64. intros Hv Hb.
  rewrite Z.shiftl_mul_pow2 by lia.
  rewrite Z.mod_small by lia.
  change (2 ^ 8) with 256.
  assert (Hd : Z.land (v * 256) b = 0).
  { apply Z.bits_inj'. intros n Hn.
    rewrite Z.land_spec, Z.bits_0.
    destruct (Z.lt_ge_cases n 8).
    - change 256 with (2 ^ 8).
      rewrite Z.mul_pow2_bits_low by lia. done.
    - rewrite (Z.bits_above_log2 b n); [by rewrite andb_false_r|lia|].
      destruct (Z.eq_dec b 0) as [->|]; [simpl; lia|].
      apply Z.log2_lt_pow2; [lia|].
      apply Z.lt_le_trans with (2 ^ 8); [lia|].
      apply Z.pow_le_mono_r; lia. }
  rewrite <- Z.lxor_lor by done.
  by rewrite <- Z.add_nocarry_lxor by done.
Qed.

Lemma be_fold_app v k l : be_fold v (k ++ l) = be_fold (be_fold v k) l.
Proof. apply foldl_app. Qed.

Lemma pow256_succ n : 256 ^ Z.of_nat (S n) = 256 * 256 ^ Z.of_nat n.
Proof. rewrite Nat2Z.inj_succ, Z.pow_succ_r by lia. lia. Qed.

Lemma pow256_pos n : 0 < 256 ^ Z.of_nat n.
Proof. apply Z.pow_pos_nonneg; lia. Qed.

(** Folding the big-endian bytes of [x] into [v], while everything fits. *)
Lemma be_fold_be_bytes n v x :
  0 ≤ v → v * 256 ^ Z.of_nat n + 256 ^ Z.of_nat n ≤ 2 ^ 64 →
  be_fold v (be_bytes n x) = v * 256 ^ Z.of_nat n + x mod 256 ^ Z.of_nat n.
Proof.
  revert x. induction n as [|n IH]; intros x Hv Hb.
  - simpl. rewrite Z.mod_1_r. unfold be_fold. simpl. lia.
  - simpl be_bytes. rewrite be_fold_app.
    rewrite pow256_succ in *. pose proof (pow256_pos n).
    rewrite IH by nia.
    set (P := 256 ^ Z.of_nat n) in *.
    rewrite Z.shiftr_div_pow2 by lia. change (2 ^ 8) with 256.
    pose proof (Z.mod_pos_bound (x / 256) P ltac:(lia)).
    unfold be_fold. simpl.
    rewrite be_step_arith; [|split; nia|unfold is_byte, as_u8; apply Z.mod_pos_bound; lia].
    unfold as_u8. change (2 ^ 8) with 256.
    rewrite (Z.rem_mul_r x 256 P) by lia. lia.
Qed.

Lemma be_val_be_bytes n x :
  (n ≤ 8)%nat → be_val (be_bytes n x) = x mod 256 ^ Z.of_nat n.
Proof.
  intros Hn. unfold be_val. rewrite be_fold_be_bytes; [lia|lia|].
  change (2 ^ 64) with (256 ^ 8).
  rewrite Z.mul_0_l, Z.add_0_l. apply Z.pow_le_mono_r; lia.
Qed.

(** The bytes from the most significant one. *)
Lemma be_bytes_cons n v :
  be_bytes (S n) v = as_u8 (Z.shiftr v (8 * Z.of_nat n)) :: be_bytes n v.
Proof.
  revert v. induction n as [|n IH]; intros v.
  - simpl. by rewrite Z.shiftr_0_r.
  - change (be_bytes (S (S n)) v) with (be_bytes (S n) (Z.shiftr v 8) ++ [as_u8 v]).
    rewrite IH. rewrite Z.shiftr_shiftr by lia.
    replace (8 + 8 * Z.of_nat n) with (8 * Z.of_nat (S n)) by lia.
    done.
Qed.

Lemma be_fold_bound v l :
  all_bytes l → 0 ≤ v → (v + 1) * 256 ^ zlen l ≤ 2 ^ 64 →
  0 ≤ be_fold v l < (v + 1) * 256 ^ zlen l.
Proof.
  intros Hl. revert v. induction Hl as [|b l Hb Hl IH]; intros v Hv Hmax.
  - unfold be_fold, zlen. simpl. lia.
  - unfold zlen in *. simpl length in *. rewrite pow256_succ in *.
    pose proof (pow256_pos (length l)).
    change (be_fold v (b :: l)) with (be_fold (be_step v b) l).
    rewrite be_step_arith by (auto; nia).
    unfold is_byte in Hb.
    specialize (IH (v * 256 + b) ltac:(lia)). nia.
Qed.

(** ** Slices

    [sub off n l] is the slice [l[off .. off+n]] and [splice off new l]
    overwrites [new] into [l] at [off] ([copy_from_slice]). Both are used
    behind bounds checks that decide panics and undefined behaviour. *)

Definition sub {A} (off n : Z) (l : list A) : list A :=
  take (Z.to_nat n) (drop (Z.to_nat off) l).

Definition splice {A} (off : Z) (new l : list A) : list A :=
  take (Z.to_nat off) l ++ new ++ drop (Z.to_nat off + length new) l.

Definition fits {A} (off n : Z) (l : list A) : bool :=
  (0 <=? off) && (0 <=? n) && (off + n <=? zlen l).

Lemma fits_spec {A} off n (l : list A) :
  fits off n l = true ↔ 0 ≤ off ∧ 0 ≤ n ∧ off + n ≤ zlen l.
Proof. unfold fits. lia. Qed.

Lemma length_sub {A} off n (l : list A) :
  fits off n l = true → length (sub off n l) = Z.to_nat n.
Proof.
  rewrite fits_spec. unfold sub, zlen.
  rewrite length_take, length_drop. lia.
Qed.

Lemma zlen_sub {A} off n (l : list A) :
  fits off n l = true → zlen (sub off n l) = n.
Proof.
  intros H. unfold zlen. rewrite length_sub by done.
  apply fits_spec in H. lia.
Qed.

Lemma sub_all {A} (l : list A) : sub 0 (zlen l) l = l.
Proof. unfold sub, zlen. simpl. rewrite Nat2Z.id. by rewrite firstn_all. Qed.

Lemma sub_app_l {A} n (k l : list A) : n ≤ zlen k → sub 0 n (k ++ l) = sub 0 n k.
Proof.
  unfold sub, zlen. intros. change (Z.to_nat 0) with 0%nat.
  rewrite !drop_0. apply take_app_le. lia.
Qed.

(** Neighbouring slices are one slice. *)
Lemma sub_sub_app {A} off n m (l : list A) :
  0 ≤ off → 0 ≤ n → 0 ≤ m → sub off n l ++ sub (off + n) m l = sub off (n + m) l.
Proof.
  intros. unfold sub. rewrite !Z2Nat.inj_add by lia.
  by rewrite <- drop_drop, take_take_drop.
Qed.

Lemma sub_app_exact {A} (k m l : list A) :
  sub (zlen k) (zlen m) (k ++ m ++ l) = m.
Proof.
  unfold sub, zlen. rewrite !Nat2Z.id, drop_app_length.
  by rewrite take_app_length.
Qed.

Lemma length_splice {A} off (new l : list A) :
  fits off (zlen new) l = true → length (splice off new l) = length l.
Proof.
  rewrite fits_spec. unfold splice, zlen.
  rewrite !length_app, length_take, length_drop. lia.
Qed.

Lemma sub_splice_same {A} off (new l : list A) :
  fits off (zlen new) l = true → sub off (zlen new) (splice off new l) = new.
Proof.
  intros Hf. apply fits_spec in Hf. unfold splice.
  replace off with (zlen (take (Z.to_nat off) l)) at 1.
  - apply sub_app_exact.
  - unfold zlen in *. rewrite length_take. lia.
Qed.

Lemma splice_full {A} (new l : list A) :
  length new = length l → splice 0 new l = new.
Proof.
  intros H. unfold splice. simpl. rewrite H, drop_all. by rewrite app_nil_r.
Qed.

Lemma splice_zero_app {A} (new k l : list A) :
  length new = length k → splice 0 new (k ++ l) = new ++ l.
Proof.
  intros H. unfold splice. simpl. rewrite H, drop_app_length. done.
Qed.

(** A range that fits cuts the list in three; reading, overwriting and
    splitting a range then become list equations. *)
Lemma fits_cut {A} off n (l : list A) :
  fits off n l = true →
  ∃ pre mid post, l = pre ++ mid ++ post ∧ zlen pre = off ∧ zlen mid = n.
Proof.
  intros Hf. exists (take (Z.to_nat off) l), (sub off n l),
    (drop (Z.to_nat n) (drop (Z.to_nat off) l)).
  split_and!.
  - unfold sub. by rewrite take_drop, take_drop.
  - apply fits_spec in Hf. unfold zlen in *. rewrite length_take. lia.
  - by apply zlen_sub.
Qed.

Lemma fits_app {A} (pre mid post : list A) :
  fits (zlen pre) (zlen mid) (pre ++ mid ++ post) = true.
Proof. apply fits_spec. rewrite !zlen_app. pose proof (zlen_nonneg pre).
  pose proof (zlen_nonneg mid). pose proof (zlen_nonneg post). lia. Qed.

Lemma splice_app {A} (pre mid post new : list A) :
  zlen new = zlen mid → splice (zlen pre) new (pre ++ mid ++ post) = pre ++ new ++ post.
Proof.
  unfold zlen. intros H. unfold splice. rewrite Nat2Z.id.
  rewrite take_app_length. do 2 f_equal.
  rewrite app_assoc. apply drop_app_length'. rewrite length_app. lia.
Qed.

Lemma sub_app_left {A} off n (k l : list A) :
  0 ≤ off → 0 ≤ n → off + n ≤ zlen k → sub off n (k ++ l) = sub off n k.
Proof.
  unfold zlen, sub. intros. rewrite drop_app_le by lia. apply take_app_le.
  rewrite length_drop. lia.
Qed.

Lemma sub_app_right {A} off n (k l : list A) :
  zlen k ≤ off → sub off n (k ++ l) = sub (off - zlen k) n l.
Proof.
  unfold zlen, sub. intros. rewrite drop_app_ge by lia. do 2 f_equal. lia.
Qed.

(** Overwriting a range leaves the ranges before and after it alone. *)
Lemma sub_splice_disjoint {A} off n o (new l : list A) :
  fits o (zlen new) l = true → 0 ≤ off → 0 ≤ n →
  off + n ≤ o ∨ o + zlen new ≤ off →
  sub off n (splice o new l) = sub off n l.
Proof.
  intros Hf Hoff Hn Hd. destruct (fits_cut _ _ _ Hf) as (pre & mid & post & -> & <- & Hm).
  rewrite splice_app by done. destruct Hd.
  - by rewrite !(sub_app_left off n pre) by lia.
  - rewrite !app_assoc, !(sub_app_right off n) by (rewrite !zlen_app; lia).
    by rewrite !zlen_app, Hm.
Qed.

Lemma splice_splice_adjacent {A} off (k l blk : list A) :
  fits off (zlen k + zlen l) blk = true →
  splice (off + zlen k) l (splice off k blk) = splice off (k ++ l) blk.
Proof.
  intros Hf. destruct (fits_cut _ _ _ Hf) as (pre & mid & post & -> & <- & Hm).
  assert (Hk : fits 0 (zlen k) mid = true).
  { apply fits_spec. pose proof (zlen_nonneg k). pose proof (zlen_nonneg l). lia. }
  destruct (fits_cut _ _ _ Hk) as (p0 & m1 & m2 & -> & Hp & Hm1).
  destruct p0; [|rewrite zlen_cons in Hp; pose proof (zlen_nonneg p0); lia]. simpl app in *.
  rewrite zlen_app in Hm. rewrite <- !app_assoc.
  rewrite (splice_app pre m1 (m2 ++ post) k) by lia.
  rewrite <- zlen_app, app_assoc, (splice_app (pre ++ k) m2 post l) by lia.
  rewrite (app_assoc m1 m2 post), (splice_app pre (m1 ++ m2) post (k ++ l)) by (rewrite !zlen_app; lia).
  by rewrite <- !app_assoc.
Qed.

(** ** Strings

    The text of an error message is a byte string; [pretty] prints integers
    in decimal as [format!] does. *)

Definition string_bytes (s : string) : bytes :=
  (fun a => Z.of_nat (Ascii.nat_of_ascii a)) <$> String.list_ascii_of_string s.

Lemma zlen_string_bytes s : zlen (string_bytes s) = Z.of_nat (String.length s).
Proof.
  unfold string_bytes, zlen. rewrite length_fmap.
  induction s as [|c s IH]; simpl; [done|]. simpl in *. lia.
Qed.

(** An option known to be [Some] by evaluation. *)
Definition is_some {A} (o : option A) : bool := match o with Some _ => true | None => false end.

Lemma some_default {A} (d : A) (o : option A) : is_some o = true → o = Some (default d o).
Proof. by destruct o. Qed.

(** ** Automation *)

Create HintDb nav discriminated.
Create Rewrite HintDb zlen.
#[export] Hint Resolve zlen_nonneg all_bytes_be_bytes : nav.
#[export] Hint Rewrite @zlen_nil @zlen_cons @zlen_app @zlen_replicate : zlen.

Ltac zlen_solve := autorewrite with zlen in *; unfold zlen in *; simpl in *; lia.

(** Reflects boolean tests of the source found in hypotheses. *)
Ltac breflect :=
  repeat match goal with
  | H : (_ && _) = true |- _ => apply andb_prop in H; destruct H
  | H : (_ || _) = false |- _ => apply orb_false_elim in H; destruct H
  | H : negb _ = true |- _ => apply negb_true_iff in H
  | H : negb _ = false |- _ => apply negb_false_iff in H
  | H : (_ <? _) = true |- _ => apply Z.ltb_lt in H
  | H : (_ <? _) = false |- _ => apply Z.ltb_ge in H
  | H : (_ <=? _) = true |- _ => apply Z.leb_le in H
  | H : (_ <=? _) = false |- _ => apply Z.leb_gt in H
  | H : (_ =? _) = true |- _ => apply Z.eqb_eq in H
  | H : (_ =? _) = false |- _ => apply Z.eqb_neq in H
  end.

(** Case analysis on the tests and matches of the goal, innermost first. *)
Ltac case_if :=
  match goal with
  | |- context [if ?b then _ else _] =>
      lazymatch b with context [if _ then _ else _] => fail | _ => destruct b eqn:? end
  end.

Ltac case_if_in H :=
  match type of H with
  | context [if ?b then _ else _] =>
      lazymatch b with context [if _ then _ else _] => fail | _ => destruct b eqn:? end
  end.

(** Closes a closed decidable proposition by evaluating its decision. *)
Ltac by_eval := vm_compute; reflexivity.
Ltac by_vm := match goal with |- ?a = ?b => vm_cast_no_check (@eq_refl _ b) end.
Ltac by_decision := apply (bool_decide_unpack _); vm_compute; exact I.
