(* ===== verification/Varint.v ===== *)
(** * QUIC variable-length integers

    Models [encode_varint], [decode_varint] and [varint_width] of
    [src/conformance/tls-conformance/src/quic_packet.rs] (RFC 9000 section
    16). A panic of the encoder is [None]; the decoder's [Option] is the
    source's. *)

From S2P Require Import Prelude.

Module Varint.

(** [encode_varint(v, out)]: appends to [out]; [None] is the panic. *)
Definition encode_varint (v : Z) (out : bytes) : option bytes :=
  if v <? Z.shiftl 1 6 then Some (out ++ [as_u8 v])
  else if v <? Z.shiftl 1 14 then
    match be_bytes 2 (as_u16 v) with
    | b0 :: b1 :: _ => Some (out ++ [Z.lor b0 0x40; b1])
    | _ => None
    end
  else if v <? Z.shiftl 1 30 then
    match be_bytes 4 (as_u32 v) with
    | b0 :: b1 :: b2 :: b3 :: _ => Some (out ++ [Z.lor b0 0x80; b1; b2; b3])
    | _ => None
    end
  else if v <? Z.shiftl 1 62 then
    match be_bytes 8 v with
    | b0 :: tl => Some ((out ++ [Z.lor b0 0xC0]) ++ tl)
    | _ => None
    end
  else None.

(** [decode_varint(buf)]: the value and the number of bytes it took. *)
Definition decode_varint (buf : bytes) : option (Z * Z) :=
  match buf with
  | [] => None
  | first :: _ =>
      let len := Z.shiftl 1 (Z.shiftr first 6) in
      if zlen buf <? len then None
      else
        let v := Z.land first 0x3F in
        Some (be_fold v (sub 1 (len - 1) buf), len)
  end.

Definition varint_width (v : Z) : Z :=
  if v <? Z.shiftl 1 6 then 1
  else if v <? Z.shiftl 1 14 then 2
  else if v <? Z.shiftl 1 30 then 4
  else 8.

(** ** Shared lemmas *)

(** A tag in the two high bits is an addition. *)
Lemma tag_byte t b :
  0 ≤ t < 4 → 0 ≤ b < 64 → Z.lor b (64 * t) = b + 64 * t.
Proof.
  intros Ht Hb.
  assert (Hl : Z.land b (64 * t) = 0).
  { apply Z.bits_inj'. intros n Hn. rewrite Z.land_spec, Z.bits_0.
    destruct (Z.lt_ge_cases n 6).
    - rewrite Z.mul_comm. change 64 with (2 ^ 6).
      rewrite (Z.mul_pow2_bits_low t 6 n) by lia. by rewrite andb_false_r.
    - destruct (Z.eq_dec b 0) as [->|]; [by rewrite Z.bits_0|].
      rewrite (Z.bits_above_log2 b n); [done|lia|].
      apply Z.log2_lt_pow2; [lia|].
      apply Z.lt_le_trans with (2 ^ 6); [lia|]. apply Z.pow_le_mono_r; lia. }
  rewrite <- Z.lxor_lor by done. by rewrite <- Z.add_nocarry_lxor by done.
Qed.

Lemma tag_shiftr t b : 0 ≤ b < 64 → Z.shiftr (b + 64 * t) 6 = t.
Proof.
  intros Hb. rewrite Z.shiftr_div_pow2 by lia. change (2 ^ 6) with 64.
  rewrite Z.mul_comm, Z.div_add by lia. rewrite Z.div_small; lia.
Qed.

Lemma tag_land t b : 0 ≤ b < 64 → Z.land (b + 64 * t) 0x3F = b.
Proof.
  intros Hb. change 0x3F with (Z.ones 6). rewrite Z.land_ones by lia.
  change (2 ^ 6) with 64. rewrite Z.mul_comm, Z_mod_plus_full.
  by rewrite Z.mod_small.
Qed.

(** Decoding a byte string whose first byte carries the tag of its length. *)
Lemma decode_tagged t b tl rest :
  0 ≤ t < 4 → 0 ≤ b < 64 → zlen tl = Z.shiftl 1 t - 1 →
  decode_varint ((b + 64 * t) :: tl ++ rest) = Some (be_fold b tl, Z.shiftl 1 t).
Proof.
  intros Ht Hb Hlen. unfold decode_varint.
  rewrite tag_shiftr, tag_land by done.
  assert (Hpos : 0 < Z.shiftl 1 t) by (rewrite Z.shiftl_mul_pow2, Z.mul_1_l by lia; apply Z.pow_pos_nonneg; lia).
  rewrite zlen_cons, zlen_app. pose proof (zlen_nonneg rest).
  rewrite (proj2 (Z.ltb_ge _ _)) by lia.
  do 2 f_equal. rewrite <- Hlen.
  exact (f_equal (be_fold b) (sub_app_exact [b + 64 * t] tl rest)).
Qed.

(** The bytes an encoder of width [2^t] writes for a value that fits. *)
Definition tagged_bytes (t : Z) (v : Z) : bytes :=
  let n := Z.to_nat (Z.shiftl 1 t - 1) in
  (v / 256 ^ Z.of_nat n + 64 * t) :: be_bytes n v.

Lemma tagged_head_bound n v :
  0 ≤ v < 64 * 256 ^ Z.of_nat n → 0 ≤ v / 256 ^ Z.of_nat n < 64.
Proof.
  intros Hv. pose proof (pow256_pos n). split.
  - apply Z.div_pos; lia.
  - apply Z.div_lt_upper_bound; lia.
Qed.

Lemma head_byte n v :
  0 ≤ v < 64 * 256 ^ Z.of_nat n →
  as_u8 (Z.shiftr v (8 * Z.of_nat n)) = v / 256 ^ Z.of_nat n.
Proof.
  intros Hv. pose proof (tagged_head_bound n v Hv).
  rewrite Z.shiftr_div_pow2 by lia.
  rewrite Z.pow_mul_r by lia. change (2 ^ 8) with 256.
  unfold as_u8. rewrite Z.mod_small; lia.
Qed.

Lemma decode_tagged_bytes t v rest :
  0 ≤ t < 4 → 0 ≤ v < 64 * 256 ^ (Z.shiftl 1 t - 1) →
  decode_varint (tagged_bytes t v ++ rest) = Some (v, Z.shiftl 1 t).
Proof.
  intros Ht Hv. unfold tagged_bytes.
  assert (Hpos : 1 ≤ Z.shiftl 1 t ≤ 8).
  { assert (t = 0 ∨ t = 1 ∨ t = 2 ∨ t = 3) as [-> | [-> | [-> | ->]]] by lia;
      vm_compute; split; discriminate. }
  set (n := Z.to_nat (Z.shiftl 1 t - 1)).
  assert (Hn : Z.of_nat n = Z.shiftl 1 t - 1) by (unfold n; lia).
  rewrite <- Hn in Hv.
  pose proof (tagged_head_bound n v Hv) as Hb. pose proof (pow256_pos n) as Hp.
  rewrite <- app_comm_cons.
  rewrite decode_tagged; [|done|done|unfold zlen; rewrite length_be_bytes; lia].
  rewrite be_fold_be_bytes; [|lia|].
  - do 2 f_equal. rewrite (Z.div_mod v (256 ^ Z.of_nat n)) at 3 by lia. lia.
  - assert ((v / 256 ^ Z.of_nat n + 1) * 256 ^ Z.of_nat n ≤ 64 * 256 ^ Z.of_nat n) by nia.
    assert (256 ^ Z.of_nat n ≤ 256 ^ 7) by (apply Z.pow_le_mono_r; lia).
    change (256 ^ 7) with 72057594037927936 in *. lia.
Qed.

(** What the encoder appends, in every branch. *)
Definition width_tag (v : Z) : Z :=
  if v <? 2 ^ 6 then 0 else if v <? 2 ^ 14 then 1 else if v <? 2 ^ 30 then 2 else 3.

Lemma shiftl_width_tag v : Z.shiftl 1 (width_tag v) = varint_width v.
Proof.
  unfold width_tag, varint_width.
  change (Z.shiftl 1 6) with (2 ^ 6). change (Z.shiftl 1 14) with (2 ^ 14).
  change (Z.shiftl 1 30) with (2 ^ 30).
  by repeat case_if.
Qed.

Lemma encode_varint_spec v out :
  0 ≤ v < 2 ^ 62 →
  encode_varint v out = Some (out ++ tagged_bytes (width_tag v) v).
Proof.
  intros Hv. unfold encode_varint, width_tag.
  change (Z.shiftl 1 6) with (2 ^ 6). change (Z.shiftl 1 14) with (2 ^ 14).
  change (Z.shiftl 1 30) with (2 ^ 30). change (Z.shiftl 1 62) with (2 ^ 62).
  destruct (v <? 2 ^ 6) eqn:H6; [|destruct (v <? 2 ^ 14) eqn:H14;
    [|destruct (v <? 2 ^ 30) eqn:H30; [|destruct (v <? 2 ^ 62) eqn:H62]]];
    breflect; try lia; unfold tagged_bytes.
  - change (Z.to_nat (Z.shiftl 1 0 - 1)) with 0%nat. simpl be_bytes.
    unfold as_u8. rewrite Z.mod_small by lia.
    change (256 ^ Z.of_nat 0) with 1. rewrite Z.div_1_r.
    by replace (v + 64 * 0) with v by lia.
  - change (Z.to_nat (Z.shiftl 1 1 - 1)) with 1%nat.
    unfold as_u16. rewrite Z.mod_small by lia.
    rewrite be_bytes_cons, head_byte by (simpl; lia).
    change 0x40 with (64 * 1). rewrite tag_byte; [done|lia|].
    apply tagged_head_bound. simpl. lia.
  - change (Z.to_nat (Z.shiftl 1 2 - 1)) with 3%nat.
    unfold as_u32. rewrite Z.mod_small by lia.
    rewrite be_bytes_cons, head_byte by (simpl; lia).
    change 0x80 with (64 * 2). rewrite <- tag_byte; [done|lia|].
    apply tagged_head_bound. simpl. lia.
  - change (Z.to_nat (Z.shiftl 1 3 - 1)) with 7%nat.
    rewrite be_bytes_cons, head_byte by (simpl; lia).
    change 0xC0 with (64 * 3). rewrite tag_byte; [|lia|apply tagged_head_bound; simpl; lia].
    by rewrite <- app_assoc.
Qed.

Lemma width_tag_range v : 0 ≤ width_tag v < 4.
Proof. unfold width_tag. repeat case_if; lia. Qed.

Lemma width_tag_fits v :
  0 ≤ v < 2 ^ 62 → v < 64 * 256 ^ (Z.shiftl 1 (width_tag v) - 1).
Proof.
  intros Hv. unfold width_tag.
  repeat case_if; breflect; lazymatch goal with
    |- v < ?x => let y := eval vm_compute in x in change x with y end; lia.
Qed.

Lemma zlen_tagged_bytes v : zlen (tagged_bytes (width_tag v) v) = varint_width v.
Proof.
  unfold tagged_bytes. rewrite zlen_cons. unfold zlen at 1.
  rewrite length_be_bytes, <- shiftl_width_tag.
  pose proof (width_tag_range v).
  assert (1 ≤ Z.shiftl 1 (width_tag v)); [|lia].
  rewrite Z.shiftl_mul_pow2, Z.mul_1_l by lia.
  pose proof (Z.pow_pos_nonneg 2 (width_tag v)). lia.
Qed.

(** The first byte decides the length. *)
Lemma tag_of_byte b : is_byte b → 0 ≤ Z.shiftr b 6 < 4.
Proof.
  unfold is_byte. intros. rewrite Z.shiftr_div_pow2 by lia.
  change (2 ^ 6) with 64. split; [apply Z.div_pos; lia|].
  apply Z.div_lt_upper_bound; lia.
Qed.

Lemma decode_varint_inv buf v n :
  all_bytes buf → decode_varint buf = Some (v, n) →
  ∃ b tl, buf = b :: tl ∧ n = Z.shiftl 1 (Z.shiftr b 6) ∧ n ≤ zlen buf ∧
    (n = 1 ∨ n = 2 ∨ n = 4 ∨ n = 8) ∧
    v = be_fold (Z.land b 0x3F) (sub 1 (n - 1) buf).
Proof.
  intros Hb. unfold decode_varint. destruct buf as [|b tl]; [done|].
  case_if; [done|]. intros [= <- <-]. breflect.
  exists b, tl. repeat split; try done.
  inversion Hb; subst.
  assert (0 ≤ Z.shiftr b 6 < 4) by by apply tag_of_byte.
  assert (Z.shiftr b 6 = 0 ∨ Z.shiftr b 6 = 1 ∨ Z.shiftr b 6 = 2 ∨ Z.shiftr b 6 = 3)
    as [E | [E | [E | E]]] by lia; rewrite E; vm_compute; auto.
Qed.

Lemma all_bytes_sub off n l : all_bytes l → all_bytes (sub off n l).
Proof. intros H. unfold sub. by apply Forall_take, Forall_drop. Qed.

Lemma land_63_bound b : 0 ≤ Z.land b 0x3F < 64.
Proof.
  change 0x3F with (Z.ones 6). rewrite Z.land_ones by lia.
  apply Z.mod_pos_bound. lia.
Qed.

(** Encoding appends and never looks at what is already in [out]. *)
Lemma encode_varint_Some v out e :
  0 ≤ v → encode_varint v out = Some e →
  v < 2 ^ 62 ∧ e = out ++ tagged_bytes (width_tag v) v.
Proof.
  intros Hv He. destruct (Z.lt_ge_cases v (2 ^ 62)) as [Hlt|Hge].
  - rewrite encode_varint_spec in He by lia. by injection He as <-.
  - exfalso. revert He. unfold encode_varint.
    change (Z.shiftl 1 6) with (2 ^ 6). change (Z.shiftl 1 14) with (2 ^ 14).
    change (Z.shiftl 1 30) with (2 ^ 30). change (Z.shiftl 1 62) with (2 ^ 62).
    repeat (case_if; breflect; [lia|]). done.
Qed.

(** The encoding on its own, and decoding it in front of anything. *)
Definition varint (v : Z) : bytes := tagged_bytes (width_tag v) v.

Lemma decode_varint_app v rest :
  0 ≤ v < 2 ^ 62 → decode_varint (varint v ++ rest) = Some (v, varint_width v).
Proof.
  intros Hv. unfold varint. rewrite <- shiftl_width_tag.
  apply decode_tagged_bytes; [apply width_tag_range|]. split; [lia|by apply width_tag_fits].
Qed.

Lemma varint_width_pos v : 1 ≤ varint_width v ≤ 8.
Proof. unfold varint_width. repeat case_if; lia. Qed.

(** A QUIC integer below [2^62] is encoded, by appending
    [varint_width] bytes, into a string that decodes to the same value and
    length whatever follows it. *)
Theorem varint_roundtrip v out :
  0 ≤ v < 2 ^ 62 →
  ∃ e, encode_varint v out = Some (out ++ e) ∧ zlen e = varint_width v ∧
    ∀ rest, decode_varint (e ++ rest) = Some (v, varint_width v).
Proof.
  intros Hv. exists (tagged_bytes (width_tag v) v). split_and!.
  - by apply encode_varint_spec.
  - apply zlen_tagged_bytes.
  - intros rest. by apply decode_varint_app.
Qed.

Lemma varint_roundtrip_witness :
  ∃ e, encode_varint 151288809941952652 [7] = Some ([7] ++ e) ∧ zlen e = 8 ∧
    ∀ rest, decode_varint (e ++ rest) = Some (151288809941952652, 8).
Proof. exact (varint_roundtrip 151288809941952652 [7] ltac:(lia)). Defined.

(** The value of a decoded integer fits the width it was read with. *)
Lemma decode_varint_value buf v n :
  all_bytes buf → decode_varint buf = Some (v, n) →
  0 ≤ v < 64 * 256 ^ (n - 1) ∧ (n = 1 ∨ n = 2 ∨ n = 4 ∨ n = 8) ∧ n ≤ zlen buf.
Proof.
  intros Hb Hd.
  pose proof (decode_varint_inv _ _ _ Hb Hd) as (b & tl & -> & Hn & Hle & Hcases & Hv).
  pose proof (land_63_bound b) as Hl. split_and!; try done.
  - pose proof (be_fold_bound (Z.land b 0x3F) (sub 1 (n - 1) (b :: tl))) as Hf.
    rewrite zlen_sub, <- Hv in Hf by (apply fits_spec; lia).
    apply Hf; [by apply all_bytes_sub|lia|]. destruct Hcases as [-> | [-> | [-> | ->]]]; simpl; lia.
  - pose proof (be_fold_bound (Z.land b 0x3F) (sub 1 (n - 1) (b :: tl))) as Hf.
    rewrite zlen_sub, <- Hv in Hf by (apply fits_spec; lia).
    assert (v < (Z.land b 0x3F + 1) * 256 ^ (n - 1)).
    { apply Hf; [by apply all_bytes_sub|lia|].
      destruct Hcases as [-> | [-> | [-> | ->]]]; simpl; lia. }
    pose proof (Z.pow_pos_nonneg 256 (n - 1)). nia.
Qed.

(** A decoded integer is below [2^62], takes 1, 2, 4 or 8 bytes that are
    all inside the buffer, is never shorter than the width the encoder
    chooses for it, and depends on those bytes only. *)
Theorem decode_varint_sound buf v n rest :
  all_bytes buf → decode_varint buf = Some (v, n) →
  0 ≤ v < 2 ^ 62 ∧ (n = 1 ∨ n = 2 ∨ n = 4 ∨ n = 8) ∧ n ≤ zlen buf ∧
  varint_width v ≤ n ∧ decode_varint (sub 0 n buf ++ rest) = Some (v, n).
Proof.
  intros Hb Hd. destruct (decode_varint_value _ _ _ Hb Hd) as ([Hv' Hw] & _ & _).
  pose proof (decode_varint_inv _ _ _ Hb Hd) as (b & tl & -> & Hn & Hle & Hcases & Hv).
  assert (Hs : zlen (sub 1 (n - 1) (b :: tl)) = n - 1).
  { apply zlen_sub, fits_spec. lia. }
  split_and!; try done; try lia.
  - destruct Hcases as [-> | [-> | [-> | ->]]]; simpl in Hw; lia.
  - unfold varint_width. change (Z.shiftl 1 6) with (2 ^ 6).
    change (Z.shiftl 1 14) with (2 ^ 14). change (Z.shiftl 1 30) with (2 ^ 30).
    destruct Hcases as [-> | [-> | [-> | ->]]]; simpl in Hw;
      repeat case_if; breflect; lia.
  - assert (Hsub : sub 0 n (b :: tl) = b :: sub 1 (n - 1) (b :: tl)).
    { unfold sub. change (Z.to_nat 0) with 0%nat. change (Z.to_nat 1) with 1%nat.
      simpl drop. rewrite drop_0.
      replace (Z.to_nat n) with (S (Z.to_nat (n - 1))) by lia. done. }
    rewrite Hsub. simpl app. unfold decode_varint.
    rewrite <- Hn, zlen_cons, zlen_app, Hs. pose proof (zlen_nonneg rest).
    rewrite (proj2 (Z.ltb_ge _ _)) by lia. do 2 f_equal.
    rewrite Hv. f_equal.
    etransitivity; [|exact (sub_app_exact [b] (sub 1 (n - 1) (b :: tl)) rest)].
    rewrite Hs. done.
Qed.

Lemma decode_varint_sound_witness :
  0 ≤ 37 < 2 ^ 62 ∧ (2 = 1 ∨ 2 = 2 ∨ 2 = 4 ∨ 2 = 8) ∧ 2 ≤ zlen [0x40; 0x25; 9] ∧
  varint_width 37 ≤ 2 ∧
  decode_varint (sub 0 2 [0x40; 0x25; 9] ++ [1; 2]) = Some (37, 2).
Proof.
  apply (decode_varint_sound [0x40; 0x25; 9] 37 2 [1; 2]).
  - by_decision.
  - reflexivity.
Defined.

End Varint.
