(* ===== verification/Effects.v ===== *)
(** * Effects: state, panics and undefined behaviour

    The shim is a set of [extern "C"] functions over process-wide state and
    over memory owned by the caller. A function is a program of the monad
    [prog S]: it returns a value and a new state, panics (the crate is built
    with [panic = "abort"], so a panic ends the process), or has undefined
    behaviour (a raw pointer used outside the buffer it points to). A loop whose
    bound the code does not show runs on fuel, and running out of it is an
    outcome of its own, which the theorems about that loop exclude.

    The memory model is typed: one store of blocks per element type, a pointer
    being null or a block with an offset. Two pointers into one block alias. *)

From S2P Require Import Prelude.

Module Effects.

Inductive outcome (S A : Type) : Type :=
  | Ret (a : A) (s : S)
  | Panic (msg : string)
  | Undef
  | NoFuel.
Arguments Ret {S A} _ _.
Arguments Panic {S A} _.
Arguments Undef {S A}.
Arguments NoFuel {S A}.

Definition prog (S A : Type) : Type := S → outcome S A.

#[global] Instance prog_ret S : MRet (prog S) := λ A a s, Ret a s.
#[global] Instance prog_bind S : MBind (prog S) := λ A B k c s,
  match c s with
  | Ret a s' => k a s'
  | Panic m => Panic m
  | Undef => Undef
  | NoFuel => NoFuel
  end.

Definition gets {S A} (f : S → A) : prog S A := λ s, Ret (f s) s.
Definition modify {S} (f : S → S) : prog S unit := λ s, Ret tt (f s).
Definition panic {S A} (m : string) : prog S A := λ _, Panic m.
Definition undef {S A} : prog S A := λ _, Undef.
Definition no_fuel {S A} : prog S A := λ _, NoFuel.

(** [unwrap]/[expect] on an option. *)
Definition expect {S A} (o : option A) (m : string) : prog S A :=
  match o with Some a => mret a | None => panic m end.

(** [assert!] and [assert_eq!]. *)
Definition assert_ {S} (b : bool) (msg : string) : prog S unit := if b then mret tt else panic msg.

(** [for i in i0 .. i0 + n]: the body threads an accumulator. *)
Fixpoint for_loop {S A} (n : nat) (i : Z) (body : Z → A → prog S A) (acc : A)
  : prog S A :=
  match n with
  | O => mret acc
  | S n' => acc' ← body i acc; for_loop n' (i + 1) body acc'
  end.

Lemma assert_pass {S A} msg (k : prog S A) s : (assert_ true msg;; k) s = k s.
Proof. done. Qed.

(** The step of a sequence of programs. *)
Lemma bind_Ret {S A B} (c : prog S A) (k : A → prog S B) s a s' :
  c s = Ret a s' → (c ≫= k) s = k a s'.
Proof. intros H. unfold mbind, prog_bind. by rewrite H. Qed.

(** The converse: a sequence that returns returned at its first step. *)
Lemma bind_Ret_inv {S A B} (c : prog S A) (k : A → prog S B) s b s' :
  (c ≫= k) s = Ret b s' → ∃ a s1, c s = Ret a s1 ∧ k a s1 = Ret b s'.
Proof. unfold mbind, prog_bind. destruct (c s); intros; simplify_eq; eauto. Qed.

(** The result and the state a call ends with. *)
Definition result_of {S A} (o : outcome S A) : option A :=
  match o with Ret a _ => Some a | _ => None end.
Definition state_of {S A} (s : S) (o : outcome S A) : S :=
  match o with Ret _ s' => s' | _ => s end.

Lemma ret_of {S A} (s : S) (o : outcome S A) a :
  result_of o = Some a → o = Ret a (state_of s o).
Proof. by destruct o; intros [= ->]. Qed.

(** ** Typed memory *)

Inductive ptr : Type := Null | Ptr (blk : N) (off : Z).

#[global] Instance ptr_eq_dec : EqDecision ptr.
Proof. solve_decision. Defined.

Definition is_null (p : ptr) : bool := match p with Null => true | Ptr _ _ => false end.
Definition ptr_add (p : ptr) (n : Z) : ptr :=
  match p with Null => Null | Ptr b o => Ptr b (o + n) end.

Section Heap.
Context {A : Type}.

(** [slice::from_raw_parts(p, n)]: [None] when the range is not in a live
    block, which is undefined behaviour. *)
Definition load (h : gmap N (list A)) (p : ptr) (n : Z) : option (list A) :=
  match p with
  | Null => None
  | Ptr b o =>
      match h !! b with
      | Some l => if fits o n l then Some (sub o n l) else None
      | None => None
      end
  end.

(** Writing a slice back to where it was read from. *)
Definition store (h : gmap N (list A)) (p : ptr) (new : list A)
  : option (gmap N (list A)) :=
  match p with
  | Null => None
  | Ptr b o =>
      match h !! b with
      | Some l => if fits o (zlen new) l then Some (<[b := splice o new l]> h) else None
      | None => None
      end
  end.

Lemma load_length h p n l : load h p n = Some l → zlen l = n.
Proof.
  unfold load. destruct p as [|b o]; [done|].
  destruct (h !! b); [|done]. case_if; [|done].
  intros [= <-]. by apply zlen_sub.
Qed.

Lemma load_not_null h p n l : load h p n = Some l → is_null p = false.
Proof. by destruct p. Qed.

(** A range that can be read can be overwritten, and then reads back. *)
Lemma store_load h p n l new :
  load h p n = Some l → zlen new = n →
  ∃ h', store h p new = Some h' ∧ load h' p n = Some new.
Proof.
  unfold load, store. intros Hl <-. destruct p as [|b o]; [done|].
  destruct (h !! b) as [blk|] eqn:Hb; [|done].
  destruct (fits o (zlen new) blk) eqn:Hf; [|done].
  eexists. split; [done|]. rewrite lookup_insert_eq.
  pose proof (length_splice o new blk Hf) as Hlen.
  assert (Hf' : fits o (zlen new) (splice o new blk) = true).
  { apply fits_spec in Hf. apply fits_spec. unfold zlen in *. lia. }
  rewrite Hf'. by rewrite sub_splice_same.
Qed.

(** A shorter range at the same pointer. *)
Lemma load_prefix h p n n' l :
  load h p n = Some l → 0 ≤ n' ≤ n → load h p n' = Some (sub 0 n' l).
Proof.
  unfold load. destruct p as [|b o]; [done|].
  destruct (h !! b) as [blk|]; [|done].
  destruct (fits o n blk) eqn:Hf; [|done]. intros [= <-] Hn.
  pose proof Hf as Hf'. apply fits_spec in Hf'.
  assert (fits o n' blk = true) as -> by (apply fits_spec; lia).
  f_equal. unfold sub. change (Z.to_nat 0) with 0%nat. rewrite drop_0.
  rewrite take_take. f_equal. lia.
Qed.

(** Two ranges next to each other. *)
Lemma load_app h p n m k l :
  load h p n = Some k → load h (ptr_add p n) m = Some l → load h p (n + m) = Some (k ++ l).
Proof.
  unfold load. destruct p as [|b o]; [done|]. simpl. destruct (h !! b) as [blk|]; [|done].
  destruct (fits o n blk) eqn:F1; [|done]. intros [= <-].
  destruct (fits (o + n) m blk) eqn:F2; [|done]. intros [= <-].
  apply fits_spec in F1, F2.
  assert (fits o (n + m) blk = true) as -> by (apply fits_spec; lia).
  by rewrite sub_sub_app by lia.
Qed.

Lemma load_tail h p n m k l :
  load h p (n + m) = Some (k ++ l) → zlen k = n → 0 ≤ m → load h (ptr_add p n) m = Some l.
Proof.
  unfold load. destruct p as [|b o]; [done|]. simpl. destruct (h !! b) as [blk|]; [|done].
  destruct (fits o (n + m) blk) eqn:F; [|done]. apply fits_spec in F. intros [= E] Hk Hm.
  pose proof (zlen_nonneg k).
  assert (fits (o + n) m blk = true) as -> by (apply fits_spec; lia).
  f_equal. rewrite <- sub_sub_app in E by lia.
  apply app_inj_1 in E as [_ E]; [done|].
  apply Nat2Z.inj. change (zlen (sub o n blk) = zlen k).
  rewrite zlen_sub; [done|]. apply fits_spec. lia.
Qed.

(** Two writes next to each other are one write. *)
Lemma store_adjacent h p k l b :
  load h p (zlen k + zlen l) = Some b →
  ∃ h1 h2, store h p k = Some h1 ∧ store h1 (ptr_add p (zlen k)) l = Some h2 ∧
    load h2 p (zlen k + zlen l) = Some (k ++ l).
Proof.
  intros Hl. assert (Hkl : zlen (k ++ l) = zlen k + zlen l) by apply zlen_app.
  destruct (store_load h p _ b (k ++ l) Hl Hkl) as (h' & Hs & Hl').
  unfold store, load, ptr_add in *. destruct p as [|blk o]; [done|].
  destruct (h !! blk) as [c|] eqn:Hb; [|done]. rewrite Hkl in Hs.
  destruct (fits o (zlen k + zlen l) c) eqn:Hf; [|done].
  pose proof (proj1 (fits_spec _ _ _) Hf) as Hf'.
  pose proof (zlen_nonneg k). pose proof (zlen_nonneg l).
  assert (Hfk : fits o (zlen k) c = true) by (apply fits_spec; lia).
  rewrite Hfk. eexists _, _. split; [done|]. rewrite lookup_insert_eq.
  assert (zlen (splice o k c) = zlen c) as Hlen
    by (unfold zlen; by rewrite length_splice).
  assert (fits (o + zlen k) (zlen l) (splice o k c) = true) as ->
    by (apply fits_spec; lia).
  split; [done|]. rewrite splice_splice_adjacent by done.
  rewrite insert_insert_eq. injection Hs as <-. done.
Qed.

Lemma store_other h p new h' b :
  store h p new = Some h' → (∀ o, p ≠ Ptr b o) → h' !! b = h !! b.
Proof.
  unfold store. destruct p as [|b' o]; [done|].
  destruct (h !! b'); [|done]. case_if; [|done].
  intros [= <-] Hne. apply lookup_insert_ne. intros ->. by eapply Hne.
Qed.

(** A write to one block does not move another block's contents. *)
Lemma load_store_other h p q n new h' :
  store h p new = Some h' →
  (∀ b o o', p = Ptr b o → q ≠ Ptr b o') → load h' q n = load h q n.
Proof.
  intros Hs Hne. destruct q as [|b o]; [done|]. unfold load.
  rewrite (store_other _ _ _ _ b Hs); [done|].
  intros o' ->. by eapply Hne.
Qed.

(** Two ranges of memory that do not overlap. *)
Definition apart (p : ptr) (n : Z) (q : ptr) (m : Z) : Prop :=
  match p, q with
  | Ptr b o, Ptr b' o' => b ≠ b' ∨ o + n ≤ o' ∨ o' + m ≤ o
  | _, _ => True
  end.

Lemma store_fits h b o new h' :
  store h (Ptr b o) new = Some h' →
  ∃ l, h !! b = Some l ∧ fits o (zlen new) l = true ∧ h' = <[b := splice o new l]> h.
Proof.
  unfold store. destruct (h !! b) as [l|]; [|done]. destruct (fits o (zlen new) l) eqn:E; [|done].
  intros [= <-]. eauto.
Qed.

Lemma load_store_apart h p q m new h' :
  store h p new = Some h' → apart p (zlen new) q m → load h' q m = load h q m.
Proof.
  destruct p as [|b o]; [done|]. destruct q as [|b' o']; [done|].
  intros (l & Hl & Hf & ->)%store_fits Ha. unfold load. rewrite lookup_insert.
  case_decide as E; [subst b'|done]. rewrite Hl.
  assert (Hz : zlen (splice o new l) = zlen l) by (unfold zlen; by rewrite length_splice).
  replace (fits o' m (splice o new l)) with (fits o' m l) by (unfold fits; by rewrite Hz).
  destruct (fits o' m l) eqn:Hf'; [|done]. f_equal. apply fits_spec in Hf'.
  apply sub_splice_disjoint; try done; try lia. simpl in Ha.
  destruct Ha as [?|[?|?]]; [done|right; lia|left; lia].
Qed.

Lemma store_length h p new h' b l l' :
  store h p new = Some h' → h !! b = Some l → h' !! b = Some l' →
  length l' = length l.
Proof.
  unfold store. destruct p as [|b' o]; [done|].
  destruct (h !! b') as [k|] eqn:Hb; [|done].
  destruct (fits o (zlen new) k) eqn:Hf; [|done]. intros [= <-] Hl.
  rewrite lookup_insert. case_decide; [|congruence].
  intros [= <-]. subst. rewrite length_splice by done. congruence.
Qed.
End Heap.

End Effects.
