(* ===== verification/Handles.v ===== *)
(** * The handle table

    Models [src/crates/librustls-mojo/src/handles.rs]: the global counter
    [NEXT_HANDLE], [next_handle], and the generic [HandleTable<T>] with
    [insert], [with], [with_mut] and [remove]. A table lives in a state [S]
    through a lens; the counter is shared by every table of the state. The
    locking build and the [skip-locks] build have the same sequential
    behaviour, which is what is modelled. *)

From S2P Require Import Prelude Effects.
Import Effects.

Module Handles.

(** Where the shared counter lives in the state. *)
Class HasCounter (S : Type) := {
  counter : S → Z;
  set_counter : Z → S → S;
}.

Class HasCounterLaws (S : Type) `{HasCounter S} := {
  counter_set : ∀ z s, counter (set_counter z s) = z;
  set_counter_twice : ∀ y z s, set_counter y (set_counter z s) = set_counter y s;
}.

(** A table is a view of the state as a map from handles to objects. *)
Record HandleTable (S T : Type) := {
  map_of : S → gmap Z T;
  set_map : gmap Z T → S → S;
}.
Arguments map_of {S T} _ _.
Arguments set_map {S T} _ _ _.

Section Operations.
Context {S : Type} `{HasCounter S}.

(** [NEXT_HANDLE.fetch_add(1, Relaxed)]: the old value, the sum wraps. *)
Definition fetch_add_1 : prog S Z :=
  h ← gets counter;
  modify (set_counter (as_i32 (h + 1)));;
  mret h.

Definition next_handle : prog S (option Z) :=
  h ← fetch_add_1;
  if 0 <? h then mret (Some h)
  else (modify (set_counter i32_max);; mret None).

Context {T : Type} (tbl : HandleTable S T).

Definition insert (value : T) : prog S (option Z) :=
  o ← next_handle;
  match o with
  | None => mret None
  | Some h =>
      modify (λ s, set_map tbl (<[h := value]> (map_of tbl s)) s);;
      mret (Some h)
  end.

(** [with]: the closure sees the object and returns a value. *)
Definition with_ {R} (handle : Z) (f : T → prog S R) : prog S (option R) :=
  o ← gets (λ s, map_of tbl s !! handle);
  match o with
  | None => mret None
  | Some x => r ← f x; mret (Some r)
  end.

(** [with_mut]: the closure returns the object as it leaves it. *)
Definition with_mut {R} (handle : Z) (f : T → prog S (T * R)) : prog S (option R) :=
  o ← gets (λ s, map_of tbl s !! handle);
  match o with
  | None => mret None
  | Some x =>
      '(x', r) ← f x;
      modify (λ s, set_map tbl (<[handle := x']> (map_of tbl s)) s);;
      mret (Some r)
  end.

Definition remove (handle : Z) : prog S (option T) :=
  o ← gets (λ s, map_of tbl s !! handle);
  modify (λ s, set_map tbl (delete handle (map_of tbl s)) s);;
  mret o.
End Operations.

(** What a table promises: the view behaves like a map, and changing one
    table changes neither the counter nor the rest of the state. *)
Class TableLaws {S T : Type} `{HasCounter S} (tbl : HandleTable S T) := {
  map_of_set : ∀ m s, map_of tbl (set_map tbl m s) = m;
  set_map_of : ∀ s, set_map tbl (map_of tbl s) s = s;
  counter_set_map : ∀ m s, counter (set_map tbl m s) = counter s;
  map_of_set_counter : ∀ z s, map_of tbl (set_counter z s) = map_of tbl s;
}.

Section Facts.
Context {S : Type} `{HasCounterLaws S}.

Lemma next_handle_pos s :
  0 < counter s →
  next_handle s = Ret (Some (counter s)) (set_counter (as_i32 (counter s + 1)) s).
Proof.
  intros Hc. unfold next_handle, fetch_add_1, mbind, prog_bind, gets, modify, mret, prog_ret.
  by rewrite (proj2 (Z.ltb_lt _ _)).
Qed.

Lemma next_handle_exhausted s :
  counter s ≤ 0 → next_handle s = Ret None (set_counter i32_max s).
Proof.
  intros Hc. unfold next_handle, fetch_add_1, mbind, prog_bind, gets, modify, mret, prog_ret.
  rewrite (proj2 (Z.ltb_ge _ _)) by lia. by rewrite set_counter_twice.
Qed.

Context {T : Type} (tbl : HandleTable S T) `{!TableLaws tbl}.

Lemma insert_pos v s :
  0 < counter s →
  insert tbl v s =
    Ret (Some (counter s))
      (set_map tbl (<[counter s := v]> (map_of tbl s))
         (set_counter (as_i32 (counter s + 1)) s)).
Proof.
  intros Hc. unfold insert.
  rewrite (bind_Ret _ _ _ _ _ (next_handle_pos s Hc)).
  unfold mbind, prog_bind, modify, mret, prog_ret.
  by rewrite map_of_set_counter.
Qed.

Lemma insert_exhausted v s :
  counter s ≤ 0 → insert tbl v s = Ret None (set_counter i32_max s).
Proof.
  intros Hc. unfold insert.
  by rewrite (bind_Ret _ _ _ _ _ (next_handle_exhausted s Hc)).
Qed.

Lemma with_Some {R} h (f : T → prog S R) s x :
  map_of tbl s !! h = Some x →
  with_ tbl h f s = match f x s with
                    | Ret r s' => Ret (Some r) s'
                    | Panic m => Panic m
                    | Undef => Undef
                    | NoFuel => NoFuel
                    end.
Proof. intros Hx. unfold with_, mbind, prog_bind, gets. by rewrite Hx. Qed.

Lemma with_None {R} h (f : T → prog S R) s :
  map_of tbl s !! h = None → with_ tbl h f s = Ret None s.
Proof. intros Hx. unfold with_, mbind, prog_bind, gets. by rewrite Hx. Qed.

Lemma with_mut_Some {R} h (f : T → prog S (T * R)) s x :
  map_of tbl s !! h = Some x →
  with_mut tbl h f s =
    match f x s with
    | Ret (x', r) s' => Ret (Some r) (set_map tbl (<[h := x']> (map_of tbl s')) s')
    | Panic m => Panic m
    | Undef => Undef
    | NoFuel => NoFuel
    end.
Proof.
  intros Hx. unfold with_mut, mbind, prog_bind, gets. rewrite Hx.
  by destruct (f x s) as [[x' r] s'| | |].
Qed.

Lemma with_mut_None {R} h (f : T → prog S (T * R)) s :
  map_of tbl s !! h = None → with_mut tbl h f s = Ret None s.
Proof. intros Hx. unfold with_mut, mbind, prog_bind, gets. by rewrite Hx. Qed.

Lemma remove_eq h s :
  remove tbl h s =
    Ret (map_of tbl s !! h) (set_map tbl (delete h (map_of tbl s)) s).
Proof. done. Qed.
End Facts.

(** ** The sequence of handles

    [nth_handle k] is what the [k]-th call of [next_handle] in the life of
    the process returns (k from 0), over the bare counter. *)

#[global] Instance Z_counter : HasCounter Z := { counter := id; set_counter := λ z _, z }.
#[global] Instance Z_counter_laws : HasCounterLaws Z.
Proof. by split. Qed.

Definition run_next (c : Z) : option Z * Z :=
  match next_handle c with Ret o c' => (o, c') | _ => (None, c) end.

Fixpoint nth_handle (k : nat) (c : Z) : option Z :=
  match k with
  | O => (run_next c).1
  | S k' => nth_handle k' (run_next c).2
  end.

Lemma run_next_pos c : 0 < c → run_next c = (Some c, as_i32 (c + 1)).
Proof. intros Hc. unfold run_next. by rewrite next_handle_pos. Qed.

Lemma run_next_nonpos c : c ≤ 0 → run_next c = (None, i32_max).
Proof. intros Hc. unfold run_next. by rewrite next_handle_exhausted. Qed.

Lemma nth_handle_before k c :
  0 < c → c + Z.of_nat k ≤ i32_max → nth_handle k c = Some (c + Z.of_nat k).
Proof.
  unfold i32_max. revert c. induction k as [|k IH]; intros c Hc Hk; simpl;
    rewrite run_next_pos by done; simpl.
  - f_equal. lia.
  - rewrite as_i32_id by (unfold in_i32, i32_min, i32_max; lia).
    rewrite IH by lia. f_equal. lia.
Qed.

(** From the exhausted counter on, failures and the last handle alternate. *)
Lemma nth_handle_exhausted k c :
  c = i32_max ∨ c = i32_min →
  nth_handle k c =
    if Bool.eqb (Nat.even k) (c =? i32_max) then Some i32_max else None.
Proof.
  revert c. induction k as [|k IH]; intros c [-> | ->].
  - done.
  - done.
  - change (nth_handle (S k) i32_max) with (nth_handle k i32_min).
    rewrite IH by auto. rewrite Nat.even_succ, <- Nat.negb_even.
    by destruct (Nat.even k).
  - change (nth_handle (S k) i32_min) with (nth_handle k i32_max).
    rewrite IH by auto. rewrite Nat.even_succ, <- Nat.negb_even.
    by destruct (Nat.even k).
Qed.

Lemma nth_handle_add j k c :
  0 < c → c + Z.of_nat j ≤ i32_max →
  nth_handle (j + k) c = nth_handle k (c + Z.of_nat j).
Proof.
  unfold i32_max. revert c. induction j as [|j IH]; intros c Hc Hk.
  - simpl. f_equal. lia.
  - simpl. rewrite run_next_pos by done. simpl.
    rewrite as_i32_id by (unfold in_i32, i32_min, i32_max; lia).
    rewrite IH by lia. f_equal. lia.
Qed.

(** C35: the [k]-th call of [next_handle] in a process returns [k + 1] for the
    first [i32::MAX] calls; after that, failures and the already issued handle
    [i32::MAX] alternate. *)
Theorem handle_sequence k :
  nth_handle k 1 =
    if Z.of_nat k <? i32_max then Some (Z.of_nat k + 1)
    else if Z.even (Z.of_nat k - i32_max) then None else Some i32_max.
Proof.
  destruct (Z.of_nat k <? i32_max) eqn:Hk; breflect.
  - rewrite nth_handle_before by lia. f_equal. lia.
  - set (j := Z.to_nat (i32_max - 1)).
    replace k with (j + (k - j))%nat by (unfold j, i32_max in *; lia).
    rewrite nth_handle_add by (unfold j, i32_max; lia).
    replace (1 + Z.of_nat j) with i32_max by (unfold j, i32_max; lia).
    rewrite nth_handle_exhausted by auto. rewrite Z.eqb_refl.
    rewrite Nat2Z.inj_add.
    replace (Z.of_nat j + Z.of_nat (k - j) - i32_max) with (Z.of_nat (k - j) - 1)
      by (unfold j, i32_max; lia).
    rewrite Z.sub_1_r, Z.even_pred, <- Z.negb_even.
    rewrite Zeven_of_nat. by destruct (Nat.even (k - j)).
Qed.

(** ** Two tables on one counter

    Any interleaving of operations on two tables that share the counter,
    with the list of the handles issued so far. *)

Class Independent {S A B} (ta : HandleTable S A) (tb : HandleTable S B) := {
  indep_l : ∀ m s, map_of tb (set_map ta m s) = map_of tb s;
  indep_r : ∀ m s, map_of ta (set_map tb m s) = map_of ta s;
}.

Section Tables.
Context {S A B : Type} `{HasCounterLaws S}.
Context (ta : HandleTable S A) (tb : HandleTable S B).
Context `{!TableLaws ta, !TableLaws tb, !Independent ta tb}.

(** One operation on one of the tables; its result extends [issued]. *)
Inductive op_step : S → list Z → S → list Z → Prop :=
  | step_insert_a v s l o s' :
      insert ta v s = Ret o s' → op_step s l s' (option_list o ++ l)
  | step_insert_b v s l o s' :
      insert tb v s = Ret o s' → op_step s l s' (option_list o ++ l)
  | step_remove_a h s l o s' :
      remove ta h s = Ret o s' → op_step s l s' l
  | step_remove_b h s l o s' :
      remove tb h s = Ret o s' → op_step s l s' l
  | step_mut_a {R} h (g : A → A * R) s l o s' :
      with_mut ta h (λ x, mret (g x)) s = Ret o s' → op_step s l s' l
  | step_mut_b {R} h (g : B → B * R) s l o s' :
      with_mut tb h (λ x, mret (g x)) s = Ret o s' → op_step s l s' l.

Inductive reach : S → list Z → Prop :=
  | reach_init s :
      counter s = 1 → map_of ta s = ∅ → map_of tb s = ∅ → reach s []
  | reach_step s l s' l' : reach s l → op_step s l s' l' → reach s' l'.

(** While no handle has been lost to exhaustion, the counter tells how many
    were issued, and live entries of both tables carry issued handles. *)
Record table_inv (s : S) (l : list Z) : Prop := {
  inv_nodup : NoDup l;
  inv_range : ∀ h, h ∈ l → 0 < h ≤ zlen l;
  inv_live : ∀ h, is_Some (map_of ta s !! h) ∨ is_Some (map_of tb s !! h) → h ∈ l;
  inv_disjoint : ∀ h, is_Some (map_of ta s !! h) → map_of tb s !! h = None;
  inv_counter : (zlen l < i32_max ∧ counter s = 1 + zlen l) ∨
                (zlen l = i32_max ∧ (counter s = i32_min ∨ counter s = i32_max));
}.

(** An operation that issues no handle and adds no live entry. *)
Lemma table_inv_shrink s s' l :
  table_inv s l →
  (∀ h, is_Some (map_of ta s' !! h) → is_Some (map_of ta s !! h)) →
  (∀ h, is_Some (map_of tb s' !! h) → is_Some (map_of tb s !! h)) →
  (counter s' = counter s ∨ counter s = i32_min ∧ counter s' = i32_max) →
  table_inv s' l.
Proof.
  intros [Hn Hr Hl Hd Hc] Ha Hb Hcnt. split; try done.
  - intros h [?|?]; apply Hl; eauto.
  - intros h Hh. specialize (Hd h (Ha h Hh)).
    destruct (map_of tb s' !! h) eqn:E; [|done].
    destruct (Hb h) as [? ?]; [by eexists|]. congruence.
  - pose proof (zlen_nonneg l). unfold i32_min, i32_max in *. lia.
Qed.

(** A fresh handle keeps the invariant, whichever table gets the entry. *)
Lemma table_inv_issue s s' l h :
  table_inv s l → h = 1 + zlen l → zlen l < i32_max →
  (∀ k, is_Some (map_of ta s' !! k) → k = h ∨ is_Some (map_of ta s !! k)) →
  (∀ k, is_Some (map_of tb s' !! k) → k = h ∨ is_Some (map_of tb s !! k)) →
  ¬ (is_Some (map_of ta s' !! h) ∧ is_Some (map_of tb s' !! h)) →
  counter s' = as_i32 (h + 1) →
  table_inv s' (h :: l).
Proof.
  intros [Hn Hr Hl Hd Hc] -> Hlt Ha Hb Hx Hcnt.
  assert (Hnew : 1 + zlen l ∉ l) by (intros Hin; apply Hr in Hin; lia).
  pose proof (zlen_nonneg l). split.
  - by constructor.
  - intros h Hin. rewrite zlen_cons. set_unfold in Hin.
    destruct Hin as [->|Hin]; [lia|]. apply Hr in Hin. lia.
  - intros h [Hh|Hh]; set_unfold; [destruct (Ha h Hh)|destruct (Hb h Hh)]; eauto.
  - intros h Hh. destruct (map_of tb s' !! h) eqn:E; [|done].
    destruct (Ha h Hh) as [->|Hha]; [exfalso; eauto|].
    destruct (Hb h) as [->|[? ?]]; [by eexists|exfalso; apply Hnew; eauto|].
    specialize (Hd h Hha). congruence.
  - rewrite zlen_cons, Hcnt. unfold i32_max in Hlt.
    destruct (Z.eq_dec (zlen l) (i32_max - 1)) as [E|E].
    + right. rewrite E. split; [done|]. left. reflexivity.
    + left. unfold i32_max in *. split; [lia|].
      rewrite as_i32_id by (unfold in_i32, i32_min, i32_max; lia). lia.
Qed.

Ltac table_simpl :=
  rewrite ?map_of_set, ?counter_set_map, ?indep_l, ?indep_r, ?map_of_set_counter,
    ?counter_set.

Lemma insert_step_inv {T} (t : HandleTable S T) `{!TableLaws t} v s l o s' :
  table_inv s l → insert t v s = Ret o s' → zlen (option_list o ++ l) ≤ i32_max →
  (o = None ∧ s' = set_counter i32_max s ∧ counter s = i32_min) ∨
  (o = Some (1 + zlen l) ∧ zlen l < i32_max ∧ counter s = 1 + zlen l ∧
   s' = set_map t (<[1 + zlen l := v]> (map_of t s)) (set_counter (as_i32 (1 + zlen l + 1)) s)).
Proof.
  intros Hi E Hlen. pose proof (zlen_nonneg l).
  destruct (inv_counter _ _ Hi) as [[Hlt Hc]|[Hfull [Hc|Hc]]].
  - right. rewrite (insert_pos t v s) in E by lia. rewrite Hc in E.
    by injection E as <- <-.
  - left. rewrite (insert_exhausted t v s) in E by (rewrite Hc; done).
    by injection E as <- <-.
  - exfalso. rewrite (insert_pos t v s) in E by (rewrite Hc; done).
    injection E as <- _. simpl in Hlen. rewrite zlen_cons in Hlen. lia.
Qed.

Lemma is_Some_insert_inv {V} (m : gmap Z V) h k v :
  is_Some (<[h := v]> m !! k) → k = h ∨ is_Some (m !! k).
Proof. rewrite lookup_insert. case_decide; eauto. Qed.

Lemma is_Some_delete_inv {V} (m : gmap Z V) h k :
  is_Some (delete h m !! k) → is_Some (m !! k).
Proof. rewrite lookup_delete. case_decide; [intros []; done|done]. Qed.

(** The new handle is live in neither table before it is issued. *)
Lemma new_handle_dead s l :
  table_inv s l →
  ¬ is_Some (map_of ta s !! (1 + zlen l)) ∧ ¬ is_Some (map_of tb s !! (1 + zlen l)).
Proof.
  intros Hi. split; intros Hs;
    assert (Hin : 1 + zlen l ∈ l) by (eapply inv_live; eauto);
    apply (inv_range _ _ Hi) in Hin; lia.
Qed.

Lemma table_inv_step s l s' l' :
  table_inv s l → op_step s l s' l' → zlen l' ≤ i32_max → table_inv s' l'.
Proof.
  intros Hi Hs. revert Hi.
  destruct Hs as [v s l o s' E|v s l o s' E|h s l o s' E|h s l o s' E
                 |R h g s l o s' E|R h g s l o s' E]; intros Hi Hlen;
    destruct (new_handle_dead _ _ Hi) as [Hda Hdb].
  - destruct (insert_step_inv ta v s l o s' Hi E Hlen)
      as [(-> & -> & Hc)|(-> & Hlt & Hc & ->)].
    + apply (table_inv_shrink s); table_simpl; auto.
    + apply (table_inv_issue s); table_simpl;
        [done|done|done|intros k; apply is_Some_insert_inv|by right|tauto|done].
  - destruct (insert_step_inv tb v s l o s' Hi E Hlen)
      as [(-> & -> & Hc)|(-> & Hlt & Hc & ->)].
    + apply (table_inv_shrink s); table_simpl; auto.
    + apply (table_inv_issue s); table_simpl;
        [done|done|done|by right|intros k; apply is_Some_insert_inv|tauto|done].
  - rewrite remove_eq in E. injection E as <- <-.
    apply (table_inv_shrink s); table_simpl; eauto using is_Some_delete_inv.
  - rewrite remove_eq in E. injection E as <- <-.
    apply (table_inv_shrink s); table_simpl; eauto using is_Some_delete_inv.
  - destruct (map_of ta s !! h) as [x|] eqn:Hx.
    + rewrite (with_mut_Some _ _ _ _ x Hx) in E. unfold mret, prog_ret in E.
      destruct (g x) as [x' r]. injection E as <- <-.
      apply (table_inv_shrink s); table_simpl; auto.
      intros k Hk. apply is_Some_insert_inv in Hk as [->|]; eauto.
    + rewrite with_mut_None in E by done. by injection E as <- <-.
  - destruct (map_of tb s !! h) as [x|] eqn:Hx.
    + rewrite (with_mut_Some _ _ _ _ x Hx) in E. unfold mret, prog_ret in E.
      destruct (g x) as [x' r]. injection E as <- <-.
      apply (table_inv_shrink s); table_simpl; auto.
      intros k Hk. apply is_Some_insert_inv in Hk as [->|]; eauto.
    + rewrite with_mut_None in E by done. by injection E as <- <-.
Qed.

Lemma op_step_grows s l s' l' : op_step s l s' l' → zlen l ≤ zlen l'.
Proof.
  destruct 1 as [? ? ? o|? ? ? o| | | | ]; try lia;
    destruct o; simpl; rewrite ?zlen_cons; lia.
Qed.

(** C4: whatever the order of inserts, removals and updates on two tables
    that share the counter, as long as at most [i32::MAX] handles have been
    issued they are pairwise distinct and positive, every live entry has one
    of them, and no handle is live in both tables. *)
Theorem handles_never_shared s l :
  reach s l → zlen l ≤ i32_max →
  NoDup l ∧ (∀ h, h ∈ l → 0 < h) ∧
  (∀ h, is_Some (map_of ta s !! h) ∨ is_Some (map_of tb s !! h) → h ∈ l) ∧
  (∀ h, is_Some (map_of ta s !! h) → map_of tb s !! h = None).
Proof.
  intros Hr Hlen. enough (Hi : table_inv s l).
  { destruct Hi as [Hn Hrg Hl Hd _]. split_and!; auto. intros h Hh. by apply Hrg. }
  induction Hr as [s Hc Ha Hb|s l s' l' Hr IH Hs].
  - split.
    + constructor.
    + intros h Hh. by apply not_elem_of_nil in Hh.
    + rewrite Ha, Hb. setoid_rewrite lookup_empty. intros h [[]|[]]; done.
    + rewrite Hb. intros h _. apply lookup_empty.
    + left. by rewrite Hc.
  - eapply table_inv_step; [|done|done]. apply IH.
    apply op_step_grows in Hs. lia.
Qed.
End Tables.

(** A state with two tables, for concrete runs. *)
Record two_tables := Two { tt_counter : Z; tt_a : gmap Z string; tt_b : gmap Z bool }.

#[global] Instance two_counter : HasCounter two_tables :=
  { counter := tt_counter; set_counter := λ z s, Two z (tt_a s) (tt_b s) }.
#[global] Instance two_counter_laws : HasCounterLaws two_tables.
Proof. by split. Qed.

Definition two_a : HandleTable two_tables string :=
  {| map_of := tt_a; set_map := λ m s, Two (tt_counter s) m (tt_b s) |}.
Definition two_b : HandleTable two_tables bool :=
  {| map_of := tt_b; set_map := λ m s, Two (tt_counter s) (tt_a s) m |}.

#[global] Instance two_a_laws : TableLaws two_a.
Proof. split; try done. by intros []. Qed.
#[global] Instance two_b_laws : TableLaws two_b.
Proof. split; try done. by intros []. Qed.
#[global] Instance two_indep : Independent two_a two_b.
Proof. by split. Qed.

Definition two_init : two_tables := Two 1 ∅ ∅.

Lemma handles_never_shared_witness :
  let s := Two 3 {[1 := "k"%string]} {[2 := true]} in
  NoDup [2; 1] ∧ (∀ h, h ∈ [2; 1] → 0 < h) ∧
  (∀ h, is_Some (map_of two_a s !! h) ∨ is_Some (map_of two_b s !! h) → h ∈ [2; 1]) ∧
  (∀ h, is_Some (map_of two_a s !! h) → map_of two_b s !! h = None).
Proof.
  apply (handles_never_shared two_a two_b).
  - eapply (reach_step _ _ (Two 2 {[1 := "k"%string]} ∅) [1]).
    + eapply (reach_step _ _ two_init []); [by apply reach_init|].
      exact (step_insert_a two_a two_b "k"%string two_init [] (Some 1) _ eq_refl).
    + exact (step_insert_b two_a two_b true (Two 2 {[1 := "k"%string]} ∅) [1] (Some 2) _ eq_refl).
  - vm_compute. discriminate.
Defined.

End Handles.
