(* ===== verification/Threads.v ===== *)
(** * Handle tables under threads

    [src/crates/librustls-mojo/src/handles.rs] at the grain its threads see: the
    atomic counter, one mutex per table, closures that run with the mutex held.
    The closures of the QUIC connections' table put key sets into the table of
    keys while they hold their own mutex; no other closure touches a table. The
    [skip-locks] build is the same program without the mutexes.

    A thread is a program counter; a step is one atomic access or one critical
    section's edge. The specification is a machine of atomic calls; the first
    theorem is that every run of the threads is one of its runs, the second that
    no thread waits for ever. *)

From S2P Require Import Prelude Effects Handles.
Import Effects Handles.

Module Threads.

(** The six tables of the shim. *)
Inductive table := TConfig | TConn | TKeys | TQcfgClient | TQcfgServer | TQconn.

#[global] Instance table_eq_dec : EqDecision table.
Proof. solve_decision. Defined.

Section Threads.
Context {V : Type}.

(** What a closure does with the object: leave it changed, or first insert a
    value into the table of keys. *)
Inductive closure := Leave (x : V) | Nest (v : V) (k : option Z → V).

(** The call an [insert] is part of: its own, or a closure on the object [x]
    at [h] in the table of QUIC connections. *)
Inductive frame := Top | Under (h : Z) (x : V) (k : option Z → V).

Inductive pc :=
  | Idle
  | Inserting (t : table) (v : V) (f : frame)
  | Fetched (t : table) (v : V) (f : frame) (h : Z)
  | Removing (t : table) (h : Z)
  | Entering (t : table) (h : Z) (body : V → closure)
  | Inside (t : table) (h : Z) (x : V) (c : closure).

Record state := { s_counter : Z; s_tables : table → gmap Z V; s_threads : list pc }.

(** What a completed access did. *)
Inductive event :=
  | EInsert (t : table) (v : V) (o : option Z)
  | ERemove (t : table) (h : Z) (o : option V)
  | EMiss (t : table) (h : Z)
  | EAccess (t : table) (h : Z) (x x' : V).

Inductive label := Start | Tau | Fetch | Event (e : event).

(** The mutex a thread holds: a closure runs with that of its table. *)
Definition holds (t : table) (p : pc) : bool :=
  match p with
  | Inside t' _ _ _ => bool_decide (t = t')
  | Inserting _ _ (Under _ _ _) | Fetched _ _ (Under _ _ _) _ => bool_decide (t = TQconn)
  | _ => false
  end.

(** [self.map.lock()], or nothing under [skip-locks]. *)
Definition may_enter (locks : bool) (t : table) (s : state) : Prop :=
  locks = true → Forall (λ p, holds t p = false) (s_threads s).

Definition put (t : table) (m : gmap Z V) (f : table → gmap Z V) : table → gmap Z V :=
  λ t', if decide (t' = t) then m else f t'.

Definition goto (i : nat) (p : pc) (s : state) : state :=
  {| s_counter := s_counter s; s_tables := s_tables s; s_threads := <[i := p]> (s_threads s) |}.

Definition with_table (t : table) (m : gmap Z V) (s : state) : state :=
  {| s_counter := s_counter s; s_tables := put t m (s_tables s); s_threads := s_threads s |}.

Definition with_counter (z : Z) (s : state) : state :=
  {| s_counter := z; s_tables := s_tables s; s_threads := s_threads s |}.

(** Where a thread goes on when an [insert] returned. *)
Definition return_to (f : frame) (o : option Z) : pc :=
  match f with Top => Idle | Under h x k => Inside TQconn h x (Leave (k o)) end.

(** The calls of the shim: only closures of [TQconn] nest. *)
Definition starts (p : pc) : Prop :=
  match p with
  | Inserting _ _ Top | Removing _ _ => True
  | Entering t _ body => t = TQconn ∨ ∀ x, ∃ x', body x = Leave x'
  | _ => False
  end.

Inductive step (locks : bool) (s : state) : label → state → Prop :=
  | step_start i p :
      s_threads s !! i = Some Idle → starts p → step locks s Start (goto i p s)
  | step_fetch i t v f :
      s_threads s !! i = Some (Inserting t v f) →
      step locks s Fetch
        (goto i (Fetched t v f (s_counter s)) (with_counter (as_i32 (s_counter s + 1)) s))
  | step_insert i t v f h :
      s_threads s !! i = Some (Fetched t v f h) → 0 < h → may_enter locks t s →
      step locks s (Event (EInsert t v (Some h)))
        (goto i (return_to f (Some h)) (with_table t (<[h := v]> (s_tables s t)) s))
  | step_exhausted i t v f h :
      s_threads s !! i = Some (Fetched t v f h) → h ≤ 0 →
      step locks s (Event (EInsert t v None)) (goto i (return_to f None) (with_counter i32_max s))
  | step_remove i t h :
      s_threads s !! i = Some (Removing t h) → may_enter locks t s →
      step locks s (Event (ERemove t h (s_tables s t !! h)))
        (goto i Idle (with_table t (delete h (s_tables s t)) s))
  | step_miss i t h body :
      s_threads s !! i = Some (Entering t h body) → may_enter locks t s →
      s_tables s t !! h = None → step locks s (Event (EMiss t h)) (goto i Idle s)
  | step_enter i t h body x :
      s_threads s !! i = Some (Entering t h body) → may_enter locks t s →
      s_tables s t !! h = Some x → step locks s Tau (goto i (Inside t h x (body x)) s)
  | step_nest i t h x v k :
      s_threads s !! i = Some (Inside t h x (Nest v k)) →
      step locks s Tau (goto i (Inserting TKeys v (Under h x k)) s)
  | step_leave i t h x x' :
      s_threads s !! i = Some (Inside t h x (Leave x')) →
      step locks s (Event (EAccess t h x x'))
        (goto i Idle (with_table t (<[h := x']> (s_tables s t)) s)).

Definition init (n : nat) : state :=
  {| s_counter := 1; s_tables := λ _, ∅; s_threads := replicate n Idle |}.

(** A run from the start, its labels last to first. *)
Inductive run (locks : bool) (n : nat) : list label → state → Prop :=
  | run_init : run locks n [] (init n)
  | run_step ls s l s' : run locks n ls s → step locks s l s' → run locks n (l :: ls) s'.

Definition is_fetch (l : label) : bool := match l with Fetch => true | _ => false end.
Definition fetches (ls : list label) : Z := zlen (List.filter is_fetch ls).
Definition events (ls : list label) : list event :=
  ls ≫= λ l, match l with Event e => [e] | _ => [] end.

(** ** The specification: calls that are atomic *)

Record spec := { a_tables : table → gmap Z V; a_issued : gset Z }.

Definition spec_init : spec := {| a_tables := λ _, ∅; a_issued := ∅ |}.

Inductive spec_step (a : spec) : event → spec → Prop :=
  | spec_insert t v h :
      0 < h → h ∉ a_issued a →
      spec_step a (EInsert t v (Some h))
        {| a_tables := put t (<[h := v]> (a_tables a t)) (a_tables a);
           a_issued := {[h]} ∪ a_issued a |}
  | spec_remove t h :
      spec_step a (ERemove t h (a_tables a t !! h))
        {| a_tables := put t (delete h (a_tables a t)) (a_tables a); a_issued := a_issued a |}
  | spec_miss t h : a_tables a t !! h = None → spec_step a (EMiss t h) a
  | spec_access t h x x' :
      a_tables a t !! h = Some x →
      spec_step a (EAccess t h x x')
        {| a_tables := put t (<[h := x']> (a_tables a t)) (a_tables a); a_issued := a_issued a |}.

(** Events last to first. *)
Inductive spec_run : list event → spec → Prop :=
  | spec_run_init : spec_run [] spec_init
  | spec_run_step es a e a' : spec_run es a → spec_step a e a' → spec_run (e :: es) a'.

(** ** The simulation *)

(** The handle a thread has drawn and not yet used, and the object it is
    working on. *)
Definition reserves (p : pc) : option Z :=
  match p with Fetched _ _ _ h => Some h | _ => None end.

Definition views (p : pc) : option (table * Z * V) :=
  match p with
  | Inside t h x _ => Some (t, h, x)
  | Inserting _ _ (Under h x _) | Fetched _ _ (Under h x _) _ => Some (TQconn, h, x)
  | _ => None
  end.

(** Closures nest in one way only. *)
Definition nests_well (p : pc) : Prop :=
  match p with
  | Inserting t _ (Under _ _ _) | Fetched t _ (Under _ _ _) _ => t = TKeys
  | Inside t _ _ (Nest _ _) => t = TQconn
  | Entering t _ body => t = TQconn ∨ ∀ x, ∃ x', body x = Leave x'
  | _ => True
  end.

Record thread_ok (n : Z) (T : table → gmap Z V) (I : gset Z) (p : pc) : Prop := {
  ok_nests : nests_well p;
  ok_reserves : ∀ h, reserves p = Some h → 0 < h ≤ n ∧ h ∉ I;
  ok_views : ∀ t h x, views p = Some (t, h, x) → T t !! h = Some x;
}.

Record apart (p q : pc) : Prop := {
  apart_holds : ∀ t, holds t p = true → holds t q = false;
  apart_reserves : ∀ h, reserves p = Some h → reserves q ≠ Some h;
}.

(** After [n] draws from the counter. *)
Record sim (n : Z) (s : state) (a : spec) : Prop := {
  sim_tables : a_tables a = s_tables s;
  sim_counter : s_counter s = as_i32 (1 + n);
  sim_issued : ∀ h, h ∈ a_issued a → 0 < h ≤ n;
  sim_threads : ∀ i p, s_threads s !! i = Some p → thread_ok n (s_tables s) (a_issued a) p;
  sim_apart : ∀ i j p q, i ≠ j → s_threads s !! i = Some p → s_threads s !! j = Some q → apart p q;
}.

Lemma holds_views t p : holds t p = true ↔ ∃ h x, views p = Some (t, h, x).
Proof.
  destruct p as [|? ? []|? ? [] ?| | |]; simpl; rewrite ?bool_decide_eq_true; split;
    try (intros (? & ? & ?); congruence); try done; intros ->; eauto.
Qed.

Lemma apart_comm p q : apart p q → apart q p.
Proof.
  intros [H1 H2]. split.
  - intros t Hq. destruct (holds t p) eqn:E; [|done]. apply H1 in E. congruence.
  - intros h Hq Hp. by apply (H2 h).
Qed.

(** One thread moves, and the others are still well. *)
Lemma sim_goto n n' s s' a a' i p p' :
  sim n s a → s_threads s !! i = Some p → s_threads s' = <[i := p']> (s_threads s) →
  a_tables a' = s_tables s' → s_counter s' = as_i32 (1 + n') →
  (∀ h, h ∈ a_issued a' → 0 < h ≤ n') →
  thread_ok n' (s_tables s') (a_issued a') p' →
  (∀ j q, j ≠ i → s_threads s !! j = Some q → thread_ok n (s_tables s) (a_issued a) q → apart p q →
     thread_ok n' (s_tables s') (a_issued a') q ∧ apart p' q) →
  sim n' s' a'.
Proof.
  intros Hs Hi Ht HT Hc HI Hp Hq.
  assert (Hother : ∀ j q, j ≠ i → s_threads s !! j = Some q →
    thread_ok n' (s_tables s') (a_issued a') q ∧ apart p' q).
  { intros j q Hj Hjq. eapply Hq; [done|done|by eapply sim_threads|by eapply (sim_apart _ _ _ Hs i j)]. }
  split; [done|done|done| |]; rewrite Ht.
  - intros j q. rewrite list_lookup_insert_Some. intros [(-> & -> & _)|[Hj Hjq]]; [done|by eapply Hother].
  - intros j k q r Hjk. rewrite !list_lookup_insert_Some.
    intros [(-> & -> & _)|[Hj Hjq]] [(-> & -> & _)|[Hk Hkr]]; [done| | |by apply (sim_apart _ _ _ Hs j k)].
    + by eapply Hother.
    + apply apart_comm. by eapply Hother.
Qed.

(** A thread that holds no more than before is as far from the others. *)
Lemma apart_less p p' q :
  (∀ t, holds t p' = true → holds t p = true) → reserves p' = None → apart p q → apart p' q.
Proof. intros Hh Hr [H1 _]. split; [eauto|]. intros h E. congruence. Qed.

Lemma put_same t m (f : table → gmap Z V) : put t m f t = m.
Proof. unfold put. by rewrite decide_True. Qed.

Lemma put_other t t' m (f : table → gmap Z V) : t' ≠ t → put t m f t' = f t'.
Proof. intros. unfold put. by rewrite decide_False. Qed.

(** A thread does not see a change to a table it does not hold. *)
Lemma unseen n n' t m T I I' q :
  thread_ok n T I q → holds t q = false → n ≤ n' → (∀ h, reserves q = Some h → h ∉ I') →
  thread_ok n' (put t m T) I' q.
Proof.
  intros [Hw Hr Hv] Ht Hn HI. split; [done| |].
  - intros h Hh. split; [destruct (Hr h Hh); lia|by apply HI].
  - intros t' h x Hx. rewrite put_other; [by apply Hv|]. intros ->.
    rewrite (proj2 (holds_views t q)) in Ht by eauto. done.
Qed.

Lemma thread_ok_later n n' T I q : thread_ok n T I q → n ≤ n' → thread_ok n' T I q.
Proof. intros [Hw Hr Hv] Hn. split; [done| |done]. intros h Hh. destruct (Hr h Hh). split; [lia|done]. Qed.

(** Who enters a table is alone there: by the mutex, or as the only thread. *)
Definition exclusive (locks : bool) (s : state) : Prop :=
  locks = true ∨ (length (s_threads s) ≤ 1)%nat.

Lemma alone locks t s i j p q :
  exclusive locks s → may_enter locks t s → j ≠ i →
  s_threads s !! i = Some p → s_threads s !! j = Some q → holds t q = false.
Proof.
  intros [->|Hl] Hm Hj Hi Hq.
  - by apply (proj1 (Forall_lookup _ _) (Hm eq_refl) j q).
  - apply lookup_lt_Some in Hi, Hq. lia.
Qed.

Definition simulated (n : Z) (a : spec) (l : label) (s' : state) : Prop :=
  ∃ a', sim n s' a' ∧ match l with Event e => spec_step a e a' | _ => a' = a end.

(** The specification takes no part in a step. *)
Lemma sim_internal n n' s s' a i p p' l :
  sim n s a → s_threads s !! i = Some p → s_threads s' = <[i := p']> (s_threads s) →
  s_tables s' = s_tables s → s_counter s' = as_i32 (1 + n') → n ≤ n' →
  match l with Event _ => False | _ => True end →
  thread_ok n' (s_tables s) (a_issued a) p' →
  (∀ j q, j ≠ i → s_threads s !! j = Some q → thread_ok n (s_tables s) (a_issued a) q →
     apart p q → apart p' q) →
  simulated n' a l s'.
Proof.
  intros Hs Hi Ht HT Hc Hn Hl Hp Hq. exists a. split; [|by destruct l].
  eapply sim_goto; [exact Hs|exact Hi|exact Ht|rewrite HT; apply Hs|done| |by rewrite HT|].
  - intros h Hh. apply (sim_issued _ _ _ Hs) in Hh. lia.
  - intros j q Hj Hjq Hok Hap. rewrite HT. split; [by eapply thread_ok_later|by eapply Hq].
Qed.

Lemma step_internal n s a i p p' l :
  sim n s a → s_threads s !! i = Some p → match l with Event _ => False | _ => True end →
  thread_ok n (s_tables s) (a_issued a) p' →
  (∀ j q, j ≠ i → s_threads s !! j = Some q → apart p q → apart p' q) →
  simulated n a l (goto i p' s).
Proof.
  intros Hs Hi Hl Hp Hq. eapply sim_internal; [done|done|done|done|apply Hs|lia|done|done|by eauto].
Qed.

Lemma fetch_simulated n s a i t v f :
  sim n s a → 0 ≤ n → n + 1 ≤ i32_max → s_threads s !! i = Some (Inserting t v f) →
  simulated (n + 1) a Fetch
    (goto i (Fetched t v f (s_counter s)) (with_counter (as_i32 (s_counter s + 1)) s)).
Proof.
  intros Hs Hn Hmax Hi. destruct (sim_threads _ _ _ Hs _ _ Hi) as [Hw _ Hv].
  assert (Hc : s_counter s = 1 + n).
  { rewrite (sim_counter _ _ _ Hs). apply as_i32_id. unfold in_i32, i32_min, i32_max in *. lia. }
  eapply sim_internal; [exact Hs|exact Hi|done|done| |lia|done| |].
  - simpl. rewrite Hc. f_equal. lia.
  - split; [by destruct f| |by destruct f].
    intros h [= <-]. rewrite Hc. split; [lia|]. intros Hin. apply (sim_issued _ _ _ Hs) in Hin. lia.
  - intros j q Hj Hjq Hok [Hh _]. split; [by destruct f|].
    intros h [= <-] Hq. apply (ok_reserves _ _ _ _ Hok) in Hq. lia.
Qed.

Lemma insert_simulated locks n s a i t v f h :
  exclusive locks s → sim n s a → s_threads s !! i = Some (Fetched t v f h) → may_enter locks t s →
  simulated n a (Event (EInsert t v (Some h)))
    (goto i (return_to f (Some h)) (with_table t (<[h := v]> (s_tables s t)) s)).
Proof.
  intros He Hs Hi Hm. destruct (sim_threads _ _ _ Hs _ _ Hi) as [Hw Hr Hv].
  destruct (Hr h eq_refl) as [Hh Hnew].
  eexists. split; [|apply spec_insert; [lia|done]]. pose proof (sim_tables _ _ _ Hs) as HT.
  eapply sim_goto; [exact Hs|exact Hi|done|by rewrite HT|apply Hs| | |].
  - intros k [Hk|Hk]%elem_of_union; [apply elem_of_singleton in Hk as ->; lia|by apply Hs].
  - destruct f as [|h0 x k]; simpl in *; [by split|]. split; [done|done|]. subst t.
    intros t h1 x1 [= <- <- <-]. rewrite put_other by done. by apply Hv.
  - intros j q Hj Hjq Hok Hap. pose proof (alone _ _ _ _ _ _ _ He Hm Hj Hi Hjq) as Hq. split.
    + eapply unseen; [done|done|lia|]. simpl. intros k Hk [Hx|Hx]%elem_of_union.
      * apply elem_of_singleton in Hx as ->. by apply (apart_reserves _ _ Hap h).
      * by apply (ok_reserves _ _ _ _ Hok) in Hk as [_ Hk].
    + eapply apart_less; [|by destruct f|done]. by destruct f.
Qed.

(** An access that changes one table and lets it go. *)
Lemma access_simulated n s a i p t m e :
  sim n s a → s_threads s !! i = Some p →
  (∀ j q, j ≠ i → s_threads s !! j = Some q → apart p q → holds t q = false) →
  spec_step a e {| a_tables := put t m (a_tables a); a_issued := a_issued a |} →
  simulated n a (Event e) (goto i Idle (with_table t m s)).
Proof.
  intros Hs Hi Hq He. eexists. split; [|exact He].
  eapply sim_goto; [exact Hs|exact Hi|done|by rewrite (sim_tables _ _ _ Hs)|apply Hs|apply Hs|by split|].
  intros j q Hj Hjq Hok Hap. split.
  - eapply unseen; [done|by eapply Hq|lia|]. intros h Hh. by apply (ok_reserves _ _ _ _ Hok) in Hh as [_ ?].
  - by eapply apart_less.
Qed.

Lemma quiet_apart p q : (∀ t, holds t p = false) → reserves p = None → apart p q.
Proof. intros Hh Hr. split; intros ? E; [by rewrite Hh in E|congruence]. Qed.

Lemma enter_simulated locks n s a i t h body x :
  exclusive locks s → sim n s a → s_threads s !! i = Some (Entering t h body) → may_enter locks t s →
  s_tables s t !! h = Some x → simulated n a Tau (goto i (Inside t h x (body x)) s).
Proof.
  intros He Hs Hi Hm Hx. destruct (sim_threads _ _ _ Hs _ _ Hi) as [Hw _ _].
  eapply step_internal; [done|done|done| |].
  - split; [|done|by intros ? ? ? [= <- <- <-]]. simpl in *.
    destruct Hw as [->|Hw]; [by case_match|]. by destruct (Hw x) as [x' ->].
  - intros j q Hj Hq _. split; [|done]. intros t'. simpl. rewrite bool_decide_eq_true. intros ->.
    by eapply alone.
Qed.

Lemma sim_step locks n s a l s' :
  exclusive locks s → sim n s a → 0 ≤ n → step locks s l s' →
  n + (if is_fetch l then 1 else 0) ≤ i32_max →
  simulated (n + (if is_fetch l then 1 else 0)) a l s'.
Proof.
  intros He Hs Hn Hstep. destruct Hstep as
    [i p Hi Hp|i t v f Hi|i t v f h Hi Hh Hm|i t v f h Hi Hh|i t h Hi Hm|i t h body Hi Hm Hx
    |i t h body x Hi Hm Hx|i t h x v k Hi|i t h x x' Hi]; cbn [is_fetch]; rewrite ?Z.add_0_r; intros Hmax.
  - apply (step_internal n s a i Idle); [done|done|done| |].
    + by destruct p as [|? ? []| | | |]; split.
    + intros j q _ _ _. by apply quiet_apart; destruct p as [|? ? []| | | |].
  - by apply fetch_simulated.
  - by eapply insert_simulated.
  - exfalso. destruct (sim_threads _ _ _ Hs _ _ Hi) as [_ Hr _]. destruct (Hr h eq_refl). lia.
  - eapply access_simulated; [done|done|intros; by eapply alone|].
    rewrite <- (sim_tables _ _ _ Hs). apply spec_remove.
  - exists a. split; [|apply spec_miss; by rewrite (sim_tables _ _ _ Hs)].
    eapply (sim_goto n n s _ a a i); [done|done|done|apply Hs|apply Hs|apply Hs|by split|].
    intros j q _ _ Hok Hap. split; [done|]. by apply quiet_apart.
  - by eapply enter_simulated.
  - destruct (sim_threads _ _ _ Hs _ _ Hi) as [Hw _ Hv]. simpl in Hw. subst t.
    eapply step_internal; [done|done|done|by split|]. intros j q _ _. by apply apart_less.
  - destruct (sim_threads _ _ _ Hs _ _ Hi) as [_ _ Hv]. specialize (Hv t h x eq_refl).
    eapply access_simulated; [done|done| |].
    + intros j q _ _ Hap. apply (apart_holds _ _ Hap). simpl. by rewrite bool_decide_true.
    + rewrite <- (sim_tables _ _ _ Hs) in Hv |- *. by apply spec_access.
Qed.

Lemma step_threads locks s l s' : step locks s l s' → length (s_threads s') = length (s_threads s).
Proof. destruct 1; simpl; by rewrite length_insert. Qed.

Lemma run_threads locks n ls s : run locks n ls s → length (s_threads s) = n.
Proof.
  induction 1 as [|ls s l s' _ IH Hs]; [by simpl; rewrite length_replicate|].
  by rewrite (step_threads _ _ _ _ Hs).
Qed.

Lemma fetches_cons l ls : fetches (l :: ls) = fetches ls + (if is_fetch l then 1 else 0).
Proof. unfold fetches. simpl. destruct (is_fetch l); rewrite ?zlen_cons; lia. Qed.

Lemma run_simulated locks n ls s :
  run locks n ls s → locks = true ∨ (n ≤ 1)%nat → fetches ls ≤ i32_max →
  ∃ a, spec_run (events ls) a ∧ sim (fetches ls) s a.
Proof.
  intros Hr He. induction Hr as [|ls s l s' Hr IH Hs]; intros Hmax.
  - exists spec_init. split; [constructor|]. split; [done|done| | |]; simpl.
    + set_solver.
    + by intros i p [-> _]%lookup_replicate.
    + intros i j p q _ [-> _]%lookup_replicate _. by apply quiet_apart.
  - rewrite fetches_cons in Hmax |- *. destruct IH as (a & Ha & Hsim); [case_match; lia|].
    pose proof (zlen_nonneg (List.filter is_fetch ls)).
    destruct (sim_step locks (fetches ls) s a l s') as (a' & Hs' & Hl); [|done..|].
    + destruct He as [->|He]; [by left|right]. by rewrite (run_threads _ _ _ _ Hr).
    + exists a'. split; [|done]. destruct l; simpl in *; subst; try done. by econstructor.
Qed.
End Threads.

(** C14: whatever the threads do, each access to a table has the effect of one
    atomic call: an [insert] succeeds with a positive handle that was never
    given out before, and a closure finds the object as the last access to it
    left it and nothing comes between its start and its end. It holds of the
    locking build, and of the [skip-locks] build with one thread, as long as at
    most [i32::MAX] handles are drawn. *)
Theorem tables_refine_atomic {V} locks n ls (s : state (V:=V)) :
  run locks n ls s → locks = true ∨ (n ≤ 1)%nat → fetches ls ≤ i32_max →
  ∃ a, spec_run (events ls) a ∧ a_tables a = s_tables s.
Proof.
  intros Hr He Hmax. destruct (run_simulated _ _ _ _ Hr He Hmax) as (a & Ha & Hs).
  exists a. split; [done|apply Hs].
Qed.

(** ** No thread waits for ever *)
Section Progress.
Context {V : Type}.
Implicit Types (s : state (V:=V)) (p q : pc (V:=V)).

(** How many steps a call still takes. *)
Definition left_of (f : frame (V:=V)) : nat := match f with Top => 0 | Under _ _ _ => 1 end.

Definition steps_left p : nat :=
  match p with
  | Idle => 0
  | Inserting _ _ f => 2 + left_of f
  | Fetched _ _ f _ => 1 + left_of f
  | Removing _ _ => 1
  | Entering _ _ _ => 5
  | Inside _ _ _ (Leave _) => 1
  | Inside _ _ _ (Nest _ _) => 4
  end.

Definition work_left (l : list pc) : nat := sum_list_with steps_left l.

Lemma work_left_insert l i p p' :
  l !! i = Some p → (work_left (<[i := p']> l) + steps_left p = work_left l + steps_left p')%nat.
Proof.
  revert i. induction l as [|r l IH]; intros [|i]; intros Hi; [done|done| |].
  - injection Hi as ->. unfold work_left. simpl. lia.
  - specialize (IH i Hi). unfold work_left in *. simpl in *. lia.
Qed.

Lemma work_left_bound l : (work_left l ≤ 5 * length l)%nat.
Proof.
  unfold work_left. induction l as [|p l IH]; simpl; [done|].
  assert (steps_left p ≤ 5)%nat by (destruct p as [|? ? []|? ? []| | |? ? ? []]; simpl; lia). lia.
Qed.

(** A step of a call under way, not the start of a new one. *)
Definition advances s s' : Prop := ∃ l, l ≠ Start ∧ step true s l s'.

Inductive advance : state → nat → state → Prop :=
  | advance_none s : advance s 0 s
  | advance_more s s1 k s' : advances s s1 → advance s1 k s' → advance s (S k) s'.

Lemma advances_less s s' : advances s s' → (work_left (s_threads s') < work_left (s_threads s))%nat.
Proof.
  intros (l & Hl & Hs). destruct Hs as [|? ? ? ? Hi|? ? ? f ? Hi|? ? ? f ? Hi|? ? ? Hi|? ? ? ? Hi|? ? ? body x Hi
    |? ? ? ? ? ? Hi|? ? ? ? ? Hi]; [done|..]; simpl;
    match goal with |- context [<[_ := ?p']> _] => pose proof (work_left_insert _ _ _ p' Hi) as Hw end;
    simpl in Hw; try destruct f; try destruct (body x); simpl in *; lia.
Qed.

Lemma step_nests locks s l s' :
  step locks s l s' → Forall nests_well (s_threads s) → Forall nests_well (s_threads s').
Proof.
  intros Hs Hall. assert (Hat : ∀ i p, s_threads s !! i = Some p → nests_well p) by
    (intros i p; apply (proj1 (Forall_lookup _ _) Hall)).
  destruct Hs as [i p Hi Hp|i t v f Hi|i t v f h Hi|i t v f h Hi|i t h Hi|i t h body Hi
    |i t h body x Hi|i t h x v k Hi|i t h x x' Hi]; simpl; apply Forall_insert; try done;
    apply Hat in Hi; simpl in *; try (by destruct f).
  - by destruct p as [|? ? []| | | |].
  - destruct Hi as [->|Hi]; [by case_match|]. by destruct (Hi x) as [x' ->].
Qed.

Lemma run_nests locks n ls s : run locks n ls s → Forall nests_well (s_threads s).
Proof.
  induction 1 as [|ls s l s' _ IH Hs]; [by apply Forall_replicate|by eapply step_nests].
Qed.

(** A mutex is free, or somebody has it. *)
Lemma free_or_held t s :
  may_enter true t s ∨ ∃ i q, s_threads s !! i = Some q ∧ holds t q = true.
Proof.
  destruct (decide (Forall (λ p, holds t p = false) (s_threads s))) as [Hf|Hf]; [left; by intros _|right].
  apply not_Forall_Exists in Hf; [|intros ?; apply _]. apply Exists_exists in Hf as (q & Hq & Ht).
  apply list_elem_of_lookup in Hq as [i Hi]. exists i, q. split; [done|]. by apply not_false_is_true.
Qed.

Lemma inside_advances s i t h x c : s_threads s !! i = Some (Inside t h x c) → ∃ s', advances s s'.
Proof.
  intros Hi. destruct c.
  - eexists _, _. split; [|by eapply step_leave]. done.
  - eexists _, _. split; [|by eapply step_nest]. done.
Qed.

(** Who holds the keys' table waits for nothing. *)
Lemma keys_holder_advances s i q :
  s_threads s !! i = Some q → holds TKeys q = true → ∃ s', advances s s'.
Proof.
  intros Hi Hq. destruct q as [|? ? []|? ? [] ?| | |]; try done. by eapply inside_advances.
Qed.

Lemma fetched_advances s i t v f h :
  s_threads s !! i = Some (Fetched t v f h) →
  (may_enter true t s ∨ ∃ s', advances s s') → ∃ s', advances s s'.
Proof.
  intros Hi [Hm|?]; [|done]. destruct (Z.lt_ge_cases 0 h).
  - eexists _, _. split; [|by eapply step_insert]. done.
  - eexists _, _. split; [|by eapply step_exhausted]. done.
Qed.

Lemma holder_advances s i q t :
  Forall nests_well (s_threads s) → s_threads s !! i = Some q → holds t q = true → ∃ s', advances s s'.
Proof.
  intros Hall Hi Hq. pose proof (proj1 (Forall_lookup _ _) Hall _ _ Hi) as Hw.
  destruct q as [|? ? []|? ? [] ?| | |]; try done.
  - eexists _, _. split; [|by eapply step_fetch]. done.
  - simpl in Hw. subst. eapply fetched_advances; [done|].
    destruct (free_or_held TKeys s) as [?|(j & r & Hj & Hr)]; [by left|right]. by eapply keys_holder_advances.
  - by eapply inside_advances.
Qed.

Lemma enter_or_advance t s :
  Forall nests_well (s_threads s) → may_enter true t s ∨ ∃ s', advances s s'.
Proof.
  intros Hall. destruct (free_or_held t s) as [?|(j & r & Hj & Hr)]; [by left|right].
  by eapply holder_advances.
Qed.

Lemma busy_advances s i p :
  Forall nests_well (s_threads s) → s_threads s !! i = Some p → p ≠ Idle → ∃ s', advances s s'.
Proof.
  intros Hall Hi Hp. destruct p as [|t v f|t v f h|t h|t h body|t h x c]; [done| | | | |].
  - eexists _, _. split; [|by eapply step_fetch]. done.
  - eapply fetched_advances; [done|by apply enter_or_advance].
  - destruct (enter_or_advance t s) as [?|?]; [done| |done].
    eexists _, _. split; [|by eapply step_remove]. done.
  - destruct (enter_or_advance t s) as [?|?]; [done| |done].
    destruct (s_tables s t !! h) eqn:E.
    + eexists _, _. split; [|by eapply step_enter]. done.
    + eexists _, _. split; [|by eapply step_miss]. done.
  - by eapply inside_advances.
Qed.

Definition all_idle s : Prop := Forall (eq Idle) (s_threads s).

Lemma idle_or_busy s : all_idle s ∨ ∃ i p, s_threads s !! i = Some p ∧ p ≠ Idle.
Proof.
  unfold all_idle. induction (s_threads s) as [|p l IH]; [by left; constructor|].
  destruct (decide (steps_left p = 0%nat)) as [E|E]; cycle 1.
  { right. exists 0%nat, p. split; [done|]. by intros ->. }
  assert (p = Idle) as -> by (destruct p as [|? ? []|? ? []| | |? ? ? []]; done).
  destruct IH as [?|(i & q & Hq & ?)]; [left; by constructor|right; by exists (S i), q].
Qed.

Lemma drains k s : (work_left (s_threads s) ≤ k)%nat → Forall nests_well (s_threads s) →
  ∃ j s', advance s j s' ∧ all_idle s'.
Proof.
  revert s. induction k as [|k IH]; intros s Hk Hall;
    (destruct (idle_or_busy s) as [?|(i & p & Hi & Hp)]; [by exists 0%nat, s; split; [constructor|]|]);
    destruct (busy_advances _ _ _ Hall Hi Hp) as [s1 Hs1]; pose proof (advances_less _ _ Hs1); [lia|].
  destruct (IH s1) as (j & s' & Hj & Hidle); [lia|by destruct Hs1 as (? & _ & ?); eapply step_nests|].
  exists (S j), s'. split; [by econstructor|done].
Qed.

Lemma advance_bounded s k s' : advance s k s' → (k + work_left (s_threads s') ≤ work_left (s_threads s))%nat.
Proof. induction 1 as [|s s1 k s' Hs _ IH]; [lia|]. apply advances_less in Hs. lia. Qed.
End Progress.

(** C17: in the locking build the calls under way can always be completed: from
    every reachable state some schedule takes all threads back to idle, although
    closures of the QUIC connections' table wait for the mutex of the keys'
    table with their own held; and any schedule of them, however it chooses,
    is through after at most five steps per thread. *)
Theorem calls_complete {V} n ls (s : state (V:=V)) :
  run true n ls s →
  (∃ k s', advance s k s' ∧ all_idle s') ∧ (∀ k s', advance s k s' → (k ≤ 5 * n)%nat).
Proof.
  intros Hr. split.
  - eapply drains; [reflexivity|by eapply run_nests].
  - intros k s' Ha%advance_bounded. pose proof (work_left_bound (s_threads s)) as Hb.
    rewrite (run_threads _ _ _ _ Hr) in Hb. lia.
Qed.

(** ** The steps of one thread, executable *)
Section Play.
Context {V : Type}.
Implicit Types (s : state (V:=V)) (p : pc (V:=V)).

Definition free (locks : bool) (t : table) s : bool :=
  negb locks || forallb (λ p, negb (holds t p)) (s_threads s).

Lemma free_may_enter locks t s : free locks t s = true → may_enter locks t s.
Proof.
  unfold free. intros [Hl|Hf]%orb_true_iff Hlocks; [by rewrite Hlocks in Hl|].
  apply Forall_forall. intros p Hp%list_elem_of_In.
  apply (proj1 (forallb_forall _ _) Hf), negb_true_iff in Hp. done.
Qed.

(** The step of thread [i]; an idle one starts [p]. *)
Definition play_one (locks : bool) (i : nat) p s : option (label * state) :=
  match s_threads s !! i with
  | Some Idle => Some (Start, goto i p s)
  | Some (Inserting t v f) =>
      Some (Fetch, goto i (Fetched t v f (s_counter s)) (with_counter (as_i32 (s_counter s + 1)) s))
  | Some (Fetched t v f h) =>
      if 0 <? h then
        if free locks t s then
          Some (Event (EInsert t v (Some h)),
                goto i (return_to f (Some h)) (with_table t (<[h := v]> (s_tables s t)) s))
        else None
      else Some (Event (EInsert t v None), goto i (return_to f None) (with_counter i32_max s))
  | Some (Removing t h) =>
      if free locks t s then
        Some (Event (ERemove t h (s_tables s t !! h)),
              goto i Idle (with_table t (delete h (s_tables s t)) s))
      else None
  | Some (Entering t h body) =>
      if free locks t s then
        match s_tables s t !! h with
        | None => Some (Event (EMiss t h), goto i Idle s)
        | Some x => Some (Tau, goto i (Inside t h x (body x)) s)
        end
      else None
  | Some (Inside t h x (Nest v k)) => Some (Tau, goto i (Inserting TKeys v (Under h x k)) s)
  | Some (Inside t h x (Leave x')) =>
      Some (Event (EAccess t h x x'), goto i Idle (with_table t (<[h := x']> (s_tables s t)) s))
  | None => None
  end.

Lemma play_one_step locks i p s l s' :
  starts p → play_one locks i p s = Some (l, s') → step locks s l s'.
Proof.
  intros Hp. unfold play_one. destruct (s_threads s !! i) as [[| | | | |? ? ? []]|] eqn:Hi; [..|done];
    repeat case_match; intros [= <- <-]; breflect;
    try (by econstructor; eauto using free_may_enter; lia).
Qed.

Fixpoint play (locks : bool) (sched : list (nat * pc)) (ls : list label) s
  : option (list label * state) :=
  match sched with
  | [] => Some (ls, s)
  | (i, p) :: sched => '(l, s') ← play_one locks i p s; play locks sched (l :: ls) s'
  end.

Lemma play_run locks n sched ls s ls' s' :
  Forall (λ x, starts x.2) sched → run locks n ls s → play locks sched ls s = Some (ls', s') →
  run locks n ls' s'.
Proof.
  intros Hsched. revert ls s. induction Hsched as [|[i p] sched Hp _ IH]; intros ls s Hr; simpl.
  - by intros [= <- <-].
  - destruct (play_one locks i p s) as [[l s1]|] eqn:E; [|done]. simpl. apply IH.
    econstructor; [done|by eapply play_one_step].
Qed.
End Play.

(** The labels and the state after a schedule. *)
Definition played {V} locks n sched : list label * state (V:=V) :=
  default ([], init n) (play locks sched [] (init n)).

Lemma played_run {V} locks n (sched : list (nat * pc (V:=V))) :
  Forall (λ x, starts x.2) sched → is_some (play locks sched [] (init n)) = true →
  run locks n (played locks n sched).1 (played locks n sched).2.
Proof.
  intros Hs. unfold played. destruct (play _ _ _ _) as [[ls s]|] eqn:E; [|done]. intros _.
  by eapply play_run; [|constructor|].
Qed.

(** Thread 0 makes a connection and takes keys from it while thread 1 inserts
    a key set: thread 1 draws its handle between the steps of thread 0. *)
Definition make : pc := Inserting TQconn 10 Top.
Definition take_keys : pc := Entering TQconn 1 (λ x, Nest 77 (λ _, x + 1)).
Definition add_keys : pc := Inserting TKeys 5 Top.

Definition interleaved : list (nat * pc) :=
  [(0%nat, make); (0%nat, make); (0%nat, make); (0%nat, take_keys); (1%nat, add_keys);
   (0%nat, make); (1%nat, add_keys); (0%nat, make); (0%nat, make); (1%nat, add_keys);
   (0%nat, make); (0%nat, make)].

Lemma interleaved_starts : Forall (λ x : nat * pc, starts x.2) interleaved.
Proof. repeat constructor. Qed.

#[local] Abbreviation shown := (played true 2 interleaved).

Example interleaved_events : events shown.1 =
  [EAccess TQconn 1 10 11; EInsert TKeys 77 (Some 3); EInsert TKeys 5 (Some 2);
   EInsert TQconn 10 (Some 1)].
Proof. by_eval. Qed.

Lemma tables_refine_atomic_witness :
  fetches shown.1 = 3 ∧ ∃ a, spec_run (events shown.1) a ∧ a_tables a = s_tables shown.2.
Proof.
  assert (E : fetches shown.1 = 3) by by_eval. split; [exact E|].
  apply (tables_refine_atomic true 2).
  - apply played_run; [exact interleaved_starts|by_eval].
  - by left.
  - rewrite E. vm_compute. discriminate.
Defined.

(** Before the last two steps thread 0 still holds the connections' mutex. *)
Definition halfway : list (nat * pc) := take 8 interleaved.

Lemma calls_complete_witness :
  (∃ k s', advance (played true 2 halfway).2 k s' ∧ all_idle s') ∧
  (∀ k s', advance (played true 2 halfway).2 k s' → (k ≤ 5 * 2)%nat).
Proof.
  apply (calls_complete 2 (played true 2 halfway).1).
  apply played_run; [repeat constructor|by_eval].
Defined.

(** ** Without the mutexes

    Two threads of the [skip-locks] build that update one object at the same
    time: the second closure starts from the object the first one found, and the
    first update is lost. *)
Definition bump : pc := Entering TConn 1 (λ x : Z, Leave (x + 1)).

Definition racing : list (nat * pc) :=
  let i0 := (0%nat, Inserting TConn 10 Top) in
  [i0; i0; i0; (0%nat, bump); (1%nat, bump); (0%nat, bump); (1%nat, bump); (0%nat, bump); (1%nat, bump)].

Example skip_locks_loses_updates :
  run false 2 (played false 2 racing).1 (played false 2 racing).2 ∧
  s_tables (played false 2 racing).2 TConn !! 1 = Some 11 ∧
  (∀ a, ¬ spec_run (events (played false 2 racing).1) a) ∧
  is_some (play true racing [] (init 2)) = false.
Proof.
  split_and!; [|by_eval| |by_eval].
  - apply played_run; [|by_eval]. unfold racing. cbv zeta.
    repeat (apply Forall_cons_2 || apply Forall_nil_2); try exact I; right; intros x; by eexists.
  - assert (E : events (played false 2 racing).1 =
      [EAccess TConn 1 10 11; EAccess TConn 1 10 11; EInsert TConn 10 (Some 1)]) by by_eval.
    rewrite E. intros a Ha. inversion Ha as [|? a1 ? ? Ha1 Hs]; subst.
    inversion Ha1 as [|? a2 ? ? _ Hs1]; subst.
    inversion Hs; subst. inversion Hs1; subst. simpl in *. rewrite put_same, lookup_insert_eq in *.
    congruence.
Qed.

(** ** One thread alone

    Uninterrupted, the steps of an [insert] are the sequential [insert]. *)
Section Solo.
Context {V : Type}.

#[local] Instance state_counter : HasCounter (state (V:=V)) :=
  { counter := s_counter; set_counter := with_counter }.

Definition table_of (t : table) : HandleTable (state (V:=V)) V :=
  {| map_of := λ s, s_tables s t; set_map := with_table t |}.

Lemma solo_insert i t v (s s' : state (V:=V)) o :
  s_threads s !! i = Some (Inserting t v Top) → may_enter true t s →
  insert (table_of t) v s = Ret o s' → advance s 2 (goto i Idle s').
Proof.
  intros Hi Hm E. pose proof (lookup_lt_Some _ _ _ Hi) as Hlen.
  eapply advance_more; [by exists Fetch; split; [|by eapply step_fetch]|].
  revert E. unfold insert, next_handle, fetch_add_1, mbind, prog_bind, gets, modify, mret, prog_ret.
  simpl. destruct (0 <? s_counter s) eqn:Hc; intros [= <- <-]; breflect.
  - eapply advance_more; [eexists; split; [|apply (step_insert true _ i t v Top (s_counter s))]; [done| | |]|].
    + simpl. by rewrite list_lookup_insert_eq.
    + done.
    + intros _. simpl. apply Forall_insert; [by apply Hm|done].
    + unfold goto, with_table, with_counter. simpl. rewrite list_insert_insert_eq. constructor.
  - eapply advance_more; [eexists; split; [|apply (step_exhausted true _ i t v Top (s_counter s))]; [done| |]|].
    + simpl. by rewrite list_lookup_insert_eq.
    + lia.
    + unfold goto, with_counter. simpl. rewrite list_insert_insert_eq. constructor.
Qed.
End Solo.
End Threads.
