(* ===== verification/Rustls.v ===== *)
(** * The libraries the shim calls

    [rustls], [aws-lc-rs], [rustls-pemfile] and [webpki-roots] are not part of
    the repository. The operations the shim calls are the fields of the class
    [Rustls], an argument of every definition that uses them. [Result]s are
    sums with the error on the left. An operation that works in place on a
    slice returns the slice as it leaves it. What the documentation of those
    crates promises about them, and the shim relies on, is the separate class
    [RustlsLaws]. *)

From S2P Require Import Prelude.

Module Rustls.

(** [rustls::quic::Version], [rustls::Side], [rustls::HandshakeKind]. *)
Inductive QuicVersion := V1 | V2.
Inductive Side := ClientSide | ServerSide.
Inductive HandshakeKind := Full | Resumed | FullWithHelloRetryRequest.

(** [std::sync::Arc]: a shared value with the identity of its allocation. *)
Record Arc (A : Type) := mkArc { arc_id : N; arc_val : A }.
Arguments mkArc {A} _ _.
Arguments arc_id {A} _.
Arguments arc_val {A} _.

(** [rustls::quic::KeyChange] over key pairs (header key, packet key). *)
Inductive KeyChange (H P S : Type) :=
  | Handshake (local remote : H * P)
  | OneRtt (local remote : H * P) (next : S).
Arguments Handshake {H P S} _ _.
Arguments OneRtt {H P S} _ _ _.

(** [rustls::client::danger::ServerCertVerifier]: what a client asks about the
    certificate of its server and about the signatures made with it. Times are
    seconds since the epoch. *)
Record ServerCertVerifier (C N D G E : Type) := {
  verify_server_cert : C → list C → N → bytes → Z → E + unit;
  verify_tls12_signature : bytes → C → D → E + unit;
  verify_tls13_signature : bytes → C → D → E + unit;
  supported_verify_schemes : list G;
}.

Class Rustls := {
  (** [rustls::Error] and its [Display]; [Error::General]. *)
  error : Type;
  error_display : error → string;
  error_debug : error → string;
  error_general : string → error;
  (** [std::io::Error] values raised by rustls, their [Display] and kind. *)
  io_error : Type;
  io_error_display : io_error → string;
  io_would_block : io_error → bool;

  (** [quic::PacketKey] and [quic::HeaderProtectionKey] made by rustls. *)
  pkey : Type;
  pkey_encrypt_in_place : pkey → Z → bytes → bytes → bytes * (error + bytes);
  pkey_decrypt_in_place : pkey → Z → bytes → bytes → bytes * (error + bytes);
  pkey_tag_len : pkey → Z;
  hkey : Type;
  hkey_encrypt_in_place : hkey → bytes → Z → bytes → (Z * bytes) * (error + unit);
  hkey_decrypt_in_place : hkey → bytes → Z → bytes → (Z * bytes) * (error + unit);

  (** [TLS13_AES_128_GCM_SHA256.tls13()], its QUIC algorithm, [Keys::initial]. *)
  suite : Type;
  quic_algo : Type;
  tls13_aes_128_gcm_sha256 : option suite;
  suite_quic : suite → option quic_algo;
  keys_initial : QuicVersion → suite → quic_algo → bytes → Side → (hkey * pkey) * (hkey * pkey);

  (** The suite's HKDF provider. *)
  expander : Type;
  extract_from_secret : suite → option bytes → bytes → expander;
  expander_for_okm : suite → bytes → expander;
  expand_slice : expander → list bytes → Z → option bytes;

  (** [quic::Secrets::next_packet_keys]: (local, remote) packet keys. *)
  secrets : Type;
  next_packet_keys : secrets → (pkey * pkey) * secrets;

  (** Configurations and how they are built. *)
  client_config : Type;
  server_config : Type;
  cert : Type;
  private_key : Type;
  pem_certs : bytes → io_error + list cert;
  pem_private_key : bytes → io_error + option private_key;
  root_store : Type;
  root_store_webpki : root_store;
  root_store_empty : root_store;
  root_store_add : root_store → cert → error + root_store;
  client_config_build : bool → root_store → client_config;
  (** The default providers of aws-lc-rs and ring, their algorithms for
      signatures, and the checks of [rustls::crypto] that use them. *)
  crypto_provider : Type;
  aws_lc_rs_provider : crypto_provider;
  ring_provider : crypto_provider;
  sig_algorithms : Type;
  signature_verification_algorithms : crypto_provider → sig_algorithms;
  digitally_signed : Type;
  signature_scheme : Type;
  supported_schemes : sig_algorithms → list signature_scheme;
  crypto_verify_tls12_signature : bytes → cert → digitally_signed → sig_algorithms → error + unit;
  crypto_verify_tls13_signature : bytes → cert → digitally_signed → sig_algorithms → error + unit;
  (** [ServerName], and [dangerous().with_custom_certificate_verifier]. *)
  server_name : Type;
  client_config_build_dangerous :
    bool → crypto_provider →
    ServerCertVerifier cert server_name digitally_signed signature_scheme error → client_config;
  client_config_set_key_log : client_config → client_config;
  client_config_disable_resumption : client_config → client_config;
  client_config_set_alpn : client_config → list bytes → client_config;
  server_config_build : bool → list cert → private_key → error + server_config;
  server_config_set_key_log : server_config → server_config;
  server_config_set_alpn : server_config → list bytes → server_config;
  server_config_set_ticketer : server_config → error + server_config;
  server_config_set_max_early_data : server_config → Z → server_config;
  server_config_set_send_tls13_tickets : server_config → Z → server_config;

  (** [ServerName::try_from] on valid UTF-8. *)
  name_error_display : string;
  server_name_try_from : bytes → option server_name;

  (** TCP connections: what the deframer asks its reader for, how it takes the
      bytes, what it hands its writer, the plaintext streams. *)
  client_conn : Type;
  server_conn : Type;
  client_conn_new : Arc client_config → server_name → error + client_conn;
  server_conn_new : Arc server_config → error + server_conn;
  client_holds : client_conn → N → bool;
  server_holds : server_conn → N → bool;
  client_read_size : client_conn → Z;
  server_read_size : server_conn → Z;
  client_read_tls : client_conn → bytes → client_conn * (io_error + Z);
  server_read_tls : server_conn → bytes → server_conn * (io_error + Z);
  client_process_new_packets : client_conn → client_conn * (error + unit);
  server_process_new_packets : server_conn → server_conn * (error + unit);
  client_pending_tls : client_conn → bytes;
  server_pending_tls : server_conn → bytes;
  client_write_tls : client_conn → Z → client_conn * (io_error + Z);
  server_write_tls : server_conn → Z → server_conn * (io_error + Z);
  client_reader_read : client_conn → Z → client_conn * (io_error + bytes);
  server_reader_read : server_conn → Z → server_conn * (io_error + bytes);
  client_writer_write : client_conn → bytes → client_conn * (io_error + Z);
  server_writer_write : server_conn → bytes → server_conn * (io_error + Z);
  client_is_handshaking : client_conn → bool;
  server_is_handshaking : server_conn → bool;
  client_alpn_protocol : client_conn → option bytes;
  server_alpn_protocol : server_conn → option bytes;

  (** QUIC connections. *)
  qclient : Type;
  qserver : Type;
  qclient_new : client_config → QuicVersion → server_name → bytes → error + qclient;
  qserver_new : server_config → QuicVersion → bytes → error + qserver;
  qclient_write_hs : qclient → qclient * bytes * option (KeyChange hkey pkey secrets);
  qserver_write_hs : qserver → qserver * bytes * option (KeyChange hkey pkey secrets);
  qclient_read_hs : qclient → bytes → qclient * (error + unit);
  qserver_read_hs : qserver → bytes → qserver * (error + unit);
  qclient_alert : qclient → option Z;
  qserver_alert : qserver → option Z;
  qclient_is_handshaking : qclient → bool;
  qserver_is_handshaking : qserver → bool;
  qserver_handshake_kind : qserver → option HandshakeKind;
  qclient_transport_parameters : qclient → option bytes;
  qserver_transport_parameters : qserver → option bytes;
  qclient_alpn_protocol : qclient → option bytes;
  qserver_alpn_protocol : qserver → option bytes;
  qclient_zero_rtt_keys : qclient → option (hkey * pkey);
  qserver_zero_rtt_keys : qserver → option (hkey * pkey);
  qclient_is_early_data_accepted : qclient → bool;
  qserver_reject_early_data : qserver → qserver;

  (** [aws_lc_rs]: AES-128-GCM and HMAC-SHA256; [Unspecified]'s [Display]. *)
  unspecified_display : string;
  aead_key : Type;
  unbound_key_new : bytes → option aead_key;
  nonce : Type;
  nonce_try_assume_unique : bytes → option nonce;
  aes_tag_len : Z;
  seal_in_place_append_tag : aead_key → nonce → bytes → bytes → option bytes;
  open_in_place : aead_key → nonce → bytes → bytes → option bytes;
  hmac_sha256 : bytes → bytes → bytes;
}.

(** Documented behaviour of the packet-protection traits (rustls 0.23,
    [rustls::quic]): in-place operations keep the slice's length, a tag has
    [tag_len] bytes, decryption inverts encryption with the keys of the other
    side for the same packet number and header, the plaintext is the front of
    the decrypted slice, and header protection only changes the bits it masks
    and is undone by the other side's keys for the same sample. [peer_pkey]
    and [peer_hkey] say which keys were derived from one secret. *)
Class RustlsLaws {R : Rustls} := {
  peer_pkey : pkey → pkey → Prop;
  peer_hkey : hkey → hkey → Prop;
  encrypt_length : ∀ k pn hdr pt ct tag,
    pkey_encrypt_in_place k pn hdr pt = (ct, inr tag) →
    zlen ct = zlen pt ∧ zlen tag = pkey_tag_len k;
  decrypt_encrypt : ∀ k k' pn hdr pt ct tag,
    peer_pkey k k' → pkey_encrypt_in_place k pn hdr pt = (ct, inr tag) →
    ∃ tail, pkey_decrypt_in_place k' pn hdr (ct ++ tag) = (pt ++ tail, inr pt) ∧
      zlen tail = zlen tag;
  decrypt_length : ∀ k pn hdr ct out pt,
    pkey_decrypt_in_place k pn hdr ct = (out, inr pt) → zlen pt ≤ zlen ct;
  tag_len_range : ∀ k, 0 ≤ pkey_tag_len k ≤ 255;
  hp_length : ∀ k sample b pn b' pn' r,
    hkey_encrypt_in_place k sample b pn = ((b', pn'), r) → zlen pn' = zlen pn;
  (** The mask covers the low four bits of a long header's first byte. *)
  hp_long_bits : ∀ k sample b pn b' pn' r,
    hkey_encrypt_in_place k sample b pn = ((b', pn'), r) →
    Z.testbit b 7 = true → Z.shiftr b' 4 = Z.shiftr b 4;
  (** ... and the low five bits of a short header's. *)
  hp_short_bits : ∀ k sample b pn b' pn' r,
    hkey_encrypt_in_place k sample b pn = ((b', pn'), r) →
    Z.testbit b 7 = false → Z.shiftr b' 5 = Z.shiftr b 5;
  (** The receiver unmasks four bytes; those after the packet number of the
      length in the unmasked first byte are left as they were. *)
  hp_decrypt_encrypt : ∀ k k' sample b pn b' pn' rest,
    peer_hkey k k' →
    hkey_encrypt_in_place k sample b pn = ((b', pn'), inr tt) →
    zlen pn = Z.land b 3 + 1 → zlen pn + zlen rest = 4 →
    hkey_decrypt_in_place k' sample b' (pn' ++ rest) = ((b, pn ++ rest), inr tt);
}.
Arguments RustlsLaws : clear implicits.

(** Documented behaviour of rustls's stream interface and of [std::io]: a read
    or write reports how many bytes it moved, never more than it was given;
    [read_tls] takes the bytes its reader gave, of which it may ask for none: a
    connection that has received [close_notify] reads nothing more. *)
Class TcpLaws {R : Rustls} := {
  client_read_count : ∀ c b c' n, client_read_tls c b = (c', inr n) → n = zlen b;
  server_read_count : ∀ c b c' n, server_read_tls c b = (c', inr n) → n = zlen b;
  client_read_size_nonneg : ∀ c, 0 ≤ client_read_size c;
  server_read_size_nonneg : ∀ c, 0 ≤ server_read_size c;
  client_write_count : ∀ c b c' n, client_writer_write c b = (c', inr n) → 0 ≤ n ≤ zlen b;
  server_write_count : ∀ c b c' n, server_writer_write c b = (c', inr n) → 0 ≤ n ≤ zlen b;
  client_drain_count : ∀ c n c' m, client_write_tls c n = (c', inr m) → m = n;
  server_drain_count : ∀ c n c' m, server_write_tls c n = (c', inr m) → m = n;
  client_reader_bound : ∀ c n c' b,
    0 ≤ n → client_reader_read c n = (c', inr b) → zlen b ≤ n;
  server_reader_bound : ∀ c n c' b,
    0 ≤ n → server_reader_read c n = (c', inr b) → zlen b ≤ n;
}.
Arguments TcpLaws : clear implicits.

End Rustls.
