(* ===== verification/World.v ===== *)
(** * The state of the shim

    The process-wide state of [src/crates/librustls-mojo/src]: the handle
    counter, the thread-local last error, the six handle tables with the
    records they hold, the caller's memory, and the probe counter of freed
    keys. The packet and header keys of a [KeysEntry] are trait objects: the
    ones rustls makes, or the placeholder structs declared in [quic_hs.rs].

    The functions of the error module ([error.rs]) are here too, because every
    other component uses them. *)

From S2P Require Import Prelude Effects Handles Rustls.
Import Effects Handles Rustls.

Module World.

Section World.
Context {R : Rustls}.

(** [Box<dyn PacketKey>]: rustls's, or [NoOpPacketKey] of the two 0-RTT
    functions (the argument is the side it stands for). *)
Inductive PacketKey :=
  | RustlsPacketKey (k : pkey)
  | NoOpPacketKey (side : string).

(** [Box<dyn HeaderProtectionKey>]: rustls's, [NoOpHpKey] of the key update,
    or [NoOpHpKey2] of the 0-RTT functions. *)
Inductive HeaderKey :=
  | RustlsHeaderKey (k : hkey)
  | NoOpHpKey
  | NoOpHpKey2 (side : string).

Record DirectionalKeys := { header : HeaderKey; packet : PacketKey }.

Record KeysEntry := {
  local : DirectionalKeys;
  remote : DirectionalKeys;
  last_local_pn : option Z;
}.

Definition wrap_keys (k : hkey * pkey) : DirectionalKeys :=
  {| header := RustlsHeaderKey k.1; packet := RustlsPacketKey k.2 |}.

Inductive ConfigEntry :=
  | ConfigClient (cfg : Arc client_config)
  | ConfigServer (cfg : Arc server_config).

Inductive TlsConn :=
  | TlsClient (c : client_conn)
  | TlsServer (s : server_conn).

Inductive QuicConn :=
  | QuicClient (c : qclient)
  | QuicServer (s : qserver).

Record QuicConnEntry := {
  conn : QuicConn;
  pending : option (Z * (DirectionalKeys * DirectionalKeys));
  next_secrets : option secrets;
  alert_cache : option Z;
  first_ch_prefix : bytes;
  first_ch_prefix_len : Z;
  client_random_captured : bool;
  client_random : bytes;
}.

(** Memory the caller owns, one store per element type. *)
Record memory := {
  m_u8 : gmap N (list Z);
  m_i32 : gmap N (list Z);
  m_u64 : gmap N (list Z);
  m_ptr : gmap N (list ptr);
}.

Record world := {
  w_mem : memory;
  w_next : Z;
  w_last_error : option string;
  w_config : gmap Z ConfigEntry;
  w_conn : gmap Z TlsConn;
  w_keys : gmap Z KeysEntry;
  w_qcfg_client : gmap Z client_config;
  w_qcfg_server : gmap Z server_config;
  w_qconn : gmap Z QuicConnEntry;
  w_keys_free_count : Z;
  w_next_arc : N;
  w_elapsed_us : list Z;
}.

Definition set_mem m w : world :=
  {| w_mem := m; w_next := w_next w; w_last_error := w_last_error w;
     w_config := w_config w; w_conn := w_conn w; w_keys := w_keys w;
     w_qcfg_client := w_qcfg_client w; w_qcfg_server := w_qcfg_server w;
     w_qconn := w_qconn w; w_keys_free_count := w_keys_free_count w;
     w_next_arc := w_next_arc w; w_elapsed_us := w_elapsed_us w |}.
Definition set_next z w : world :=
  {| w_mem := w_mem w; w_next := z; w_last_error := w_last_error w;
     w_config := w_config w; w_conn := w_conn w; w_keys := w_keys w;
     w_qcfg_client := w_qcfg_client w; w_qcfg_server := w_qcfg_server w;
     w_qconn := w_qconn w; w_keys_free_count := w_keys_free_count w;
     w_next_arc := w_next_arc w; w_elapsed_us := w_elapsed_us w |}.
Definition set_error e w : world :=
  {| w_mem := w_mem w; w_next := w_next w; w_last_error := e;
     w_config := w_config w; w_conn := w_conn w; w_keys := w_keys w;
     w_qcfg_client := w_qcfg_client w; w_qcfg_server := w_qcfg_server w;
     w_qconn := w_qconn w; w_keys_free_count := w_keys_free_count w;
     w_next_arc := w_next_arc w; w_elapsed_us := w_elapsed_us w |}.
Definition set_config m w : world :=
  {| w_mem := w_mem w; w_next := w_next w; w_last_error := w_last_error w;
     w_config := m; w_conn := w_conn w; w_keys := w_keys w;
     w_qcfg_client := w_qcfg_client w; w_qcfg_server := w_qcfg_server w;
     w_qconn := w_qconn w; w_keys_free_count := w_keys_free_count w;
     w_next_arc := w_next_arc w; w_elapsed_us := w_elapsed_us w |}.
Definition set_conn m w : world :=
  {| w_mem := w_mem w; w_next := w_next w; w_last_error := w_last_error w;
     w_config := w_config w; w_conn := m; w_keys := w_keys w;
     w_qcfg_client := w_qcfg_client w; w_qcfg_server := w_qcfg_server w;
     w_qconn := w_qconn w; w_keys_free_count := w_keys_free_count w;
     w_next_arc := w_next_arc w; w_elapsed_us := w_elapsed_us w |}.
Definition set_keys m w : world :=
  {| w_mem := w_mem w; w_next := w_next w; w_last_error := w_last_error w;
     w_config := w_config w; w_conn := w_conn w; w_keys := m;
     w_qcfg_client := w_qcfg_client w; w_qcfg_server := w_qcfg_server w;
     w_qconn := w_qconn w; w_keys_free_count := w_keys_free_count w;
     w_next_arc := w_next_arc w; w_elapsed_us := w_elapsed_us w |}.
Definition set_qcfg_client m w : world :=
  {| w_mem := w_mem w; w_next := w_next w; w_last_error := w_last_error w;
     w_config := w_config w; w_conn := w_conn w; w_keys := w_keys w;
     w_qcfg_client := m; w_qcfg_server := w_qcfg_server w;
     w_qconn := w_qconn w; w_keys_free_count := w_keys_free_count w;
     w_next_arc := w_next_arc w; w_elapsed_us := w_elapsed_us w |}.
Definition set_qcfg_server m w : world :=
  {| w_mem := w_mem w; w_next := w_next w; w_last_error := w_last_error w;
     w_config := w_config w; w_conn := w_conn w; w_keys := w_keys w;
     w_qcfg_client := w_qcfg_client w; w_qcfg_server := m;
     w_qconn := w_qconn w; w_keys_free_count := w_keys_free_count w;
     w_next_arc := w_next_arc w; w_elapsed_us := w_elapsed_us w |}.
Definition set_qconn m w : world :=
  {| w_mem := w_mem w; w_next := w_next w; w_last_error := w_last_error w;
     w_config := w_config w; w_conn := w_conn w; w_keys := w_keys w;
     w_qcfg_client := w_qcfg_client w; w_qcfg_server := w_qcfg_server w;
     w_qconn := m; w_keys_free_count := w_keys_free_count w;
     w_next_arc := w_next_arc w; w_elapsed_us := w_elapsed_us w |}.
Definition set_free_count z w : world :=
  {| w_mem := w_mem w; w_next := w_next w; w_last_error := w_last_error w;
     w_config := w_config w; w_conn := w_conn w; w_keys := w_keys w;
     w_qcfg_client := w_qcfg_client w; w_qcfg_server := w_qcfg_server w;
     w_qconn := w_qconn w; w_keys_free_count := z;
     w_next_arc := w_next_arc w; w_elapsed_us := w_elapsed_us w |}.
Definition set_next_arc n w : world :=
  {| w_mem := w_mem w; w_next := w_next w; w_last_error := w_last_error w;
     w_config := w_config w; w_conn := w_conn w; w_keys := w_keys w;
     w_qcfg_client := w_qcfg_client w; w_qcfg_server := w_qcfg_server w;
     w_qconn := w_qconn w; w_keys_free_count := w_keys_free_count w;
     w_next_arc := n; w_elapsed_us := w_elapsed_us w |}.
Definition set_elapsed l w : world :=
  {| w_mem := w_mem w; w_next := w_next w; w_last_error := w_last_error w;
     w_config := w_config w; w_conn := w_conn w; w_keys := w_keys w;
     w_qcfg_client := w_qcfg_client w; w_qcfg_server := w_qcfg_server w;
     w_qconn := w_qconn w; w_keys_free_count := w_keys_free_count w;
     w_next_arc := w_next_arc w; w_elapsed_us := l |}.

Definition set_u8 h m : memory :=
  {| m_u8 := h; m_i32 := m_i32 m; m_u64 := m_u64 m; m_ptr := m_ptr m |}.
Definition set_i32 h m : memory :=
  {| m_u8 := m_u8 m; m_i32 := h; m_u64 := m_u64 m; m_ptr := m_ptr m |}.
Definition set_u64 h m : memory :=
  {| m_u8 := m_u8 m; m_i32 := m_i32 m; m_u64 := h; m_ptr := m_ptr m |}.

(** The tables of the process, all on the one counter. *)
#[global] Instance world_counter : HasCounter world :=
  { counter := w_next; set_counter := set_next }.

Definition config_table : HandleTable world ConfigEntry :=
  {| map_of := w_config; set_map := set_config |}.
Definition conn_table : HandleTable world TlsConn :=
  {| map_of := w_conn; set_map := set_conn |}.
Definition keys_table : HandleTable world KeysEntry :=
  {| map_of := w_keys; set_map := set_keys |}.
Definition quic_client_cfg_table : HandleTable world client_config :=
  {| map_of := w_qcfg_client; set_map := set_qcfg_client |}.
Definition quic_server_cfg_table : HandleTable world server_config :=
  {| map_of := w_qcfg_server; set_map := set_qcfg_server |}.
Definition quic_conn_table : HandleTable world QuicConnEntry :=
  {| map_of := w_qconn; set_map := set_qconn |}.

#[global] Instance world_counter_laws : HasCounterLaws world.
Proof. by split. Qed.

#[local] Ltac table_laws := split; try done; by intros [].
#[global] Instance config_table_laws : TableLaws config_table.
Proof. table_laws. Qed.
#[global] Instance conn_table_laws : TableLaws conn_table.
Proof. table_laws. Qed.
#[global] Instance keys_table_laws : TableLaws keys_table.
Proof. table_laws. Qed.
#[global] Instance quic_client_cfg_table_laws : TableLaws quic_client_cfg_table.
Proof. table_laws. Qed.
#[global] Instance quic_server_cfg_table_laws : TableLaws quic_server_cfg_table.
Proof. table_laws. Qed.
#[global] Instance quic_conn_table_laws : TableLaws quic_conn_table.
Proof. table_laws. Qed.
#[global] Instance keys_conn_indep : Independent keys_table quic_conn_table.
Proof. by split. Qed.

(** ** Memory access *)

Definition read_u8 (p : ptr) (n : Z) : prog world bytes :=
  o ← gets (λ w, load (m_u8 (w_mem w)) p n);
  match o with Some l => mret l | None => undef end.

Definition write_u8 (p : ptr) (l : bytes) : prog world unit := λ w,
  match store (m_u8 (w_mem w)) p l with
  | Some h => Ret tt (set_mem (set_u8 h (w_mem w)) w)
  | None => Undef
  end.

Definition read_i32 (p : ptr) : prog world Z :=
  o ← gets (λ w, load (m_i32 (w_mem w)) p 1);
  match o with Some (z :: _) => mret z | _ => undef end.

Definition write_i32 (p : ptr) (z : Z) : prog world unit := λ w,
  match store (m_i32 (w_mem w)) p [z] with
  | Some h => Ret tt (set_mem (set_i32 h (w_mem w)) w)
  | None => Undef
  end.

Definition read_u64 (p : ptr) : prog world Z :=
  o ← gets (λ w, load (m_u64 (w_mem w)) p 1);
  match o with Some (z :: _) => mret z | _ => undef end.

Definition write_u64 (p : ptr) (z : Z) : prog world unit := λ w,
  match store (m_u64 (w_mem w)) p [z] with
  | Some h => Ret tt (set_mem (set_u64 h (w_mem w)) w)
  | None => Undef
  end.

Definition read_ptr (p : ptr) : prog world ptr :=
  o ← gets (λ w, load (m_ptr (w_mem w)) p 1);
  match o with Some (q :: _) => mret q | _ => undef end.

(** [Instant::now()] then [elapsed()]: the next measurement of the clock. *)
Definition elapsed_us : prog world Z := λ w,
  match w_elapsed_us w with
  | t :: l => Ret t (set_elapsed l w)
  | [] => Ret 0 w
  end.

(** ** The last error (error.rs) *)

Definition set_last_error (msg : string) : prog world unit :=
  modify (set_error (Some msg)).

Definition clear_last_error : prog world unit := modify (set_error None).

(** [rlsm_err!(msg; return ret)]. *)
Definition rlsm_err {A} (msg : string) (ret : A) : prog world A :=
  set_last_error msg;; mret ret.

Definition rlsm_last_error (out_buf : ptr) (buf_len : Z) : prog world Z :=
  e ← gets w_last_error;
  match e with
  | None => mret 0
  | Some msg =>
      let needed := zlen (string_bytes msg) + 1 in
      if (buf_len <? 0) || (as_usize buf_len <? needed) then mret (-1)
      else if is_null out_buf then mret (-1)
      else
        write_u8 out_buf (string_bytes msg);;
        write_u8 (ptr_add out_buf (zlen (string_bytes msg))) [0];;
        mret (as_i32 needed)
  end.

(** ** Equations the proofs compute with *)

Lemma read_u8_ok w p n l :
  load (m_u8 (w_mem w)) p n = Some l → read_u8 p n w = Ret l w.
Proof. intros H. unfold read_u8, mbind, prog_bind, gets. by rewrite H. Qed.

Lemma write_u8_ok w p l h :
  store (m_u8 (w_mem w)) p l = Some h →
  write_u8 p l w = Ret tt (set_mem (set_u8 h (w_mem w)) w).
Proof. intros H. unfold write_u8. by rewrite H. Qed.

Lemma elapsed_us_ret w : ∃ t l, elapsed_us w = Ret t (set_elapsed l w).
Proof.
  unfold elapsed_us. destruct (w_elapsed_us w) as [|t l] eqn:E; [|by eexists _, _].
  exists 0, []. rewrite <- E. by destruct w.
Qed.

Lemma read_i32_ok w p z :
  load (m_i32 (w_mem w)) p 1 = Some [z] → read_i32 p w = Ret z w.
Proof. intros H. unfold read_i32, mbind, prog_bind, gets. by rewrite H. Qed.

Lemma read_u64_ok w p z :
  load (m_u64 (w_mem w)) p 1 = Some [z] → read_u64 p w = Ret z w.
Proof. intros H. unfold read_u64, mbind, prog_bind, gets. by rewrite H. Qed.

Lemma read_ptr_ok w p q :
  load (m_ptr (w_mem w)) p 1 = Some [q] → read_ptr p w = Ret q w.
Proof. intros H. unfold read_ptr, mbind, prog_bind, gets. by rewrite H. Qed.

Lemma write_i32_ok w p z h :
  store (m_i32 (w_mem w)) p [z] = Some h →
  write_i32 p z w = Ret tt (set_mem (set_i32 h (w_mem w)) w).
Proof. intros H. unfold write_i32. by rewrite H. Qed.

Lemma write_u64_ok w p z h :
  store (m_u64 (w_mem w)) p [z] = Some h →
  write_u64 p z w = Ret tt (set_mem (set_u64 h (w_mem w)) w).
Proof. intros H. unfold write_u64. by rewrite H. Qed.
End World.

Arguments KeysEntry {R}.

(** Runs the administrative steps of a program applied to a state. *)
Ltac run :=
  repeat (progress (unfold mbind, prog_bind, mret, prog_ret, gets, modify,
    clear_last_error, rlsm_err, set_last_error, panic, undef); cbn beta iota).

(** Decides the guards of a call from the facts at hand. *)
Ltac pass_guard :=
  match goal with
  | H : load _ ?p _ = Some _ |- context [is_null ?p] => rewrite (load_not_null _ _ _ _ H)
  | H : is_null ?p = _ |- context [is_null ?p] => rewrite H
  | |- context [?a <? ?b] =>
      first [rewrite (proj2 (Z.ltb_ge a b)) by lia | rewrite (proj2 (Z.ltb_lt a b)) by lia]
  | |- context [?a <=? ?b] =>
      first [rewrite (proj2 (Z.leb_gt a b)) by lia | rewrite (proj2 (Z.leb_le a b)) by lia]
  | |- context [?a =? ?b] =>
      first [rewrite (proj2 (Z.eqb_neq a b)) by lia | rewrite (proj2 (Z.eqb_eq a b)) by lia]
  end; cbn [orb andb negb].
Ltac pass_guards := cbn [orb andb negb]; repeat pass_guard.

Section ErrorFacts.
Context {R : Rustls}.

(** After a failing call the message is handed to a buffer that is large
    enough, NUL-terminated, with its length counted in the result; a buffer
    that is too small or null is reported by -1 and left alone. *)
Theorem rlsm_last_error_spec w msg out buf_len b :
  w_last_error w = Some msg → in_i32 buf_len →
  zlen (string_bytes msg) + 1 ≤ i32_max →
  load (m_u8 (w_mem w)) out (Z.max 0 buf_len) = Some b →
  if buf_len <? zlen (string_bytes msg) + 1
  then rlsm_last_error out buf_len w = Ret (-1) w
  else ∃ w', rlsm_last_error out buf_len w = Ret (zlen (string_bytes msg) + 1) w' ∧
         load (m_u8 (w_mem w')) out (zlen (string_bytes msg) + 1) =
           Some (string_bytes msg ++ [0]) ∧
         w_last_error w' = Some msg.
Proof.
  intros He Hi Hmax Hl. unfold rlsm_last_error. run. rewrite He.
  pose proof (zlen_nonneg (string_bytes msg)) as Hpos.
  destruct (buf_len <? zlen (string_bytes msg) + 1) eqn:Hsmall; breflect.
  - destruct (buf_len <? 0) eqn:Hneg; breflect; [done|].
    rewrite as_usize_nonneg_i32 by done. by rewrite (proj2 (Z.ltb_lt _ _)).
  - rewrite (proj2 (Z.ltb_ge buf_len 0)) by lia.
    rewrite as_usize_nonneg_i32 by (done || lia).
    rewrite (proj2 (Z.ltb_ge _ _)) by done. cbn [orb].
    destruct (is_null out) eqn:Hn; [by destruct out|].
    destruct (store_adjacent (m_u8 (w_mem w)) out (string_bytes msg) [0]
                (sub 0 (zlen (string_bytes msg) + 1) b)) as (h1 & h2 & Hs1 & Hs2 & Hl2).
    { eapply load_prefix; [done|]. change (zlen [0]) with 1. lia. }
    rewrite (write_u8_ok _ _ _ _ Hs1). cbn.
    rewrite (write_u8_ok _ _ _ h2) by done. eexists. split.
    + rewrite as_i32_id; [done|]. unfold in_i32, i32_min. lia.
    + done.
Qed.

End ErrorFacts.

End World.
