(* ===== verification/Frames.v ===== *)
(** * What a call leaves alone

    [keeps f c]: whatever the program [c] does, when it returns, the part [f]
    of the state is what it was. [calls_keep] is a syntax-directed search: it
    walks over the binds, tests and loops of a program and closes the leaves
    with the facts of the database [frames], so that a component states what
    each of its functions leaves alone in one line. *)

From S2P Require Import Prelude Effects Handles Rustls World.
Import Effects Handles Rustls World.

Module Frames.

Definition keeps {S A X} (f : S → X) (c : prog S A) : Prop :=
  ∀ s a s', c s = Ret a s' → f s' = f s.

Section Keeps.
Context {S X : Type} (f : S → X).

Lemma keeps_ret {A} (a : A) : keeps f (mret a : prog S A).
Proof. intros s a' s' [= _ <-]. done. Qed.

Lemma keeps_bind {A B} (c : prog S A) (k : A → prog S B) :
  keeps f c → (∀ a, keeps f (k a)) → keeps f (c ≫= k).
Proof.
  intros Hc Hk s b s' H. apply bind_Ret_inv in H as (a & s1 & H1 & H2).
  rewrite (Hk _ _ _ _ H2). by apply Hc in H1.
Qed.

Lemma keeps_gets {A} (g : S → A) : keeps f (gets g).
Proof. intros s a s' [= _ <-]. done. Qed.

Lemma keeps_modify (g : S → S) : (∀ s, f (g s) = f s) → keeps f (modify g).
Proof. intros Hg s a s' [= _ <-]. done. Qed.

Lemma keeps_panic {A} m : keeps f (panic m : prog S A).
Proof. by intros s a s'. Qed.

Lemma keeps_undef {A} : keeps f (undef : prog S A).
Proof. by intros s a s'. Qed.

Lemma keeps_no_fuel {A} : keeps f (no_fuel : prog S A).
Proof. by intros s a s'. Qed.

Lemma keeps_expect {A} (o : option A) m : keeps f (expect o m).
Proof. destruct o; [apply keeps_ret|apply keeps_panic]. Qed.

Lemma keeps_for_loop {A} n i (body : Z → A → prog S A) acc :
  (∀ j a, keeps f (body j a)) → keeps f (for_loop n i body acc).
Proof.
  intros Hb. revert i acc. induction n as [|n IH]; intros i acc; simpl.
  - apply keeps_ret.
  - apply keeps_bind; auto.
Qed.

Lemma keeps_with {T B} (tbl : HandleTable S T) h (g : T → prog S B) :
  (∀ x, keeps f (g x)) → keeps f (with_ tbl h g).
Proof.
  intros Hg. apply keeps_bind; [apply keeps_gets|]. intros [x|]; [|apply keeps_ret].
  apply keeps_bind; [done|]. intros; apply keeps_ret.
Qed.

Lemma keeps_with_mut {T B} (tbl : HandleTable S T) h (g : T → prog S (T * B)) :
  (∀ m s, f (set_map tbl m s) = f s) → (∀ x, keeps f (g x)) → keeps f (with_mut tbl h g).
Proof.
  intros Ht Hg. apply keeps_bind; [apply keeps_gets|]. intros [x|]; [|apply keeps_ret].
  apply keeps_bind; [done|]. intros [x' r]. apply keeps_bind; [by apply keeps_modify|].
  intros; apply keeps_ret.
Qed.

Lemma keeps_remove {T} (tbl : HandleTable S T) h :
  (∀ m s, f (set_map tbl m s) = f s) → keeps f (remove tbl h).
Proof.
  intros Ht. apply keeps_bind; [apply keeps_gets|]. intros o.
  apply keeps_bind; [by apply keeps_modify|]. intros; apply keeps_ret.
Qed.

Lemma keeps_insert `{HasCounter S} {T} (tbl : HandleTable S T) v :
  (∀ z s, f (set_counter z s) = f s) → (∀ m s, f (set_map tbl m s) = f s) →
  keeps f (insert tbl v).
Proof.
  intros Hc Ht. unfold insert, next_handle, fetch_add_1.
  repeat first [apply keeps_bind; [|intros]|apply keeps_gets|apply keeps_ret
               |by apply keeps_modify|case_match].
Qed.
End Keeps.

(** Parts of the state that the caller's memory, the last error and the clock
    are not in. *)
Class IgnoresMem `{R : Rustls} {X} (f : world → X) := ignores_mem : ∀ m w, f (set_mem m w) = f w.
Class IgnoresError `{R : Rustls} {X} (f : world → X) :=
  ignores_error : ∀ e w, f (set_error e w) = f w.
Class IgnoresClock `{R : Rustls} {X} (f : world → X) :=
  ignores_clock : ∀ l w, f (set_elapsed l w) = f w.

Section WorldKeeps.
Context `{R : Rustls} {X : Type} (f : world → X).

Lemma keeps_read_u8 p n : keeps f (read_u8 p n).
Proof. apply keeps_bind; [apply keeps_gets|]. intros []; [apply keeps_ret|apply keeps_undef]. Qed.
Lemma keeps_read_i32 p : keeps f (read_i32 p).
Proof. apply keeps_bind; [apply keeps_gets|]. intros [[]|]; (apply keeps_ret || apply keeps_undef). Qed.
Lemma keeps_read_u64 p : keeps f (read_u64 p).
Proof. apply keeps_bind; [apply keeps_gets|]. intros [[]|]; (apply keeps_ret || apply keeps_undef). Qed.
Lemma keeps_read_ptr p : keeps f (read_ptr p).
Proof. apply keeps_bind; [apply keeps_gets|]. intros [[]|]; (apply keeps_ret || apply keeps_undef). Qed.

Lemma keeps_write_u8 `{!IgnoresMem f} p l : keeps f (write_u8 p l).
Proof. intros w a w'. unfold write_u8. case_match; [|done]. intros [= _ <-]. apply ignores_mem. Qed.
Lemma keeps_write_i32 `{!IgnoresMem f} p z : keeps f (write_i32 p z).
Proof. intros w a w'. unfold write_i32. case_match; [|done]. intros [= _ <-]. apply ignores_mem. Qed.
Lemma keeps_write_u64 `{!IgnoresMem f} p z : keeps f (write_u64 p z).
Proof. intros w a w'. unfold write_u64. case_match; [|done]. intros [= _ <-]. apply ignores_mem. Qed.

Lemma keeps_elapsed_us `{!IgnoresClock f} : keeps f elapsed_us.
Proof.
  intros w a w'. unfold elapsed_us. case_match; intros [= _ <-]; [done|apply ignores_clock].
Qed.

Lemma keeps_clear_last_error `{!IgnoresError f} : keeps f clear_last_error.
Proof. apply keeps_modify. intros; apply ignores_error. Qed.
Lemma keeps_set_last_error `{!IgnoresError f} m : keeps f (set_last_error m).
Proof. apply keeps_modify. intros; apply ignores_error. Qed.
Lemma keeps_rlsm_err `{!IgnoresError f} {A} m (a : A) : keeps f (rlsm_err m a).
Proof. apply keeps_bind; [apply keeps_set_last_error|]. intros; apply keeps_ret. Qed.
End WorldKeeps.

Create HintDb frames discriminated.
#[export] Hint Resolve keeps_ret keeps_gets keeps_panic keeps_undef keeps_no_fuel keeps_expect
  keeps_read_u8 keeps_read_i32 keeps_read_u64 keeps_read_ptr keeps_write_u8
  keeps_write_i32 keeps_write_u64 keeps_elapsed_us keeps_clear_last_error
  keeps_set_last_error keeps_rlsm_err : frames.

(** ** What a call can return

    [returns Q c]: when [c] returns, its result satisfies [Q]. *)

Definition returns {S A} (Q : A → Prop) (c : prog S A) : Prop :=
  ∀ s a s', c s = Ret a s' → Q a.

Section Returns.
Context {S : Type}.

Lemma returns_ret {A} (Q : A → Prop) a : Q a → returns Q (mret a : prog S A).
Proof. intros HQ s a' s' [= <- _]. done. Qed.

Lemma returns_bind {A B} (P : A → Prop) (Q : B → Prop) (c : prog S A) (k : A → prog S B) :
  returns P c → (∀ a, P a → returns Q (k a)) → returns Q (c ≫= k).
Proof.
  intros Hc Hk s b s' H. apply bind_Ret_inv in H as (a & s1 & H1 & H2).
  eapply Hk; [by eapply Hc|done].
Qed.

Lemma returns_any {A} (c : prog S A) : returns (λ _, True) c.
Proof. done. Qed.

Lemma returns_for_loop {A} (Q : A → Prop) n i (body : Z → A → prog S A) acc :
  (∀ j a, Q a → returns Q (body j a)) → Q acc → returns Q (for_loop n i body acc).
Proof.
  intros Hb. revert i acc. induction n as [|n IH]; intros i acc Ha; simpl.
  - by apply returns_ret.
  - eapply returns_bind; [by apply Hb|]. auto.
Qed.

Lemma returns_with_mut {T B} (Q : option B → Prop) (tbl : HandleTable S T) h
    (g : T → prog S (T * B)) :
  Q None → (∀ x, returns (λ p, Q (Some p.2)) (g x)) → returns Q (with_mut tbl h g).
Proof.
  intros HN HS. apply (returns_bind (λ _, True)); [done|]. intros [x|] _; [|by apply returns_ret].
  eapply returns_bind; [apply HS|]. intros [x' r] Hr.
  apply (returns_bind (λ _, True)); [done|]. intros _ _. by apply returns_ret.
Qed.

Lemma returns_with {T B} (Q : option B → Prop) (tbl : HandleTable S T) h
    (g : T → prog S B) :
  Q None → (∀ x, returns (λ r, Q (Some r)) (g x)) → returns Q (with_ tbl h g).
Proof.
  intros HN HS. apply (returns_bind (λ _, True)); [done|]. intros [x|] _; [|by apply returns_ret].
  eapply returns_bind; [apply HS|]. intros r Hr. by apply returns_ret.
Qed.

(** What [with_mut] did, when its body leaves the table to it. *)
Lemma with_mut_inv {T B} (tbl : HandleTable S T) h (g : T → prog S (T * B)) s o s' :
  with_mut tbl h g s = Ret o s' →
  (o = None ∧ s' = s ∧ map_of tbl s !! h = None) ∨
  (∃ x x' r s1, map_of tbl s !! h = Some x ∧ g x s = Ret (x', r) s1 ∧ o = Some r ∧
     s' = set_map tbl (<[h := x']> (map_of tbl s1)) s1).
Proof.
  destruct (map_of tbl s !! h) as [x|] eqn:Hx.
  - rewrite (with_mut_Some _ _ _ _ x Hx). destruct (g x s) as [[x' r] s1| | |] eqn:Hg; [|done..].
    intros [= <- <-]. right. eauto 10.
  - rewrite with_mut_None by done. intros [= <- <-]. auto.
Qed.
End Returns.

Ltac return_step :=
  lazymatch goal with
  | |- returns _ (let '(_, _) := ?e in _) => destruct e eqn:?
  | |- returns _ (match ?e with _ => _ end) => destruct e eqn:?
  | |- returns _ (mbind _ _) => eapply returns_bind; [apply returns_any|intros ? _]
  | |- returns _ (mret _) => apply returns_ret
  end.
Ltac calls_return := intros; repeat (cbv zeta; return_step).

Ltac keep_step :=
  lazymatch goal with
  | |- keeps _ (let '(_, _) := ?e in _) => destruct e eqn:?
  | |- keeps _ (match ?e with _ => _ end) => destruct e eqn:?
  | |- keeps _ (mbind _ _) => apply keeps_bind; [|intros]
  | |- keeps _ (for_loop _ _ _ _) => apply keeps_for_loop; intros
  | |- keeps _ (with_ _ _ _) => apply keeps_with; intros
  | |- keeps _ (with_mut _ _ _) => apply keeps_with_mut; [intros; reflexivity|intros]
  | |- keeps _ (remove _ _) => apply keeps_remove; intros; reflexivity
  | |- keeps _ (insert _ _) => apply keeps_insert; intros; reflexivity
  | |- keeps _ (modify _) => apply keeps_modify; intros; reflexivity
  | |- keeps _ (?c _) => solve [auto with frames typeclass_instances]
  | |- keeps _ _ => solve [auto with frames typeclass_instances]
  end.
Ltac calls_keep := intros; repeat (cbv zeta; keep_step).

(** ** How a table evolves

    A call evolves a table under a preorder [le] on its objects when it only
    moves live objects up or frees them, brings no handle issued before back to
    life, and moves the counter forward. [issued s] bounds the handles issued
    before: the counter, and [i32::MAX] once it is exhausted. *)

Section Evolution.
Context {S T : Type} `{HasCounterLaws S}.
Context (tbl : HandleTable S T) `{!TableLaws tbl} (le : T → T → Prop) `{!PreOrder le}.

Definition issued (s : S) : Z := if 0 <? counter s then counter s else i32_max.

Definition entry_le (o o' : option T) : Prop :=
  match o, o' with
  | _, None => True
  | None, Some _ => False
  | Some x, Some x' => le x x'
  end.

Definition evolves (s s' : S) : Prop :=
  in_i32 (counter s) →
  in_i32 (counter s') ∧ issued s ≤ issued s' ∧
  ∀ h, h < issued s → entry_le (map_of tbl s !! h) (map_of tbl s' !! h).

Lemma entry_le_refl o : entry_le o o.
Proof. destruct o; simpl; [reflexivity|done]. Qed.

Lemma entry_le_trans o1 o2 o3 : entry_le o1 o2 → entry_le o2 o3 → entry_le o1 o3.
Proof. destruct o1, o2, o3; simpl; try done. intros; by etrans. Qed.

Lemma evolves_trans s1 s2 s3 : evolves s1 s2 → evolves s2 s3 → evolves s1 s3.
Proof.
  intros E1 E2 I1. destruct (E1 I1) as (I2 & L1 & H1). destruct (E2 I2) as (I3 & L2 & H2).
  split_and!; [done|lia|]. intros h Hh. eapply entry_le_trans; [by apply H1|apply H2; lia].
Qed.

(** Same objects, and a counter that moved on. *)
Lemma evolves_same s s' :
  map_of tbl s' = map_of tbl s →
  (in_i32 (counter s) → in_i32 (counter s') ∧ issued s ≤ issued s') → evolves s s'.
Proof.
  intros Hm Hc I. destruct (Hc I) as [? ?]. split_and!; try done.
  intros h _. rewrite Hm. apply entry_le_refl.
Qed.

Definition evolving {A} (c : prog S A) : Prop :=
  ∀ s a s', c s = Ret a s' → evolves s s'.

(** The part of the state an evolution is about. *)
Definition table_core (s : S) : gmap Z T * Z := (map_of tbl s, counter s).

Lemma keeps_evolving {A} (c : prog S A) : keeps table_core c → evolving c.
Proof.
  intros Hk s a s' Hc. apply Hk in Hc. injection Hc as Hm Hn.
  apply evolves_same; [done|]. intros I. unfold issued. by rewrite Hn.
Qed.

Lemma evolving_bind {A B} (c : prog S A) (k : A → prog S B) :
  evolving c → (∀ a, evolving (k a)) → evolving (c ≫= k).
Proof.
  intros Hc Hk s b s' Hb. apply bind_Ret_inv in Hb as (a & s1 & H1 & H2).
  eapply evolves_trans; [by eapply Hc|by eapply Hk].
Qed.

Lemma evolving_with {T' B} (tb : HandleTable S T') h (g : T' → prog S B) :
  (∀ x, evolving (g x)) → evolving (with_ tb h g).
Proof.
  intros Hg. apply evolving_bind; [apply keeps_evolving, keeps_gets|].
  intros [x|]; [|apply keeps_evolving, keeps_ret].
  apply evolving_bind; [done|]. intros. apply keeps_evolving, keeps_ret.
Qed.

Lemma evolving_with_mut {B} h (g : T → prog S (T * B)) :
  (∀ x, keeps (map_of tbl) (g x)) → (∀ x, evolving (g x)) →
  (∀ x, returns (λ p, le x p.1) (g x)) → evolving (with_mut tbl h g).
Proof.
  intros Hk He Hr s o s' Hw. apply with_mut_inv in Hw as [(-> & -> & _)|Hw].
  { by apply evolves_same. }
  destruct Hw as (x & x' & r & s1 & Hx & Hg & -> & ->).
  pose proof (Hr _ _ _ _ Hg) as Hle. pose proof (Hk _ _ _ _ Hg) as Hm.
  apply He in Hg. intros I. destruct (Hg I) as (I1 & L1 & _).
  unfold issued. rewrite counter_set_map. split_and!; [done|done|]. intros k Hk'.
  rewrite map_of_set, Hm, lookup_insert. case_decide; [subst; by rewrite Hx|apply entry_le_refl].
Qed.

Lemma evolving_with_mut_other {T' B} (tb : HandleTable S T') h (g : T' → prog S (T' * B)) :
  (∀ m s, map_of tbl (set_map tb m s) = map_of tbl s) →
  (∀ m s, counter (set_map tb m s) = counter s) →
  (∀ x, evolving (g x)) → evolving (with_mut tb h g).
Proof.
  intros Hm Hc He s o s' Hw. apply with_mut_inv in Hw as [(-> & -> & _)|Hw].
  { by apply evolves_same. }
  destruct Hw as (x & x' & r & s1 & Hx & Hg & -> & ->).
  eapply evolves_trans; [by eapply He|]. apply evolves_same; [by rewrite Hm|].
  unfold issued. by rewrite Hc.
Qed.

Lemma evolving_remove h : evolving (remove tbl h).
Proof.
  intros s o s' Hr. rewrite remove_eq in Hr. injection Hr as <- <-. intros I.
  unfold issued. rewrite counter_set_map. split_and!; [done..|]. intros k _.
  rewrite map_of_set, lookup_delete. case_decide; [by destruct (map_of tbl s !! k)|].
  apply entry_le_refl.
Qed.

Lemma next_counter s : 0 < counter s → in_i32 (counter s) →
  issued s = counter s ∧ in_i32 (as_i32 (counter s + 1)) ∧
  counter s ≤ (if 0 <? as_i32 (counter s + 1) then as_i32 (counter s + 1) else i32_max).
Proof.
  intros Hp I. unfold issued. rewrite (proj2 (Z.ltb_lt _ _)) by done.
  split_and!; [done|apply as_i32_in|]. unfold in_i32 in I.
  destruct (Z.eq_dec (counter s) i32_max) as [->|]; [done|].
  rewrite as_i32_id by (unfold in_i32, i32_min in *; lia).
  rewrite (proj2 (Z.ltb_lt _ _)) by lia. lia.
Qed.

Lemma evolving_insert v : evolving (insert tbl v).
Proof.
  intros s o s' Hi I. destruct (Z.le_gt_cases (counter s) 0) as [Hx|Hx].
  - rewrite insert_exhausted in Hi by done. injection Hi as <- <-.
    unfold issued. rewrite counter_set. rewrite (proj2 (Z.ltb_ge _ _)) by done.
    split_and!; [done|done|]. intros h _. rewrite map_of_set_counter. apply entry_le_refl.
  - rewrite insert_pos in Hi by done. injection Hi as <- <-.
    destruct (next_counter s Hx I) as (Hiss & I' & Hle).
    unfold issued at 2. rewrite counter_set_map, counter_set, Hiss.
    split_and!; [done|done|]. intros h Hh. rewrite map_of_set, lookup_insert_ne by lia.
    apply entry_le_refl.
Qed.

Lemma evolving_insert_other {T'} (tb : HandleTable S T') `{!TableLaws tb} v :
  (∀ m s, map_of tbl (set_map tb m s) = map_of tbl s) → evolving (insert tb v).
Proof.
  intros Hm s o s' Hi I. destruct (Z.le_gt_cases (counter s) 0) as [Hx|Hx].
  - rewrite insert_exhausted in Hi by done. injection Hi as <- <-.
    unfold issued. rewrite counter_set. rewrite (proj2 (Z.ltb_ge _ _)) by done.
    split_and!; [done|done|]. intros h _. rewrite map_of_set_counter. apply entry_le_refl.
  - rewrite insert_pos in Hi by done. injection Hi as <- <-.
    destruct (next_counter s Hx I) as (Hiss & I' & Hle).
    unfold issued at 2. rewrite counter_set_map, counter_set, Hiss.
    split_and!; [done|done|]. intros h _. rewrite Hm, map_of_set_counter. apply entry_le_refl.
Qed.

Lemma evolving_for_loop {A} n i (body : Z → A → prog S A) acc :
  (∀ j a, evolving (body j a)) → evolving (for_loop n i body acc).
Proof.
  intros Hb. revert i acc. induction n as [|n IH]; intros i acc; simpl.
  - apply keeps_evolving, keeps_ret.
  - apply evolving_bind; auto.
Qed.
End Evolution.

(** The search: [evolving] follows the program, the leaves keep the table. *)
Ltac evolve_step :=
  lazymatch goal with
  | |- evolving _ _ (let '(_, _) := ?e in _) => destruct e eqn:?
  | |- evolving _ _ (match ?e with _ => _ end) => destruct e eqn:?
  | |- evolving ?t _ (mbind _ _) => apply evolving_bind; [apply _|..|intros]
  | |- evolving ?t _ (with_mut ?t _ _) => apply evolving_with_mut; [..|intros|intros|intros]
  | |- evolving _ _ (with_mut _ _ _) =>
      apply evolving_with_mut_other; [..|reflexivity|reflexivity|intros]
  | |- evolving _ _ (with_ _ _ _) => apply evolving_with; [..|intros]
  | |- evolving ?t _ (insert ?t _) => apply evolving_insert
  | |- evolving _ _ (insert _ _) => apply evolving_insert_other; [..|reflexivity]
  | |- evolving ?t _ (remove ?t _) => apply evolving_remove
  | |- evolving _ _ (for_loop _ _ _ _) => apply evolving_for_loop; [..|intros]
  | |- evolving _ _ _ => apply keeps_evolving; [..|solve [calls_keep]]
  end; try apply _.
Ltac calls_evolve := intros; repeat (cbv zeta; evolve_step).

(** ** The error contract

    A call reports: when it leaves a last error it returned -1, and when it
    leaves none its result satisfies [ok]. *)

Section Reports.
Context `{R : Rustls}.

Definition reported (ok : Z → Prop) (r : Z) (w : world) : Prop :=
  match w_last_error w with Some _ => r = -1 | None => ok r end.

Definition reports (ok : Z → Prop) (c : prog world Z) : Prop :=
  ∀ w r w', c w = Ret r w' → reported ok r w'.

(** The same for a part of a call whose result [f] projects. *)
Definition reports_via {A} (f : A → Z) (ok : Z → Prop) (c : prog world A) : Prop :=
  ∀ w a w', w_last_error w = None → c w = Ret a w' → reported ok (f a) w'.

Context (ok : Z → Prop).

Lemma reports_clear (k : prog world Z) :
  reports_via id ok k → reports ok (clear_last_error;; k).
Proof. intros Hk w r w'. by apply Hk. Qed.

Lemma reports_bind {A B} (f : B → Z) (Q : A → Prop) (c : prog world A) (k : A → prog world B) :
  keeps w_last_error c → returns Q c → (∀ a, Q a → reports_via f ok (k a)) →
  reports_via f ok (c ≫= k).
Proof.
  intros Hc HQ Hk w r w' He H. apply bind_Ret_inv in H as (a & w1 & H1 & H2).
  eapply Hk; [by eapply HQ| |done]. by rewrite (Hc _ _ _ H1).
Qed.

Lemma returns_read_u8 p n : returns (λ l, zlen l = n) (read_u8 p n).
Proof.
  intros w l w' H. unfold read_u8 in H. apply bind_Ret_inv in H as (o & w1 & [= <- <-] & H).
  destruct (load _ p n) as [l'|] eqn:Hl; [|done]. injection H as <- _.
  by apply load_length in Hl.
Qed.

Lemma reports_ret {A} (f : A → Z) a : ok (f a) → reports_via f ok (mret a).
Proof. intros Hr w a' w' He [= <- <-]. unfold reported. by rewrite He. Qed.

Lemma reports_err m : reports_via id ok (rlsm_err m (-1)).
Proof. intros w r w' _ [= <- <-]. done. Qed.

Lemma reports_set {A} (f : A → Z) m (k : prog world A) :
  keeps w_last_error k → returns (λ a, f a = -1) k →
  reports_via f ok (set_last_error m;; k).
Proof.
  intros Hk Hr w a w' _ H. apply bind_Ret_inv in H as (u & w1 & [= _ <-] & H).
  unfold reported. rewrite (Hk _ _ _ H). by apply Hr in H.
Qed.

(** A table access whose body reports, with the fallback for dead handles. *)
Lemma reports_with_mut {T} (tbl : HandleTable world T) h (g : T → prog world (T * Z)) k :
  reports_via id ok k →
  (∀ x w, w_last_error (set_map tbl x w) = w_last_error w) →
  (∀ x, reports_via snd ok (g x)) →
  reports_via id ok (o ← with_mut tbl h g;
                     match o with Some n => mret n | None => k end).
Proof.
  intros Hk Ht Hg w r w' He H. apply bind_Ret_inv in H as (o & w1 & H1 & H).
  apply with_mut_inv in H1 as [(-> & -> & _)|(x & x' & n & w2 & _ & H2 & -> & ->)].
  - by apply (Hk w).
  - injection H as <- <-. apply Hg in H2; [|done]. unfold reported in *. by rewrite Ht.
Qed.

Lemma reports_with {T} (tbl : HandleTable world T) h (g : T → prog world Z) k :
  reports_via id ok k → (∀ x, reports_via id ok (g x)) →
  reports_via id ok (o ← with_ tbl h g;
                     match o with Some n => mret n | None => k end).
Proof.
  intros Hk Hg w r w' He H. apply bind_Ret_inv in H as (o & w1 & H1 & H).
  destruct (map_of tbl w !! h) as [x|] eqn:Hx.
  - rewrite (with_Some _ _ _ _ x Hx) in H1. destruct (g x w) as [n w2| | |] eqn:Hgx; try done.
    injection H1 as <- <-. injection H as <- <-. by apply (Hg x w).
  - rewrite with_None in H1 by done. injection H1 as <- <-. by apply (Hk w).
Qed.

#[export] Instance last_error_mem : IgnoresMem (w_last_error (R:=R)).
Proof. done. Qed.
#[export] Instance last_error_clock : IgnoresClock (w_last_error (R:=R)).
Proof. done. Qed.
End Reports.

Ltac report_step :=
  lazymatch goal with
  | |- reports _ (mbind _ clear_last_error) => apply reports_clear
  | |- reports_via _ _ (let '(_, _) := ?e in _) => destruct e eqn:?
  | |- reports_via _ _ (match ?e with _ => _ end) => destruct e eqn:?
  | |- reports_via _ _ (rlsm_err _ _) => apply reports_err
  | |- reports_via _ _ (mbind _ (set_last_error _)) =>
      apply reports_set; [solve [calls_keep]|solve [calls_return; reflexivity]]
  | |- reports_via _ _ (mret _) => apply reports_ret
  | |- reports_via _ _ (mbind _ (read_u8 _ ?n)) =>
      apply (reports_bind _ _ (λ l, zlen l = n)); [solve [calls_keep]|apply returns_read_u8|intros]
  | |- reports_via _ _ (mbind _ (with_mut _ _ _)) => fail
  | |- reports_via _ _ (mbind _ (with_ _ _ _)) => fail
  | |- reports_via _ _ (mbind _ (insert _ _)) => fail
  | |- reports_via _ _ (mbind _ _) =>
      apply (reports_bind _ _ (λ _, True)); [solve [calls_keep]|apply returns_any|intros ? _]
  end.
(** A table access that reports by itself, with its fallback. *)
Ltac report_table :=
  first [apply reports_with_mut; [|reflexivity|intros]|apply reports_with; [|intros]].

(** A table access, with what it returns. *)
Ltac report_with Q := apply (reports_bind _ _ Q); [solve [calls_keep]| |].
Ltac calls_report := intros; repeat (cbv zeta; report_step).

End Frames.
