(* ===== verification/Toy.v ===== *)
(** * A concrete provider

    An executable instance of [Rustls] with its laws, used to run the model on
    concrete inputs: a keyed xor cipher with a checksum tag, header protection
    with the mask of RFC 9001's shape, and scripted connections. It stands for
    no real cipher; it shows that the laws assumed of the libraries can hold
    together, and the witnesses evaluate on it. *)

From S2P Require Import Prelude Effects Handles Rustls World.
Import Effects Handles Rustls World.

Module Toy.

Definition sum (l : bytes) : Z := foldr Z.add 0 l.

Definition toy_tag (k pn : Z) (hdr pt : bytes) : bytes :=
  replicate 16 (as_u8 (k + pn + sum hdr + sum pt)).

Definition toy_xor (k pn : Z) (l : bytes) : bytes := Z.lxor (as_u8 (k + pn)) <$> l.

Definition toy_encrypt (k pn : Z) (hdr pt : bytes) : bytes * (string + bytes) :=
  (toy_xor k pn pt, inr (toy_tag k pn hdr pt)).

Definition toy_decrypt (k pn : Z) (hdr ct : bytes) : bytes * (string + bytes) :=
  let n := zlen ct - 16 in
  let pt := toy_xor k pn (sub 0 n ct) in
  if (0 <=? n) && bool_decide (sub n 16 ct = toy_tag k pn hdr pt)
  then (pt ++ sub n 16 ct, inr pt)
  else (ct, inl "decrypt error"%string).

(** The mask byte, and the bits of the first byte it covers. *)
Definition toy_mask (k : Z) (sample : bytes) : Z := as_u8 (k + sum sample).
Definition first_bits (b : Z) : Z := if Z.testbit b 7 then 15 else 31.

Definition toy_hp_encrypt (k : Z) (sample : bytes) (b : Z) (pn : bytes)
  : (Z * bytes) * (string + unit) :=
  let m := toy_mask k sample in
  ((Z.lxor b (Z.land m (first_bits b)), Z.lxor m <$> pn), inr tt).

Definition toy_hp_decrypt (k : Z) (sample : bytes) (b : Z) (pn : bytes)
  : (Z * bytes) * (string + unit) :=
  let m := toy_mask k sample in
  let b' := Z.lxor b (Z.land m (first_bits b)) in
  let n := Z.land b' 3 + 1 in
  ((b', (Z.lxor m <$> sub 0 n pn) ++ drop (Z.to_nat n) pn), inr tt).

(** A TCP connection: bytes not yet deframed, decrypted and to be sent, how
    much one write takes, and the configuration it holds. *)
Record toy_tcp := {
  t_in : bytes; t_plain : bytes; t_out : bytes; t_chunk : Z; t_hs : bool; t_cfg : N;
}.

(** A QUIC connection: what each [write_hs] gives, and fixed answers. *)
Record toy_quic := {
  q_script : list (bytes * option (KeyChange Z Z Z));
  q_seen : bytes; q_hs : bool; q_tp : option bytes; q_zero : option (Z * Z);
}.

Definition toy_read_size (_ : toy_tcp) : Z := 4.
Definition toy_read_tls (c : toy_tcp) (b : bytes) : toy_tcp * (string + Z) :=
  ({| t_in := t_in c ++ b; t_plain := t_plain c; t_out := t_out c; t_chunk := t_chunk c;
      t_hs := t_hs c; t_cfg := t_cfg c |}, inr (zlen b)).
Definition toy_process (c : toy_tcp) : toy_tcp * (string + unit) :=
  ({| t_in := []; t_plain := t_plain c ++ t_in c; t_out := t_out c; t_chunk := t_chunk c;
      t_hs := t_hs c; t_cfg := t_cfg c |},
   if default 0 (head (t_in c)) =? 255 then inl "bad record"%string else inr tt).
Definition toy_write_tls (c : toy_tcp) (n : Z) : toy_tcp * (string + Z) :=
  ({| t_in := t_in c; t_plain := t_plain c; t_out := drop (Z.to_nat n) (t_out c);
      t_chunk := t_chunk c; t_hs := t_hs c; t_cfg := t_cfg c |}, inr n).
Definition toy_reader_read (c : toy_tcp) (n : Z) : toy_tcp * (string + bytes) :=
  match t_plain c with
  | [] => (c, inl "would block"%string)
  | _ => ({| t_in := t_in c; t_plain := drop (Z.to_nat n) (t_plain c); t_out := t_out c;
             t_chunk := t_chunk c; t_hs := t_hs c; t_cfg := t_cfg c |},
          inr (take (Z.to_nat n) (t_plain c)))
  end.
Definition toy_writer_write (c : toy_tcp) (b : bytes) : toy_tcp * (string + Z) :=
  let n := Z.min (Z.max 0 (t_chunk c)) (zlen b) in
  ({| t_in := t_in c; t_plain := t_plain c; t_out := t_out c ++ sub 0 n b;
      t_chunk := t_chunk c; t_hs := t_hs c; t_cfg := t_cfg c |}, inr n).

Definition toy_write_hs (q : toy_quic) : toy_quic * bytes * option (KeyChange Z Z Z) :=
  match q_script q with
  | [] => (q, [], None)
  | (b, k) :: s =>
      ({| q_script := s; q_seen := q_seen q; q_hs := q_hs q; q_tp := q_tp q;
          q_zero := q_zero q |}, b, k)
  end.
Definition toy_read_hs (q : toy_quic) (b : bytes) : toy_quic * (string + unit) :=
  ({| q_script := q_script q; q_seen := q_seen q ++ b; q_hs := q_hs q; q_tp := q_tp q;
      q_zero := q_zero q |},
   if default 0 (head b) =? 255 then inl "bad handshake"%string else inr tt).

(** A client's handshake: its first message, both key changes and two messages
    between them. *)
Definition toy_client_flights : list (bytes * option (KeyChange Z Z Z)) :=
  [([1; 0; 0; 1; 0], None); ([], Some (Handshake (10, 20) (11, 21)));
   ([20; 0; 0; 0], None); ([20; 1; 0; 0], Some (OneRtt (12, 22) (13, 23) 30))].

(** The rest of a toy library, over what its QUIC connections do: how they are
    made and read, when they are in their handshake and know parameters, and what
    becomes of early data. *)
Definition toy_with (cnew : list bytes → bytes → toy_quic) (snew : list bytes * Z → bytes → toy_quic)
    (rd : toy_quic → bytes → toy_quic * (string + unit)) (hs : toy_quic → bool)
    (tp : toy_quic → option bytes) (kind : HandshakeKind) (accepted : toy_quic → bool)
    (reject : toy_quic → toy_quic) : Rustls := {|
  error := string; error_display := id; error_debug := id; error_general := id;
  io_error := string; io_error_display := id;
  io_would_block := λ e, bool_decide (e = "would block"%string);
  pkey := Z; pkey_encrypt_in_place := toy_encrypt; pkey_decrypt_in_place := toy_decrypt;
  pkey_tag_len := λ _, 16;
  hkey := Z; hkey_encrypt_in_place := toy_hp_encrypt; hkey_decrypt_in_place := toy_hp_decrypt;
  suite := unit; quic_algo := unit;
  tls13_aes_128_gcm_sha256 := Some tt; suite_quic := λ _, Some tt;
  keys_initial := λ _ _ _ dcid side,
    let c := as_u8 (sum dcid) in let s := as_u8 (sum dcid + 1) in
    match side with ClientSide => ((c, c), (s, s)) | ServerSide => ((s, s), (c, c)) end;
  expander := bytes;
  extract_from_secret := λ _ salt ikm, default [] salt ++ ikm;
  expander_for_okm := λ _ okm, okm;
  expand_slice := λ e info n, Some (replicate (Z.to_nat n) (as_u8 (sum e + sum (mjoin info))));
  secrets := Z; next_packet_keys := λ s, ((s, s), s + 1);
  client_config := list bytes; server_config := list bytes * Z;
  cert := Z; private_key := Z;
  pem_certs := inr; pem_private_key := λ b, inr (head b);
  root_store := list Z; root_store_webpki := []; root_store_empty := [];
  root_store_add := λ s c, if c =? 0 then inl "bad cert"%string else inr (c :: s);
  client_config_build := λ _ _, []; client_config_build_dangerous := λ _ _ _, [];
  crypto_provider := unit; aws_lc_rs_provider := tt; ring_provider := tt; sig_algorithms := unit;
  signature_verification_algorithms := id; digitally_signed := bytes; signature_scheme := Z;
  supported_schemes := λ _, [0x0403];
  crypto_verify_tls12_signature := λ m _ d _, if bool_decide (m = d) then inr tt else inl "bad signature"%string;
  crypto_verify_tls13_signature := λ m _ d _, if bool_decide (m = d) then inr tt else inl "bad signature"%string;
  client_config_set_key_log := id; client_config_disable_resumption := id;
  client_config_set_alpn := λ _ l, l;
  server_config_build := λ _ _ _, inr ([], 0);
  server_config_set_key_log := id; server_config_set_alpn := λ c l, (l, c.2);
  server_config_set_ticketer := inr; server_config_set_max_early_data := λ c n, (c.1, n);
  server_config_set_send_tls13_tickets := λ c _, c;
  server_name := bytes; name_error_display := "invalid dns name";
  server_name_try_from := λ b, match b with [] => None | _ => Some b end;
  client_conn := toy_tcp; server_conn := toy_tcp;
  client_conn_new := λ a _, inr {| t_in := []; t_plain := []; t_out := [22]; t_chunk := 3;
                                   t_hs := true; t_cfg := arc_id a |};
  server_conn_new := λ a, inr {| t_in := []; t_plain := []; t_out := []; t_chunk := 3;
                                 t_hs := true; t_cfg := arc_id a |};
  client_holds := λ c id, (t_cfg c =? id)%N; server_holds := λ c id, (t_cfg c =? id)%N;
  client_read_size := toy_read_size; server_read_size := toy_read_size;
  client_read_tls := toy_read_tls; server_read_tls := toy_read_tls;
  client_process_new_packets := toy_process; server_process_new_packets := toy_process;
  client_pending_tls := t_out; server_pending_tls := t_out;
  client_write_tls := toy_write_tls; server_write_tls := toy_write_tls;
  client_reader_read := toy_reader_read; server_reader_read := toy_reader_read;
  client_writer_write := toy_writer_write; server_writer_write := toy_writer_write;
  client_is_handshaking := t_hs; server_is_handshaking := t_hs;
  client_alpn_protocol := λ _, Some [104; 50]; server_alpn_protocol := λ _, Some [104; 50];
  qclient := toy_quic; qserver := toy_quic;
  qclient_new := λ cfg _ _ tp, inr (cnew cfg tp); qserver_new := λ cfg _ tp, inr (snew cfg tp);
  qclient_write_hs := toy_write_hs; qserver_write_hs := toy_write_hs;
  qclient_read_hs := rd; qserver_read_hs := rd;
  qclient_alert := λ _, None; qserver_alert := λ _, Some 47;
  qclient_is_handshaking := hs; qserver_is_handshaking := hs;
  qserver_handshake_kind := λ q, if hs q then None else Some kind;
  qclient_transport_parameters := tp; qserver_transport_parameters := tp;
  qclient_alpn_protocol := λ _, Some [104; 51]; qserver_alpn_protocol := λ _, Some [104; 51];
  qclient_zero_rtt_keys := q_zero; qserver_zero_rtt_keys := q_zero;
  qclient_is_early_data_accepted := accepted; qserver_reject_early_data := reject;
  unspecified_display := "ring::error::Unspecified";
  aead_key := Z; unbound_key_new := λ b, if zlen b =? 16 then head b else None;
  nonce := bytes; nonce_try_assume_unique := λ b, if zlen b =? 12 then Some b else None;
  aes_tag_len := 16;
  seal_in_place_append_tag := λ k n aad pt,
    let '(ct, _) := toy_encrypt k (sum n) aad pt in Some (ct ++ toy_tag k (sum n) aad pt);
  open_in_place := λ k n aad ct,
    match toy_decrypt k (sum n) aad ct with (_, inr pt) => Some pt | _ => None end;
  hmac_sha256 := λ k m, replicate 32 (as_u8 (sum k + sum m));
|}.

(** A connection is in its handshake for good, unless its configuration says that
    it starts beyond it. *)
Definition toy : Rustls := Eval cbv beta delta [toy_with] in toy_with
  (λ cfg tp, {| q_script := toy_client_flights; q_seen := [];
                q_hs := negb (bool_decide (cfg = [[]])); q_tp := Some tp; q_zero := None |})
  (λ cfg tp, {| q_script := if cfg.2 =? 1 then [([4], None)] else []; q_seen := [];
                q_hs := negb (cfg.2 =? 1); q_tp := Some tp; q_zero := None |})
  toy_read_hs q_hs q_tp Full (λ _, false) id.
#[global] Existing Instance toy.

(** ** The laws hold of it *)

Lemma toy_xor_xor k pn l : toy_xor k pn (toy_xor k pn l) = l.
Proof.
  unfold toy_xor. rewrite <- list_fmap_compose. rewrite <- (list_fmap_id l) at 2.
  apply list_fmap_ext. intros _ b _. simpl. by rewrite <- Z.lxor_assoc, Z.lxor_nilpotent.
Qed.

Lemma zlen_fmap {A B} (f : A → B) l : zlen (f <$> l) = zlen l.
Proof. unfold zlen. by rewrite length_fmap. Qed.

Lemma toy_decrypt_encrypt k pn hdr pt ct tag :
  toy_encrypt k pn hdr pt = (ct, inr tag) →
  toy_decrypt k pn hdr (ct ++ tag) = (pt ++ tag, inr pt) ∧ zlen tag = zlen tag.
Proof.
  unfold toy_encrypt. intros [= <- <-]. split; [|done]. unfold toy_decrypt.
  set (tag := toy_tag k pn hdr pt).
  assert (Ht : zlen tag = 16) by apply zlen_replicate.
  rewrite zlen_app, Ht. replace (zlen (toy_xor k pn pt) + 16 - 16) with (zlen (toy_xor k pn pt)) by lia.
  rewrite sub_app_l, sub_all, toy_xor_xor by lia.
  assert (Hs : sub (zlen (toy_xor k pn pt)) 16 (toy_xor k pn pt ++ tag) = tag).
  { rewrite <- Ht. rewrite <- (app_nil_r tag) at 2. apply sub_app_exact. }
  rewrite Hs. rewrite bool_decide_true by done.
  by rewrite (proj2 (Z.leb_le _ _)) by apply zlen_nonneg.
Qed.

Lemma toy_decrypt_length k pn hdr ct out pt :
  toy_decrypt k pn hdr ct = (out, inr pt) → zlen pt ≤ zlen ct.
Proof.
  unfold toy_decrypt. case_if; [|done]. breflect. intros [= <- <-].
  unfold toy_xor. rewrite zlen_fmap, zlen_sub; [lia|]. apply fits_spec. lia.
Qed.

(** The mask leaves bit 7, and with it the choice of the covered bits. *)
Lemma first_bits_mask b m : first_bits (Z.lxor b (Z.land m (first_bits b))) = first_bits b.
Proof.
  unfold first_bits at 1. rewrite Z.lxor_spec, Z.land_spec.
  assert (Z.testbit (first_bits b) 7 = false) as ->.
  { unfold first_bits. by case_if. }
  rewrite andb_false_r, xorb_false_r. done.
Qed.

Lemma toy_hp_decrypt_encrypt k sample b pn b' pn' rest :
  toy_hp_encrypt k sample b pn = ((b', pn'), inr tt) →
  zlen pn = Z.land b 3 + 1 → zlen pn + zlen rest = 4 →
  toy_hp_decrypt k sample b' (pn' ++ rest) = ((b, pn ++ rest), inr tt).
Proof.
  unfold toy_hp_encrypt. intros [= <- <-] Hn _. unfold toy_hp_decrypt.
  set (m := toy_mask k sample). rewrite first_bits_mask.
  rewrite Z.lxor_assoc, Z.lxor_nilpotent, Z.lxor_0_r.
  rewrite <- Hn. do 2 f_equal. rewrite <- (zlen_fmap (Z.lxor m) pn).
  rewrite sub_app_l, sub_all by done. rewrite zlen_fmap. unfold zlen at 1. rewrite Nat2Z.id.
  rewrite drop_app_length' by (by rewrite length_fmap). f_equal.
  rewrite <- list_fmap_compose. rewrite <- (list_fmap_id pn) at 2.
  apply list_fmap_ext. intros _ c _. simpl. by rewrite <- Z.lxor_assoc, Z.lxor_nilpotent.
Qed.

Lemma toy_hp_long_bits m b : Z.testbit b 7 = true →
  Z.shiftr (Z.lxor b (Z.land m (first_bits b))) 4 = Z.shiftr b 4.
Proof.
  intros Hb. unfold first_bits. rewrite Hb. rewrite Z.shiftr_lxor, Z.shiftr_land.
  change (Z.shiftr 15 4) with 0. by rewrite Z.land_0_r, Z.lxor_0_r.
Qed.

Lemma toy_hp_short_bits m b : Z.testbit b 7 = false →
  Z.shiftr (Z.lxor b (Z.land m (first_bits b))) 5 = Z.shiftr b 5.
Proof.
  intros Hb. unfold first_bits. rewrite Hb. rewrite Z.shiftr_lxor, Z.shiftr_land.
  change (Z.shiftr 31 5) with 0. by rewrite Z.land_0_r, Z.lxor_0_r.
Qed.

Definition toy_with_laws cnew snew rd hs tp kind accepted reject : RustlsLaws (toy_with cnew snew rd hs tp kind accepted reject).
Proof.
  apply (Build_RustlsLaws (toy_with cnew snew rd hs tp kind accepted reject) (@eq Z) (@eq Z)).
  - intros k pn hdr pt ct tag [= <- <-]. split; [apply zlen_fmap|apply zlen_replicate].
  - intros k k' pn hdr pt ct tag <- H. exists tag. by apply toy_decrypt_encrypt.
  - intros k pn hdr ct out pt. apply toy_decrypt_length.
  - simpl. lia.
  - intros k sample b pn b' pn' r [= <- <- <-]. apply zlen_fmap.
  - intros k sample b pn b' pn' r [= <- <- <-]. apply toy_hp_long_bits.
  - intros k sample b pn b' pn' r [= <- <- <-]. apply toy_hp_short_bits.
  - intros k k' sample b pn b' pn' rest <-. apply toy_hp_decrypt_encrypt.
Defined.

#[global] Instance toy_laws : RustlsLaws toy := toy_with_laws _ _ _ _ _ _ _ _.

Lemma toy_reader_bound c n c' b : 0 ≤ n → toy_reader_read c n = (c', inr b) → zlen b ≤ n.
Proof.
  intros Hn. unfold toy_reader_read. case_match; [done|]. intros [= _ <-].
  unfold zlen. rewrite length_take. lia.
Qed.

#[global] Instance toy_tcp_laws : TcpLaws toy.
Proof.
  split; simpl; try (intros c b c' n [= _ <-]; done); try done.
  - intros c b c' n [= _ <-]. pose proof (zlen_nonneg b). lia.
  - intros c b c' n [= _ <-]. pose proof (zlen_nonneg b). lia.
  - apply toy_reader_bound.
  - apply toy_reader_bound.
Qed.

(** A fresh process with the given memory. *)
Definition boot (m : memory) : world :=
  {| w_mem := m; w_next := 1; w_last_error := None; w_config := ∅; w_conn := ∅;
     w_keys := ∅; w_qcfg_client := ∅; w_qcfg_server := ∅; w_qconn := ∅;
     w_keys_free_count := 0; w_next_arc := 0; w_elapsed_us := [] |}.

(** Memory with byte blocks 1, 2, ... holding the given lists, and two blocks
    of each wider type. *)
Definition mem_of (blocks : list bytes) : memory :=
  {| m_u8 := list_to_map (imap (λ i b, (N.of_nat (S i), b)) blocks);
     m_i32 := {[ 1%N := [0; 0; 0; 0]; 2%N := [0; 0; 0; 0] ]};
     m_u64 := {[ 1%N := [0; 0; 0; 0]; 2%N := [0; 0; 0; 0] ]};
     m_ptr := ∅ |}.

(** A process after a failed call asks for its message. *)
Lemma rlsm_last_error_spec_witness :
  let w := set_error (Some "bad"%string) (boot (mem_of [[9; 9; 9; 9; 9]])) in
  ∃ w', rlsm_last_error (Ptr 1 0) 5 w = Ret 4 w' ∧
    load (m_u8 (w_mem w')) (Ptr 1 0) 4 = Some [98; 97; 100; 0] ∧
    w_last_error w' = Some "bad"%string.
Proof.
  intros w. apply (rlsm_last_error_spec w "bad"%string (Ptr 1 0) 5 [9; 9; 9; 9; 9]).
  - reflexivity.
  - vm_compute; split; discriminate.
  - vm_compute; discriminate.
  - by_vm.
Defined.

End Toy.
