(* ===== verification/Utf8.v ===== *)
(** * UTF-8 as the standard library decodes it

    [str::from_utf8] and [String::from_utf8_lossy] of the Rust standard
    library, over bytes, as one automaton: the state is the list of ranges the
    following continuation bytes must fall in (the table of well-formed byte
    sequences of the Unicode standard). *)

From S2P Require Import Prelude.

Module Utf8.

(** The ranges of the bytes that must follow a first byte; [None] when no
    sequence starts with it. *)
Definition utf8_first (b : Z) : option (list (Z * Z)) :=
  if b <? 0x80 then Some []
  else if b <? 0xC2 then None
  else if b <? 0xE0 then Some [(0x80, 0xBF)]
  else if b =? 0xE0 then Some [(0xA0, 0xBF); (0x80, 0xBF)]
  else if b =? 0xED then Some [(0x80, 0x9F); (0x80, 0xBF)]
  else if b <? 0xF0 then Some [(0x80, 0xBF); (0x80, 0xBF)]
  else if b =? 0xF0 then Some [(0x90, 0xBF); (0x80, 0xBF); (0x80, 0xBF)]
  else if b <? 0xF4 then Some [(0x80, 0xBF); (0x80, 0xBF); (0x80, 0xBF)]
  else if b =? 0xF4 then Some [(0x80, 0x8F); (0x80, 0xBF); (0x80, 0xBF)]
  else None.

Definition in_range (b : Z) (r : Z * Z) : bool := (r.1 <=? b) && (b <=? r.2).

(** [Utf8Error]: [valid_up_to] and [error_len]. *)
Record Utf8Error := { valid_up_to : Z; error_len : option Z }.

(** [start]: where the current sequence starts; [seen]: its bytes so far. *)
Fixpoint utf8_go (need : list (Z * Z)) (start seen : Z) (l : bytes) : option Utf8Error :=
  match l with
  | [] =>
      match need with
      | [] => None
      | _ :: _ => Some {| valid_up_to := start; error_len := None |}
      end
  | b :: l' =>
      match need with
      | [] =>
          match utf8_first b with
          | Some need' => utf8_go need' (start + seen) 1 l'
          | None => Some {| valid_up_to := start + seen; error_len := Some 1 |}
          end
      | r :: need' =>
          if in_range b r then utf8_go need' start (seen + 1) l'
          else Some {| valid_up_to := start; error_len := Some seen |}
      end
  end.

(** [None]: the bytes are a valid [str]. *)
Definition from_utf8 (l : bytes) : option Utf8Error := utf8_go [] 0 0 l.

Definition utf8_error_display (e : Utf8Error) : string :=
  match error_len e with
  | Some n => "invalid utf-8 sequence of " +:+ pretty n +:+ " bytes from index "
                +:+ pretty (valid_up_to e)
  | None => "incomplete utf-8 byte sequence from index " +:+ pretty (valid_up_to e)
  end.

(** U+FFFD. *)
Definition replacement : bytes := [0xEF; 0xBF; 0xBD].

(** [acc] holds the bytes of the current sequence. A byte that breaks a
    sequence is read again as a first byte. *)
Fixpoint lossy_go (need : list (Z * Z)) (acc : bytes) (l : bytes) : bytes :=
  match l with
  | [] => match need with [] => acc | _ :: _ => replacement end
  | b :: l' =>
      let restart out :=
        match utf8_first b with
        | Some need' => out ++ lossy_go need' [b] l'
        | None => out ++ replacement ++ lossy_go [] [] l'
        end in
      match need with
      | [] => restart acc
      | r :: need' =>
          if in_range b r then lossy_go need' (acc ++ [b]) l'
          else restart replacement
      end
  end.

Definition from_utf8_lossy (l : bytes) : bytes := lossy_go [] [] l.

(** Bytes as the text of a message. *)
Definition bytes_string (l : bytes) : string :=
  String.string_of_list_ascii ((λ z, Ascii.ascii_of_nat (Z.to_nat z)) <$> l).

(** [str::contains] on the bytes of two strings. *)
Fixpoint contains (hay needle : bytes) : bool :=
  bool_decide (take (length needle) hay = needle) ||
  match hay with [] => false | _ :: hay => contains hay needle end.

(** ** Facts *)

Lemma contains_spec hay needle :
  contains hay needle = true ↔ ∃ k l, hay = k ++ needle ++ l.
Proof.
  induction hay as [|b hay IH]; cbn [contains]; rewrite orb_true_iff, bool_decide_eq_true.
  - rewrite take_nil. split.
    + intros [<-|?]; [by exists [], []|done].
    + intros (k & l & E). left. symmetry in E. by apply app_nil in E as [_ [-> _]%app_nil].
  - rewrite IH. split.
    + intros [E|(k & l & ->)]; [|by exists (b :: k), l].
      exists [], (drop (length needle) (b :: hay)). simpl. rewrite <- E at 1. by rewrite take_drop.
    + intros ([|c k] & l & E); simplify_eq/=; [left; rewrite E; apply take_app_length|].
      right. by exists k, l.
Qed.

Lemma lossy_go_valid need acc l start seen :
  utf8_go need start seen l = None → lossy_go need acc l = acc ++ l.
Proof.
  revert need acc start seen. induction l as [|b l IH]; intros need acc start seen; simpl.
  - destruct need; [by rewrite app_nil_r|done].
  - destruct need as [|r need].
    + destruct (utf8_first b); [|done]. intros H. by rewrite (IH _ _ _ _ H).
    + destruct (in_range b r); [|done]. intros H. rewrite (IH _ _ _ _ H).
      by rewrite <- app_assoc.
Qed.

(** The state of the validator after a prefix, [None] once it has failed. *)
Fixpoint utf8_state (need : list (Z * Z)) (l : bytes) : option (list (Z * Z)) :=
  match l with
  | [] => Some need
  | b :: l' =>
      match need with
      | [] => match utf8_first b with Some need' => utf8_state need' l' | None => None end
      | r :: need' => if in_range b r then utf8_state need' l' else None
      end
  end.

Lemma utf8_state_app need k l :
  utf8_state need (k ++ l) = match utf8_state need k with
                             | Some need' => utf8_state need' l
                             | None => None
                             end.
Proof.
  revert need. induction k as [|b k IH]; intros need; simpl; [done|].
  destruct need; [destruct (utf8_first b)|case_if]; auto.
Qed.

Lemma utf8_go_state need start seen l :
  utf8_go need start seen l = None ↔ utf8_state need l = Some [].
Proof.
  revert need start seen. induction l as [|b l IH]; intros need start seen; simpl.
  - destruct need; naive_solver.
  - destruct need; [destruct (utf8_first b)|case_if]; try apply IH; done.
Qed.

Lemma lossy_go_state need acc l :
  utf8_state [] acc = Some need → utf8_state [] (lossy_go need acc l) = Some [].
Proof.
  revert need acc. induction l as [|b l IH]; intros need acc Ha; simpl.
  - destruct need; [done|reflexivity].
  - assert (Hr : ∀ out, utf8_state [] out = Some [] →
      utf8_state [] (match utf8_first b with
                     | Some need' => out ++ lossy_go need' [b] l
                     | None => out ++ replacement ++ lossy_go [] [] l
                     end) = Some []).
    { intros out Ho. destruct (utf8_first b) as [need'|] eqn:Hb;
        rewrite utf8_state_app, Ho.
      - apply IH. simpl. by rewrite Hb.
      - rewrite utf8_state_app. change (utf8_state [] replacement) with (Some (@nil (Z * Z))).
        by apply IH. }
    destruct need as [|r need]; [by apply Hr|].
    destruct (in_range b r) eqn:Hin; [|exact (Hr replacement eq_refl)].
    apply IH. rewrite utf8_state_app, Ha. simpl. by rewrite Hin.
Qed.

(** Lossy decoding always gives valid UTF-8. *)
Lemma from_utf8_lossy_valid l : from_utf8 (from_utf8_lossy l) = None.
Proof. apply utf8_go_state. by apply lossy_go_state. Qed.

(** Lossy decoding of valid UTF-8 changes nothing. *)
Lemma from_utf8_lossy_id l : from_utf8 l = None → from_utf8_lossy l = l.
Proof. intros H. apply (lossy_go_valid _ [] _ _ _ H). Qed.

Example utf8_cases :
  from_utf8 [104; 195; 169] = None ∧
  from_utf8 [104; 195] = Some {| valid_up_to := 1; error_len := None |} ∧
  from_utf8 [0xE2; 0x82; 0x41] = Some {| valid_up_to := 0; error_len := Some 2 |} ∧
  from_utf8_lossy [0xE2; 0x82; 0x41; 0xFF] = replacement ++ [0x41] ++ replacement.
Proof. split_and!; reflexivity. Qed.

End Utf8.
