(* ===== verification/Format.v ===== *)
(** * Formatting

    What the harness uses of [format!]: lower-case hexadecimal ([{:x}],
    [{:02x}]) and the [Debug] of byte slices and of [str]. Which characters
    beyond ASCII the [Debug] of a [str] escapes is a table of the Unicode
    version the standard library was built with, so it is an argument. *)

From S2P Require Import Prelude Utf8.
Import Utf8.

Module Format.

(** ** Hexadecimal *)

Definition hex_digit (d : Z) : Z := if d <? 10 then 48 + d else 87 + d.

(** Sixteen digits are enough for a [u64]. *)
Fixpoint hex_digits (fuel : nat) (n : Z) : bytes :=
  match fuel with
  | O => []
  | S fuel =>
      if n <? 16 then [hex_digit n]
      else hex_digits fuel (n / 16) ++ [hex_digit (n mod 16)]
  end.

(** [{:x}] *)
Definition lower_hex (n : Z) : bytes := hex_digits 16 n.

(** [{:02x}] *)
Definition lower_hex_02 (n : Z) : bytes :=
  let s := lower_hex n in replicate (2 - length s) 48 ++ s.

(** Reading hexadecimal back. *)
Definition hex_value (c : Z) : Z := if c <? 58 then c - 48 else c - 87.

Definition of_hex (s : bytes) : Z := foldl (λ acc c, acc * 16 + hex_value c) 0 s.

Lemma hex_value_digit d : 0 ≤ d < 16 → hex_value (hex_digit d) = d.
Proof. intros. unfold hex_value, hex_digit. repeat case_if; breflect; lia. Qed.

Lemma of_hex_app s d : of_hex (s ++ [hex_digit d]) = of_hex s * 16 + hex_value (hex_digit d).
Proof. unfold of_hex. by rewrite foldl_app. Qed.

Lemma of_hex_digits fuel n : 0 ≤ n < 16 ^ Z.of_nat fuel → of_hex (hex_digits fuel n) = n.
Proof.
  revert n. induction fuel as [|fuel IH]; intros n Hn; [change (16 ^ Z.of_nat 0) with 1 in Hn; change (0 = n); lia|cbn [hex_digits]].
  destruct (n <? 16) eqn:E; breflect.
  - change (of_hex [hex_digit n]) with (hex_value (hex_digit n)). apply hex_value_digit. lia.
  - rewrite of_hex_app, hex_value_digit by (apply Z.mod_pos_bound; lia).
    rewrite IH; [pose proof (Z.div_mod n 16); lia|].
    rewrite Nat2Z.inj_succ, Z.pow_succ_r in Hn by lia.
    split; [apply Z.div_pos; lia|apply Z.div_lt_upper_bound; lia].
Qed.

(** What [{:x}] and [{:02x}] print of a [u64] determines it. *)
Lemma of_lower_hex n : in_u64 n → of_hex (lower_hex n) = n.
Proof. intros. apply of_hex_digits. by change (16 ^ Z.of_nat 16) with (2 ^ 64). Qed.

Lemma of_hex_zeros k s : of_hex (replicate k 48 ++ s) = of_hex s.
Proof. induction k as [|k IH]; [done|exact IH]. Qed.

Lemma of_lower_hex_02 n : in_u64 n → of_hex (lower_hex_02 n) = n.
Proof. intros. unfold lower_hex_02. rewrite of_hex_zeros. by apply of_lower_hex. Qed.

(** ** Debug *)

Definition decimal (n : Z) : bytes := string_bytes (pretty n).

(** The [Debug] of a [&[u8]]. *)
Definition debug_u8s (l : list Z) : bytes :=
  string_bytes "[" ++
  match l with
  | [] => []
  | x :: l => decimal x ++ (l ≫= λ y, string_bytes ", " ++ decimal y)
  end ++ string_bytes "]".

(** The characters of a valid [str]: code point and encoding. *)
Definition continuation (b : Z) : Z := Z.land b 0x3F.

Definition code_point (c : bytes) : Z :=
  match c with
  | [b] => b
  | [b0; b1] => Z.lor (Z.shiftl (Z.land b0 0x1F) 6) (continuation b1)
  | [b0; b1; b2] =>
      Z.lor (Z.lor (Z.shiftl (Z.land b0 0x0F) 12) (Z.shiftl (continuation b1) 6)) (continuation b2)
  | [b0; b1; b2; b3] =>
      Z.lor (Z.lor (Z.lor (Z.shiftl (Z.land b0 0x07) 18) (Z.shiftl (continuation b1) 12))
               (Z.shiftl (continuation b2) 6)) (continuation b3)
  | _ => 0
  end.

(** How many bytes the character that starts with [b] has. *)
Definition char_len (b : Z) : nat :=
  if b <? 0x80 then 1 else if b <? 0xE0 then 2 else if b <? 0xF0 then 3 else 4.

Fixpoint chars (fuel : nat) (s : bytes) : list bytes :=
  match fuel, s with
  | S fuel, b :: _ => take (char_len b) s :: chars fuel (drop (char_len b) s)
  | _, _ => []
  end.

Definition backslash : Z := 92.

(** [char::escape_debug_ext] as the [Debug] of [str] calls it: everything but
    the single quote. *)
Definition escape_debug (escaped : Z → bool) (c : bytes) : bytes :=
  let cp := code_point c in
  let u := [backslash] ++ string_bytes "u{" ++ lower_hex cp ++ string_bytes "}" in
  if cp =? 0 then [backslash; 48]
  else if cp =? 9 then [backslash; 116]
  else if cp =? 10 then [backslash; 110]
  else if cp =? 13 then [backslash; 114]
  else if (cp =? 34) || (cp =? backslash) then [backslash; cp]
  else if cp <? 128 then (if (32 <=? cp) && (cp <? 127) then c else u)
  else if escaped cp then u
  else c.

Definition quote : Z := 34.

Definition debug_str (escaped : Z → bool) (s : bytes) : bytes :=
  [quote] ++ (chars (length s) s ≫= escape_debug escaped) ++ [quote].

Example format_cases :
  bytes_string (lower_hex 0x1f0) = "1f0" ∧
  bytes_string (lower_hex_02 0x8) = "08" ∧
  bytes_string (lower_hex_02 0x1c0) = "1c0" ∧
  bytes_string (debug_u8s [10; 47; 50]) = "[10, 47, 50]" ∧
  debug_str (λ _, false) (string_bytes "a∈" ++ [10; 34; 127]) =
    [quote] ++ string_bytes "a∈\n\" ++ [quote] ++ string_bytes "\u{7f}" ++ [quote].
Proof. split_and!; by vm_compute. Qed.

End Format.
