(* ===== verification/QuicKeys.v ===== *)
(** * QUIC packet protection behind handles

    Models [src/crates/librustls-mojo/src/quic.rs]: derivation of Initial keys,
    AEAD encryption and decryption in place, header protection, the four batch
    calls, raw AES-128-GCM and HMAC. Every exported function is one program
    over the state of [World]; lengths and offsets go through the same casts
    as in the source. *)

From S2P Require Import Prelude Effects Handles Rustls World.
Import Effects Handles Rustls World.

Module QuicKeys.

Section QuicKeys.
Context {R : Rustls}.

(** ** Trait objects *)

Definition packet_encrypt_in_place (k : PacketKey) (pn : Z) (hdr payload : bytes)
  : bytes * (error + bytes) :=
  match k with
  | RustlsPacketKey k => pkey_encrypt_in_place k pn hdr payload
  | NoOpPacketKey side =>
      (payload, inl (error_general ("0-RTT: no " +:+ side +:+ " packet key")))
  end.

Definition packet_decrypt_in_place (k : PacketKey) (pn : Z) (hdr payload : bytes)
  : bytes * (error + bytes) :=
  match k with
  | RustlsPacketKey k => pkey_decrypt_in_place k pn hdr payload
  | NoOpPacketKey side =>
      (payload, inl (error_general ("0-RTT: no " +:+ side +:+ " packet key")))
  end.

Definition packet_tag_len (k : PacketKey) : Z :=
  match k with RustlsPacketKey k => pkey_tag_len k | NoOpPacketKey _ => 16 end.

Definition hp_not_rotating : string :=
  "key update: header protection key not available — HP keys do not rotate (RFC 9001 §6.3)".

Definition header_encrypt_in_place (k : HeaderKey) (sample : bytes) (first : Z)
    (pn : bytes) : (Z * bytes) * (error + unit) :=
  match k with
  | RustlsHeaderKey k => hkey_encrypt_in_place k sample first pn
  | NoOpHpKey => ((first, pn), inl (error_general hp_not_rotating))
  | NoOpHpKey2 side => ((first, pn), inl (error_general ("0-RTT: no " +:+ side +:+ " HP key")))
  end.

Definition header_decrypt_in_place (k : HeaderKey) (sample : bytes) (first : Z)
    (pn : bytes) : (Z * bytes) * (error + unit) :=
  match k with
  | RustlsHeaderKey k => hkey_decrypt_in_place k sample first pn
  | NoOpHpKey => ((first, pn), inl (error_general hp_not_rotating))
  | NoOpHpKey2 side => ((first, pn), inl (error_general ("0-RTT: no " +:+ side +:+ " HP key")))
  end.

(** ** Helpers *)

Definition to_quic_version (v : Z) : string + QuicVersion :=
  if v =? 1 then inr V1
  else if v =? 2 then inr V2
  else inl ("unsupported QUIC version: " +:+ pretty v).

Definition initial_suite : prog world suite :=
  expect tls13_aes_128_gcm_sha256 "TLS13_AES_128_GCM_SHA256 must be a TLS 1.3 suite".

Definition QUIC_V1_SALT : bytes :=
  [0x38; 0x76; 0x2c; 0xf7; 0xf5; 0x59; 0x34; 0xb3; 0x4d; 0x17; 0x9a; 0xe6; 0xa4; 0xc8;
   0x0c; 0xad; 0xcc; 0xbb; 0x7f; 0x0a].
Definition QUIC_V2_SALT : bytes :=
  [0x0d; 0xed; 0xe3; 0xde; 0xf7; 0x00; 0xa6; 0xdb; 0x81; 0x93; 0x81; 0xbe; 0x6e; 0x26;
   0x9d; 0xcb; 0xf9; 0xbd; 0x2e; 0xd9].

(** The info string of HKDF-Expand-Label, as the slices handed to rustls. *)
Definition hkdf_label (label : bytes) (out_len : Z) : list bytes :=
  let output_len_be := be_bytes 2 (as_u16 out_len) in
  let prefix := string_bytes "tls13 " in
  let label_len := as_u8 (zlen prefix + zlen label) in
  let context_len := 0 in
  [output_len_be; [label_len]; prefix; label; [context_len]].

Definition expand_with_label (e : expander) (label : bytes) (out_len : Z)
  : prog world bytes :=
  expect (expand_slice e (hkdf_label label out_len) out_len) "HKDF-Expand-Label failed".

Definition derive_raw_keys (version : Z) (dcid : bytes) (is_client : bool)
  : prog world (string + (bytes * bytes * bytes)) :=
  let salt := if version =? 1 then Some QUIC_V1_SALT
              else if version =? 2 then Some QUIC_V2_SALT else None in
  match salt with
  | None => mret (inl ("unsupported QUIC version: " +:+ pretty version))
  | Some salt =>
      hkdf ← initial_suite;
      let hs_expander := extract_from_secret hkdf (Some salt) dcid in
      let label := string_bytes (if is_client then "client in" else "server in") in
      secret_bytes ← expand_with_label hs_expander label 32;
      let secret_expander := expander_for_okm hkdf secret_bytes in
      let '(key_label, iv_label, hp_label) :=
        if version =? 2
        then (string_bytes "quicv2 key", string_bytes "quicv2 iv", string_bytes "quicv2 hp")
        else (string_bytes "quic key", string_bytes "quic iv", string_bytes "quic hp") in
      key ← expand_with_label secret_expander key_label 16;
      iv ← expand_with_label secret_expander iv_label 12;
      hp ← expand_with_label secret_expander hp_label 16;
      mret (inr (key, iv, hp))
  end.

(** ** Key derivation *)

Definition rlsm_initial_keys (version : Z) (dcid_ptr : ptr) (dcid_len is_client : Z)
  : prog world Z :=
  clear_last_error;;
  if dcid_len <? 0 then rlsm_err "rlsm_initial_keys: negative dcid_len" (-1)
  else if is_null dcid_ptr then rlsm_err "rlsm_initial_keys: null dcid pointer" (-1)
  else
    dcid ← read_u8 dcid_ptr (as_usize dcid_len);
    match to_quic_version version with
    | inl msg => set_last_error msg;; mret (-1)
    | inr qv =>
        suite ← initial_suite;
        match suite_quic suite with
        | None => rlsm_err "rlsm_initial_keys: cipher suite has no QUIC algorithm" (-1)
        | Some algo =>
            let side := if negb (is_client =? 0) then ClientSide else ServerSide in
            let '(l, r) := keys_initial qv suite algo dcid side in
            let entry := {| local := wrap_keys l; remote := wrap_keys r;
                            last_local_pn := None |} in
            o ← insert keys_table entry;
            match o with
            | Some h => mret h
            | None => rlsm_err "rlsm_initial_keys: handle counter exhausted" (-1)
            end
        end
    end.

Definition rlsm_initial_keys_raw (version : Z) (dcid_ptr : ptr) (dcid_len is_client : Z)
    (out_key out_key_len out_iv out_iv_len out_hp out_hp_len : ptr) : prog world Z :=
  clear_last_error;;
  if dcid_len <? 0 then rlsm_err "rlsm_initial_keys_raw: negative dcid_len" (-1)
  else if is_null dcid_ptr then rlsm_err "rlsm_initial_keys_raw: null dcid pointer" (-1)
  else if is_null out_key || is_null out_key_len then
    rlsm_err "rlsm_initial_keys_raw: null out_key or out_key_len" (-1)
  else if is_null out_iv || is_null out_iv_len then
    rlsm_err "rlsm_initial_keys_raw: null out_iv or out_iv_len" (-1)
  else if is_null out_hp || is_null out_hp_len then
    rlsm_err "rlsm_initial_keys_raw: null out_hp or out_hp_len" (-1)
  else
    key_cap ← read_i32 out_key_len;
    iv_cap ← read_i32 out_iv_len;
    hp_cap ← read_i32 out_hp_len;
    if key_cap <? 16 then rlsm_err "rlsm_initial_keys_raw: out_key capacity must be >= 16" (-1)
    else if iv_cap <? 12 then rlsm_err "rlsm_initial_keys_raw: out_iv capacity must be >= 12" (-1)
    else if hp_cap <? 16 then rlsm_err "rlsm_initial_keys_raw: out_hp capacity must be >= 16" (-1)
    else
      dcid ← read_u8 dcid_ptr (as_usize dcid_len);
      r ← derive_raw_keys version dcid (negb (is_client =? 0));
      match r with
      | inl msg => set_last_error msg;; mret (-1)
      | inr (key, iv, hp) =>
          write_u8 out_key key;; write_i32 out_key_len (as_i32 (zlen key));;
          write_u8 out_iv iv;; write_i32 out_iv_len (as_i32 (zlen iv));;
          write_u8 out_hp hp;; write_i32 out_hp_len (as_i32 (zlen hp));;
          mret 0
      end.

(** ** Payload protection *)

(** The monotonic check: [Some last] and [packet_number <= last]. *)
Definition pn_reused (entry : KeysEntry) (packet_number : Z) : bool :=
  match last_local_pn entry with
  | Some last => packet_number <=? last
  | None => false
  end.

Definition set_last_pn (entry : KeysEntry) (pn : Z) : KeysEntry :=
  {| local := local entry; remote := remote entry; last_local_pn := Some pn |}.

Definition rlsm_keys_local_encrypt (keys_handle packet_number : Z)
    (header_ptr : ptr) (header_len : Z) (payload_ptr : ptr)
    (payload_len buf_capacity : Z) : prog world Z :=
  clear_last_error;;
  if header_len <? 0 then rlsm_err "rlsm_keys_local_encrypt: negative header_len" (-1)
  else if payload_len <? 0 then rlsm_err "rlsm_keys_local_encrypt: negative payload_len" (-1)
  else if buf_capacity <? 0 then rlsm_err "rlsm_keys_local_encrypt: negative buf_capacity" (-1)
  else if is_null header_ptr then rlsm_err "rlsm_keys_local_encrypt: null header pointer" (-1)
  else if is_null payload_ptr then rlsm_err "rlsm_keys_local_encrypt: null payload pointer" (-1)
  else
    let header_len := as_usize header_len in
    let payload_len := as_usize payload_len in
    let buf_capacity := as_usize buf_capacity in
    if buf_capacity <? payload_len then
      rlsm_err "rlsm_keys_local_encrypt: payload_len > buf_capacity" (-1)
    else
      hdr ← read_u8 header_ptr header_len;
      buf ← read_u8 payload_ptr buf_capacity;
      r ← with_mut keys_table keys_handle (λ entry,
        if pn_reused entry packet_number
        then mret (entry, inl "nonce reuse: packet_number must be strictly increasing"%string)
        else
          let entry := set_last_pn entry packet_number in
          let '(ct, res) := packet_encrypt_in_place (packet (local entry))
                              packet_number hdr (sub 0 payload_len buf) in
          write_u8 payload_ptr ct;;
          match res with
          | inl e => mret (entry, inl ("encrypt: " +:+ error_display e))
          | inr tag_bytes =>
              let total := payload_len + zlen tag_bytes in
              if buf_capacity <? total
              then mret (entry, inl ("buffer too small: need " +:+ pretty total
                           +:+ ", have " +:+ pretty buf_capacity))
              else
                write_u8 (ptr_add payload_ptr payload_len) tag_bytes;;
                mret (entry, inr (as_i32 total))
          end);
      match r with
      | Some (inr result) => mret result
      | Some (inl msg) => set_last_error msg;; mret (-1)
      | None => rlsm_err "rlsm_keys_local_encrypt: invalid keys handle" (-1)
      end.

Definition rlsm_keys_remote_decrypt (keys_handle packet_number : Z)
    (header_ptr : ptr) (header_len : Z) (payload_ptr : ptr) (payload_len : Z)
  : prog world Z :=
  clear_last_error;;
  if header_len <? 0 then rlsm_err "rlsm_keys_remote_decrypt: negative header_len" (-1)
  else if payload_len <? 0 then rlsm_err "rlsm_keys_remote_decrypt: negative payload_len" (-1)
  else if is_null header_ptr then rlsm_err "rlsm_keys_remote_decrypt: null header pointer" (-1)
  else if is_null payload_ptr then rlsm_err "rlsm_keys_remote_decrypt: null payload pointer" (-1)
  else
    let header_len := as_usize header_len in
    let payload_len := as_usize payload_len in
    hdr ← read_u8 header_ptr header_len;
    payload ← read_u8 payload_ptr payload_len;
    r ← with_mut keys_table keys_handle (λ entry,
      let '(out, res) := packet_decrypt_in_place (packet (remote entry))
                           packet_number hdr payload in
      write_u8 payload_ptr out;;
      match res with
      | inl e => mret (entry, inl ("decrypt: " +:+ error_display e))
      | inr plaintext => mret (entry, inr (as_i32 (zlen plaintext)))
      end);
    match r with
    | Some (inr result) => mret result
    | Some (inl msg) => set_last_error msg;; mret (-1)
    | None => rlsm_err "rlsm_keys_remote_decrypt: invalid keys handle" (-1)
    end.

(** ** Header protection *)

(** The shared body of the two single-packet calls, up to the key used. *)
Definition header_in_place (name verb : string)
    (f : KeysEntry → bytes → Z → bytes → (Z * bytes) * (error + unit))
    (keys_handle : Z) (sample_ptr : ptr) (sample_len : Z)
    (first_byte_ptr pn_bytes_ptr : ptr) (pn_len : Z) : prog world Z :=
  clear_last_error;;
  if sample_len <? 0 then rlsm_err (name +:+ ": negative sample_len") (-1)
  else if pn_len <? 0 then rlsm_err (name +:+ ": negative pn_len") (-1)
  else if is_null sample_ptr then rlsm_err (name +:+ ": null sample pointer") (-1)
  else if is_null first_byte_ptr then rlsm_err (name +:+ ": null first_byte pointer") (-1)
  else if is_null pn_bytes_ptr then rlsm_err (name +:+ ": null pn_bytes pointer") (-1)
  else
    sample ← read_u8 sample_ptr (as_usize sample_len);
    fb ← read_u8 first_byte_ptr 1;
    pn_bytes ← read_u8 pn_bytes_ptr (as_usize pn_len);
    let first_byte := default 0 (head fb) in
    r ← with_ keys_table keys_handle (λ entry,
      let '((first_byte', pn_bytes'), res) := f entry sample first_byte pn_bytes in
      write_u8 first_byte_ptr [first_byte'];;
      write_u8 pn_bytes_ptr pn_bytes';;
      match res with
      | inr tt => mret (inr tt)
      | inl e => mret (inl ("header " +:+ verb +:+ ": " +:+ error_display e))
      end);
    match r with
    | Some (inr tt) => mret 0
    | Some (inl msg) => set_last_error msg;; mret (-1)
    | None => rlsm_err (name +:+ ": invalid keys handle") (-1)
    end.

Definition rlsm_keys_local_header_protect :=
  header_in_place "rlsm_keys_local_header_protect" "protect"
    (λ entry, header_encrypt_in_place (header (local entry))).

Definition rlsm_keys_remote_header_unprotect :=
  header_in_place "rlsm_keys_remote_header_unprotect" "unprotect"
    (λ entry, header_decrypt_in_place (header (remote entry))).

(** ** Batch calls

    Arrays of packet pointers, lengths and offsets; the loops run under one
    table access and report per packet. Lengths and offsets are cast with
    [as usize] and the sums wrap, as in a release build. *)

Definition batch_unprotect_one (entry : KeysEntry)
    (packet_ptrs packet_lens pn_offsets out_first_bytes out_pn_lengths : ptr)
    (i ok_count : Z) : prog world Z :=
  pkt_ptr ← read_ptr (ptr_add packet_ptrs i);
  pkt_len ← read_i32 (ptr_add packet_lens i);
  pn_off ← read_i32 (ptr_add pn_offsets i);
  let pkt_len := as_usize pkt_len in
  let pn_off := as_usize pn_off in
  if (pkt_len <? usize_add (usize_add pn_off 4) 16) || is_null pkt_ptr then
    write_i32 (ptr_add out_pn_lengths i) (-1);; mret ok_count
  else
    sample ← read_u8 (ptr_add pkt_ptr (usize_add pn_off 4)) 16;
    fb ← read_u8 pkt_ptr 1;
    pn_bytes ← read_u8 (ptr_add pkt_ptr pn_off) 4;
    let '((first_byte, pn_bytes'), res) :=
      header_decrypt_in_place (header (remote entry)) sample (default 0 (head fb)) pn_bytes in
    write_u8 pkt_ptr [first_byte];;
    write_u8 (ptr_add pkt_ptr pn_off) pn_bytes';;
    match res with
    | inr tt =>
        let pn_length := Z.land first_byte 0x03 + 1 in
        write_u8 (ptr_add out_first_bytes i) [first_byte];;
        write_i32 (ptr_add out_pn_lengths i) pn_length;;
        mret (ok_count + 1)
    | inl _ => write_i32 (ptr_add out_pn_lengths i) (-1);; mret ok_count
    end.

Definition rlsm_keys_batch_header_unprotect (keys_handle count : Z)
    (packet_ptrs packet_lens pn_offsets out_first_bytes out_pn_lengths : ptr)
  : prog world Z :=
  clear_last_error;;
  if count <=? 0 then mret 0
  else if is_null packet_ptrs || is_null packet_lens || is_null pn_offsets
          || is_null out_first_bytes || is_null out_pn_lengths
  then rlsm_err "rlsm_keys_batch_header_unprotect: null pointer" (-1)
  else
    r ← with_ keys_table keys_handle (λ entry,
      for_loop (Z.to_nat (as_usize count)) 0
        (batch_unprotect_one entry packet_ptrs packet_lens pn_offsets
           out_first_bytes out_pn_lengths) 0);
    match r with
    | Some c => mret c
    | None => rlsm_err "rlsm_keys_batch_header_unprotect: invalid keys handle" (-1)
    end.

Definition batch_decrypt_one (entry : KeysEntry)
    (packet_numbers packet_ptrs packet_lens header_lens out_plaintext_lens : ptr)
    (i ok_count : Z) : prog world Z :=
  pkt_ptr ← read_ptr (ptr_add packet_ptrs i);
  pkt_len ← read_i32 (ptr_add packet_lens i);
  hdr_len ← read_i32 (ptr_add header_lens i);
  pn ← read_u64 (ptr_add packet_numbers i);
  let pkt_len := as_usize pkt_len in
  let hdr_len := as_usize hdr_len in
  if is_null pkt_ptr || (pkt_len <=? hdr_len) then
    write_i32 (ptr_add out_plaintext_lens i) (-1);; mret ok_count
  else
    hdr ← read_u8 pkt_ptr hdr_len;
    let payload_len := pkt_len - hdr_len in
    payload ← read_u8 (ptr_add pkt_ptr hdr_len) payload_len;
    let '(out, res) := packet_decrypt_in_place (packet (remote entry)) pn hdr payload in
    write_u8 (ptr_add pkt_ptr hdr_len) out;;
    match res with
    | inr plaintext =>
        write_i32 (ptr_add out_plaintext_lens i) (as_i32 (zlen plaintext));;
        mret (ok_count + 1)
    | inl _ => write_i32 (ptr_add out_plaintext_lens i) (-1);; mret ok_count
    end.

Definition rlsm_keys_batch_decrypt (keys_handle count : Z)
    (packet_numbers packet_ptrs packet_lens header_lens out_plaintext_lens : ptr)
  : prog world Z :=
  clear_last_error;;
  if count <=? 0 then mret 0
  else if is_null packet_numbers || is_null packet_ptrs || is_null packet_lens
          || is_null header_lens || is_null out_plaintext_lens
  then rlsm_err "rlsm_keys_batch_decrypt: null pointer" (-1)
  else
    r ← with_mut keys_table keys_handle (λ entry,
      ok_count ← for_loop (Z.to_nat (as_usize count)) 0
        (batch_decrypt_one entry packet_numbers packet_ptrs packet_lens
           header_lens out_plaintext_lens) 0;
      mret (entry, ok_count));
    match r with
    | Some c => mret c
    | None => rlsm_err "rlsm_keys_batch_decrypt: invalid keys handle" (-1)
    end.

Definition batch_protect_one (entry : KeysEntry)
    (packet_ptrs packet_lens pn_offsets pn_lengths out_results : ptr)
    (i ok_count : Z) : prog world Z :=
  pkt_ptr ← read_ptr (ptr_add packet_ptrs i);
  pkt_len ← read_i32 (ptr_add packet_lens i);
  pn_off ← read_i32 (ptr_add pn_offsets i);
  pn_len ← read_i32 (ptr_add pn_lengths i);
  let pkt_len := as_usize pkt_len in
  let pn_off := as_usize pn_off in
  let pn_len := as_usize pn_len in
  if is_null pkt_ptr || (pkt_len <? usize_add (usize_add pn_off 4) 16)
     || (pn_len =? 0) || (4 <? pn_len) then
    write_i32 (ptr_add out_results i) (-1);; mret ok_count
  else
    sample ← read_u8 (ptr_add pkt_ptr (usize_add pn_off 4)) 16;
    fb ← read_u8 pkt_ptr 1;
    pn_bytes ← read_u8 (ptr_add pkt_ptr pn_off) pn_len;
    let '((first_byte, pn_bytes'), res) :=
      header_encrypt_in_place (header (local entry)) sample (default 0 (head fb)) pn_bytes in
    write_u8 pkt_ptr [first_byte];;
    write_u8 (ptr_add pkt_ptr pn_off) pn_bytes';;
    match res with
    | inr tt => write_i32 (ptr_add out_results i) 0;; mret (ok_count + 1)
    | inl _ => write_i32 (ptr_add out_results i) (-1);; mret ok_count
    end.

Definition rlsm_keys_batch_header_protect (keys_handle count : Z)
    (packet_ptrs packet_lens pn_offsets pn_lengths out_results : ptr) : prog world Z :=
  clear_last_error;;
  if count <=? 0 then mret 0
  else if is_null packet_ptrs || is_null packet_lens || is_null pn_offsets
          || is_null pn_lengths || is_null out_results
  then rlsm_err "rlsm_keys_batch_header_protect: null pointer" (-1)
  else
    r ← with_ keys_table keys_handle (λ entry,
      for_loop (Z.to_nat (as_usize count)) 0
        (batch_protect_one entry packet_ptrs packet_lens pn_offsets pn_lengths out_results) 0);
    match r with
    | Some c => mret c
    | None => rlsm_err "rlsm_keys_batch_header_protect: invalid keys handle" (-1)
    end.

Definition batch_encrypt_one
    (packet_numbers packet_ptrs header_lens payload_lens buf_capacities
     out_ciphertext_lens : ptr) (i : Z) (acc : KeysEntry * Z)
  : prog world (KeysEntry * Z) :=
  let '(entry, ok_count) := acc in
  pkt_ptr ← read_ptr (ptr_add packet_ptrs i);
  hdr_len ← read_i32 (ptr_add header_lens i);
  pay_len ← read_i32 (ptr_add payload_lens i);
  buf_cap ← read_i32 (ptr_add buf_capacities i);
  pn ← read_u64 (ptr_add packet_numbers i);
  let hdr_len := as_usize hdr_len in
  let pay_len := as_usize pay_len in
  let buf_cap := as_usize buf_cap in
  if is_null pkt_ptr || (buf_cap <? pay_len) then
    write_i32 (ptr_add out_ciphertext_lens i) (-1);; mret (entry, ok_count)
  else if pn_reused entry pn then
    write_i32 (ptr_add out_ciphertext_lens i) (-1);; mret (entry, ok_count)
  else
    hdr ← read_u8 pkt_ptr hdr_len;
    buf ← read_u8 (ptr_add pkt_ptr hdr_len) buf_cap;
    let '(ct, res) := packet_encrypt_in_place (packet (local entry)) pn hdr
                        (sub 0 pay_len buf) in
    write_u8 (ptr_add pkt_ptr hdr_len) ct;;
    match res with
    | inr tag_bytes =>
        let total := pay_len + zlen tag_bytes in
        if buf_cap <? total then
          write_i32 (ptr_add out_ciphertext_lens i) (-1);; mret (entry, ok_count)
        else
          write_u8 (ptr_add (ptr_add pkt_ptr hdr_len) pay_len) tag_bytes;;
          let entry := set_last_pn entry pn in
          write_i32 (ptr_add out_ciphertext_lens i) (as_i32 total);;
          mret (entry, ok_count + 1)
    | inl _ =>
        write_i32 (ptr_add out_ciphertext_lens i) (-1);; mret (entry, ok_count)
    end.

Definition rlsm_keys_batch_encrypt (keys_handle count : Z)
    (packet_numbers packet_ptrs header_lens payload_lens buf_capacities
     out_ciphertext_lens : ptr) : prog world Z :=
  clear_last_error;;
  if count <=? 0 then mret 0
  else if is_null packet_numbers || is_null packet_ptrs || is_null header_lens
          || is_null payload_lens || is_null buf_capacities || is_null out_ciphertext_lens
  then rlsm_err "rlsm_keys_batch_encrypt: null pointer" (-1)
  else
    r ← with_mut keys_table keys_handle (λ entry,
      for_loop (Z.to_nat (as_usize count)) 0
        (batch_encrypt_one packet_numbers packet_ptrs header_lens payload_lens
           buf_capacities out_ciphertext_lens) (entry, 0));
    match r with
    | Some c => mret c
    | None => rlsm_err "rlsm_keys_batch_encrypt: invalid keys handle" (-1)
    end.

(** ** Queries and release *)

Definition rlsm_keys_tag_len (keys_handle : Z) : prog world Z :=
  clear_last_error;;
  r ← with_ keys_table keys_handle (λ entry,
    mret (as_i32 (packet_tag_len (packet (local entry)))));
  match r with
  | Some tag_len => mret tag_len
  | None => rlsm_err "rlsm_keys_tag_len: invalid keys handle" (-1)
  end.

Definition rlsm_test_keys_free_count : prog world Z := gets w_keys_free_count.

Definition rlsm_test_keys_free_reset : prog world Z :=
  modify (set_free_count 0);; mret 0.

(** With the [test-instrumentation] probe, as [scripts/build_rustls.sh] builds the
    release and dev libraries. *)
Definition rlsm_keys_free (keys_handle : Z) : prog world Z :=
  clear_last_error;;
  o ← remove keys_table keys_handle;
  match o with
  | Some _ =>
      modify (λ w, set_free_count (as_u64 (w_keys_free_count w + 1)) w);;
      mret 0
  | None => rlsm_err "rlsm_keys_free: invalid keys handle" (-1)
  end.

(** ** Raw AES-128-GCM and HMAC *)

Definition rlsm_aes_gcm_128_seal (key_ptr : ptr) (key_len : Z) (nonce_ptr : ptr)
    (nonce_len : Z) (aad_ptr : ptr) (aad_len : Z) (plaintext_ptr : ptr)
    (plaintext_len : Z) (out_ptr out_len_ptr : ptr) : prog world Z :=
  clear_last_error;;
  if negb (key_len =? 16) then rlsm_err "rlsm_aes_gcm_128_seal: key_len must be 16" (-1)
  else if is_null key_ptr then rlsm_err "rlsm_aes_gcm_128_seal: null key pointer" (-1)
  else if negb (nonce_len =? 12) then rlsm_err "rlsm_aes_gcm_128_seal: nonce_len must be 12" (-1)
  else if is_null nonce_ptr then rlsm_err "rlsm_aes_gcm_128_seal: null nonce pointer" (-1)
  else if aad_len <? 0 then rlsm_err "rlsm_aes_gcm_128_seal: negative aad_len" (-1)
  else if (0 <? aad_len) && is_null aad_ptr then
    rlsm_err "rlsm_aes_gcm_128_seal: null aad pointer with non-zero aad_len" (-1)
  else if plaintext_len <? 0 then rlsm_err "rlsm_aes_gcm_128_seal: negative plaintext_len" (-1)
  else if (0 <? plaintext_len) && is_null plaintext_ptr then
    rlsm_err "rlsm_aes_gcm_128_seal: null plaintext pointer with non-zero plaintext_len" (-1)
  else if is_null out_ptr then rlsm_err "rlsm_aes_gcm_128_seal: null out pointer" (-1)
  else if is_null out_len_ptr then rlsm_err "rlsm_aes_gcm_128_seal: null out_len pointer" (-1)
  else
    key_bytes ← read_u8 key_ptr 16;
    nonce_bytes ← read_u8 nonce_ptr 12;
    aad_bytes ← (if 0 <? aad_len then read_u8 aad_ptr (as_usize aad_len) else mret []);
    plaintext_bytes ← (if 0 <? plaintext_len
                       then read_u8 plaintext_ptr (as_usize plaintext_len) else mret []);
    match unbound_key_new key_bytes with
    | None =>
        set_last_error ("rlsm_aes_gcm_128_seal: UnboundKey::new failed: " +:+ unspecified_display);;
        mret (-1)
    | Some less_safe =>
        match nonce_try_assume_unique nonce_bytes with
        | None =>
            set_last_error ("rlsm_aes_gcm_128_seal: bad nonce: " +:+ unspecified_display);;
            mret (-1)
        | Some nonce =>
            match seal_in_place_append_tag less_safe nonce aad_bytes plaintext_bytes with
            | None =>
                set_last_error ("rlsm_aes_gcm_128_seal: seal failed: " +:+ unspecified_display);;
                mret (-1)
            | Some buf =>
                let total := zlen buf in
                write_u8 out_ptr buf;;
                write_i32 out_len_ptr (as_i32 total);;
                mret 0
            end
        end
    end.

Definition rlsm_aes_gcm_128_open (key_ptr : ptr) (key_len : Z) (nonce_ptr : ptr)
    (nonce_len : Z) (aad_ptr : ptr) (aad_len : Z) (ciphertext_ptr : ptr)
    (ciphertext_len : Z) (out_ptr out_len_ptr : ptr) : prog world Z :=
  clear_last_error;;
  if negb (key_len =? 16) then rlsm_err "rlsm_aes_gcm_128_open: key_len must be 16" (-1)
  else if is_null key_ptr then rlsm_err "rlsm_aes_gcm_128_open: null key pointer" (-1)
  else if negb (nonce_len =? 12) then rlsm_err "rlsm_aes_gcm_128_open: nonce_len must be 12" (-1)
  else if is_null nonce_ptr then rlsm_err "rlsm_aes_gcm_128_open: null nonce pointer" (-1)
  else if aad_len <? 0 then rlsm_err "rlsm_aes_gcm_128_open: negative aad_len" (-1)
  else if (0 <? aad_len) && is_null aad_ptr then
    rlsm_err "rlsm_aes_gcm_128_open: null aad pointer with non-zero aad_len" (-1)
  else if ciphertext_len <? 16 then
    rlsm_err "rlsm_aes_gcm_128_open: ciphertext_len must be >= 16 (tag size)" (-1)
  else if is_null ciphertext_ptr then rlsm_err "rlsm_aes_gcm_128_open: null ciphertext pointer" (-1)
  else if is_null out_ptr then rlsm_err "rlsm_aes_gcm_128_open: null out pointer" (-1)
  else if is_null out_len_ptr then rlsm_err "rlsm_aes_gcm_128_open: null out_len pointer" (-1)
  else
    key_bytes ← read_u8 key_ptr 16;
    nonce_bytes ← read_u8 nonce_ptr 12;
    aad_bytes ← (if 0 <? aad_len then read_u8 aad_ptr (as_usize aad_len) else mret []);
    ciphertext_bytes ← read_u8 ciphertext_ptr (as_usize ciphertext_len);
    match unbound_key_new key_bytes with
    | None =>
        set_last_error ("rlsm_aes_gcm_128_open: UnboundKey::new failed: " +:+ unspecified_display);;
        mret (-1)
    | Some less_safe =>
        match nonce_try_assume_unique nonce_bytes with
        | None =>
            set_last_error ("rlsm_aes_gcm_128_open: bad nonce: " +:+ unspecified_display);;
            mret (-1)
        | Some nonce =>
            match open_in_place less_safe nonce aad_bytes ciphertext_bytes with
            | None =>
                set_last_error ("rlsm_aes_gcm_128_open: open failed: " +:+ unspecified_display);;
                mret (-1)
            | Some plaintext =>
                let pt_len := zlen plaintext in
                write_u8 out_ptr plaintext;;
                write_i32 out_len_ptr (as_i32 pt_len);;
                mret 0
            end
        end
    end.

Definition rlsm_hmac_sha256 (key_ptr : ptr) (key_len : Z) (msg_ptr : ptr) (msg_len : Z)
    (out_ptr : ptr) : prog world Z :=
  clear_last_error;;
  if key_len <? 0 then rlsm_err "rlsm_hmac_sha256: negative key_len" (-1)
  else if (0 <? key_len) && is_null key_ptr then
    rlsm_err "rlsm_hmac_sha256: null key pointer with non-zero key_len" (-1)
  else if msg_len <? 0 then rlsm_err "rlsm_hmac_sha256: negative msg_len" (-1)
  else if (0 <? msg_len) && is_null msg_ptr then
    rlsm_err "rlsm_hmac_sha256: null msg pointer with non-zero msg_len" (-1)
  else if is_null out_ptr then rlsm_err "rlsm_hmac_sha256: null out pointer" (-1)
  else
    key_bytes ← (if 0 <? key_len then read_u8 key_ptr (as_usize key_len) else mret []);
    msg_bytes ← (if 0 <? msg_len then read_u8 msg_ptr (as_usize msg_len) else mret []);
    let tag_bytes := hmac_sha256 key_bytes msg_bytes in
    write_u8 out_ptr (sub 0 32 tag_bytes);;
    mret 0.

End QuicKeys.
End QuicKeys.
