(* ===== verification/QuicKeysFacts.v ===== *)
(** * Properties of packet protection

    Facts about the calls of [QuicKeys]: which packet numbers a keys entry
    accepts over the life of a process, round trips of payload and header
    protection through the caller's memory, the batch calls against the
    single ones, and what callers see on errors. *)

From Stdlib Require Import Sorted.
From S2P Require Import Prelude Effects Handles Rustls World Frames QuicKeys Toy.
Import Effects Handles Rustls World Frames QuicKeys Toy.

Module QuicKeysFacts.

(** ** Packet numbers over a sequence of calls *)

Section Nonces.
Context {R : Rustls}.

(** The exported functions of quic.rs with their arguments. *)
Inductive call :=
  | InitialKeys (version : Z) (dcid : ptr) (dcid_len is_client : Z)
  | InitialKeysRaw (version : Z) (dcid : ptr) (dcid_len is_client : Z)
      (k kl i il hp hl : ptr)
  | LocalEncrypt (h pn : Z) (hdr : ptr) (hdr_len : Z) (pay : ptr) (pay_len cap : Z)
  | RemoteDecrypt (h pn : Z) (hdr : ptr) (hdr_len : Z) (pay : ptr) (pay_len : Z)
  | LocalHeaderProtect (h : Z) (sample : ptr) (sample_len : Z) (first pn : ptr) (pn_len : Z)
  | RemoteHeaderUnprotect (h : Z) (sample : ptr) (sample_len : Z) (first pn : ptr) (pn_len : Z)
  | BatchHeaderUnprotect (h count : Z) (p1 p2 p3 p4 p5 : ptr)
  | BatchDecrypt (h count : Z) (p1 p2 p3 p4 p5 : ptr)
  | BatchHeaderProtect (h count : Z) (p1 p2 p3 p4 p5 : ptr)
  | BatchEncrypt (h count : Z) (p1 p2 p3 p4 p5 p6 : ptr)
  | TagLen (h : Z)
  | FreeCount
  | FreeReset
  | KeysFree (h : Z)
  | Seal (k : ptr) (kl : Z) (n : ptr) (nl : Z) (a : ptr) (al : Z) (p : ptr) (pl : Z) (o ol : ptr)
  | Open (k : ptr) (kl : Z) (n : ptr) (nl : Z) (a : ptr) (al : Z) (p : ptr) (pl : Z) (o ol : ptr)
  | Hmac (k : ptr) (kl : Z) (m : ptr) (ml : Z) (o : ptr).

Definition exec (c : call) : prog world Z :=
  match c with
  | InitialKeys v d dl ic => rlsm_initial_keys v d dl ic
  | InitialKeysRaw v d dl ic k kl i il hp hl => rlsm_initial_keys_raw v d dl ic k kl i il hp hl
  | LocalEncrypt h pn hd hl p pl cap => rlsm_keys_local_encrypt h pn hd hl p pl cap
  | RemoteDecrypt h pn hd hl p pl => rlsm_keys_remote_decrypt h pn hd hl p pl
  | LocalHeaderProtect h s sl f p pl => rlsm_keys_local_header_protect h s sl f p pl
  | RemoteHeaderUnprotect h s sl f p pl => rlsm_keys_remote_header_unprotect h s sl f p pl
  | BatchHeaderUnprotect h n a b c d e => rlsm_keys_batch_header_unprotect h n a b c d e
  | BatchDecrypt h n a b c d e => rlsm_keys_batch_decrypt h n a b c d e
  | BatchHeaderProtect h n a b c d e => rlsm_keys_batch_header_protect h n a b c d e
  | BatchEncrypt h n a b c d e f => rlsm_keys_batch_encrypt h n a b c d e f
  | TagLen h => rlsm_keys_tag_len h
  | FreeCount => rlsm_test_keys_free_count
  | FreeReset => rlsm_test_keys_free_reset
  | KeysFree h => rlsm_keys_free h
  | Seal k kl n nl a al p pl o ol => rlsm_aes_gcm_128_seal k kl n nl a al p pl o ol
  | Open k kl n nl a al p pl o ol => rlsm_aes_gcm_128_open k kl n nl a al p pl o ol
  | Hmac k kl m ml o => rlsm_hmac_sha256 k kl m ml o
  end.

(** The loop of the batch call with a note of the packets it seals: the count of
    the loop goes up with each of them, and the entry then holds its number. *)
Definition note_one (p1 p2 p3 p4 p5 p6 : ptr) (i : Z) (acc : KeysEntry * Z * list Z)
  : prog world (KeysEntry * Z * list Z) :=
  let '(entry, ok_count, noted) := acc in
  '(entry', ok_count') ← batch_encrypt_one p1 p2 p3 p4 p5 p6 i (entry, ok_count);
  mret (entry', ok_count',
        if ok_count' =? ok_count then noted else noted ++ option_list (last_local_pn entry')).

(** The packet numbers a batch call that succeeds sealed packets under. *)
Definition batch_sealed (h count : Z) (p1 p2 p3 p4 p5 p6 : ptr) (w : world) : list Z :=
  match w_keys w !! h with
  | Some entry =>
      match for_loop (Z.to_nat (as_usize count)) 0 (note_one p1 p2 p3 p4 p5 p6) (entry, 0, [])
              (set_error None w) with
      | Ret (_, noted) _ => noted
      | _ => []
      end
  | None => []
  end.

(** The packets a call sealed, in order, if it made no error: by single
    encryption or in a batch. *)
Definition sent (c : call) (w : world) (result : Z) : list (Z * Z) :=
  match c with
  | LocalEncrypt h pn _ _ _ _ _ => if result =? -1 then [] else [(h, pn)]
  | BatchEncrypt h n a b c d e f => if result <=? 0 then [] else pair h <$> batch_sealed h n a b c d e f w
  | _ => []
  end.

(** A process running a list of calls: the packets it protected, in order;
    [None] if a call panics or has undefined behaviour. *)
Fixpoint run_calls (cs : list call) (w : world) : option (list (Z * Z) * world) :=
  match cs with
  | [] => Some ([], w)
  | c :: cs =>
      match exec c w with
      | Ret r w1 =>
          match run_calls cs w1 with
          | Some (tr, w') => Some (sent c w r ++ tr, w')
          | None => None
          end
      | _ => None
      end
  end.


Definition last_le (e e' : KeysEntry) : Prop :=
  match last_local_pn e, last_local_pn e' with
  | None, _ => True
  | Some a, Some b => a ≤ b
  | Some _, None => False
  end.

#[export] Instance last_le_preorder : PreOrder last_le.
Proof.
  split.
  - intros e. unfold last_le. by destruct (last_local_pn e).
  - intros e1 e2 e3. unfold last_le.
    destruct (last_local_pn e1), (last_local_pn e2), (last_local_pn e3); try done; lia.
Qed.


Abbreviation core := (table_core keys_table).
#[local] Instance core_mem : IgnoresMem core.
Proof. done. Qed.
#[local] Instance core_error : IgnoresError core.
Proof. done. Qed.
#[local] Instance keys_mem : IgnoresMem (map_of (keys_table (R:=R))).
Proof. done. Qed.

Abbreviation keys_evolving := (evolving keys_table last_le).










(** The notes of the batch call. *)
















End Nonces.
(** ** A concrete process *)

Definition nonce_world : world := boot (mem_of [[1; 2; 3; 4]; replicate 20 9]).

(** Client and server keys of one connection, handles 1 and 2. *)
Definition pair_calls : list call :=
  [InitialKeys 1 (Ptr 1 0) 4 1; InitialKeys 1 (Ptr 1 0) 4 0].
Definition pair_world : world :=
  default nonce_world (snd <$> run_calls pair_calls nonce_world).
Definition pair_entry (h : Z) : KeysEntry :=
  default {| local := {| header := NoOpHpKey; packet := NoOpPacketKey "" |};
             remote := {| header := NoOpHpKey; packet := NoOpPacketKey "" |};
             last_local_pn := None |} (w_keys pair_world !! h).





(** ** Payload protection through memory *)

Section Payload.
Context {R : Rustls} {L : RustlsLaws R}.

Definition u8_at (w : world) (p : ptr) (n : Z) : option bytes := load (m_u8 (w_mem w)) p n.

(** What a call that protected or opened a range leaves alone. *)
Record only_touched (w w' : world) (p : ptr) (n : Z) : Prop := {
  touched_u8 : ∀ q m, apart p n q m → u8_at w' q m = u8_at w q m;
  touched_next : w_next w' = w_next w;
  touched_error : w_last_error w' = None;
}.

Lemma apart_shrink p n n' q m : apart p n q m → n' ≤ n → apart p n' q m.
Proof. destruct p, q; simpl; try done. intros; lia. Qed.

Lemma apart_shift p n d n' q m :
  apart p n q m → 0 ≤ d → d + n' ≤ n → apart (ptr_add p d) n' q m.
Proof. destruct p, q; simpl; try done. intros; lia. Qed.

Lemma apart_sym p n q m : apart p n q m → apart q m p n.
Proof. destruct p, q; simpl; try done. intros [?|[?|?]]; auto. Qed.

Lemma apart_sub_r p n q m m' : apart p n q m → m' ≤ m → apart p n q m'.
Proof. destruct p, q; simpl; try done. intros; lia. Qed.

Lemma apart_sub_shift p n q m d m' :
  apart p n q m → 0 ≤ d → d + m' ≤ m → apart p n (ptr_add q d) m'.
Proof. destruct p, q; simpl; try done. intros; lia. Qed.

Lemma local_encrypt_ok w h e k pn hp hl pp pl cap hdr buf ct tag :
  w_keys w !! h = Some e → packet (local e) = RustlsPacketKey k → pn_reused e pn = false →
  in_i32 hl → in_i32 pl → in_i32 cap → 0 ≤ hl → 0 ≤ pl ≤ cap →
  u8_at w hp hl = Some hdr → u8_at w pp cap = Some buf →
  pkey_encrypt_in_place k pn hdr (sub 0 pl buf) = (ct, inr tag) →
  pl + zlen tag ≤ cap →
  ∃ w', rlsm_keys_local_encrypt h pn hp hl pp pl cap w = Ret (pl + zlen tag) w' ∧
    u8_at w' pp (pl + zlen tag) = Some (ct ++ tag) ∧
    w_keys w' = <[h := set_last_pn e pn]> (w_keys w) ∧
    only_touched w w' pp (pl + zlen tag).
Proof.
  intros He Hk Hf Ihl Ipl Icap Hhl Hpl Hhdr Hbuf Henc Htot. unfold u8_at in *.
  destruct (encrypt_length _ _ _ _ _ _ Henc) as [Hct _].
  assert (Hb : zlen (sub 0 pl buf) = pl).
  { apply zlen_sub, fits_spec. rewrite (load_length _ _ _ _ Hbuf). lia. }
  rewrite Hb in Hct. pose proof (zlen_nonneg tag).
  destruct (store_adjacent (m_u8 (w_mem w)) pp ct tag (sub 0 (pl + zlen tag) buf))
    as (h1 & h2 & S1 & S2 & L2).
  { rewrite Hct. eapply load_prefix; [done|lia]. }
  rewrite Hct in S2, L2.
  unfold rlsm_keys_local_encrypt. run. pass_guards.
  rewrite !as_usize_nonneg_i32 by (done || lia). pass_guards.
  rewrite (read_u8_ok _ _ _ hdr) by done. rewrite (read_u8_ok _ _ _ buf) by done.
  rewrite (with_mut_Some keys_table h _ _ e) by done. rewrite Hf.
  change (local (set_last_pn e pn)) with (local e). rewrite Hk.
  unfold packet_encrypt_in_place. rewrite Henc.
  rewrite (write_u8_ok _ _ _ h1) by done. pass_guards.
  rewrite (write_u8_ok _ _ _ h2) by done.
  rewrite as_i32_id by (unfold in_i32 in *; lia).
  eexists. split_and!; [done|done|done|]. split; [|done|done].
  intros q m Ha. unfold u8_at. simpl.
  rewrite (load_store_apart _ _ q m _ _ S2), (load_store_apart _ _ q m _ _ S1); [done| |].
  - rewrite Hct. eapply apart_shrink; [done|lia].
  - eapply apart_shift; [done|lia|lia].
Qed.

Lemma remote_decrypt_ok w h e k pn hp hl pp pl hdr ct out pt :
  w_keys w !! h = Some e → packet (remote e) = RustlsPacketKey k →
  in_i32 hl → in_i32 pl → 0 ≤ hl → 0 ≤ pl →
  u8_at w hp hl = Some hdr → u8_at w pp pl = Some ct →
  pkey_decrypt_in_place k pn hdr ct = (out, inr pt) →
  zlen out = pl → zlen pt ≤ pl →
  ∃ w', rlsm_keys_remote_decrypt h pn hp hl pp pl w = Ret (zlen pt) w' ∧
    u8_at w' pp pl = Some out ∧ w_keys w' = w_keys w ∧ only_touched w w' pp pl.
Proof.
  intros He Hk Ihl Ipl Hhl Hpl Hhdr Hct Hdec Hout Hpt. unfold u8_at in *.
  destruct (store_load _ _ _ _ out Hct Hout) as (h1 & S1 & L1). pose proof (zlen_nonneg pt).
  unfold rlsm_keys_remote_decrypt. run. pass_guards.
  rewrite !as_usize_nonneg_i32 by (done || lia).
  rewrite (read_u8_ok _ _ _ hdr) by done. rewrite (read_u8_ok _ _ _ ct) by done.
  rewrite (with_mut_Some keys_table h _ _ e) by done. rewrite Hk.
  unfold packet_decrypt_in_place. rewrite Hdec. rewrite (write_u8_ok _ _ _ h1) by done.
  rewrite as_i32_id by (unfold in_i32, i32_min in *; lia).
  eexists. split_and!; [done|done| |].
  - simpl. by rewrite insert_id.
  - split; [|done|done]. intros q m Ha. unfold u8_at. simpl.
    eapply load_store_apart; [done|by rewrite Hout].
Qed.

(** C3: a payload protected in place under one handle and opened in place
    under a handle with the peer's keys comes back unchanged, the second
    call returning its length, with the header anywhere outside the payload
    range, for every packet number the sender may still use. *)
Theorem encrypt_decrypt_roundtrip w hs es k hr er k' pn hp hl pp pl cap hdr buf ct tag :
  w_keys w !! hs = Some es → packet (local es) = RustlsPacketKey k →
  w_keys w !! hr = Some er → packet (remote er) = RustlsPacketKey k' →
  peer_pkey k k' → pn_reused es pn = false →
  in_i32 hl → in_i32 cap → 0 ≤ hl → 0 ≤ pl → pl + zlen tag ≤ cap →
  u8_at w hp hl = Some hdr → u8_at w pp cap = Some buf → apart pp (pl + zlen tag) hp hl →
  pkey_encrypt_in_place k pn hdr (sub 0 pl buf) = (ct, inr tag) →
  ∃ w1 w2,
    rlsm_keys_local_encrypt hs pn hp hl pp pl cap w = Ret (pl + zlen tag) w1 ∧
    rlsm_keys_remote_decrypt hr pn hp hl pp (pl + zlen tag) w1 = Ret pl w2 ∧
    u8_at w2 pp pl = Some (sub 0 pl buf).
Proof.
  intros Hes Hk Her Hk' Hp Hf Ihl Icap Hhl Hpl Htot Hhdr Hbuf Ha Henc.
  pose proof (zlen_nonneg tag).
  destruct (local_encrypt_ok w hs es k pn hp hl pp pl cap hdr buf ct tag)
    as (w1 & E1 & L1 & K1 & T1); auto; try (unfold in_i32, i32_min in *; lia).
  destruct (decrypt_encrypt _ _ _ _ _ _ _ Hp Henc) as (tail & Hdec & Htl).
  assert (Hb : zlen (sub 0 pl buf) = pl).
  { apply zlen_sub, fits_spec. rewrite (load_length _ _ _ _ Hbuf). lia. }
  assert (Her1 : ∃ er1, w_keys w1 !! hr = Some er1 ∧ remote er1 = remote er).
  { rewrite K1, lookup_insert. case_decide; [|eauto]. subst. eexists. split; [done|].
    by rewrite Hes in Her; injection Her as ->. }
  destruct Her1 as (er1 & Her1 & Hr1).
  destruct (remote_decrypt_ok w1 hr er1 k' pn hp hl pp (pl + zlen tag) hdr
              (ct ++ tag) (sub 0 pl buf ++ tail) (sub 0 pl buf))
    as (w2 & E2 & L2 & _ & _); auto; try (unfold in_i32, i32_min in *; lia).
  { by rewrite Hr1. }
  { by rewrite (touched_u8 _ _ _ _ T1). }
  { rewrite zlen_app. lia. }
  exists w1, w2. split_and!; [done|by rewrite E2, Hb|].
  unfold u8_at in *. rewrite (load_prefix _ _ _ pl _ L2) by lia.
  f_equal. rewrite <- Hb at 1. by rewrite sub_app_l, sub_all.
Qed.
End Payload.

(** ** Header protection through memory *)

Section Header.
Context {R : Rustls} {L : RustlsLaws R}.

Lemma header_in_place_ok name verb f w h e sp sl fp pp pl sample b pn b' pn' :
  w_keys w !! h = Some e → in_i32 sl → in_i32 pl → 0 ≤ sl → 0 ≤ pl →
  u8_at w sp sl = Some sample → u8_at w fp 1 = Some [b] → u8_at w pp pl = Some pn →
  apart fp 1 pp pl → f e sample b pn = ((b', pn'), inr tt) → zlen pn' = pl →
  ∃ w', header_in_place name verb f h sp sl fp pp pl w = Ret 0 w' ∧
    u8_at w' fp 1 = Some [b'] ∧ u8_at w' pp pl = Some pn' ∧ w_keys w' = w_keys w ∧
    (∀ q m, apart fp 1 q m → apart pp pl q m → u8_at w' q m = u8_at w q m).
Proof.
  intros He Isl Ipl Hsl Hpl Hs Hb Hpn Ha Hf Hlen. unfold u8_at in *.
  destruct (store_load _ _ 1 _ [b'] Hb eq_refl) as (h1 & S1 & L1).
  pose proof (load_store_apart _ _ pp pl _ _ S1 Ha) as Hpp. rewrite Hpn in Hpp.
  destruct (store_load _ _ _ _ pn' Hpp Hlen) as (h2 & S2 & L2).
  unfold header_in_place. run. pass_guards. rewrite !as_usize_nonneg_i32 by done.
  rewrite (read_u8_ok _ _ _ sample) by done. rewrite (read_u8_ok _ _ _ [b]) by done.
  rewrite (read_u8_ok _ _ _ pn) by done. rewrite (with_Some keys_table h _ _ e) by done.
  change (default 0 (head [b])) with b. rewrite Hf. rewrite (write_u8_ok _ _ _ h1) by done.
  rewrite (write_u8_ok _ _ _ h2) by done.
  eexists. split_and!; [done| |done|done|].
  - simpl. rewrite (load_store_apart _ _ fp 1 _ _ S2); [done|]. rewrite Hlen.
    by apply apart_sym.
  - intros q m H1 H2. simpl. rewrite (load_store_apart _ _ q m _ _ S2) by (by rewrite Hlen).
    by rewrite (load_store_apart _ _ q m _ _ S1).
Qed.

(** C29: the header of a packet protected under one handle is restored by the
    peer's handle: first byte and packet number come back, and the bytes
    after the packet number that the receiver also hands in are untouched. *)
Theorem header_protection_roundtrip w hs es k hr er k' sp fp pp sample b pn rest b' pn' :
  w_keys w !! hs = Some es → header (local es) = RustlsHeaderKey k →
  w_keys w !! hr = Some er → header (remote er) = RustlsHeaderKey k' →
  peer_hkey k k' →
  u8_at w sp 16 = Some sample → u8_at w fp 1 = Some [b] →
  u8_at w pp 4 = Some (pn ++ rest) → zlen pn = Z.land b 3 + 1 →
  apart fp 1 pp 4 → apart fp 1 sp 16 → apart pp 4 sp 16 →
  hkey_encrypt_in_place k sample b pn = ((b', pn'), inr tt) →
  ∃ w1 w2,
    rlsm_keys_local_header_protect hs sp 16 fp pp (zlen pn) w = Ret 0 w1 ∧
    u8_at w1 fp 1 = Some [b'] ∧ u8_at w1 pp 4 = Some (pn' ++ rest) ∧
    rlsm_keys_remote_header_unprotect hr sp 16 fp pp 4 w1 = Ret 0 w2 ∧
    u8_at w2 fp 1 = Some [b] ∧ u8_at w2 pp 4 = Some (pn ++ rest).
Proof.
  intros Hes Hk Her Hk' Hp Hs Hb Hpn Hn Hfp Hfs Hps Henc.
  pose proof (hp_length _ _ _ _ _ _ _ Henc) as Hlen.
  pose proof (load_length _ _ _ _ Hpn) as H4. rewrite zlen_app in H4.
  pose proof (zlen_nonneg rest). pose proof (zlen_nonneg pn).
  assert (Hpn0 : u8_at w pp (zlen pn) = Some pn).
  { unfold u8_at in *. rewrite (load_prefix _ _ _ (zlen pn) _ Hpn) by lia.
    by rewrite sub_app_l, sub_all. }
  assert (Hrest : u8_at w (ptr_add pp (zlen pn)) (zlen rest) = Some rest).
  { apply (load_tail _ _ _ _ pn); [by rewrite H4|done..]. }
  assert (Hpa : apart pp (zlen pn) (ptr_add pp (zlen pn)) (zlen rest)).
  { destruct pp; simpl; [done|lia]. }
  destruct (header_in_place_ok "rlsm_keys_local_header_protect" "protect"
    (λ entry, header_encrypt_in_place (header (local entry))) w hs es sp 16 fp pp (zlen pn)
    sample b pn b' pn') as (w1 & E1 & F1 & P1 & K1 & T1);
    auto; try (unfold in_i32, i32_min, i32_max; lia).
  { eapply apart_sub_r; [done|lia]. }
  { by rewrite Hk. }
  assert (P4 : u8_at w1 pp 4 = Some (pn' ++ rest)).
  { rewrite <- H4. apply load_app; [done|]. fold (u8_at w1 (ptr_add pp (zlen pn)) (zlen rest)).
    rewrite T1; [done| |done]. eapply apart_sub_shift; [done|lia|lia]. }
  destruct (header_in_place_ok "rlsm_keys_remote_header_unprotect" "unprotect"
    (λ entry, header_decrypt_in_place (header (remote entry))) w1 hr er sp 16 fp pp 4
    sample b' (pn' ++ rest) b (pn ++ rest)) as (w2 & E2 & F2 & P2 & _ & _);
    auto; try (unfold in_i32, i32_min, i32_max; lia).
  { by rewrite K1. }
  { rewrite T1; [done|done|]. eapply apart_shrink; [done|lia]. }
  { rewrite Hk'. by apply (hp_decrypt_encrypt k). }
  { rewrite zlen_app. lia. }
  exists w1, w2. by split_and!.
Qed.
End Header.

(** ** What callers see of errors *)

Section Errors.
Context {R : Rustls} {L : RustlsLaws R}.

(** The integer arguments are C [int]s; the probe functions of the test
    build take no part in the contract. *)
Definition int_args (c : call) : Prop :=
  match c with
  | LocalEncrypt _ _ _ _ _ _ cap => in_i32 cap
  | RemoteDecrypt _ _ _ _ _ pl => in_i32 pl
  | FreeCount | FreeReset => False
  | _ => True
  end.

Definition nonneg (r : Z) : Prop := 0 ≤ r.

Lemma as_i32_small z : 0 ≤ z ≤ i32_max → 0 ≤ as_i32 z.
Proof. intros. rewrite as_i32_id; [lia|]. unfold in_i32, i32_min in *. lia. Qed.

Lemma insert_nonneg {T} (tbl : HandleTable world T) v :
  returns (λ o, match o with Some h => 0 ≤ h | None => True end) (insert tbl v).
Proof.
  unfold insert, next_handle, fetch_add_1.
  intros w o w' H. apply bind_Ret_inv in H as (o1 & w1 & H1 & H).
  apply bind_Ret_inv in H1 as (z & w2 & _ & H1).
  destruct (0 <? z) eqn:Hz; breflect.
  - injection H1 as <- <-. apply bind_Ret_inv in H as (? & ? & _ & H).
    injection H as <- _. lia.
  - apply bind_Ret_inv in H1 as (? & ? & _ & H1). injection H1 as <- <-.
    by injection H as <- _.
Qed.

Definition result_nonneg (o : option (string + Z)) : Prop :=
  match o with Some (inr z) => 0 ≤ z | _ => True end.

Lemma local_encrypt_reports h pn hd hl p pl cap :
  in_i32 cap → reports nonneg (rlsm_keys_local_encrypt h pn hd hl p pl cap).
Proof.
  intros Hc. unfold rlsm_keys_local_encrypt. calls_report. report_with result_nonneg.
  - apply returns_with_mut; [done|]. calls_return; simpl; try done. breflect.
    apply as_i32_small. rewrite (as_usize_nonneg_i32 cap) in * by done.
    match goal with |- context [zlen ?t] => pose proof (zlen_nonneg t) end.
    unfold in_i32, as_usize in *. pose proof (Z.mod_pos_bound pl (2 ^ 64) ltac:(lia)). lia.
  - intros o Ho. calls_report. by simplify_eq.
Qed.

Lemma remote_decrypt_reports h pn hd hl p pl :
  in_i32 pl → reports nonneg (rlsm_keys_remote_decrypt h pn hd hl p pl).
Proof.
  intros Hp. unfold rlsm_keys_remote_decrypt. calls_report. report_with result_nonneg.
  - apply returns_with_mut; [done|]. intros e. unfold packet_decrypt_in_place.
    destruct (packet (remote e)); calls_return; simpl; try done; simplify_eq. breflect.
    match goal with E : pkey_decrypt_in_place _ _ _ _ = _ |- _ =>
      apply decrypt_length in E end.
    rewrite as_usize_nonneg_i32 in * by done. apply as_i32_small.
    match goal with |- context [zlen ?t] => pose proof (zlen_nonneg t) end.
    unfold in_i32 in *. lia.
  - intros o Ho. calls_report. by simplify_eq.
Qed.

(** The body of a batch loop counts up. *)
Lemma count_up {A} (c : prog world A) (f : A → Z) z :
  returns (λ a, z ≤ f a) c → 0 ≤ z → returns (λ a, 0 ≤ f a) c.
Proof. intros Hc Hz w a w' H. apply Hc in H. lia. Qed.

Definition count_nonneg (o : option Z) : Prop := match o with Some z => 0 ≤ z | None => True end.

Lemma batch_unprotect_reports h n a b c d e :
  reports nonneg (rlsm_keys_batch_header_unprotect h n a b c d e).
Proof.
  unfold rlsm_keys_batch_header_unprotect, batch_unprotect_one. calls_report; [done|].
  report_with count_nonneg.
  - apply returns_with; [done|]. intros x. apply returns_for_loop; [|done].
    calls_return; simpl in *; lia.
  - intros o Ho. calls_report. by simplify_eq.
Qed.

Lemma batch_protect_reports h n a b c d e :
  reports nonneg (rlsm_keys_batch_header_protect h n a b c d e).
Proof.
  unfold rlsm_keys_batch_header_protect, batch_protect_one. calls_report; [done|].
  report_with count_nonneg.
  - apply returns_with; [done|]. intros x. apply returns_for_loop; [|done].
    calls_return; simpl in *; lia.
  - intros o Ho. calls_report. by simplify_eq.
Qed.

Lemma batch_decrypt_reports h n a b c d e :
  reports nonneg (rlsm_keys_batch_decrypt h n a b c d e).
Proof.
  unfold rlsm_keys_batch_decrypt, batch_decrypt_one. calls_report; [done|].
  report_with count_nonneg.
  - apply returns_with_mut; [done|]. intros x. eapply returns_bind.
    + apply (returns_for_loop (λ z, 0 ≤ z)); [|done]. calls_return; lia.
    + intros z Hz. by apply returns_ret.
  - intros o Ho. calls_report. by simplify_eq.
Qed.

Lemma batch_encrypt_reports h n a b c d e f :
  reports nonneg (rlsm_keys_batch_encrypt h n a b c d e f).
Proof.
  unfold rlsm_keys_batch_encrypt, batch_encrypt_one. calls_report; [done|].
  report_with count_nonneg.
  - apply returns_with_mut; [done|]. intros x. apply (returns_for_loop (λ p, 0 ≤ p.2)); [|done].
    calls_return; simpl in *; lia.
  - intros o Ho. calls_report. by simplify_eq.
Qed.

Lemma header_in_place_reports name verb f h s sl fb p pl :
  reports nonneg (header_in_place name verb f h s sl fb p pl).
Proof.
  unfold header_in_place. calls_report. report_with (λ _ : option (string + unit), True); [done|].
  calls_report. done.
Qed.

Lemma initial_keys_reports v d dl ic : reports nonneg (rlsm_initial_keys v d dl ic).
Proof.
  unfold rlsm_initial_keys, initial_suite. calls_report. report_with count_nonneg.
  - apply insert_nonneg.
  - intros o Ho. calls_report. by simplify_eq.
Qed.

Lemma tag_len_reports h : reports nonneg (rlsm_keys_tag_len h).
Proof.
  unfold rlsm_keys_tag_len. calls_report. report_with count_nonneg.
  - apply returns_with; [done|]. calls_return. unfold packet_tag_len.
    case_match; [|done]. apply as_i32_small. pose proof (tag_len_range k).
    unfold i32_max. lia.
  - intros o Ho. calls_report. by simplify_eq.
Qed.

Lemma exec_reports c : int_args c → reports nonneg (exec c).
Proof.
  intros Hi. destruct c; simpl in *; try done;
    auto using initial_keys_reports, local_encrypt_reports, remote_decrypt_reports,
      batch_unprotect_reports, batch_protect_reports, batch_decrypt_reports,
      batch_encrypt_reports, tag_len_reports; try apply header_in_place_reports;
    unfold rlsm_initial_keys_raw, derive_raw_keys, initial_suite, expand_with_label,
      rlsm_keys_free, rlsm_aes_gcm_128_seal, rlsm_aes_gcm_128_open, rlsm_hmac_sha256;
    calls_report; unfold nonneg; try done; lia.
Qed.

(** Every function of the packet-protection API that leaves a message
    for [rlsm_last_error] returned -1, and every one that leaves none
    returned a non-negative result: callers may test the sign. *)
Theorem keys_api_reports c w r w' :
  int_args c → exec c w = Ret r w' →
  match w_last_error w' with Some _ => r = -1 | None => 0 ≤ r end.
Proof. intros Hi. apply (exec_reports c Hi). Qed.
End Errors.

Lemma encrypt_decrypt_roundtrip_witness : ∃ w1 w2,
  rlsm_keys_local_encrypt 1 5 (Ptr 1 0) 4 (Ptr 2 0) 3 20 pair_world = Ret 19 w1 ∧
  rlsm_keys_remote_decrypt 2 5 (Ptr 1 0) 4 (Ptr 2 0) 19 w1 = Ret 3 w2 ∧
  u8_at w2 (Ptr 2 0) 3 = Some [9; 9; 9].
Proof.
  apply (encrypt_decrypt_roundtrip pair_world 1 (pair_entry 1) 10 2 (pair_entry 2) 10
           5 (Ptr 1 0) 4 (Ptr 2 0) 3 20 [1; 2; 3; 4] (replicate 20 9)
           (toy_xor 10 5 [9; 9; 9]) (toy_tag 10 5 [1; 2; 3; 4] [9; 9; 9])).
  - apply some_default. by_eval.
  - by_vm.
  - apply some_default. by_eval.
  - by_vm.
  - reflexivity.
  - by_eval.
  - vm_compute; split; discriminate.
  - vm_compute; split; discriminate.
  - lia.
  - lia.
  - vm_compute; discriminate.
  - by_vm.
  - by_vm.
  - left. discriminate.
  - by_vm.
Defined.

Lemma header_protection_roundtrip_witness :
  let w := set_mem (mem_of [[]; 0xC1 :: [7; 8; 9; 10] ++ replicate 16 3]) pair_world in
  ∃ w1 w2,
  rlsm_keys_local_header_protect 1 (Ptr 2 5) 16 (Ptr 2 0) (Ptr 2 1) 2 w = Ret 0 w1 ∧
  u8_at w1 (Ptr 2 0) 1 = Some [203] ∧ u8_at w1 (Ptr 2 1) 4 = Some [61; 50; 9; 10] ∧
  rlsm_keys_remote_header_unprotect 2 (Ptr 2 5) 16 (Ptr 2 0) (Ptr 2 1) 4 w1 = Ret 0 w2 ∧
  u8_at w2 (Ptr 2 0) 1 = Some [0xC1] ∧ u8_at w2 (Ptr 2 1) 4 = Some [7; 8; 9; 10].
Proof.
  intros w. apply (header_protection_roundtrip w 1 (pair_entry 1) 10 2 (pair_entry 2) 10
    (Ptr 2 5) (Ptr 2 0) (Ptr 2 1) (replicate 16 3) 0xC1 [7; 8] [9; 10] 203 [61; 50]).
  - apply (some_default (pair_entry 1)). by_eval.
  - by_vm.
  - apply (some_default (pair_entry 2)). by_eval.
  - by_vm.
  - reflexivity.
  - by_vm.
  - by_vm.
  - by_vm.
  - reflexivity.
  - right. left. lia.
  - right. left. lia.
  - right. left. lia.
  - by_vm.
Defined.

Lemma keys_api_reports_witness :
  let c := LocalEncrypt 1 5 (Ptr 1 0) 4 (Ptr 2 0) 3 18 in
  match w_last_error (state_of pair_world (exec c pair_world)) with
  | Some _ => -1 = -1
  | None => 0 ≤ -1
  end.
Proof.
  intros c. apply (keys_api_reports c pair_world (-1)).
  - vm_compute; split; discriminate.
  - apply ret_of. by_eval.
Defined.

End QuicKeysFacts.
