(* ===== verification/BatchFacts.v ===== *)
(** * The batch calls against the single ones

    The batch functions of quic.rs repeat the work of the single-packet
    functions inside one table access. Here the batch decryption is compared
    with the loop a caller would write with [rlsm_keys_remote_decrypt], and
    the batch encryption with [rlsm_keys_local_encrypt]. *)

From S2P Require Import Prelude Effects Handles Rustls World Frames QuicKeys Toy QuicKeysFacts.
Import Effects Handles Rustls World Frames QuicKeys Toy QuicKeysFacts.

Module BatchFacts.

(** The last error does not matter to memory. *)
Ltac mem_simpl := cbn beta iota; repeat change (w_mem (set_error ?x ?w)) with (w_mem w).

Section Decrypt.
Context {R : Rustls} {L : RustlsLaws R}.

(** One turn of the caller's own loop. *)
Definition single_decrypt_one (h : Z)
    (packet_numbers packet_ptrs packet_lens header_lens out_plaintext_lens : ptr)
    (i ok_count : Z) : prog world Z :=
  pkt_ptr ← read_ptr (ptr_add packet_ptrs i);
  pkt_len ← read_i32 (ptr_add packet_lens i);
  hdr_len ← read_i32 (ptr_add header_lens i);
  pn ← read_u64 (ptr_add packet_numbers i);
  r ← rlsm_keys_remote_decrypt h pn pkt_ptr hdr_len (ptr_add pkt_ptr hdr_len)
        (pkt_len - hdr_len);
  write_i32 (ptr_add out_plaintext_lens i) r;;
  mret (if r =? -1 then ok_count else ok_count + 1).

(** States that differ in the last error only. *)
Definition erase (w : world) : world := set_error None w.
Definition outcome_erase {A} (o : outcome world A) : outcome world A :=
  match o with Ret a w => Ret a (erase w) | Panic m => Panic m | Undef => Undef | NoFuel => NoFuel end.

Lemma erase_eq w1 w2 : erase w1 = erase w2 → w2 = set_error (w_last_error w2) w1.
Proof. destruct w1, w2. unfold erase, set_error. simpl. by intros [= -> -> -> -> -> -> -> -> -> -> ->]. Qed.

(** The arrays hold a header and at least one byte of payload for packet i. *)
Definition packet_args (w : world) (packet_lens header_lens : ptr) (i : Z) : Prop :=
  ∃ pkt_len hdr_len,
    load (m_i32 (w_mem w)) (ptr_add packet_lens i) 1 = Some [pkt_len] ∧
    load (m_i32 (w_mem w)) (ptr_add header_lens i) 1 = Some [hdr_len] ∧
    0 ≤ hdr_len < pkt_len ∧ pkt_len ≤ i32_max.

Lemma set_keys_same w h e : w_keys w !! h = Some e → set_keys (<[h := e]> (w_keys w)) w = w.
Proof. intros H. rewrite insert_id by done. by destruct w. Qed.

Lemma plaintext_nonneg e pn hdr pay out pt :
  packet_decrypt_in_place (packet (remote e)) pn hdr pay = (out, inr pt) →
  zlen pay ≤ i32_max → 0 ≤ as_i32 (zlen pt).
Proof.
  unfold packet_decrypt_in_place. destruct (packet (remote e)); [|done].
  intros H%decrypt_length Hm. pose proof (zlen_nonneg pt). apply as_i32_small. lia.
Qed.

Lemma batch_one_single e h pns ptrs lens hdrs outs i ok w1 w2 :
  erase w1 = erase w2 → w_keys w1 !! h = Some e → packet_args w1 lens hdrs i →
  outcome_erase (batch_decrypt_one e pns ptrs lens hdrs outs i ok w1) =
  outcome_erase (single_decrypt_one h pns ptrs lens hdrs outs i ok w2).
Proof.
  intros Heq He (pl & hl & Hp & Hh & Hhl & Hmax). apply erase_eq in Heq as ->.
  generalize (w_last_error w2). intros err. clear w2.
  assert (I : in_i32 pl ∧ in_i32 hl ∧ in_i32 (pl - hl)) by (unfold in_i32, i32_min in *; lia).
  destruct I as (I1 & I2 & I3).
  unfold batch_decrypt_one, single_decrypt_one, read_ptr, read_i32, read_u64. run. mem_simpl.
  destruct (load (m_ptr (w_mem w1)) (ptr_add ptrs i) 1) as [[|q ?]|]; mem_simpl;
    rewrite ?Hp; mem_simpl; rewrite ?Hh; mem_simpl; try done.
  destruct (load (m_u64 (w_mem w1)) (ptr_add pns i) 1) as [[|pn ?]|]; [done| |done].
  unfold rlsm_keys_remote_decrypt. run. rewrite !as_usize_nonneg_i32 by (done || lia).
  pass_guards. destruct q as [|b o]; cbn [is_null orb ptr_add].
  { unfold write_i32. mem_simpl. by destruct (store _ _ _). }
  pass_guards. unfold read_u8. run. mem_simpl.
  destruct (load (m_u8 (w_mem w1)) (Ptr b o) hl) as [hdr|]; [|done]. mem_simpl.
  destruct (load (m_u8 (w_mem w1)) (Ptr b (o + hl)) (pl - hl)) as [pay|] eqn:Hpay; [|done].
  rewrite (with_mut_Some keys_table h _ _ e) by done.
  destruct (packet_decrypt_in_place (packet (remote e)) pn hdr pay) as [out res] eqn:Hdec.
  unfold write_u8. mem_simpl. destruct (store (m_u8 (w_mem w1)) _ out) as [h1|] eqn:Hst; [|done].
  unfold write_i32. destruct res as [err'|pt]; cbn -[store load insert Z.eqb as_i32];
    rewrite insert_id by done.
  - by destruct (store (m_i32 (w_mem w1)) (ptr_add outs i) [-1]).
  - assert (Hpos : 0 ≤ as_i32 (zlen pt)) by
      (eapply plaintext_nonneg; [done|rewrite (load_length _ _ _ _ Hpay); lia]).
    rewrite (proj2 (Z.eqb_neq _ (-1))) by lia.
    by destruct (store (m_i32 (w_mem w1)) (ptr_add outs i) [as_i32 (zlen pt)]).
Qed.

(** A turn changes no keys, and no integer but its own result. *)
Definition i32_at (p : ptr) (w : world) : option (list Z) := load (m_i32 (w_mem w)) p 1.

Lemma i32_keeps_write_u8 p q l : keeps (i32_at p) (write_u8 q l).
Proof. intros w a w'. unfold write_u8. case_match; [|done]. by intros [= _ <-]. Qed.

Lemma i32_keeps_write_i32 p q z : apart q 1 p 1 → keeps (i32_at p) (write_i32 q z).
Proof.
  intros Ha w a w'. unfold write_i32. destruct (store _ q [z]) eqn:E; [|done].
  intros [= _ <-]. by apply (load_store_apart _ _ p 1 _ _ E).
Qed.

Lemma batch_one_keeps_i32 e pns ptrs lens hdrs outs i ok p :
  apart (ptr_add outs i) 1 p 1 →
  keeps (i32_at p) (batch_decrypt_one e pns ptrs lens hdrs outs i ok).
Proof.
  intros Ha. pose proof (i32_keeps_write_u8 p) as W8.
  pose proof (λ z, i32_keeps_write_i32 p (ptr_add outs i) z Ha) as W32.
  unfold batch_decrypt_one. calls_keep.
Qed.

#[local] Instance keys_mem : IgnoresMem (w_keys (R:=R)).
Proof. done. Qed.

Lemma batch_one_keeps_keys e pns ptrs lens hdrs outs i ok :
  keeps w_keys (batch_decrypt_one e pns ptrs lens hdrs outs i ok).
Proof. unfold batch_decrypt_one. calls_keep. Qed.

(** Results go to an array of their own. *)
Definition outs_apart (lens hdrs outs : ptr) : Prop :=
  ∀ i j, apart (ptr_add outs i) 1 (ptr_add lens j) 1 ∧
         apart (ptr_add outs i) 1 (ptr_add hdrs j) 1.

Lemma batch_loop_single n e h pns ptrs lens hdrs outs i ok w1 w2 :
  erase w1 = erase w2 → w_keys w1 !! h = Some e → outs_apart lens hdrs outs →
  (∀ j, i ≤ j < i + Z.of_nat n → packet_args w1 lens hdrs j) →
  outcome_erase (for_loop n i (batch_decrypt_one e pns ptrs lens hdrs outs) ok w1) =
  outcome_erase (for_loop n i (single_decrypt_one h pns ptrs lens hdrs outs) ok w2).
Proof.
  revert i ok w1 w2. induction n as [|n IH]; intros i ok w1 w2 Heq He Ho Ha.
  { simpl. by rewrite Heq. }
  simpl. unfold mbind, prog_bind.
  pose proof (batch_one_single e h pns ptrs lens hdrs outs i ok w1 w2 Heq He (Ha i ltac:(lia))) as Hs.
  destruct (batch_decrypt_one e pns ptrs lens hdrs outs i ok w1) as [a w1'| | |] eqn:E1;
    destruct (single_decrypt_one h pns ptrs lens hdrs outs i ok w2) as [a2 w2'| | |] eqn:E2;
    try done. assert (Hw : a = a2 ∧ erase w1' = erase w2').
  { split; [by injection Hs|]. cbn [outcome_erase] in Hs. congruence. }
  destruct Hw as [<- Hw]. apply IH; [done| |done|].
  - by rewrite (batch_one_keeps_keys _ _ _ _ _ _ _ _ _ _ _ E1).
  - intros j Hj. destruct (Ha j ltac:(lia)) as (pl & hl & Hp & Hh & Hr). destruct (Ho i j) as [O1 O2].
    exists pl, hl. split_and!; [| |lia|lia|lia].
    + by rewrite <- Hp; apply (batch_one_keeps_i32 _ _ _ _ _ _ _ _ _ O1 _ _ _ E1).
    + by rewrite <- Hh; apply (batch_one_keeps_i32 _ _ _ _ _ _ _ _ _ O2 _ _ _ E1).
Qed.

(** C34: decrypting a batch is decrypting its packets one by one with the
    single-packet call: same count, same bytes, same results array, same
    undefined behaviour, for packets with a header and a payload; only the
    last error may differ. *)
Theorem batch_decrypt_is_single w h e count pns ptrs lens hdrs outs :
  w_keys w !! h = Some e → in_i32 count → 0 < count →
  is_null pns || is_null ptrs || is_null lens || is_null hdrs || is_null outs = false →
  outs_apart lens hdrs outs → (∀ j, 0 ≤ j < count → packet_args w lens hdrs j) →
  outcome_erase (rlsm_keys_batch_decrypt h count pns ptrs lens hdrs outs w) =
  outcome_erase (for_loop (Z.to_nat count) 0
                   (single_decrypt_one h pns ptrs lens hdrs outs) 0 w).
Proof.
  intros He Hi Hc Hn Ho Ha. unfold rlsm_keys_batch_decrypt. run. pass_guards. rewrite Hn.
  rewrite as_usize_nonneg_i32 by (done || lia).
  rewrite (with_mut_Some keys_table h _ _ e) by done.
  pose proof (batch_loop_single (Z.to_nat count) e h pns ptrs lens hdrs outs 0 0
                (set_error None w) w eq_refl He Ho) as Hl.
  rewrite <- Hl by (intros j Hj; apply Ha; lia).
  destruct (for_loop _ 0 (batch_decrypt_one e pns ptrs lens hdrs outs) 0 (set_error None w))
    as [c w'| | |] eqn:E; try done.
  assert (Hk : w_keys w' !! h = Some e).
  { rewrite (keeps_for_loop w_keys _ _ _ _
      (λ j a, batch_one_keeps_keys e pns ptrs lens hdrs outs j a) _ _ _ E). done. }
  simpl. by rewrite (set_keys_same w' h e Hk).
Qed.
End Decrypt.
(** ** Encryption *)

Section Encrypt.
Context {R : Rustls} {L : RustlsLaws R}.

(** One packet described by the arrays of a batch call. *)
Record one_packet (w : world) (pns ptrs hdrs pays caps outs pkt : ptr) (pn hl pl cap : Z)
    (hdr buf : bytes) : Prop := {
  op_pn : load (m_u64 (w_mem w)) pns 1 = Some [pn];
  op_ptr : load (m_ptr (w_mem w)) ptrs 1 = Some [pkt];
  op_hl : load (m_i32 (w_mem w)) hdrs 1 = Some [hl];
  op_pl : load (m_i32 (w_mem w)) pays 1 = Some [pl];
  op_cap : load (m_i32 (w_mem w)) caps 1 = Some [cap];
  op_out : ∃ z, load (m_i32 (w_mem w)) outs 1 = Some [z];
  op_hdr : u8_at w pkt hl = Some hdr;
  op_buf : u8_at w (ptr_add pkt hl) cap = Some buf;
  op_range : 0 ≤ hl ≤ i32_max ∧ 0 ≤ pl ≤ cap ∧ cap ≤ i32_max;
}.

Lemma ptr_add_0 p : ptr_add p 0 = p.
Proof. destruct p; simpl; [done|]. f_equal. lia. Qed.

(** C37: when the tag does not fit in the buffer, the batch call reports the
    packet as failed but has already written its ciphertext under the nonce
    of [pn] and does not record [pn]: the entry accepts the same packet
    number again, for other bytes. The single call records it first. *)
Theorem batch_encrypt_forgets_nonce w h e k pns ptrs hdrs pays caps outs pkt pn hl pl cap
    hdr buf ct tag :
  w_keys w !! h = Some e → packet (local e) = RustlsPacketKey k → pn_reused e pn = false →
  one_packet w pns ptrs hdrs pays caps outs pkt pn hl pl cap hdr buf →
  pkey_encrypt_in_place k pn hdr (sub 0 pl buf) = (ct, inr tag) → cap < pl + zlen tag →
  (∃ w', rlsm_keys_batch_encrypt h 1 pns ptrs hdrs pays caps outs w = Ret 0 w' ∧
     u8_at w' (ptr_add pkt hl) pl = Some ct ∧ w_keys w' !! h = Some e) ∧
  (∃ w', rlsm_keys_local_encrypt h pn pkt hl (ptr_add pkt hl) pl cap w = Ret (-1) w' ∧
     u8_at w' (ptr_add pkt hl) pl = Some ct ∧ w_keys w' !! h = Some (set_last_pn e pn)).
Proof.
  intros He Hk Hf [Hpn Hptr Hhl Hpl Hcap [z Hout] Hhdr Hbuf (R1 & R2 & R3)] Henc Hlt.
  assert (I : in_i32 hl ∧ in_i32 pl ∧ in_i32 cap) by (unfold in_i32, i32_min in *; lia).
  destruct I as (I1 & I2 & I3).
  destruct (encrypt_length _ _ _ _ _ _ Henc) as [Hct _].
  rewrite zlen_sub in Hct by (apply fits_spec; rewrite (load_length _ _ _ _ Hbuf); lia).
  destruct (store_load (m_u8 (w_mem w)) (ptr_add pkt hl) pl (sub 0 pl buf) ct) as (h1 & S1 & L1);
    [by eapply load_prefix|done|].
  destruct (store_load _ _ _ _ [-1] Hout eq_refl) as (h2 & S2 & _).
  split.
  - unfold rlsm_keys_batch_encrypt. run. pass_guards. change (Z.to_nat (as_usize 1)) with 1%nat.
    rewrite (with_mut_Some keys_table h _ _ e) by done.
    unfold for_loop, batch_encrypt_one. run. rewrite !ptr_add_0.
    rewrite (read_ptr_ok _ _ pkt) by done. rewrite (read_i32_ok _ _ hl) by done.
    rewrite (read_i32_ok _ _ pl) by done. rewrite (read_i32_ok _ _ cap) by done.
    rewrite (read_u64_ok _ _ pn) by done.
    rewrite !as_usize_nonneg_i32 by (done || lia). unfold u8_at in *. pass_guards. rewrite Hf.
    rewrite (read_u8_ok _ _ _ hdr) by done. rewrite (read_u8_ok _ _ _ buf) by done.
    rewrite Hk. unfold packet_encrypt_in_place. rewrite Henc.
    rewrite (write_u8_ok _ _ _ h1) by done. pass_guards.
    rewrite (write_i32_ok _ _ _ h2) by done.
    eexists. split_and!; [done|done|]. simpl. apply lookup_insert_eq.
  - unfold rlsm_keys_local_encrypt. unfold u8_at in *. run. pass_guards.
    rewrite !as_usize_nonneg_i32 by (done || lia). pass_guards.
    rewrite (read_u8_ok _ _ _ hdr) by done. rewrite (read_u8_ok _ _ _ buf) by done.
    rewrite (with_mut_Some keys_table h _ _ e) by done. rewrite Hf.
    change (local (set_last_pn e pn)) with (local e). rewrite Hk.
    unfold packet_encrypt_in_place. rewrite Henc. rewrite (write_u8_ok _ _ _ h1) by done.
    pass_guards. eexists. split_and!; [done|done|]. simpl. apply lookup_insert_eq.
Qed.
End Encrypt.

(** ** Offsets are not checked for sign *)

Section Offsets.
Context {R : Rustls}.

Lemma read_u8_cases p n w : read_u8 p n w = Undef ∨ ∃ l, read_u8 p n w = Ret l w.
Proof. unfold read_u8. run. destruct (load _ p n); eauto. Qed.

Lemma load_far {A} (m : gmap N (list A)) b o n l :
  m !! b = Some l → zlen l < o → 0 ≤ n → load m (Ptr b o) n = None.
Proof.
  intros Hb Ho Hn. unfold load. rewrite Hb. unfold fits.
  by rewrite (proj2 (Z.leb_gt (o + n) (zlen l))), andb_false_r by lia.
Qed.

(** C38: a packet-number offset between -20 and -1 passes the length check of
    the batch header functions, because the check adds to the offset after
    the cast to [usize] and wraps; the packet number is then read outside
    the packet. *)
Theorem batch_unprotect_negative_offset w h e lens offs ptrs firsts outs b o blk pkt_len off :
  w_keys w !! h = Some e →
  load (m_ptr (w_mem w)) ptrs 1 = Some [Ptr b o] →
  load (m_i32 (w_mem w)) lens 1 = Some [pkt_len] →
  load (m_i32 (w_mem w)) offs 1 = Some [off] →
  is_null firsts || is_null outs = false →
  m_u8 (w_mem w) !! b = Some blk → 0 ≤ o → zlen blk < 2 ^ 63 →
  -20 ≤ off < 0 → 20 + off ≤ pkt_len ≤ i32_max →
  rlsm_keys_batch_header_unprotect h 1 ptrs lens offs firsts outs w = Undef.
Proof.
  intros He Hp Hl Ho Hn Hb Hoff Hblk Hr Hlen.
  assert (I : in_i32 off ∧ in_i32 pkt_len) by (unfold in_i32, i32_min, i32_max in *; lia).
  destruct I as [I1 I2]. apply orb_false_elim in Hn as [N1 N2].
  unfold rlsm_keys_batch_header_unprotect. run. pass_guards.
  change (Z.to_nat (as_usize 1)) with 1%nat.
  rewrite (with_Some keys_table h _ _ e) by done.
  unfold for_loop, batch_unprotect_one. run. rewrite !ptr_add_0.
  rewrite (read_ptr_ok _ _ (Ptr b o)) by done. rewrite (read_i32_ok _ _ pkt_len) by done.
  rewrite (read_i32_ok _ _ off) by done.
  rewrite (as_usize_nonneg_i32 pkt_len), (as_usize_neg_i32 off) by (done || lia).
  assert (Hw : usize_add (usize_add (2 ^ 64 + off) 4) 16 = 20 + off).
  { unfold usize_add, as_usize. rewrite Zplus_mod_idemp_l.
    symmetry. apply (Z.mod_unique _ _ 1); lia. }
  rewrite Hw. pass_guards. cbn [is_null orb].
  destruct (read_u8_cases (ptr_add (Ptr b o) (usize_add (2 ^ 64 + off) 4)) 16 (set_error None w))
    as [->|[sample ->]]; [done|].
  destruct (read_u8_cases (Ptr b o) 1 (set_error None w)) as [->|[fb ->]]; [done|].
  assert (read_u8 (ptr_add (Ptr b o) (2 ^ 64 + off)) 4 (set_error None w) = Undef) as ->; [|done].
  unfold read_u8. run. cbn [ptr_add]. change (w_mem (set_error None w)) with (w_mem w).
  by rewrite (load_far _ _ _ _ blk) by (done || lia).
Qed.
End Offsets.

(** ** Concrete runs *)

(** Two packets of one header byte and a protected payload under handle 2's
    remote key, described by arrays in blocks of their own. *)
Definition batch_world : world :=
  let ct := toy_xor 10 5 [9; 9; 9] ++ toy_tag 10 5 [1] [9; 9; 9] in
  set_mem
    {| m_u8 := {[ 1%N := 1 :: ct; 2%N := 1 :: ct ]};
       m_i32 := {[ 1%N := [20; 20]; 2%N := [1; 1]; 3%N := [0; 0] ]};
       m_u64 := {[ 1%N := [5; 6] ]};
       m_ptr := {[ 1%N := [Ptr 1 0; Ptr 2 0] ]} |} pair_world.

Lemma batch_decrypt_is_single_witness :
  outcome_erase (rlsm_keys_batch_decrypt 2 2 (Ptr 1 0) (Ptr 1 0) (Ptr 1 0) (Ptr 2 0) (Ptr 3 0)
                   batch_world) =
  outcome_erase (for_loop 2 0 (single_decrypt_one 2 (Ptr 1 0) (Ptr 1 0) (Ptr 1 0) (Ptr 2 0)
                   (Ptr 3 0)) 0 batch_world).
Proof.
  apply (batch_decrypt_is_single batch_world 2 (pair_entry 2) 2).
  - apply (some_default (pair_entry 2)). by_eval.
  - vm_compute. split; discriminate.
  - reflexivity.
  - reflexivity.
  - intros i j. split; left; discriminate.
  - intros j Hj. assert (j = 0 ∨ j = 1) as [-> | ->] by lia;
      exists 20, 1; (split; [by_vm|split; [by_vm|vm_compute; repeat split; discriminate]]).
Defined.

(** The same packet with room for 18 bytes, three of them payload. *)
Definition short_world : world :=
  set_mem
    {| m_u8 := {[ 1%N := 1 :: replicate 18 9 ]};
       m_i32 := {[ 1%N := [1]; 2%N := [3]; 3%N := [18]; 4%N := [0] ]};
       m_u64 := {[ 1%N := [5] ]};
       m_ptr := {[ 1%N := [Ptr 1 0] ]} |} pair_world.

Lemma batch_encrypt_forgets_nonce_witness :
  let ct := toy_xor 10 5 [9; 9; 9] in
  (∃ w', rlsm_keys_batch_encrypt 1 1 (Ptr 1 0) (Ptr 1 0) (Ptr 1 0) (Ptr 2 0) (Ptr 3 0) (Ptr 4 0)
           short_world = Ret 0 w' ∧
     u8_at w' (Ptr 1 1) 3 = Some ct ∧ w_keys w' !! 1 = Some (pair_entry 1)) ∧
  (∃ w', rlsm_keys_local_encrypt 1 5 (Ptr 1 0) 1 (Ptr 1 1) 3 18 short_world = Ret (-1) w' ∧
     u8_at w' (Ptr 1 1) 3 = Some ct ∧ w_keys w' !! 1 = Some (set_last_pn (pair_entry 1) 5)).
Proof.
  apply (batch_encrypt_forgets_nonce short_world 1 (pair_entry 1) 10 (Ptr 1 0) (Ptr 1 0)
    (Ptr 1 0) (Ptr 2 0) (Ptr 3 0) (Ptr 4 0) (Ptr 1 0) 5 1 3 18 [1] (replicate 18 9)
    (toy_xor 10 5 [9; 9; 9]) (toy_tag 10 5 [1] [9; 9; 9])).
  - apply (some_default (pair_entry 1)). by_eval.
  - by_vm.
  - by_eval.
  - split; try by_vm.
    + exists 0. by_vm.
    + vm_compute. repeat split; discriminate.
  - by_vm.
  - reflexivity.
Defined.

Lemma batch_unprotect_negative_offset_witness :
  rlsm_keys_batch_header_unprotect 2 1 (Ptr 1 0) (Ptr 1 0) (Ptr 4 0) (Ptr 2 0) (Ptr 3 0)
    (set_mem (set_i32 {[ 1%N := [20]; 4%N := [-1] ]} (w_mem batch_world)) batch_world) = Undef.
Proof.
  eapply (batch_unprotect_negative_offset _ 2 (pair_entry 2) _ _ _ _ _ 1 0 _ 20 (-1)).
  - apply (some_default (pair_entry 2)). by_eval.
  - by_vm.
  - by_vm.
  - by_vm.
  - reflexivity.
  - reflexivity.
  - lia.
  - vm_compute. reflexivity.
  - lia.
  - vm_compute. split; discriminate.
Defined.

End BatchFacts.
