(* ===== verification/KeysTests.v ===== *)
(** * The unit tests of quic.rs

    The tests of [src/crates/librustls-mojo/src/quic.rs] that seal a packet with
    the single calls and open it with the batch calls, and the one of the counter
    of freed keys, as programs over the model: a failed assertion is a panic. The
    locals of a test are blocks of memory. *)

From S2P Require Import Prelude Effects Handles Rustls World Frames Toy QuicKeys QuicKeysFacts BatchFacts.
Import Effects Handles Rustls World Frames Toy QuicKeys QuicKeysFacts BatchFacts.

Module KeysTests.

Abbreviation p_dcid := (Ptr 1 0).
Abbreviation p_pkt o := (Ptr 2 o).
Abbreviation p_header := (Ptr 3 0).

Section Tests.
Context {R : Rustls}.

(** Blocks of bytes: 1 is [dcid], 2 [pkt], 3 [header], 4 [out_fb]; of [i32]: 1 is
    [lens], 2 [offsets], 3 [out_pnl], 4 [hdr_lens], 5 [out_pt_lens]; of [u64]: 1 is
    [pns]; of pointers: 1 is [ptrs]. *)
Definition test_dcid : bytes := [0x83; 0x94; 0xc8; 0xf0; 0x3e; 0x51; 0x57; 0x08].

Definition test_memory : memory :=
  {| m_u8 := {[ 1%N := test_dcid; 2%N := replicate 70 0; 3%N := replicate 22 0; 4%N := [0] ]};
     m_i32 := ∅; m_u64 := ∅; m_ptr := ∅ |}.

Definition make_initial_keys (is_client : bool) : prog world Z :=
  h ← rlsm_initial_keys 1 p_dcid 8 (if is_client then 1 else 0);
  assert_ (0 <? h) "rlsm_initial_keys failed";;
  mret h.

(** The packet before it is sealed: an Initial header with a Length of 52, and
    zeros. *)
Definition plain_header : bytes :=
  let pl_field := as_u16 (4 + 32 + 16) in
  [0xC3; 0x00; 0x00; 0x00; 0x01; 8] ++ test_dcid ++ [0; 0] ++
  [Z.lor 0x40 (as_u8 (Z.shiftr pl_field 8)); as_u8 (Z.land pl_field 0xFF)] ++ replicate 4 0.
Definition plain_packet : bytes := plain_header ++ replicate 48 0.

Definition make_test_initial_packet (keys_handle : Z) : prog world Z :=
  write_u8 (p_pkt 0) plain_packet;;
  write_u8 p_header plain_header;;
  rc ← rlsm_keys_local_encrypt keys_handle 0 p_header 22 (p_pkt 22) 32 48;
  assert_ (0 <? rc) "encrypt failed";;
  rc ← rlsm_keys_local_header_protect keys_handle (p_pkt 22) 16 (p_pkt 0) (p_pkt 18) 4;
  assert_ (rc =? 0) "header protect failed";;
  mret 18.

(** The arrays of a batch of one packet. *)
Definition unprotect_locals (pn_offset : Z) (w : world) : world :=
  set_mem {| m_u8 := m_u8 (w_mem w); m_i32 := {[ 1%N := [70]; 2%N := [pn_offset]; 3%N := [0] ]};
             m_u64 := ∅; m_ptr := {[ 1%N := [p_pkt 0] ]} |} w.
Definition decrypt_locals (header_len : Z) (w : world) : world :=
  set_mem {| m_u8 := m_u8 (w_mem w);
             m_i32 := <[4%N := [header_len]]> (<[5%N := [0]]> (m_i32 (w_mem w)));
             m_u64 := {[ 1%N := [0] ]}; m_ptr := m_ptr (w_mem w) |} w.

Definition unprotect_one (keys_handle pn_offset : Z) : prog world Z :=
  modify (unprotect_locals pn_offset);;
  rlsm_keys_batch_header_unprotect keys_handle 1 (Ptr 1 0) (Ptr 1 0) (Ptr 2 0) (Ptr 4 0) (Ptr 3 0).

Definition decrypt_one (keys_handle header_len : Z) : prog world Z :=
  modify (decrypt_locals header_len);;
  rlsm_keys_batch_decrypt keys_handle 1 (Ptr 1 0) (Ptr 1 0) (Ptr 1 0) (Ptr 4 0) (Ptr 5 0).

(** Its body on two handles. *)
Definition unprotect_batch (server_h client_h : Z) : prog world unit :=
  pn_offset ← make_test_initial_packet server_h;
  rc ← unprotect_one client_h pn_offset;
  assert_ (rc =? 1) "expected 1 success";;
  out_fb ← read_u8 (Ptr 4 0) 1;
  assert_ (Z.land (default 0 (head out_fb)) 0x80 =? 0x80) "long header bit not set";;
  out_pnl ← read_i32 (Ptr 3 0);
  assert_ ((1 <=? out_pnl) && (out_pnl <=? 4)) "bad pn_length";;
  rlsm_keys_free server_h;; rlsm_keys_free client_h;; mret tt.

Definition test_batch_header_unprotect_single : prog world unit :=
  modify (set_mem test_memory);;
  server_h ← make_initial_keys false;
  client_h ← make_initial_keys true;
  unprotect_batch server_h client_h.

(** The end of both tests that open the packet. *)
Definition open_batch (sealing opening first second : Z) : prog world unit :=
  pn_offset ← make_test_initial_packet sealing;
  rc ← unprotect_one opening pn_offset;
  assert_ (rc =? 1) "unprotect";;
  pnl ← read_i32 (Ptr 3 0);
  let header_len := pn_offset + pnl in
  rc ← decrypt_one opening header_len;
  assert_ (rc =? 1) "expected 1 success";;
  out_pt_len ← read_i32 (Ptr 5 0);
  assert_ (0 <? out_pt_len) "plaintext length should be positive";;
  rlsm_keys_free first;; rlsm_keys_free second;; mret tt.

Definition test_batch_decrypt_single : prog world unit :=
  modify (set_mem test_memory);;
  server_h ← make_initial_keys false;
  client_h ← make_initial_keys true;
  open_batch server_h client_h server_h client_h.

(** The arrays of [test_batch_encrypt_and_protect], in its order: [hdr_lens],
    [pay_lens], [capacities], [out_ct_lens], then [pkt_lens], [pn_offs], [pn_lens],
    [out_results]. *)
Definition seal_memory : memory :=
  {| m_u8 := {[ 1%N := test_dcid; 2%N := replicate 70 0 ]};
     m_i32 := {[ 1%N := [22]; 2%N := [32]; 3%N := [48]; 4%N := [0];
                 5%N := [70]; 6%N := [18]; 7%N := [4]; 8%N := [0] ]};
     m_u64 := {[ 1%N := [0] ]}; m_ptr := {[ 1%N := [p_pkt 0] ]} |}.

Definition batch_seal (client_h : Z) : prog world unit :=
  write_u8 (p_pkt 0) plain_packet;;
  rc ← rlsm_keys_batch_encrypt client_h 1 (Ptr 1 0) (Ptr 1 0) (Ptr 1 0) (Ptr 2 0) (Ptr 3 0) (Ptr 4 0);
  assert_ (rc =? 1) "batch encrypt: expected 1 success";;
  out_ct_len ← read_i32 (Ptr 4 0);
  assert_ (out_ct_len =? 32 + 16) "out_ct_lens";;
  rc ← rlsm_keys_batch_header_protect client_h 1 (Ptr 1 0) (Ptr 5 0) (Ptr 6 0) (Ptr 7 0) (Ptr 8 0);
  assert_ (rc =? 1) "batch protect: expected 1 success";;
  out_result ← read_i32 (Ptr 8 0);
  assert_ (out_result =? 0) "out_results";;
  first ← read_u8 (p_pkt 0) 1;
  assert_ (negb (default 0 (head first) =? 0xC3)) "first byte should be masked after HP";;
  rlsm_keys_free client_h;; mret tt.

Definition test_batch_encrypt_and_protect : prog world unit :=
  modify (set_mem seal_memory);;
  client_h ← make_initial_keys true;
  batch_seal client_h.

Definition test_batch_roundtrip : prog world unit :=
  modify (set_mem test_memory);;
  client_h ← make_initial_keys true;
  server_h ← make_initial_keys false;
  open_batch client_h server_h client_h server_h.

Definition test_keys_free_counter_increments_and_resets : prog world unit :=
  modify (set_mem test_memory);;
  rlsm_test_keys_free_reset;;
  n ← rlsm_test_keys_free_count;
  assert_ (n =? 0) "counter must reset to 0";;
  rc ← rlsm_keys_free (-99);
  assert_ (rc =? -1) "freeing invalid handle must return -1";;
  n ← rlsm_test_keys_free_count;
  assert_ (n =? 0) "counter must not increment on failed free";;
  kh ← rlsm_initial_keys 1 p_dcid 8 1;
  assert_ (0 <? kh) "initial_keys must produce a positive handle";;
  rc ← rlsm_keys_free kh;
  assert_ (rc =? 0) "freeing a valid handle must succeed";;
  n ← rlsm_test_keys_free_count;
  assert_ (n =? 1) "counter must increment on successful free";;
  rlsm_test_keys_free_reset;;
  n ← rlsm_test_keys_free_count;
  assert_ (n =? 0) "reset must zero the counter".
End Tests.

(** ** What the libraries must provide

    The suite is there, the Initial keys of the two sides of a connection belong
    together, protecting with them succeeds and the tag has 16 bytes. *)
Class InitialKeysWork (R : Rustls) (L : RustlsLaws R) := {
  ik_suite : suite;
  ik_algo : quic_algo;
  ik_suite_is : tls13_aes_128_gcm_sha256 = Some ik_suite;
  ik_algo_is : suite_quic ik_suite = Some ik_algo;
  ik_peers : ∀ dcid side side' l r l' r',
    side ≠ side' → keys_initial V1 ik_suite ik_algo dcid side = (l, r) →
    keys_initial V1 ik_suite ik_algo dcid side' = (l', r') → peer_hkey l.1 r'.1 ∧ peer_pkey l.2 r'.2;
  ik_seals : ∀ dcid side l r pn hdr pt,
    keys_initial V1 ik_suite ik_algo dcid side = (l, r) →
    ∃ ct tag, pkey_encrypt_in_place l.2 pn hdr pt = (ct, inr tag) ∧ zlen tag = 16;
  ik_masks : ∀ dcid side l r sample b pn,
    keys_initial V1 ik_suite ik_algo dcid side = (l, r) → zlen sample = 16 →
    ∃ b' pn', hkey_encrypt_in_place l.1 sample b pn = ((b', pn'), inr tt);
}.

Section Facts.
Context {R : Rustls} {L : RustlsLaws R} `{!InitialKeysWork R L}.

Definition initial_entry (side : Side) : KeysEntry :=
  let '(l, r) := keys_initial V1 ik_suite ik_algo test_dcid side in
  {| local := wrap_keys l; remote := wrap_keys r; last_local_pn := None |}.

Definition role (is_client : bool) : Side := if is_client then ClientSide else ServerSide.

Lemma initial_keys_ok c w :
  u8_at w p_dcid 8 = Some test_dcid → 0 < w_next w < i32_max →
  rlsm_initial_keys 1 p_dcid 8 (if c : bool then 1 else 0) w =
  Ret (w_next w) (set_keys (<[w_next w := initial_entry (role c)]> (w_keys w))
                    (set_next (w_next w + 1) (set_error None w))).
Proof.
  intros Hd Hn. unfold rlsm_initial_keys, initial_suite. run. rewrite ik_suite_is.
  change (8 <? 0) with false. change (is_null p_dcid) with false. cbv beta iota.
  change (as_usize 8) with 8. rewrite (read_u8_ok _ _ _ test_dcid) by done. cbv beta iota.
  change (to_quic_version 1) with (inr V1 : string + QuicVersion). cbn [expect]. run. rewrite ik_algo_is.
  unfold initial_entry, role.
  replace (if negb ((if c then 1 else 0) =? 0) then ClientSide else ServerSide)
    with (if c then ClientSide else ServerSide) by (by destruct c).
  destruct (keys_initial _ _ _ _ _) as [l r]. rewrite (insert_pos keys_table) by (simpl; lia).
  cbv beta iota. simpl. rewrite as_i32_id by (unfold in_i32, i32_min; lia). done.
Qed.

(** The packet in its parts: first byte, the header up to the packet number, the
    packet number, payload and tag. *)
Record packet_is (w : world) (b : Z) (mid pn body : bytes) : Prop := {
  is_first : u8_at w (p_pkt 0) 1 = Some [b];
  is_mid : u8_at w (p_pkt 1) 17 = Some mid;
  is_pn : u8_at w (p_pkt 18) 4 = Some pn;
  is_body : u8_at w (p_pkt 22) 48 = Some body;
}.

Definition plain_mid : bytes := Eval vm_compute in sub 1 17 plain_header.

Lemma packet_parts w pkt :
  u8_at w (p_pkt 0) 70 = Some pkt →
  packet_is w (default 0 (head pkt)) (sub 1 17 pkt) (sub 18 4 pkt) (sub 22 48 pkt).
Proof.
  unfold u8_at, load. destruct (m_u8 (w_mem w) !! 2%N) as [blk|] eqn:Eb; [|done].
  destruct (fits 0 70 blk) eqn:Hf; [|done]. intros [= <-]. apply fits_spec in Hf.
  assert (Hs : ∀ o n, 0 ≤ o → 0 ≤ n → o + n ≤ 70 → sub o n (sub 0 70 blk) = sub o n blk).
  { intros o n ? ? ?. unfold sub. rewrite drop_0, skipn_firstn_comm, take_take. f_equal. lia. }
  split; unfold u8_at, load; simpl; rewrite Eb.
  - rewrite (proj2 (fits_spec _ _ _)) by lia. destruct blk as [|x blk]; [unfold zlen in *; simpl in *; lia|done].
  - rewrite (proj2 (fits_spec _ _ _)) by lia. by rewrite Hs by lia.
  - rewrite (proj2 (fits_spec _ _ _)) by lia. by rewrite Hs by lia.
  - rewrite (proj2 (fits_spec _ _ _)) by lia. by rewrite Hs by lia.
Qed.

Lemma local_keys side l r :
  keys_initial V1 ik_suite ik_algo test_dcid side = (l, r) →
  header (local (initial_entry side)) = RustlsHeaderKey l.1 ∧
  packet (local (initial_entry side)) = RustlsPacketKey l.2 ∧ last_local_pn (initial_entry side) = None.
Proof. intros E. unfold initial_entry. rewrite E. by destruct l. Qed.

(** A packet sealed by the keys [l]: what the mask and the cipher did. *)
Record sealed_by (l : hkey * pkey) (b' : Z) (pn' ct tag : bytes) : Prop := {
  sb_cipher : pkey_encrypt_in_place l.2 0 plain_header (replicate 32 0) = (ct, inr tag);
  sb_tag : zlen tag = 16;
  sb_mask : hkey_encrypt_in_place l.1 (sub 0 16 (ct ++ tag)) 0xC3 (replicate 4 0) = ((b', pn'), inr tt);
}.

(** The locals laid out, before the packet is sealed. *)
Lemma layout_ok w z1 z2 :
  u8_at w (p_pkt 0) 70 = Some z1 → u8_at w p_header 22 = Some z2 →
  ∃ w', (∀ A (k : prog world A), (write_u8 (p_pkt 0) plain_packet;; write_u8 p_header plain_header;; k) w = k w') ∧
    packet_is w' 0xC3 plain_mid (replicate 4 0) (replicate 48 0) ∧ u8_at w' p_header 22 = Some plain_header ∧
    w_keys w' = w_keys w ∧ u8_at w' (Ptr 4 0) 1 = u8_at w (Ptr 4 0) 1.
Proof.
  intros Hz1 Hz2. destruct (store_load _ _ _ _ plain_packet Hz1) as (h1 & S1 & L1); [done|].
  pose proof (load_store_other _ _ p_header 22 _ _ S1 ltac:(by intros ? ? ? [= <- <-])) as Hh.
  unfold u8_at in Hz2. rewrite Hz2 in Hh. destruct (store_load _ _ _ _ plain_header Hh) as (h2 & S2 & L2); [done|].
  set (w2 := set_mem (set_u8 h2 (w_mem w)) w). exists w2.
  assert (H2 : ∀ q n, (∀ o, q ≠ Ptr 3 o) → u8_at w2 q n = load h1 q n).
  { intros q n Hq. apply (load_store_other _ _ _ _ _ _ S2). intros b o o' [= <- <-]. apply Hq. }
  split_and!; [|apply (packet_parts w2 plain_packet); by rewrite H2|done|done|].
  - intros A k. rewrite (bind_Ret _ _ _ _ _ (write_u8_ok w _ _ h1 S1)).
    exact (bind_Ret _ _ _ _ _ (write_u8_ok (set_mem (set_u8 h1 (w_mem w)) w) _ _ h2 S2)).
  - rewrite H2 by done. apply (load_store_other _ _ _ _ _ _ S1). by intros ? ? ? [= <- <-].
Qed.

Lemma test_packet_sealed h side l r w z1 z2 :
  keys_initial V1 ik_suite ik_algo test_dcid side = (l, r) → w_keys w !! h = Some (initial_entry side) →
  u8_at w (p_pkt 0) 70 = Some z1 → u8_at w p_header 22 = Some z2 →
  ∃ b' pn' ct tag w', make_test_initial_packet h w = Ret 18 w' ∧ sealed_by l b' pn' ct tag ∧
    packet_is w' b' plain_mid pn' (ct ++ tag) ∧
    w_keys w' = <[h := set_last_pn (initial_entry side) 0]> (w_keys w) ∧
    u8_at w' (Ptr 4 0) 1 = u8_at w (Ptr 4 0) 1.
Proof.
  intros Hi He Hz1 Hz2. destruct (layout_ok w z1 z2 Hz1 Hz2) as (w2 & E2 & [P0 P1 P2 P3] & Hh & K2 & F2).
  destruct (ik_seals _ _ _ _ 0 plain_header (replicate 32 0) Hi) as (ct & tag & Hc & Ht).
  destruct (local_keys _ _ _ Hi) as (Hhk & Hpk & Hlast).
  destruct (local_encrypt_ok w2 h (initial_entry side) l.2 0 p_header 22 (p_pkt 22) 32 48 plain_header
    (replicate 48 0) ct tag) as (w3 & E3 & L3 & K3 & T3); try done; try lia; [by rewrite K2|by unfold pn_reused; rewrite Hlast|].
  assert (Hcl : zlen ct = 32) by (by apply encrypt_length in Hc as [Hc _]).
  rewrite Ht in L3, T3, E3. change (32 + 16) with 48 in *.
  assert (Hs : u8_at w3 (p_pkt 22) 16 = Some (sub 0 16 (ct ++ tag))) by (apply (load_prefix _ _ 48); [done|lia]).
  destruct (ik_masks _ _ _ _ (sub 0 16 (ct ++ tag)) 0xC3 (replicate 4 0) Hi) as (b' & pn' & Hm);
    [apply (load_length _ _ _ _ Hs)|].
  assert (Hpl : zlen pn' = 4) by (by apply hp_length in Hm).
  destruct (header_in_place_ok "rlsm_keys_local_header_protect" "protect"
    (λ entry, header_encrypt_in_place (header (local entry))) w3 h (set_last_pn (initial_entry side) 0)
    (p_pkt 22) 16 (p_pkt 0) (p_pkt 18) 4 (sub 0 16 (ct ++ tag)) 0xC3 (replicate 4 0) b' pn')
    as (w4 & E4 & F4 & N4 & K4 & T4); try done; try (simpl; lia).
  { rewrite K3. apply lookup_insert_eq. }
  { rewrite (touched_u8 _ _ _ _ T3); [done|simpl; lia]. }
  { rewrite (touched_u8 _ _ _ _ T3); [done|simpl; lia]. }
  { cbn [local set_last_pn]. by rewrite Hhk. }
  assert (A4 : ∀ q n, apart (p_pkt 0) 1 q n → apart (p_pkt 18) 4 q n → apart (p_pkt 22) 48 q n → u8_at w4 q n = u8_at w2 q n)
    by (intros; rewrite T4 by done; by apply (touched_u8 _ _ _ _ T3)).
  exists b', pn', ct, tag, w4. split_and!; [|done| |by rewrite K4, K3, K2|by rewrite A4, F2 by (simpl; lia)].
  - unfold make_test_initial_packet. rewrite E2, (bind_Ret _ _ _ _ _ E3), assert_pass.
    by rewrite (bind_Ret _ _ _ _ _ E4).
  - split; [done|by rewrite A4 by (simpl; lia)|done|by rewrite T4 by (simpl; lia)].
Qed.

Lemma unprotect_ok h e k w b' mid pn' body x b pn :
  w_keys w !! h = Some e → header (remote e) = RustlsHeaderKey k →
  packet_is w b' mid pn' body → u8_at w (Ptr 4 0) 1 = Some [x] →
  hkey_decrypt_in_place k (sub 0 16 body) b' pn' = ((b, pn), inr tt) → zlen pn = 4 →
  ∃ w', unprotect_one h 18 w = Ret 1 w' ∧ packet_is w' b mid pn body ∧ w_keys w' = w_keys w ∧
    u8_at w' (Ptr 4 0) 1 = Some [b] ∧ load (m_i32 (w_mem w')) (Ptr 3 0) 1 = Some [Z.land b 3 + 1] ∧
    load (m_i32 (w_mem w')) (Ptr 1 0) 1 = Some [70] ∧ m_ptr (w_mem w') = {[ 1%N := [p_pkt 0] ]}.
Proof.
  intros He Hk [P0 P1 P2 P3] Hx Hd Hz. unfold u8_at in *.
  destruct (store_load _ _ 1 _ [b] P0 eq_refl) as (h1 & S1 & L1).
  assert (A1 : ∀ q n, apart (p_pkt 0) 1 q n → load h1 q n = load (m_u8 (w_mem w)) q n)
    by (intros; by eapply load_store_apart).
  destruct (store_load h1 (p_pkt 18) 4 pn' pn) as (h2 & S2 & L2); [by rewrite A1 by (simpl; lia)|done|].
  assert (A2 : ∀ q n, apart (p_pkt 18) 4 q n → load h2 q n = load h1 q n)
    by (intros; eapply load_store_apart; [done|by rewrite Hz]).
  destruct (store_load h2 (Ptr 4 0) 1 [x] [b]) as (h3 & S3 & L3);
    [by rewrite A2, A1 by (simpl; lia)|done|].
  assert (A3 : ∀ q n, apart (Ptr 4 0) 1 q n → load h3 q n = load h2 q n)
    by (intros; by eapply load_store_apart).
  destruct (store_load {[ 1%N := [70]; 2%N := [18]; 3%N := [0] ]} (Ptr 3 0) 1 [0] [Z.land b 3 + 1])
    as (h4 & S4 & L4); [done|done|].
  eexists. unfold unprotect_one, rlsm_keys_batch_header_unprotect. run. pass_guards. cbn [is_null orb].
  change (Z.to_nat (as_usize 1)) with 1%nat.
  rewrite (with_Some keys_table h _ _ e) by done. unfold for_loop, batch_unprotect_one. run. rewrite !ptr_add_0.
  rewrite (read_ptr_ok _ _ (p_pkt 0)) by done. rewrite (read_i32_ok _ _ 70) by done.
  rewrite (read_i32_ok _ _ 18) by done. change (as_usize 70) with 70. change (as_usize 18) with 18.
  change (usize_add (usize_add 18 4) 16) with 38. change (usize_add 18 4) with 22.
  change (70 <? 38) with false. cbn [is_null orb ptr_add]. change (0 + 22) with 22. change (0 + 18) with 18.
  rewrite (read_u8_ok _ (p_pkt 22) 16 (sub 0 16 body)) by (apply (load_prefix _ _ 48); [done|lia]).
  rewrite (read_u8_ok _ (p_pkt 0) 1 [b']) by done. rewrite (read_u8_ok _ (p_pkt 18) 4 pn') by done.
  change (default 0 (head [b'])) with b'. rewrite Hk. cbn [header_decrypt_in_place]. rewrite Hd.
  rewrite (write_u8_ok _ _ _ h1) by done. rewrite (write_u8_ok _ _ _ h2) by done.
  rewrite (write_u8_ok _ _ _ h3) by done. rewrite (write_i32_ok _ _ _ h4) by done.
  split; [done|]. split_and!; try done.
  - split; (match goal with |- u8_at _ ?q ?n = ?r => change (load h3 q n = r) end); rewrite A3 by (simpl; lia).
    + by rewrite A2 by (simpl; lia).
    + by rewrite A2, A1 by (simpl; lia).
    + done.
    + by rewrite A2, A1 by (simpl; lia).
  - change (load h4 (Ptr 1 0) 1 = Some [70]). rewrite (load_store_apart _ _ (Ptr 1 0) 1 _ _ S4); [done|simpl; lia].
Qed.

Lemma decrypt_ok h e k w b mid pn body hdr out pt :
  w_keys w !! h = Some e → packet (remote e) = RustlsPacketKey k → packet_is w b mid pn body →
  [b] ++ mid ++ pn = hdr → zlen hdr = 22 →
  load (m_i32 (w_mem w)) (Ptr 1 0) 1 = Some [70] → m_ptr (w_mem w) = {[ 1%N := [p_pkt 0] ]} →
  pkey_decrypt_in_place k 0 hdr body = (out, inr pt) → zlen out = 48 → zlen pt = 32 →
  ∃ w', decrypt_one h 22 w = Ret 1 w' ∧ w_keys w' = w_keys w ∧
    load (m_i32 (w_mem w')) (Ptr 5 0) 1 = Some [32] ∧ u8_at w' (p_pkt 22) 48 = Some out.
Proof.
  intros He Hk [P0 P1 P2 P3] Hh Hz H70 Hp Hd Ho Hpt. unfold u8_at in *.
  destruct (store_load _ _ 48 _ out P3 Ho) as (h1 & S1 & L1).
  assert (Hhdr : load (m_u8 (w_mem w)) (p_pkt 0) 22 = Some hdr).
  { rewrite <- Hh. apply (load_app _ (p_pkt 0) 1 21); [done|]. by apply (load_app _ (p_pkt 1) 17 4). }
  set (m := decrypt_locals 22 w).
  assert (E70 : load (m_i32 (w_mem m)) (Ptr 1 0) 1 = Some [70]).
  { rewrite <- H70. unfold m, load. simpl. by rewrite !lookup_insert_ne. }
  destruct (store_load (m_i32 (w_mem m)) (Ptr 5 0) 1 [0] [32]) as (h2 & S2 & L2);
    [unfold m, load; simpl; by rewrite lookup_insert_ne, lookup_insert_eq|done|].
  eexists. unfold decrypt_one, rlsm_keys_batch_decrypt. run. pass_guards. cbn [is_null orb].
  change (Z.to_nat (as_usize 1)) with 1%nat.
  rewrite (with_mut_Some keys_table h _ _ e) by done. unfold for_loop, batch_decrypt_one. run. rewrite !ptr_add_0.
  rewrite (read_ptr_ok _ _ (p_pkt 0)) by (cbn [w_mem set_error m_ptr m decrypt_locals set_mem]; by rewrite Hp).
  rewrite (read_i32_ok _ _ 70) by exact E70.
  rewrite (read_i32_ok _ _ 22) by (unfold load; simpl; by rewrite lookup_insert_eq).
  rewrite (read_u64_ok _ _ 0) by done. change (as_usize 70) with 70. change (as_usize 22) with 22.
  change (70 <=? 22) with false. cbn [is_null orb ptr_add]. change (0 + 22) with 22. change (70 - 22) with 48.
  rewrite (read_u8_ok _ (p_pkt 0) 22 hdr) by done. rewrite (read_u8_ok _ (p_pkt 22) 48 body) by done.
  rewrite Hk. cbn [packet_decrypt_in_place]. rewrite Hd. rewrite (write_u8_ok _ _ _ h1) by done.
  rewrite Hpt. change (as_i32 32) with 32.
  rewrite (write_i32_ok _ _ _ h2) by done. split; [done|]. split_and!; [|done|done].
  simpl. by apply insert_id.
Qed.

(** The batch calls on the one packet of the test. *)
Lemma batch_encrypt_ok h e k w ct tag :
  w_keys w !! h = Some e → packet (local e) = RustlsPacketKey k → last_local_pn e = None →
  w_mem w = set_u8 (<[2%N := plain_packet]> (m_u8 seal_memory)) seal_memory →
  pkey_encrypt_in_place k 0 plain_header (replicate 32 0) = (ct, inr tag) → zlen tag = 16 →
  ∃ w', rlsm_keys_batch_encrypt h 1 (Ptr 1 0) (Ptr 1 0) (Ptr 1 0) (Ptr 2 0) (Ptr 3 0) (Ptr 4 0) w = Ret 1 w' ∧
    packet_is w' 0xC3 plain_mid (replicate 4 0) (ct ++ tag) ∧ w_keys w' = <[h := set_last_pn e 0]> (w_keys w) ∧
    m_i32 (w_mem w') = <[4%N := [48]]> (m_i32 seal_memory) ∧ m_ptr (w_mem w') = m_ptr seal_memory.
Proof.
  intros He Hk Hn Hm Hc Ht. destruct (encrypt_length _ _ _ _ _ _ Hc) as [Hl _].
  rewrite zlen_replicate in Hl. change (Z.of_nat 32) with 32 in Hl.
  assert (L0 : load (m_u8 (w_mem w)) (p_pkt 22) 32 = Some (replicate 32 0)) by (by rewrite Hm).
  assert (L1 : load (m_u8 (w_mem w)) (p_pkt 54) 16 = Some (replicate 16 0)) by (by rewrite Hm).
  destruct (store_load _ _ _ _ ct L0 Hl) as (h1 & S1 & C1).
  assert (A1 : ∀ q n, apart (p_pkt 22) 32 q n → load h1 q n = load (m_u8 (w_mem w)) q n)
    by (intros; eapply load_store_apart; [done|by rewrite Hl]).
  destruct (store_load h1 (p_pkt 54) 16 (replicate 16 0) tag) as (h2 & S2 & C2); [by rewrite A1 by (simpl; lia)|done|].
  assert (A2 : ∀ q n, apart (p_pkt 54) 16 q n → load h2 q n = load h1 q n)
    by (intros; eapply load_store_apart; [done|by rewrite Ht]).
  eexists. unfold rlsm_keys_batch_encrypt. run. pass_guards. cbn [is_null orb].
  change (Z.to_nat (as_usize 1)) with 1%nat. rewrite (with_mut_Some keys_table h _ _ e) by done.
  unfold for_loop, batch_encrypt_one. run. rewrite !ptr_add_0.
  rewrite (read_ptr_ok _ _ (p_pkt 0)) by (cbn [w_mem set_error]; by rewrite Hm).
  rewrite (read_i32_ok _ _ 22) by (cbn [w_mem set_error]; by rewrite Hm).
  rewrite (read_i32_ok _ _ 32) by (cbn [w_mem set_error]; by rewrite Hm).
  rewrite (read_i32_ok _ _ 48) by (cbn [w_mem set_error]; by rewrite Hm).
  rewrite (read_u64_ok _ _ 0) by (cbn [w_mem set_error]; by rewrite Hm).
  change (as_usize 22) with 22. change (as_usize 32) with 32. change (as_usize 48) with 48.
  change (48 <? 32) with false. cbn [is_null orb ptr_add]. change (0 + 22) with 22. change (22 + 32) with 54.
  unfold pn_reused. rewrite Hn.
  rewrite (read_u8_ok _ (p_pkt 0) 22 plain_header) by (cbn [w_mem set_error]; by rewrite Hm).
  rewrite (read_u8_ok _ (p_pkt 22) 48 (replicate 48 0)) by (cbn [w_mem set_error]; by rewrite Hm).
  rewrite Hk. unfold packet_encrypt_in_place. change (sub 0 32 (replicate 48 0)) with (replicate 32 0).
  rewrite Hc. rewrite (write_u8_ok _ _ _ h1) by done. rewrite Ht. change (32 + 16) with 48.
  change (48 <? 48) with false. cbv beta iota. rewrite (write_u8_ok _ _ _ h2) by done.
  change (as_i32 48) with 48.
  rewrite (write_i32_ok _ _ _ (<[4%N := [48]]> (m_i32 seal_memory))) by (cbn [w_mem set_mem set_error set_u8 m_i32]; by rewrite Hm).
  split; [done|]. split_and!; [|done|done|simpl; by rewrite Hm].
  split; (match goal with |- u8_at _ ?q ?n = ?r => change (load h2 q n = r) end).
  - rewrite A2, A1, Hm by (simpl; lia). done.
  - rewrite A2, A1, Hm by (simpl; lia). done.
  - rewrite A2, A1, Hm by (simpl; lia). done.
  - apply (load_app _ (p_pkt 22) 32 16); [|done]. by rewrite A2 by (simpl; lia).
Qed.

Lemma batch_protect_ok h e k w mid body b' pn' :
  w_keys w !! h = Some e → header (local e) = RustlsHeaderKey k →
  packet_is w 0xC3 mid (replicate 4 0) body →
  m_i32 (w_mem w) = <[4%N := [48]]> (m_i32 seal_memory) → m_ptr (w_mem w) = m_ptr seal_memory →
  hkey_encrypt_in_place k (sub 0 16 body) 0xC3 (replicate 4 0) = ((b', pn'), inr tt) →
  ∃ w', rlsm_keys_batch_header_protect h 1 (Ptr 1 0) (Ptr 5 0) (Ptr 6 0) (Ptr 7 0) (Ptr 8 0) w = Ret 1 w' ∧
    packet_is w' b' mid pn' body ∧ w_keys w' = w_keys w ∧ load (m_i32 (w_mem w')) (Ptr 8 0) 1 = Some [0].
Proof.
  intros He Hk [P0 P1 P2 P3] Hi Hp Hm. unfold u8_at in *.
  assert (Hz : zlen pn' = 4) by (by apply hp_length in Hm).
  destruct (store_load _ _ 1 _ [b'] P0 eq_refl) as (h1 & S1 & C1).
  assert (A1 : ∀ q n, apart (p_pkt 0) 1 q n → load h1 q n = load (m_u8 (w_mem w)) q n)
    by (intros; by eapply load_store_apart).
  destruct (store_load h1 (p_pkt 18) 4 (replicate 4 0) pn') as (h2 & S2 & C2); [by rewrite A1 by (simpl; lia)|done|].
  assert (A2 : ∀ q n, apart (p_pkt 18) 4 q n → load h2 q n = load h1 q n)
    by (intros; eapply load_store_apart; [done|by rewrite Hz]).
  eexists. unfold rlsm_keys_batch_header_protect. run. pass_guards. cbn [is_null orb].
  change (Z.to_nat (as_usize 1)) with 1%nat. rewrite (with_Some keys_table h _ _ e) by done.
  unfold for_loop, batch_protect_one. run. rewrite !ptr_add_0.
  rewrite (read_ptr_ok _ _ (p_pkt 0)) by (cbn [w_mem set_error]; by rewrite Hp).
  rewrite (read_i32_ok _ _ 70) by (cbn [w_mem set_error]; by rewrite Hi).
  rewrite (read_i32_ok _ _ 18) by (cbn [w_mem set_error]; by rewrite Hi).
  rewrite (read_i32_ok _ _ 4) by (cbn [w_mem set_error]; by rewrite Hi).
  change (as_usize 70) with 70. change (as_usize 18) with 18. change (as_usize 4) with 4.
  change (usize_add (usize_add 18 4) 16) with 38. change (usize_add 18 4) with 22.
  change (70 <? 38) with false. change (4 =? 0) with false. change (4 <? 4) with false.
  cbn [is_null orb ptr_add]. change (0 + 22) with 22. change (0 + 18) with 18.
  rewrite (read_u8_ok _ (p_pkt 22) 16 (sub 0 16 body)) by (apply (load_prefix _ _ 48); [done|lia]).
  rewrite (read_u8_ok _ (p_pkt 0) 1 [0xC3]) by done. rewrite (read_u8_ok _ (p_pkt 18) 4 (replicate 4 0)) by done.
  change (default 0 (head [0xC3])) with 0xC3. rewrite Hk. cbn [header_encrypt_in_place]. rewrite Hm.
  rewrite (write_u8_ok _ _ _ h1) by done. rewrite (write_u8_ok _ _ _ h2) by done.
  rewrite (write_i32_ok _ _ _ (<[8%N := [0]]> (<[4%N := [48]]> (m_i32 seal_memory))))
    by (cbn [w_mem set_mem set_error set_u8 m_i32]; by rewrite Hi).
  split; [done|]. split_and!; [|done|done].
  split; (match goal with |- u8_at _ ?q ?n = ?r => change (load h2 q n = r) end).
  - by rewrite A2 by (simpl; lia).
  - by rewrite A2, A1 by (simpl; lia).
  - done.
  - by rewrite A2, A1 by (simpl; lia).
Qed.

(** Freeing two handles ends a test. *)
Lemma free_two h h' w e e' : h ≠ h' → w_keys w !! h = Some e → w_keys w !! h' = Some e' →
  ∃ w', (rlsm_keys_free h;; rlsm_keys_free h';; mret tt) w = Ret tt w'.
Proof.
  intros Hne He He'. unfold rlsm_keys_free. run. rewrite !remove_eq. simpl. rewrite He. simpl.
  rewrite lookup_delete_ne by done. rewrite He'. by eexists.
Qed.

Lemma entry_keys side l r :
  keys_initial V1 ik_suite ik_algo test_dcid side = (l, r) →
  header (remote (initial_entry side)) = RustlsHeaderKey r.1 ∧ packet (remote (initial_entry side)) = RustlsPacketKey r.2.
Proof. intros E. unfold initial_entry. rewrite E. by destruct r. Qed.

(** Sealed on one side, unprotected on the other. *)
Lemma seal_unprotect_ok s o side side' w z1 z2 x :
  side ≠ side' → s ≠ o → w_keys w !! s = Some (initial_entry side) → w_keys w !! o = Some (initial_entry side') →
  u8_at w (p_pkt 0) 70 = Some z1 → u8_at w p_header 22 = Some z2 → u8_at w (Ptr 4 0) 1 = Some [x] →
  ∃ w1 w2 ct tag k k',
    make_test_initial_packet s w = Ret 18 w1 ∧ unprotect_one o 18 w1 = Ret 1 w2 ∧
    packet (remote (initial_entry side')) = RustlsPacketKey k' ∧ peer_pkey k k' ∧
    pkey_encrypt_in_place k 0 plain_header (replicate 32 0) = (ct, inr tag) ∧ zlen tag = 16 ∧
    packet_is w2 0xC3 plain_mid (replicate 4 0) (ct ++ tag) ∧
    w_keys w2 = <[s := set_last_pn (initial_entry side) 0]> (w_keys w) ∧
    u8_at w2 (Ptr 4 0) 1 = Some [0xC3] ∧ load (m_i32 (w_mem w2)) (Ptr 3 0) 1 = Some [4] ∧
    load (m_i32 (w_mem w2)) (Ptr 1 0) 1 = Some [70] ∧ m_ptr (w_mem w2) = {[ 1%N := [p_pkt 0] ]}.
Proof.
  intros Hside Hne Hs Ho Hz1 Hz2 Hx.
  destruct (keys_initial V1 ik_suite ik_algo test_dcid side) as [l r] eqn:Ei.
  destruct (keys_initial V1 ik_suite ik_algo test_dcid side') as [l' r'] eqn:Ei'.
  destruct (ik_peers _ _ _ _ _ _ _ Hside Ei Ei') as [Hph Hpp]. destruct (entry_keys _ _ _ Ei') as [Hhk Hpk].
  destruct (test_packet_sealed s side l r w z1 z2 Ei Hs Hz1 Hz2) as (b' & pn' & ct & tag & w1 & E1 & [C1 C2 C3] & P1 & K1 & F1).
  assert (Hpn : zlen pn' = 4) by (by apply hp_length in C3).
  pose proof (hp_decrypt_encrypt _ _ _ _ _ _ _ [] Hph C3 eq_refl eq_refl) as Hd. rewrite !app_nil_r in Hd.
  destruct (unprotect_ok o (initial_entry side') r'.1 w1 b' plain_mid pn' (ct ++ tag) x 0xC3 (replicate 4 0))
    as (w2 & E2 & P2 & K2 & F2 & I3 & I1 & Q); try done.
  { by rewrite K1, lookup_insert_ne by done. }
  { by rewrite F1. }
  exists w1, w2, ct, tag, l.2, r'.2. split_and!; try done. by rewrite K2.
Qed.

Lemma open_batch_ok s o side side' first second w z1 z2 x :
  side ≠ side' → s ≠ o → first = s ∧ second = o ∨ first = o ∧ second = s →
  w_keys w !! s = Some (initial_entry side) → w_keys w !! o = Some (initial_entry side') →
  u8_at w (p_pkt 0) 70 = Some z1 → u8_at w p_header 22 = Some z2 → u8_at w (Ptr 4 0) 1 = Some [x] →
  ∃ w', open_batch s o first second w = Ret tt w'.
Proof.
  intros Hside Hne Hf Hs Ho Hz1 Hz2 Hx.
  destruct (seal_unprotect_ok s o side side' w z1 z2 x) as
    (w1 & w2 & ct & tag & k & k' & E1 & E2 & Hk & Hpp & C & Ht & P & K & F & I3 & I1 & Q); try done.
  destruct (decrypt_encrypt _ _ _ _ _ _ _ Hpp C) as (tl & Hd & Htl).
  destruct (decrypt_ok o (initial_entry side') k' w2 0xC3 plain_mid (replicate 4 0) (ct ++ tag) plain_header
    (replicate 32 0 ++ tl) (replicate 32 0)) as (w3 & E3 & K3 & I5 & _); try done.
  { by rewrite K, lookup_insert_ne. }
  { rewrite zlen_app, zlen_replicate. lia. }
  destruct (free_two first second w3 (if decide (first = s) then set_last_pn (initial_entry side) 0 else initial_entry side')
    (if decide (first = s) then initial_entry side' else set_last_pn (initial_entry side) 0)) as [w4 E4].
  { destruct Hf as [[-> ->]|[-> ->]]; done. }
  { rewrite K3, K. destruct Hf as [[-> ->]|[-> ->]]; case_decide; try done;
      [apply lookup_insert_eq|by rewrite lookup_insert_ne]. }
  { rewrite K3, K. destruct Hf as [[-> ->]|[-> ->]]; case_decide; try done;
      [by rewrite lookup_insert_ne|apply lookup_insert_eq]. }
  exists w4. unfold open_batch. rewrite (bind_Ret _ _ _ _ _ E1), (bind_Ret _ _ _ _ _ E2), assert_pass.
  rewrite (bind_Ret _ _ _ _ _ (read_i32_ok _ _ _ I3)). change (18 + 4) with 22.
  rewrite (bind_Ret _ _ _ _ _ E3), assert_pass, (bind_Ret _ _ _ _ _ (read_i32_ok _ _ _ I5)), assert_pass. done.
Qed.

Lemma make_initial_keys_ok c w :
  u8_at w p_dcid 8 = Some test_dcid → 0 < w_next w < i32_max →
  make_initial_keys c w =
  Ret (w_next w) (set_keys (<[w_next w := initial_entry (role c)]> (w_keys w))
                    (set_next (w_next w + 1) (set_error None w))).
Proof.
  intros Hd Hn. unfold make_initial_keys. rewrite (bind_Ret _ _ _ _ _ (initial_keys_ok c w Hd Hn)).
  by rewrite (proj2 (Z.ltb_lt 0 (w_next w))) by lia.
Qed.

Lemma unprotect_batch_ok s o side side' w z1 z2 x :
  side ≠ side' → s ≠ o → w_keys w !! s = Some (initial_entry side) → w_keys w !! o = Some (initial_entry side') →
  u8_at w (p_pkt 0) 70 = Some z1 → u8_at w p_header 22 = Some z2 → u8_at w (Ptr 4 0) 1 = Some [x] →
  ∃ w', unprotect_batch s o w = Ret tt w'.
Proof.
  intros Hside Hne Hs Ho Hz1 Hz2 Hx.
  destruct (seal_unprotect_ok s o side side' w z1 z2 x) as
    (w1 & w2 & ct & tag & k & k' & E1 & E2 & _ & _ & _ & _ & _ & K & F & I3 & _); try done.
  destruct (free_two s o w2 (set_last_pn (initial_entry side) 0) (initial_entry side')) as [w4 E4];
    [done|rewrite K; apply lookup_insert_eq|by rewrite K, lookup_insert_ne|].
  exists w4. unfold unprotect_batch. rewrite (bind_Ret _ _ _ _ _ E1), (bind_Ret _ _ _ _ _ E2), assert_pass.
  rewrite (bind_Ret _ _ _ _ _ (read_u8_ok _ _ _ _ F)).
  change (Z.land (default 0 (head [0xC3])) 0x80 =? 0x80) with true. rewrite assert_pass.
  by rewrite (bind_Ret _ _ _ _ _ (read_i32_ok _ _ _ I3)).
Qed.

(** The world after the keys of both sides were made. *)
Lemma two_keys_ok c w {A} (k : Z → Z → prog world A) :
  0 < w_next w → w_next w + 2 ≤ i32_max →
  ∃ w', (modify (set_mem test_memory);; h ← make_initial_keys c; h' ← make_initial_keys (negb c); k h h') w =
        k (w_next w) (w_next w + 1) w' ∧
    w_keys w' !! w_next w = Some (initial_entry (role c)) ∧
    w_keys w' !! (w_next w + 1) = Some (initial_entry (role (negb c))) ∧ w_mem w' = test_memory.
Proof.
  intros H1 H2. set (w1 := set_mem test_memory w).
  set (w2 := set_keys (<[w_next w := initial_entry (role c)]> (w_keys w)) (set_next (w_next w + 1) (set_error None w1))).
  exists (set_keys (<[w_next w + 1 := initial_entry (role (negb c))]> (w_keys w2))
            (set_next (w_next w + 1 + 1) (set_error None w2))).
  split; [|simpl; rewrite lookup_insert_ne, !lookup_insert_eq by lia; done].
  rewrite (bind_Ret (modify (set_mem test_memory)) _ w tt w1) by done.
  rewrite (bind_Ret _ _ _ _ _ (make_initial_keys_ok c w1 eq_refl ltac:(simpl; lia))).
  exact (bind_Ret _ _ _ _ _ (make_initial_keys_ok (negb c) w2 eq_refl ltac:(simpl; lia))).
Qed.

Lemma free_counter_ok w :
  0 < w_next w → w_next w + 2 ≤ i32_max → w_keys w !! (-99) = None →
  ∃ w', test_keys_free_counter_increments_and_resets w = Ret tt w'.
Proof.
  intros H1 H2 H99. unfold test_keys_free_counter_increments_and_resets.
  rewrite (bind_Ret (modify (set_mem test_memory)) _ w tt (set_mem test_memory w)) by done.
  rewrite (bind_Ret rlsm_test_keys_free_reset _ _ 0 (set_free_count 0 (set_mem test_memory w))) by done.
  rewrite (bind_Ret rlsm_test_keys_free_count _ _ 0 (set_free_count 0 (set_mem test_memory w))) by done. rewrite assert_pass.
  set (w1 := set_free_count 0 (set_mem test_memory w)).
  assert (E : ∃ w2, rlsm_keys_free (-99) w1 = Ret (-1) w2 ∧ w_next w2 = w_next w ∧ w_mem w2 = test_memory ∧ w_keys_free_count w2 = 0).
  { unfold rlsm_keys_free. run. rewrite remove_eq. simpl. rewrite H99. simpl. eexists. by split_and!. }
  destruct E as (w2 & E & N2 & M2 & C2). rewrite (bind_Ret _ _ _ _ _ E), assert_pass.
  rewrite (bind_Ret rlsm_test_keys_free_count _ w2 0 w2) by (unfold rlsm_test_keys_free_count, gets; by rewrite C2).
  rewrite assert_pass.
  rewrite (bind_Ret _ _ _ _ _ (initial_keys_ok true w2 ltac:(unfold u8_at; by rewrite M2) ltac:(lia))).
  rewrite (proj2 (Z.ltb_lt 0 _)) by lia. rewrite assert_pass.
  eexists. unfold rlsm_keys_free. run. rewrite remove_eq. simpl. rewrite lookup_insert_eq. cbv beta iota.
  unfold rlsm_test_keys_free_count, rlsm_test_keys_free_reset. run. simpl. rewrite C2. reflexivity.
Qed.

(** The tests of packet protection pass with any rustls whose Initial keys
    work, from any state of the process with two handles left: a packet sealed by
    the single calls of one side is opened by the batch calls of the other, in
    both directions, with the first byte, the packet number length and the
    plaintext length they expect; and the counter of freed keys counts the frees
    that succeed. *)
Theorem keys_tests_pass w :
  0 < w_next w → w_next w + 2 ≤ i32_max → w_keys w !! (-99) = None →
  (∃ w', test_batch_header_unprotect_single w = Ret tt w') ∧
  (∃ w', test_batch_decrypt_single w = Ret tt w') ∧
  (∃ w', test_batch_roundtrip w = Ret tt w') ∧
  (∃ w', test_keys_free_counter_increments_and_resets w = Ret tt w').
Proof.
  intros H1 H2 H99. split_and!.
  - destruct (two_keys_ok false w unprotect_batch H1 H2) as (w1 & E & K1 & K2 & M).
    unfold test_batch_header_unprotect_single. simpl negb in E. rewrite E.
    apply (unprotect_batch_ok _ _ ServerSide ClientSide _ (replicate 70 0) (replicate 22 0) 0); try done; try lia;
      unfold u8_at; by rewrite M.
  - destruct (two_keys_ok false w (λ s c, open_batch s c s c) H1 H2) as (w1 & E & K1 & K2 & M).
    unfold test_batch_decrypt_single. simpl negb in E. rewrite E.
    apply (open_batch_ok _ _ ServerSide ClientSide _ _ _ (replicate 70 0) (replicate 22 0) 0); try done; try lia;
      try (by left); unfold u8_at; by rewrite M.
  - destruct (two_keys_ok true w (λ s c, open_batch s c s c) H1 H2) as (w1 & E & K1 & K2 & M).
    unfold test_batch_roundtrip. simpl negb in E. rewrite E.
    apply (open_batch_ok _ _ ClientSide ServerSide _ _ _ (replicate 70 0) (replicate 22 0) 0); try done; try lia;
      try (by left); unfold u8_at; by rewrite M.
  - by apply free_counter_ok.
Qed.

(** The remaining test seals the packet with the batch calls. Everything in it
    passes, up to its last assertion: the first byte differs from 0xC3 exactly when
    the mask of this packet covers it. *)
Theorem batch_seal_tested w l r :
  0 < w_next w < i32_max → keys_initial V1 ik_suite ik_algo test_dcid ClientSide = (l, r) →
  ∃ b' pn' ct tag, sealed_by l b' pn' ct tag ∧
    (b' ≠ 0xC3 → ∃ w', test_batch_encrypt_and_protect w = Ret tt w') ∧
    (b' = 0xC3 → ∃ msg, test_batch_encrypt_and_protect w = Panic msg).
Proof.
  intros Hn Hi. set (w0 := set_mem seal_memory w).
  pose proof (make_initial_keys_ok true w0 eq_refl Hn) as E0.
  set (w1 := set_keys _ _) in E0. set (h := w_next w0) in *.
  set (w2 := set_mem (set_u8 (<[2%N := plain_packet]> (m_u8 seal_memory)) seal_memory) w1).
  destruct (ik_seals _ _ _ _ 0 plain_header (replicate 32 0) Hi) as (ct & tag & Hc & Ht).
  assert (He : w_keys w2 !! h = Some (initial_entry ClientSide)) by apply lookup_insert_eq.
  destruct (local_keys _ _ _ Hi) as (Hhk & Hpk & Hlast).
  destruct (batch_encrypt_ok h _ l.2 w2 ct tag He Hpk Hlast eq_refl Hc Ht) as (w3 & E3 & P3 & K3 & I3 & Q3).
  destruct (ik_masks _ _ _ _ (sub 0 16 (ct ++ tag)) 0xC3 (replicate 4 0) Hi) as (b' & pn' & Hm).
  { apply (load_length (m_u8 (w_mem w3)) (p_pkt 22)), (load_prefix _ _ 48); [apply P3|lia]. }
  destruct (batch_protect_ok h (set_last_pn (initial_entry ClientSide) 0) l.1 w3 plain_mid (ct ++ tag) b' pn')
    as (w4 & E4 & P4 & K4 & I4); try done.
  { rewrite K3. apply lookup_insert_eq. }
  assert (Hrun : test_batch_encrypt_and_protect w =
    (assert_ (negb (b' =? 0xC3)) "first byte should be masked after HP";; rlsm_keys_free h;; mret tt) w4).
  { unfold test_batch_encrypt_and_protect, batch_seal.
    rewrite (bind_Ret (modify (set_mem seal_memory)) _ w tt w0) by done. rewrite (bind_Ret _ _ _ _ _ E0).
    rewrite (bind_Ret _ _ _ _ _ (write_u8_ok w1 (p_pkt 0) plain_packet (<[2%N := plain_packet]> (m_u8 seal_memory)) eq_refl)).
    change (set_mem (set_u8 (<[2%N:=plain_packet]> (m_u8 seal_memory)) (w_mem w1)) w1) with w2.
    rewrite (bind_Ret _ _ _ _ _ E3), assert_pass.
    rewrite (bind_Ret _ _ _ _ _ (read_i32_ok w3 (Ptr 4 0) 48 ltac:(by rewrite I3))), assert_pass.
    rewrite (bind_Ret _ _ _ _ _ E4), assert_pass, (bind_Ret _ _ _ _ _ (read_i32_ok _ _ _ I4)), assert_pass.
    by rewrite (bind_Ret _ _ _ _ _ (read_u8_ok _ _ _ _ (is_first _ _ _ _ _ P4))). }
  exists b', pn', ct, tag. split_and!; [done| |].
  - intros Hb. rewrite Hrun, (proj2 (Z.eqb_neq _ _) Hb), assert_pass. unfold rlsm_keys_free. run.
    rewrite remove_eq. simpl. rewrite K4, K3, lookup_insert_eq. by eexists.
  - intros ->. rewrite Hrun. by eexists.
Qed.
End Facts.

(** The toy library has such keys. *)
#[export] Instance toy_initial_keys : InitialKeysWork toy toy_laws.
Proof.
  apply (Build_InitialKeysWork toy toy_laws tt tt eq_refl eq_refl).
  - by intros dcid [] [] l r l' r' Hne [= <- <-] [= <- <-].
  - intros dcid side l r pn hdr pt _. do 2 eexists. split; [reflexivity|apply zlen_replicate].
  - intros dcid side l r sample b pn _ _. do 2 eexists. reflexivity.
Qed.

Example keys_tests_pass_toy :
  ∃ w', test_batch_roundtrip (R:=toy) (boot (mem_of [])) = Ret tt w'.
Proof. by apply (keys_tests_pass (R:=toy) (boot (mem_of []))). Qed.
End KeysTests.
