(* ===== verification/Config.v ===== *)
(** * TLS configurations behind handles

    Models [src/crates/librustls-mojo/src/config.rs] and the configuration
    builder of [tcp.rs]: client and server configurations, the ALPN list in
    wire format, and release. A configuration is shared by [Arc] with the
    connections made from it, which decides whether it can still be changed. *)

From S2P Require Import Prelude Effects Handles Rustls World.
Import Effects Handles Rustls World.

Module Config.

Section Config.
Context {R : Rustls}.

(** [Arc::new]: a fresh allocation. *)
Definition arc_new {A} (a : A) : prog world (Arc A) :=
  id ← gets w_next_arc;
  modify (set_next_arc (id + 1)%N);;
  mret (mkArc id a).

(** The connections that still hold an allocation. *)
Definition conn_holds (c : TlsConn) (id : N) : bool :=
  match c with
  | TlsClient c => client_holds c id
  | TlsServer s => server_holds s id
  end.

Definition arc_held (w : world) (id : N) : bool :=
  existsb (λ p, conn_holds p.2 id) (map_to_list (w_conn w)).

Definition _insert_client_config (cfg : Arc client_config) : prog world Z :=
  o ← insert config_table (ConfigClient cfg);
  match o with
  | Some h => mret h
  | None => rlsm_err "_insert_client_config: handle counter exhausted" (-1)
  end.

Definition get_client_config (handle : Z) : prog world (option (Arc client_config)) :=
  o ← with_ config_table handle (λ entry,
    match entry with
    | ConfigClient cfg => mret (Some cfg)
    | ConfigServer _ => mret None
    end);
  mret (mjoin o).

Definition get_server_config (handle : Z) : prog world (option (Arc server_config)) :=
  o ← with_ config_table handle (λ entry,
    match entry with
    | ConfigServer cfg => mret (Some cfg)
    | ConfigClient _ => mret None
    end);
  mret (mjoin o).

Definition rlsm_client_config_new : prog world Z :=
  clear_last_error;;
  let config := client_config_set_key_log (client_config_build false root_store_webpki) in
  arc ← arc_new config;
  o ← insert config_table (ConfigClient arc);
  match o with
  | Some h => mret h
  | None => rlsm_err "rlsm_client_config_new: handle counter exhausted" (-1)
  end.

(** [struct NoCertVerifier] of tcp.rs: any certificate chain is accepted, signatures are
    checked by the provider. *)
Definition NoCertVerifier : ServerCertVerifier cert server_name digitally_signed signature_scheme error :=
  let algorithms := signature_verification_algorithms aws_lc_rs_provider in
  {| verify_server_cert := λ _end_entity _intermediates _server_name _ocsp_response _now, inr tt;
     verify_tls12_signature := λ message cert dss, crypto_verify_tls12_signature message cert dss algorithms;
     verify_tls13_signature := λ message cert dss, crypto_verify_tls13_signature message cert dss algorithms;
     supported_verify_schemes := supported_schemes algorithms |}.

(** The [insecure] builder of tcp.rs: no certificate verification and no
    session resumption. *)
Definition rlsm_client_config_new_insecure : prog world Z :=
  clear_last_error;;
  let config := client_config_disable_resumption (client_config_build_dangerous false aws_lc_rs_provider NoCertVerifier) in
  arc ← arc_new config;
  _insert_client_config arc.

Definition rlsm_server_config_new (cert_pem : ptr) (cert_len : Z) (key_pem : ptr)
    (key_len : Z) : prog world Z :=
  clear_last_error;;
  if is_null cert_pem then rlsm_err "rlsm_server_config_new: null cert_pem pointer" (-1)
  else if is_null key_pem then rlsm_err "rlsm_server_config_new: null key_pem pointer" (-1)
  else if cert_len <? 0 then rlsm_err "rlsm_server_config_new: negative cert_len" (-1)
  else if key_len <? 0 then rlsm_err "rlsm_server_config_new: negative key_len" (-1)
  else
    cert_bytes ← read_u8 cert_pem (as_usize cert_len);
    key_bytes ← read_u8 key_pem (as_usize key_len);
    match pem_certs cert_bytes with
    | inl e =>
        set_last_error ("rlsm_server_config_new: failed to parse cert PEM: "
                          +:+ io_error_display e);;
        mret (-1)
    | inr [] =>
        rlsm_err "rlsm_server_config_new: no certificates found in cert_pem" (-1)
    | inr certs =>
        match pem_private_key key_bytes with
        | inr None =>
            rlsm_err "rlsm_server_config_new: no private key found in key_pem" (-1)
        | inl e =>
            set_last_error ("rlsm_server_config_new: failed to parse key PEM: "
                              +:+ io_error_display e);;
            mret (-1)
        | inr (Some key) =>
            match server_config_build false certs key with
            | inl e =>
                set_last_error ("rlsm_server_config_new: failed to build server config: "
                                  +:+ error_display e);;
                mret (-1)
            | inr cfg =>
                let config := server_config_set_key_log cfg in
                arc ← arc_new config;
                o ← insert config_table (ConfigServer arc);
                match o with
                | Some h => mret h
                | None => rlsm_err "rlsm_server_config_new: handle counter exhausted" (-1)
                end
            end
        end
    end.

Definition rlsm_config_free (handle : Z) : prog world Z :=
  clear_last_error;;
  o ← remove config_table handle;
  match o with
  | Some _ => mret 0
  | None => rlsm_err "rlsm_config_free: invalid config handle" (-1)
  end.

(** ** ALPN *)

(** The [while pos < raw.len()] loop. [Some None]: a truncated entry;
    [None]: out of fuel. *)
Fixpoint alpn_loop (fuel : nat) (raw : bytes) (pos : Z) (alpn_list : list bytes)
  : option (option (list bytes)) :=
  if pos <? zlen raw then
    match fuel with
    | O => None
    | S fuel' =>
        let proto_len := default 0 (raw !! Z.to_nat pos) in
        let pos := pos + 1 in
        if zlen raw <? pos + proto_len then Some None
        else alpn_loop fuel' raw (pos + proto_len)
               (alpn_list ++ [sub pos proto_len raw])
    end
  else Some (Some alpn_list).

(** Every turn moves [pos] by at least one. *)
Definition parse_alpn (raw : bytes) : option (option (list bytes)) :=
  alpn_loop (length raw) raw 0 [].

Definition alpn_shared_msg : string :=
  "rlsm_config_set_alpn_protocols: config already shared (connection created?)".

Definition rlsm_config_set_alpn_protocols (config_handle : Z) (protocols : ptr)
    (protocols_len : Z) : prog world Z :=
  clear_last_error;;
  if is_null protocols then
    rlsm_err "rlsm_config_set_alpn_protocols: null protocols pointer" (-1)
  else if protocols_len <? 0 then
    rlsm_err "rlsm_config_set_alpn_protocols: negative protocols_len" (-1)
  else
    raw ← read_u8 protocols (as_usize protocols_len);
    match parse_alpn raw with
    | None => no_fuel
    | Some None => rlsm_err "rlsm_config_set_alpn_protocols: truncated protocol entry" (-1)
    | Some (Some alpn_list) =>
        r ← with_mut config_table config_handle (λ entry,
          match entry with
          | ConfigClient arc =>
              held ← gets (λ w, arc_held w (arc_id arc));
              if negb held then
                mret (ConfigClient (mkArc (arc_id arc)
                        (client_config_set_alpn (arc_val arc) alpn_list)), 0)
              else (set_last_error alpn_shared_msg;; mret (entry, -1))
          | ConfigServer arc =>
              held ← gets (λ w, arc_held w (arc_id arc));
              if negb held then
                mret (ConfigServer (mkArc (arc_id arc)
                        (server_config_set_alpn (arc_val arc) alpn_list)), 0)
              else (set_last_error alpn_shared_msg;; mret (entry, -1))
          end);
        match r with
        | Some n => mret n
        | None => rlsm_err "rlsm_config_set_alpn_protocols: invalid config handle" (-1)
        end
    end.
End Config.
End Config.
