(* ===== verification/ConfigFacts.v ===== *)
(** * Properties of configurations

    The ALPN wire format against its encoder, and when a configuration can
    still be changed. *)

From S2P Require Import Prelude Effects Handles Rustls World Frames Toy QuicKeysFacts Config.
Import Effects Handles Rustls World Frames Toy QuicKeysFacts Config.

Module ConfigFacts.

(** ** The ALPN list *)

(** The wire format the callers write: a length byte before each name. *)
Definition encode_alpn (l : list bytes) : bytes := mjoin ((λ p, zlen p :: p) <$> l).

Definition alpn_names (l : list bytes) : Prop := Forall (λ p, zlen p ≤ 255) l.

Lemma encode_alpn_cons p l : encode_alpn (p :: l) = zlen p :: p ++ encode_alpn l.
Proof. done. Qed.

Lemma lookup_zlen {A} (k : list A) x l : (k ++ x :: l) !! Z.to_nat (zlen k) = Some x.
Proof. unfold zlen. rewrite Nat2Z.id. by apply list_lookup_middle. Qed.

(** The loop started after [pre], on an encoded list. *)
Lemma alpn_loop_encode fuel pre l acc :
  (length (encode_alpn l) ≤ fuel)%nat →
  alpn_loop fuel (pre ++ encode_alpn l) (zlen pre) acc = Some (Some (acc ++ l)).
Proof.
  revert fuel pre acc. induction l as [|p l IH]; intros fuel pre acc Hf.
  - rewrite app_nil_r. destruct fuel; simpl; rewrite app_nil_r;
      by rewrite (proj2 (Z.ltb_ge _ _)).
  - rewrite encode_alpn_cons in *. destruct fuel as [|fuel]; [simpl in Hf; lia|].
    simpl alpn_loop. rewrite lookup_zlen. simpl default.
    set (raw := pre ++ zlen p :: p ++ encode_alpn l).
    assert (Hraw : zlen raw = zlen pre + 1 + zlen p + zlen (encode_alpn l)).
    { unfold raw. rewrite zlen_app, zlen_cons, zlen_app. lia. }
    pose proof (zlen_nonneg p). pose proof (zlen_nonneg (encode_alpn l)).
    rewrite (proj2 (Z.ltb_lt _ _)) by lia. rewrite (proj2 (Z.ltb_ge _ _)) by lia.
    assert (Hraw2 : raw = (pre ++ [zlen p]) ++ p ++ encode_alpn l).
    { unfold raw. by rewrite <- app_assoc. }
    assert (Hp1 : zlen pre + 1 = zlen (pre ++ [zlen p])) by (rewrite zlen_app; done).
    rewrite Hp1. assert (Hsub : sub (zlen (pre ++ [zlen p])) (zlen p) raw = p).
    { rewrite Hraw2. apply sub_app_exact. }
    rewrite Hsub. replace (zlen (pre ++ [zlen p]) + zlen p) with (zlen ((pre ++ [zlen p]) ++ p))
      by (rewrite zlen_app; lia).
    rewrite Hraw2. rewrite (app_assoc (pre ++ [zlen p])). rewrite IH.
    + by rewrite <- app_assoc.
    + simpl in Hf. rewrite length_app in Hf. lia.
Qed.

(** Whatever the loop accepts was an encoded list. *)
Lemma alpn_loop_sound fuel raw pos acc l :
  all_bytes raw → 0 ≤ pos ≤ zlen raw →
  alpn_loop fuel raw pos acc = Some (Some l) →
  ∃ l', l = acc ++ l' ∧ sub pos (zlen raw - pos) raw = encode_alpn l' ∧ alpn_names l'.
Proof.
  intros Hb. revert pos acc. induction fuel as [|fuel IH]; intros pos acc Hp; simpl.
  - destruct (pos <? zlen raw) eqn:E; [done|]. breflect. intros [= <-]. exists [].
    rewrite app_nil_r. split_and!; [done| |constructor].
    replace (zlen raw - pos) with 0 by lia. done.
  - destruct (pos <? zlen raw) eqn:E; breflect.
    2: { intros [= <-]. exists []. rewrite app_nil_r. split_and!; [done| |constructor].
         replace (zlen raw - pos) with 0 by lia. done. }
    destruct (lookup_lt_is_Some_2 raw (Z.to_nat pos)) as [n Hn]; [unfold zlen in *; lia|].
    rewrite Hn. simpl default.
    assert (Hby : is_byte n) by (eapply (proj1 (Forall_lookup is_byte raw)); eauto).
    unfold is_byte in Hby. destruct (zlen raw <? pos + 1 + n) eqn:E2; [done|]. breflect.
    intros H. apply IH in H as (l' & -> & Hl & Hnames); [|lia].
    assert (Hz : zlen (sub (pos + 1) n raw) = n) by (apply zlen_sub, fits_spec; lia).
    exists (sub (pos + 1) n raw :: l'). split_and!.
    + by rewrite <- app_assoc.
    + rewrite encode_alpn_cons, Hz, <- Hl.
      replace (zlen raw - pos) with (1 + (n + (zlen raw - (pos + 1 + n)))) by lia.
      rewrite <- (sub_sub_app pos 1), <- (sub_sub_app (pos + 1) n) by lia.
      f_equal. unfold sub. change (Z.to_nat 1) with 1%nat.
      by rewrite (drop_S _ _ _ Hn).
    + constructor; [lia|done].
Qed.

Lemma alpn_loop_fuel fuel raw pos acc :
  all_bytes raw → 0 ≤ pos → zlen raw - pos ≤ Z.of_nat fuel → alpn_loop fuel raw pos acc ≠ None.
Proof.
  intros Hb. revert pos acc. induction fuel as [|fuel IH]; intros pos acc Hp Hf; simpl.
  - by rewrite (proj2 (Z.ltb_ge _ _)) by lia.
  - destruct (pos <? zlen raw) eqn:E; [|done]. breflect.
    destruct (lookup_lt_is_Some_2 raw (Z.to_nat pos)) as [n Hn]; [unfold zlen in *; lia|].
    rewrite Hn. simpl default. assert (Hby : is_byte n)
      by (eapply (proj1 (Forall_lookup is_byte raw)); eauto). unfold is_byte in Hby.
    case_if; [done|]. apply IH; lia.
Qed.

(** The ALPN parser always terminates; it accepts exactly the buffers that
    are a list of length-prefixed names, and gives back that list. *)
Theorem parse_alpn_exact raw :
  all_bytes raw →
  parse_alpn raw ≠ None ∧
  ∀ l, parse_alpn raw = Some (Some l) ↔ raw = encode_alpn l ∧ alpn_names l.
Proof.
  intros Hb. split.
  - apply alpn_loop_fuel; [done|lia|unfold zlen; lia].
  - intros l. split.
    + intros H. apply alpn_loop_sound in H as (l' & -> & He & Hn); [|done|].
      * simpl. rewrite Z.sub_0_r, sub_all in He. done.
      * pose proof (zlen_nonneg raw). lia.
    + intros [-> Hn]. by apply (alpn_loop_encode _ [] l []).
Qed.

Lemma parse_alpn_exact_witness :
  let raw := [2; 104; 50; 3; 1; 2; 3] in
  parse_alpn raw ≠ None ∧
  ∀ l, parse_alpn raw = Some (Some l) ↔ raw = encode_alpn l ∧ alpn_names l.
Proof. apply (parse_alpn_exact [2; 104; 50; 3; 1; 2; 3]). by_decision. Defined.

(** ** Setting it *)

Section SetAlpn.
Context {R : Rustls}.

Definition set_alpn_entry (e : ConfigEntry) (l : list bytes) : ConfigEntry :=
  match e with
  | ConfigClient a => ConfigClient (mkArc (arc_id a) (client_config_set_alpn (arc_val a) l))
  | ConfigServer a => ConfigServer (mkArc (arc_id a) (server_config_set_alpn (arc_val a) l))
  end.
Definition entry_arc (e : ConfigEntry) : N :=
  match e with ConfigClient a => arc_id a | ConfigServer a => arc_id a end.

(** [rlsm_config_set_alpn_protocols] on a well-formed list changes the
    configuration exactly when no connection holds it; otherwise, as for a
    truncated list, it reports an error and the table stays as it was. *)
Theorem set_alpn_when_unshared w h e p n raw :
  w_config w !! h = Some e → in_i32 n → 0 ≤ n → u8_at w p n = Some raw → all_bytes raw →
  ∃ w', rlsm_config_set_alpn_protocols h p n w =
          Ret (match parse_alpn raw with
               | Some (Some _) => if arc_held w (entry_arc e) then -1 else 0
               | _ => -1
               end) w' ∧
    w_config w' = match parse_alpn raw with
                  | Some (Some l) => if arc_held w (entry_arc e) then w_config w
                                     else <[h := set_alpn_entry e l]> (w_config w)
                  | _ => w_config w
                  end ∧ w_conn w' = w_conn w.
Proof.
  intros He In Hn Hr Hb. unfold u8_at in *. unfold rlsm_config_set_alpn_protocols.
  run. pass_guards. rewrite as_usize_nonneg_i32 by done.
  rewrite (read_u8_ok _ _ _ raw) by done.
  assert (Hp : parse_alpn raw ≠ None) by (apply alpn_loop_fuel; [done|lia|unfold zlen; lia]).
  destruct (parse_alpn raw) as [[l|]|]; [|by eexists|done].
  rewrite (with_mut_Some config_table h _ _ e) by done.
  destruct e as [a|a]; simpl entry_arc; change (arc_held (set_error None w) (arc_id a)) with
    (arc_held w (arc_id a)); destruct (arc_held w (arc_id a)); cbn [negb];
    eexists; (split_and!; [done| |done]); simpl; try done; by rewrite insert_id.
Qed.
End SetAlpn.

Definition client_cfg (id : N) (alpn : list bytes) : @ConfigEntry toy :=
  @ConfigClient toy (mkArc id alpn).

(** Configuration 1 is held by a connection, configuration 2 is not. *)
Definition config_world : world :=
  set_conn {[3 := @TlsClient toy {| t_in := []; t_plain := []; t_out := []; t_chunk := 3;
                               t_hs := true; t_cfg := 0 |} ]}
    (set_config (<[1 := client_cfg 0 []]> {[2 := client_cfg 1 []]})
       (boot (mem_of [[2; 104; 50]]))).

Lemma set_alpn_when_unshared_witness :
  ∃ w', rlsm_config_set_alpn_protocols 2 (Ptr 1 0) 3 config_world = Ret 0 w' ∧
    w_config w' = <[2 := client_cfg 1 [[104; 50]]]> (w_config config_world) ∧
    w_conn w' = w_conn config_world.
Proof.
  apply (set_alpn_when_unshared config_world 2 (client_cfg 1 []) (Ptr 1 0) 3
           [2; 104; 50]).
  - by_vm.
  - vm_compute. split; discriminate.
  - lia.
  - by_vm.
  - by_decision.
Defined.

End ConfigFacts.
