(* ===== verification/Tcp.v ===== *)
(** * TLS connections over TCP

    Models [src/crates/librustls-mojo/src/tcp.rs]: the dispatch over client and
    server connections, the slice reader and writer handed to rustls, and the
    exported functions. The two loops ([read_tls], [write_plaintext]) run on
    fuel: the length of the input plus one. *)

From S2P Require Import Prelude Effects Handles Rustls World Utf8 Config.
Import Effects Handles Rustls World Utf8 Config.

Module Tcp.

(** ** Slices as streams *)

Record SliceReader := { rd_data : bytes; rd_pos : Z }.

(** [read] into a buffer of [n] bytes: the bytes copied, and the reader. *)
Definition slice_read (rd : SliceReader) (n : Z) : bytes * SliceReader :=
  let available := sub (rd_pos rd) (zlen (rd_data rd) - rd_pos rd) (rd_data rd) in
  let to_copy := Z.min (zlen available) n in
  (sub 0 to_copy available, {| rd_data := rd_data rd; rd_pos := rd_pos rd + to_copy |}).

Record SliceWriter := { wr_buf : bytes; wr_pos : Z }.

(** [write]: how many bytes were taken, and the writer. *)
Definition slice_write (wr : SliceWriter) (data : bytes) : Z * SliceWriter :=
  let space := zlen (wr_buf wr) - wr_pos wr in
  let to_copy := Z.min space (zlen data) in
  (to_copy, {| wr_buf := splice (wr_pos wr) (sub 0 to_copy data) (wr_buf wr);
               wr_pos := wr_pos wr + to_copy |}).

Section Tcp.
Context {R : Rustls}.

(** ** [impl TlsConn] *)

(** rustls asks the reader once, for as many bytes as its buffer has room. *)
Definition TlsConn_read_tls (c : TlsConn) (rd : SliceReader)
  : TlsConn * SliceReader * (io_error + Z) :=
  match c with
  | TlsClient c =>
      let '(chunk, rd') := slice_read rd (client_read_size c) in
      let '(c', r) := client_read_tls c chunk in (TlsClient c', rd', r)
  | TlsServer s =>
      let '(chunk, rd') := slice_read rd (server_read_size s) in
      let '(s', r) := server_read_tls s chunk in (TlsServer s', rd', r)
  end.

(** rustls hands the writer its pending bytes and forgets what was taken. *)
Definition TlsConn_write_tls (c : TlsConn) (wr : SliceWriter)
  : TlsConn * SliceWriter * (io_error + Z) :=
  match c with
  | TlsClient c =>
      let '(n, wr') := slice_write wr (client_pending_tls c) in
      let '(c', r) := client_write_tls c n in (TlsClient c', wr', r)
  | TlsServer s =>
      let '(n, wr') := slice_write wr (server_pending_tls s) in
      let '(s', r) := server_write_tls s n in (TlsServer s', wr', r)
  end.

Definition TlsConn_process_new_packets (c : TlsConn) : TlsConn * (error + unit) :=
  match c with
  | TlsClient c => let '(c', r) := client_process_new_packets c in (TlsClient c', r)
  | TlsServer s => let '(s', r) := server_process_new_packets s in (TlsServer s', r)
  end.

Definition TlsConn_read_plaintext (c : TlsConn) (n : Z) : TlsConn * (io_error + bytes) :=
  match c with
  | TlsClient c => let '(c', r) := client_reader_read c n in (TlsClient c', r)
  | TlsServer s => let '(s', r) := server_reader_read s n in (TlsServer s', r)
  end.

Definition TlsConn_write_plaintext (c : TlsConn) (data : bytes) : TlsConn * (io_error + Z) :=
  match c with
  | TlsClient c => let '(c', r) := client_writer_write c data in (TlsClient c', r)
  | TlsServer s => let '(s', r) := server_writer_write s data in (TlsServer s', r)
  end.

Definition TlsConn_is_handshaking (c : TlsConn) : bool :=
  match c with
  | TlsClient c => client_is_handshaking c
  | TlsServer s => server_is_handshaking s
  end.

Definition TlsConn_alpn_protocol (c : TlsConn) : option bytes :=
  match c with
  | TlsClient c => client_alpn_protocol c
  | TlsServer s => server_alpn_protocol s
  end.

(** ** Creation and release *)

Definition rlsm_tls_client_new (config_handle : Z) (server_name_ptr : ptr)
    (server_name_len : Z) : prog world Z :=
  clear_last_error;;
  if is_null server_name_ptr then
    rlsm_err "rlsm_tls_client_new: null server_name pointer" (-1)
  else if server_name_len <? 0 then
    rlsm_err "rlsm_tls_client_new: negative server_name_len" (-1)
  else
    o ← get_client_config config_handle;
    match o with
    | None => rlsm_err "rlsm_tls_client_new: invalid client config handle" (-1)
    | Some cfg =>
        name_bytes ← read_u8 server_name_ptr (as_usize server_name_len);
        match from_utf8 name_bytes with
        | Some e =>
            set_last_error ("rlsm_tls_client_new: server_name is not valid UTF-8: "
                              +:+ utf8_error_display e);;
            mret (-1)
        | None =>
            match server_name_try_from name_bytes with
            | None =>
                set_last_error ("rlsm_tls_client_new: invalid server name '"
                                  +:+ bytes_string name_bytes +:+ "': " +:+ name_error_display);;
                mret (-1)
            | Some server_name =>
                match client_conn_new cfg server_name with
                | inl e =>
                    set_last_error ("rlsm_tls_client_new: failed to create client connection: "
                                      +:+ error_display e);;
                    mret (-1)
                | inr conn =>
                    o ← insert conn_table (TlsClient conn);
                    match o with
                    | Some h => mret h
                    | None => rlsm_err "rlsm_tls_client_new: handle counter exhausted" (-1)
                    end
                end
            end
        end
    end.

Definition rlsm_tls_server_new (config_handle : Z) : prog world Z :=
  clear_last_error;;
  o ← get_server_config config_handle;
  match o with
  | None => rlsm_err "rlsm_tls_server_new: invalid server config handle" (-1)
  | Some cfg =>
      match server_conn_new cfg with
      | inl e =>
          set_last_error ("rlsm_tls_server_new: failed to create server connection: "
                            +:+ error_display e);;
          mret (-1)
      | inr conn =>
          o ← insert conn_table (TlsServer conn);
          match o with
          | Some h => mret h
          | None => rlsm_err "rlsm_tls_server_new: handle counter exhausted" (-1)
          end
      end
  end.

Definition rlsm_tls_conn_free (handle : Z) : prog world Z :=
  clear_last_error;;
  o ← remove conn_table handle;
  match o with
  | Some _ => mret 0
  | None => rlsm_err "rlsm_tls_conn_free: invalid connection handle" (-1)
  end.

(** ** Ciphertext *)

(** The loop of [read_tls]: [None] when out of fuel. *)
Fixpoint read_tls_loop (fuel : nat) (c : TlsConn) (rd : SliceReader)
  : option (TlsConn * (string + Z)) :=
  match fuel with
  | O => None
  | S fuel' =>
      let '(c1, rd1, r) := TlsConn_read_tls c rd in
      match r with
      | inl e => Some (c1, inl ("rlsm_tls_conn_read_tls: read_tls failed: "
                                  +:+ io_error_display e))
      | inr consumed =>
          let '(c2, r2) := TlsConn_process_new_packets c1 in
          match r2 with
          | inl e => Some (c2, inl ("rlsm_tls_conn_read_tls: process_new_packets failed: "
                                      +:+ error_display e))
          | inr _ =>
              if consumed =? 0 then Some (c2, inr (as_i32 (rd_pos rd1)))
              else if zlen (rd_data rd1) <=? rd_pos rd1 then
                Some (c2, inr (as_i32 (rd_pos rd1)))
              else read_tls_loop fuel' c2 rd1
          end
      end
  end.

Definition rlsm_tls_conn_read_tls (handle : Z) (ciphertext_ptr : ptr) (ct_len : Z)
  : prog world Z :=
  clear_last_error;;
  if is_null ciphertext_ptr then
    rlsm_err "rlsm_tls_conn_read_tls: null ciphertext pointer" (-1)
  else if ct_len <? 0 then rlsm_err "rlsm_tls_conn_read_tls: negative ct_len" (-1)
  else
    data ← read_u8 ciphertext_ptr (as_usize ct_len);
    r ← with_mut conn_table handle (λ c,
      match read_tls_loop (S (length data)) c {| rd_data := data; rd_pos := 0 |} with
      | Some res => mret res
      | None => no_fuel
      end);
    match r with
    | Some (inr n) => mret n
    | Some (inl msg) => set_last_error msg;; mret (-1)
    | None => rlsm_err "rlsm_tls_conn_read_tls: invalid connection handle" (-1)
    end.

Definition rlsm_tls_conn_write_tls (handle : Z) (out_buf : ptr) (buf_len : Z)
  : prog world Z :=
  clear_last_error;;
  if is_null out_buf then rlsm_err "rlsm_tls_conn_write_tls: null out_buf pointer" (-1)
  else if buf_len <? 0 then rlsm_err "rlsm_tls_conn_write_tls: negative buf_len" (-1)
  else
    buf ← read_u8 out_buf (as_usize buf_len);
    r ← with_mut conn_table handle (λ c,
      let '(c', wr, r) := TlsConn_write_tls c {| wr_buf := buf; wr_pos := 0 |} in
      write_u8 out_buf (wr_buf wr);;
      match r with
      | inl e => mret (c', inl ("rlsm_tls_conn_write_tls: write_tls failed: "
                                  +:+ io_error_display e))
      | inr written => mret (c', inr (as_i32 written))
      end);
    match r with
    | Some (inr n) => mret n
    | Some (inl msg) => set_last_error msg;; mret (-1)
    | None => rlsm_err "rlsm_tls_conn_write_tls: invalid connection handle" (-1)
    end.

(** ** Plaintext *)

Definition rlsm_tls_conn_read_plaintext (handle : Z) (out_buf : ptr) (buf_len : Z)
  : prog world Z :=
  clear_last_error;;
  if is_null out_buf then rlsm_err "rlsm_tls_conn_read_plaintext: null out_buf pointer" (-1)
  else if buf_len <? 0 then rlsm_err "rlsm_tls_conn_read_plaintext: negative buf_len" (-1)
  else
    _ ← read_u8 out_buf (as_usize buf_len);
    r ← with_mut conn_table handle (λ c,
      let '(c', r) := TlsConn_read_plaintext c (as_usize buf_len) in
      match r with
      | inr data => write_u8 out_buf data;; mret (c', inr (as_i32 (zlen data)))
      | inl e =>
          if io_would_block e then mret (c', inr 0)
          else mret (c', inl ("rlsm_tls_conn_read_plaintext: reader failed: "
                                +:+ io_error_display e))
      end);
    match r with
    | Some (inr n) => mret n
    | Some (inl msg) => set_last_error msg;; mret (-1)
    | None => rlsm_err "rlsm_tls_conn_read_plaintext: invalid connection handle" (-1)
    end.

(** The loop [while total < data.len()]: [None] when out of fuel. *)
Fixpoint write_plaintext_loop (fuel : nat) (c : TlsConn) (data : bytes) (total : Z)
  : option (TlsConn * (string + Z)) :=
  if total <? zlen data then
    match fuel with
    | O => None
    | S fuel' =>
        let '(c1, r) := TlsConn_write_plaintext c (sub total (zlen data - total) data) in
        match r with
        | inl e => Some (c1, inl ("rlsm_tls_conn_write_plaintext: writer failed: "
                                    +:+ io_error_display e))
        | inr n =>
            if n =? 0 then Some (c1, inr total)
            else write_plaintext_loop fuel' c1 data (total + n)
        end
    end
  else Some (c, inr total).

Definition rlsm_tls_conn_write_plaintext (handle : Z) (data_ptr : ptr) (data_len : Z)
  : prog world Z :=
  clear_last_error;;
  if is_null data_ptr then rlsm_err "rlsm_tls_conn_write_plaintext: null data pointer" (-1)
  else if data_len <? 0 then rlsm_err "rlsm_tls_conn_write_plaintext: negative data_len" (-1)
  else
    data ← read_u8 data_ptr (as_usize data_len);
    r ← with_mut conn_table handle (λ c,
      match write_plaintext_loop (S (length data)) c data 0 with
      | None => no_fuel
      | Some (c1, inl msg) => mret (c1, inl msg)
      | Some (c1, inr total) =>
          let '(c2, r) := TlsConn_process_new_packets c1 in
          match r with
          | inl e =>
              mret (c2, inl ("rlsm_tls_conn_write_plaintext: process_new_packets failed: "
                               +:+ error_display e))
          | inr _ => mret (c2, inr (as_i32 total))
          end
      end);
    match r with
    | Some (inr n) => mret n
    | Some (inl msg) => set_last_error msg;; mret (-1)
    | None => rlsm_err "rlsm_tls_conn_write_plaintext: invalid connection handle" (-1)
    end.

(** ** Queries *)

Definition rlsm_tls_conn_is_handshaking (handle : Z) : prog world Z :=
  clear_last_error;;
  r ← with_ conn_table handle (λ c, mret (Z.b2z (TlsConn_is_handshaking c)));
  match r with
  | Some v => mret v
  | None => rlsm_err "rlsm_tls_conn_is_handshaking: invalid connection handle" (-1)
  end.

Definition rlsm_tls_conn_alpn (handle : Z) (out_buf : ptr) (buf_len : Z) : prog world Z :=
  clear_last_error;;
  if is_null out_buf then rlsm_err "rlsm_tls_conn_alpn: null out_buf pointer" (-1)
  else if buf_len <? 0 then rlsm_err "rlsm_tls_conn_alpn: negative buf_len" (-1)
  else
    buf ← read_u8 out_buf (as_usize buf_len);
    r ← with_ conn_table handle (λ c,
      match TlsConn_alpn_protocol c with
      | None => mret (inr 0)
      | Some proto =>
          if zlen buf <? zlen proto then
            mret (inl ("rlsm_tls_conn_alpn: buffer too small; need "
                         +:+ pretty (zlen proto) +:+ " bytes"))
          else
            write_u8 out_buf proto;;
            mret (inr (as_i32 (zlen proto)))
      end);
    match r with
    | Some (inr n) => mret n
    | Some (inl msg) => set_last_error msg;; mret (-1)
    | None => rlsm_err "rlsm_tls_conn_alpn: invalid connection handle" (-1)
    end.
End Tcp.
End Tcp.
