(* ===== verification/TcpFacts.v ===== *)
(** * Properties of TLS connections over TCP

    The two loops of tcp.rs terminate and move all the bytes, in order; the
    ciphertext copied out is the front of what rustls has to send; and what
    callers see of errors. What a connection has taken in or given out is
    described by an observation of the connection, a parameter here. *)

From S2P Require Import Prelude Effects Handles Rustls World.
From S2P Require Import Frames Toy QuicKeysFacts Utf8 Config Tcp.
Import Effects Handles Rustls World Frames Toy QuicKeysFacts Utf8 Config Tcp.

Module TcpFacts.

(** ** The slice streams *)

Lemma slice_read_spec data pos n :
  0 ≤ pos ≤ zlen data → 0 ≤ n →
  slice_read {| rd_data := data; rd_pos := pos |} n =
    (sub pos (Z.min (zlen data - pos) n) data,
     {| rd_data := data; rd_pos := pos + Z.min (zlen data - pos) n |}).
Proof.
  intros Hp Hn. unfold slice_read. simpl.
  assert (Hz : zlen (sub pos (zlen data - pos) data) = zlen data - pos)
    by (apply zlen_sub, fits_spec; lia).
  rewrite Hz. f_equal. unfold sub. change (Z.to_nat 0) with 0%nat. rewrite drop_0, take_take.
  f_equal. lia.
Qed.

Section Reads.
Context {R : Rustls} {T : TcpLaws R}.

Definition conn_read_size (c : TlsConn) : Z :=
  match c with TlsClient c => client_read_size c | TlsServer s => server_read_size s end.

Lemma TlsConn_read_tls_spec c data pos c' rd' n :
  0 ≤ pos ≤ zlen data →
  TlsConn_read_tls c {| rd_data := data; rd_pos := pos |} = (c', rd', inr n) →
  n = Z.min (zlen data - pos) (conn_read_size c) ∧
  rd' = {| rd_data := data; rd_pos := pos + n |} ∧ 0 ≤ conn_read_size c.
Proof.
  intros Hp. destruct c as [c|c]; unfold TlsConn_read_tls, conn_read_size.
  - pose proof (client_read_size_nonneg c). rewrite slice_read_spec by lia.
    destruct (client_read_tls c _) as [c1 r] eqn:E. intros [= <- <- ->].
    apply client_read_count in E. rewrite zlen_sub in E by (apply fits_spec; lia). by subst.
  - pose proof (server_read_size_nonneg c). rewrite slice_read_spec by lia.
    destruct (server_read_tls c _) as [c1 r] eqn:E. intros [= <- <- ->].
    apply server_read_count in E. rewrite zlen_sub in E by (apply fits_spec; lia). by subst.
Qed.

(** What a connection has been fed, for any observation that reading extends
    by the bytes read and processing keeps. *)
Context (obs : TlsConn → bytes).
Hypothesis obs_read : ∀ c rd c' rd' n,
  TlsConn_read_tls c rd = (c', rd', inr n) →
  obs c' = obs c ++ sub (rd_pos rd) (rd_pos rd' - rd_pos rd) (rd_data rd).
Hypothesis obs_process : ∀ c c' u, TlsConn_process_new_packets c = (c', inr u) → obs c' = obs c.

(** The last step of a loop that left bytes over: the connection asked for none. *)
Definition takes_no_more (c' : TlsConn) : Prop :=
  ∃ c1 c2 rd u, conn_read_size c1 = 0 ∧ TlsConn_read_tls c1 rd = (c2, rd, inr 0) ∧
    TlsConn_process_new_packets c2 = (c', inr u).

Lemma read_tls_loop_ok fuel c data pos :
  0 ≤ pos ≤ zlen data → zlen data - pos < Z.of_nat fuel →
  ∃ c' res, read_tls_loop fuel c {| rd_data := data; rd_pos := pos |} = Some (c', res) ∧
    ∀ z, res = inr z →
      ∃ q, pos ≤ q ≤ zlen data ∧ z = as_i32 q ∧ obs c' = obs c ++ sub pos (q - pos) data ∧
        (q < zlen data → takes_no_more c').
Proof.
  revert c pos. induction fuel as [|fuel IH]; intros c pos Hp Hf; [lia|]. simpl.
  destruct (TlsConn_read_tls c _) as [[c1 rd1] r] eqn:E1.
  destruct r as [err|n]; [by eexists _, _|].
  pose proof (obs_read _ _ _ _ _ E1) as O1.
  destruct (TlsConn_read_tls_spec _ _ _ _ _ _ Hp E1) as (Hn & -> & Hroom). simpl in *.
  destruct (TlsConn_process_new_packets c1) as [c2 r2] eqn:E2.
  destruct r2 as [err|u]; [by eexists _, _|]. pose proof (obs_process _ _ _ E2) as O2.
  replace (pos + n - pos) with n in O1 by lia.
  assert (Hstop : obs c2 = obs c ++ sub pos (pos + n - pos) data) by (rewrite O2, O1; do 2 f_equal; lia).
  destruct (n =? 0) eqn:En; breflect.
  { eexists _, _. split; [done|]. intros z [= <-]. exists (pos + n). split_and!; [lia|lia|done|done|].
    intros Hq. exists c, c1, {| rd_data := data; rd_pos := pos |}, u.
    rewrite En in E1. rewrite Z.add_0_r in E1. split_and!; [lia|done|done]. }
  destruct (zlen data <=? pos + n) eqn:El; breflect.
  { eexists _, _. split; [done|]. intros z [= <-]. exists (pos + n). split_and!; [lia|lia|done|done|lia]. }
  destruct (IH c2 (pos + n)) as (c3 & res & E3 & Hres); [lia|lia|].
  eexists _, _. split; [done|]. intros z Hz. destruct (Hres z Hz) as (q & Hq & -> & O3 & Hno).
  exists q. split_and!; [lia|lia|done| |done].
  rewrite O3, O2, O1, <- app_assoc. f_equal. rewrite sub_sub_app by lia. f_equal. lia.
Qed.

(** C32: feeding ciphertext terminates, and either reports an error or returns how
    many bytes it handed to rustls, which are the front of the input, in order;
    bytes are left over only when rustls asked for none (as it does after a
    [close_notify]), processed what it had and accepted it. *)
Theorem read_tls_feeds_front w h c p n data :
  w_conn w !! h = Some c → in_i32 n → 0 ≤ n → u8_at w p n = Some data →
  ∃ r w' c', rlsm_tls_conn_read_tls h p n w = Ret r w' ∧ w_conn w' !! h = Some c' ∧
    ((r = -1 ∧ is_Some (w_last_error w')) ∨
     (0 ≤ r ≤ n ∧ w_last_error w' = None ∧ obs c' = obs c ++ sub 0 r data ∧ (r < n → takes_no_more c'))).
Proof.
  intros Hc In Hn Hd. pose proof (load_length _ _ _ _ Hd) as Hl. unfold u8_at in *.
  destruct (read_tls_loop_ok (S (length data)) c data 0) as (c' & res & E & Hres);
    [unfold zlen in *; lia|unfold zlen in *; lia|].
  unfold rlsm_tls_conn_read_tls. run. pass_guards. rewrite as_usize_nonneg_i32 by done.
  rewrite (read_u8_ok _ _ _ data) by done.
  rewrite (with_mut_Some conn_table h _ _ c) by done. rewrite E.
  destruct res as [msg|z].
  - eexists _, _, c'. split_and!; [done|simpl; apply lookup_insert_eq|]. left.
    split; [done|by eexists].
  - destruct (Hres z eq_refl) as (q & Hq & -> & Ho & Hno). rewrite Z.sub_0_r in Ho.
    rewrite as_i32_id by (unfold in_i32, i32_min in *; lia).
    eexists _, _, c'. split_and!; [done|simpl; apply lookup_insert_eq|]. right.
    split_and!; [lia|lia|done|done|]. intros ?. apply Hno. lia.
Qed.
End Reads.

Section Writes.
Context {R : Rustls} {T : TcpLaws R}.

Lemma TlsConn_write_plaintext_count c data c' n :
  TlsConn_write_plaintext c data = (c', inr n) → 0 ≤ n ≤ zlen data.
Proof.
  destruct c as [c|c]; simpl.
  - destruct (client_writer_write c data) as [c1 r] eqn:E. intros [= _ ->].
    by apply client_write_count in E.
  - destruct (server_writer_write c data) as [c1 r] eqn:E. intros [= _ ->].
    by apply server_write_count in E.
Qed.

(** What a connection was given to encrypt, for any observation that a write
    extends by the bytes taken and processing keeps. *)
Context (obs : TlsConn → bytes).
Hypothesis obs_write : ∀ c data c' n,
  TlsConn_write_plaintext c data = (c', inr n) → obs c' = obs c ++ sub 0 n data.
Hypothesis obs_process : ∀ c c' u, TlsConn_process_new_packets c = (c', inr u) → obs c' = obs c.

Lemma write_plaintext_loop_ok fuel c data total :
  0 ≤ total ≤ zlen data → zlen data - total < Z.of_nat fuel →
  ∃ c' res, write_plaintext_loop fuel c data total = Some (c', res) ∧
    ∀ z, res = inr z → total ≤ z ≤ zlen data ∧ obs c' = obs c ++ sub total (z - total) data.
Proof.
  revert c total. induction fuel as [|fuel IH]; intros c total Ht Hf; [lia|]. simpl.
  destruct (total <? zlen data) eqn:El; breflect.
  2: { eexists _, _. split; [done|]. intros z [= <-]. split; [lia|].
       rewrite Z.sub_diag. change (sub total 0 data) with (@nil Z). by rewrite app_nil_r. }
  destruct (TlsConn_write_plaintext c _) as [c1 [err|n]] eqn:E; [by eexists _, _|].
  pose proof (TlsConn_write_plaintext_count _ _ _ _ E) as Hn.
  rewrite zlen_sub in Hn by (apply fits_spec; lia).
  apply obs_write in E. destruct (n =? 0) eqn:E0; breflect.
  { subst n. eexists _, _. split; [done|]. intros z [= <-]. split; [lia|].
    rewrite E, Z.sub_diag. done. }
  destruct (IH c1 (total + n)) as (c2 & res & E2 & Hres); [lia|lia|].
  eexists _, _. split; [done|]. intros z Hz. destruct (Hres z Hz) as [Hzr O]. split; [lia|].
  rewrite O, E, <- app_assoc. f_equal.
  assert (Hs : sub 0 n (sub total (zlen data - total) data) = sub total n data).
  { unfold sub at 1 2. change (Z.to_nat 0) with 0%nat. rewrite drop_0, take_take.
    unfold sub. f_equal. lia. }
  rewrite Hs, sub_sub_app by lia. f_equal. lia.
Qed.

(** C33: writing application data terminates, and either reports an error or
    returns how many bytes rustls took, which are the front of the data, in
    order. *)
Theorem write_plaintext_in_order w h c p n data :
  w_conn w !! h = Some c → in_i32 n → 0 ≤ n → u8_at w p n = Some data →
  ∃ r w' c', rlsm_tls_conn_write_plaintext h p n w = Ret r w' ∧ w_conn w' !! h = Some c' ∧
    ((r = -1 ∧ is_Some (w_last_error w')) ∨
     (0 ≤ r ≤ n ∧ w_last_error w' = None ∧ obs c' = obs c ++ sub 0 r data)).
Proof.
  intros Hc In Hn Hd. pose proof (load_length _ _ _ _ Hd) as Hl. unfold u8_at in *.
  destruct (write_plaintext_loop_ok (S (length data)) c data 0) as (c' & res & E & Hres);
    [unfold zlen in *; lia|unfold zlen in *; lia|].
  unfold rlsm_tls_conn_write_plaintext. run. pass_guards. rewrite as_usize_nonneg_i32 by done.
  rewrite (read_u8_ok _ _ _ data) by done.
  rewrite (with_mut_Some conn_table h _ _ c) by done. rewrite E.
  destruct res as [msg|z].
  { eexists _, _, c'. split_and!; [done|simpl; apply lookup_insert_eq|]. left.
    split; [done|by eexists]. }
  destruct (Hres z eq_refl) as [Hz Ho]. rewrite Z.sub_0_r in Ho.
  destruct (TlsConn_process_new_packets c') as [c2 [err|u]] eqn:E2.
  - eexists _, _, c2. split_and!; [done|simpl; apply lookup_insert_eq|]. left.
    split; [done|by eexists].
  - apply obs_process in E2. rewrite as_i32_id by (unfold in_i32, i32_min in *; lia).
    eexists _, _, c2. split_and!; [done|simpl; apply lookup_insert_eq|]. right.
    rewrite E2, Ho. split_and!; [lia|lia|done|done].
Qed.
End Writes.

(** ** Ciphertext out *)

Section Drain.
Context {R : Rustls} {T : TcpLaws R}.

Definition conn_pending (c : TlsConn) : bytes :=
  match c with TlsClient c => client_pending_tls c | TlsServer s => server_pending_tls s end.

Lemma slice_write_spec buf data :
  slice_write {| wr_buf := buf; wr_pos := 0 |} data =
    (Z.min (zlen buf) (zlen data),
     {| wr_buf := splice 0 (sub 0 (Z.min (zlen buf) (zlen data)) data) buf;
        wr_pos := Z.min (zlen buf) (zlen data) |}).
Proof. unfold slice_write. simpl. by rewrite Z.sub_0_r. Qed.

(** [write_tls] copies the front of what rustls has to send, as much as
    the buffer holds, and returns how much that was. *)
Theorem write_tls_copies_front w h c p n buf c' wr :
  w_conn w !! h = Some c → in_i32 n → 0 ≤ n → u8_at w p n = Some buf →
  TlsConn_write_tls c {| wr_buf := buf; wr_pos := 0 |} =
    (c', wr, inr (Z.min n (zlen (conn_pending c)))) →
  ∃ w', rlsm_tls_conn_write_tls h p n w = Ret (Z.min n (zlen (conn_pending c))) w' ∧
    w_conn w' = <[h := c']> (w_conn w) ∧
    u8_at w' p (Z.min n (zlen (conn_pending c))) =
      Some (sub 0 (Z.min n (zlen (conn_pending c))) (conn_pending c)).
Proof.
  intros Hc In Hn Hb Hw. pose proof (load_length _ _ _ _ Hb) as Hl. unfold u8_at in *.
  set (m := Z.min n (zlen (conn_pending c))) in *.
  pose proof (zlen_nonneg (conn_pending c)) as Hpos.
  assert (Hs : zlen (sub 0 m (conn_pending c)) = m) by (apply zlen_sub, fits_spec; lia).
  assert (Hwr : wr_buf wr = splice 0 (sub 0 m (conn_pending c)) buf).
  { unfold TlsConn_write_tls in Hw. destruct c; rewrite slice_write_spec in Hw; simpl in *;
      case_match; injection Hw as _ <- _; simpl; unfold m; by rewrite Hl. }
  assert (Hf : fits 0 (zlen (sub 0 m (conn_pending c))) buf = true) by (apply fits_spec; lia).
  assert (Hlw : zlen (wr_buf wr) = n).
  { rewrite Hwr. unfold zlen. rewrite length_splice by done. exact Hl. }
  destruct (store_load _ _ _ _ (wr_buf wr) Hb Hlw) as (h1 & S1 & L1).
  unfold rlsm_tls_conn_write_tls. run. pass_guards. rewrite as_usize_nonneg_i32 by done.
  rewrite (read_u8_ok _ _ _ buf) by done.
  rewrite (with_mut_Some conn_table h _ _ c) by done. rewrite Hw.
  rewrite (write_u8_ok _ _ _ h1) by done.
  rewrite as_i32_id by (unfold in_i32, i32_min in *; lia).
  eexists. split_and!; [done|done|]. simpl. rewrite (load_prefix _ _ _ m _ L1) by lia.
  f_equal. rewrite Hwr. rewrite <- Hs at 1. by apply sub_splice_same.
Qed.
End Drain.

(** ** What callers see of errors *)

Section TcpErrors.
Context {R : Rustls} {T : TcpLaws R}.

(** The exported functions of config.rs and tcp.rs. *)
Inductive tcp_call :=
  | CfgClientNew
  | CfgClientNewInsecure
  | CfgServerNew (cert : ptr) (cert_len : Z) (key : ptr) (key_len : Z)
  | CfgFree (h : Z)
  | CfgSetAlpn (h : Z) (p : ptr) (n : Z)
  | TlsClientNew (cfg : Z) (name : ptr) (n : Z)
  | TlsServerNew (cfg : Z)
  | TlsFree (h : Z)
  | TlsRead (h : Z) (p : ptr) (n : Z)
  | TlsWrite (h : Z) (p : ptr) (n : Z)
  | TlsReadPlain (h : Z) (p : ptr) (n : Z)
  | TlsWritePlain (h : Z) (p : ptr) (n : Z)
  | TlsIsHandshaking (h : Z)
  | TlsAlpn (h : Z) (p : ptr) (n : Z).

Definition exec_tcp (c : tcp_call) : prog world Z :=
  match c with
  | CfgClientNew => rlsm_client_config_new
  | CfgClientNewInsecure => rlsm_client_config_new_insecure
  | CfgServerNew a b c d => rlsm_server_config_new a b c d
  | CfgFree h => rlsm_config_free h
  | CfgSetAlpn h p n => rlsm_config_set_alpn_protocols h p n
  | TlsClientNew c p n => rlsm_tls_client_new c p n
  | TlsServerNew c => rlsm_tls_server_new c
  | TlsFree h => rlsm_tls_conn_free h
  | TlsRead h p n => rlsm_tls_conn_read_tls h p n
  | TlsWrite h p n => rlsm_tls_conn_write_tls h p n
  | TlsReadPlain h p n => rlsm_tls_conn_read_plaintext h p n
  | TlsWritePlain h p n => rlsm_tls_conn_write_plaintext h p n
  | TlsIsHandshaking h => rlsm_tls_conn_is_handshaking h
  | TlsAlpn h p n => rlsm_tls_conn_alpn h p n
  end.

Definition tcp_args (c : tcp_call) : Prop :=
  match c with
  | TlsRead _ _ n | TlsWrite _ _ n | TlsReadPlain _ _ n | TlsWritePlain _ _ n
  | TlsAlpn _ _ n => in_i32 n
  | _ => True
  end.

Lemma read_tls_loop_bound fuel c data pos c' z :
  0 ≤ pos ≤ zlen data → zlen data ≤ i32_max →
  read_tls_loop fuel c {| rd_data := data; rd_pos := pos |} = Some (c', inr z) → 0 ≤ z.
Proof.
  intros Hp Hmax. revert c pos Hp. induction fuel as [|fuel IH]; intros c pos Hp; [done|]. simpl.
  destruct (TlsConn_read_tls c _) as [[c1 rd1] [err|n]] eqn:E1; [done|].
  destruct (TlsConn_read_tls_spec _ _ _ _ _ _ Hp E1) as (Hn & -> & Hroom). simpl.
  destruct (TlsConn_process_new_packets c1) as [c2 [err|u]]; [done|].
  destruct (n =? 0); [intros [= _ <-]; apply as_i32_small; lia|].
  case_if; [intros [= _ <-]; apply as_i32_small; lia|]. apply IH. lia.
Qed.

Lemma write_plaintext_loop_bound fuel c data total c' z :
  0 ≤ total ≤ zlen data →
  write_plaintext_loop fuel c data total = Some (c', inr z) → 0 ≤ z ≤ zlen data.
Proof.
  revert c total. induction fuel as [|fuel IH]; intros c total Ht; simpl.
  - case_if; [done|]. intros [= _ <-]. done.
  - destruct (total <? zlen data) eqn:El; breflect; [|by intros [= _ <-]].
    destruct (TlsConn_write_plaintext c _) as [c1 [err|n]] eqn:E; [done|].
    apply TlsConn_write_plaintext_count in E. rewrite zlen_sub in E by (apply fits_spec; lia).
    case_if; [by intros [= _ <-]|]. apply IH. lia.
Qed.

Ltac tcp_table := report_with result_nonneg;
  [|intros ? ?; calls_report; by simplify_eq].

Lemma read_tls_reports h p n : in_i32 n → reports nonneg (rlsm_tls_conn_read_tls h p n).
Proof.
  intros Hi. unfold rlsm_tls_conn_read_tls. calls_report. tcp_table.
  apply returns_with_mut; [done|]. intros c.
  destruct (read_tls_loop _ c _) as [[c' [m|z]]|] eqn:E; [by apply returns_ret| |done].
  apply returns_ret. simpl. eapply read_tls_loop_bound; [| |done].
  - pose proof (zlen_nonneg a). lia.
  - breflect. rewrite as_usize_nonneg_i32 in * by done. unfold in_i32 in *. lia.
Qed.

Lemma write_plaintext_reports h p n :
  in_i32 n → reports nonneg (rlsm_tls_conn_write_plaintext h p n).
Proof.
  intros Hi. unfold rlsm_tls_conn_write_plaintext. calls_report. tcp_table.
  apply returns_with_mut; [done|]. intros c.
  destruct (write_plaintext_loop _ c _ _) as [[c' [m|z]]|] eqn:E; [by apply returns_ret| |done].
  apply write_plaintext_loop_bound in E; [|pose proof (zlen_nonneg a); lia].
  calls_return; simpl; [done|]. breflect. rewrite as_usize_nonneg_i32 in * by done.
  apply as_i32_small. unfold in_i32 in *. lia.
Qed.

Lemma TlsConn_write_tls_bound c buf c' wr z :
  TlsConn_write_tls c {| wr_buf := buf; wr_pos := 0 |} = (c', wr, inr z) → 0 ≤ z ≤ zlen buf.
Proof.
  unfold TlsConn_write_tls. destruct c as [c|c]; rewrite slice_write_spec; cbn iota.
  - destruct (client_write_tls c _) as [c1 r] eqn:E. intros [= _ _ ->].
    apply client_drain_count in E as ->. pose proof (zlen_nonneg (client_pending_tls c)).
    pose proof (zlen_nonneg buf). lia.
  - destruct (server_write_tls c _) as [c1 r] eqn:E. intros [= _ _ ->].
    apply server_drain_count in E as ->. pose proof (zlen_nonneg (server_pending_tls c)).
    pose proof (zlen_nonneg buf). lia.
Qed.

Lemma write_tls_reports h p n : in_i32 n → reports nonneg (rlsm_tls_conn_write_tls h p n).
Proof.
  intros Hi. unfold rlsm_tls_conn_write_tls. calls_report. tcp_table.
  apply returns_with_mut; [done|]. intros c.
  destruct (TlsConn_write_tls c _) as [[c' wr] [e|z]] eqn:E; calls_return; simpl; [done|].
  apply TlsConn_write_tls_bound in E. breflect. rewrite as_usize_nonneg_i32 in * by done.
  apply as_i32_small. unfold in_i32 in *. lia.
Qed.

Lemma read_plaintext_reports h p n :
  in_i32 n → reports nonneg (rlsm_tls_conn_read_plaintext h p n).
Proof.
  intros Hi. unfold rlsm_tls_conn_read_plaintext. calls_report. tcp_table.
  breflect. rewrite as_usize_nonneg_i32 in * by done.
  apply returns_with_mut; [done|]. intros c. unfold TlsConn_read_plaintext.
  destruct c as [c|c]; [destruct (client_reader_read c n) as [c' [e|d]] eqn:E
                       |destruct (server_reader_read c n) as [c' [e|d]] eqn:E];
    calls_return; simpl; try done; apply as_i32_small; pose proof (zlen_nonneg d);
    [apply client_reader_bound in E|apply server_reader_bound in E];
    unfold in_i32 in *; lia.
Qed.

Lemma alpn_reports h p n : in_i32 n → reports nonneg (rlsm_tls_conn_alpn h p n).
Proof.
  intros Hi. unfold rlsm_tls_conn_alpn. calls_report. tcp_table.
  breflect. rewrite as_usize_nonneg_i32 in * by done.
  apply returns_with; [done|]. calls_return; simpl; try done. breflect.
  apply as_i32_small. unfold in_i32 in *. pose proof (zlen_nonneg l). lia.
Qed.

Ltac report_insert :=
  report_with count_nonneg; [apply insert_nonneg|intros ? ?; calls_report; by simplify_eq].

Lemma set_alpn_reports h p n : reports nonneg (rlsm_config_set_alpn_protocols h p n).
Proof.
  unfold rlsm_config_set_alpn_protocols. calls_report; [|done].
  report_table; [apply reports_err|calls_report; done].
Qed.

(** Every function of the TCP side that leaves a message for
    [rlsm_last_error] returned -1, and every one that leaves none returned a
    non-negative result. *)
Theorem tcp_api_reports c w r w' :
  tcp_args c → exec_tcp c w = Ret r w' →
  match w_last_error w' with Some _ => r = -1 | None => 0 ≤ r end.
Proof.
  intros Ha. change (exec_tcp c w = Ret r w' → reported nonneg r w').
  revert w r w'. change (reports nonneg (exec_tcp c)).
  destruct c; simpl in *; auto using read_tls_reports, write_tls_reports,
    write_plaintext_reports, read_plaintext_reports, alpn_reports, set_alpn_reports.
  - unfold rlsm_client_config_new, arc_new. calls_report. report_insert.
  - unfold rlsm_client_config_new_insecure, arc_new, _insert_client_config. calls_report.
    report_insert.
  - unfold rlsm_server_config_new, arc_new. calls_report. report_insert.
  - unfold rlsm_config_free. calls_report. done.
  - unfold rlsm_tls_client_new, get_client_config. calls_report. report_insert.
  - unfold rlsm_tls_server_new, get_server_config. calls_report. report_insert.
  - unfold rlsm_tls_conn_free. calls_report. done.
  - unfold rlsm_tls_conn_is_handshaking. calls_report. report_with count_nonneg.
    + apply returns_with; [done|]. calls_return. simpl. by destruct (TlsConn_is_handshaking x).
    + intros o Ho. calls_report. by simplify_eq.
Qed.
End TcpErrors.
(** ** Concrete runs *)

Definition toy_conn (c : @TlsConn toy) : toy_tcp :=
  match c with TlsClient c => c | TlsServer c => c end.
Definition taken (c : @TlsConn toy) : bytes := t_plain (toy_conn c) ++ t_in (toy_conn c).
Definition given (c : @TlsConn toy) : bytes := t_out (toy_conn c).

Definition tcp_conn : @TlsConn toy :=
  @TlsClient toy {| t_in := []; t_plain := [5]; t_out := [1; 2; 3]; t_chunk := 3; t_hs := true;
                    t_cfg := 0 |}.
Definition tcp_world : world :=
  set_conn {[1 := tcp_conn]} (boot (mem_of [[10; 11; 12; 13; 14; 15; 16]])).

Lemma taken_read c rd c' rd' n :
  TlsConn_read_tls c rd = (c', rd', inr n) →
  taken c' = taken c ++ sub (rd_pos rd) (rd_pos rd' - rd_pos rd) (rd_data rd).
Proof.
  destruct c as [c|c]; destruct rd as [d p]; intros [= <- <- _]; unfold taken; simpl;
    rewrite <- app_assoc; do 2 f_equal;
    unfold slice_read, toy_read_size; simpl; rewrite Z.add_simpl_l;
    unfold sub; change (Z.to_nat 0) with 0%nat; rewrite drop_0, take_take;
    (replace (Z.to_nat p + 0)%nat with (Z.to_nat p) by lia); f_equal;
    unfold zlen; rewrite length_take, length_drop; lia.
Qed.

Lemma taken_process c c' u : TlsConn_process_new_packets c = (c', inr u) → taken c' = taken c.
Proof.
  destruct c as [c|c]; simpl; unfold toy_process; case_if; intros [= <- _];
    unfold taken; simpl; by rewrite app_nil_r.
Qed.

Lemma read_tls_feeds_front_witness :
  ∃ r w' c', rlsm_tls_conn_read_tls 1 (Ptr 1 0) 7 tcp_world = Ret r w' ∧
    w_conn w' !! 1 = Some c' ∧
    ((r = -1 ∧ is_Some (w_last_error w')) ∨
     (0 ≤ r ≤ 7 ∧ w_last_error w' = None ∧ taken c' = [5] ++ sub 0 r [10; 11; 12; 13; 14; 15; 16] ∧
      (r < 7 → takes_no_more c'))).
Proof.
  apply (read_tls_feeds_front taken taken_read taken_process tcp_world 1 tcp_conn (Ptr 1 0) 7).
  - by_vm.
  - vm_compute. split; discriminate.
  - lia.
  - by_vm.
Defined.

(** All seven bytes are taken here, four at a time. *)
Example read_tls_all : result_of (rlsm_tls_conn_read_tls 1 (Ptr 1 0) 7 tcp_world) = Some 7.
Proof. by_eval. Qed.

Lemma given_write c data c' n :
  TlsConn_write_plaintext c data = (c', inr n) → given c' = given c ++ sub 0 n data.
Proof. destruct c as [c|c]; intros [= <- <-]; done. Qed.

Lemma given_process c c' u : TlsConn_process_new_packets c = (c', inr u) → given c' = given c.
Proof. destruct c as [c|c]; simpl; unfold toy_process; case_if; by intros [= <- _]. Qed.

Lemma write_plaintext_in_order_witness :
  ∃ r w' c', rlsm_tls_conn_write_plaintext 1 (Ptr 1 0) 7 tcp_world = Ret r w' ∧
    w_conn w' !! 1 = Some c' ∧
    ((r = -1 ∧ is_Some (w_last_error w')) ∨
     (0 ≤ r ≤ 7 ∧ w_last_error w' = None ∧
      given c' = [1; 2; 3] ++ sub 0 r [10; 11; 12; 13; 14; 15; 16])).
Proof.
  apply (write_plaintext_in_order given given_write given_process tcp_world 1 tcp_conn
           (Ptr 1 0) 7).
  - by_vm.
  - vm_compute. split; discriminate.
  - lia.
  - by_vm.
Defined.

Lemma write_tls_copies_front_witness :
  ∃ w', rlsm_tls_conn_write_tls 1 (Ptr 1 0) 2 tcp_world = Ret 2 w' ∧
    w_conn w' = <[1 := (TlsConn_write_tls tcp_conn {| wr_buf := [10; 11]; wr_pos := 0 |}).1.1]>
                  (w_conn tcp_world) ∧
    u8_at w' (Ptr 1 0) 2 = Some [1; 2].
Proof.
  apply (write_tls_copies_front tcp_world 1 tcp_conn (Ptr 1 0) 2 [10; 11] _
           {| wr_buf := [1; 2]; wr_pos := 2 |}).
  - by_vm.
  - vm_compute. split; discriminate.
  - lia.
  - by_vm.
  - by_vm.
Defined.

Lemma tcp_api_reports_witness :
  let c := TlsReadPlain 1 (Ptr 1 0) 4 in
  match w_last_error (state_of tcp_world (exec_tcp c tcp_world)) with
  | Some _ => 1 = -1
  | None => 0 ≤ 1
  end.
Proof.
  intros c. apply (tcp_api_reports c tcp_world 1).
  - vm_compute. split; discriminate.
  - apply ret_of. by_eval.
Defined.

End TcpFacts.
