(* ===== verification/QuicHs.v ===== *)
(** * QUIC handshakes behind handles

    Models [src/crates/librustls-mojo/src/quic_hs.rs]: QUIC configurations,
    client and server connections, the exchange of CRYPTO bytes with rustls,
    the pending key change between [write_hs] and [take_keys], the capture of
    the first ClientHello's random, key updates and 0-RTT. *)

From S2P Require Import Prelude Effects Handles Rustls World Utf8 QuicKeys.
Import Effects Handles Rustls World Utf8 QuicKeys.

Module QuicHs.

Section QuicHs.
Context {R : Rustls}.

(** ** Fields of a connection entry *)

Definition with_conn (e : QuicConnEntry) (c : QuicConn) : QuicConnEntry :=
  {| conn := c; pending := pending e; next_secrets := next_secrets e;
     alert_cache := alert_cache e; first_ch_prefix := first_ch_prefix e;
     first_ch_prefix_len := first_ch_prefix_len e;
     client_random_captured := client_random_captured e; client_random := client_random e |}.
Definition with_pending (e : QuicConnEntry) p : QuicConnEntry :=
  {| conn := conn e; pending := p; next_secrets := next_secrets e;
     alert_cache := alert_cache e; first_ch_prefix := first_ch_prefix e;
     first_ch_prefix_len := first_ch_prefix_len e;
     client_random_captured := client_random_captured e; client_random := client_random e |}.
Definition with_next_secrets (e : QuicConnEntry) s : QuicConnEntry :=
  {| conn := conn e; pending := pending e; next_secrets := s;
     alert_cache := alert_cache e; first_ch_prefix := first_ch_prefix e;
     first_ch_prefix_len := first_ch_prefix_len e;
     client_random_captured := client_random_captured e; client_random := client_random e |}.
Definition with_alert_cache (e : QuicConnEntry) a : QuicConnEntry :=
  {| conn := conn e; pending := pending e; next_secrets := next_secrets e;
     alert_cache := a; first_ch_prefix := first_ch_prefix e;
     first_ch_prefix_len := first_ch_prefix_len e;
     client_random_captured := client_random_captured e; client_random := client_random e |}.
Definition with_prefix (e : QuicConnEntry) l n : QuicConnEntry :=
  {| conn := conn e; pending := pending e; next_secrets := next_secrets e;
     alert_cache := alert_cache e; first_ch_prefix := l; first_ch_prefix_len := n;
     client_random_captured := client_random_captured e; client_random := client_random e |}.
Definition with_random (e : QuicConnEntry) r : QuicConnEntry :=
  {| conn := conn e; pending := pending e; next_secrets := next_secrets e;
     alert_cache := alert_cache e; first_ch_prefix := first_ch_prefix e;
     first_ch_prefix_len := first_ch_prefix_len e;
     client_random_captured := true; client_random := r |}.

Definition new_entry (c : QuicConn) : QuicConnEntry :=
  {| conn := c; pending := None; next_secrets := None; alert_cache := None;
     first_ch_prefix := replicate 38 0; first_ch_prefix_len := 0;
     client_random_captured := false; client_random := replicate 32 0 |}.

(** ** Configurations *)

(** [insert(Arc::new(config))], then the handle through [out_handle]. *)
Definition insert_out {T} (tbl : HandleTable world T) (x : T) (out_handle : ptr)
    (exhausted : string) : prog world Z :=
  o ← insert tbl x;
  match o with
  | Some h => write_i32 out_handle h;; mret 0
  | None => rlsm_err exhausted (-1)
  end.

Definition rlsm_quic_server_config_new (cert_pem : ptr) (cert_len : Z) (key_pem : ptr)
    (key_len : Z) (alpn_ptr : ptr) (alpn_len max_early_data : Z) (out_handle : ptr)
  : prog world Z :=
  clear_last_error;;
  if is_null cert_pem then rlsm_err "rlsm_quic_server_config_new: null cert_pem" (-1)
  else if is_null key_pem then rlsm_err "rlsm_quic_server_config_new: null key_pem" (-1)
  else if is_null alpn_ptr then rlsm_err "rlsm_quic_server_config_new: null alpn_ptr" (-1)
  else if is_null out_handle then rlsm_err "rlsm_quic_server_config_new: null out_handle" (-1)
  else if cert_len <? 0 then rlsm_err "rlsm_quic_server_config_new: negative cert_len" (-1)
  else if key_len <? 0 then rlsm_err "rlsm_quic_server_config_new: negative key_len" (-1)
  else if alpn_len <? 0 then rlsm_err "rlsm_quic_server_config_new: negative alpn_len" (-1)
  else if negb (max_early_data =? 0) && negb (max_early_data =? u32_max) then
    rlsm_err "rlsm_quic_server_config_new: rustls QUIC requires max_early_data ∈ {{0, 0xFFFFFFFF}}" (-1)
  else
    cert_bytes ← read_u8 cert_pem (as_usize cert_len);
    key_bytes ← read_u8 key_pem (as_usize key_len);
    alpn_bytes ← read_u8 alpn_ptr (as_usize alpn_len);
    match pem_certs cert_bytes with
    | inr [] => rlsm_err "rlsm_quic_server_config_new: no certs in cert_pem" (-1)
    | inl e =>
        set_last_error ("rlsm_quic_server_config_new: cert parse error: " +:+ io_error_display e);;
        mret (-1)
    | inr certs =>
        match pem_private_key key_bytes with
        | inr None => rlsm_err "rlsm_quic_server_config_new: no key in key_pem" (-1)
        | inl e =>
            set_last_error ("rlsm_quic_server_config_new: key parse error: "
                              +:+ io_error_display e);;
            mret (-1)
        | inr (Some key) =>
            match server_config_build true certs key with
            | inl e =>
                set_last_error ("rlsm_quic_server_config_new: config build error: "
                                  +:+ error_display e);;
                mret (-1)
            | inr config =>
                let config := server_config_set_key_log config in
                let config := server_config_set_alpn config [alpn_bytes] in
                match (if max_early_data =? 0 then server_config_set_ticketer config
                       else inr config) with
                | inl e =>
                    set_last_error ("rlsm_quic_server_config_new: ticketer build error: "
                                      +:+ error_display e);;
                    mret (-1)
                | inr config =>
                    insert_out quic_server_cfg_table
                      (server_config_set_max_early_data config max_early_data) out_handle
                      "rlsm_quic_server_config_new: handle counter exhausted"
                end
            end
        end
    end.

Definition rlsm_quic_client_config_new (alpn_ptr : ptr) (alpn_len : Z) (out_handle : ptr)
  : prog world Z :=
  clear_last_error;;
  if is_null alpn_ptr then rlsm_err "rlsm_quic_client_config_new: null alpn_ptr" (-1)
  else if is_null out_handle then rlsm_err "rlsm_quic_client_config_new: null out_handle" (-1)
  else if alpn_len <? 0 then rlsm_err "rlsm_quic_client_config_new: negative alpn_len" (-1)
  else
    alpn_bytes ← read_u8 alpn_ptr (as_usize alpn_len);
    let config := client_config_set_key_log (client_config_build true root_store_webpki) in
    insert_out quic_client_cfg_table (client_config_set_alpn config [alpn_bytes]) out_handle
      "rlsm_quic_client_config_new: handle counter exhausted".

(** [struct NoCertVerifier] of quic_hs.rs: any certificate chain is accepted, signatures are
    checked by the provider. *)
Definition NoCertVerifier : ServerCertVerifier cert server_name digitally_signed signature_scheme error :=
  let algorithms := signature_verification_algorithms aws_lc_rs_provider in
  {| verify_server_cert := λ _end_entity _intermediates _server_name _ocsp_response _now, inr tt;
     verify_tls12_signature := λ message cert dss, crypto_verify_tls12_signature message cert dss algorithms;
     verify_tls13_signature := λ message cert dss, crypto_verify_tls13_signature message cert dss algorithms;
     supported_verify_schemes := supported_schemes algorithms |}.

Definition rlsm_quic_client_config_new_insecure (alpn_ptr : ptr) (alpn_len : Z)
    (out_handle : ptr) : prog world Z :=
  clear_last_error;;
  if is_null alpn_ptr then
    rlsm_err "rlsm_quic_client_config_new_insecure: null alpn_ptr" (-1)
  else if is_null out_handle then
    rlsm_err "rlsm_quic_client_config_new_insecure: null out_handle" (-1)
  else if alpn_len <? 0 then
    rlsm_err "rlsm_quic_client_config_new_insecure: negative alpn_len" (-1)
  else
    alpn_bytes ← read_u8 alpn_ptr (as_usize alpn_len);
    let config := client_config_set_key_log (client_config_build_dangerous true aws_lc_rs_provider NoCertVerifier) in
    insert_out quic_client_cfg_table (client_config_set_alpn config [alpn_bytes]) out_handle
      "rlsm_quic_client_config_new_insecure: handle counter exhausted".

(** [for cert in certs { root_store.add(cert)? }] *)
Fixpoint add_roots (store : root_store) (certs : list cert) : error + root_store :=
  match certs with
  | [] => inr store
  | c :: certs =>
      match root_store_add store c with
      | inl e => inl e
      | inr store' => add_roots store' certs
      end
  end.

Definition rlsm_quic_client_config_with_ca (ca_pem : ptr) (ca_len : Z) (alpn_ptr : ptr)
    (alpn_len : Z) (out_handle : ptr) : prog world Z :=
  clear_last_error;;
  if is_null ca_pem then rlsm_err "rlsm_quic_client_config_with_ca: null ca_pem" (-1)
  else if is_null alpn_ptr then rlsm_err "rlsm_quic_client_config_with_ca: null alpn_ptr" (-1)
  else if is_null out_handle then
    rlsm_err "rlsm_quic_client_config_with_ca: null out_handle" (-1)
  else if ca_len <? 0 then rlsm_err "rlsm_quic_client_config_with_ca: negative ca_len" (-1)
  else if alpn_len <? 0 then rlsm_err "rlsm_quic_client_config_with_ca: negative alpn_len" (-1)
  else
    ca_bytes ← read_u8 ca_pem (as_usize ca_len);
    alpn_bytes ← read_u8 alpn_ptr (as_usize alpn_len);
    match pem_certs ca_bytes with
    | inr [] => rlsm_err "rlsm_quic_client_config_with_ca: no certs in ca_pem" (-1)
    | inl e =>
        set_last_error ("rlsm_quic_client_config_with_ca: ca parse error: "
                          +:+ io_error_display e);;
        mret (-1)
    | inr certs =>
        match add_roots root_store_empty certs with
        | inl e =>
            set_last_error ("rlsm_quic_client_config_with_ca: add root cert error: "
                              +:+ error_display e);;
            mret (-1)
        | inr store =>
            let config := client_config_set_key_log (client_config_build true store) in
            insert_out quic_client_cfg_table (client_config_set_alpn config [alpn_bytes])
              out_handle "rlsm_quic_client_config_with_ca: handle counter exhausted"
        end
    end.

(** ** Connections *)

Definition rlsm_quic_client_conn_new (config_handle version : Z) (server_name : ptr)
    (name_len : Z) (transport_params : ptr) (tp_len : Z) (out_handle : ptr)
  : prog world Z :=
  clear_last_error;;
  if is_null server_name then rlsm_err "rlsm_quic_client_conn_new: null server_name" (-1)
  else if is_null out_handle then rlsm_err "rlsm_quic_client_conn_new: null out_handle" (-1)
  else if name_len <? 0 then rlsm_err "rlsm_quic_client_conn_new: negative name_len" (-1)
  else if tp_len <? 0 then rlsm_err "rlsm_quic_client_conn_new: negative tp_len" (-1)
  else if (0 <? tp_len) && is_null transport_params then
    rlsm_err "rlsm_quic_client_conn_new: null transport_params with tp_len > 0" (-1)
  else
    match to_quic_version version with
    | inl e => set_last_error e;; mret (-1)
    | inr ver =>
        name_bytes ← read_u8 server_name (as_usize name_len);
        tp_bytes ← (if tp_len =? 0 then mret []
                    else read_u8 transport_params (as_usize tp_len));
        match from_utf8 name_bytes with
        | Some e =>
            set_last_error ("rlsm_quic_client_conn_new: invalid UTF-8 in server_name: "
                              +:+ utf8_error_display e);;
            mret (-1)
        | None =>
            match server_name_try_from name_bytes with
            | None =>
                set_last_error ("rlsm_quic_client_conn_new: invalid server name '"
                                  +:+ bytes_string name_bytes +:+ "': " +:+ name_error_display);;
                mret (-1)
            | Some sni =>
                o ← with_ quic_client_cfg_table config_handle (λ c, mret c);
                match o with
                | None => rlsm_err "rlsm_quic_client_conn_new: invalid config handle" (-1)
                | Some config =>
                    match qclient_new config ver sni tp_bytes with
                    | inl e =>
                        set_last_error ("rlsm_quic_client_conn_new: connection error: "
                                          +:+ error_display e);;
                        mret (-1)
                    | inr c =>
                        insert_out quic_conn_table (new_entry (QuicClient c)) out_handle
                          "rlsm_quic_client_conn_new: handle counter exhausted"
                    end
                end
            end
        end
    end.

Definition rlsm_quic_server_conn_new (config_handle version : Z) (transport_params : ptr)
    (tp_len : Z) (out_handle : ptr) : prog world Z :=
  clear_last_error;;
  if is_null out_handle then rlsm_err "rlsm_quic_server_conn_new: null out_handle" (-1)
  else if tp_len <? 0 then rlsm_err "rlsm_quic_server_conn_new: negative tp_len" (-1)
  else if (0 <? tp_len) && is_null transport_params then
    rlsm_err "rlsm_quic_server_conn_new: null transport_params with tp_len > 0" (-1)
  else
    match to_quic_version version with
    | inl e => set_last_error e;; mret (-1)
    | inr ver =>
        tp_bytes ← (if tp_len =? 0 then mret []
                    else read_u8 transport_params (as_usize tp_len));
        o ← with_ quic_server_cfg_table config_handle (λ c, mret c);
        match o with
        | None => rlsm_err "rlsm_quic_server_conn_new: invalid config handle" (-1)
        | Some config =>
            match qserver_new config ver tp_bytes with
            | inl e =>
                set_last_error ("rlsm_quic_server_conn_new: connection error: "
                                  +:+ error_display e);;
                mret (-1)
            | inr s =>
                insert_out quic_conn_table (new_entry (QuicServer s)) out_handle
                  "rlsm_quic_server_conn_new: handle counter exhausted"
            end
        end
    end.

Definition rlsm_quic_conn_free (conn_handle : Z) : prog world Z :=
  clear_last_error;;
  o ← remove quic_conn_table conn_handle;
  match o with
  | Some _ => mret 0
  | None => rlsm_err "rlsm_quic_conn_free: invalid conn handle" (-1)
  end.

(** [.unwrap_or_else(|| rlsm_err!(msg; return -1))] on a table access. *)
Definition or_invalid (msg : string) (o : option Z) : prog world Z :=
  match o with Some n => mret n | None => rlsm_err msg (-1) end.

(** ** CRYPTO bytes *)

Definition conn_write_hs (c : QuicConn)
  : QuicConn * bytes * option (KeyChange hkey pkey secrets) :=
  match c with
  | QuicClient c => let '(c', v, k) := qclient_write_hs c in (QuicClient c', v, k)
  | QuicServer s => let '(s', v, k) := qserver_write_hs s in (QuicServer s', v, k)
  end.

Definition conn_read_hs (c : QuicConn) (data : bytes) : QuicConn * (error + unit) :=
  match c with
  | QuicClient c => let '(c', r) := qclient_read_hs c data in (QuicClient c', r)
  | QuicServer s => let '(s', r) := qserver_read_hs s data in (QuicServer s', r)
  end.

Definition conn_alert (c : QuicConn) : option Z :=
  match c with QuicClient c => qclient_alert c | QuicServer s => qserver_alert s end.

Definition write_hs_pending_msg : string :=
  "rlsm_quic_conn_write_hs: pending key change not consumed — call take_keys first".

(** The key change recorded in the entry, and its kind. *)
Definition record_key_change (e : QuicConnEntry)
    (kc : option (KeyChange hkey pkey secrets)) : QuicConnEntry * Z :=
  match kc with
  | None => (e, 0)
  | Some (Handshake l r) => (with_pending e (Some (1, (wrap_keys l, wrap_keys r))), 1)
  | Some (OneRtt l r next) =>
      (with_next_secrets (with_pending e (Some (2, (wrap_keys l, wrap_keys r)))) (Some next), 2)
  end.

Definition rlsm_quic_conn_write_hs (conn_handle : Z) (out_buf : ptr) (out_capacity : Z)
    (out_written out_key_change_type : ptr) : prog world Z :=
  clear_last_error;;
  if is_null out_buf then rlsm_err "rlsm_quic_conn_write_hs: null out_buf" (-1)
  else if is_null out_written then rlsm_err "rlsm_quic_conn_write_hs: null out_written" (-1)
  else if is_null out_key_change_type then
    rlsm_err "rlsm_quic_conn_write_hs: null out_key_change_type" (-1)
  else if out_capacity <? 0 then
    rlsm_err "rlsm_quic_conn_write_hs: negative out_capacity" (-1)
  else
    o ← with_mut quic_conn_table conn_handle (λ entry,
      match pending entry with
      | Some _ => set_last_error write_hs_pending_msg;; mret (entry, -1)
      | None =>
          let '(c', vec, key_change) := conn_write_hs (conn entry) in
          let entry := with_conn entry c' in
          if as_usize out_capacity <? zlen vec then
            set_last_error ("rlsm_quic_conn_write_hs: output buffer too small (need "
                              +:+ pretty (zlen vec) +:+ ", have "
                              +:+ pretty out_capacity +:+ ")");;
            mret (entry, -1)
          else
            write_u8 out_buf vec;;
            write_i32 out_written (as_i32 (zlen vec));;
            let '(entry, kind) := record_key_change entry key_change in
            write_u8 out_key_change_type [kind];;
            mret (entry, 0)
      end);
    or_invalid "rlsm_quic_conn_write_hs: invalid conn handle" o.

(** The ingress hook of [read_hs] on server connections. *)
Definition capture_client_random (entry : QuicConnEntry) (slice : bytes) : QuicConnEntry :=
  let is_server := match conn entry with QuicServer _ => true | QuicClient _ => false end in
  if is_server && negb (client_random_captured entry)
     && negb (match slice with [] => true | _ => false end)
  then
    let cur := first_ch_prefix_len entry in
    if cur <? 38 then
      let want := 38 - cur in
      let take := Z.min want (zlen slice) in
      let entry := with_prefix entry
                     (splice cur (sub 0 take slice) (first_ch_prefix entry))
                     (as_u8 (cur + take)) in
      if first_ch_prefix_len entry =? 38 then
        if default 0 (head (first_ch_prefix entry)) =? 0x01
        then with_random entry (sub 6 32 (first_ch_prefix entry))
        else entry
      else entry
    else entry
  else entry.

Definition rlsm_quic_conn_read_hs (conn_handle : Z) (data : ptr) (len : Z)
    (out_state_machine_us out_handle_lookup_us : ptr) : prog world Z :=
  clear_last_error;;
  if is_null data && (0 <? len) then
    rlsm_err "rlsm_quic_conn_read_hs: null data with len > 0" (-1)
  else if len <? 0 then rlsm_err "rlsm_quic_conn_read_hs: negative len" (-1)
  else
    slice ← (if len =? 0 then mret [] else read_u8 data (as_usize len));
    o ← with_mut quic_conn_table conn_handle (λ entry,
      lookup_us ← elapsed_us;
      (if is_null out_handle_lookup_us then mret ()
       else write_u64 out_handle_lookup_us (as_u64 lookup_us));;
      let entry := capture_client_random entry slice in
      let '(c', result) := conn_read_hs (conn entry) slice in
      let entry := with_conn entry c' in
      sm_us ← elapsed_us;
      (if is_null out_state_machine_us then mret ()
       else write_u64 out_state_machine_us (as_u64 sm_us));;
      match result with
      | inr _ => mret (entry, 0)
      | inl e =>
          let alert_code := conn_alert (conn entry) in
          let entry := with_alert_cache entry (Some (default 50 alert_code)) in
          set_last_error ("rlsm_quic_conn_read_hs: TLS error: " +:+ error_display e);;
          mret (entry, -1)
      end);
    or_invalid "rlsm_quic_conn_read_hs: invalid conn handle" o.

Definition rlsm_quic_conn_alert (conn_handle : Z) : prog world Z :=
  clear_last_error;;
  o ← with_mut quic_conn_table conn_handle (λ entry,
    mret (with_alert_cache entry None, default (-1) (alert_cache entry)));
  or_invalid "rlsm_quic_conn_alert: invalid conn handle" o.

(** ** Keys *)

Definition rlsm_quic_conn_take_keys (conn_handle : Z) (out_keys_handle : ptr)
  : prog world Z :=
  clear_last_error;;
  if is_null out_keys_handle then
    rlsm_err "rlsm_quic_conn_take_keys: null out_keys_handle" (-1)
  else
    o ← with_mut quic_conn_table conn_handle (λ entry,
      match pending entry with
      | None =>
          set_last_error "rlsm_quic_conn_take_keys: no pending key change";; mret (entry, -1)
      | Some (_, (l, r)) =>
          let entry := with_pending entry None in
          let new := {| local := l; remote := r; last_local_pn := None |} in
          k ← insert keys_table new;
          match k with
          | Some kh => write_i32 out_keys_handle kh;; mret (entry, 0)
          | None =>
              set_last_error "rlsm_quic_conn_take_keys: KEYS_TABLE handle counter exhausted";;
              mret (entry, -1)
          end
      end);
    or_invalid "rlsm_quic_conn_take_keys: invalid conn handle" o.

Definition take_next_none_msg : string :=
  "rlsm_quic_conn_take_next_keys: no 1-RTT Secrets available (OneRtt key change not yet processed, or already consumed)".

Definition rlsm_quic_conn_take_next_keys (conn_handle : Z) (out_keys_handle : ptr)
  : prog world Z :=
  clear_last_error;;
  if is_null out_keys_handle then
    rlsm_err "rlsm_quic_conn_take_next_keys: null out_keys_handle" (-1)
  else
    o ← with_mut quic_conn_table conn_handle (λ entry,
      match next_secrets entry with
      | None => set_last_error take_next_none_msg;; mret (entry, -1)
      | Some s =>
          let entry := with_next_secrets entry None in
          let '((pl, pr), _) := next_packet_keys s in
          let new := {| local := {| header := NoOpHpKey; packet := RustlsPacketKey pl |};
                        remote := {| header := NoOpHpKey; packet := RustlsPacketKey pr |};
                        last_local_pn := None |} in
          k ← insert keys_table new;
          match k with
          | Some kh => write_i32 out_keys_handle kh;; mret (entry, 0)
          | None =>
              set_last_error
                "rlsm_quic_conn_take_next_keys: KEYS_TABLE handle counter exhausted";;
              mret (entry, -1)
          end
      end);
    or_invalid "rlsm_quic_conn_take_next_keys: invalid conn handle" o.

(** ** Queries *)

Definition conn_is_handshaking (c : QuicConn) : bool :=
  match c with
  | QuicClient c => qclient_is_handshaking c
  | QuicServer s => qserver_is_handshaking s
  end.

Definition rlsm_quic_conn_is_handshaking (conn_handle : Z) : prog world Z :=
  clear_last_error;;
  o ← with_ quic_conn_table conn_handle (λ entry,
    mret (if conn_is_handshaking (conn entry) then 1 else 0));
  or_invalid "rlsm_quic_conn_is_handshaking: invalid conn handle" o.

Definition rlsm_quic_conn_handshake_kind (conn_handle : Z) : prog world Z :=
  clear_last_error;;
  o ← with_ quic_conn_table conn_handle (λ entry,
    mret match conn entry with
         | QuicClient _ => -2
         | QuicServer s =>
             match qserver_handshake_kind s with
             | None => 0
             | Some Full => 1
             | Some Resumed => 2
             | Some FullWithHelloRetryRequest => 3
             end
         end);
  or_invalid "rlsm_quic_conn_handshake_kind: invalid conn handle" o.

(** The shared body of the two queries that copy bytes out. *)
Definition copy_out (name null_buf null_written neg : string)
    (f : QuicConn → option bytes) (conn_handle : Z) (out_buf : ptr)
    (out_capacity : Z) (out_written : ptr) : prog world Z :=
  clear_last_error;;
  if is_null out_buf then rlsm_err (name +:+ null_buf) (-1)
  else if is_null out_written then rlsm_err (name +:+ null_written) (-1)
  else if out_capacity <? 0 then rlsm_err (name +:+ neg) (-1)
  else
    o ← with_ quic_conn_table conn_handle (λ entry,
      match f (conn entry) with
      | None => write_i32 out_written 0;; mret 1
      | Some p =>
          if as_usize out_capacity <? zlen p then
            set_last_error (name +:+ ": buffer too small (need " +:+ pretty (zlen p)
                              +:+ ", have " +:+ pretty out_capacity +:+ ")");;
            mret (-1)
          else
            write_u8 out_buf p;;
            write_i32 out_written (as_i32 (zlen p));;
            mret 0
      end);
    or_invalid (name +:+ ": invalid conn handle") o.

Definition conn_transport_parameters (c : QuicConn) : option bytes :=
  match c with
  | QuicClient c => qclient_transport_parameters c
  | QuicServer s => qserver_transport_parameters s
  end.

Definition conn_alpn_protocol (c : QuicConn) : option bytes :=
  match c with
  | QuicClient c => qclient_alpn_protocol c
  | QuicServer s => qserver_alpn_protocol s
  end.

Definition rlsm_quic_conn_transport_params :=
  copy_out "rlsm_quic_conn_transport_params" ": null out_buf" ": null out_written"
    ": negative capacity" conn_transport_parameters.

Definition rlsm_quic_conn_alpn :=
  copy_out "rlsm_quic_conn_alpn" ": null out_buf" ": null out_written"
    ": negative capacity" conn_alpn_protocol.

(** ** 0-RTT *)

Definition rlsm_quic_conn_zero_rtt_keys (conn_handle : Z) (out_keys_handle : ptr)
  : prog world Z :=
  clear_last_error;;
  if is_null out_keys_handle then
    rlsm_err "rlsm_quic_conn_zero_rtt_keys: null out_keys_handle" (-1)
  else
    o ← with_ quic_conn_table conn_handle (λ entry,
      match conn entry with
      | QuicServer _ =>
          set_last_error "rlsm_quic_conn_zero_rtt_keys: not supported on server connections";;
          mret (-1)
      | QuicClient c =>
          match qclient_zero_rtt_keys c with
          | None => write_i32 out_keys_handle 0;; mret 1
          | Some local_dk =>
              let new := {| local := wrap_keys local_dk;
                            remote := {| header := NoOpHpKey2 "remote";
                                         packet := NoOpPacketKey "remote" |};
                            last_local_pn := None |} in
              k ← insert keys_table new;
              match k with
              | Some kh => write_i32 out_keys_handle kh;; mret 0
              | None =>
                  set_last_error "rlsm_quic_conn_zero_rtt_keys: handle exhausted";; mret (-1)
              end
          end
      end);
    or_invalid "rlsm_quic_conn_zero_rtt_keys: invalid conn handle" o.

Definition rlsm_quic_server_conn_zero_rtt_keys (conn_handle : Z) (out_keys_handle : ptr)
  : prog world Z :=
  clear_last_error;;
  if is_null out_keys_handle then
    rlsm_err "rlsm_quic_server_conn_zero_rtt_keys: null out_keys_handle" (-1)
  else
    o ← with_ quic_conn_table conn_handle (λ entry,
      match conn entry with
      | QuicClient _ =>
          set_last_error
            "rlsm_quic_server_conn_zero_rtt_keys: not supported on client connections";;
          write_i32 out_keys_handle (-1);;
          mret (-1)
      | QuicServer s =>
          match qserver_zero_rtt_keys s with
          | None => write_i32 out_keys_handle (-1);; mret 1
          | Some real_dk =>
              let new := {| local := {| header := NoOpHpKey2 "local";
                                        packet := NoOpPacketKey "local" |};
                            remote := wrap_keys real_dk;
                            last_local_pn := None |} in
              k ← insert keys_table new;
              match k with
              | Some kh => write_i32 out_keys_handle kh;; mret 0
              | None =>
                  set_last_error "rlsm_quic_server_conn_zero_rtt_keys: handle exhausted";;
                  write_i32 out_keys_handle (-1);;
                  mret (-1)
              end
          end
      end);
    match o with
    | Some n => mret n
    | None =>
        write_i32 out_keys_handle (-1);;
        rlsm_err "rlsm_quic_server_conn_zero_rtt_keys: invalid conn handle" (-1)
    end.

Definition rlsm_quic_conn_is_early_data_accepted (conn_handle : Z) : prog world Z :=
  clear_last_error;;
  o ← with_ quic_conn_table conn_handle (λ entry,
    match conn entry with
    | QuicClient c => mret (if qclient_is_early_data_accepted c then 1 else 0)
    | QuicServer _ =>
        set_last_error
          "rlsm_quic_conn_is_early_data_accepted: not applicable to server connections";;
        mret (-1)
    end);
  or_invalid "rlsm_quic_conn_is_early_data_accepted: invalid conn handle" o.

Definition reject_not_handshaking_msg : string :=
  "rlsm_quic_server_conn_reject_early_data: not a handshaking server conn".

(** [ServerConnection::reject_early_data] asserts that the handshake is not over. *)
Definition assert_reject_early_data (s : qserver) : prog world qserver :=
  assert_ (qserver_is_handshaking s) "cannot retroactively reject early data";;
  mret (qserver_reject_early_data s).

Definition rlsm_quic_server_conn_reject_early_data (conn_handle : Z) : prog world Z :=
  clear_last_error;;
  o ← with_mut quic_conn_table conn_handle (λ entry,
    match conn entry with
    | QuicServer s =>
        if qserver_is_handshaking s
        then s ← assert_reject_early_data s; mret (with_conn entry (QuicServer s), 0)
        else (set_last_error reject_not_handshaking_msg;; mret (entry, -1))
    | QuicClient _ => set_last_error reject_not_handshaking_msg;; mret (entry, -1)
    end);
  or_invalid "rlsm_quic_server_conn_reject_early_data: invalid conn handle" o.

Definition rlsm_quic_server_conn_replay_authenticator (conn_handle : Z)
    (out_buf out_len : ptr) : prog world Z :=
  clear_last_error;;
  if is_null out_buf then
    rlsm_err "rlsm_quic_server_conn_replay_authenticator: null out_buf" (-1)
  else if is_null out_len then
    rlsm_err "rlsm_quic_server_conn_replay_authenticator: null out_len" (-1)
  else
    write_u64 out_len 0;;
    o ← with_ quic_conn_table conn_handle (λ entry,
      match conn entry with
      | QuicClient _ =>
          set_last_error
            "rlsm_quic_server_conn_replay_authenticator: not applicable to client connections";;
          mret (-1)
      | QuicServer _ =>
          if negb (client_random_captured entry) then mret 1
          else
            write_u8 out_buf (client_random entry);;
            write_u64 out_len 32;;
            mret 0
      end);
    or_invalid "rlsm_quic_server_conn_replay_authenticator: invalid conn handle" o.
End QuicHs.
End QuicHs.
