(* ===== verification/QuicHsFacts.v ===== *)
(** * Properties of the handshake layer

    The capture of the first ClientHello's random over any sequence of calls,
    the protocol between [write_hs] and [take_keys], alerts, key updates and
    0-RTT keys. *)

From S2P Require Import Prelude Effects Handles Rustls World.
From S2P Require Import Frames Utf8 QuicKeys Toy QuicKeysFacts QuicHs.
Import Effects Handles Rustls World Frames Utf8 QuicKeys Toy QuicKeysFacts QuicHs.

Module QuicHsFacts.

(** ** The ClientHello random

    The abstract view: what the connection knows of the CRYPTO bytes [d] it has
    been fed since it was created. *)

Definition hello_prefix (d : bytes) : bytes := take 38 d ++ replicate (38 - length d) 0.
Definition hello_seen (d : bytes) : bool := (38 <=? zlen d) && (default 0 (head d) =? 1).
Definition hello_random (d : bytes) : bytes :=
  if hello_seen d then sub 6 32 d else replicate 32 0.

Section Capture.
Context {R : Rustls}.

Definition is_server (e : QuicConnEntry) : bool :=
  match conn e with QuicServer _ => true | QuicClient _ => false end.

(** The entry agrees with the abstract view. *)
Record captures (e : QuicConnEntry) (d : bytes) : Prop := {
  cap_prefix : first_ch_prefix e = hello_prefix d;
  cap_len : first_ch_prefix_len e = Z.min 38 (zlen d);
  cap_flag : client_random_captured e = hello_seen d;
  cap_random : client_random e = hello_random d;
}.

Lemma length_hello_prefix d : length (hello_prefix d) = 38%nat.
Proof. unfold hello_prefix. rewrite length_app, length_take, length_replicate. lia. Qed.

Lemma hello_prefix_long d s : 38 ≤ zlen d → hello_prefix (d ++ s) = hello_prefix d.
Proof.
  unfold hello_prefix, zlen. intros H. rewrite take_app_le by lia. f_equal.
  rewrite length_app. f_equal. lia.
Qed.

Lemma head_app_long {A} (d s : list A) : (0 < length d)%nat → head (d ++ s) = head d.
Proof. destruct d; simpl; [lia|done]. Qed.

Lemma hello_seen_long d s : 38 ≤ zlen d → hello_seen (d ++ s) = hello_seen d.
Proof.
  intros H. unfold hello_seen. rewrite head_app_long by (unfold zlen in *; lia).
  rewrite zlen_app. pose proof (zlen_nonneg s). f_equal. lia.
Qed.

Lemma hello_random_long d s : 38 ≤ zlen d → hello_random (d ++ s) = hello_random d.
Proof.
  intros H. unfold hello_random. rewrite hello_seen_long by done.
  case_if; [|done]. by rewrite sub_app_left by lia.
Qed.

(** Filling the prefix buffer from the next fragment. *)
Lemma hello_prefix_fill d s : zlen d < 38 →
  splice (zlen d) (sub 0 (Z.min (38 - zlen d) (zlen s)) s) (hello_prefix d) =
  hello_prefix (d ++ s).
Proof.
  intros Hd. set (t := Z.min (38 - zlen d) (zlen s)).
  assert (Ht : 0 ≤ t ≤ zlen s) by (unfold t; pose proof (zlen_nonneg s); lia).
  assert (Hs : zlen (sub 0 t s) = t) by (apply zlen_sub, fits_spec; lia).
  unfold hello_prefix at 1. rewrite take_ge by (unfold zlen in *; lia).
  replace (38 - length d)%nat with (Z.to_nat t + (38 - length d - Z.to_nat t))%nat
    by (unfold t, zlen in *; lia).
  rewrite replicate_add. rewrite splice_app by (rewrite Hs, zlen_replicate; lia).
  unfold hello_prefix. rewrite length_app, app_assoc. f_equal.
  - rewrite take_app. rewrite (take_ge d) by (unfold zlen in *; lia). f_equal.
    unfold sub, t, zlen. change (Z.to_nat 0) with 0%nat. rewrite drop_0.
    destruct (Z.le_gt_cases (zlen s) (38 - zlen d)) as [H|H]; unfold zlen in *.
    + rewrite !take_ge by lia. done.
    + f_equal. lia.
  - f_equal. unfold t, zlen in *. lia.
Qed.

(** Once full, the buffer starts like the bytes themselves. *)
Lemma hello_prefix_full d : 38 ≤ zlen d →
  head (hello_prefix d) = head d ∧ sub 6 32 (hello_prefix d) = sub 6 32 d.
Proof.
  intros Hd. unfold hello_prefix. split.
  - destruct d; [unfold zlen in Hd; simpl in Hd; lia|done].
  - rewrite sub_app_left; [|lia|lia|unfold zlen in *; rewrite length_take; lia].
    unfold sub. rewrite <- (take_drop 38 d) at 2.
    rewrite drop_app_le by (rewrite length_take; unfold zlen in *; lia).
    rewrite take_app_le; [done|]. rewrite length_drop, length_take. unfold zlen in *. lia.
Qed.

(** One fragment. *)
Lemma capture_step e d s :
  is_server e = true → captures e d → captures (capture_client_random e s) (d ++ s).
Proof.
  intros Hsrv [Hp Hl Hf Hr]. unfold capture_client_random. fold (is_server e). rewrite Hsrv.
  cbn [andb]. destruct (Z.le_gt_cases 38 (zlen d)) as [Hlong|Hshort].
  { assert (Hc : captures e (d ++ s)).
    { split.
      - by rewrite hello_prefix_long.
      - rewrite Hl, zlen_app. pose proof (zlen_nonneg s). lia.
      - by rewrite hello_seen_long.
      - by rewrite hello_random_long. }
    destruct (negb (client_random_captured e) && _); [|done].
    rewrite Hl. by rewrite (proj2 (Z.ltb_ge _ _)) by lia. }
  assert (Hns : hello_seen d = false).
  { unfold hello_seen. by rewrite (proj2 (Z.leb_gt _ _)). }
  rewrite Hf, Hns. cbn [andb negb]. destruct s as [|b s']; cbn [negb].
  { rewrite app_nil_r. by split. }
  set (s := b :: s') in *.
  rewrite Hl, (Z.min_r 38 (zlen d)) by lia. rewrite (proj2 (Z.ltb_lt _ _)) by lia.
  cbn [first_ch_prefix_len first_ch_prefix with_prefix]. rewrite Hp, hello_prefix_fill by done.
  set (t := Z.min (38 - zlen d) (zlen s)).
  assert (Ht : zlen d + t = Z.min 38 (zlen (d ++ s))).
  { rewrite zlen_app. unfold t. pose proof (zlen_nonneg d). pose proof (zlen_nonneg s). lia. }
  assert (Hu : as_u8 (zlen d + t) = Z.min 38 (zlen (d ++ s))).
  { rewrite Ht. unfold as_u8. apply Z.mod_small. pose proof (zlen_nonneg (d ++ s)). lia. }
  rewrite Hu. destruct (Z.le_gt_cases 38 (zlen (d ++ s))) as [Hl2|Hl2].
  - rewrite (Z.min_l 38) by lia. change (38 =? 38) with true. cbn iota.
    destruct (hello_prefix_full (d ++ s) Hl2) as [Hh Hsub].
    rewrite Hh. assert (Hsn : hello_seen (d ++ s) = (default 0 (head (d ++ s)) =? 1)).
    { unfold hello_seen. by rewrite (proj2 (Z.leb_le _ _)). }
    destruct (default 0 (head (d ++ s)) =? 1) eqn:Hone; split; simpl;
      rewrite ?Hsn, ?Hf, ?Hns, ?(Z.min_l 38) by lia; try done;
      unfold hello_random; rewrite Hsn; try done.
    by rewrite Hr; unfold hello_random; rewrite Hns.
  - rewrite (proj2 (Z.eqb_neq _ _)) by lia.
    assert (Hsn : hello_seen (d ++ s) = false).
    { unfold hello_seen. by rewrite (proj2 (Z.leb_gt _ _)). }
    split; simpl; rewrite ?Hf, ?Hns, ?Hsn; try done.
    unfold hello_random in *. by rewrite Hsn, Hr, Hns.
Qed.

(** ** Calls *)

(** The exported functions of quic_hs.rs, and those of quic.rs. *)
Inductive hs_call :=
  | ServerConfigNew (cert : ptr) (cert_len : Z) (key : ptr) (key_len : Z) (alpn : ptr)
      (alpn_len early : Z) (out : ptr)
  | ClientConfigNew (alpn : ptr) (alpn_len : Z) (out : ptr)
  | ClientConfigNewInsecure (alpn : ptr) (alpn_len : Z) (out : ptr)
  | ClientConfigWithCa (ca : ptr) (ca_len : Z) (alpn : ptr) (alpn_len : Z) (out : ptr)
  | ClientConnNew (cfg ver : Z) (name : ptr) (name_len : Z) (tp : ptr) (tp_len : Z) (out : ptr)
  | ServerConnNew (cfg ver : Z) (tp : ptr) (tp_len : Z) (out : ptr)
  | ConnFree (h : Z)
  | WriteHs (h : Z) (buf : ptr) (cap : Z) (written kind : ptr)
  | ReadHs (h : Z) (data : ptr) (len : Z) (sm_us lookup_us : ptr)
  | Alert (h : Z)
  | TakeKeys (h : Z) (out : ptr)
  | TakeNextKeys (h : Z) (out : ptr)
  | IsHandshaking (h : Z)
  | HandshakeKindOf (h : Z)
  | TransportParams (h : Z) (buf : ptr) (cap : Z) (written : ptr)
  | Alpn (h : Z) (buf : ptr) (cap : Z) (written : ptr)
  | ZeroRttKeys (h : Z) (out : ptr)
  | ServerZeroRttKeys (h : Z) (out : ptr)
  | IsEarlyDataAccepted (h : Z)
  | RejectEarlyData (h : Z)
  | ReplayAuthenticator (h : Z) (buf len : ptr)
  | Keys (c : call).

Definition exec_hs (c : hs_call) : prog world Z :=
  match c with
  | ServerConfigNew a b c d e f g h => rlsm_quic_server_config_new a b c d e f g h
  | ClientConfigNew a b c => rlsm_quic_client_config_new a b c
  | ClientConfigNewInsecure a b c => rlsm_quic_client_config_new_insecure a b c
  | ClientConfigWithCa a b c d e => rlsm_quic_client_config_with_ca a b c d e
  | ClientConnNew a b c d e f g => rlsm_quic_client_conn_new a b c d e f g
  | ServerConnNew a b c d e => rlsm_quic_server_conn_new a b c d e
  | ConnFree h => rlsm_quic_conn_free h
  | WriteHs a b c d e => rlsm_quic_conn_write_hs a b c d e
  | ReadHs a b c d e => rlsm_quic_conn_read_hs a b c d e
  | Alert h => rlsm_quic_conn_alert h
  | TakeKeys h o => rlsm_quic_conn_take_keys h o
  | TakeNextKeys h o => rlsm_quic_conn_take_next_keys h o
  | IsHandshaking h => rlsm_quic_conn_is_handshaking h
  | HandshakeKindOf h => rlsm_quic_conn_handshake_kind h
  | TransportParams a b c d => rlsm_quic_conn_transport_params a b c d
  | Alpn a b c d => rlsm_quic_conn_alpn a b c d
  | ZeroRttKeys h o => rlsm_quic_conn_zero_rtt_keys h o
  | ServerZeroRttKeys h o => rlsm_quic_server_conn_zero_rtt_keys h o
  | IsEarlyDataAccepted h => rlsm_quic_conn_is_early_data_accepted h
  | RejectEarlyData h => rlsm_quic_server_conn_reject_early_data h
  | ReplayAuthenticator a b c => rlsm_quic_server_conn_replay_authenticator a b c
  | Keys c => exec c
  end.

(** The CRYPTO bytes a call feeds to a handle. *)
Definition crypto_slice (w : world) (data : ptr) (len : Z) : bytes :=
  if len <=? 0 then [] else default [] (u8_at w data (as_usize len)).

Definition fed (h : Z) (c : hs_call) (w : world) : bytes :=
  match c with
  | ReadHs h' data len _ _ => if h' =? h then crypto_slice w data len else []
  | _ => []
  end.

(** A process running a list of calls: what it fed to [h] in all. *)
Fixpoint run_hs (h : Z) (cs : list hs_call) (w : world) : option (bytes * world) :=
  match cs with
  | [] => Some ([], w)
  | c :: cs =>
      match exec_hs c w with
      | Ret _ w1 =>
          match run_hs h cs w1 with
          | Some (d, w') => Some (fed h c w ++ d, w')
          | None => None
          end
      | _ => None
      end
  end.

(** Same view of the ClientHello, same side. *)
Definition same_capture (e e' : QuicConnEntry) : Prop :=
  is_server e' = is_server e ∧ ∀ d, captures e d → captures e' d.

#[export] Instance same_capture_preorder : PreOrder same_capture.
Proof.
  split.
  - done.
  - intros e1 e2 e3 [H1 C1] [H2 C2]. split; [congruence|auto].
Qed.

Abbreviation conns := (table_core quic_conn_table).
#[local] Instance conns_mem : IgnoresMem conns.
Proof. done. Qed.
#[local] Instance conns_error : IgnoresError conns.
Proof. done. Qed.
#[local] Instance conns_clock : IgnoresClock conns.
Proof. done. Qed.
#[local] Instance qconn_mem : IgnoresMem (map_of (quic_conn_table (R:=R))).
Proof. done. Qed.
#[local] Instance qconn_error : IgnoresError (map_of (quic_conn_table (R:=R))).
Proof. done. Qed.
#[local] Instance qconn_clock : IgnoresClock (map_of (quic_conn_table (R:=R))).
Proof. done. Qed.

Abbreviation hs_evolving := (evolving quic_conn_table same_capture).

Lemma same_capture_conn e c :
  (match c with QuicServer _ => true | QuicClient _ => false end) = is_server e →
  same_capture e (with_conn e c).
Proof. intros H. split; [done|]. by intros d []. Qed.

Lemma same_capture_pending e p : same_capture e (with_pending e p).
Proof. split; [done|]. by intros d []. Qed.
Lemma same_capture_secrets e x : same_capture e (with_next_secrets e x).
Proof. split; [done|]. by intros d []. Qed.
Lemma same_capture_alert e a : same_capture e (with_alert_cache e a).
Proof. split; [done|]. by intros d []. Qed.

Lemma conn_write_hs_side e c' v k :
  conn_write_hs (conn e) = (c', v, k) → same_capture e (with_conn e c').
Proof.
  intros H. apply same_capture_conn. unfold conn_write_hs, is_server in *.
  destruct (conn e); repeat case_match; by simplify_eq.
Qed.

Lemma conn_read_hs_side e s c' r :
  conn_read_hs (conn e) s = (c', r) → same_capture e (with_conn e c').
Proof.
  intros H. apply same_capture_conn. unfold conn_read_hs, is_server in *.
  destruct (conn e); repeat case_match; by simplify_eq.
Qed.

Lemma same_capture_key_change e kc e' k :
  record_key_change e kc = (e', k) → same_capture e e'.
Proof.
  unfold record_key_change. intros H. repeat case_match; simplify_eq;
    (split; [done|]; by intros d []).
Qed.

Lemma write_hs_evolving h b c d e : hs_evolving (rlsm_quic_conn_write_hs h b c d e).
Proof.
  unfold rlsm_quic_conn_write_hs, or_invalid. calls_evolve; [calls_keep|].
  calls_return; simpl; try reflexivity; simplify_eq;
    (etrans; [by eapply conn_write_hs_side|]); try reflexivity.
  by eapply same_capture_key_change.
Qed.

Lemma alert_evolving h : hs_evolving (rlsm_quic_conn_alert h).
Proof.
  unfold rlsm_quic_conn_alert, or_invalid. calls_evolve; [calls_keep|].
  calls_return. apply same_capture_alert.
Qed.

Lemma take_keys_evolving h o : hs_evolving (rlsm_quic_conn_take_keys h o).
Proof.
  unfold rlsm_quic_conn_take_keys, or_invalid. calls_evolve; [calls_keep|].
  calls_return; simpl; (reflexivity || apply same_capture_pending).
Qed.

Lemma take_next_keys_evolving h o : hs_evolving (rlsm_quic_conn_take_next_keys h o).
Proof.
  unfold rlsm_quic_conn_take_next_keys, or_invalid. calls_evolve; [calls_keep|].
  calls_return; simpl; (reflexivity || apply same_capture_secrets).
Qed.

Lemma reject_evolving h : hs_evolving (rlsm_quic_server_conn_reject_early_data h).
Proof.
  unfold rlsm_quic_server_conn_reject_early_data, assert_reject_early_data, assert_, or_invalid. calls_evolve; [calls_keep|].
  calls_return; simpl; try reflexivity. apply same_capture_conn. unfold is_server.
  by rewrite Heqq.
Qed.

Lemma keys_call_keeps c : hs_evolving (exec c).
Proof.
  destruct c; simpl;
  unfold rlsm_initial_keys, rlsm_initial_keys_raw, derive_raw_keys, initial_suite,
      expand_with_label, rlsm_keys_local_encrypt, rlsm_keys_remote_decrypt,
      rlsm_keys_local_header_protect, rlsm_keys_remote_header_unprotect,
      header_in_place, rlsm_keys_batch_header_unprotect, batch_unprotect_one,
      rlsm_keys_batch_header_protect, batch_protect_one, rlsm_keys_tag_len,
      rlsm_keys_batch_decrypt, rlsm_keys_batch_encrypt, batch_decrypt_one, batch_encrypt_one,
      rlsm_test_keys_free_count, rlsm_test_keys_free_reset, rlsm_aes_gcm_128_seal,
      rlsm_aes_gcm_128_open, rlsm_hmac_sha256, rlsm_keys_free;
  calls_evolve.
Qed.

Lemma exec_hs_evolving c :
  (∀ h data len a b, c ≠ ReadHs h data len a b) → hs_evolving (exec_hs c).
Proof.
  intros Hc. destruct c; simpl; try (by exfalso; eapply Hc);
    auto using write_hs_evolving, alert_evolving, take_keys_evolving,
      take_next_keys_evolving, reject_evolving, keys_call_keeps;
    unfold rlsm_quic_server_config_new, rlsm_quic_client_config_new,
      rlsm_quic_client_config_new_insecure, rlsm_quic_client_config_with_ca,
      rlsm_quic_client_conn_new, rlsm_quic_server_conn_new, rlsm_quic_conn_free,
      rlsm_quic_conn_is_handshaking, rlsm_quic_conn_handshake_kind,
      rlsm_quic_conn_transport_params, rlsm_quic_conn_alpn, copy_out,
      rlsm_quic_conn_zero_rtt_keys, rlsm_quic_server_conn_zero_rtt_keys,
      rlsm_quic_conn_is_early_data_accepted, rlsm_quic_server_conn_replay_authenticator,
      insert_out, or_invalid;
    calls_evolve.
Qed.

Lemma capture_nil e : capture_client_random e [] = e.
Proof. unfold capture_client_random. by rewrite andb_false_r. Qed.

(** What [read_hs] does to the table of connections. *)
Definition fed_entry (s : bytes) (o o' : option QuicConnEntry) : Prop :=
  match o, o' with
  | None, None => True
  | Some e, Some e' => same_capture (capture_client_random e s) e'
  | _, _ => False
  end.

Lemma fed_entry_nil o : fed_entry [] o o.
Proof. destruct o; simpl; [rewrite capture_nil; reflexivity|done]. Qed.

Definition slice_prog (data : ptr) (len : Z) : prog world bytes :=
  if len =? 0 then mret [] else read_u8 data (as_usize len).

Lemma slice_prog_inv w data len s w1 :
  0 ≤ len → slice_prog data len w = Ret s w1 → w1 = w ∧ s = crypto_slice w data len.
Proof.
  intros Hl. unfold slice_prog, crypto_slice, u8_at. destruct (len =? 0) eqn:E; breflect.
  - intros [= <- <-]. by rewrite (proj2 (Z.leb_le _ _)) by lia.
  - rewrite (proj2 (Z.leb_gt _ _)) by lia. unfold read_u8. run.
    destruct (load _ data _); [|done]. by intros [= <- <-].
Qed.

Lemma read_hs_effect h data len p q w r w' :
  rlsm_quic_conn_read_hs h data len p q w = Ret r w' →
  w_next w' = w_next w ∧ (∀ k, k ≠ h → w_qconn w' !! k = w_qconn w !! k) ∧
  fed_entry (crypto_slice w data len) (w_qconn w !! h) (w_qconn w' !! h).
Proof.
  unfold rlsm_quic_conn_read_hs. fold (slice_prog data len). intros H.
  apply bind_Ret_inv in H as ([] & w1 & [= <-] & H).
  destruct (is_null data && (0 <? len)) eqn:G1.
  { injection H as _ <-. split_and!; [done..|]. unfold crypto_slice, u8_at.
    destruct data; [|done]. case_if; apply fed_entry_nil. }
  destruct (len <? 0) eqn:G2; breflect.
  { injection H as _ <-. split_and!; [done..|]. unfold crypto_slice.
    rewrite (proj2 (Z.leb_le _ _)) by lia. apply fed_entry_nil. }
  apply bind_Ret_inv in H as (s & w1 & H1 & H).
  apply slice_prog_inv in H1 as [-> ->]; [|done].
  change (crypto_slice (set_error None w) data len) with (crypto_slice w data len) in H.
  set (s := crypto_slice w data len) in *.
  apply bind_Ret_inv in H as (o & w2 & H2 & H).
  assert (Hw' : w_qconn w' = w_qconn w2 ∧ w_next w' = w_next w2).
  { unfold or_invalid in H. destruct o; injection H as _ <-; done. }
  destruct Hw' as [-> ->].
  apply with_mut_inv in H2 as [(-> & -> & Hn)|(e & e' & res & w3 & He & Hg & -> & ->)].
  { simpl in *. rewrite Hn. by split_and!. }
  assert (Hk : conns w3 = conns (set_error None w)).
  { revert Hg. match goal with |- ?g _ = _ → _ =>
      assert (Hq : keeps conns g) by calls_keep end. apply Hq. }
  assert (Hc : same_capture (capture_client_random e s) e').
  { revert Hg. match goal with |- ?g _ = _ → _ =>
      assert (Hq : returns (λ x, same_capture (capture_client_random e s) x.1) g) end.
    { calls_return; simpl; try (by eapply conn_read_hs_side).
      etrans; [by eapply conn_read_hs_side|apply same_capture_alert]. }
    apply Hq. }
  injection Hk as Hk1 Hk2. simpl in *. rewrite Hk1. split_and!; [done| |].
  - intros k Hne. by rewrite lookup_insert_ne.
  - rewrite He, lookup_insert_eq. done.
Qed.

(** The view of a handle that is dead, or a server that has been fed [d]. *)
Definition server_view (h : Z) (w : world) (d : bytes) : Prop :=
  match w_qconn w !! h with
  | None => True
  | Some e => is_server e = true ∧ captures e d
  end.

Lemma server_view_call h c w r w1 d :
  exec_hs c w = Ret r w1 → in_i32 (w_next w) → h < issued w → server_view h w d →
  in_i32 (w_next w1) ∧ h < issued w1 ∧ server_view h w1 (d ++ fed h c w).
Proof.
  intros Hc Hi Hh Hv.
  assert (D : (∃ h' data len a b, c = ReadHs h' data len a b) ∨
              (∀ h' data len a b, c ≠ ReadHs h' data len a b)).
  { destruct c; eauto 10. }
  destruct D as [(h' & data & len & a & b & ->)|Hne].
  - apply read_hs_effect in Hc as (Hn & Ho & Hf).
    assert (Hiss : issued w1 = issued w).
    { unfold issued. change (counter w1) with (w_next w1). by rewrite Hn. }
    rewrite Hn, Hiss. split_and!; [done|done|]. unfold server_view in *. simpl fed.
    destruct (h' =? h) eqn:E; breflect.
    + subst h'. destruct (w_qconn w !! h) as [e|], (w_qconn w1 !! h) as [e1|]; try done.
      destruct Hv as [Hs Hcap]. destruct Hf as [Hs1 Hc1].
      assert (Hsc : is_server (capture_client_random e (crypto_slice w data len)) = true).
      { rewrite <- Hs. unfold capture_client_random. cbv zeta. by repeat case_if. }
      split; [congruence|]. apply Hc1. by apply capture_step.
    + rewrite (Ho h) by done. by rewrite app_nil_r.
  - destruct (exec_hs_evolving c Hne w r w1 Hc Hi) as (Hi1 & Hiss & Hle).
    split_and!; [done|lia|]. specialize (Hle h Hh). unfold server_view in *.
    replace (fed h c w) with (@nil Z) by (by destruct c; try done; exfalso; eapply Hne).
    rewrite app_nil_r. simpl in Hle.
    destruct (w_qconn w !! h) as [e|], (w_qconn w1 !! h) as [e1|]; try done.
    destruct Hv as [Hs Hcap]. destruct Hle as [Hs1 Hc1]. split; [congruence|auto].
Qed.

Lemma server_view_run h cs w d0 d w' :
  run_hs h cs w = Some (d, w') → in_i32 (w_next w) → h < issued w → server_view h w d0 →
  server_view h w' (d0 ++ d).
Proof.
  revert w d0 d. induction cs as [|c cs IH]; intros w d0 d Hr Hi Hh Hv; simpl in Hr.
  { injection Hr as <- <-. by rewrite app_nil_r. }
  destruct (exec_hs c w) as [r w1| | |] eqn:Hc; try done.
  destruct (run_hs h cs w1) as [[d1 w2]|] eqn:Hcs; [|done]. injection Hr as <- <-.
  destruct (server_view_call h c w r w1 d0 Hc Hi Hh Hv) as (Hi1 & Hh1 & Hv1).
  rewrite app_assoc. by eapply IH.
Qed.

Lemma captures_new s : captures (new_entry (QuicServer s)) [].
Proof. by split. Qed.

Lemma authenticator_ok w h e d out out_len b n :
  w_qconn w !! h = Some e → is_server e = true → captures e d →
  u8_at w out 32 = Some b → load (m_u64 (w_mem w)) out_len 1 = Some [n] →
  ∃ w', rlsm_quic_server_conn_replay_authenticator h out out_len w =
          Ret (if hello_seen d then 0 else 1) w' ∧
    u8_at w' out 32 = Some (if hello_seen d then sub 6 32 d else b) ∧
    load (m_u64 (w_mem w')) out_len 1 = Some [if hello_seen d then 32 else 0].
Proof.
  intros He Hs [_ _ Hf Hr] Hout Hlen. unfold u8_at in *.
  destruct (store_load _ _ 1 _ [0] Hlen eq_refl) as (h0 & S0 & L0).
  unfold rlsm_quic_server_conn_replay_authenticator, or_invalid. run. pass_guards.
  rewrite (write_u64_ok _ _ _ h0) by done.
  rewrite (with_Some quic_conn_table h _ _ e) by done.
  unfold is_server in Hs. destruct (conn e) as [|srv]; [done|]. rewrite Hf.
  destruct (hello_seen d) eqn:Hseen; cbn [negb]; [|by eexists].
  assert (Hrl : zlen (client_random e) = 32).
  { rewrite Hr. unfold hello_random. rewrite Hseen. apply zlen_sub, fits_spec.
    unfold hello_seen in Hseen. breflect. lia. }
  destruct (store_load _ _ 32 _ (client_random e) Hout Hrl) as (h1 & S1 & L1).
  destruct (store_load _ _ 1 _ [32] L0 eq_refl) as (h2 & S2 & L2).
  rewrite (write_u8_ok _ _ _ h1) by done. rewrite (write_u64_ok _ _ _ h2) by done.
  eexists. split_and!; [done| |done]. rewrite Hr in L1. unfold hello_random in L1.
  by rewrite Hseen in L1.
Qed.

(** C5: however the CRYPTO stream of a server connection is cut into
    [read_hs] calls, and whatever other calls come in between, the replay
    authenticator is bytes 6 to 37 of the concatenation of what was fed,
    available exactly when at least 38 bytes were fed and they start with a
    ClientHello; until then the call answers 1 and sets the length to 0. *)
Theorem authenticator_of_stream cs w h s d w' e' out out_len b n :
  w_qconn w !! h = Some (new_entry (QuicServer s)) →
  in_i32 (w_next w) → h < issued w →
  run_hs h cs w = Some (d, w') → w_qconn w' !! h = Some e' →
  u8_at w' out 32 = Some b → load (m_u64 (w_mem w')) out_len 1 = Some [n] →
  ∃ w'', rlsm_quic_server_conn_replay_authenticator h out out_len w' =
           Ret (if hello_seen d then 0 else 1) w'' ∧
    u8_at w'' out 32 = Some (if hello_seen d then sub 6 32 d else b) ∧
    load (m_u64 (w_mem w'')) out_len 1 = Some [if hello_seen d then 32 else 0].
Proof.
  intros He Hi Hh Hr He' Hout Hlen.
  assert (Hv : server_view h w []).
  { unfold server_view. rewrite He. split; [done|apply captures_new]. }
  pose proof (server_view_run _ _ _ _ _ _ Hr Hi Hh Hv) as Hv'.
  unfold server_view in Hv'. rewrite He' in Hv'. destruct Hv' as [Hs Hc].
  by eapply authenticator_ok.
Qed.
End Capture.
(** ** Key changes *)

Section KeyChange.
Context {R : Rustls}.

(** The keys a key change carries, and its kind. *)
Definition change_keys (kc : KeyChange hkey pkey secrets) : (hkey * pkey) * (hkey * pkey) :=
  match kc with Handshake l r => (l, r) | OneRtt l r _ => (l, r) end.
Definition change_kind (kc : KeyChange hkey pkey secrets) : Z :=
  match kc with Handshake _ _ => 1 | OneRtt _ _ _ => 2 end.

Lemma write_hs_pending w h e p buf cap written kind :
  w_qconn w !! h = Some e → pending e = Some p →
  is_null buf || is_null written || is_null kind = false → 0 ≤ cap →
  rlsm_quic_conn_write_hs h buf cap written kind w =
    Ret (-1) (set_error (Some write_hs_pending_msg) w).
Proof.
  intros He Hp Hn Hc. apply orb_false_elim in Hn as [Hn N3].
  apply orb_false_elim in Hn as [N1 N2].
  unfold rlsm_quic_conn_write_hs, or_invalid. run. pass_guards.
  rewrite (with_mut_Some quic_conn_table h _ _ e) by done. rewrite Hp. simpl.
  rewrite insert_id by done. by destruct w.
Qed.

Lemma write_hs_ok w h e c' vec kc buf cap written kind b z k :
  w_qconn w !! h = Some e → pending e = None →
  conn_write_hs (conn e) = (c', vec, kc) → in_i32 cap → zlen vec ≤ cap →
  u8_at w buf (zlen vec) = Some b → load (m_i32 (w_mem w)) written 1 = Some [z] →
  u8_at w kind 1 = Some [k] → apart buf (zlen vec) kind 1 →
  let '(e', n) := record_key_change (with_conn e c') kc in
  ∃ w', rlsm_quic_conn_write_hs h buf cap written kind w = Ret 0 w' ∧
    u8_at w' buf (zlen vec) = Some vec ∧ u8_at w' kind 1 = Some [n] ∧
    load (m_i32 (w_mem w')) written 1 = Some [zlen vec] ∧
    w_qconn w' = <[h := e']> (w_qconn w) ∧ w_keys w' = w_keys w ∧
    w_next w' = w_next w ∧
    (∀ q, apart written 1 q 1 → load (m_i32 (w_mem w')) q 1 = load (m_i32 (w_mem w)) q 1).
Proof.
  intros He Hp Hw Ic Hcap Hb Hz Hk Ha. unfold u8_at in *.
  destruct (record_key_change (with_conn e c') kc) as [e' n] eqn:Hrec.
  pose proof (zlen_nonneg vec).
  destruct (store_load _ _ _ _ vec Hb eq_refl) as (h1 & S1 & L1).
  destruct (store_load _ _ 1 _ [as_i32 (zlen vec)] Hz eq_refl) as (h2 & S2 & L2).
  assert (Hk1 : load h1 kind 1 = Some [k]) by (by rewrite (load_store_apart _ _ _ _ _ _ S1)).
  destruct (store_load _ _ 1 _ [n] Hk1 eq_refl) as (h3 & S3 & L3).
  unfold rlsm_quic_conn_write_hs, or_invalid. run. pass_guards.
  rewrite (with_mut_Some quic_conn_table h _ _ e) by done. rewrite Hp, Hw.
  rewrite as_usize_nonneg_i32 by (done || lia). pass_guards.
  rewrite (write_u8_ok _ _ _ h1) by done. rewrite (write_i32_ok _ _ _ h2) by done.
  rewrite Hrec. rewrite (write_u8_ok _ _ _ h3) by done.
  assert (Hi : as_i32 (zlen vec) = zlen vec)
    by (apply as_i32_id; unfold in_i32, i32_min in *; lia).
  eexists. split_and!; [done| |done| |done..|].
  - simpl. rewrite (load_store_apart _ _ buf (zlen vec) _ _ S3); [done|]. by apply apart_sym.
  - simpl. by rewrite Hi in L2.
  - intros q Hq. simpl. by apply (load_store_apart _ _ q 1 _ _ S2).
Qed.

Lemma take_keys_ok w h e n l r out z :
  w_qconn w !! h = Some e → pending e = Some (n, (l, r)) →
  0 < w_next w → load (m_i32 (w_mem w)) out 1 = Some [z] →
  ∃ w', rlsm_quic_conn_take_keys h out w = Ret 0 w' ∧
    load (m_i32 (w_mem w')) out 1 = Some [w_next w] ∧
    w_keys w' = <[w_next w := {| local := l; remote := r; last_local_pn := None |}]> (w_keys w) ∧
    w_qconn w' = <[h := with_pending e None]> (w_qconn w) ∧ w_last_error w' = None.
Proof.
  intros He Hp Hn Hout.
  destruct (store_load _ _ 1 _ [w_next w] Hout eq_refl) as (h1 & S1 & L1).
  unfold rlsm_quic_conn_take_keys, or_invalid. run. pass_guards.
  rewrite (with_mut_Some quic_conn_table h _ _ e) by done. rewrite Hp.
  assert (Hc : 0 < counter (set_error None w)) by exact Hn.
  rewrite (insert_pos keys_table _ (set_error None w) Hc).
  rewrite (write_i32_ok _ _ _ h1) by done. by eexists.
Qed.

Lemma take_keys_none w h e out :
  w_qconn w !! h = Some e → pending e = None → is_null out = false →
  ∃ w', rlsm_quic_conn_take_keys h out w = Ret (-1) w' ∧ w_keys w' = w_keys w ∧
    w_qconn w' = w_qconn w ∧ is_Some (w_last_error w').
Proof.
  intros He Hp Hout. unfold rlsm_quic_conn_take_keys, or_invalid. run. pass_guards.
  rewrite (with_mut_Some quic_conn_table h _ _ e) by done. rewrite Hp.
  eexists. split_and!; [done|done| |by eexists]. simpl. by rewrite insert_id.
Qed.

(** C6: a key change reported by [write_hs] blocks further writes until it
    is taken; [take_keys] then stores exactly the keys rustls handed out,
    under a new handle with no packet number used yet, and a second
    [take_keys] fails without touching either table. *)
Theorem key_change_protocol w h e c' vec kc buf cap written kind out b z k z' :
  w_qconn w !! h = Some e → pending e = None →
  conn_write_hs (conn e) = (c', vec, Some kc) →
  in_i32 cap → zlen vec ≤ cap → 0 < w_next w →
  u8_at w buf (zlen vec) = Some b → load (m_i32 (w_mem w)) written 1 = Some [z] →
  u8_at w kind 1 = Some [k] → apart buf (zlen vec) kind 1 →
  load (m_i32 (w_mem w)) out 1 = Some [z'] → apart written 1 out 1 →
  ∃ w1 w2 w3,
    rlsm_quic_conn_write_hs h buf cap written kind w = Ret 0 w1 ∧
    u8_at w1 buf (zlen vec) = Some vec ∧ u8_at w1 kind 1 = Some [change_kind kc] ∧
    rlsm_quic_conn_write_hs h buf cap written kind w1 =
      Ret (-1) (set_error (Some write_hs_pending_msg) w1) ∧
    rlsm_quic_conn_take_keys h out w1 = Ret 0 w2 ∧
    load (m_i32 (w_mem w2)) out 1 = Some [w_next w] ∧
    w_keys w2 = <[w_next w := {| local := wrap_keys (change_keys kc).1;
                                 remote := wrap_keys (change_keys kc).2;
                                 last_local_pn := None |}]> (w_keys w) ∧
    rlsm_quic_conn_take_keys h out w2 = Ret (-1) w3 ∧
    w_keys w3 = w_keys w2 ∧ w_qconn w3 = w_qconn w2.
Proof.
  intros He Hp Hw Ic Hcap Hn Hb Hz Hk Ha Hout Ha2.
  pose proof (write_hs_ok w h e c' vec (Some kc) buf cap written kind b z k
                He Hp Hw Ic Hcap Hb Hz Hk Ha) as Hok.
  destruct (record_key_change (with_conn e c') (Some kc)) as [e1 n1] eqn:Hrec.
  destruct Hok as (w1 & E1 & V1 & K1 & Z1 & Q1 & Y1 & N1 & F1).
  assert (Hrec' : n1 = change_kind kc ∧ pending e1 = Some (change_kind kc,
    (wrap_keys (change_keys kc).1, wrap_keys (change_keys kc).2))).
  { destruct kc; simpl in Hrec; by injection Hrec as <- <-. }
  destruct Hrec' as [-> Hp1].
  assert (He1 : w_qconn w1 !! h = Some e1) by (by rewrite Q1, lookup_insert_eq).
  rewrite <- N1 in Hn.
  destruct (take_keys_ok w1 h e1 _ _ _ out z' He1 Hp1 Hn) as (w2 & E2 & O2 & Y2 & Q2 & _).
  { by rewrite F1. }
  destruct (take_keys_none w2 h (with_pending e1 None) out) as (w3 & E3 & Y3 & Q3 & _).
  { by rewrite Q2, lookup_insert_eq. }
  { done. }
  { by destruct out. }
  exists w1, w2, w3. rewrite <- N1, <- Y1. split_and!; try done.
  eapply write_hs_pending; [done|done| |pose proof (zlen_nonneg vec); lia].
  unfold u8_at in *. pass_guards. done.
Qed.
End KeyChange.

(** ** A flight that does not fit *)

Section SmallBuffer.
Context {R : Rustls}.

(** C36: when the output buffer is smaller than the flight, [write_hs] reports
    an error after rustls has already handed the flight over: the connection
    has advanced, the bytes are in no buffer, and the key change that came
    with them is not recorded, so that neither a retry with a larger buffer
    nor [take_keys] gets them back. *)
Theorem write_hs_small_buffer_loses_flight w h e c' vec kc buf cap written kind :
  w_qconn w !! h = Some e → pending e = None →
  conn_write_hs (conn e) = (c', vec, kc) → in_i32 cap → 0 ≤ cap < zlen vec →
  is_null buf || is_null written || is_null kind = false →
  ∃ w', rlsm_quic_conn_write_hs h buf cap written kind w = Ret (-1) w' ∧
    w_mem w' = w_mem w ∧ w_keys w' = w_keys w ∧
    w_qconn w' = <[h := with_conn e c']> (w_qconn w) ∧ pending (with_conn e c') = None.
Proof.
  intros He Hp Hw Ic Hcap Hn. apply orb_false_elim in Hn as [Hn N3].
  apply orb_false_elim in Hn as [N1 N2].
  unfold rlsm_quic_conn_write_hs, or_invalid. run. pass_guards.
  rewrite (with_mut_Some quic_conn_table h _ _ e) by done. rewrite Hp, Hw.
  rewrite as_usize_nonneg_i32 by (done || lia). pass_guards. by eexists.
Qed.
End SmallBuffer.

(** ** Alerts *)

Section Alerts.
Context {R : Rustls}.

(** Failing to process CRYPTO bytes caches an alert, which is read once. *)
Lemma read_hs_error w h e data len slice c' err :
  w_qconn w !! h = Some e → in_i32 len → 0 < len →
  u8_at w data len = Some slice →
  conn_read_hs (conn (capture_client_random e slice)) slice = (c', inl err) →
  ∃ w' e', rlsm_quic_conn_read_hs h data len Null Null w = Ret (-1) w' ∧
    w_qconn w' !! h = Some e' ∧ alert_cache e' = Some (default 50 (conn_alert c')) ∧
    w_last_error w' = Some ("rlsm_quic_conn_read_hs: TLS error: " +:+ error_display err).
Proof.
  intros He Il Hl Hs Hr. unfold u8_at in *. unfold rlsm_quic_conn_read_hs, or_invalid.
  run. pass_guards.
  rewrite as_usize_nonneg_i32 by (done || lia).
  rewrite (read_u8_ok _ _ _ slice) by done.
  rewrite (with_mut_Some quic_conn_table h _ _ e) by done.
  destruct (elapsed_us_ret (set_error None w)) as (t1 & l1 & ->). cbn [is_null]. rewrite Hr.
  destruct (elapsed_us_ret (set_elapsed l1 (set_error None w))) as (t2 & l2 & ->).
  eexists _, _. split_and!; [done|simpl; apply lookup_insert_eq|done|done].
Qed.

Lemma alert_ok w h e :
  w_qconn w !! h = Some e →
  ∃ w', rlsm_quic_conn_alert h w = Ret (default (-1) (alert_cache e)) w' ∧
    w_qconn w' = <[h := with_alert_cache e None]> (w_qconn w).
Proof.
  intros He. unfold rlsm_quic_conn_alert, or_invalid. run.
  rewrite (with_mut_Some quic_conn_table h _ _ e) by done. by eexists.
Qed.

(** After a failed [read_hs], the first [rlsm_quic_conn_alert] gives the
    alert of the connection, or decode_error (50) when rustls recorded none,
    and the next one gives -1. *)
Theorem alert_read_once w h e data len slice c' err :
  w_qconn w !! h = Some e → in_i32 len → 0 < len →
  u8_at w data len = Some slice →
  conn_read_hs (conn (capture_client_random e slice)) slice = (c', inl err) →
  ∃ w1 w2 w3,
    rlsm_quic_conn_read_hs h data len Null Null w = Ret (-1) w1 ∧
    rlsm_quic_conn_alert h w1 = Ret (default 50 (conn_alert c')) w2 ∧
    rlsm_quic_conn_alert h w2 = Ret (-1) w3.
Proof.
  intros He Il Hl Hs Hr.
  destruct (read_hs_error w h e data len slice c' err He Il Hl Hs Hr)
    as (w1 & e1 & E1 & Q1 & A1 & _).
  destruct (alert_ok w1 h e1 Q1) as (w2 & E2 & Q2). rewrite A1 in E2.
  destruct (alert_ok w2 h (with_alert_cache e1 None)) as (w3 & E3 & _).
  { by rewrite Q2, lookup_insert_eq. }
  eauto 10.
Qed.
End Alerts.

(** ** Key update and 0-RTT *)

Section OtherKeys.
Context {R : Rustls} {L : RustlsLaws R}.

Lemma take_next_keys_ok w h e s pl pr s' out z :
  w_qconn w !! h = Some e → next_secrets e = Some s → next_packet_keys s = ((pl, pr), s') →
  0 < w_next w → load (m_i32 (w_mem w)) out 1 = Some [z] →
  ∃ w', rlsm_quic_conn_take_next_keys h out w = Ret 0 w' ∧
    load (m_i32 (w_mem w')) out 1 = Some [w_next w] ∧ m_u8 (w_mem w') = m_u8 (w_mem w) ∧
    w_keys w' = <[w_next w :=
      {| local := {| header := NoOpHpKey; packet := RustlsPacketKey pl |};
         remote := {| header := NoOpHpKey; packet := RustlsPacketKey pr |};
         last_local_pn := None |}]> (w_keys w) ∧
    w_qconn w' = <[h := with_next_secrets e None]> (w_qconn w).
Proof.
  intros He Hp Hs Hn Hout.
  destruct (store_load _ _ 1 _ [w_next w] Hout eq_refl) as (h1 & S1 & L1).
  unfold rlsm_quic_conn_take_next_keys, or_invalid. run. pass_guards.
  rewrite (with_mut_Some quic_conn_table h _ _ e) by done. rewrite Hp, Hs.
  assert (Hc : 0 < counter (set_error None w)) by exact Hn.
  rewrite (insert_pos keys_table _ (set_error None w) Hc).
  rewrite (write_i32_ok _ _ _ h1) by done. by eexists.
Qed.

Lemma take_next_keys_none w h e out :
  w_qconn w !! h = Some e → next_secrets e = None → is_null out = false →
  rlsm_quic_conn_take_next_keys h out w =
    Ret (-1) (set_error (Some take_next_none_msg) w).
Proof.
  intros He Hp Hout. unfold rlsm_quic_conn_take_next_keys, or_invalid. run. pass_guards.
  rewrite (with_mut_Some quic_conn_table h _ _ e) by done. rewrite Hp. simpl.
  rewrite insert_id by done. by destruct w.
Qed.

(** Header protection under keys that have none: an error, nothing changed. *)
Lemma header_in_place_fails name verb f w h e sp sl fp pp pl sample b pn err :
  w_keys w !! h = Some e → in_i32 sl → in_i32 pl → 0 ≤ sl → 0 ≤ pl →
  u8_at w sp sl = Some sample → u8_at w fp 1 = Some [b] → u8_at w pp pl = Some pn →
  f e sample b pn = ((b, pn), inl err) → apart fp 1 pp pl →
  ∃ w', header_in_place name verb f h sp sl fp pp pl w = Ret (-1) w' ∧
    u8_at w' fp 1 = Some [b] ∧ u8_at w' pp pl = Some pn ∧
    w_last_error w' = Some ("header " +:+ verb +:+ ": " +:+ error_display err).
Proof.
  intros He Isl Ipl Hsl Hpl Hs Hb Hpn Hf Ha. unfold u8_at in *.
  destruct (store_load _ _ 1 _ [b] Hb eq_refl) as (h1 & S1 & L1).
  pose proof (load_store_apart _ _ pp pl _ _ S1 Ha) as Hpp. rewrite Hpn in Hpp.
  pose proof (load_length _ _ _ _ Hpn) as Hlen.
  destruct (store_load _ _ _ _ pn Hpp Hlen) as (h2 & S2 & L2).
  unfold header_in_place. run. pass_guards. rewrite !as_usize_nonneg_i32 by done.
  rewrite (read_u8_ok _ _ _ sample) by done. rewrite (read_u8_ok _ _ _ [b]) by done.
  rewrite (read_u8_ok _ _ _ pn) by done. rewrite (with_Some keys_table h _ _ e) by done.
  change (default 0 (head [b])) with b. rewrite Hf. rewrite (write_u8_ok _ _ _ h1) by done.
  rewrite (write_u8_ok _ _ _ h2) by done. eexists. split_and!; [done| |done|done].
  simpl. rewrite (load_store_apart _ _ fp 1 _ _ S2); [done|]. rewrite Hlen. by apply apart_sym.
Qed.

(** The secrets of a 1-RTT key change give keys once; they protect
    packets with the next packet key, their header functions fail without
    touching the packet (header keys do not rotate), and asking for the
    secrets again fails. *)
Theorem key_update_once w h e s pl pr s' out z sp fp pp n sample b pn :
  w_qconn w !! h = Some e → next_secrets e = Some s → next_packet_keys s = ((pl, pr), s') →
  0 < w_next w → load (m_i32 (w_mem w)) out 1 = Some [z] →
  in_i32 n → 0 ≤ n →
  u8_at w sp 16 = Some sample → u8_at w fp 1 = Some [b] → u8_at w pp n = Some pn →
  apart fp 1 pp n →
  ∃ w1 w2 w3,
    rlsm_quic_conn_take_next_keys h out w = Ret 0 w1 ∧
    load (m_i32 (w_mem w1)) out 1 = Some [w_next w] ∧
    (∃ ke, w_keys w1 !! w_next w = Some ke ∧ packet (local ke) = RustlsPacketKey pl ∧
       packet (remote ke) = RustlsPacketKey pr ∧ last_local_pn ke = None) ∧
    rlsm_keys_local_header_protect (w_next w) sp 16 fp pp n w1 = Ret (-1) w2 ∧
    u8_at w2 fp 1 = Some [b] ∧ u8_at w2 pp n = Some pn ∧
    rlsm_quic_conn_take_next_keys h out w1 = Ret (-1) w3.
Proof.
  intros He Hp Hs Hn Hout In Hn0 Hsp Hfp Hpp Ha.
  destruct (take_next_keys_ok w h e s pl pr s' out z) as (w1 & E1 & O1 & M1 & K1 & Q1); auto.
  unfold u8_at in Hsp, Hfp, Hpp. rewrite <- M1 in Hsp, Hfp, Hpp.
  assert (He1 : ∃ ke, w_keys w1 !! w_next w = Some ke ∧ header (local ke) = NoOpHpKey ∧
    packet (local ke) = RustlsPacketKey pl ∧ packet (remote ke) = RustlsPacketKey pr ∧
    last_local_pn ke = None).
  { rewrite K1, lookup_insert_eq. by eexists. }
  destruct He1 as (ke & Hke & Hhk & Hpk & Hrk & Hlp).
  destruct (header_in_place_fails "rlsm_keys_local_header_protect" "protect"
    (λ entry, header_encrypt_in_place (header (local entry))) w1 (w_next w) ke sp 16 fp pp n
    sample b pn (error_general hp_not_rotating)) as (w2 & E2 & F2 & P2 & _);
    auto; try (unfold in_i32, i32_min, i32_max; lia).
  { by rewrite Hhk. }
  exists w1, w2, (set_error (Some take_next_none_msg) w1). split_and!; eauto.
  apply (take_next_keys_none _ _ (with_next_secrets e None)); [|done|by destruct out].
  by rewrite Q1, lookup_insert_eq.
Qed.

(** The out parameter of the server's 0-RTT keys is a live keys handle
    exactly on success; when the call answers 1 or fails, it is -1. The
    stored keys decrypt with what rustls gave and refuse to encrypt. *)
Theorem server_zero_rtt_out w h out z :
  in_i32 (w_next w) → load (m_i32 (w_mem w)) out 1 = Some [z] →
  ∃ r w', rlsm_quic_server_conn_zero_rtt_keys h out w = Ret r w' ∧
    if r =? 0
    then ∃ kh e k, load (m_i32 (w_mem w')) out 1 = Some [kh] ∧ 0 < kh ∧
           w_keys w' !! kh = Some e ∧ remote e = wrap_keys k ∧
           packet (local e) = NoOpPacketKey "local"
    else load (m_i32 (w_mem w')) out 1 = Some [-1] ∧ w_keys w' = w_keys w.
Proof.
  intros Hi Hout.
  destruct (store_load _ _ 1 _ [-1] Hout eq_refl) as (h1 & S1 & L1).
  unfold rlsm_quic_server_conn_zero_rtt_keys, or_invalid. run. pass_guards.
  destruct (w_qconn w !! h) as [e|] eqn:He.
  2: { rewrite with_None by done. rewrite (write_i32_ok _ _ _ h1) by done.
       eexists _, _. split; [done|]. by split. }
  rewrite (with_Some quic_conn_table h _ _ e) by done.
  destruct (conn e) as [c|srv].
  { rewrite (write_i32_ok _ _ _ h1) by done. eexists _, _. split; [done|]. by split. }
  destruct (qserver_zero_rtt_keys srv) as [dk|].
  2: { rewrite (write_i32_ok _ _ _ h1) by done. eexists _, _. split; [done|]. by split. }
  destruct (Z.le_gt_cases (w_next w) 0) as [Hx|Hx].
  - assert (Hc : counter (set_error None w) ≤ 0) by exact Hx.
    rewrite (insert_exhausted keys_table _ (set_error None w) Hc).
    rewrite (write_i32_ok _ _ _ h1) by done. eexists _, _. split; [done|]. by split.
  - destruct (store_load _ _ 1 _ [w_next w] Hout eq_refl) as (h2 & S2 & L2).
    assert (Hc : 0 < counter (set_error None w)) by exact Hx.
    rewrite (insert_pos keys_table _ (set_error None w) Hc).
    rewrite (write_i32_ok _ _ _ h2) by done. eexists _, _. split; [done|].
    change (0 =? 0) with true. cbn iota. eexists _, _, dk.
    split_and!; [done|done|simpl; apply lookup_insert_eq|done|done].
Qed.
End OtherKeys.

(** ** What callers see of errors *)

Section HsErrors.
Context {R : Rustls} {L : RustlsLaws R}.

(** The results each function documents besides -1. *)
Definition hs_result (c : hs_call) (r : Z) : Prop :=
  match c with
  | HandshakeKindOf _ => r = -2 ∨ 0 ≤ r ≤ 3
  | IsHandshaking _ | IsEarlyDataAccepted _ => r = 0 ∨ r = 1
  | TransportParams _ _ _ _ | Alpn _ _ _ _ | ZeroRttKeys _ _ | ServerZeroRttKeys _ _
  | ReplayAuthenticator _ _ _ => r = 0 ∨ r = 1
  | Keys _ => 0 ≤ r
  | _ => r = 0
  end.

(** [rlsm_quic_conn_alert] answers -1 for "no alert" with no error set. *)
Definition hs_args (c : hs_call) : Prop :=
  match c with Alert _ => False | Keys c => int_args c | _ => True end.

Lemma insert_out_reports {T} (tbl : HandleTable world T) x out m :
  (∀ y w, w_last_error (set_map tbl y w) = w_last_error w) →
  reports_via id (λ r, r = 0) (insert_out tbl x out m).
Proof.
  intros Hk. unfold insert_out. apply (reports_bind _ _ (λ _, True)); [|done|].
  - by apply keeps_insert.
  - calls_report. done.
Qed.

Ltac report_hs :=
  unfold or_invalid; calls_report;
  repeat first
    [ apply insert_out_reports; reflexivity
    | report_table; calls_report
    | apply (reports_bind _ _ (λ _, True)); [solve [calls_keep]|done|]; calls_report ];
  simpl; auto; repeat case_match; auto; lia.

(** Every function of the handshake API that leaves a message for
    [rlsm_last_error] returned -1, and every one that leaves none returned one
    of its documented results. *)
Theorem hs_api_reports c w r w' :
  hs_args c → exec_hs c w = Ret r w' →
  match w_last_error w' with Some _ => r = -1 | None => hs_result c r end.
Proof.
  intros Ha. change (exec_hs c w = Ret r w' → reported (hs_result c) r w').
  revert w r w'. change (reports (hs_result c) (exec_hs c)).
  destruct c; simpl in *; try done.
  - unfold rlsm_quic_server_config_new. report_hs.
  - unfold rlsm_quic_client_config_new. report_hs.
  - unfold rlsm_quic_client_config_new_insecure. report_hs.
  - unfold rlsm_quic_client_config_with_ca. report_hs.
  - unfold rlsm_quic_client_conn_new. report_hs.
  - unfold rlsm_quic_server_conn_new. report_hs.
  - unfold rlsm_quic_conn_free. report_hs.
  - unfold rlsm_quic_conn_write_hs. report_hs.
  - unfold rlsm_quic_conn_read_hs. report_hs.
  - unfold rlsm_quic_conn_take_keys. report_hs.
  - unfold rlsm_quic_conn_take_next_keys. report_hs.
  - unfold rlsm_quic_conn_is_handshaking. report_hs.
  - unfold rlsm_quic_conn_handshake_kind. report_hs.
  - unfold rlsm_quic_conn_transport_params, copy_out. report_hs.
  - unfold rlsm_quic_conn_alpn, copy_out. report_hs.
  - unfold rlsm_quic_conn_zero_rtt_keys. report_hs.
  - unfold rlsm_quic_server_conn_zero_rtt_keys. report_hs.
  - unfold rlsm_quic_conn_is_early_data_accepted. report_hs.
  - unfold rlsm_quic_server_conn_reject_early_data, assert_reject_early_data, assert_. report_hs.
  - unfold rlsm_quic_server_conn_replay_authenticator. report_hs.
  - by apply exec_reports.
Qed.
End HsErrors.

(** ** Concrete runs *)

(** A process with one server connection, handle 1, whose first flight is two
    bytes with a 1-RTT key change; byte block 1 holds a ClientHello. *)
Definition hello : bytes := 1 :: map Z.of_nat (seq 100 45).
Definition toy_server : @qserver toy :=
  {| q_script := [([20; 21], Some (OneRtt (3, 3) (4, 4) 9))]; q_seen := []; q_hs := true;
     q_tp := None; q_zero := Some (7, 7) |}.
Definition hs_world : world :=
  set_next 2 (set_qconn {[1 := new_entry (QuicServer toy_server)]}
    (boot (mem_of [hello; replicate 40 0; 255 :: replicate 9 0]))).

(** The ClientHello in three fragments, with other calls in between. *)
Definition hello_calls : list hs_call :=
  [ReadHs 1 (Ptr 1 0) 5 Null Null; IsHandshaking 1; ReadHs 1 (Ptr 1 5) 30 Null (Ptr 1 0);
   Alert 1; ReplayAuthenticator 1 (Ptr 2 0) (Ptr 1 0); ReadHs 1 (Ptr 1 35) 11 Null Null;
   Keys (InitialKeys 1 (Ptr 1 0) 4 1)].
Definition hello_result : bytes * world := default ([], hs_world) (run_hs 1 hello_calls hs_world).

Lemma authenticator_of_stream_witness :
  ∃ w'', rlsm_quic_server_conn_replay_authenticator 1 (Ptr 2 0) (Ptr 1 0) hello_result.2 =
           Ret 0 w'' ∧
    u8_at w'' (Ptr 2 0) 32 = Some (map Z.of_nat (seq 105 32)) ∧
    load (m_u64 (w_mem w'')) (Ptr 1 0) 1 = Some [32].
Proof.
  apply (authenticator_of_stream hello_calls hs_world 1 toy_server hello hello_result.2
           (default (new_entry (QuicServer toy_server)) (w_qconn hello_result.2 !! 1))
           (Ptr 2 0) (Ptr 1 0) (replicate 32 0) 0).
  - by_vm.
  - vm_compute. split; discriminate.
  - by_eval.
  - assert (Hd : hello_result.1 = hello) by by_eval. rewrite <- Hd.
    unfold hello_result at 1 2. rewrite <- surjective_pairing. apply some_default. by_eval.
  - apply some_default. by_eval.
  - by_vm.
  - by_vm.
Defined.

Lemma key_change_protocol_witness :
  ∃ w1 w2 w3,
    rlsm_quic_conn_write_hs 1 (Ptr 2 0) 40 (Ptr 1 0) (Ptr 3 0) hs_world = Ret 0 w1 ∧
    u8_at w1 (Ptr 2 0) 2 = Some [20; 21] ∧ u8_at w1 (Ptr 3 0) 1 = Some [2] ∧
    rlsm_quic_conn_write_hs 1 (Ptr 2 0) 40 (Ptr 1 0) (Ptr 3 0) w1 =
      Ret (-1) (set_error (Some write_hs_pending_msg) w1) ∧
    rlsm_quic_conn_take_keys 1 (Ptr 2 0) w1 = Ret 0 w2 ∧
    load (m_i32 (w_mem w2)) (Ptr 2 0) 1 = Some [2] ∧
    w_keys w2 = <[2 := {| local := wrap_keys (3, 3); remote := wrap_keys (4, 4);
                          last_local_pn := None |}]> (w_keys hs_world) ∧
    rlsm_quic_conn_take_keys 1 (Ptr 2 0) w2 = Ret (-1) w3 ∧
    w_keys w3 = w_keys w2 ∧ w_qconn w3 = w_qconn w2.
Proof.
  pose (q' := {| q_script := []; q_seen := []; q_hs := true; q_tp := None; q_zero := Some (7, 7) |} : @qserver toy).
  apply (key_change_protocol hs_world 1 (new_entry (QuicServer toy_server)) (QuicServer q')
    [20; 21] (OneRtt (3, 3) (4, 4) 9) (Ptr 2 0) 40 (Ptr 1 0) (Ptr 3 0) (Ptr 2 0) [0; 0] 0 255 0).
  - by_vm.
  - reflexivity.
  - by_vm.
  - vm_compute. split; discriminate.
  - vm_compute. discriminate.
  - reflexivity.
  - by_vm.
  - by_vm.
  - by_vm.
  - left. discriminate.
  - by_vm.
  - left. discriminate.
Defined.

Lemma write_hs_small_buffer_loses_flight_witness :
  let q' : @qserver toy := {| q_script := []; q_seen := []; q_hs := true; q_tp := None; q_zero := Some (7, 7) |} in
  let e' := with_conn (new_entry (QuicServer toy_server)) (QuicServer q') in
  ∃ w', rlsm_quic_conn_write_hs 1 (Ptr 2 0) 1 (Ptr 1 0) (Ptr 3 0) hs_world = Ret (-1) w' ∧
    w_mem w' = w_mem hs_world ∧ w_keys w' = w_keys hs_world ∧
    w_qconn w' = <[1 := e']> (w_qconn hs_world) ∧ pending e' = None.
Proof.
  intros q' e'.
  apply (write_hs_small_buffer_loses_flight hs_world 1 (new_entry (QuicServer toy_server))
    (QuicServer q') [20; 21] (Some (OneRtt (3, 3) (4, 4) 9))).
  - by_vm.
  - reflexivity.
  - by_vm.
  - vm_compute. split; discriminate.
  - vm_compute. split; [discriminate|reflexivity].
  - reflexivity.
Defined.

Lemma alert_read_once_witness :
  ∃ w1 w2 w3,
    rlsm_quic_conn_read_hs 1 (Ptr 3 0) 10 Null Null hs_world = Ret (-1) w1 ∧
    rlsm_quic_conn_alert 1 w1 = Ret 47 w2 ∧ rlsm_quic_conn_alert 1 w2 = Ret (-1) w3.
Proof.
  pose (s := 255 :: replicate 9 0).
  pose (q' := {| q_script := q_script toy_server; q_seen := s; q_hs := true; q_tp := None;
                 q_zero := Some (7, 7) |} : @qserver toy).
  apply (alert_read_once hs_world 1 (new_entry (QuicServer toy_server)) (Ptr 3 0) 10 s
           (QuicServer q') "bad handshake"%string).
  - by_vm.
  - vm_compute. split; discriminate.
  - reflexivity.
  - by_vm.
  - by_vm.
Defined.

Lemma key_update_once_witness :
  let e := with_next_secrets (new_entry (QuicServer toy_server)) (Some 9) in
  let w := set_qconn {[1 := e]} hs_world in
  ∃ w1 w2 w3,
    rlsm_quic_conn_take_next_keys 1 (Ptr 2 0) w = Ret 0 w1 ∧
    load (m_i32 (w_mem w1)) (Ptr 2 0) 1 = Some [2] ∧
    (∃ ke, w_keys w1 !! 2 = Some ke ∧ packet (local ke) = RustlsPacketKey 9 ∧
       packet (remote ke) = RustlsPacketKey 9 ∧ last_local_pn ke = None) ∧
    rlsm_keys_local_header_protect 2 (Ptr 1 5) 16 (Ptr 1 0) (Ptr 1 1) 2 w1 = Ret (-1) w2 ∧
    u8_at w2 (Ptr 1 0) 1 = Some [1] ∧ u8_at w2 (Ptr 1 1) 2 = Some [100; 101] ∧
    rlsm_quic_conn_take_next_keys 1 (Ptr 2 0) w1 = Ret (-1) w3.
Proof.
  intros e w. apply (key_update_once w 1 e 9 9 9 10 (Ptr 2 0) 0 (Ptr 1 5) (Ptr 1 0) (Ptr 1 1) 2
    (map Z.of_nat (seq 104 16)) 1 [100; 101]).
  - by_vm.
  - reflexivity.
  - reflexivity.
  - reflexivity.
  - by_vm.
  - vm_compute. split; discriminate.
  - lia.
  - by_vm.
  - by_vm.
  - by_vm.
  - right. left. lia.
Defined.

Lemma server_zero_rtt_out_witness :
  ∃ r w', rlsm_quic_server_conn_zero_rtt_keys 1 (Ptr 2 0) hs_world = Ret r w' ∧
    if r =? 0
    then ∃ kh e k, load (m_i32 (w_mem w')) (Ptr 2 0) 1 = Some [kh] ∧ 0 < kh ∧
           w_keys w' !! kh = Some e ∧ remote e = wrap_keys k ∧
           packet (local e) = NoOpPacketKey "local"
    else load (m_i32 (w_mem w')) (Ptr 2 0) 1 = Some [-1] ∧ w_keys w' = w_keys hs_world.
Proof.
  apply (server_zero_rtt_out hs_world 1 (Ptr 2 0) 0).
  - vm_compute. split; discriminate.
  - by_vm.
Defined.

Lemma hs_api_reports_witness :
  let c := RejectEarlyData 5 in
  match w_last_error (state_of hs_world (exec_hs c hs_world)) with
  | Some _ => -1 = -1
  | None => hs_result c (-1)
  end.
Proof.
  intros c. apply (hs_api_reports c hs_world (-1)).
  - exact I.
  - apply ret_of. by_eval.
Defined.

End QuicHsFacts.
