(* ===== verification/Shim.v ===== *)
(** * The shim as a whole

    All the exported functions of [src/crates/librustls-mojo/src] as one set of
    calls over one state: what every call keeps of the six tables, and what a
    caller sees of errors. *)

From S2P Require Import Prelude Effects Handles Rustls World Frames Toy QuicKeys QuicKeysFacts.
From S2P Require Import Config ConfigFacts Tcp TcpFacts QuicHs QuicHsFacts.
Import Effects Handles Rustls World Frames Toy QuicKeys QuicKeysFacts.
Import Config ConfigFacts Tcp TcpFacts QuicHs QuicHsFacts.

Module Shim.

Section Shim.
Context {R : Rustls}.

Inductive shim_call := Tcp (c : tcp_call) | Quic (c : hs_call) | LastError (buf : ptr) (len : Z).

Definition exec_shim (c : shim_call) : prog world Z :=
  match c with
  | Tcp c => exec_tcp c
  | Quic c => exec_hs c
  | LastError buf len => rlsm_last_error buf len
  end.

(** ** Well-formed states *)

(** A key set can protect packets in one direction at least: the others of its
    keys may be placeholders. *)
Definition keys_ok (e : KeysEntry) : Prop :=
  ∃ k, packet (local e) = RustlsPacketKey k ∨ packet (remote e) = RustlsPacketKey k.

(** The prefix buffer has 38 bytes and the random 32; a random was captured
    from a full prefix only; a pending key change is of kind 1 or 2 and its keys
    are rustls's in both directions. *)
Record conn_ok (e : QuicConnEntry) : Prop := {
  ok_prefix : zlen (first_ch_prefix e) = 38;
  ok_prefix_len : 0 ≤ first_ch_prefix_len e ≤ 38;
  ok_random : zlen (client_random e) = 32;
  ok_captured : client_random_captured e = true → first_ch_prefix_len e = 38;
  ok_pending : ∀ k d d', pending e = Some (k, (d, d')) →
    (k = 1 ∨ k = 2) ∧ ∃ l r, d = wrap_keys l ∧ d' = wrap_keys r;
}.

(** Live handles are positive [i32]s, so that no failure code is one. *)
Definition table_ok {T} (ok : T → Prop) (m : gmap Z T) : Prop :=
  map_Forall (λ h x, 0 < h ≤ i32_max ∧ ok x) m.

Record well_formed (w : world) : Prop := {
  wf_counter : in_i32 (w_next w);
  wf_config : table_ok (λ _, True) (w_config w);
  wf_conn : table_ok (λ _, True) (w_conn w);
  wf_qcfg_client : table_ok (λ _, True) (w_qcfg_client w);
  wf_qcfg_server : table_ok (λ _, True) (w_qcfg_server w);
  wf_keys : table_ok keys_ok (w_keys w);
  wf_qconn : table_ok conn_ok (w_qconn w);
}.

(** What [well_formed] is about. *)
Definition tables (w : world) :=
  (w_next w, w_config w, w_conn w, w_keys w, w_qcfg_client w, w_qcfg_server w, w_qconn w).

Lemma well_formed_tables w w' : tables w' = tables w → well_formed w → well_formed w'.
Proof. intros [= E1 E2 E3 E4 E5 E6 E7] []. by split; rewrite ?E1, ?E2, ?E3, ?E4, ?E5, ?E6, ?E7. Qed.

#[export] Instance tables_mem : IgnoresMem tables.
Proof. done. Qed.
#[export] Instance tables_error : IgnoresError tables.
Proof. done. Qed.
#[export] Instance tables_clock : IgnoresClock tables.
Proof. done. Qed.

(** ** Programs that preserve it *)

Definition preserves {A} (c : prog world A) : Prop :=
  ∀ w a w', well_formed w → c w = Ret a w' → well_formed w'.

Lemma preserves_keeps {A} (c : prog world A) : keeps tables c → preserves c.
Proof. intros Hc w a w' Hw E. eapply well_formed_tables; [by eapply Hc|done]. Qed.

Lemma preserves_bind {A B} (c : prog world A) (k : A → prog world B) :
  preserves c → (∀ a, preserves (k a)) → preserves (c ≫= k).
Proof. intros Hc Hk w b w' Hw (a & w1 & H1 & H2)%bind_Ret_inv. eapply Hk; [|done]. by eapply Hc. Qed.

Lemma preserves_for_loop {A} n i (body : Z → A → prog world A) acc :
  (∀ j a, preserves (body j a)) → preserves (for_loop n i body acc).
Proof.
  intros Hb. revert i acc. induction n as [|n IH]; intros i acc; simpl.
  - apply preserves_keeps, keeps_ret.
  - apply preserves_bind; auto.
Qed.

(** A table of the state and what its objects satisfy. *)
Class Guarded {T} (tbl : HandleTable world T) (ok : T → Prop) := {
  guarded_laws :: TableLaws tbl;
  guarded_ok : ∀ w, well_formed w → table_ok ok (map_of tbl w);
  guarded_set : ∀ w m, well_formed w → table_ok ok m → well_formed (set_map tbl m w);
}.

#[local] Ltac guarded := split; [apply _|by intros w []|intros w m [] Hm; by split].
#[export] Instance config_guarded : Guarded config_table (λ _, True).
Proof. guarded. Qed.
#[export] Instance conn_guarded : Guarded conn_table (λ _, True).
Proof. guarded. Qed.
#[export] Instance qcfg_client_guarded : Guarded quic_client_cfg_table (λ _, True).
Proof. guarded. Qed.
#[export] Instance qcfg_server_guarded : Guarded quic_server_cfg_table (λ _, True).
Proof. guarded. Qed.
#[export] Instance keys_guarded : Guarded keys_table keys_ok.
Proof. guarded. Qed.
#[export] Instance qconn_guarded : Guarded quic_conn_table conn_ok.
Proof. guarded. Qed.

Section Table.
Context {T} (tbl : HandleTable world T) (ok : T → Prop) `{!Guarded tbl ok}.

Lemma preserves_insert v : ok v → preserves (insert tbl v).
Proof.
  intros Hv w o w' Hw E. pose proof (wf_counter _ Hw) as Hc.
  assert (Hnext : ∀ z, in_i32 z → well_formed (set_next z w)) by (intros z Hz; destruct Hw; by split).
  destruct (Z.le_gt_cases (counter w) 0) as [Hx|Hx].
  - rewrite (insert_exhausted tbl v w Hx) in E. injection E as <- <-. by apply Hnext.
  - rewrite (insert_pos tbl v w Hx) in E. injection E as <- <-.
    apply guarded_set; [apply Hnext, as_i32_in|].
    apply map_Forall_insert_2; [|by apply guarded_ok]. split; [|done]. unfold in_i32 in Hc. change (0 < w_next w) in Hx.
    change (0 < w_next w ≤ i32_max). lia.
Qed.

Lemma preserves_remove h : preserves (remove tbl h).
Proof.
  intros w o w' Hw E. rewrite remove_eq in E. injection E as <- <-.
  apply guarded_set; [done|]. apply map_Forall_delete. by apply guarded_ok.
Qed.

Lemma preserves_with {B} h (g : T → prog world B) :
  (∀ x, ok x → preserves (g x)) → preserves (with_ tbl h g).
Proof.
  intros Hg w o w' Hw E. destruct (map_of tbl w !! h) as [x|] eqn:Hx.
  - rewrite (with_Some _ _ _ _ x Hx) in E. destruct (g x w) as [r w1| | |] eqn:Eg; try done.
    injection E as <- <-. eapply Hg; [|done|done]. by destruct (guarded_ok w Hw h x Hx).
  - rewrite with_None in E by done. by injection E as <- <-.
Qed.

Lemma preserves_with_mut {B} h (g : T → prog world (T * B)) :
  (∀ x, ok x → preserves (g x)) → (∀ x, ok x → returns (λ p, ok p.1) (g x)) →
  preserves (with_mut tbl h g).
Proof.
  intros Hg Hr w o w' Hw E. apply with_mut_inv in E as [(-> & -> & _)|E]; [done|].
  destruct E as (x & x' & r & w1 & Hx & Eg & -> & ->).
  destruct (guarded_ok w Hw h x Hx) as [Hh Hok].
  pose proof (Hg x Hok _ _ _ Hw Eg) as Hw1. apply guarded_set; [done|].
  apply map_Forall_insert_2; [|by apply guarded_ok]. split; [done|]. by apply (Hr x Hok _ _ _ Eg).
Qed.
End Table.

End Shim.

(** The search: it leaves what goes into a table to be shown well-formed. *)
Ltac preserve_step :=
  lazymatch goal with
  | |- preserves (let '(_, _) := ?e in _) => destruct e eqn:?
  | |- preserves (match ?e with _ => _ end) => destruct e eqn:?
  | |- preserves (mbind _ _) => apply preserves_bind; [|intros]
  | |- preserves (for_loop _ _ _ _) => apply preserves_for_loop; intros
  | |- preserves (with_mut ?t _ _) => eapply (preserves_with_mut t); [apply _|intros|intros]
  | |- preserves (with_ ?t _ _) => eapply (preserves_with t); [apply _|intros]
  | |- preserves (insert ?t _) => eapply (preserves_insert t); [apply _|]
  | |- preserves (remove ?t _) => eapply (preserves_remove t); apply _
  | |- preserves _ => apply preserves_keeps; solve [calls_keep]
  end.
Ltac calls_preserve := intros; repeat (cbv zeta; preserve_step).

(** ** The objects

    What may go into a table: the facts of the database [entries]. *)

Create HintDb entries discriminated.

Section Objects.
Context {R : Rustls}.

Lemma conn_ok_conn e c : conn_ok e → conn_ok (with_conn e c).
Proof. intros []. by split. Qed.
Lemma conn_ok_alert e a : conn_ok e → conn_ok (with_alert_cache e a).
Proof. intros []. by split. Qed.
Lemma conn_ok_taken e : conn_ok e → conn_ok (with_pending e None).
Proof. intros []. by split. Qed.
Lemma conn_ok_secrets e x : conn_ok e → conn_ok (with_next_secrets e x).
Proof. intros []. by split. Qed.

Lemma conn_ok_key_change e kc e' k :
  conn_ok e → record_key_change e kc = (e', k) → conn_ok e'.
Proof.
  intros Hok Hk. unfold record_key_change in Hk. destruct kc as [[]|]; simplify_eq; [..|done];
    destruct Hok; split; try done; intros ? ? ? [= <- <- <-]; eauto 10.
Qed.

Lemma conn_ok_new c : conn_ok (new_entry c).
Proof. by split. Qed.

(** The hook that captures the random keeps the buffers' lengths. *)
Lemma conn_ok_capture e slice : conn_ok e → conn_ok (capture_client_random e slice).
Proof.
  intros Hok. unfold capture_client_random. destruct (_ && _) eqn:E; [|done].
  destruct (first_ch_prefix_len e <? 38) eqn:Hlt; breflect; [|done].
  destruct Hok as [Hp Hl Hr Hc Hpend]. pose proof (zlen_nonneg slice).
  set (take := Z.min (38 - first_ch_prefix_len e) (zlen slice)).
  assert (Hsub : zlen (sub 0 take slice) = take) by (apply zlen_sub, fits_spec; lia).
  assert (Hs : zlen (splice (first_ch_prefix_len e) (sub 0 take slice) (first_ch_prefix e)) = 38).
  { unfold zlen in *. rewrite length_splice; [done|]. apply fits_spec. unfold zlen. lia. }
  assert (Hu : as_u8 (first_ch_prefix_len e + take) = first_ch_prefix_len e + take)
    by (apply Z.mod_small; lia).
  assert (Hf : client_random_captured e = true → as_u8 (first_ch_prefix_len e + take) = 38)
    by (intros ?%Hc; lia).
  cbn [first_ch_prefix_len first_ch_prefix with_prefix].
  destruct (as_u8 _ =? 38) eqn:E38; breflect; [destruct (_ =? 1)|]; split; simpl; try done; try lia.
  apply zlen_sub, fits_spec. lia.
Qed.

Lemma keys_ok_last e pn : keys_ok e → keys_ok (set_last_pn e pn).
Proof. done. Qed.

Lemma keys_ok_local h k d pn :
  keys_ok {| local := {| header := h; packet := RustlsPacketKey k |}; remote := d; last_local_pn := pn |}.
Proof. exists k. by left. Qed.

Lemma keys_ok_remote h k d pn :
  keys_ok {| local := d; remote := {| header := h; packet := RustlsPacketKey k |}; last_local_pn := pn |}.
Proof. exists k. by right. Qed.

Lemma keys_ok_wrap_local k d pn : keys_ok {| local := wrap_keys k; remote := d; last_local_pn := pn |}.
Proof. apply keys_ok_local. Qed.

Lemma keys_ok_wrap_remote k d pn : keys_ok {| local := d; remote := wrap_keys k; last_local_pn := pn |}.
Proof. apply keys_ok_remote. Qed.

Lemma keys_ok_pending e k d d' :
  conn_ok e → pending e = Some (k, (d, d')) →
  keys_ok {| local := d; remote := d'; last_local_pn := None |}.
Proof. intros Hok Hp. destruct (ok_pending _ Hok _ _ _ Hp) as [_ (l & r & -> & ->)]. apply keys_ok_local. Qed.

Lemma batch_encrypt_one_ok a b c d e f i acc :
  keys_ok acc.1 → returns (λ p, keys_ok p.1) (batch_encrypt_one a b c d e f i acc).
Proof. intros Hok. unfold batch_encrypt_one. by calls_return. Qed.

End Objects.

#[export] Hint Resolve conn_ok_conn conn_ok_alert conn_ok_taken conn_ok_secrets conn_ok_key_change
  conn_ok_new conn_ok_capture keys_ok_last keys_ok_local keys_ok_remote
  keys_ok_wrap_local keys_ok_wrap_remote keys_ok_pending : entries.

Section Calls.
Context {R : Rustls}.

Lemma keys_call_preserves c : preserves (exec c).
Proof.
  destruct c; simpl;
  unfold rlsm_initial_keys, rlsm_initial_keys_raw, derive_raw_keys, initial_suite,
      expand_with_label, rlsm_keys_local_encrypt, rlsm_keys_remote_decrypt,
      rlsm_keys_local_header_protect, rlsm_keys_remote_header_unprotect,
      header_in_place, rlsm_keys_batch_header_unprotect, batch_unprotect_one,
      rlsm_keys_batch_header_protect, batch_protect_one, rlsm_keys_tag_len,
      rlsm_keys_batch_decrypt, rlsm_keys_batch_encrypt, batch_decrypt_one,
      rlsm_test_keys_free_count, rlsm_test_keys_free_reset, rlsm_aes_gcm_128_seal,
      rlsm_aes_gcm_128_open, rlsm_hmac_sha256, rlsm_keys_free;
  calls_preserve; try done; try (by calls_return; simpl; auto with entries); auto with entries.
  - unfold batch_encrypt_one. calls_preserve.
  - apply (returns_for_loop (λ p, keys_ok p.1)); [|done]. intros. by apply batch_encrypt_one_ok.
Qed.

Lemma hs_call_preserves c : preserves (exec_hs c).
Proof.
  destruct c; simpl; [..|apply keys_call_preserves];
    unfold rlsm_quic_server_config_new, rlsm_quic_client_config_new,
      rlsm_quic_client_config_new_insecure, rlsm_quic_client_config_with_ca,
      rlsm_quic_client_conn_new, rlsm_quic_server_conn_new, rlsm_quic_conn_free,
      rlsm_quic_conn_write_hs, rlsm_quic_conn_read_hs, rlsm_quic_conn_alert,
      rlsm_quic_conn_take_keys, rlsm_quic_conn_take_next_keys,
      rlsm_quic_server_conn_reject_early_data, assert_reject_early_data, assert_,
      rlsm_quic_conn_is_handshaking, rlsm_quic_conn_handshake_kind,
      rlsm_quic_conn_transport_params, rlsm_quic_conn_alpn, copy_out,
      rlsm_quic_conn_zero_rtt_keys, rlsm_quic_server_conn_zero_rtt_keys,
      rlsm_quic_conn_is_early_data_accepted, rlsm_quic_server_conn_replay_authenticator,
      insert_out, or_invalid;
    calls_preserve; try done; try (by calls_return; simpl; eauto with entries); eauto with entries.
Qed.

Lemma tcp_call_preserves c : preserves (exec_tcp c).
Proof.
  destruct c; simpl;
    unfold rlsm_client_config_new, rlsm_client_config_new_insecure, rlsm_server_config_new,
      rlsm_config_free, rlsm_config_set_alpn_protocols, rlsm_tls_client_new, rlsm_tls_server_new,
      rlsm_tls_conn_free, rlsm_tls_conn_read_tls, rlsm_tls_conn_write_tls,
      rlsm_tls_conn_read_plaintext, rlsm_tls_conn_write_plaintext, rlsm_tls_conn_is_handshaking,
      rlsm_tls_conn_alpn, get_client_config, get_server_config, _insert_client_config, arc_new;
    calls_preserve; try done; try (by calls_return; simpl; eauto with entries).
Qed.


(** ** Runs *)

(** The state a process starts with; the caller's memory and the clock are
    arbitrary. *)
Definition started (w : world) : Prop :=
  w_next w = 1 ∧ w_config w = ∅ ∧ w_conn w = ∅ ∧ w_keys w = ∅ ∧ w_qcfg_client w = ∅ ∧
  w_qcfg_server w = ∅ ∧ w_qconn w = ∅.

(** Calls in any order; in between the caller changes its memory as it likes. *)
Inductive reachable : world → Prop :=
  | reach_start w : started w → reachable w
  | reach_memory w m : reachable w → reachable (set_mem m w)
  | reach_call w c r w' : reachable w → exec_shim c w = Ret r w' → reachable w'.

Lemma started_well_formed w : started w → well_formed w.
Proof.
  intros (H1 & H2 & H3 & H4 & H5 & H6 & H7).
  split; rewrite ?H1, ?H2, ?H3, ?H4, ?H5, ?H6, ?H7; try apply map_Forall_empty. done.
Qed.

Lemma call_preserves c : preserves (exec_shim c).
Proof.
  destruct c as [c|c|]; [apply tcp_call_preserves|apply hs_call_preserves|].
  simpl. unfold rlsm_last_error. calls_preserve.
Qed.

(** C15: in every state the exported functions can reach, in any order and with
    any arguments, the live handles of all six tables are positive, every key
    set has a direction it can protect packets in, and every QUIC connection has
    a prefix buffer of 38 bytes filled in bounds, a random of 32 bytes taken
    from a full prefix only, and a pending key change with usable keys. *)
Theorem shim_states_well_formed w : reachable w → well_formed w.
Proof.
  induction 1 as [w Hs|w m _ IH|w c r w' _ IH E].
  - by apply started_well_formed.
  - by eapply well_formed_tables; [|exact IH].
  - by eapply call_preserves.
Qed.

(** ** Errors *)

(** The functions that report by a message and -1, with C [int]s for arguments:
    all but the one that fetches the message, the query for an alert, and the two
    probes of the test build. *)
Definition shim_args (c : shim_call) : Prop :=
  match c with Tcp c => tcp_args c | Quic c => hs_args c | LastError _ _ => False end.

Definition shim_result (c : shim_call) (r : Z) : Prop :=
  match c with Quic c => hs_result c r | _ => 0 ≤ r end.

Lemma reporting_call {L : RustlsLaws R} {T : TcpLaws R} c w r w' :
  shim_args c → exec_shim c w = Ret r w' →
  match w_last_error w' with Some _ => r = -1 | None => shim_result c r end.
Proof. destruct c as [c|c|]; [apply tcp_api_reports|apply hs_api_reports|done]. Qed.

(** What a call says of its success. The query for an alert answers -1 with a
    message for a handle that is not live and -1 without one for "no alert"; the
    probes and [rlsm_last_error] leave the message of the last call. *)
Definition answers (c : shim_call) (w : world) (r : Z) (w' : world) : Prop :=
  match c with
  | LastError _ _ =>
      w_last_error w' = w_last_error w ∧
      match w_last_error w with
      | None => r = 0
      | Some msg => r = -1 ∨ r = as_i32 (zlen (string_bytes msg) + 1)
      end
  | Quic (Alert h) =>
      match w_qconn w !! h with
      | None => r = -1 ∧ is_Some (w_last_error w')
      | Some e => r = default (-1) (alert_cache e) ∧ w_last_error w' = None
      end
  | Quic (Keys FreeCount) => r = w_keys_free_count w ∧ w' = w
  | Quic (Keys FreeReset) => r = 0 ∧ w' = set_free_count 0 w
  | _ => match w_last_error w' with Some _ => r = -1 | None => shim_result c r end
  end.

(** The integer arguments are C [int]s. *)
Definition c_ints (c : shim_call) : Prop :=
  match c with
  | LastError _ _ | Quic (Alert _) | Quic (Keys FreeCount) | Quic (Keys FreeReset) => True
  | _ => shim_args c
  end.

Lemma alert_answers h w r w' : rlsm_quic_conn_alert h w = Ret r w' → answers (Quic (Alert h)) w r w'.
Proof.
  unfold rlsm_quic_conn_alert, or_invalid. run. simpl. destruct (w_qconn w !! h) as [e|] eqn:E.
  - rewrite (with_mut_Some quic_conn_table h _ _ e) by done. by intros [= <- <-].
  - rewrite (with_mut_None quic_conn_table) by done. intros [= <- <-]. split; [done|by eexists].
Qed.

Lemma last_error_answers p n w r w' : rlsm_last_error p n w = Ret r w' → answers (LastError p n) w r w'.
Proof.
  intros E. assert (Hk : keeps w_last_error (rlsm_last_error p n)) by (unfold rlsm_last_error; calls_keep).
  split; [by eapply Hk|].
  unfold rlsm_last_error in E. apply bind_Ret_inv in E as (e & w1 & [= <- <-] & E).
  destruct (w_last_error w) as [msg|]; [|by injection E]. cbv zeta in E.
  case_if_in E; [injection E; auto|]. case_if_in E; [injection E; auto|].
  apply bind_Ret_inv in E as (? & ? & _ & E). apply bind_Ret_inv in E as (? & ? & _ & E). injection E; auto.
Qed.

(** C16: every exported function tells its caller whether it succeeded. One that
    leaves a message for [rlsm_last_error] returned -1, and one that leaves none
    returned one of its documented results: for all but the queries a non-negative
    number, so that callers may test the sign. Four functions have rules of their
    own: [rlsm_quic_conn_alert] returns the alert of a live connection, or -1
    without a message when there is none; [rlsm_last_error] and the two probes of
    the test build leave the message alone. *)
Theorem shim_errors_reported {L : RustlsLaws R} {T : TcpLaws R} c w r w' :
  c_ints c → exec_shim c w = Ret r w' → answers c w r w'.
Proof.
  intros Hc E. destruct c as [c|[]|]; try exact (reporting_call _ _ _ _ Hc E).
  - by apply alert_answers.
  - destruct c; try exact (reporting_call (Quic (Keys _)) _ _ _ Hc E); by injection E as <- <-.
  - by apply last_error_answers.
Qed.
End Calls.

(** From an empty process: Initial keys are made, then a call with a bad
    handle fails. *)
Definition empty_world : world (R:=toy) := boot (mem_of [[1; 2; 3; 4]]).

Definition first_call : shim_call := Quic (Keys (InitialKeys 1 (Ptr 1 0) 4 1)).

#[local] Abbreviation after_first := (state_of empty_world (exec_shim first_call empty_world)).

Lemma shim_states_well_formed_witness :
  is_some (w_keys after_first !! 1) = true ∧ well_formed (R:=toy) after_first.
Proof.
  split; [by_eval|]. apply (shim_states_well_formed (R:=toy) after_first).
  apply (reach_call empty_world first_call 1); [by apply reach_start; repeat split|].
  apply ret_of. by_eval.
Defined.

Definition bad_free : shim_call := Tcp (TlsFree 7).

Definition no_alert : shim_call := Quic (Alert 7).

Lemma shim_errors_reported_witness :
  answers bad_free empty_world (-1) (state_of empty_world (exec_shim bad_free empty_world)) ∧
  answers no_alert empty_world (-1) (state_of empty_world (exec_shim no_alert empty_world)).
Proof.
  split.
  - apply (shim_errors_reported (R:=toy) bad_free empty_world (-1)); [exact I|apply ret_of; by_eval].
  - apply (shim_errors_reported (R:=toy) no_alert empty_world (-1)); [exact I|apply ret_of; by_eval].
Defined.
End Shim.
