(* ===== verification/Isolation.v ===== *)
(** * Handles do not interfere

    What a caller does with some handles depends on none of the objects behind
    other handles, and touches none of them: two processes that differ only in the
    objects of a handle [k] answer the same to any script of calls on other
    handles, and both still have their objects of [k] at its end. The one trace an
    object leaves for others is the configuration a TLS connection holds, which
    [rlsm_config_set_alpn_protocols] may not change meanwhile; so the two
    processes must agree on that. *)

From S2P Require Import Prelude Effects Handles Rustls World Frames Toy QuicKeys QuicKeysFacts.
From S2P Require Import Config ConfigFacts Tcp TcpFacts QuicHs QuicHsFacts Shim.
Import Effects Handles Rustls World Frames Toy QuicKeys QuicKeysFacts.
Import Config ConfigFacts Tcp TcpFacts QuicHs QuicHsFacts Shim.

Module Isolation.

(** ** The handle a call names *)

Definition keys_handle (c : call) : option Z :=
  match c with
  | InitialKeys _ _ _ _ | InitialKeysRaw _ _ _ _ _ _ _ _ _ _ | FreeCount | FreeReset
  | Seal _ _ _ _ _ _ _ _ _ _ | Open _ _ _ _ _ _ _ _ _ _ | Hmac _ _ _ _ _ => None
  | LocalEncrypt h _ _ _ _ _ _ | RemoteDecrypt h _ _ _ _ _ | LocalHeaderProtect h _ _ _ _ _
  | RemoteHeaderUnprotect h _ _ _ _ _ | BatchHeaderUnprotect h _ _ _ _ _ _ | BatchDecrypt h _ _ _ _ _ _
  | BatchHeaderProtect h _ _ _ _ _ _ | BatchEncrypt h _ _ _ _ _ _ _ | TagLen h | KeysFree h => Some h
  end.

Definition hs_handle (c : hs_call) : option Z :=
  match c with
  | ServerConfigNew _ _ _ _ _ _ _ _ | ClientConfigNew _ _ _ | ClientConfigNewInsecure _ _ _
  | ClientConfigWithCa _ _ _ _ _ => None
  | ClientConnNew h _ _ _ _ _ _ | ServerConnNew h _ _ _ _ | ConnFree h | WriteHs h _ _ _ _
  | ReadHs h _ _ _ _ | Alert h | TakeKeys h _ | TakeNextKeys h _ | IsHandshaking h | HandshakeKindOf h
  | TransportParams h _ _ _ | Alpn h _ _ _ | ZeroRttKeys h _ | ServerZeroRttKeys h _
  | IsEarlyDataAccepted h | RejectEarlyData h | ReplayAuthenticator h _ _ => Some h
  | Keys c => keys_handle c
  end.

Definition tcp_handle (c : tcp_call) : option Z :=
  match c with
  | CfgClientNew | CfgClientNewInsecure | CfgServerNew _ _ _ _ => None
  | CfgFree h | CfgSetAlpn h _ _ | TlsClientNew h _ _ | TlsServerNew h | TlsFree h | TlsRead h _ _
  | TlsWrite h _ _ | TlsReadPlain h _ _ | TlsWritePlain h _ _ | TlsIsHandshaking h | TlsAlpn h _ _ => Some h
  end.

Definition handle_of (c : shim_call) : option Z :=
  match c with Tcp c => tcp_handle c | Quic c => hs_handle c | LastError _ _ => None end.

Section Isolation.
Context {R : Rustls}.

(** ** Processes that differ in the objects of one handle *)

Definition objects (k : Z) (w : world) :=
  (w_config w !! k, w_conn w !! k, w_keys w !! k, w_qcfg_client w !! k, w_qcfg_server w !! k, w_qconn w !! k).

Definition same_off {T} (k : Z) (m1 m2 : gmap Z T) : Prop := ∀ h, h ≠ k → m1 !! h = m2 !! h.

(** Whether the TLS connection of [k] holds a configuration. *)
Definition holds_at (k : Z) (w : world) (id : N) : bool :=
  match w_conn w !! k with Some c => conn_holds c id | None => false end.

(** The handle [k] was issued before, so that no new object gets it. *)
Record agree (k : Z) (w1 w2 : world) : Prop := {
  ag_mem : w_mem w1 = w_mem w2;
  ag_next : w_next w1 = w_next w2;
  ag_error : w_last_error w1 = w_last_error w2;
  ag_count : w_keys_free_count w1 = w_keys_free_count w2;
  ag_arc : w_next_arc w1 = w_next_arc w2;
  ag_clock : w_elapsed_us w1 = w_elapsed_us w2;
  ag_old : in_i32 (w_next w1) ∧ k < issued w1;
  ag_config : same_off k (w_config w1) (w_config w2);
  ag_conn : same_off k (w_conn w1) (w_conn w2);
  ag_keys : same_off k (w_keys w1) (w_keys w2);
  ag_qcfg_client : same_off k (w_qcfg_client w1) (w_qcfg_client w2);
  ag_qcfg_server : same_off k (w_qcfg_server w1) (w_qcfg_server w2);
  ag_qconn : same_off k (w_qconn w1) (w_qconn w2);
  ag_holds : ∀ id, holds_at k w1 id = holds_at k w2 id;
}.

(** Both end alike. *)
Definition alike {A} (k : Z) (w1 w2 : world) (o1 o2 : outcome world A) : Prop :=
  match o1, o2 with
  | Ret a1 w1', Ret a2 w2' =>
      a1 = a2 ∧ agree k w1' w2' ∧ objects k w1' = objects k w1 ∧ objects k w2' = objects k w2
  | Panic m1, Panic m2 => m1 = m2
  | Undef, Undef | NoFuel, NoFuel => True
  | _, _ => False
  end.

Definition indep {A} (k : Z) (c : prog world A) : Prop :=
  ∀ w1 w2, agree k w1 w2 → alike k w1 w2 (c w1) (c w2).

(** *** Rules *)

Lemma indep_ret {A} k (a : A) : indep k (mret a).
Proof. by intros w1 w2 H. Qed.
Lemma indep_panic {A} k m : indep k (panic m : prog world A).
Proof. done. Qed.
Lemma indep_undef {A} k : indep k (undef : prog world A).
Proof. done. Qed.
Lemma indep_no_fuel {A} k : indep k (no_fuel : prog world A).
Proof. done. Qed.
Lemma indep_expect {A} k (o : option A) m : indep k (expect o m).
Proof. by destruct o. Qed.

Lemma indep_gets {A} k (f : world → A) : (∀ w1 w2, agree k w1 w2 → f w1 = f w2) → indep k (gets f).
Proof. intros Hf w1 w2 H. simpl. by rewrite (Hf w1 w2 H). Qed.

Lemma indep_modify k (f : world → world) :
  (∀ w1 w2, agree k w1 w2 → agree k (f w1) (f w2)) → (∀ w, objects k (f w) = objects k w) → indep k (modify f).
Proof. intros Hf Ho w1 w2 H. simpl. split_and!; auto. Qed.

Lemma indep_bind {A B} k (c : prog world A) (f : A → prog world B) :
  indep k c → (∀ a, indep k (f a)) → indep k (c ≫= f).
Proof.
  intros Hc Hf w1 w2 H. specialize (Hc w1 w2 H). unfold mbind, prog_bind.
  destruct (c w1) as [a1 w1'| | |], (c w2) as [a2 w2'| | |]; try done.
  destruct Hc as (-> & H' & O1 & O2). specialize (Hf a2 w1' w2' H'). unfold alike in *.
  destruct (f a2 w1') as [b1 w1''| | |], (f a2 w2') as [b2 w2''| | |]; try done.
  destruct Hf as (-> & H'' & O3 & O4). split_and!; [done|done|congruence|congruence].
Qed.

Lemma indep_for_loop {A} k n i (body : Z → A → prog world A) acc :
  (∀ j a, indep k (body j a)) → indep k (for_loop n i body acc).
Proof.
  intros Hb. revert i acc. induction n as [|n IH]; intros i acc; simpl; [apply indep_ret|].
  apply indep_bind; [apply Hb|]. intros a. apply IH.
Qed.

(** The updates that no table sees. *)
Lemma agree_mem k w1 w2 m : agree k w1 w2 → agree k (set_mem m w1) (set_mem m w2).
Proof. intros []. by split. Qed.
Lemma agree_error k w1 w2 e : agree k w1 w2 → agree k (set_error e w1) (set_error e w2).
Proof. intros []. by split. Qed.
Lemma agree_elapsed k w1 w2 l : agree k w1 w2 → agree k (set_elapsed l w1) (set_elapsed l w2).
Proof. intros []. by split. Qed.
Lemma agree_count k w1 w2 n : agree k w1 w2 → agree k (set_free_count n w1) (set_free_count n w2).
Proof. intros []. by split. Qed.
Lemma agree_arc k w1 w2 n : agree k w1 w2 → agree k (set_next_arc n w1) (set_next_arc n w2).
Proof. intros []. by split. Qed.

(** A configuration is held in both or in neither. *)
Lemma arc_held_spec w id : arc_held w id = true ↔ ∃ h c, w_conn w !! h = Some c ∧ conn_holds c id = true.
Proof.
  unfold arc_held. rewrite existsb_exists. split.
  - intros ([h c] & Hin & Hc). exists h, c. split; [|done]. by apply elem_of_map_to_list, list_elem_of_In.
  - intros (h & c & Hl & Hc). exists (h, c). split; [|done]. by apply list_elem_of_In, elem_of_map_to_list.
Qed.

Lemma agree_held k w1 w2 id : agree k w1 w2 → arc_held w1 id = arc_held w2 id.
Proof.
  intros H. apply eq_iff_eq_true. rewrite !arc_held_spec.
  pose proof (ag_holds _ _ _ H id) as Hk. unfold holds_at in Hk.
  split; intros (h & c & Hl & Hc); (destruct (decide (h = k)) as [->|Hne];
    [|exists h, c; split; [|done]; pose proof (ag_conn _ _ _ H h Hne); congruence]);
    rewrite Hl, Hc in Hk; (destruct (_ !! k) as [c'|] eqn:E in Hk; [|done]); by exists k, c'.
Qed.

(** *** Tables *)

Class Separate {T} (tbl : HandleTable world T) := {
  sep_laws :: TableLaws tbl;
  sep_lookup k w1 w2 : agree k w1 w2 → same_off k (map_of tbl w1) (map_of tbl w2);
  sep_set k w1 w2 m1 m2 : agree k w1 w2 → same_off k m1 m2 →
    m1 !! k = map_of tbl w1 !! k → m2 !! k = map_of tbl w2 !! k → agree k (set_map tbl m1 w1) (set_map tbl m2 w2);
  sep_objects k w m : m !! k = map_of tbl w !! k → objects k (set_map tbl m w) = objects k w;
}.

#[local] Ltac separate :=
  split; [apply _|by intros k w1 w2 []| |intros k w m Hm; unfold objects; simpl in *; by rewrite Hm];
  intros k w1 w2 m1 m2 [] Hoff H1 H2; split; try done;
  intros id; unfold holds_at in *; simpl in *; by rewrite ?H1, ?H2.
#[export] Instance config_separate : Separate config_table.
Proof. separate. Qed.
#[export] Instance conn_separate : Separate conn_table.
Proof. separate. Qed.
#[export] Instance keys_separate : Separate keys_table.
Proof. separate. Qed.
#[export] Instance qcfg_client_separate : Separate quic_client_cfg_table.
Proof. separate. Qed.
#[export] Instance qcfg_server_separate : Separate quic_server_cfg_table.
Proof. separate. Qed.
#[export] Instance qconn_separate : Separate quic_conn_table.
Proof. separate. Qed.

Section Table.
Context {T} (tbl : HandleTable world T) `{!Separate tbl} (k : Z).

Lemma same_off_insert (m1 m2 : gmap Z T) h x : same_off k m1 m2 → same_off k (<[h := x]> m1) (<[h := x]> m2).
Proof. intros H h' Hh'. rewrite !lookup_insert. case_decide; [done|]. by apply H. Qed.

Lemma same_off_delete (m1 m2 : gmap Z T) h : same_off k m1 m2 → same_off k (delete h m1) (delete h m2).
Proof. intros H h' Hh'. rewrite !lookup_delete. case_decide; [done|]. by apply H. Qed.

Lemma indep_with {B} h (g : T → prog world B) : h ≠ k → (∀ x, indep k (g x)) → indep k (with_ tbl h g).
Proof.
  intros Hne Hg w1 w2 H. pose proof (sep_lookup k w1 w2 H h Hne) as Hl.
  destruct (map_of tbl w2 !! h) as [x|] eqn:Hx.
  - rewrite (with_Some tbl h g w1 x Hl), (with_Some tbl h g w2 x Hx). specialize (Hg x w1 w2 H). unfold alike in *.
    destruct (g x w1) as [r1 w1'| | |], (g x w2) as [r2 w2'| | |]; try done. by destruct Hg as (-> & ? & ? & ?).
  - by rewrite !with_None by done.
Qed.

Lemma indep_with_mut {B} h (g : T → prog world (T * B)) : h ≠ k → (∀ x, indep k (g x)) → indep k (with_mut tbl h g).
Proof.
  intros Hne Hg w1 w2 H. pose proof (sep_lookup k w1 w2 H h Hne) as Hl.
  destruct (map_of tbl w2 !! h) as [x|] eqn:Hx.
  - rewrite (with_mut_Some tbl h g w1 x Hl), (with_mut_Some tbl h g w2 x Hx). specialize (Hg x w1 w2 H). unfold alike in *.
    destruct (g x w1) as [[x1 r1] w1'| | |], (g x w2) as [[x2 r2] w2'| | |]; try done.
    destruct Hg as ([= -> ->] & H' & O1 & O2). split_and!; [done| | |].
    + apply sep_set; [done|by apply same_off_insert, sep_lookup|by rewrite lookup_insert_ne..].
    + by rewrite sep_objects by (by rewrite lookup_insert_ne).
    + by rewrite sep_objects by (by rewrite lookup_insert_ne).
  - by rewrite !with_mut_None by done.
Qed.

Lemma indep_remove h : h ≠ k → indep k (remove tbl h).
Proof.
  intros Hne w1 w2 H. rewrite !remove_eq. split_and!; [exact (sep_lookup k w1 w2 H h Hne)| | |].
  - apply sep_set; [done|by apply same_off_delete, sep_lookup|by rewrite lookup_delete_ne..].
  - by rewrite sep_objects by (by rewrite lookup_delete_ne).
  - by rewrite sep_objects by (by rewrite lookup_delete_ne).
Qed.

(** A new object gets a handle that was not issued. *)
Lemma agree_counter w1 w2 n : agree k w1 w2 → in_i32 n → k < (if 0 <? n then n else i32_max) →
  agree k (set_next n w1) (set_next n w2).
Proof. intros [] Hi Hn. by split. Qed.

Lemma indep_insert v : indep k (insert tbl v).
Proof.
  intros w1 w2 H. pose proof (ag_next _ _ _ H) as En. destruct (ag_old _ _ _ H) as [Hi Hk].
  unfold issued in Hk. change (counter w1) with (w_next w1) in Hk.
  assert (En' : counter w1 = counter w2) by exact En.
  destruct (Z.le_gt_cases (counter w1) 0) as [Hx|Hx].
  - rewrite (insert_exhausted tbl v w1 Hx), (insert_exhausted tbl v w2) by lia. change (w_next w1 ≤ 0) in Hx.
    split_and!; [done| |done|done]. apply agree_counter; [done|done|].
    rewrite (proj2 (Z.ltb_ge _ _)) in Hk by lia. done.
  - rewrite (insert_pos tbl v w1 Hx), (insert_pos tbl v w2) by lia. change (0 < w_next w1) in Hx.
    change (counter w1) with (w_next w1). change (counter w2) with (w_next w2). rewrite <- En.
    rewrite (proj2 (Z.ltb_lt _ _)) in Hk by lia. set (n := w_next w1) in *.
    assert (H' : agree k (set_next (as_i32 (n + 1)) w1) (set_next (as_i32 (n + 1)) w2)).
    { apply agree_counter; [done|apply as_i32_in|]. destruct (Z.eq_dec n i32_max) as [->|Hm]; [done|].
      rewrite as_i32_id by (unfold in_i32 in *; lia). case_if; breflect; lia. }
    assert (M : ∀ w, map_of tbl (set_next (as_i32 (n + 1)) w) = map_of tbl w) by (intros w; exact (map_of_set_counter (tbl:=tbl) (as_i32 (n + 1)) w)).
    rewrite <- (M w1), <- (M w2). split_and!; [done| | |].
    + apply sep_set; [done|by apply same_off_insert, sep_lookup|by rewrite lookup_insert_ne by lia..].
    + rewrite sep_objects by (by rewrite lookup_insert_ne by lia). done.
    + rewrite sep_objects by (by rewrite lookup_insert_ne by lia). done.
Qed.
End Table.

(** *** Memory, errors and the clock *)

Section Primitives.
Context (k : Z).

Lemma indep_mem {A} (f : memory → A) : indep k (gets (λ w, f (w_mem w))).
Proof. apply indep_gets. intros w1 w2 H. by rewrite (ag_mem _ _ _ H). Qed.

Lemma indep_read_u8 p n : indep k (read_u8 p n).
Proof. apply indep_bind; [apply (indep_mem (λ m, load (m_u8 m) p n))|]. intros []; [apply indep_ret|apply indep_undef]. Qed.
Lemma indep_read_i32 p : indep k (read_i32 p).
Proof. apply indep_bind; [apply (indep_mem (λ m, load (m_i32 m) p 1))|]. intros [[]|]; (apply indep_ret || apply indep_undef). Qed.
Lemma indep_read_u64 p : indep k (read_u64 p).
Proof. apply indep_bind; [apply (indep_mem (λ m, load (m_u64 m) p 1))|]. intros [[]|]; (apply indep_ret || apply indep_undef). Qed.
Lemma indep_read_ptr p : indep k (read_ptr p).
Proof. apply indep_bind; [apply (indep_mem (λ m, load (m_ptr m) p 1))|]. intros [[]|]; (apply indep_ret || apply indep_undef). Qed.

Lemma indep_write_u8 p l : indep k (write_u8 p l).
Proof.
  intros w1 w2 H. unfold write_u8. rewrite <- (ag_mem _ _ _ H). case_match; [|done].
  split_and!; [done|by apply agree_mem|done|done].
Qed.
Lemma indep_write_i32 p z : indep k (write_i32 p z).
Proof.
  intros w1 w2 H. unfold write_i32. rewrite <- (ag_mem _ _ _ H). case_match; [|done].
  split_and!; [done|by apply agree_mem|done|done].
Qed.
Lemma indep_write_u64 p z : indep k (write_u64 p z).
Proof.
  intros w1 w2 H. unfold write_u64. rewrite <- (ag_mem _ _ _ H). case_match; [|done].
  split_and!; [done|by apply agree_mem|done|done].
Qed.

Lemma indep_elapsed_us : indep k elapsed_us.
Proof.
  intros w1 w2 H. unfold elapsed_us. rewrite <- (ag_clock _ _ _ H). case_match; [done|].
  split_and!; [done|by apply agree_elapsed|done|done].
Qed.

Lemma indep_clear_last_error : indep k clear_last_error.
Proof. apply indep_modify; [intros; by apply agree_error|done]. Qed.
Lemma indep_set_last_error m : indep k (set_last_error m).
Proof. apply indep_modify; [intros; by apply agree_error|done]. Qed.
Lemma indep_rlsm_err {A} m (a : A) : indep k (rlsm_err m a).
Proof. apply indep_bind; [apply indep_set_last_error|]. intros; apply indep_ret. Qed.
Lemma indep_arc_new {A} (a : A) : indep k (arc_new a).
Proof.
  unfold arc_new. apply indep_bind; [apply indep_gets; intros w1 w2 H; apply H|]. intros n.
  apply indep_bind; [apply indep_modify; [intros; by apply agree_arc|done]|]. intros; apply indep_ret.
Qed.
Lemma indep_held id : indep k (gets (λ w, arc_held w id)).
Proof. apply indep_gets. intros w1 w2 H. by apply (agree_held k). Qed.
Lemma indep_free_count : indep k rlsm_test_keys_free_count.
Proof. apply indep_gets. intros w1 w2 H. apply H. Qed.
Lemma indep_free_reset : indep k rlsm_test_keys_free_reset.
Proof. apply indep_bind; [apply indep_modify; [intros; by apply agree_count|done]|]. intros; apply indep_ret. Qed.
Lemma indep_count_free : indep k (modify (λ w, set_free_count (as_u64 (w_keys_free_count w + 1)) w)).
Proof. apply indep_modify; [|done]. intros w1 w2 H. rewrite <- (ag_count _ _ _ H). by apply agree_count. Qed.
Lemma indep_last_error p n : indep k (rlsm_last_error p n).
Proof.
  unfold rlsm_last_error. apply indep_bind; [apply indep_gets; intros w1 w2 H; apply H|]. intros e.
  repeat (cbv zeta; first [apply indep_bind; [|intros]|apply indep_ret|apply indep_write_u8|case_match]).
Qed.
End Primitives.
End Isolation.

Create HintDb isolation discriminated.
#[export] Hint Resolve indep_ret indep_panic indep_undef indep_no_fuel indep_expect indep_read_u8 indep_read_i32
  indep_read_u64 indep_read_ptr indep_write_u8 indep_write_i32 indep_write_u64 indep_elapsed_us
  indep_clear_last_error indep_set_last_error indep_rlsm_err indep_arc_new indep_held indep_free_count
  indep_free_reset indep_count_free indep_last_error : isolation.

Ltac indep_step :=
  lazymatch goal with
  | |- indep _ (let '(_, _) := ?e in _) => destruct e eqn:?
  | |- indep _ (match ?e with _ => _ end) => destruct e eqn:?
  | |- indep _ (mbind _ _) => apply indep_bind; [|intros]
  | |- indep _ (for_loop _ _ _ _) => apply indep_for_loop; intros
  | |- indep _ (with_mut ?t _ _) => apply (indep_with_mut t); [by auto|intros]
  | |- indep _ (with_ ?t _ _) => apply (indep_with t); [by auto|intros]
  | |- indep _ (insert ?t _) => apply (indep_insert t)
  | |- indep _ (remove ?t _) => apply (indep_remove t); by auto
  | |- indep _ _ => solve [auto with isolation]
  end.
Ltac calls_independent := intros; repeat (cbv zeta; indep_step).

Section Calls.
Context {R : Rustls} (k : Z).

Lemma keys_call_indep c : keys_handle c ≠ Some k → indep k (exec c).
Proof.
  intros Hne. destruct c; simpl in *; try (assert (h ≠ k) by congruence); clear Hne;
  unfold rlsm_initial_keys, rlsm_initial_keys_raw, derive_raw_keys, initial_suite,
      expand_with_label, rlsm_keys_local_encrypt, rlsm_keys_remote_decrypt,
      rlsm_keys_local_header_protect, rlsm_keys_remote_header_unprotect,
      header_in_place, rlsm_keys_batch_header_unprotect, batch_unprotect_one,
      rlsm_keys_batch_header_protect, batch_protect_one, rlsm_keys_tag_len,
      rlsm_keys_batch_decrypt, rlsm_keys_batch_encrypt, batch_decrypt_one, batch_encrypt_one,
      rlsm_aes_gcm_128_seal, rlsm_aes_gcm_128_open, rlsm_hmac_sha256, rlsm_keys_free;
  calls_independent.
Qed.

Lemma hs_call_indep c : hs_handle c ≠ Some k → indep k (exec_hs c).
Proof.
  intros Hne. destruct c; simpl in *; [..|by apply keys_call_indep];
    try (assert (h ≠ k) by congruence); try (assert (cfg ≠ k) by congruence); clear Hne;
    unfold rlsm_quic_server_config_new, rlsm_quic_client_config_new,
      rlsm_quic_client_config_new_insecure, rlsm_quic_client_config_with_ca,
      rlsm_quic_client_conn_new, rlsm_quic_server_conn_new, rlsm_quic_conn_free,
      rlsm_quic_conn_write_hs, rlsm_quic_conn_read_hs, rlsm_quic_conn_alert,
      rlsm_quic_conn_take_keys, rlsm_quic_conn_take_next_keys,
      rlsm_quic_server_conn_reject_early_data, assert_reject_early_data, assert_,
      rlsm_quic_conn_is_handshaking, rlsm_quic_conn_handshake_kind,
      rlsm_quic_conn_transport_params, rlsm_quic_conn_alpn, copy_out,
      rlsm_quic_conn_zero_rtt_keys, rlsm_quic_server_conn_zero_rtt_keys,
      rlsm_quic_conn_is_early_data_accepted, rlsm_quic_server_conn_replay_authenticator,
      insert_out, or_invalid;
    calls_independent.
Qed.

Lemma tcp_call_indep c : tcp_handle c ≠ Some k → indep k (exec_tcp c).
Proof.
  intros Hne. destruct c; simpl in *;
    try (assert (h ≠ k) by congruence); try (assert (cfg ≠ k) by congruence); clear Hne;
    unfold rlsm_client_config_new, rlsm_client_config_new_insecure, rlsm_server_config_new,
      rlsm_config_free, rlsm_config_set_alpn_protocols, rlsm_tls_client_new, rlsm_tls_server_new,
      rlsm_tls_conn_free, rlsm_tls_conn_read_tls, rlsm_tls_conn_write_tls,
      rlsm_tls_conn_read_plaintext, rlsm_tls_conn_write_plaintext, rlsm_tls_conn_is_handshaking,
      rlsm_tls_conn_alpn, get_client_config, get_server_config, _insert_client_config;
    calls_independent.
Qed.

Lemma call_indep c : handle_of c ≠ Some k → indep k (exec_shim c).
Proof. destruct c; [apply tcp_call_indep|apply hs_call_indep|]. intros _. apply indep_last_error. Qed.

(** ** Clients

    A client chooses each step on the answers it got and what its memory holds:
    a call, or new contents of its memory. *)

Definition client := list Z → memory → option (shim_call + memory).

Fixpoint play (n : nat) (next : client) (answers : list Z) : prog world (list Z) :=
  match n with
  | O => mret answers
  | S n =>
      m ← gets w_mem;
      match next answers m with
      | None => mret answers
      | Some (inl c) => r ← exec_shim c; play n next (answers ++ [r])
      | Some (inr m') => modify (set_mem m');; play n next answers
      end
  end.

Definition avoids (next : client) : Prop := ∀ l m c, next l m = Some (inl c) → handle_of c ≠ Some k.

Lemma play_indep n next answers : avoids next → indep k (play n next answers).
Proof.
  intros Ha. revert answers. induction n as [|n IH]; intros answers; simpl; [apply indep_ret|].
  apply indep_bind; [apply (indep_mem k id)|]. intros m.
  destruct (next answers m) as [[c|m']|] eqn:E; [| |apply indep_ret].
  - apply indep_bind; [by apply call_indep, (Ha answers m)|]. auto.
  - apply indep_bind; [apply indep_modify; [intros; by apply agree_mem|done]|]. auto.
Qed.

(** C10: a client that never passes a handle gets the same answers, memory and
    last error, and the same crash if there is one, whatever objects the handle
    stands for: two processes that differ in these only (with the same
    configurations held by a TLS connection behind it) go through any script of
    calls alike, and at its end both still have them untouched. *)
Theorem handles_do_not_interfere n next w1 w2 :
  avoids next → agree k w1 w2 → alike k w1 w2 (play n next [] w1) (play n next [] w2).
Proof. intros Ha H. by apply play_indep. Qed.
End Calls.

(** Two key sets; the client uses and frees the second, with the first there or
    gone. *)
Definition two_keys : world (R:=toy) :=
  let w := state_of empty_world (exec_shim first_call empty_world) in state_of w (exec_shim first_call w).

Definition without_first : world (R:=toy) := set_map keys_table (delete 1 (w_keys two_keys)) two_keys.

Definition second_user : client := λ l m,
  match length l with
  | 0%nat => Some (inl (Quic (Keys (TagLen 2))))
  | 1%nat => Some (inl first_call)
  | 2%nat => Some (inl (Quic (Keys (KeysFree 2))))
  | 3%nat => Some (inl (Quic (Keys (TagLen 2))))
  | _ => None
  end.

Lemma handles_do_not_interfere_witness :
  is_some (w_keys two_keys !! 1) = true ∧ is_some (w_keys without_first !! 1) = false ∧
  (result_of (play (R:=toy) 5 second_user [] two_keys) = Some [16; 3; 0; -1]) ∧
  alike (R:=toy) 1 two_keys without_first (play 5 second_user [] two_keys) (play 5 second_user [] without_first).
Proof.
  split_and!; [by_eval..|]. apply (handles_do_not_interfere (R:=toy) 1 5 second_user two_keys without_first).
  - intros l m c H. unfold second_user in H. destruct (length l) as [|[|[|[|]]]]; by simplify_eq.
  - split; try done. intros h Hh. symmetry. by apply lookup_delete_ne.
Defined.
End Isolation.
