(* ===== verification/Safety.v ===== *)
(** * Memory safety: the contract and its judgement

    What each exported function of [src/crates/librustls-mojo/src] asks of its
    pointers is [valid_call], the contract of the unsafe interface: a pointer is
    null or valid for the length that goes with it. The judgement [safe] is
    total: a safe program returns, so that it neither panics, nor loops, nor
    leaves the buffers it was given. Its rules follow the program, and carry
    the sizes of the caller's blocks (which no write changes) and the
    well-formed tables. *)

From S2P Require Import Prelude Effects Handles Rustls World Frames Toy QuicKeys QuicKeysFacts.
From S2P Require Import Config ConfigFacts Tcp TcpFacts QuicHs QuicHsFacts Shim.
Import Effects Handles Rustls World Frames Toy QuicKeys QuicKeysFacts.
Import Config ConfigFacts Tcp TcpFacts QuicHs QuicHsFacts Shim.

Module Safety.

(** Documented behaviour of the primitives the functions hand slices to: the
    TLS 1.3 suite the crate names exists, HKDF expands to any length up to 255
    blocks, operations in place keep the slice's length whether they succeed or
    not, and the lengths of AES-GCM and HMAC outputs. *)
Class PrimitiveLaws {R : Rustls} := {
  suite_present : is_Some tls13_aes_128_gcm_sha256;
  expand_length : ∀ e info n, 0 ≤ n ≤ 255 * 32 → ∃ b, expand_slice e info n = Some b ∧ zlen b = n;
  encrypt_keeps : ∀ k pn hdr pt, zlen (pkey_encrypt_in_place k pn hdr pt).1 = zlen pt;
  decrypt_keeps : ∀ k pn hdr ct, zlen (pkey_decrypt_in_place k pn hdr ct).1 = zlen ct;
  hp_encrypt_keeps : ∀ k sample b pn, zlen (hkey_encrypt_in_place k sample b pn).1.2 = zlen pn;
  hp_decrypt_keeps : ∀ k sample b pn, zlen (hkey_decrypt_in_place k sample b pn).1.2 = zlen pn;
  seal_length : ∀ k n aad pt out,
    seal_in_place_append_tag k n aad pt = Some out → zlen out = zlen pt + aes_tag_len;
  open_length : ∀ k n aad ct pt, open_in_place k n aad ct = Some pt → zlen pt ≤ zlen ct;
  hmac_length : ∀ k m, zlen (hmac_sha256 k m) = 32;
}.
Arguments PrimitiveLaws : clear implicits.

(** ** Ranges of the caller's memory *)

Section Ranges.
Context {A : Type}.
Implicit Types h : gmap N (list A).

Definition valid h (p : ptr) (n : Z) : Prop := is_Some (load h p n).

(** Same blocks, of the same sizes. *)
Definition same_sizes h h' : Prop := zlen <$> h = zlen <$> h'.

Lemma valid_spec h p n :
  valid h p n ↔ ∃ b o z, p = Ptr b o ∧ (zlen <$> h) !! b = Some z ∧ 0 ≤ o ∧ 0 ≤ n ∧ o + n ≤ z.
Proof.
  unfold valid, load. split.
  - destruct p as [|b o]; [by intros []|]. destruct (h !! b) as [l|] eqn:E; [|by intros []].
    destruct (fits o n l) eqn:F; [|by intros []]. apply fits_spec in F. intros _.
    exists b, o, (zlen l). rewrite lookup_fmap, E. split_and!; try done; lia.
  - intros (b & o & z & -> & Hz & H1 & H2 & H3). rewrite lookup_fmap in Hz.
    destruct (h !! b) as [l|]; [|done]. injection Hz as <-.
    assert (fits o n l = true) as -> by (apply fits_spec; lia). by eexists.
Qed.

Lemma valid_same h h' p n : same_sizes h h' → valid h p n → valid h' p n.
Proof. intros E. rewrite !valid_spec. by rewrite E. Qed.

Lemma valid_within h p n o k : valid h p n → 0 ≤ o → 0 ≤ k → o + k ≤ n → valid h (ptr_add p o) k.
Proof.
  rewrite !valid_spec. intros (b & i & z & -> & Hz & H1 & H2 & H3) ???.
  exists b, (i + o), z. split_and!; try done; lia.
Qed.

Lemma valid_prefix h p n k : valid h p n → 0 ≤ k ≤ n → valid h p k.
Proof.
  rewrite !valid_spec. intros (b & i & z & -> & Hz & H1 & H2 & H3) ?.
  exists b, i, z. split_and!; try done; lia.
Qed.

Lemma valid_eval h p n : is_some (load h p n) = true → valid h p n.
Proof. unfold valid. destruct (load h p n); [by eexists|done]. Qed.

(** A write to a valid range succeeds and changes no size. *)
Lemma store_valid h p new : valid h p (zlen new) → ∃ h', store h p new = Some h' ∧ same_sizes h' h.
Proof.
  unfold valid, load, store. destruct p as [|b o]; [by intros []|].
  destruct (h !! b) as [l|] eqn:E; [|by intros []]. destruct (fits o (zlen new) l) eqn:F; [|by intros []].
  intros _. eexists. split; [done|]. unfold same_sizes. rewrite fmap_insert.
  replace (zlen (splice o new l)) with (zlen l) by (unfold zlen; by rewrite length_splice).
  apply insert_id. by rewrite lookup_fmap, E.
Qed.

Lemma load_cell h p n l i :
  load h p n = Some l → 0 ≤ i < n → ∃ x, l !! Z.to_nat i = Some x ∧ load h (ptr_add p i) 1 = Some [x].
Proof.
  intros Hl Hi. pose proof (load_length _ _ _ _ Hl) as Hz.
  destruct (lookup_lt_is_Some_2 l (Z.to_nat i)) as [x Hx]; [unfold zlen in *; lia|].
  exists x. split; [done|]. unfold load in *. destruct p as [|b o]; [done|]. simpl.
  destruct (h !! b) as [k|]; [|done]. destruct (fits o n k) eqn:F; [|done]. apply fits_spec in F.
  assert (fits (o + i) 1 k = true) as -> by (apply fits_spec; lia). injection Hl as <-.
  unfold sub in *. rewrite lookup_take_Some, lookup_drop in Hx. destruct Hx as [Hx _]. f_equal.
  replace (Z.to_nat (o + i)) with (Z.to_nat o + Z.to_nat i)%nat by lia.
  apply (drop_S) in Hx. rewrite Hx. done.
Qed.
End Ranges.

(** ** The judgement *)

Section Judgement.
Context {R : Rustls}.

(** The memory as a call finds it, and ranges of [i32]s it must not change. *)
Section View.
Context (m0 : memory) (keep : list (ptr * Z)).

Record in_view (m : memory) : Prop := {
  view_u8 : same_sizes (m_u8 m) (m_u8 m0);
  view_i32 : same_sizes (m_i32 m) (m_i32 m0);
  view_u64 : same_sizes (m_u64 m) (m_u64 m0);
  view_ptr : m_ptr m = m_ptr m0;
  view_keep : ∀ p n, (p, n) ∈ keep → load (m_i32 m) p n = load (m_i32 m0) p n;
}.

Definition safe {A} (c : prog world A) (Q : A → Prop) : Prop :=
  ∀ w, in_view (w_mem w) → well_formed w →
  ∃ a w', c w = Ret a w' ∧ in_view (w_mem w') ∧ well_formed w' ∧ Q a.

Lemma safe_ret {A} (a : A) (Q : A → Prop) : Q a → safe (mret a) Q.
Proof. intros HQ w Hv Hw. by exists a, w. Qed.

Lemma safe_bind {A B} (c : prog world A) (k : A → prog world B) P Q :
  safe c P → (∀ a, P a → safe (k a) Q) → safe (c ≫= k) Q.
Proof.
  intros Hc Hk w Hv Hw. destruct (Hc w Hv Hw) as (a & w1 & E1 & Hv1 & Hw1 & Ha).
  destruct (Hk a Ha w1 Hv1 Hw1) as (b & w2 & E2 & Hv2 & Hw2 & Hb).
  exists b, w2. by rewrite (bind_Ret _ _ _ _ _ E1).
Qed.

Lemma safe_conseq {A} (c : prog world A) (P Q : A → Prop) :
  safe c P → (∀ a, P a → Q a) → safe c Q.
Proof. intros Hc HPQ w Hv Hw. destruct (Hc w Hv Hw) as (a & w1 & ? & ? & ? & ?). eauto 10. Qed.

(** Programs that always return and leave the memory alone. *)
Lemma safe_total {A} (c : prog world A) :
  keeps w_mem c → preserves c → (∀ w, ∃ a w', c w = Ret a w') → safe c (λ _, True).
Proof.
  intros Hk Hp Ht w Hv Hw. destruct (Ht w) as (a & w' & E). exists a, w'.
  rewrite (Hk _ _ _ E). split_and!; try done. by eapply Hp.
Qed.

Lemma safe_gets {A} (f : world → A) : safe (gets f) (λ _, True).
Proof. intros w Hv Hw. by exists (f w), w. Qed.

Lemma safe_set_error e : safe (modify (set_error e)) (λ _, True).
Proof.
  apply safe_total; [by apply keeps_modify| |by eexists _, _].
  by apply preserves_keeps, keeps_modify.
Qed.

Lemma safe_clear : safe clear_last_error (λ _, True).
Proof. apply safe_set_error. Qed.
Lemma safe_set_last_error msg : safe (set_last_error msg) (λ _, True).
Proof. apply safe_set_error. Qed.

Lemma safe_rlsm_err {A} msg (a : A) (Q : A → Prop) : Q a → safe (rlsm_err msg a) Q.
Proof. intros HQ. eapply safe_bind; [apply safe_set_last_error|]. intros _ _. by apply safe_ret. Qed.

Lemma safe_elapsed : safe elapsed_us (λ _, True).
Proof.
  intros w Hv Hw. destruct (elapsed_us_ret w) as (t & l & E). exists t, (set_elapsed l w).
  split_and!; try done. by eapply well_formed_tables; [|exact Hw].
Qed.

Lemma safe_reset n : safe (modify (set_free_count n)) (λ _, True).
Proof.
  apply safe_total; [by apply keeps_modify| |by eexists _, _].
  by apply preserves_keeps, keeps_modify.
Qed.

Lemma safe_free_count f : safe (modify (λ w, set_free_count (f w) w)) (λ _, True).
Proof.
  apply safe_total; [by apply keeps_modify| |by eexists _, _].
  by apply preserves_keeps, keeps_modify.
Qed.

Lemma safe_next_arc n : safe (modify (set_next_arc n)) (λ _, True).
Proof.
  apply safe_total; [by apply keeps_modify| |by eexists _, _].
  by apply preserves_keeps, keeps_modify.
Qed.

Lemma safe_expect {A} (o : option A) m : is_Some o → safe (expect o m) (λ a, o = Some a).
Proof. intros [a ->]. by apply safe_ret. Qed.

(** *** Memory *)

Lemma in_view_valid_u8 m p n : in_view m → valid (m_u8 m0) p n → valid (m_u8 m) p n.
Proof. intros Hv. apply valid_same. symmetry. apply Hv. Qed.
Lemma in_view_valid_i32 m p n : in_view m → valid (m_i32 m0) p n → valid (m_i32 m) p n.
Proof. intros Hv. apply valid_same. symmetry. apply Hv. Qed.
Lemma in_view_valid_u64 m p n : in_view m → valid (m_u64 m0) p n → valid (m_u64 m) p n.
Proof. intros Hv. apply valid_same. symmetry. apply Hv. Qed.

Lemma safe_read_u8 p n : valid (m_u8 m0) p n → safe (read_u8 p n) (λ l, zlen l = n).
Proof.
  intros Hp w Hv Hw. destruct (in_view_valid_u8 _ p n Hv Hp) as [l Hl].
  exists l, w. rewrite (read_u8_ok _ _ _ _ Hl). split_and!; try done. by eapply load_length.
Qed.

Lemma in_view_u8 m h : in_view m → same_sizes h (m_u8 m) → in_view (set_u8 h m).
Proof. intros [] Hs. split; try done. by etrans. Qed.
Lemma in_view_u64 m h : in_view m → same_sizes h (m_u64 m) → in_view (set_u64 h m).
Proof. intros [] Hs. split; try done. by etrans. Qed.

Lemma well_formed_mem m w : well_formed w → well_formed (set_mem m w).
Proof. by apply well_formed_tables. Qed.

Lemma safe_write_u8 p l : valid (m_u8 m0) p (zlen l) → safe (write_u8 p l) (λ _, True).
Proof.
  intros Hp w Hv Hw.
  destruct (store_valid (m_u8 (w_mem w)) p l) as (h & Hs & Hz); [by apply in_view_valid_u8|].
  eexists tt, _. rewrite (write_u8_ok _ _ _ _ Hs). split_and!; try done.
  - by apply in_view_u8.
  - by apply well_formed_mem.
Qed.

Lemma safe_write_u64 p z : valid (m_u64 m0) p 1 → safe (write_u64 p z) (λ _, True).
Proof.
  intros Hp w Hv Hw.
  destruct (store_valid (m_u64 (w_mem w)) p [z]) as (h & Hs & Hz); [by apply in_view_valid_u64|].
  eexists tt, _. rewrite (write_u64_ok _ _ _ _ Hs). split_and!; try done.
  - by apply in_view_u64.
  - by apply well_formed_mem.
Qed.

(** A cell that is written must not be in a range that is kept. *)
Lemma safe_write_i32 p z :
  valid (m_i32 m0) p 1 → (∀ q n, (q, n) ∈ keep → apart p 1 q n) →
  safe (write_i32 p z) (λ _, True).
Proof.
  intros Hp Ha w Hv Hw.
  destruct (store_valid (m_i32 (w_mem w)) p [z]) as (h & Hs & Hz); [by apply in_view_valid_i32|].
  eexists tt, _. rewrite (write_i32_ok _ _ _ _ Hs). split_and!; try done.
  - destruct Hv as [? ? ? ? Hk]. split; try done; [by etrans|]. intros q n Hq. simpl.
    rewrite (load_store_apart _ _ q n _ _ Hs); [by apply Hk|by apply Ha].
  - by apply well_formed_mem.
Qed.

Lemma safe_read_i32 p : valid (m_i32 m0) p 1 → safe (read_i32 p) (λ _, True).
Proof.
  intros Hp w Hv Hw. destruct (in_view_valid_i32 _ p 1 Hv Hp) as [l Hl].
  pose proof (load_length _ _ _ _ Hl) as Hz. destruct l as [|z [|]]; [done| |].
  - exists z, w. by rewrite (read_i32_ok _ _ _ Hl).
  - rewrite !zlen_cons in Hz. pose proof (zlen_nonneg l). lia.
Qed.

Lemma safe_read_u64 p : valid (m_u64 m0) p 1 → safe (read_u64 p) (λ _, True).
Proof.
  intros Hp w Hv Hw. destruct (in_view_valid_u64 _ p 1 Hv Hp) as [l Hl].
  pose proof (load_length _ _ _ _ Hl) as Hz. destruct l as [|z [|]]; [done| |].
  - exists z, w. by rewrite (read_u64_ok _ _ _ Hl).
  - rewrite !zlen_cons in Hz. pose proof (zlen_nonneg l). lia.
Qed.

(** An element of a kept range reads as it did at first. *)
Lemma safe_read_kept p n l i :
  (p, n) ∈ keep → load (m_i32 m0) p n = Some l → 0 ≤ i < n →
  safe (read_i32 (ptr_add p i)) (λ z, l !! Z.to_nat i = Some z).
Proof.
  intros Hk Hl Hi w Hv Hw. rewrite <- (view_keep _ Hv p n Hk) in Hl.
  destruct (load_cell _ _ _ _ i Hl Hi) as (x & Hx & Hc).
  exists x, w. by rewrite (read_i32_ok _ _ _ Hc).
Qed.

Lemma safe_read_ptr p n l i :
  load (m_ptr m0) p n = Some l → 0 ≤ i < n →
  safe (read_ptr (ptr_add p i)) (λ q, l !! Z.to_nat i = Some q).
Proof.
  intros Hl Hi w Hv Hw. rewrite <- (view_ptr _ Hv) in Hl.
  destruct (load_cell _ _ _ _ i Hl Hi) as (x & Hx & Hc).
  exists x, w. by rewrite (read_ptr_ok _ _ _ Hc).
Qed.

(** *** Loops and tables *)

Lemma safe_for_loop {A} n i (body : Z → A → prog world A) acc (I : A → Prop) :
  (∀ j a, i ≤ j < i + Z.of_nat n → I a → safe (body j a) I) → I acc →
  safe (for_loop n i body acc) I.
Proof.
  revert i acc. induction n as [|n IH]; intros i acc Hb Ha; simpl; [by apply safe_ret|].
  eapply safe_bind; [apply Hb; [lia|done]|]. intros a' Ha'. apply IH; [|done].
  intros j a Hj. apply Hb. lia.
Qed.

Section Table.
Context {T} (tbl : HandleTable world T) (ok : T → Prop) `{!Guarded tbl ok}.
Hypothesis mem_set : ∀ m w, w_mem (set_map tbl m w) = w_mem w.

Lemma safe_insert v : ok v → safe (insert tbl v) (λ _, True).
Proof.
  intros Hv. apply safe_total.
  - by apply keeps_insert.
  - by eapply preserves_insert.
  - intros w. destruct (Z.le_gt_cases (counter w) 0) as [Hx|Hx].
    + rewrite (insert_exhausted tbl v w Hx). by eexists _, _.
    + rewrite (insert_pos tbl v w Hx). by eexists _, _.
Qed.

Lemma safe_remove h : safe (remove tbl h) (λ _, True).
Proof.
  apply safe_total; [by apply keeps_remove|by eapply preserves_remove|].
  intros w. rewrite remove_eq. by eexists _, _.
Qed.

Lemma safe_with {B} h (g : T → prog world B) (Q : option B → Prop) :
  Q None → (∀ x, ok x → safe (g x) (λ r, Q (Some r))) → safe (with_ tbl h g) Q.
Proof.
  intros HN Hg w Hv Hw. destruct (map_of tbl w !! h) as [x|] eqn:Hx.
  - destruct (guarded_ok w Hw h x Hx) as [_ Hok].
    destruct (Hg x Hok w Hv Hw) as (r & w' & E & Hv' & Hw' & Hr).
    exists (Some r), w'. by rewrite (with_Some _ _ _ _ x Hx), E.
  - exists None, w. by rewrite with_None.
Qed.

Lemma safe_with_mut {B} h (g : T → prog world (T * B)) (Q : option B → Prop) :
  Q None → (∀ x, ok x → safe (g x) (λ p, ok p.1 ∧ Q (Some p.2))) → safe (with_mut tbl h g) Q.
Proof.
  intros HN Hg w Hv Hw. destruct (map_of tbl w !! h) as [x|] eqn:Hx.
  - destruct (guarded_ok w Hw h x Hx) as [Hh Hok].
    destruct (Hg x Hok w Hv Hw) as ([x' r] & w' & E & Hv' & Hw' & Hx' & Hr).
    eexists (Some r), _. rewrite (with_mut_Some _ _ _ _ x Hx), E. split_and!; [done| | |done].
    + by rewrite mem_set.
    + apply guarded_set; [done|]. apply map_Forall_insert_2; [done|by apply guarded_ok].
  - exists None, w. by rewrite with_mut_None.
Qed.
End Table.
End View.
End Judgement.

(** ** What each function asks of its pointers

    A pointer with its length: null, a negative length, or a range of a live
    block. Lengths are [i32]s. *)

Section Contracts.
Context {R : Rustls}.

Definition buffer (m : memory) (p : ptr) (n : Z) : Prop :=
  in_i32 n ∧ (is_null p = false → 0 ≤ n → valid (m_u8 m) p n).

(** A pointer that may also dangle when the length is zero. *)
Definition buffer_opt (m : memory) (p : ptr) (n : Z) : Prop :=
  in_i32 n ∧ (is_null p = false → 0 < n → valid (m_u8 m) p n).

Definition out_bytes (m : memory) (p : ptr) (n : Z) : Prop :=
  is_null p = false → valid (m_u8 m) p n.
Definition out_i32 (m : memory) (p : ptr) : Prop := is_null p = false → valid (m_i32 m) p 1.
Definition out_u64 (m : memory) (p : ptr) : Prop := is_null p = false → valid (m_u64 m) p 1.

(** An output buffer whose capacity is read from memory. *)
Definition out_cap (m : memory) (p len : ptr) : Prop :=
  is_null len = false →
  ∃ cap, load (m_i32 m) len 1 = Some [cap] ∧ (is_null p = false → 0 ≤ cap → valid (m_u8 m) p cap).

(** The arrays of a batch call, [n] elements each; the call refuses null ones. *)
Definition no_null (ps : list ptr) : bool := forallb (λ p, negb (is_null p)) ps.
Definition lens_of (m : memory) (p : ptr) (n : Z) (l : list Z) : Prop :=
  load (m_i32 m) p n = Some l ∧ Forall in_i32 l.

Definition keys_valid (m : memory) (c : call) : Prop :=
  match c with
  | InitialKeys _ d dl _ => buffer m d dl
  | InitialKeysRaw _ d dl _ k kl i il hp hl =>
      buffer m d dl ∧ out_cap m k kl ∧ out_cap m i il ∧ out_cap m hp hl
  | LocalEncrypt _ _ hd hl p pl cap => buffer m hd hl ∧ in_i32 pl ∧ buffer m p cap
  | RemoteDecrypt _ _ hd hl p pl => buffer m hd hl ∧ buffer m p pl
  | LocalHeaderProtect _ s sl f p pl | RemoteHeaderUnprotect _ s sl f p pl =>
      buffer m s sl ∧ out_bytes m f 1 ∧ buffer m p pl
  | BatchHeaderUnprotect _ n ptrs lens offs firsts outs =>
      in_i32 n ∧ (0 < n → no_null [ptrs; lens; offs; firsts; outs] = true → ∃ ps ls os,
        load (m_ptr m) ptrs n = Some ps ∧ lens_of m lens n ls ∧ lens_of m offs n os ∧
        valid (m_u8 m) firsts n ∧ valid (m_i32 m) outs n ∧
        apart outs n lens n ∧ apart outs n offs n ∧
        ∀ i p l o, ps !! i = Some p → ls !! i = Some l → os !! i = Some o →
          0 ≤ l ∧ 0 ≤ o ∧ out_bytes m p l)
  | BatchHeaderProtect _ n ptrs lens offs pnls outs =>
      in_i32 n ∧ (0 < n → no_null [ptrs; lens; offs; pnls; outs] = true → ∃ ps ls os,
        load (m_ptr m) ptrs n = Some ps ∧ lens_of m lens n ls ∧ lens_of m offs n os ∧
        valid (m_i32 m) pnls n ∧ valid (m_i32 m) outs n ∧
        apart outs n lens n ∧ apart outs n offs n ∧
        ∀ i p l o, ps !! i = Some p → ls !! i = Some l → os !! i = Some o →
          0 ≤ l ∧ 0 ≤ o ∧ out_bytes m p l)
  | BatchDecrypt _ n pns ptrs lens hdrs outs =>
      in_i32 n ∧ (0 < n → no_null [pns; ptrs; lens; hdrs; outs] = true → ∃ ps ls,
        load (m_ptr m) ptrs n = Some ps ∧ lens_of m lens n ls ∧ valid (m_i32 m) hdrs n ∧
        valid (m_u64 m) pns n ∧ valid (m_i32 m) outs n ∧ apart outs n lens n ∧
        ∀ i p l, ps !! i = Some p → ls !! i = Some l → 0 ≤ l ∧ out_bytes m p l)
  | BatchEncrypt _ n pns ptrs hdrs pays caps outs =>
      in_i32 n ∧ (0 < n → no_null [pns; ptrs; hdrs; pays; caps; outs] = true → ∃ ps hs cs,
        load (m_ptr m) ptrs n = Some ps ∧ lens_of m hdrs n hs ∧ lens_of m caps n cs ∧
        valid (m_i32 m) pays n ∧ valid (m_u64 m) pns n ∧ valid (m_i32 m) outs n ∧
        apart outs n hdrs n ∧ apart outs n caps n ∧
        ∀ i p hl cap, ps !! i = Some p → hs !! i = Some hl → cs !! i = Some cap →
          0 ≤ hl ∧ 0 ≤ cap ∧ out_bytes m p (hl + cap))
  | TagLen _ | FreeCount | FreeReset | KeysFree _ => True
  | Seal k kl n nl a al p pl o ol =>
      buffer m k kl ∧ buffer m n nl ∧ buffer_opt m a al ∧ buffer_opt m p pl ∧
      (0 ≤ pl → out_bytes m o (pl + aes_tag_len)) ∧ out_i32 m ol
  | Open k kl n nl a al p pl o ol =>
      buffer m k kl ∧ buffer m n nl ∧ buffer_opt m a al ∧ buffer m p pl ∧
      (0 ≤ pl → out_bytes m o pl) ∧ out_i32 m ol
  | Hmac k kl b bl o => buffer_opt m k kl ∧ buffer_opt m b bl ∧ out_bytes m o 32
  end.

Definition hs_valid (m : memory) (c : hs_call) : Prop :=
  match c with
  | ServerConfigNew c cl k kl a al _ o =>
      buffer m c cl ∧ buffer m k kl ∧ buffer m a al ∧ out_i32 m o
  | ClientConfigNew a al o | ClientConfigNewInsecure a al o => buffer m a al ∧ out_i32 m o
  | ClientConfigWithCa c cl a al o => buffer m c cl ∧ buffer m a al ∧ out_i32 m o
  | ClientConnNew _ _ n nl t tl o => buffer m n nl ∧ buffer_opt m t tl ∧ out_i32 m o
  | ServerConnNew _ _ t tl o => buffer_opt m t tl ∧ out_i32 m o
  | WriteHs _ b cap wr kind => buffer m b cap ∧ out_i32 m wr ∧ out_bytes m kind 1
  | ReadHs _ d n sm lk => buffer_opt m d n ∧ out_u64 m sm ∧ out_u64 m lk
  | TakeKeys _ o | TakeNextKeys _ o | ZeroRttKeys _ o | ServerZeroRttKeys _ o => out_i32 m o
  | TransportParams _ b cap wr | Alpn _ b cap wr => buffer m b cap ∧ out_i32 m wr
  | ReplayAuthenticator _ b l => out_bytes m b 32 ∧ out_u64 m l
  | ConnFree _ | Alert _ | IsHandshaking _ | HandshakeKindOf _ | IsEarlyDataAccepted _
  | RejectEarlyData _ => True
  | Keys c => keys_valid m c
  end.

Definition tcp_valid (m : memory) (c : tcp_call) : Prop :=
  match c with
  | CfgServerNew c cl k kl => buffer m c cl ∧ buffer m k kl
  | CfgSetAlpn _ p n => buffer m p n ∧ ∀ l, load (m_u8 m) p n = Some l → all_bytes l
  | TlsClientNew _ p n | TlsRead _ p n | TlsWrite _ p n | TlsReadPlain _ p n
  | TlsWritePlain _ p n | TlsAlpn _ p n => buffer m p n
  | CfgClientNew | CfgClientNewInsecure | CfgFree _ | TlsServerNew _ | TlsFree _
  | TlsIsHandshaking _ => True
  end.

Definition valid_call (m : memory) (c : shim_call) : Prop :=
  match c with
  | Tcp c => tcp_valid m c
  | Quic c => hs_valid m c
  | LastError b n => buffer m b n
  end.
End Contracts.

End Safety.
