(* ===== verification/SafetyFacts.v ===== *)
(** * The exported functions are memory safe

    Every exported function meets the contract [valid_call] of [Safety]:
    component by component the judgement [safe] is established by the search
    [calls_safe], which leaves the ranges a function touches; they follow from
    its guards. The last theorem is about whole processes. *)

From S2P Require Import Prelude Effects Handles Rustls World Frames Toy QuicKeys QuicKeysFacts.
From S2P Require Import Config ConfigFacts Tcp TcpFacts QuicHs QuicHsFacts Shim Safety.
Import Effects Handles Rustls World Frames Toy QuicKeys QuicKeysFacts.
Import Config ConfigFacts Tcp TcpFacts QuicHs QuicHsFacts Shim Safety.

Module SafetyFacts.

(** ** The functions meet it *)

Section Arguments.
Context {R : Rustls}.

Lemma buffer_read m p n : buffer m p n → is_null p = false → 0 ≤ n → valid (m_u8 m) p (as_usize n).
Proof. intros [Hi Hb] Hp Hn. rewrite as_usize_nonneg_i32 by done. auto. Qed.

Lemma buffer_opt_read m p n :
  buffer_opt m p n → is_null p = false → 0 < n → valid (m_u8 m) p (as_usize n).
Proof. intros [Hi Hb] Hp Hn. rewrite as_usize_nonneg_i32 by (done || lia). auto. Qed.

Lemma buffer_write m p n k :
  buffer m p n → is_null p = false → 0 ≤ n → 0 ≤ k ≤ as_usize n → valid (m_u8 m) p k.
Proof. intros Hb Hp Hn Hk. eapply valid_prefix; [by apply buffer_read|done]. Qed.

Lemma buffer_prefix m p n k :
  buffer m p n → is_null p = false → 0 ≤ k ≤ n → valid (m_u8 m) p k.
Proof. intros [Hi Hb] Hp Hk. eapply valid_prefix; [apply Hb; [done|lia]|done]. Qed.

(** The guards on a pointer that is only read when its length is positive. *)
Lemma null_guard n p : (0 <? n) && is_null p = false → 0 < n → is_null p = false.
Proof. intros H Hn. by rewrite (proj2 (Z.ltb_lt _ _) Hn) in H. Qed.

Lemma null_guard' n p : is_null p && (0 <? n) = false → 0 < n → is_null p = false.
Proof. rewrite andb_comm. apply null_guard. Qed.

(** Nothing is kept: a cell may be written. *)
Lemma none_kept p q n : (q, n) ∈ @nil (ptr * Z) → apart p 1 q n.
Proof. by intros ?%elem_of_nil. Qed.
(** [if 0 < n { from_raw_parts(p, n) } else { &[] }]. *)
Lemma safe_read_if m keep p n :
  buffer_opt m p n → (0 <? n) && is_null p = false → 0 ≤ n →
  safe m keep (if 0 <? n then read_u8 p (as_usize n) else mret []) (λ l, zlen l = n).
Proof.
  intros Hb Hg Hn. destruct (0 <? n) eqn:E; breflect.
  - eapply safe_conseq; [apply safe_read_u8; apply buffer_opt_read; done|]. intros l ->.
    apply as_usize_nonneg_i32; [apply Hb|done].
  - apply safe_ret. rewrite zlen_nil. lia.
Qed.

End Arguments.

(** *** The primitives *)

Section Primitives.
Context {R : Rustls} {P : PrimitiveLaws R}.

Lemma packet_encrypt_keeps k pn hdr pt ct r :
  packet_encrypt_in_place k pn hdr pt = (ct, r) → zlen ct = zlen pt.
Proof.
  destruct k as [k|side]; simpl; [|by intros [= <- _]].
  intros E. pose proof (encrypt_keeps k pn hdr pt) as H. by rewrite E in H.
Qed.

Lemma packet_decrypt_keeps k pn hdr ct out r :
  packet_decrypt_in_place k pn hdr ct = (out, r) → zlen out = zlen ct.
Proof.
  destruct k as [k|side]; simpl; [|by intros [= <- _]].
  intros E. pose proof (decrypt_keeps k pn hdr ct) as H. by rewrite E in H.
Qed.

Lemma header_encrypt_keeps k s b pn b' pn' r :
  header_encrypt_in_place k s b pn = ((b', pn'), r) → zlen pn' = zlen pn.
Proof.
  destruct k as [k| |side]; simpl; [|by intros [= _ <- _]..].
  intros E. pose proof (hp_encrypt_keeps k s b pn) as H. by rewrite E in H.
Qed.

Lemma header_decrypt_keeps k s b pn b' pn' r :
  header_decrypt_in_place k s b pn = ((b', pn'), r) → zlen pn' = zlen pn.
Proof.
  destruct k as [k| |side]; simpl; [|by intros [= _ <- _]..].
  intros E. pose proof (hp_decrypt_keeps k s b pn) as H. by rewrite E in H.
Qed.

Lemma safe_initial_suite m keep : safe m keep initial_suite (λ _, True).
Proof. eapply safe_conseq; [apply safe_expect, suite_present|done]. Qed.

Lemma safe_expand m keep e l n :
  0 ≤ n ≤ 255 * 32 → safe m keep (expand_with_label e l n) (λ b, zlen b = n).
Proof.
  intros Hn. destruct (expand_length e (hkdf_label l n) n Hn) as (b & E & Hb).
  unfold expand_with_label. rewrite E. by apply safe_ret.
Qed.

End Primitives.

(** The search. Guards are decided as hypotheses, reads are bound with their
    lengths; what remains are the ranges a program touches and the entries it
    puts into a table. *)
Ltac safe_leaf :=
  lazymatch goal with
  | |- safe _ _ (mret _) _ => apply safe_ret
  | |- safe _ _ (gets _) _ => apply safe_gets
  | |- safe _ _ clear_last_error _ => apply safe_clear
  | |- safe _ _ (set_last_error _) _ => apply safe_set_last_error
  | |- safe _ _ (rlsm_err _ _) _ => apply safe_rlsm_err
  | |- safe _ _ elapsed_us _ => apply safe_elapsed
  | |- safe _ _ (read_u8 _ _) _ =>
      first [apply safe_read_u8|eapply safe_conseq; [apply safe_read_u8|done]]
  | |- safe _ _ (write_u8 _ _) _ => apply safe_write_u8
  | |- safe _ _ (write_i32 _ _) _ => apply safe_write_i32
  | |- safe _ _ (write_u64 _ _) _ => apply safe_write_u64
  | |- safe _ _ (read_u64 _) _ => apply safe_read_u64
  | |- safe _ _ (modify (λ w, set_free_count _ w)) _ => apply (safe_free_count _ _)
  | |- safe _ _ (modify (set_free_count _)) _ => apply safe_reset
  | |- safe _ _ (modify (set_next_arc _)) _ => apply safe_next_arc
  | |- safe _ _ initial_suite _ => apply safe_initial_suite
  | |- safe _ _ (expand_with_label _ _ _) _ => apply safe_expand
  | |- safe _ _ (insert ?t _) _ => eapply (safe_insert _ _ t); [apply _|reflexivity|]
  | |- safe _ _ (remove ?t _) _ => eapply (safe_remove _ _ t); [apply _|reflexivity]
  end.
Ltac safe_step :=
  lazymatch goal with
  | |- safe _ _ (let '(_, _) := ?e in _) _ => destruct e eqn:?
  | |- safe _ _ (mbind _ (with_ ?t _ _)) _ =>
      apply (safe_bind _ _ _ _ (λ _, True));
      [eapply (safe_with _ _ t); [apply _|done|intros]|intros ? _]
  | |- safe _ _ (mbind _ (with_mut ?t _ _)) _ =>
      apply (safe_bind _ _ _ _ (λ _, True));
      [eapply (safe_with_mut _ _ t); [apply _|reflexivity|done|intros]|intros ? _]
  | |- safe _ _ (mbind _ (if 0 <? ?n then read_u8 _ (as_usize ?n) else mret [])) _ =>
      eapply safe_bind; [apply safe_read_if|intros ? ?]
  | |- safe _ _ (mbind _ (match ?e with _ => _ end)) _ =>
      apply (safe_bind _ _ _ _ (λ _, True)); [|intros ? _]
  | |- safe _ _ (mbind _ (mbind _ _)) _ =>
      apply (safe_bind _ _ _ _ (λ _, True)); [|intros ? _]
  | |- safe _ _ (mbind _ _) _ => eapply safe_bind; [safe_leaf|intros ? ?]
  | |- safe _ _ (match ?e with _ => _ end) _ => destruct e eqn:?
  | |- safe _ _ _ _ => safe_leaf
  end.
Ltac calls_safe := intros; repeat (cbv zeta; safe_step).

#[local] Hint Resolve none_kept : core.

(** What the search leaves: ranges of the arguments, and entries. *)
Ltac solve_null :=
  first [done|eapply null_guard; [done|lia]|eapply null_guard'; [done|lia]].
Ltac lengths :=
  cbv beta in *;
  repeat match goal with
  | H : packet_encrypt_in_place _ _ _ _ = _ |- _ => apply packet_encrypt_keeps in H
  | H : packet_decrypt_in_place _ _ _ _ = _ |- _ => apply packet_decrypt_keeps in H
  | H : header_encrypt_in_place _ _ _ _ = _ |- _ => apply header_encrypt_keeps in H
  | H : header_decrypt_in_place _ _ _ _ = _ |- _ => apply header_decrypt_keeps in H
  | H : seal_in_place_append_tag _ _ _ _ = _ |- _ => apply seal_length in H
  | H : open_in_place _ _ _ _ = _ |- _ => apply open_length in H
  end.
Ltac usizes :=
  breflect;
  repeat match goal with
  | H : buffer _ _ ?n |- _ =>
      lazymatch goal with _ : in_i32 n |- _ => fail | _ => pose proof (proj1 H) end
  | H : buffer_opt _ _ ?n |- _ =>
      lazymatch goal with _ : in_i32 n |- _ => fail | _ => pose proof (proj1 H) end
  end;
  rewrite ?as_usize_nonneg_i32 in * by (done || lia).
Ltac rewrite_len l := match goal with H : zlen l = _ |- _ => rewrite H end.
Ltac solve_range :=
  breflect; unfold out_i32, out_bytes, out_u64 in *; simpl; try done; auto;
  lazymatch goal with
  | H : conn_ok ?x |- valid _ _ (zlen (client_random ?x)) => rewrite (ok_random _ H); auto
  | H : buffer _ ?p ?n, E : ?n = ?k |- valid _ ?p ?k => subst n; by apply H
  | |- valid _ _ (as_usize _) =>
      first [eapply buffer_read; [done|solve_null|lia]
            |eapply buffer_opt_read; [done|solve_null|lia]]
  | |- valid _ _ (zlen ?l) =>
      lengths; pose proof (zlen_nonneg l); eapply buffer_write; [done|done|done|lia]
  end.
Ltac solve_entry := first [split; [simpl; eauto with entries|done]|eauto with entries].
Ltac solve_safe := calls_safe; try done; try solve [solve_range|solve_entry].

Section HsSafe.
Context {R : Rustls}.

Lemma hs_call_safe m c :
  (∀ k, c ≠ Keys k) → hs_valid m c → safe m [] (exec_hs c) (λ _, True).
Proof.
  intros Hk Hc. destruct c; simpl in *; try (by edestruct Hk); destruct_and?;
    unfold rlsm_quic_server_config_new, rlsm_quic_client_config_new,
      rlsm_quic_client_config_new_insecure, rlsm_quic_client_config_with_ca,
      rlsm_quic_client_conn_new, rlsm_quic_server_conn_new, rlsm_quic_conn_free,
      rlsm_quic_conn_write_hs, rlsm_quic_conn_read_hs, rlsm_quic_conn_alert,
      rlsm_quic_conn_take_keys, rlsm_quic_conn_take_next_keys,
      rlsm_quic_server_conn_reject_early_data, assert_reject_early_data, assert_,
      rlsm_quic_conn_is_handshaking, rlsm_quic_conn_handshake_kind,
      rlsm_quic_conn_transport_params, rlsm_quic_conn_alpn, copy_out,
      rlsm_quic_conn_zero_rtt_keys, rlsm_quic_server_conn_zero_rtt_keys,
      rlsm_quic_conn_is_early_data_accepted, rlsm_quic_server_conn_replay_authenticator,
      insert_out, or_invalid;
    solve_safe. exact (I : (λ _ : unit, True) tt).
Qed.
End HsSafe.

(** *** TLS over TCP *)

Section TcpSafe.
Context {R : Rustls} {T : TcpLaws R}.

Lemma read_tls_ends fuel c data pos :
  0 ≤ pos ≤ zlen data → zlen data - pos < Z.of_nat fuel →
  read_tls_loop fuel c {| rd_data := data; rd_pos := pos |} ≠ None.
Proof.
  revert c pos. induction fuel as [|fuel IH]; intros c pos Hp Hf; [lia|]. simpl.
  destruct (TlsConn_read_tls c _) as [[c1 rd1] [err|n]] eqn:E1; [done|].
  destruct (TlsConn_read_tls_spec _ _ _ _ _ _ Hp E1) as (Hn & -> & Hroom). simpl.
  destruct (TlsConn_process_new_packets c1) as [c2 [err|u]]; [done|].
  destruct (n =? 0) eqn:En; [done|]. case_if; [done|]. breflect. apply IH; lia.
Qed.

Lemma write_plaintext_ends fuel c data total :
  0 ≤ total ≤ zlen data → zlen data - total ≤ Z.of_nat fuel →
  write_plaintext_loop fuel c data total ≠ None.
Proof.
  revert c total. induction fuel as [|fuel IH]; intros c total Ht Hf; simpl;
    (destruct (total <? zlen data) eqn:El; [|done]); breflect; [lia|].
  destruct (TlsConn_write_plaintext c _) as [c1 [err|n]] eqn:E; [done|].
  apply TlsConn_write_plaintext_count in E. rewrite zlen_sub in E by (apply fits_spec; lia).
  destruct (n =? 0) eqn:E0; [done|]. breflect. apply IH; lia.
Qed.

(** rustls fills the writer within the buffer. *)
Lemma slice_write_keeps buf data :
  zlen (wr_buf (slice_write {| wr_buf := buf; wr_pos := 0 |} data).2) = zlen buf.
Proof.
  rewrite slice_write_spec. cbn [wr_buf snd]. pose proof (zlen_nonneg buf). pose proof (zlen_nonneg data).
  unfold zlen at 1. rewrite length_splice; [done|]. apply fits_spec.
  rewrite zlen_sub by (apply fits_spec; lia). lia.
Qed.

Lemma TlsConn_write_tls_keeps c buf c' wr r :
  TlsConn_write_tls c {| wr_buf := buf; wr_pos := 0 |} = (c', wr, r) → zlen (wr_buf wr) = zlen buf.
Proof.
  destruct c as [c|c]; unfold TlsConn_write_tls; intros H.
  - pose proof (slice_write_keeps buf (client_pending_tls c)) as Hk.
    destruct (slice_write _ _) as [n wr']. case_match. by simplify_eq.
  - pose proof (slice_write_keeps buf (server_pending_tls c)) as Hk.
    destruct (slice_write _ _) as [n wr']. case_match. by simplify_eq.
Qed.

Lemma TlsConn_read_plaintext_bound c n c' b :
  0 ≤ n → TlsConn_read_plaintext c n = (c', inr b) → zlen b ≤ n.
Proof.
  destruct c as [c|c]; simpl; intros Hn; case_match; intros [= _ ->].
  - by eapply client_reader_bound.
  - by eapply server_reader_bound.
Qed.

Lemma tcp_call_safe m c :
  (∀ h p n, c ≠ CfgSetAlpn h p n) → tcp_valid m c → safe m [] (exec_tcp c) (λ _, True).
Proof.
  intros Hk Hc. destruct c; simpl in *; try (by edestruct Hk); destruct_and?;
    unfold rlsm_client_config_new, rlsm_client_config_new_insecure, rlsm_server_config_new,
      rlsm_config_free, rlsm_config_set_alpn_protocols, rlsm_tls_client_new, rlsm_tls_server_new,
      rlsm_tls_conn_free, rlsm_tls_conn_read_tls, rlsm_tls_conn_write_tls,
      rlsm_tls_conn_read_plaintext, rlsm_tls_conn_write_plaintext, rlsm_tls_conn_is_handshaking,
      rlsm_tls_conn_alpn, get_client_config, get_server_config, _insert_client_config, arc_new;
    solve_safe.
  - exfalso. by eapply read_tls_ends; [| |done]; unfold zlen; lia.
  - match goal with H : TlsConn_write_tls _ _ = _ |- _ => apply TlsConn_write_tls_keeps in H as -> end.
    solve_range.
  - match goal with H : TlsConn_read_plaintext _ _ = _ |- _ => apply TlsConn_read_plaintext_bound in H end.
    + solve_range.
    + breflect. destruct Hc. by rewrite as_usize_nonneg_i32.
  - exfalso. by eapply write_plaintext_ends; [| |done]; unfold zlen; lia.
Qed.
End TcpSafe.

Section Special.
Context {R : Rustls}.

Lemma in_view_refl m keep : in_view m keep m.
Proof. by split. Qed.

(** A call on the memory it finds. *)
Definition returns_from (w : world) (c : prog world Z) : Prop :=
  ∃ r w', c w = Ret r w' ∧ in_view (w_mem w) [] (w_mem w') ∧ well_formed w'.

Lemma safe_from w keep (c : prog world Z) Q :
  safe (w_mem w) keep c Q → well_formed w → returns_from w c.
Proof.
  intros Hc Hw. destruct (Hc w) as (r & w' & E & Hv & Hw' & _); [apply in_view_refl|done|].
  exists r, w'. split_and!; try done. destruct Hv. split; try done. by intros ? ? ?%elem_of_nil.
Qed.

Lemma returns_from_clear w (c : prog world Z) :
  returns_from (set_error None w) c → returns_from w (clear_last_error;; c).
Proof. done. Qed.

Lemma returns_from_err w msg : well_formed w → returns_from w (rlsm_err msg (-1)).
Proof. intros Hw. eapply (safe_from w []); [|done]. by apply (safe_rlsm_err _ _ _ _ (λ _, True)). Qed.

Lemma cleared w : well_formed w → well_formed (set_error None w).
Proof. by apply well_formed_tables. Qed.

(** The ALPN list is parsed from bytes. *)
Lemma set_alpn_safe w h p n :
  well_formed w → tcp_valid (w_mem w) (CfgSetAlpn h p n) →
  returns_from w (rlsm_config_set_alpn_protocols h p n).
Proof.
  intros Hw%cleared [[Hi Hb] Hl]. unfold rlsm_config_set_alpn_protocols. apply returns_from_clear.
  destruct (is_null p) eqn:Hp; [by apply returns_from_err|].
  destruct (n <? 0) eqn:Hn; [by apply returns_from_err|]. breflect.
  rewrite as_usize_nonneg_i32 by done. destruct (Hb eq_refl Hn) as [raw Hraw].
  unfold returns_from. rewrite (bind_Ret _ _ _ _ _ (read_u8_ok (set_error None w) _ _ _ Hraw)).
  eapply (safe_from _ [] _ (λ _, True)); [|done]. destruct (parse_alpn raw) eqn:E.
  - solve_safe.
  - exfalso. eapply alpn_loop_fuel; [by apply Hl| | |exact E]; unfold zlen; lia.
Qed.

Lemma last_error_safe w p n :
  well_formed w → buffer (w_mem w) p n → returns_from w (rlsm_last_error p n).
Proof.
  intros Hw [Hi Hb]. eapply (safe_from w [] _ (λ _, True)); [|done]. unfold rlsm_last_error.
  calls_safe; try done; breflect;
    pose proof (zlen_nonneg (string_bytes s)); rewrite as_usize_nonneg_i32 in * by (done || lia).
  - eapply valid_prefix; [apply Hb; [done|lia]|lia].
  - eapply valid_within; [apply Hb; [done|lia]|..]; change (zlen [0]) with 1; lia.
Qed.
End Special.

(** *** Packet protection *)

Section KeysSafe.
Context {R : Rustls} {P : PrimitiveLaws R}.

Definition batch_call (c : call) : bool :=
  match c with
  | InitialKeysRaw _ _ _ _ _ _ _ _ _ _ | BatchHeaderUnprotect _ _ _ _ _ _ _
  | BatchHeaderProtect _ _ _ _ _ _ _ | BatchDecrypt _ _ _ _ _ _ _
  | BatchEncrypt _ _ _ _ _ _ _ _ => true
  | _ => false
  end.

Lemma single_call_safe m c :
  batch_call c = false → keys_valid m c → safe m [] (exec c) (λ _, True).
Proof.
  intros Hb Hc. destruct c; simpl in *; try done; destruct_and?;
  unfold rlsm_initial_keys, rlsm_keys_local_encrypt, rlsm_keys_remote_decrypt,
      rlsm_keys_local_header_protect, rlsm_keys_remote_header_unprotect,
      header_in_place, rlsm_keys_tag_len, rlsm_test_keys_free_count, rlsm_test_keys_free_reset,
      rlsm_aes_gcm_128_seal, rlsm_aes_gcm_128_open, rlsm_hmac_sha256, rlsm_keys_free.
  all: solve_safe.
  all: lengths; usizes; unfold out_bytes in *.
  - rewrite_len l. rewrite zlen_sub by (apply fits_spec; lia).
    apply (buffer_prefix _ pay cap); [done..|lia].
  - pose proof (zlen_nonneg l0). apply (valid_within _ pay cap); [|lia..].
    by apply (buffer_prefix _ pay cap).
  - rewrite_len l. rewrite_len a4. auto.
  - pose proof (zlen_nonneg l).
    match goal with H : _ → _ → valid _ o _ |- _ => eapply valid_prefix; [apply H; [lia|done]|lia] end.
  - rewrite zlen_sub by (apply fits_spec; rewrite hmac_length; lia). auto.
Qed.

Lemma safe_derive m keep v d ic :
  safe m keep (derive_raw_keys v d ic)
    (λ r, ∀ k i h, r = inr (k, i, h) → zlen k = 16 ∧ zlen i = 12 ∧ zlen h = 16).
Proof. unfold derive_raw_keys. calls_safe; try lia; try done; naive_solver. Qed.

(** The capacities are read, then overwritten. *)
Lemma raw_keys_safe w v d dl ic k kl i il hp hl :
  well_formed w → keys_valid (w_mem w) (InitialKeysRaw v d dl ic k kl i il hp hl) →
  returns_from w (rlsm_initial_keys_raw v d dl ic k kl i il hp hl).
Proof.
  intros Hw%cleared (Hd & Hk & Hi & Hp). unfold rlsm_initial_keys_raw. apply returns_from_clear.
  repeat (case_if; [by apply returns_from_err|]). breflect.
  destruct Hk as (kc & Lk & Vk); [done|]. destruct Hi as (ic' & Li & Vi); [done|].
  destruct Hp as (hc & Lh & Vh); [done|]. unfold returns_from.
  rewrite (bind_Ret _ _ _ _ _ (read_i32_ok (set_error None w) _ _ Lk)).
  rewrite (bind_Ret _ _ _ _ _ (read_i32_ok (set_error None w) _ _ Li)).
  rewrite (bind_Ret _ _ _ _ _ (read_i32_ok (set_error None w) _ _ Lh)).
  eapply (safe_from _ [] _ (λ _, True)); [|done].
  repeat (case_if; [by solve_safe|]). breflect. eapply safe_bind; [apply safe_read_u8; solve_range|].
  intros dcid _. eapply safe_bind; [apply safe_derive|]. intros [|[[key iv] hpk]] Hlen; [by solve_safe|].
  destruct (Hlen _ _ _ eq_refl) as (H16 & H12 & H16').
  solve_safe; try (by eexists);
    rewrite ?H16, ?H12, ?H16'; eapply valid_prefix; (eapply Vk || eapply Vi || eapply Vh) || lia; try done; lia.
Qed.

(** *** Batches *)

Lemma zlen_one (z : Z) : zlen [z] = 1.
Proof. done. Qed.

Lemma usize_add_small a b : 0 ≤ a → 0 ≤ b → a + b < 2 ^ 64 → usize_add a b = a + b.
Proof. intros. apply as_usize_id. lia. Qed.

Lemma apart_cell p n q k i : apart p n q k → 0 ≤ i < n → apart (ptr_add p i) 1 q k.
Proof. destruct p as [|b o], q as [|b' o']; simpl; [done..|]. intros [?|[?|?]]; [by left|right..]; lia. Qed.

Lemma lens_elem m p n l i z : lens_of m p n l → l !! i = Some z → in_i32 z.
Proof. intros [_ Hf]. by apply (proj1 (Forall_lookup _ _) Hf). Qed.

(** One element of a batch: the cell of the results array it writes. *)
Lemma safe_result m keep outs n i z :
  valid (m_i32 m) outs n → (∀ q k, (q, k) ∈ keep → apart outs n q k) → 0 ≤ i < n →
  safe m keep (write_i32 (ptr_add outs i) z) (λ _, True).
Proof.
  intros Hv Ha Hi. apply safe_write_i32.
  - eapply valid_within; [done|lia..].
  - intros q k Hq. eapply apart_cell; [by apply Ha|done].
Qed.

(** Two ranges are kept by the header calls. *)
Lemma kept2 a n b outs k :
  apart outs k a n → apart outs k b n →
  ∀ q j, (q, j) ∈ [(a, n); (b, n)] → apart outs k q j.
Proof. intros Ha Hb q j [[= -> ->]|[[= -> ->]|[]%elem_of_nil]%elem_of_cons]%elem_of_cons; done. Qed.

Lemma kept1 a n outs k :
  apart outs k a n → ∀ q j, (q, j) ∈ [(a, n)] → apart outs k q j.
Proof. intros Ha q j [[= -> ->]|[]%elem_of_nil]%elem_of_cons; done. Qed.

Lemma safe_cell_i32 m keep p n i :
  valid (m_i32 m) p n → 0 ≤ i < n → safe m keep (read_i32 (ptr_add p i)) (λ _, True).
Proof. intros Hv Hi. apply safe_read_i32. eapply valid_within; [done|lia..]. Qed.

Lemma safe_cell_u64 m keep p n i :
  valid (m_u64 m) p n → 0 ≤ i < n → safe m keep (read_u64 (ptr_add p i)) (λ _, True).
Proof. intros Hv Hi. apply safe_read_u64. eapply valid_within; [done|lia..]. Qed.

#[local] Ltac array_step :=
  eapply safe_bind;
  [first [eapply safe_read_ptr; [eassumption|done]
         |eapply safe_read_kept; [first [by left|right; by left]|eassumption|done]
         |eapply safe_cell_i32; [eassumption|done]
         |eapply safe_cell_u64; [eassumption|done]]|intros ? ?].
#[local] Ltac solve_batch :=
  lengths; breflect; simpl; try done;
  lazymatch goal with
  | |- ∀ _ _, _ → apart (ptr_add _ _) _ _ _ => intros; eapply apart_cell; [by eauto|done]
  | |- valid _ (ptr_add _ _) _ => eapply valid_within; [eassumption|rewrite ?zlen_one; lia..]
  | |- valid _ _ _ => eapply valid_prefix; [eassumption|rewrite ?zlen_one; lia]
  end.

Section Headers.
Context (m : memory) (e : KeysEntry) (n : Z) (ptrs lens offs outs : ptr).
Context (ps : list ptr) (ls os : list Z).
Hypothesis Hptrs : load (m_ptr m) ptrs n = Some ps.
Hypothesis Hlens : lens_of m lens n ls.
Hypothesis Hoffs : lens_of m offs n os.
Hypothesis Houts : valid (m_i32 m) outs n.
Hypothesis Happ1 : apart outs n lens n.
Hypothesis Happ2 : apart outs n offs n.
Hypothesis Hpkts : ∀ i p l o, ps !! i = Some p → ls !! i = Some l → os !! i = Some o →
  0 ≤ l ∧ 0 ≤ o ∧ out_bytes m p l.

Lemma header_args i p l o :
  ps !! i = Some p → ls !! i = Some l → os !! i = Some o →
  as_usize l = l ∧ as_usize o = o ∧ 0 ≤ o ∧ usize_add o 4 = o + 4 ∧
  usize_add (usize_add o 4) 16 = o + 20 ∧ out_bytes m p l.
Proof using Hlens Hoffs Hpkts.
  intros Hp Hl Ho. destruct (Hpkts _ _ _ _ Hp Hl Ho) as (Hl0 & Ho0 & Hb).
  pose proof (lens_elem _ _ _ _ _ _ Hlens Hl) as Il. pose proof (lens_elem _ _ _ _ _ _ Hoffs Ho) as Io.
  unfold in_i32, i32_min, i32_max in *. assert (E : usize_add o 4 = o + 4) by (apply usize_add_small; lia).
  split_and!; try done; [apply as_usize_id; lia..|]. rewrite E, usize_add_small by lia. lia.
Qed.

Lemma batch_unprotect_one_safe firsts i ok :
  valid (m_u8 m) firsts n → 0 ≤ i < n →
  safe m [(lens, n); (offs, n)] (batch_unprotect_one e ptrs lens offs firsts outs i ok) (λ _, True).
Proof using All.
  intros Hf Hi. unfold batch_unprotect_one. pose proof (kept2 _ _ _ _ _ Happ1 Happ2) as Hk.
  pose proof Hlens as [Ll _]. pose proof Hoffs as [Lo _]. do 3 array_step. cbv zeta.
  destruct (header_args _ _ _ _ H H0 H1) as (-> & -> & Ho & E4 & E20 & Hb). rewrite E20, E4.
  case_if; [|breflect; specialize (Hb ltac:(done))]; calls_safe; solve_batch.
Qed.

Lemma batch_protect_one_safe pnls i ok :
  valid (m_i32 m) pnls n → 0 ≤ i < n →
  safe m [(lens, n); (offs, n)] (batch_protect_one e ptrs lens offs pnls outs i ok) (λ _, True).
Proof using All.
  intros Hf Hi. unfold batch_protect_one. pose proof (kept2 _ _ _ _ _ Happ1 Happ2) as Hk.
  pose proof Hlens as [Ll _]. pose proof Hoffs as [Lo _]. do 4 array_step. cbv zeta.
  destruct (header_args _ _ _ _ H H0 H1) as (-> & -> & Ho & E4 & E20 & Hb). rewrite E20, E4.
  assert (0 ≤ as_usize a2) by (apply Z.mod_pos_bound; lia).
  case_if; [|breflect; specialize (Hb ltac:(done))]; calls_safe; solve_batch.
Qed.
End Headers.

Section Payloads.
Context (m : memory) (n : Z) (pns ptrs outs : ptr) (ps : list ptr).
Hypothesis Hptrs : load (m_ptr m) ptrs n = Some ps.
Hypothesis Hpns : valid (m_u64 m) pns n.
Hypothesis Houts : valid (m_i32 m) outs n.

Lemma batch_decrypt_one_safe e lens hdrs ls i ok :
  lens_of m lens n ls → valid (m_i32 m) hdrs n → apart outs n lens n →
  (∀ i p l, ps !! i = Some p → ls !! i = Some l → 0 ≤ l ∧ out_bytes m p l) → 0 ≤ i < n →
  safe m [(lens, n)] (batch_decrypt_one e pns ptrs lens hdrs outs i ok) (λ _, True).
Proof using All.
  intros Hlens Hh Ha Hpk Hi. unfold batch_decrypt_one. pose proof (kept1 _ _ _ _ Ha) as Hk.
  pose proof Hlens as [Ll _]. do 4 array_step. cbv zeta. destruct (Hpk _ _ _ H H0) as [Hl0 Hb].
  pose proof (lens_elem _ _ _ _ _ _ Hlens H0) as Il. rewrite (as_usize_nonneg_i32 a0) by done.
  assert (0 ≤ as_usize a1) by (apply Z.mod_pos_bound; lia).
  case_if; [|breflect; specialize (Hb ltac:(done))]; calls_safe; solve_batch.
Qed.

Lemma batch_encrypt_one_safe hdrs pays caps hs cs i acc :
  lens_of m hdrs n hs → lens_of m caps n cs → valid (m_i32 m) pays n →
  apart outs n hdrs n → apart outs n caps n →
  (∀ i p hl cap, ps !! i = Some p → hs !! i = Some hl → cs !! i = Some cap →
     0 ≤ hl ∧ 0 ≤ cap ∧ out_bytes m p (hl + cap)) → 0 ≤ i < n → keys_ok acc.1 →
  safe m [(hdrs, n); (caps, n)] (batch_encrypt_one pns ptrs hdrs pays caps outs i acc)
    (λ p, keys_ok p.1).
Proof using All.
  intros Hhd Hcp Hpay A1 A2 Hpk Hi Hok. unfold batch_encrypt_one. destruct acc as [e ok]. simpl in Hok.
  pose proof (kept2 _ _ _ _ _ A1 A2) as Hk. pose proof Hhd as [Lh _]. pose proof Hcp as [Lc _].
  do 5 array_step. cbv zeta. destruct (Hpk _ _ _ _ H H0 H2) as (Hh0 & Hc0 & Hb).
  pose proof (lens_elem _ _ _ _ _ _ Hhd H0) as Ih. pose proof (lens_elem _ _ _ _ _ _ Hcp H2) as Ic.
  rewrite !(as_usize_nonneg_i32 a0), !(as_usize_nonneg_i32 a2) by done.
  assert (0 ≤ as_usize a1) by (apply Z.mod_pos_bound; lia).
  case_if; [calls_safe; solve_batch|]. breflect. specialize (Hb ltac:(done)).
  assert (Hpb : valid (m_u8 m) (ptr_add a a0) a2) by (eapply valid_within; [done|lia..]).
  calls_safe; try solve [solve_batch].
  - lengths. apply (valid_prefix _ _ a2); [done|]. rewrite_len l.
    rewrite zlen_sub by (apply fits_spec; lia). lia.
  - breflect. eapply (valid_within _ (ptr_add a a0) a2); [done|lia|apply zlen_nonneg|lia].
Qed.
End Payloads.

(** A batch call once its loop is safe on every element. *)
Lemma batch_call_safe w c :
  batch_call c = true → well_formed w → keys_valid (w_mem w) c → returns_from w (exec c).
Proof.
  intros Hb Hw Hc. destruct c; try done; simpl in *; [by apply raw_keys_safe|..];
    destruct Hc as [Hi Hc];
    unfold rlsm_keys_batch_header_unprotect, rlsm_keys_batch_decrypt,
      rlsm_keys_batch_header_protect, rlsm_keys_batch_encrypt.
  all: destruct (count <=? 0) eqn:Hn;
    [by eapply (safe_from _ [] _ (λ _, True)); [calls_safe|]|]; breflect.
  all: assert (Hcount : Z.of_nat (Z.to_nat (as_usize count)) = count)
    by (rewrite as_usize_nonneg_i32; (done || lia)).
  all: apply returns_from_clear; apply cleared in Hw; case_if; [by apply returns_from_err|].
  all: match type of Hc with _ → ?b = true → _ => assert (Hnull : b = true) by (breflect; unfold no_null; simpl;
    repeat match goal with H : is_null _ = false |- _ => rewrite H; clear H end; done) end.
  - destruct (Hc Hn Hnull) as (ps & ls & os & H1 & H2 & H3 & H4 & H5 & H6 & H7 & H8).
    eapply (safe_from _ [(p2, count); (p3, count)] _ (λ _, True)); [|done]. calls_safe; try done.
    apply safe_for_loop; [|done]. rewrite Hcount. intros. by eapply batch_unprotect_one_safe.
  - destruct (Hc Hn Hnull) as (ps & ls & H1 & H2 & H3 & H4 & H5 & H6 & H7).
    eapply (safe_from _ [(p3, count)] _ (λ _, True)); [|done]. calls_safe; try done.
    apply (safe_bind _ _ _ _ (λ _, True)); [|intros; by apply safe_ret].
    apply safe_for_loop; [|done]. rewrite Hcount. intros. by eapply batch_decrypt_one_safe.
  - destruct (Hc Hn Hnull) as (ps & ls & os & H1 & H2 & H3 & H4 & H5 & H6 & H7 & H8).
    eapply (safe_from _ [(p2, count); (p3, count)] _ (λ _, True)); [|done]. calls_safe; try done.
    apply safe_for_loop; [|done]. rewrite Hcount. intros. by eapply batch_protect_one_safe.
  - destruct (Hc Hn Hnull) as (ps & hs & cs & H1 & H2 & H3 & H4 & H5 & H6 & H7 & H8 & H9).
    eapply (safe_from _ [(p3, count); (p5, count)] _ (λ _, True)); [|done]. calls_safe; try done.
    eapply safe_conseq; [apply (safe_for_loop _ _ _ _ _ _ (λ p, keys_ok p.1)); [|done]|done].
    rewrite Hcount. intros. by eapply batch_encrypt_one_safe.
Qed.

Lemma keys_call_safe w c : well_formed w → keys_valid (w_mem w) c → returns_from w (exec c).
Proof.
  intros Hw Hc. destruct (batch_call c) eqn:E; [by apply batch_call_safe|].
  eapply safe_from; [by apply single_call_safe|done].
Qed.
End KeysSafe.

(** ** Every call, and every process *)

Section Shims.
Context {R : Rustls} {P : PrimitiveLaws R} {T : TcpLaws R}.

Lemma shim_call_safe w c : well_formed w → valid_call (w_mem w) c → returns_from w (exec_shim c).
Proof.
  intros Hw Hc. destruct c as [c|c|p n]; simpl in *; [| |by apply last_error_safe].
  - destruct c; try (by eapply (safe_from w []); [apply tcp_call_safe; [done|exact Hc]|done]).
    by apply set_alpn_safe.
  - destruct c; try (by eapply (safe_from w []); [apply hs_call_safe; [done|exact Hc]|done]).
    by apply keys_call_safe.
Qed.

(** A process: between calls the caller does with its memory what it likes. *)
Fixpoint process (steps : list (memory * shim_call)) : prog world (list Z) :=
  match steps with
  | [] => mret []
  | (m, c) :: steps =>
      modify (set_mem m);; r ← exec_shim c; rs ← process steps; mret (r :: rs)
  end.

Lemma process_returns steps w :
  well_formed w → Forall (λ s, valid_call s.1 s.2) steps →
  ∃ rs w', process steps w = Ret rs w' ∧ length rs = length steps.
Proof.
  revert w. induction steps as [|[m c] steps IH]; intros w Hw Hs; [by exists [], w|].
  apply Forall_cons in Hs as [Hc Hs]. pose proof (well_formed_mem m w Hw) as Hm.
  destruct (shim_call_safe (set_mem m w) c Hm Hc) as (r & w1 & E & _ & Hw1).
  destruct (IH w1 Hw1 Hs) as (rs & w' & E' & Hl).
  exists (r :: rs), w'. split; [|simpl; by rewrite Hl]. simpl. run. by rewrite E, E'.
Qed.

(** C9: a process that calls any of the exported functions, in any order, with
    any handles, and keeps to the contract of each call, gets an answer from every
    one: none panics, runs forever, or reads or writes outside the caller's buffers.
    The contract asks that integers are [i32]s and that each pointer is null or
    valid for the length passed with it (or, for an output buffer whose capacity is
    in memory, for that capacity). For a batch call with a positive count and no
    null array it asks that the arrays have that many elements, that the array of
    results does not overlap the arrays of lengths and offsets, that those lengths
    and offsets are not negative, and that each packet is null or valid for its
    length. *)
Theorem processes_return steps w :
  started w → Forall (λ s, valid_call s.1 s.2) steps →
  ∃ rs w', process steps w = Ret rs w' ∧ length rs = length steps.
Proof. intros Hw. apply process_returns. by apply started_well_formed. Qed.
End Shims.

(** ** On a concrete provider *)

Lemma toy_hp_decrypt_keeps k sample b pn : zlen (toy_hp_decrypt k sample b pn).1.2 = zlen pn.
Proof.
  unfold toy_hp_decrypt. cbn [fst snd]. rewrite zlen_app, zlen_fmap.
  set (n := Z.land _ 3 + 1). unfold sub, zlen. change (Z.to_nat 0) with 0%nat.
  rewrite drop_0, length_take, length_drop. lia.
Qed.

Lemma toy_decrypt_keeps k pn hdr ct : zlen (toy_decrypt k pn hdr ct).1 = zlen ct.
Proof.
  unfold toy_decrypt. case_if; [|done]. breflect. cbn [fst]. unfold toy_xor.
  rewrite zlen_app, zlen_fmap, !zlen_sub by (apply fits_spec; lia). lia.
Qed.

#[global] Instance toy_primitive_laws : PrimitiveLaws toy.
Proof.
  split.
  - by eexists.
  - intros e info n Hn. eexists. split; [done|]. rewrite zlen_replicate. lia.
  - intros. apply zlen_fmap.
  - apply toy_decrypt_keeps.
  - intros. apply zlen_fmap.
  - apply toy_hp_decrypt_keeps.
  - intros k n aad pt out [= <-]. rewrite zlen_app. unfold toy_xor, toy_tag.
    by rewrite zlen_fmap, zlen_replicate.
  - intros k n aad ct pt. simpl. destruct (toy_decrypt _ _ _ _) as [o [|b]] eqn:E; [done|].
    intros [= <-]. by eapply toy_decrypt_length.
  - intros. apply zlen_replicate.
Qed.

(** Keys are made, a packet is protected with them, a batch of one is opened
    with a handle that does not exist, and the message is fetched. *)
Definition packet_memory : memory :=
  {| m_u8 := {[ 1%N := [1; 2; 3; 4] ++ replicate 60 0 ]};
     m_i32 := {[ 1%N := [20]; 2%N := [1]; 3%N := [0] ]};
     m_u64 := {[ 1%N := [5] ]};
     m_ptr := {[ 1%N := [Ptr 1 0] ]} |}.

Definition packet_process : list (memory * shim_call) :=
  [(packet_memory, Quic (Keys (InitialKeys 1 (Ptr 1 0) 4 1)));
   (packet_memory, Quic (Keys (LocalEncrypt 1 0 (Ptr 1 0) 4 (Ptr 1 4) 8 24)));
   (packet_memory, Quic (Keys (BatchDecrypt 9 1 (Ptr 1 0) (Ptr 1 0) (Ptr 1 0) (Ptr 2 0) (Ptr 3 0))));
   (packet_memory, LastError (Ptr 1 0) 64)].

Lemma processes_return_witness :
  result_of (process (R:=toy) packet_process (boot packet_memory)) = Some [1; 24; -1; 45] ∧
  ∃ rs w', process (R:=toy) packet_process (boot packet_memory) = Ret rs w' ∧ length rs = 4%nat.
Proof.
  split; [by_eval|]. apply (processes_return (R:=toy) packet_process (boot packet_memory)).
  - by repeat split.
  - repeat constructor; simpl; try done; try (intros; apply valid_eval; by_eval).
    intros _. exists [Ptr 1 0], [20]. split_and!; try (apply valid_eval; by_eval); try by_vm.
    + split; [by_vm|by repeat constructor].
    + by left.
    + intros [|i] p l [= <-] [= <-]. split; [done|]. intros _. apply valid_eval. by_eval.
Defined.
End SafetyFacts.
