(* ===== verification/LastErrors.v ===== *)
(** * Errors under threads

    [LAST_ERROR] of [src/crates/librustls-mojo/src/error.rs] is a thread-local
    cell: a process has one state and one last error per thread, and a call
    works on the cell of the thread that makes it. The calls of the threads are
    interleaved in any order. *)

From S2P Require Import Prelude Effects Handles Rustls World Frames Toy QuicKeys QuicKeysFacts.
From S2P Require Import Config ConfigFacts Tcp TcpFacts QuicHs QuicHsFacts Shim.
Import Effects Handles Rustls World Frames Toy QuicKeys QuicKeysFacts.
Import Config ConfigFacts Tcp TcpFacts QuicHs QuicHsFacts Shim.

Module LastErrors.

Section Threads.
Context {R : Rustls}.

(** The last error of the shared state is a register: a call finds the cell of
    its thread there and leaves it there. *)
Record process := { shared : world; last_errors : gmap N string }.

Definition exec_on (t : N) (c : shim_call) : prog process Z := λ s,
  match exec_shim c (set_error (last_errors s !! t) (shared s)) with
  | Ret r w => Ret r {| shared := w;
                        last_errors := partial_alter (λ _, w_last_error w) t (last_errors s) |}
  | Panic m => Panic m
  | Undef => Undef
  | NoFuel => NoFuel
  end.

(** Memory is written between calls by whoever owns it. *)
Definition with_memory (m : memory) (s : process) : process :=
  {| shared := set_mem m (shared s); last_errors := last_errors s |}.

Fixpoint interleave (calls : list (N * memory * shim_call)) : prog process unit :=
  match calls with
  | [] => mret tt
  | (t, m, c) :: calls => modify (with_memory m);; exec_on t c;; interleave calls
  end.

Lemma exec_on_Ret t c s r s' :
  exec_on t c s = Ret r s' →
  exec_shim c (set_error (last_errors s !! t) (shared s)) = Ret r (shared s') ∧
  last_errors s' !! t = w_last_error (shared s') ∧
  ∀ t', t' ≠ t → last_errors s' !! t' = last_errors s !! t'.
Proof.
  unfold exec_on. destruct (exec_shim _ _); [|done..]. intros [= <- <-]. simpl. split_and!; [done| |].
  - by rewrite lookup_partial_alter_eq.
  - intros t' Ht. by rewrite lookup_partial_alter_ne.
Qed.

(** The calls of other threads do not touch a thread's cell. *)
Lemma interleave_keeps t calls s u s' :
  Forall (λ x, x.1.1 ≠ t) calls → interleave calls s = Ret u s' →
  last_errors s' !! t = last_errors s !! t.
Proof.
  intros Ht. revert s. induction Ht as [|[[t' m] c] calls Hne Ht IH]; intros s; simpl.
  - by intros [= _ <-].
  - intros (? & ? & [= <- <-] & (r & s1 & (E1 & _ & E2)%exec_on_Ret & E3)%bind_Ret_inv)%bind_Ret_inv.
    apply IH in E3. rewrite E3, E2; [done|]. simpl in Hne. congruence.
Qed.

Lemma failure_code c : shim_args c → ¬ shim_result c (-1).
Proof. destruct c as [c|c|]; simpl; [lia| |done]. destruct c; simpl; lia. Qed.

(** The message a failing call leaves, whatever the cell of its thread held. *)
Definition leaves (c : shim_call) (w : world) (msg : string) : Prop :=
  ∀ e, ∃ w', exec_shim c (set_error e w) = Ret (-1) w' ∧ w_last_error w' = Some msg.

(** Every reporting call clears the cell first. *)
Lemma clears_first c e w : shim_args c → exec_shim c (set_error e w) = exec_shim c (set_error None w).
Proof. destruct c as [[]|[| | | | | | | | | | | | | | | | | | | | |[]]|]; simpl; done. Qed.

(** C12: a call that answers -1 (of the functions that report by a message: all
    but [rlsm_quic_conn_alert], [rlsm_last_error] and the two probes of the test
    build) has left a message for its thread, the same whatever message was there
    before, and the thread gets that message, NUL-terminated, with its length,
    whatever the other threads have called and written in between; a buffer too
    small is answered by -1. *)
Theorem own_error_fetched {L : RustlsLaws R} {T : TcpLaws R} t c s s1 others s2 m buf n b :
  shim_args c → exec_on t c s = Ret (-1) s1 →
  Forall (λ x, x.1.1 ≠ t) others → interleave others s1 = Ret tt s2 →
  in_i32 n → load (m_u8 m) buf n = Some b →
  ∃ msg s3, let len := zlen (string_bytes msg) + 1 in
    leaves c (shared s) msg ∧
    exec_on t (LastError buf n) (with_memory m s2) = Ret (if n <? len then -1 else len) s3 ∧
    (len ≤ n → load (m_u8 (w_mem (shared s3))) buf len = Some (string_bytes msg ++ [0])).
Proof.
  intros Ha (E & Ht & _)%exec_on_Ret Ho Hi In Hl.
  assert (Hr : match w_last_error (shared s1) with Some _ => True | None => False end).
  { pose proof (failure_code c Ha) as Hf. apply reporting_call in E; [|done].
    by destruct (w_last_error (shared s1)). }
  destruct (w_last_error (shared s1)) as [msg|] eqn:Em; [|done]. exists msg.
  assert (Hleft : leaves c (shared s) msg).
  { intros e. exists (shared s1). split; [|done]. rewrite (clears_first c e) by done.
    by rewrite (clears_first c (last_errors s !! t)) in E by done. }
  pose proof (interleave_keeps _ _ _ _ _ Ho Hi) as Hk. rewrite Ht in Hk.
  set (w := set_error (Some msg) (set_mem m (shared s2))).
  pose proof (load_length _ _ _ _ Hl) as Hn. pose proof (zlen_nonneg b).
  assert (Hw : exec_on t (LastError buf n) (with_memory m s2) =
    match rlsm_last_error buf n w with
    | Ret r w' => Ret r {| shared := w';
        last_errors := partial_alter (λ _, w_last_error w') t (last_errors s2) |}
    | Panic m => Panic m | Undef => Undef | NoFuel => NoFuel end)
    by (unfold exec_on, with_memory; simpl; by rewrite Hk).
  rewrite Hw. destruct (Z.lt_ge_cases n (zlen (string_bytes msg) + 1)) as [Hs|Hs].
  - unfold rlsm_last_error. run. simpl. rewrite as_usize_nonneg_i32 by (done || lia). pass_guards.
    eexists. split; [done|]. split; [done|]. lia.
  - pose proof (rlsm_last_error_spec w msg buf n b eq_refl In) as Hspec.
    rewrite (Z.max_r 0 n) in Hspec by lia. rewrite (proj2 (Z.ltb_ge _ _)) in * by done.
    destruct Hspec as (w' & -> & Hb & _); [unfold in_i32 in *; lia|done|].
    eexists. cbv zeta. rewrite (proj2 (Z.ltb_ge _ _)) by done. eauto.
Qed.
End Threads.

(** Thread 1 frees a handle that does not exist, thread 2 succeeds in making
    keys, thread 3 fails in its own way; thread 1 asks what went wrong. *)
Definition message_memory : memory := mem_of [[1; 2; 3; 4]; replicate 64 0].

Definition start : process (R:=toy) := {| shared := boot message_memory; last_errors := ∅ |}.

Definition others_calls : list (N * memory * shim_call) :=
  [(2%N, message_memory, Quic (Keys (InitialKeys 1 (Ptr 1 0) 4 1)));
   (3%N, message_memory, Quic (ConnFree 7))].

#[local] Abbreviation failed := (state_of start (exec_on 1 (Tcp (TlsFree 7)) start)).
#[local] Abbreviation later := (state_of failed (interleave others_calls failed)).

Lemma own_error_fetched_witness :
  result_of (exec_on 1 (LastError (Ptr 2 0) 64) (with_memory message_memory later)) = Some 46 ∧
  ∃ msg s3, let len := zlen (string_bytes msg) + 1 in
    leaves (Tcp (TlsFree 7)) (shared start) msg ∧
    exec_on 1 (LastError (Ptr 2 0) 64) (with_memory message_memory later) =
      Ret (if 64 <? len then -1 else len) s3 ∧
    (len ≤ 64 → load (m_u8 (w_mem (shared s3))) (Ptr 2 0) len = Some (string_bytes msg ++ [0])).
Proof.
  split; [by_eval|].
  apply (own_error_fetched (R:=toy) 1 (Tcp (TlsFree 7)) start failed others_calls later
           message_memory (Ptr 2 0) 64 (replicate 64 0)).
  - exact I.
  - apply ret_of. by_eval.
  - by repeat constructor.
  - apply ret_of. by_eval.
  - by vm_compute.
  - by_vm.
Defined.
End LastErrors.
