(* ===== verification/Loopback.v ===== *)
(** * Handshakes in memory

    The drivers that run a whole handshake between a client and a server of one
    process: [pump_once] and [drive_first_handshake] of
    [src/crates/librustls-mojo/src/quic_hs/tests_resumption_fixture.rs] exchange
    the bytes of two rustls connections directly; [run_handshake] of the tests of
    [quic_hs.rs] does it through the handles, the buffers and the key-change
    protocol of the exported functions. Their common specification is the
    exchange of flights [exchange]; both drivers are shown to perform it. *)

From S2P Require Import Prelude Effects Handles Rustls World Frames Toy QuicKeys QuicKeysFacts.
From S2P Require Import QuicHs QuicHsFacts.
Import Effects Handles Rustls World Frames Toy QuicKeys QuicKeysFacts QuicHs QuicHsFacts.

Module Loopback.

Definition nonempty {A} (l : list A) : bool := match l with [] => false | _ => true end.

Section Direct.
Context {R : Rustls}.

(** ** The specification: one round, and rounds until both have finished *)

Abbreviation change := (option (KeyChange hkey pkey secrets)).

Record round := {
  client_flight : bytes; client_change : change;
  server_flight : bytes; server_change : change;
  client_after : qclient; server_after : qserver;
}.

(** A flight is read when it is not empty; [None] when reading fails. *)
Definition server_takes (s : qserver) (b : bytes) : option qserver :=
  if nonempty b then match qserver_read_hs s b with (s', inr _) => Some s' | _ => None end
  else Some s.
Definition client_takes (c : qclient) (b : bytes) : option qclient :=
  if nonempty b then match qclient_read_hs c b with (c', inr _) => Some c' | _ => None end
  else Some c.

Definition exchange_round (c : qclient) (s : qserver) : option round :=
  let '(c1, cb, ck) := qclient_write_hs c in
  s1 ← server_takes s cb;
  let '(s2, sb, sk) := qserver_write_hs s1 in
  c2 ← client_takes c1 sb;
  Some {| client_flight := cb; client_change := ck; server_flight := sb; server_change := sk;
          client_after := c2; server_after := s2 |}.

Definition finished (c : qclient) (s : qserver) : bool :=
  negb (qclient_is_handshaking c) && negb (qserver_is_handshaking s).

Definition progress (r : round) : bool := nonempty (client_flight r) || nonempty (server_flight r).

(** The rounds of a handshake that finishes within [n] of them and never
    stalls. *)
Fixpoint exchange (n : nat) (c : qclient) (s : qserver) : option (list round) :=
  match n with
  | O => None
  | S n =>
      r ← exchange_round c s;
      if finished (client_after r) (server_after r) then Some [r]
      else if progress r then rs ← exchange n (client_after r) (server_after r); Some (r :: rs)
      else None
  end.

Definition ends (rs : list round) (c : qclient) (s : qserver) : qclient * qserver :=
  match last rs with Some r => (client_after r, server_after r) | None => (c, s) end.

(** ** The fixture's drivers *)

Definition pump_once : prog (qclient * qserver) bool := λ '(client, server),
  let '(client, buf, _kc) := qclient_write_hs client in
  match (if nonempty buf then
           let '(server, r) := qserver_read_hs server buf in
           match r with inr _ => inr (server, true) | inl e => inl e end
         else inr (server, false)) with
  | inl e => Panic ("server read_hs: " +:+ error_debug e)
  | inr (server, progress) =>
      let '(server, buf, _kc) := qserver_write_hs server in
      if nonempty buf then
        let '(client, r) := qclient_read_hs client buf in
        match r with
        | inr _ => Ret true (client, server)
        | inl e => Panic ("client read_hs: " +:+ error_debug e)
        end
      else Ret progress (client, server)
  end.

(** [for _ in 0..n] of phase A, up to its [break]. *)
Fixpoint phase_a (n : nat) : prog (qclient * qserver) unit :=
  match n with
  | O => mret tt
  | S n =>
      progress ← pump_once;
      done ← gets (λ p, finished p.1 p.2);
      if (done : bool) then mret tt
      else assert_ progress "first handshake stalled with no progress";; phase_a n
  end.

Definition TICKET_FLUSH_EXTRA_ROUNDS : nat := 8.

Definition drive_first_handshake : prog (qclient * qserver) unit :=
  phase_a 32;;
  done ← gets (λ p, finished p.1 p.2);
  assert_ done "first handshake did not converge in 32 rounds";;
  for_loop TICKET_FLUSH_EXTRA_ROUNDS 0 (λ _ _, pump_once;; mret tt) tt.

(** *** They perform the exchange *)

Lemma pump_once_round c s :
  match exchange_round c s with
  | Some r => pump_once (c, s) = Ret (progress r) (client_after r, server_after r)
  | None => ∃ msg, pump_once (c, s) = Panic msg
  end.
Proof.
  unfold exchange_round, pump_once, server_takes, client_takes.
  destruct (qclient_write_hs c) as [[c1 cb] ck].
  destruct (nonempty cb) eqn:Hc; [destruct (qserver_read_hs s cb) as [s1 [e|u]]|]; simpl; try by eexists.
  - destruct (qserver_write_hs s1) as [[s2 sb] sk].
    destruct (nonempty sb) eqn:Hs; [destruct (qclient_read_hs c1 sb) as [c2 [e|u']]|]; simpl;
      unfold progress; simpl; rewrite ?Hc, ?Hs; try by eexists; done.
  - destruct (qserver_write_hs s) as [[s2 sb] sk].
    destruct (nonempty sb) eqn:Hs; [destruct (qclient_read_hs c1 sb) as [c2 [e|u']]|]; simpl;
      unfold progress; simpl; rewrite ?Hc, ?Hs; try by eexists; done.
Qed.

Lemma exchange_cons n c s rs : exchange n c s = Some rs → ∃ r rs', rs = r :: rs'.
Proof.
  destruct n; simpl; [done|]. destruct (exchange_round c s) as [r|]; [|done]. simpl.
  case_if; [intros [= <-]; eauto|]. case_if; [|done]. destruct (exchange n _ _); intros [= <-]. eauto.
Qed.

Lemma ends_cons r rs c s : ends (r :: rs) c s = ends rs (client_after r) (server_after r).
Proof. unfold ends. rewrite last_cons. by destruct (last rs). Qed.

Lemma phase_a_exchange n c s rs :
  exchange n c s = Some rs →
  phase_a n (c, s) = Ret tt (ends rs c s) ∧ finished (ends rs c s).1 (ends rs c s).2 = true.
Proof.
  revert c s rs. induction n as [|n IH]; intros c s rs; [done|]. simpl.
  pose proof (pump_once_round c s) as Hp. destruct (exchange_round c s) as [r|]; [|done]. simpl.
  rewrite (bind_Ret _ _ _ _ _ Hp). run. simpl. destruct (finished _ _) eqn:Ef.
  - by intros [= <-].
  - destruct (progress r); [|done]. destruct (exchange n _ _) as [rs'|] eqn:Ex; [|done].
    intros [= <-]. rewrite ends_cons. by apply IH.
Qed.

(** A run of phase A that ends with both sides done performed an exchange. *)
Lemma phase_a_only n c s c' s' :
  finished c s = false → phase_a n (c, s) = Ret tt (c', s') → finished c' s' = true →
  ∃ rs, exchange n c s = Some rs ∧ (c', s') = ends rs c s.
Proof.
  revert c s. induction n as [|n IH]; intros c s Hf; simpl.
  { intros [= -> ->]. congruence. }
  pose proof (pump_once_round c s) as Hp. destruct (exchange_round c s) as [r|].
  - rewrite (bind_Ret _ _ _ _ _ Hp). run. simpl. destruct (finished (client_after r) _) eqn:Ef.
    + intros [= <- <-] _. by eexists.
    + unfold assert_. destruct (progress r); [|done]. intros H1 H2.
      destruct (IH _ _ Ef H1 H2) as (rs & -> & ->). simpl. eexists. split; [done|]. by rewrite ends_cons.
  - destruct Hp as [msg Hp]. unfold mbind, prog_bind. by rewrite Hp.
Qed.
End Direct.

(** ** Through the handles *)

Section Handles.
Context {R : Rustls}.

(** The locals of [run_handshake]: [buf], [kc], [written] and [kh]. *)
Definition locals (b : bytes) (k wr kh : Z) : memory :=
  {| m_u8 := {[ 1%N := b; 2%N := [k] ]}; m_i32 := {[ 1%N := [wr]; 2%N := [kh] ]};
     m_u64 := ∅; m_ptr := ∅ |}.
Definition p_buf : ptr := Ptr 1 0.
Definition p_kc : ptr := Ptr 2 0.
Definition p_written : ptr := Ptr 1 0.
Definition p_kh : ptr := Ptr 2 0.

(** One side writes: [written = 0; kc = 0;], [write_hs], and the key change it
    reports is taken; 1-RTT keys are kept, Handshake keys freed. *)
Definition pull_side (who : string) (h rtt : Z) : prog world Z :=
  write_i32 p_written 0;; write_u8 p_kc [0];;
  rc ← rlsm_quic_conn_write_hs h p_buf 4096 p_written p_kc;
  assert_ (rc =? 0) (who +:+ " write_hs failed");;
  kc ← read_u8 p_kc 1;
  let kc := default 0 (head kc) in
  if kc =? 0 then mret rtt
  else
    write_i32 p_kh 0;;
    rc ← rlsm_quic_conn_take_keys h p_kh;
    assert_ (rc =? 0) "take_keys";;
    kh ← read_i32 p_kh;
    if kc =? 2 then mret kh else (rlsm_keys_free kh;; mret rtt).

(** The other side reads what was written. *)
Definition feed_side (who : string) (h : Z) : prog world bool :=
  written ← read_i32 p_written;
  if 0 <? written then
    rc ← rlsm_quic_conn_read_hs h p_buf written Null Null;
    assert_ (rc =? 0) (who +:+ " read_hs failed");;
    mret true
  else mret false.

Fixpoint handshake_rounds (n : nat) (client_h server_h client_1rtt server_1rtt : Z)
  : prog world (Z * Z) :=
  match n with
  | O => panic "handshake did not complete in 20 rounds"
  | S n =>
      client_1rtt ← pull_side "client" client_h client_1rtt;
      p ← feed_side "server" server_h;
      server_1rtt ← pull_side "server" server_h server_1rtt;
      q ← feed_side "client" client_h;
      client_hs ← rlsm_quic_conn_is_handshaking client_h;
      server_hs ← rlsm_quic_conn_is_handshaking server_h;
      if (client_hs =? 0) && (server_hs =? 0) then mret (client_1rtt, server_1rtt)
      else
        assert_ (p || q) "handshake stalled with no progress";;
        handshake_rounds n client_h server_h client_1rtt server_1rtt
  end.

Definition run_handshake (client_h server_h : Z) : prog world (Z * Z) :=
  modify (set_mem (locals (replicate 4096 0) 0 0 0));;
  handshake_rounds 20 client_h server_h 0 0.

(** *** The locals *)

Abbreviation frame b k wr kh w := (set_mem (locals b k wr kh) w).

#[local] Ltac two_blocks := apply map_eq; intros i; unfold singletonM, map_singleton;
  repeat (rewrite lookup_insert; case_decide; subst; try done); try done.

Lemma write_buf b k wr kh v w :
  zlen v ≤ zlen b →
  write_u8 p_buf v (frame b k wr kh w) = Ret tt (frame (splice 0 v b) k wr kh w).
Proof.
  intros Hv. rewrite (write_u8_ok _ _ _ {[ 1%N := splice 0 v b; 2%N := [k] ]}); [done|].
  simpl. rewrite lookup_insert_eq. assert (fits 0 (zlen v) b = true) as ->.
  { apply fits_spec. pose proof (zlen_nonneg v). lia. }
  f_equal; two_blocks.
Qed.

Lemma write_kc b k wr kh x w :
  write_u8 p_kc [x] (frame b k wr kh w) = Ret tt (frame b x wr kh w).
Proof.
  rewrite (write_u8_ok _ _ _ {[ 1%N := b; 2%N := [x] ]}); [done|]. simpl.
  rewrite lookup_insert_ne by done. rewrite lookup_singleton_eq. simpl. f_equal; two_blocks.
Qed.

Lemma write_written b k wr kh x w :
  write_i32 p_written x (frame b k wr kh w) = Ret tt (frame b k x kh w).
Proof.
  rewrite (write_i32_ok _ _ _ {[ 1%N := [x]; 2%N := [kh] ]}); [done|]. simpl.
  rewrite lookup_insert_eq. simpl. f_equal; two_blocks.
Qed.

Lemma write_kh b k wr kh x w :
  write_i32 p_kh x (frame b k wr kh w) = Ret tt (frame b k wr x w).
Proof.
  rewrite (write_i32_ok _ _ _ {[ 1%N := [wr]; 2%N := [x] ]}); [done|]. simpl.
  rewrite lookup_insert_ne by done. rewrite lookup_singleton_eq. simpl. f_equal; two_blocks.
Qed.

Lemma read_buf b k wr kh n w :
  0 ≤ n ≤ zlen b → read_u8 p_buf n (frame b k wr kh w) = Ret (sub 0 n b) (frame b k wr kh w).
Proof.
  intros Hn. apply read_u8_ok. simpl. rewrite lookup_insert_eq.
  by assert (fits 0 n b = true) as -> by (apply fits_spec; lia).
Qed.

Lemma read_kc b k wr kh w : read_u8 p_kc 1 (frame b k wr kh w) = Ret [k] (frame b k wr kh w).
Proof. apply read_u8_ok. simpl. rewrite lookup_insert_ne by done. by rewrite lookup_singleton_eq. Qed.

Lemma read_written b k wr kh w :
  read_i32 p_written (frame b k wr kh w) = Ret wr (frame b k wr kh w).
Proof. apply read_i32_ok. simpl. by rewrite lookup_insert_eq. Qed.

Lemma read_kh b k wr kh w : read_i32 p_kh (frame b k wr kh w) = Ret kh (frame b k wr kh w).
Proof. apply read_i32_ok. simpl. rewrite lookup_insert_ne by done. by rewrite lookup_singleton_eq. Qed.

(** *** One side *)

(** The entry after a write whose key change was taken. *)
Definition written_entry (e : QuicConnEntry) (c' : QuicConn)
    (kc : option (KeyChange hkey pkey secrets)) : QuicConnEntry :=
  match kc with
  | Some (OneRtt _ _ next) => with_next_secrets (with_pending (with_conn e c') None) (Some next)
  | Some (Handshake _ _) => with_pending (with_conn e c') None
  | None => with_conn e c'
  end.

Definition kind_of (kc : option (KeyChange hkey pkey secrets)) : Z :=
  match kc with None => 0 | Some (Handshake _ _) => 1 | Some (OneRtt _ _ _) => 2 end.

Definition entry_of (l r : hkey * pkey) : KeysEntry :=
  {| local := wrap_keys l; remote := wrap_keys r; last_local_pn := None |}.

(** What taking a key change does to the table of keys, the counter and the
    handle the driver keeps. *)
Definition keys_after (kc : option (KeyChange hkey pkey secrets)) (n rtt : Z)
    (keys : gmap Z KeysEntry) : gmap Z KeysEntry * Z * Z :=
  match kc with
  | None => (keys, n, rtt)
  | Some (Handshake _ _) => (delete n keys, n + 1, rtt)
  | Some (OneRtt l r _) => (<[n := entry_of l r]> keys, n + 1, n)
  end.

(** The calls on the locals, as equations. *)
Lemma write_hs_frame h e c' v kc b k wr kh w :
  w_qconn w !! h = Some e → pending e = None → conn_write_hs (conn e) = (c', v, kc) →
  zlen v ≤ 4096 → zlen b = 4096 →
  rlsm_quic_conn_write_hs h p_buf 4096 p_written p_kc (frame b k wr kh w) =
  Ret 0 (frame (splice 0 v b) (kind_of kc) (zlen v) kh
           (set_qconn (<[h := (record_key_change (with_conn e c') kc).1]> (w_qconn w))
              (set_error None w))).
Proof.
  intros He Hp Hw Hv Hb. unfold rlsm_quic_conn_write_hs, or_invalid. run.
  change (is_null p_buf) with false. change (is_null p_written) with false.
  change (is_null p_kc) with false. change (4096 <? 0) with false. cbv beta iota.
  rewrite (with_mut_Some quic_conn_table h _ _ e) by done. rewrite Hp, Hw.
  change (as_usize 4096) with 4096. rewrite (proj2 (Z.ltb_ge _ _)) by done.
  change (set_error None (frame b k wr kh w)) with (frame b k wr kh (set_error None w)).
  rewrite write_buf by lia. rewrite write_written.
  destruct (record_key_change (with_conn e c') kc) as [e' n] eqn:Hr.
  assert (Hn : n = kind_of kc) by (destruct kc as [[]|]; simpl in Hr; by simplify_eq). subst n.
  rewrite write_kc. rewrite as_i32_id; [done|].
  pose proof (zlen_nonneg v). unfold in_i32, i32_min, i32_max. lia.
Qed.

Lemma take_keys_frame h e n l r b k wr kh w :
  w_qconn w !! h = Some e → pending e = Some (n, (l, r)) → 0 < w_next w < i32_max →
  rlsm_quic_conn_take_keys h p_kh (frame b k wr kh w) =
  Ret 0 (frame b k wr (w_next w)
           (set_qconn (<[h := with_pending e None]> (w_qconn w))
              (set_keys (<[w_next w := {| local := l; remote := r; last_local_pn := None |}]> (w_keys w))
                 (set_next (w_next w + 1) (set_error None w))))).
Proof.
  intros He Hp Hn. unfold rlsm_quic_conn_take_keys, or_invalid. run. change (is_null p_kh) with false. cbv beta iota.
  rewrite (with_mut_Some quic_conn_table h _ _ e) by done. rewrite Hp.
  change (set_error None (frame b k wr kh w)) with (frame b k wr kh (set_error None w)).
  assert (Hc : 0 < counter (frame b k wr kh (set_error None w))) by apply Hn.
  rewrite (insert_pos keys_table _ _ Hc).
  change (counter (frame b k wr kh (set_error None w))) with (w_next w).
  rewrite as_i32_id by (unfold in_i32, i32_min in *; lia).
  match goal with |- context [write_i32 p_kh ?z ?w1] =>
    change w1 with (frame b k wr kh (set_keys (<[w_next w := {| local := l; remote := r; last_local_pn := None |}]> (w_keys w))
                 (set_next (w_next w + 1) (set_error None w)))) end.
  by rewrite write_kh.
Qed.

Lemma keys_free_frame n e b k wr kh w :
  w_keys w !! n = Some e →
  rlsm_keys_free n (frame b k wr kh w) =
  Ret 0 (frame b k wr kh (set_free_count (as_u64 (w_keys_free_count w + 1))
           (set_keys (delete n (w_keys w)) (set_error None w)))).
Proof.
  intros He. unfold rlsm_keys_free. run. rewrite remove_eq.
  change (map_of keys_table (set_error None (frame b k wr kh w)) !! n) with (w_keys w !! n).
  by rewrite He.
Qed.

Lemma pull_side_ok who h rtt e c' v kc b k wr kh w :
  w_qconn w !! h = Some e → pending e = None → conn_write_hs (conn e) = (c', v, kc) →
  zlen v ≤ 4096 → zlen b = 4096 → 0 < w_next w < i32_max →
  let '(keys, n, rtt') := keys_after kc (w_next w) rtt (w_keys w) in
  ∃ kh' w', pull_side who h rtt (frame b k wr kh w) =
      Ret rtt' (frame (splice 0 v b) (kind_of kc) (zlen v) kh' w') ∧
    w_qconn w' = <[h := written_entry e c' kc]> (w_qconn w) ∧ w_keys w' = keys ∧ w_next w' = n.
Proof.
  intros He Hp Hw Hv Hb Hn. unfold pull_side.
  rewrite (bind_Ret _ _ _ _ _ (write_written _ _ _ _ _ _)).
  rewrite (bind_Ret _ _ _ _ _ (write_kc _ _ _ _ _ _)).
  rewrite (bind_Ret _ _ _ _ _ (write_hs_frame _ _ _ _ _ _ _ _ _ _ He Hp Hw Hv Hb)).
  change (0 =? 0) with true. rewrite assert_pass.
  rewrite (bind_Ret _ _ _ _ _ (read_kc _ _ _ _ _)). destruct kc as [[l r|l r next]|]; simpl.
  3: { by eexists _, _. }
  all: rewrite (bind_Ret _ _ _ _ _ (write_kh _ _ _ _ _ _)).
  all: erewrite bind_Ret; [|eapply take_keys_frame; [apply lookup_insert_eq|reflexivity|exact Hn]].
  all: change (0 =? 0) with true; rewrite assert_pass, (bind_Ret _ _ _ _ _ (read_kh _ _ _ _ _)); simpl.
  - rewrite (bind_Ret _ _ _ _ _ (keys_free_frame (w_next w) (entry_of l r) _ _ _ _ _ (lookup_insert_eq _ _ _))).
    eexists _, _. split; [done|]. simpl. rewrite insert_insert_eq, delete_insert_eq. done.
  - eexists _, _. split; [done|]. simpl. by rewrite insert_insert_eq.
Qed.

Lemma capture_keeps_conn e v : conn (capture_client_random e v) = conn e.
Proof. unfold capture_client_random. repeat case_if; done. Qed.

Lemma capture_keeps_pending e v : pending (capture_client_random e v) = pending e.
Proof. unfold capture_client_random. repeat case_if; done. Qed.

Lemma feed_side_ok who h e c' v u b k kh w :
  w_qconn w !! h = Some e → zlen b = 4096 → zlen v ≤ 4096 → nonempty v = true →
  conn_read_hs (conn e) v = (c', inr u) →
  ∃ w', feed_side who h (frame (splice 0 v b) k (zlen v) kh w) =
      Ret true (frame (splice 0 v b) k (zlen v) kh w') ∧
    w_qconn w' = <[h := with_conn (capture_client_random e v) c']> (w_qconn w) ∧
    w_keys w' = w_keys w ∧ w_next w' = w_next w.
Proof.
  intros He Hb Hv Hne Hr. unfold feed_side. rewrite (bind_Ret _ _ _ _ _ (read_written _ _ _ _ _)).
  assert (Hpos : 0 < zlen v) by (destruct v; [done|]; rewrite zlen_cons; pose proof (zlen_nonneg v); lia).
  rewrite (proj2 (Z.ltb_lt _ _)) by done.
  assert (Hsub : sub 0 (zlen v) (splice 0 v b) = v).
  { apply sub_splice_same, fits_spec. lia. }
  assert (Hz : zlen (splice 0 v b) = 4096).
  { unfold zlen in *. rewrite length_splice; [done|]. apply fits_spec. unfold zlen. lia. }
  unfold rlsm_quic_conn_read_hs, or_invalid. run. change (is_null p_buf) with false.
  change (is_null Null) with true. cbn [andb]. pass_guards. cbv beta iota.
  rewrite as_usize_nonneg_i32 by (unfold in_i32, i32_min, i32_max; lia).
  match goal with |- context [read_u8 p_buf _ ?w1] =>
    change w1 with (frame (splice 0 v b) k (zlen v) kh (set_error None w)) end.
  rewrite read_buf by lia. rewrite Hsub.
  rewrite (with_mut_Some quic_conn_table h _ _ e) by done.
  destruct (elapsed_us_ret (frame (splice 0 v b) k (zlen v) kh (set_error None w))) as (t & l & ->).
  rewrite capture_keeps_conn, Hr.
  destruct (elapsed_us_ret (set_elapsed l (frame (splice 0 v b) k (zlen v) kh (set_error None w))))
    as (t2 & l2 & ->).
  exists (set_qconn (<[h := with_conn (capture_client_random e v) c']> (w_qconn w))
            (set_elapsed l2 (set_error None w))).
  done.
Qed.

Lemma feed_side_empty who h b k kh w :
  feed_side who h (frame b k 0 kh w) = Ret false (frame b k 0 kh w).
Proof. unfold feed_side. by rewrite (bind_Ret _ _ _ _ _ (read_written _ _ _ _ _)). Qed.

(** *** Rounds *)

(** A handle with a connection whose keys were taken. *)
Definition at_rest (w : world) (h : Z) (q : QuicConn) : Prop :=
  ∃ e, w_qconn w !! h = Some e ∧ conn e = q ∧ pending e = None.

(** A peer takes a flight. *)
Definition conn_takes (q : QuicConn) (v : bytes) : option QuicConn :=
  match q with
  | QuicClient c => QuicClient <$> client_takes c v
  | QuicServer s => QuicServer <$> server_takes s v
  end.

Lemma conn_takes_read q v q' :
  conn_takes q v = Some q' →
  if nonempty v then ∃ u, conn_read_hs q v = (q', inr u) else q' = q.
Proof.
  destruct q as [c|s]; simpl; unfold client_takes, server_takes; destruct (nonempty v).
  - destruct (qclient_read_hs c v) as [c' [e|u]]; [done|]. intros [= <-]. eauto.
  - by intros [= <-].
  - destruct (qserver_read_hs s v) as [s' [e|u]]; [done|]. intros [= <-]. eauto.
  - by intros [= <-].
Qed.

Lemma written_entry_conn e q kc : conn (written_entry e q kc) = q.
Proof. by destruct kc as [[]|]. Qed.
Lemma written_entry_pending e q kc : pending e = None → pending (written_entry e q kc) = None.
Proof. by destruct kc as [[]|]. Qed.

Lemma zlen_splice (b v : bytes) : zlen v ≤ zlen b → zlen (splice 0 v b) = zlen b.
Proof.
  intros Hv. unfold zlen in *. rewrite length_splice; [done|]. apply fits_spec. unfold zlen. lia.
Qed.

(** One direction: [h] writes, [p] reads. *)
Lemma half_round who who' h p rtt q q1 q' q2 v kc b k wr kh w :
  h ≠ p → at_rest w h q → at_rest w p q' → conn_write_hs q = (q1, v, kc) →
  conn_takes q' v = Some q2 → zlen v ≤ 4096 → zlen b = 4096 → 0 < w_next w < i32_max →
  let '(keys, n, rtt') := keys_after kc (w_next w) rtt (w_keys w) in
  ∃ b' k' wr' kh' w1 w2,
    pull_side who h rtt (frame b k wr kh w) = Ret rtt' (frame b' k' wr' kh' w1) ∧
    feed_side who' p (frame b' k' wr' kh' w1) = Ret (nonempty v) (frame b' k' wr' kh' w2) ∧
    zlen b' = 4096 ∧ at_rest w2 h q1 ∧ at_rest w2 p q2 ∧ w_keys w2 = keys ∧ w_next w2 = n.
Proof.
  intros Hne (e & He & <- & Hp) (e' & He' & <- & Hp') Hw Ht Hv Hb Hn.
  pose proof (pull_side_ok who h rtt e q1 v kc b k wr kh w He Hp Hw Hv Hb Hn) as Hpull.
  destruct (keys_after kc _ _ _) as [[keys n] rtt']. destruct Hpull as (kh' & w1 & E1 & Q1 & K1 & N1).
  assert (Hz : zlen (splice 0 v b) = 4096) by (rewrite zlen_splice; lia).
  assert (L1 : at_rest w1 h q1).
  { exists (written_entry e q1 kc). rewrite Q1, lookup_insert_eq, written_entry_conn.
    split_and!; try done. by apply written_entry_pending. }
  assert (L2 : w_qconn w1 !! p = Some e') by (by rewrite Q1, lookup_insert_ne).
  apply conn_takes_read in Ht. destruct (nonempty v) eqn:Ev.
  - destruct Ht as [u Hu].
    destruct (feed_side_ok who' p e' q2 v u b (kind_of kc) kh' w1 L2 Hb Hv Ev Hu)
      as (w2 & E2 & Q2 & K2 & N2).
    eexists _, _, _, _, w1, w2. split; [exact E1|]. split; [exact E2|].
    split_and!; try done; [| |congruence..].
    + destruct L1 as (e1 & ? & ? & ?). exists e1. by rewrite Q2, lookup_insert_ne.
    + eexists. rewrite Q2, lookup_insert_eq. split_and!; [done..|]. simpl.
      by rewrite capture_keeps_pending.
  - destruct v; [|done]. subst q2. eexists _, _, _, _, w1, w1. split; [exact E1|].
    split; [apply feed_side_empty|]. split_and!; try done. by exists e'.
Qed.

Lemma is_handshaking_frame h q b k wr kh w :
  at_rest w h q →
  rlsm_quic_conn_is_handshaking h (frame b k wr kh w) =
  Ret (if conn_is_handshaking q then 1 else 0) (frame b k wr kh (set_error None w)).
Proof.
  intros (e & He & <- & _). unfold rlsm_quic_conn_is_handshaking, or_invalid. run.
  by rewrite (with_Some quic_conn_table h _ _ e).
Qed.

(** The table of keys, the counter and the two handles over the rounds. *)
Definition book : Type := gmap Z KeysEntry * Z * Z * Z.

Definition book_round (bk : book) (r : round) : book :=
  let '(keys, n, ck, sk) := bk in
  let '(keys, n, ck) := keys_after (client_change r) n ck keys in
  let '(keys, n, sk) := keys_after (server_change r) n sk keys in
  (keys, n, ck, sk).

Definition small (r : round) : Prop :=
  zlen (client_flight r) ≤ 4096 ∧ zlen (server_flight r) ≤ 4096.

Lemma keys_after_counter kc n rtt keys :
  n ≤ (keys_after kc n rtt keys).1.2 ≤ n + 1.
Proof. destruct kc as [[]|]; simpl; lia. Qed.

Lemma at_rest_error w h q e : at_rest w h q → at_rest (set_error e w) h q.
Proof. done. Qed.

Lemma round_ok N ch sh ck sk c s r b k wr kh w :
  ch ≠ sh → at_rest w ch (QuicClient c) → at_rest w sh (QuicServer s) →
  exchange_round c s = Some r → small r → zlen b = 4096 → 0 < w_next w → w_next w + 2 ≤ i32_max →
  let '(keys, n, ck', sk') := book_round (w_keys w, w_next w, ck, sk) r in
  ∃ b' k' wr' kh' w', zlen b' = 4096 ∧ at_rest w' ch (QuicClient (client_after r)) ∧
    at_rest w' sh (QuicServer (server_after r)) ∧ w_keys w' = keys ∧ w_next w' = n ∧
    handshake_rounds (S N) ch sh ck sk (frame b k wr kh w) =
      if finished (client_after r) (server_after r)
      then Ret (ck', sk') (frame b' k' wr' kh' w')
      else if progress r then handshake_rounds N ch sh ck' sk' (frame b' k' wr' kh' w')
      else Panic "handshake stalled with no progress".
Proof.
  intros Hne Hc Hs Hr [Hcf Hsf] Hb Hn Hmax. unfold exchange_round in Hr.
  destruct (qclient_write_hs c) as [[c1 cb] kc] eqn:Ec.
  destruct (server_takes s cb) as [s1|] eqn:Es; [|done]. simpl in Hr.
  destruct (qserver_write_hs s1) as [[s2 sb] ks] eqn:Es1.
  destruct (client_takes c1 sb) as [c2|] eqn:Ec1; [|done]. injection Hr as <-. simpl in *.
  pose proof (half_round "client" "server" ch sh ck (QuicClient c) (QuicClient c1) (QuicServer s)
    (QuicServer s1) cb kc b k wr kh w Hne Hc Hs) as H1.
  pose proof (keys_after_counter kc (w_next w) ck (w_keys w)) as Hk1.
  destruct (keys_after kc _ _ _) as [[keys1 n1] ck']. simpl in Hk1.
  destruct H1 as (b1 & k1 & wr1 & kh1 & w1 & w2 & E1 & E2 & Hb1 & R1 & R2 & K1 & N1);
    [by simpl; rewrite Ec|by simpl; rewrite Es|done|done|lia|].
  pose proof (half_round "server" "client" sh ch sk (QuicServer s1) (QuicServer s2) (QuicClient c1)
    (QuicClient c2) sb ks b1 k1 wr1 kh1 w2 (not_eq_sym Hne) R2 R1) as H2. rewrite K1, N1 in H2.
  destruct (keys_after ks _ _ _) as [[keys2 n2] sk'].
  destruct H2 as (b2 & k2 & wr2 & kh2 & w3 & w4 & E3 & E4 & Hb2 & R3 & R4 & K2 & N2);
    [by simpl; rewrite Es1|by simpl; rewrite Ec1|done|done|lia|].
  exists b2, k2, wr2, kh2, (set_error None w4). split_and!; try done.
  simpl. rewrite (bind_Ret _ _ _ _ _ E1), (bind_Ret _ _ _ _ _ E2), (bind_Ret _ _ _ _ _ E3),
    (bind_Ret _ _ _ _ _ E4), (bind_Ret _ _ _ _ _ (is_handshaking_frame _ _ _ _ _ _ _ R4)).
  rewrite (bind_Ret _ _ _ _ _ (is_handshaking_frame _ _ _ _ _ _ _ (at_rest_error _ _ _ None R3))).
  unfold finished, progress, assert_. simpl.
  by destruct (qclient_is_handshaking c2), (qserver_is_handshaking s2), (nonempty cb || nonempty sb).
Qed.

Lemma book_round_counter bk r :
  bk.1.1.2 ≤ (book_round bk r).1.1.2 ≤ bk.1.1.2 + 2.
Proof.
  destruct bk as [[[keys n] ck] sk]. unfold book_round.
  pose proof (keys_after_counter (client_change r) n ck keys).
  destruct (keys_after (client_change r) n ck keys) as [[keys1 n1] ck1]. simpl in *.
  pose proof (keys_after_counter (server_change r) n1 sk keys1).
  destruct (keys_after (server_change r) n1 sk keys1) as [[keys2 n2] sk1]. simpl in *. lia.
Qed.

Lemma rounds_ok N ch sh ck sk c s rs b k wr kh w :
  ch ≠ sh → at_rest w ch (QuicClient c) → at_rest w sh (QuicServer s) →
  exchange N c s = Some rs → Forall small rs → zlen b = 4096 →
  0 < w_next w → w_next w + 2 * Z.of_nat N ≤ i32_max →
  ∃ ck' sk' w', handshake_rounds N ch sh ck sk (frame b k wr kh w) = Ret (ck', sk') w' ∧
    at_rest w' ch (QuicClient (ends rs c s).1) ∧ at_rest w' sh (QuicServer (ends rs c s).2) ∧
    (w_keys w', w_next w', ck', sk') = foldl book_round (w_keys w, w_next w, ck, sk) rs.
Proof.
  intros Hne. revert ck sk c s rs b k wr kh w.
  induction N as [|N IH]; intros ck sk c s rs b k wr kh w Hc Hs; [done|].
  intros Hx Hf Hb Hn Hmax. cbn [exchange] in Hx.
  destruct (exchange_round c s) as [r|] eqn:Er; [|done]. cbn [mbind option_bind] in Hx.
  assert (Hr : ∃ rs', rs = r :: rs').
  { revert Hx. case_if; [intros [= <-]; eauto|]. case_if; [|done].
    destruct (exchange N _ _); intros [= <-]. eauto. }
  destruct Hr as [rs' ->]. apply Forall_cons in Hf as [Hf Hf'].
  pose proof (round_ok N ch sh ck sk c s r b k wr kh w Hne Hc Hs Er Hf Hb Hn ltac:(lia)) as H.
  pose proof (book_round_counter (w_keys w, w_next w, ck, sk) r) as Hbk. cbn [foldl].
  destruct (book_round _ _) as [[[keys n] ck'] sk'] eqn:Ebk. simpl in Hbk.
  destruct H as (b' & k' & wr' & kh' & w' & Hb' & R1 & R2 & K & N' & ->). rewrite ends_cons.
  destruct (finished _ _) eqn:Ef.
  - injection Hx as <-. exists ck', sk'. eexists. split; [done|]. simpl. rewrite K, N'. done.
  - destruct (progress r); [|done].
    destruct (exchange N _ _) as [rs2|] eqn:Ex; [|done]. injection Hx as <-.
    destruct (IH ck' sk' _ _ rs2 b' k' wr' kh' w' R1 R2 Ex Hf' Hb') as (ck2 & sk2 & w2 & E & R3 & R4 & Hk);
      [lia..|].
    exists ck2, sk2, w2. split_and!; try done. by rewrite Hk, K, N'.
Qed.

(** *** The keys the driver ends with *)

Definition one_rtt (kc : option (KeyChange hkey pkey secrets)) : option ((hkey * pkey) * (hkey * pkey)) :=
  match kc with Some (OneRtt l r _) => Some (l, r) | _ => None end.

(** The last 1-RTT keys of a side. *)
Definition newer {A} (o o' : option A) : option A := match o with Some x => Some x | None => o' end.
Definition last_one_rtt (f : round → option (KeyChange hkey pkey secrets)) (rs : list round) :=
  foldl (λ o r, newer (one_rtt (f r)) o) None rs.

(** A handle with these keys, none of them used, or 0 for no keys. *)
Definition keys_at (keys : gmap Z KeysEntry) (n h : Z) (o : option ((hkey * pkey) * (hkey * pkey))) : Prop :=
  match o with Some (l, r) => keys !! h = Some (entry_of l r) ∧ 0 < h < n | None => h = 0 end.

Lemma keys_after_own kc n rtt keys o :
  0 < n → keys_at keys n rtt o →
  let '(keys', n', rtt') := keys_after kc n rtt keys in keys_at keys' n' rtt' (newer (one_rtt kc) o).
Proof.
  intros Hn Hk. destruct kc as [[l r|l r next]|]; simpl.
  - destruct o as [[l' r']|]; simpl in *; [|done]. rewrite lookup_delete_ne by lia. destruct_and!. split; [done|lia].
  - destruct o as [[l' r']|]; simpl; rewrite lookup_insert_eq; (split; [done|lia]).
  - destruct o as [[l' r']|]; done.
Qed.

Lemma keys_after_other kc n rtt keys h o :
  keys_at keys n h o → let '(keys', n', _) := keys_after kc n rtt keys in keys_at keys' n' h o.
Proof.
  intros Hk. destruct kc as [[l r|l r next]|], o as [[l' r']|]; simpl in *; try done.
  - rewrite lookup_delete_ne by lia. destruct_and!. split; [done|lia].
  - rewrite lookup_insert_ne by lia. destruct_and!. split; [done|lia].
Qed.

Lemma book_keys rs keys n ck sk oc os :
  0 < n → keys_at keys n ck oc → keys_at keys n sk os →
  let '(keys', n', ck', sk') := foldl book_round (keys, n, ck, sk) rs in
  keys_at keys' n' ck' (foldl (λ o r, newer (one_rtt (client_change r)) o) oc rs) ∧
  keys_at keys' n' sk' (foldl (λ o r, newer (one_rtt (server_change r)) o) os rs).
Proof.
  revert keys n ck sk oc os. induction rs as [|r rs IH]; intros keys n ck sk oc os Hn Hc Hs; [done|].
  cbn [foldl]. unfold book_round at 2.
  pose proof (keys_after_counter (client_change r) n ck keys).
  pose proof (keys_after_own (client_change r) n ck keys oc Hn Hc).
  pose proof (keys_after_other (client_change r) n ck keys sk os Hs) as Hs1.
  destruct (keys_after (client_change r) n ck keys) as [[keys1 n1] ck1]. simpl in H.
  pose proof (keys_after_counter (server_change r) n1 sk keys1).
  pose proof (keys_after_own (server_change r) n1 sk keys1 os ltac:(lia) Hs1).
  pose proof (keys_after_other (server_change r) n1 sk keys1 ck1 _ H0).
  destruct (keys_after (server_change r) n1 sk keys1) as [[keys2 n2] sk1]. simpl in H1.
  apply IH; [lia|done|done].
Qed.

Lemma exchange_more n m c s rs : exchange n c s = Some rs → exchange (n + m) c s = Some rs.
Proof.
  revert c s rs. induction n as [|n IH]; intros c s rs; [done|]. simpl.
  destruct (exchange_round c s) as [r|]; [|done]. simpl. case_if; [done|]. case_if; [|done].
  destruct (exchange n _ _) as [rs'|] eqn:E; [|done]. intros [= <-]. by rewrite (IH _ _ _ E).
Qed.

Lemma run_handshake_ok ch sh c s rs w :
  ch ≠ sh → at_rest w ch (QuicClient c) → at_rest w sh (QuicServer s) →
  0 < w_next w → w_next w + 40 ≤ i32_max → exchange 20 c s = Some rs → Forall small rs →
  ∃ ck sk w', run_handshake ch sh w = Ret (ck, sk) w' ∧
    at_rest w' ch (QuicClient (ends rs c s).1) ∧ at_rest w' sh (QuicServer (ends rs c s).2) ∧
    keys_at (w_keys w') (w_next w') ck (last_one_rtt client_change rs) ∧
    keys_at (w_keys w') (w_next w') sk (last_one_rtt server_change rs).
Proof.
  intros Hne Hc Hs Hn Hmax Hx Hf.
  destruct (rounds_ok 20 ch sh 0 0 c s rs (replicate 4096 0) 0 0 0 w Hne Hc Hs Hx Hf)
    as (ck & sk & w' & E & R1 & R2 & Hk); [by rewrite zlen_replicate|lia|lia|].
  pose proof (book_keys rs (w_keys w) (w_next w) 0 0 None None Hn eq_refl eq_refl) as Hbk.
  rewrite <- Hk in Hbk. exists ck, sk, w'. split_and!; try done; apply Hbk.
Qed.

(** C11: driving a handshake through the handles is exchanging the flights of the
    two rustls connections directly: when the direct exchange finishes within the
    20 rounds of the driver, with flights that fit its buffer, the driver
    returns, both handles hold the connections the direct driver ends with, and
    the two handles it returns are those of the last 1-RTT keys of each side,
    unused. *)
Theorem handles_handshake_is_direct ch sh c s rs w :
  ch ≠ sh → at_rest w ch (QuicClient c) → at_rest w sh (QuicServer s) →
  0 < w_next w → w_next w + 40 ≤ i32_max →
  exchange 20 c s = Some rs → Forall small rs →
  ∃ c' s' ck sk w',
    phase_a 32 (c, s) = Ret tt (c', s') ∧ finished c' s' = true ∧
    run_handshake ch sh w = Ret (ck, sk) w' ∧
    at_rest w' ch (QuicClient c') ∧ at_rest w' sh (QuicServer s') ∧
    keys_at (w_keys w') (w_next w') ck (last_one_rtt client_change rs) ∧
    keys_at (w_keys w') (w_next w') sk (last_one_rtt server_change rs).
Proof.
  intros Hne Hc Hs Hn Hmax Hx Hf.
  destruct (phase_a_exchange 32 c s rs (exchange_more 20 12 _ _ _ Hx)) as [Hd Hfin].
  destruct (run_handshake_ok ch sh c s rs w Hne Hc Hs Hn Hmax Hx Hf) as (ck & sk & w' & H).
  destruct (ends rs c s) as [c' s']. by exists c', s', ck, sk, w'.
Qed.
End Handles.

(** Two connections that have one flight each to finish, both with a change to
    1-RTT keys. *)
Definition last_flight (b : bytes) (k : Z) : toy_quic :=
  {| q_script := [(b, Some (OneRtt (k, k + 1) (k + 2, k + 3) 7))]; q_seen := []; q_hs := false;
     q_tp := None; q_zero := None |}.

Definition loop_world : world (R:=toy) :=
  set_qconn {[ 1 := new_entry (R:=toy) (QuicClient (R:=toy) (last_flight [20; 0] 10));
               2 := new_entry (R:=toy) (QuicServer (R:=toy) (last_flight [8; 0] 20)) ]}
    (set_next 3 (boot (mem_of []))).

#[local] Abbreviation loop_rounds :=
  (default [] (exchange (R:=toy) 20 (last_flight [20; 0] 10) (last_flight [8; 0] 20))).

Lemma handles_handshake_is_direct_witness :
  result_of (run_handshake (R:=toy) 1 2 loop_world) = Some (3, 4) ∧
  ∃ c' s' ck sk w',
    phase_a (R:=toy) 32 (last_flight [20; 0] 10, last_flight [8; 0] 20) = Ret tt (c', s') ∧
    finished c' s' = true ∧ run_handshake 1 2 loop_world = Ret (ck, sk) w' ∧
    at_rest w' 1 (QuicClient c') ∧ at_rest w' 2 (QuicServer s') ∧
    keys_at (w_keys w') (w_next w') ck (last_one_rtt client_change loop_rounds) ∧
    keys_at (w_keys w') (w_next w') sk (last_one_rtt server_change loop_rounds).
Proof.
  split; [by_eval|].
  apply (handles_handshake_is_direct (R:=toy) 1 2 (last_flight [20; 0] 10) (last_flight [8; 0] 20)).
  - done.
  - eexists. by split_and!.
  - eexists. by split_and!.
  - done.
  - done.
  - apply (some_default []). by_eval.
  - by_decision.
Defined.
End Loopback.
