(* ===== verification/Fixture.v ===== *)
(** * The resumption fixture

    The second half of [drive_full_handshake_with_resumption] of
    [src/crates/librustls-mojo/src/quic_hs/tests_resumption_fixture.rs]: it drives
    a resumed handshake on two rustls connections until the server has 0-RTT
    keys, collects the front of the client's CRYPTO stream on the way with a copy
    of the ingress hook of [rlsm_quic_conn_read_hs], and puts both connections
    into the table. The two connections (made with a session store rustls keeps)
    are arguments. *)

From S2P Require Import Prelude Effects Handles Rustls World Frames Toy QuicKeys QuicKeysFacts.
From S2P Require Import QuicHs QuicHsFacts Loopback.
Import Effects Handles Rustls World Frames Toy QuicKeys QuicKeysFacts QuicHs QuicHsFacts Loopback.

Module Fixture.

(** The locals [first_ch_prefix], [first_ch_prefix_len], [client_random_captured]
    and [client_random]. *)
Record sticky := {
  st_prefix : bytes; st_prefix_len : Z; st_captured : bool; st_random : bytes;
}.

Definition sticky_new : sticky :=
  {| st_prefix := replicate 38 0; st_prefix_len := 0; st_captured := false;
     st_random := replicate 32 0 |}.

(** What the fixture does with a client flight that is not empty. *)
Definition accumulate (st : sticky) (buf : bytes) : sticky :=
  if negb (st_captured st) then
    let cur := st_prefix_len st in
    if cur <? 38 then
      let want := 38 - cur in
      let take := Z.min want (zlen buf) in
      let prefix := splice cur (sub 0 take buf) (st_prefix st) in
      let len := as_u8 (cur + take) in
      if (len =? 38) && (default 0 (head prefix) =? 0x01)
      then {| st_prefix := prefix; st_prefix_len := len; st_captured := true;
              st_random := sub 6 32 prefix |}
      else {| st_prefix := prefix; st_prefix_len := len; st_captured := st_captured st;
              st_random := st_random st |}
    else st
  else st.

Section Fixture.
Context {R : Rustls}.

(** [for _ in 0..n] up to its [break]: whether 0-RTT keys were seen. *)
Fixpoint resumed_loop (n : nat) (st : sticky) : prog (qclient * qserver) (bool * sticky) :=
  match n with
  | O => mret (false, st)
  | S n => λ '(client_2, server_2),
      let '(client_2, buf, _) := qclient_write_hs client_2 in
      let st := if nonempty buf then accumulate st buf else st in
      match (if nonempty buf then
               let '(server_2, r) := qserver_read_hs server_2 buf in
               match r with inr _ => inr server_2 | inl e => inl e end
             else inr server_2) with
      | inl e => Panic ("server_2 read_hs: " +:+ error_debug e)
      | inr server_2 =>
          if is_some (qserver_zero_rtt_keys server_2) then Ret (true, st) (client_2, server_2)
          else
            let '(server_2, buf2, _) := qserver_write_hs server_2 in
            if is_some (qserver_zero_rtt_keys server_2)
            then Ret (true, st) (client_2, server_2)
            else if nonempty buf2 then
              let '(client_2, r) := qclient_read_hs client_2 buf2 in
              match r with
              | inr _ => resumed_loop n st (client_2, server_2)
              | inl e => Panic ("client_2 read_hs: " +:+ error_debug e)
              end
            else resumed_loop n st (client_2, server_2)
      end
  end.

Definition server_entry (s : qserver) (st : sticky) : QuicConnEntry :=
  {| conn := QuicServer s; pending := None; next_secrets := None; alert_cache := None;
     first_ch_prefix := st_prefix st; first_ch_prefix_len := st_prefix_len st;
     client_random_captured := st_captured st; client_random := st_random st |}.

(** The resumed handshake and the insertion: (server handle, client handle). *)
Definition drive_resumed (client_2 : qclient) (server_2 : qserver) : prog world (Z * Z) :=
  match resumed_loop 16 sticky_new (client_2, server_2) with
  | Ret (got_zero_rtt, st) (client_2, server_2) =>
      assert_ got_zero_rtt "resumed server never produced zero_rtt_keys = Some(_); verify enable_early_data + max_early_data_size + ticket cache wiring";;
      assert_ (st_captured st)
        "resumed handshake completed without observing a 38-byte ClientHello prefix; the fixture cannot pre-populate the authenticator";;
      s ← insert quic_conn_table (server_entry server_2 st);
      server_h ← expect s "QUIC_CONN_TABLE handle counter exhausted (server)";
      c ← insert quic_conn_table (new_entry (QuicClient client_2));
      client_h ← expect c "QUIC_CONN_TABLE handle counter exhausted (client)";
      mret (server_h, client_h)
  | Panic m => panic m
  | Undef => undef
  | NoFuel => no_fuel
  end.

(** ** It mirrors the ingress hook *)

(** The client flights of the rounds. *)
Fixpoint resumed_flights (n : nat) (c : qclient) (s : qserver) : list bytes :=
  match n with
  | O => []
  | S n =>
      let '(c, buf, _) := qclient_write_hs c in
      buf :: match server_takes s buf with
             | None => []
             | Some s =>
                 if is_some (qserver_zero_rtt_keys s) then []
                 else
                   let '(s, buf2, _) := qserver_write_hs s in
                   if is_some (qserver_zero_rtt_keys s) then []
                   else match client_takes c buf2 with
                        | Some c => resumed_flights n c s
                        | None => []
                        end
             end
  end.

Definition sticky_of (e : QuicConnEntry) : sticky :=
  {| st_prefix := first_ch_prefix e; st_prefix_len := first_ch_prefix_len e;
     st_captured := client_random_captured e; st_random := client_random e |}.

(** The fixture's copy does what the hook does to a server's entry. *)
Lemma accumulate_hook e buf :
  is_server e = true → nonempty buf = true →
  accumulate (sticky_of e) buf = sticky_of (capture_client_random e buf).
Proof.
  intros Hs Hne. unfold capture_client_random. fold (is_server e). rewrite Hs.
  destruct buf as [|x buf]; [done|]. unfold accumulate, sticky_of. simpl.
  destruct (client_random_captured e) eqn:Ec; simpl; [by rewrite ?Ec|].
  destruct (first_ch_prefix_len e <? 38); simpl; [|by rewrite ?Ec].
  destruct (as_u8 _ =? 38); simpl; [|by rewrite ?Ec]. by destruct (_ =? 1); simpl; rewrite ?Ec.
Qed.

Lemma is_server_capture e buf : is_server (capture_client_random e buf) = is_server e.
Proof. unfold is_server. by rewrite capture_keeps_conn. Qed.

Lemma accumulate_captures e d buf :
  is_server e = true → captures e d →
  (if nonempty buf then accumulate (sticky_of e) buf else sticky_of e) =
    sticky_of (capture_client_random e buf) ∧
  captures (capture_client_random e buf) (d ++ buf).
Proof.
  intros Hs Hc. split; [|by apply capture_step].
  destruct (nonempty buf) eqn:E; [by apply accumulate_hook|].
  destruct buf; [|done]. by rewrite capture_nil.
Qed.

Lemma resumed_loop_captures n e d c s got st c' s' :
  is_server e = true → captures e d →
  resumed_loop n (sticky_of e) (c, s) = Ret (got, st) (c', s') →
  ∃ e', is_server e' = true ∧ st = sticky_of e' ∧ captures e' (d ++ concat (resumed_flights n c s)).
Proof.
  revert e d c s. induction n as [|n IH]; intros e d c s Hs Hc; simpl.
  { intros [= <- <- <- <-]. rewrite app_nil_r. eauto. }
  unfold server_takes, client_takes.
  destruct (qclient_write_hs c) as [[c1 buf] kc].
  destruct (accumulate_captures e d buf Hs Hc) as [-> Hc1].
  pose proof (is_server_capture e buf) as Hs1. rewrite Hs in Hs1. cbn [concat].
  destruct (nonempty buf); [destruct (qserver_read_hs s buf) as [s1 [er|u]]; [done|]|];
    (destruct (is_some _);
      [intros [= <- <- <- <-]; eexists; split_and!; [exact Hs1|done|by rewrite app_nil_r]|]);
    destruct (qserver_write_hs _) as [[s2 buf2] ks];
    (destruct (is_some _);
      [intros [= <- <- <- <-]; eexists; split_and!; [exact Hs1|done|by rewrite app_nil_r]|]);
    (destruct (nonempty buf2); [destruct (qclient_read_hs c1 buf2) as [c2 [er|u']]; [done|]|]);
    rewrite app_assoc; by apply IH.
Qed.

(** C40: the fixture leaves its server connection as the exported functions would
    have: the entry it inserts has captured the stream of the client's flights
    like the ingress hook, and the replay authenticator of the handle it
    returns is bytes 6 to 37 of that stream. *)
Theorem fixture_mirrors_ingress c s w sh ch w' out out_len b n :
  in_i32 (w_next w) → drive_resumed c s w = Ret (sh, ch) w' →
  u8_at w' out 32 = Some b → load (m_u64 (w_mem w')) out_len 1 = Some [n] →
  let d := concat (resumed_flights 16 c s) in
  ∃ e w'', w_qconn w' !! sh = Some e ∧ captures e d ∧ pending e = None ∧
    rlsm_quic_server_conn_replay_authenticator sh out out_len w' = Ret 0 w'' ∧
    u8_at w'' out 32 = Some (sub 6 32 d) ∧ load (m_u64 (w_mem w'')) out_len 1 = Some [32].
Proof.
  unfold drive_resumed. generalize 16%nat as N. intros N Hi Hd Hout Hlen.
  set (d := concat (resumed_flights N c s)).
  destruct (resumed_loop N sticky_new (c, s)) as [[got st] [c' s']| | |] eqn:El; [|done..].
  destruct (resumed_loop_captures N (new_entry (QuicServer s)) [] c s got st c' s') as (e & He & -> & Hc);
    [done|apply captures_new|exact El|].
  change (captures e ([] ++ d)) in Hc. rewrite app_nil_l in Hc. clearbody d. clear El.
  destruct got; [|done]. destruct (st_captured (sticky_of e)) eqn:Ecap; [|done].
  rewrite !assert_pass in Hd.
  destruct (Z.le_gt_cases (counter w) 0) as [Hx|Hx].
  { by rewrite (bind_Ret _ _ _ _ _ (insert_exhausted quic_conn_table _ w Hx)) in Hd. }
  rewrite (bind_Ret _ _ _ _ _ (insert_pos quic_conn_table _ w Hx)) in Hd. simpl expect in Hd.
  set (w1 := set_map quic_conn_table _ _) in Hd. change (counter w) with (w_next w) in *.
  rewrite (bind_Ret (mret (w_next w)) _ w1 (w_next w) w1 eq_refl) in Hd.
  destruct (Z.le_gt_cases (counter w1) 0) as [Hy|Hy].
  { by rewrite (bind_Ret _ _ _ _ _ (insert_exhausted quic_conn_table _ w1 Hy)) in Hd. }
  rewrite (bind_Ret _ _ _ _ _ (insert_pos quic_conn_table _ w1 Hy)) in Hd. simpl in Hd.
  injection Hd as <- <- <-. change (counter w1) with (as_i32 (w_next w + 1)) in *.
  assert (Hne : as_i32 (w_next w + 1) ≠ w_next w).
  { destruct (Z.eq_dec (w_next w) i32_max) as [E|E]; [by rewrite E in Hy|].
    rewrite as_i32_id by (unfold in_i32 in *; lia). lia. }
  match goal with |- ∃ e w'', w_qconn ?w2 !! _ = _ ∧ _ => set (w2' := w2) in * end.
  assert (Hl : w_qconn w2' !! w_next w = Some (server_entry s' (sticky_of e))).
  { unfold w2', w1. simpl. rewrite lookup_insert_ne by done. apply lookup_insert_eq. }
  assert (Hcap : captures (server_entry s' (sticky_of e)) d) by (by destruct Hc; split).
  assert (Hseen : hello_seen d = true) by (by rewrite <- (cap_flag _ _ Hc)).
  destruct (authenticator_ok w2' (w_next w) _ d out out_len b n Hl eq_refl Hcap Hout Hlen)
    as (w3 & E1 & E2 & E3). rewrite Hseen in *. eauto 10.
Qed.
End Fixture.

(** A client with a ClientHello, and a server that has 0-RTT keys. *)
Definition hello_bytes : bytes := [1; 0; 0; 34; 3; 3] ++ replicate 32 171.

Definition keyed_server : toy_quic :=
  {| q_script := []; q_seen := []; q_hs := true; q_tp := None; q_zero := Some (1, 2) |}.

Definition hello_client : toy_quic :=
  {| q_script := [(hello_bytes, None)]; q_seen := []; q_hs := true; q_tp := None; q_zero := None |}.

Definition fixture_world : world (R:=toy) := boot (mem_of [replicate 32 0]).

#[local] Abbreviation driven :=
  (state_of fixture_world (drive_resumed (R:=toy) hello_client keyed_server fixture_world)).

Lemma fixture_mirrors_ingress_witness :
  let d := concat (resumed_flights (R:=toy) 16 hello_client keyed_server) in
  ∃ e w'', w_qconn driven !! 1 = Some e ∧ captures e d ∧ pending e = None ∧
    rlsm_quic_server_conn_replay_authenticator 1 (Ptr 1 0) (Ptr 1 0) driven = Ret 0 w'' ∧
    u8_at w'' (Ptr 1 0) 32 = Some (sub 6 32 d) ∧ load (m_u64 (w_mem w'')) (Ptr 1 0) 1 = Some [32].
Proof.
  apply (fixture_mirrors_ingress (R:=toy) hello_client keyed_server fixture_world 1 2 driven
           (Ptr 1 0) (Ptr 1 0) (replicate 32 0) 0).
  - by vm_compute.
  - apply ret_of. by_eval.
  - by_vm.
  - by_vm.
Defined.
End Fixture.
