(* ===== verification/ConnTests.v ===== *)
(** * The unit tests of quic_hs.rs

    The tests of [src/crates/librustls-mojo/src/quic_hs.rs] as programs over the
    model: a failed assertion is a panic. The certificate [gen_test_cert] makes with
    rcgen is a parameter; the locals of a test are blocks of memory. *)

From S2P Require Import Prelude Effects Handles Rustls World Frames Toy Utf8 QuicKeys QuicKeysFacts.
From S2P Require Import QuicHs QuicHsFacts Loopback.
Import Effects Handles Rustls World Frames Toy Utf8 QuicKeys QuicKeysFacts QuicHs QuicHsFacts Loopback.

Module ConnTests.

Definition h3 : bytes := [104; 51].
Definition localhost : bytes := [108; 111; 99; 97; 108; 104; 111; 115; 116].

(** ** Setup *)

Section Setup.
Context {R : Rustls} (gen_test_cert : bytes * bytes * cert).

(** Blocks of bytes: 1 is [cert_pem], 2 [key_pem], 3 [alpn], 4 [server_name], 5
    [tp]; of [i32]: 1 is the handle of the configuration, 2 [client_h], 3
    [server_h]. *)
Definition setup_memory (alpn tp : bytes) (h ch sh : Z) : memory :=
  {| m_u8 := {[ 1%N := gen_test_cert.1.1; 2%N := gen_test_cert.1.2; 3%N := alpn; 4%N := localhost; 5%N := tp ]};
     m_i32 := {[ 1%N := [h]; 2%N := [ch]; 3%N := [sh] ]}; m_u64 := ∅; m_ptr := ∅ |}.

Definition make_test_client_config (root_cert_der : cert) (alpn : bytes) : prog world Z :=
  match root_store_add root_store_empty root_cert_der with
  | inl e => panic ("called `Result::unwrap()` on an `Err` value: " +:+ error_debug e)
  | inr root_store =>
      let config := client_config_set_alpn (client_config_build true root_store) [alpn] in
      o ← insert quic_client_cfg_table config;
      expect o "handle counter exhausted"
  end.

(** [rlsm_quic_server_config_new] on the certificate, with the given early data. *)
Definition server_config_new (alpn : bytes) (max_early_data : Z) : prog world Z :=
  rlsm_quic_server_config_new (Ptr 1 0) (as_i32 (zlen gen_test_cert.1.1)) (Ptr 2 0)
    (as_i32 (zlen gen_test_cert.1.2)) (Ptr 3 0) (as_i32 (zlen alpn)) max_early_data (Ptr 1 0).

Definition make_server_cfg (alpn : bytes) : prog world (Z * cert) :=
  rc ← server_config_new alpn 0;
  assert_ (rc =? 0) "rlsm_quic_server_config_new";;
  h ← read_i32 (Ptr 1 0);
  mret (h, gen_test_cert.2).

(** The common body of the two functions below; [which] is in its messages. *)
Definition conn_pair (which : string) (alpn tp : bytes) : prog world (Z * Z) :=
  modify (set_mem (setup_memory alpn tp 0 0 0));;
  cfg ← make_server_cfg alpn;
  let '(server_cfg, root_der) := cfg in
  client_cfg ← make_test_client_config root_der alpn;
  rc ← rlsm_quic_client_conn_new client_cfg 1 (Ptr 4 0) (as_i32 (zlen localhost)) (Ptr 5 0) (as_i32 (zlen tp)) (Ptr 2 0);
  assert_ (rc =? 0) ("client conn new" +:+ which +:+ " failed");;
  rc ← rlsm_quic_server_conn_new server_cfg 1 (Ptr 5 0) (as_i32 (zlen tp)) (Ptr 3 0);
  assert_ (rc =? 0) ("server conn new" +:+ which +:+ " failed");;
  client_h ← read_i32 (Ptr 2 0);
  server_h ← read_i32 (Ptr 3 0);
  mret (client_h, server_h).

Definition make_conn_pair (alpn : bytes) : prog world (Z * Z) := conn_pair "" alpn [].
Definition make_conn_pair_with_tp (alpn tp : bytes) : prog world (Z * Z) := conn_pair " (with tp)" alpn tp.
End Setup.

(** ** The tests *)

Definition u64_MAX : Z := 2 ^ 64 - 1.

(** The locals the tests share. Blocks of bytes: 1 is [buf], 2 [kc], 3
    [client_hello] or [garbage]; of [i32]: 1 is [written], 2 [keys_h], 3 [keys_h2];
    of [u64]: 1 is [sm_us], 2 [lk_us]. *)
Definition vars (b : bytes) (k : Z) (v : bytes) (wr kh kh2 sm lk : Z) : memory :=
  {| m_u8 := {[ 1%N := b; 2%N := [k]; 3%N := v ]}; m_i32 := {[ 1%N := [wr]; 2%N := [kh]; 3%N := [kh2] ]};
     m_u64 := {[ 1%N := [sm]; 2%N := [lk] ]}; m_ptr := ∅ |}.
Definition start (v : bytes) : memory := vars (replicate 4096 0) 0 v 0 0 0 u64_MAX u64_MAX.

Abbreviation p_hello := (Ptr 3 0).
Abbreviation p_kh2 := (Ptr 3 0).
Abbreviation p_sm := (Ptr 1 0).
Abbreviation p_lk := (Ptr 2 0).

Section Tests.
Context {R : Rustls} (gen_test_cert : bytes * bytes * cert).

Definition write_into (h : Z) : prog world Z := rlsm_quic_conn_write_hs h p_buf 4096 p_written p_kc.
Definition reset : prog world unit := write_i32 p_written 0;; write_u8 p_kc [0].
Definition kc_is (n : Z) (msg : string) : prog world unit :=
  kc ← read_u8 p_kc 1; assert_ (default 0 (head kc) =? n) msg.

(** [buf[..written as usize].to_vec()] *)
Definition to_vec : prog world bytes :=
  written ← read_i32 p_written;
  let n := as_usize written in
  if 4096 <? n then panic "range end index out of range for slice of length 4096"
  else
    v ← read_u8 p_buf n;
    modify (λ w, set_mem (set_u8 (<[3%N := v]> (m_u8 (w_mem w))) (w_mem w)) w);;
    mret v.

Definition feed_conn (h : Z) (data : bytes) (sm lk : ptr) : prog world Z :=
  rlsm_quic_conn_read_hs h p_hello (as_i32 (zlen data)) sm lk.

Definition free_both (client_h server_h : Z) : prog world unit :=
  rlsm_quic_conn_free client_h;; rlsm_quic_conn_free server_h;; mret tt.

Definition with_pair (body : Z → Z → prog world unit) : prog world unit :=
  p ← make_conn_pair gen_test_cert h3;
  let '(client_h, server_h) := p in
  modify (set_mem (start []));; body client_h server_h.

(** The first flights: the server is left with a pending change to Handshake keys. *)
Definition first_flights (client_h server_h : Z) : prog world unit :=
  rc ← write_into client_h; assert_ (rc =? 0) "client write_hs failed";;
  client_hello ← to_vec;
  rc ← feed_conn server_h client_hello Null Null; assert_ (rc =? 0) "server read_hs failed";;
  reset;;
  rc ← write_into server_h; assert_ (rc =? 0) "server write_hs failed";;
  kc_is 1 "expected Handshake key change".

Definition test_write_hs_with_pending_key_returns_error : prog world unit :=
  with_pair (λ client_h server_h,
    first_flights client_h server_h;;
    reset;;
    rc ← write_into server_h; assert_ (rc =? -1) "write_hs with pending key should fail";;
    free_both client_h server_h).

Definition test_conn_free_with_pending_key_returns_ok : prog world unit :=
  with_pair (λ client_h server_h,
    first_flights client_h server_h;;
    rc ← rlsm_quic_conn_free server_h; assert_ (rc =? 0) "free";;
    rc ← rlsm_quic_conn_free server_h; assert_ (rc =? -1) "double free";;
    rc ← rlsm_quic_conn_free client_h; assert_ (rc =? 0) "free client").

Definition garbage : bytes :=
  string_bytes "not valid TLS handshake data at all " ++ [0; 255].

Definition test_alert_on_bad_read_hs : prog world unit :=
  with_pair (λ client_h server_h,
    modify (set_mem (start garbage));;
    rc ← feed_conn server_h garbage Null Null; assert_ (rc =? -1) "read_hs should fail on garbage input";;
    alert ← rlsm_quic_conn_alert server_h; assert_ (0 <=? alert) "expected a non-negative alert code";;
    alert2 ← rlsm_quic_conn_alert server_h; assert_ (alert2 =? -1) "alert should be cleared after reading";;
    free_both client_h server_h).

(** The results of the first calls are not looked at. *)
Definition test_double_take_keys_returns_error : prog world unit :=
  with_pair (λ client_h server_h,
    write_into client_h;;
    client_hello ← to_vec;
    feed_conn server_h client_hello Null Null;;
    reset;;
    write_into server_h;;
    kc_is 1 "kc";;
    rc ← rlsm_quic_conn_take_keys server_h p_kh; assert_ (rc =? 0) "take_keys";;
    keys_h ← read_i32 p_kh; assert_ (0 <? keys_h) "keys_h";;
    rc ← rlsm_quic_conn_take_keys server_h p_kh2; assert_ (rc =? -1) "second take_keys";;
    free_both client_h server_h).

(** Blocks of bytes: 1 is [alpn_buf], 2 [tp_buf]; of [i32]: 1 is [alpn_written], 2
    [tp_written]. *)
Definition queries (ab tb : bytes) (aw tw : Z) : memory :=
  {| m_u8 := {[ 1%N := ab; 2%N := tb ]}; m_i32 := {[ 1%N := [aw]; 2%N := [tw] ]}; m_u64 := ∅; m_ptr := ∅ |}.

Definition test_transport_params_unavailable_before_hello : prog world unit :=
  with_pair (λ client_h server_h,
    modify (set_mem (queries [] (replicate 256 0) 0 0));;
    rc ← rlsm_quic_conn_transport_params server_h (Ptr 2 0) 256 (Ptr 2 0);
    assert_ (rc =? 1) "expected 1 (unavailable) before hello";;
    tp_written ← read_i32 (Ptr 2 0); assert_ (tp_written =? 0) "tp_written";;
    free_both client_h server_h).

Definition query_alpn (h : Z) : prog world unit :=
  rc ← rlsm_quic_conn_alpn h (Ptr 1 0) 32 (Ptr 1 0); assert_ (rc =? 0) "alpn";;
  alpn_written ← read_i32 (Ptr 1 0);
  v ← read_u8 (Ptr 1 0) (as_usize alpn_written); assert_ (bool_decide (v = h3)) "alpn is h3".
Definition query_tp (h : Z) (msg : string) : prog world unit :=
  rc ← rlsm_quic_conn_transport_params h (Ptr 2 0) 1024 (Ptr 2 0); assert_ (rc =? 0) "transport params";;
  tp_written ← read_i32 (Ptr 2 0); assert_ (0 <? tp_written) msg.

Definition test_tp : bytes := [0x01; 0x02; 0x40; 0x64].

Definition test_full_handshake_client_server : prog world unit :=
  p ← make_conn_pair_with_tp gen_test_cert h3 test_tp;
  let '(client_h, server_h) := p in
  q ← run_handshake client_h server_h;
  let '(client_1rtt, server_1rtt) := q in
  assert_ (0 <? client_1rtt) "client 1-RTT keys not materialized";;
  assert_ (0 <? server_1rtt) "server 1-RTT keys not materialized";;
  hs ← rlsm_quic_conn_is_handshaking client_h; assert_ (hs =? 0) "client done";;
  hs ← rlsm_quic_conn_is_handshaking server_h; assert_ (hs =? 0) "server done";;
  modify (set_mem (queries (replicate 32 0) (replicate 1024 0) 0 0));;
  query_alpn client_h;; write_i32 (Ptr 1 0) 0;; query_alpn server_h;;
  query_tp client_h "client should see non-empty server transport params";; write_i32 (Ptr 2 0) 0;;
  query_tp server_h "server should see non-empty client transport params";;
  free_both client_h server_h.

(** Encrypting [n] bytes [b] with the keys of a handle: block 1 is [header], block 2
    [payload] with the space for the tag. *)
Definition encrypt_memory (header : bytes) (b : Z) (n : nat) : memory :=
  {| m_u8 := {[ 1%N := header; 2%N := replicate n b ++ replicate 16 0 ]}; m_i32 := ∅; m_u64 := ∅; m_ptr := ∅ |}.
Definition encrypt_with (keys : Z) (header : bytes) (b : Z) (n : nat) (msg : string) : prog world unit :=
  modify (set_mem (encrypt_memory header b n));;
  rc ← rlsm_keys_local_encrypt keys 0 (Ptr 1 0) (as_i32 (zlen header)) (Ptr 2 0) (Z.of_nat n) (as_i32 (Z.of_nat n + 16));
  assert_ (0 <? rc) msg.

Definition test_handshake_keys_available : prog world unit :=
  with_pair (λ client_h server_h,
    first_flights client_h server_h;;
    rc ← rlsm_quic_conn_take_keys server_h p_kh; assert_ (rc =? 0) "take_keys";;
    hs_keys ← read_i32 p_kh; assert_ (0 <? hs_keys) "expected positive keys handle";;
    encrypt_with hs_keys [0xc0; 0x00; 0x00; 0x00; 0x01] 0xAA 32 "Wave 1 encrypt should succeed with Handshake keys";;
    free_both client_h server_h).

Definition test_1rtt_keys_available : prog world unit :=
  p ← make_conn_pair gen_test_cert h3;
  let '(client_h, server_h) := p in
  q ← run_handshake client_h server_h;
  let '(client_1rtt, _server_1rtt) := q in
  assert_ (0 <? client_1rtt) "expected client 1-RTT keys handle";;
  encrypt_with client_1rtt [0x40; 0x00] 0xBB 16 "Wave 1 encrypt should succeed with 1-RTT keys";;
  free_both client_h server_h.

(** *** 0-RTT keys *)

Definition test_0rtt_keys_unavailable_fresh_session : prog world unit :=
  with_pair (λ client_h server_h,
    rc ← rlsm_quic_conn_zero_rtt_keys client_h p_kh; assert_ (rc =? 1) "expected 1 (unavailable) on fresh session";;
    keys_h ← read_i32 p_kh; assert_ (keys_h =? 0) "keys handle should remain 0 when unavailable";;
    free_both client_h server_h).

Definition test_server_0rtt_keys_unavailable_fresh_session : prog world unit :=
  with_pair (λ _ server_h,
    rc ← rlsm_quic_server_conn_zero_rtt_keys server_h p_kh; assert_ (rc =? 1) "expected 1 (unavailable) on fresh server";;
    keys_h ← read_i32 p_kh; assert_ (keys_h =? -1) "keys handle must be set to -1 when unavailable";;
    rlsm_quic_conn_free server_h;; mret tt).

(** [err_buf] is block 1 of 256 bytes. *)
Definition test_server_0rtt_keys_rejects_client_handle : prog world unit :=
  with_pair (λ client_h server_h,
    rc ← rlsm_quic_server_conn_zero_rtt_keys client_h p_kh; assert_ (rc =? -1) "client handle must be rejected with rc=-1";;
    keys_h ← read_i32 p_kh; assert_ (keys_h =? -1) "keys handle must be -1 on error";;
    modify (set_mem (queries (replicate 256 0) [] 0 0));;
    err_len ← rlsm_last_error (Ptr 1 0) 256;
    assert_ (0 <? err_len) "last_error must be set on client-handle rejection";;
    free_both client_h server_h).

Definition test_server_0rtt_keys_null_out_param : prog world unit :=
  with_pair (λ client_h server_h,
    rc ← rlsm_quic_server_conn_zero_rtt_keys server_h Null; assert_ (rc =? -1) "null out_keys_handle must return -1";;
    free_both client_h server_h).

Definition test_server_0rtt_keys_invalid_handle : prog world unit :=
  modify (set_mem (start []));;
  rc ← rlsm_quic_server_conn_zero_rtt_keys (-99) p_kh; assert_ (rc =? -1) "invalid conn handle must return -1".

(** *** The timings of [read_hs] *)

(** [body] on the handles and the ClientHello. *)
Definition q6_prepare_server_with_client_hello (body : Z → Z → bytes → prog world unit) : prog world unit :=
  with_pair (λ client_h server_h,
    rc ← write_into client_h; assert_ (rc =? 0) "client write_hs failed";;
    client_hello ← to_vec;
    body client_h server_h client_hello).

Definition test_q6_read_hs_both_null_no_crash : prog world unit :=
  q6_prepare_server_with_client_hello (λ client_h server_h client_hello,
    rc ← feed_conn server_h client_hello Null Null; assert_ (rc =? 0) "read_hs with all-NULL out-params should succeed";;
    free_both client_h server_h).

Definition not_max (p : ptr) (msg : string) : prog world unit :=
  us ← read_u64 p; assert_ (negb (us =? u64_MAX)) msg.

Definition test_q6_read_hs_partial_null_writes_only_non_null : prog world unit :=
  q6_prepare_server_with_client_hello (λ client_h server_h client_hello,
    rc ← feed_conn server_h client_hello p_sm Null; assert_ (rc =? 0) "read_hs (sm-only) should succeed";;
    not_max p_sm "sm slot must be written when non-NULL";;
    free_both client_h server_h);;
  q6_prepare_server_with_client_hello (λ client_h server_h client_hello,
    rc ← feed_conn server_h client_hello Null p_lk; assert_ (rc =? 0) "read_hs (lookup-only) should succeed";;
    not_max p_lk "lookup slot must be written when non-NULL";;
    free_both client_h server_h).

Definition test_q6_read_hs_both_non_null_values_reasonable : prog world unit :=
  q6_prepare_server_with_client_hello (λ client_h server_h client_hello,
    rc ← feed_conn server_h client_hello p_sm p_lk; assert_ (rc =? 0) "read_hs (both non-NULL) should succeed";;
    not_max p_sm "sm slot must be written";; not_max p_lk "lookup slot must be written";;
    sm_us ← read_u64 p_sm; assert_ (0 <? sm_us) "state-machine us should be > 0 on a real ClientHello";;
    free_both client_h server_h).

(** [q7_t3a_tests] *)
Definition test_read_hs_null_out_params_no_crash : prog world unit :=
  rc ← rlsm_quic_conn_read_hs (-1) Null 0 Null Null;
  assert_ ((rc =? -1) || (rc =? 0)) "return must be -1 or 0, never a panic".

(** *** Configurations *)

(** [handle_out] starts at -1. *)
Definition test_client_config_new_returns_handle : prog world unit :=
  modify (set_mem (setup_memory gen_test_cert h3 [] (-1) 0 0));;
  rc ← rlsm_quic_client_config_new (Ptr 3 0) (as_i32 (zlen h3)) (Ptr 1 0); assert_ (rc =? 0) "client config creation failed";;
  handle_out ← read_i32 (Ptr 1 0); assert_ (0 <? handle_out) "expected positive handle".

Definition test_server_config_new_returns_handle : prog world unit :=
  modify (set_mem (setup_memory gen_test_cert h3 [] (-1) 0 0));;
  rc ← server_config_new gen_test_cert h3 0; assert_ (rc =? 0) "server config creation failed";;
  handle_out ← read_i32 (Ptr 1 0); assert_ (0 <? handle_out) "expected positive handle".

(** The certificate is made once, before the loop. *)
Definition test_server_config_new_rejects_illegal_max_early_data : prog world unit :=
  foldr (λ illegal rest,
    modify (set_mem (setup_memory gen_test_cert h3 [] (-1) 0 0));;
    rc ← server_config_new gen_test_cert h3 illegal;
    assert_ (rc =? -1) "illegal max_early_data must be rejected at FFI boundary";;
    handle_out ← read_i32 (Ptr 1 0); assert_ (handle_out =? -1) "handle untouched on rejection";;
    rest) (mret tt) [1; 100; 0x7FFFFFFF; 0xFFFFFFFE].

Definition test_server_config_new_accepts_u32_max : prog world unit :=
  modify (set_mem (setup_memory gen_test_cert h3 [] (-1) 0 (-1)));;
  rc ← server_config_new gen_test_cert h3 u32_max; assert_ (rc =? 0) "max_early_data=u32::MAX must succeed";;
  handle_out ← read_i32 (Ptr 1 0); assert_ (0 <? handle_out) "handle must be positive on success";;
  rc2 ← rlsm_quic_server_conn_new handle_out 1 (Ptr 5 0) 0 (Ptr 3 0);
  assert_ (rc2 =? 0) "ServerConnection::new must accept the u32::MAX config";;
  server_h ← read_i32 (Ptr 3 0); assert_ (0 <? server_h) "server_h";;
  rlsm_quic_conn_free server_h;; mret tt.
End Tests.
End ConnTests.
