(* ===== verification/ConnTestsFacts.v ===== *)
(** * The unit tests of quic_hs.rs pass

    What the tests of [ConnTests] ask of the certificate ([CertWorks]) and of the
    connections rustls makes ([PairWorks]), the calls of the shim on the locals of
    a test as equations, and the theorem that the tests then pass. *)

From S2P Require Import Prelude Effects Handles Rustls World Frames Toy Utf8 QuicKeys QuicKeysFacts.
From S2P Require Import QuicHs QuicHsFacts Loopback ConnTests.
Import Effects Handles Rustls World Frames Toy Utf8 QuicKeys QuicKeysFacts QuicHs QuicHsFacts Loopback ConnTests.

Module ConnTestsFacts.

(** What the certificate gives: a chain and a key a server configuration is built
    from, and a root the client can trust. *)
Class CertWorks (R : Rustls) (g : bytes * bytes * cert) := {
  cw_chain : cert; cw_rest : list cert; cw_key : private_key; cw_config : server_config;
  cw_ticketed : server_config → server_config; cw_roots : root_store; cw_name : server_name;
  cw_sizes : zlen g.1.1 ≤ i32_max ∧ zlen g.1.2 ≤ i32_max;
  cw_certs : pem_certs g.1.1 = inr (cw_chain :: cw_rest);
  cw_private : pem_private_key g.1.2 = inr (Some cw_key);
  cw_build : server_config_build true (cw_chain :: cw_rest) cw_key = inr cw_config;
  cw_ticketer : ∀ cfg, server_config_set_ticketer cfg = inr (cw_ticketed cfg);
  cw_root : root_store_add root_store_empty g.2 = inr cw_roots;
  cw_localhost : server_name_try_from localhost = Some cw_name;
}.

Section SetupFacts.
Context {R : Rustls} (g : bytes * bytes * cert) `{!CertWorks R g}.

Definition test_server_config (alpn : bytes) (early : Z) : server_config :=
  let config := server_config_set_alpn (server_config_set_key_log cw_config) [alpn] in
  server_config_set_max_early_data (if early =? 0 then cw_ticketed config else config) early.

Definition test_client_config (alpn : bytes) : client_config :=
  client_config_set_alpn (client_config_build true cw_roots) [alpn].

Abbreviation setup alpn tp h ch sh w := (set_mem (setup_memory g alpn tp h ch sh) w).

Lemma write_handle alpn tp h ch sh b x w :
  (b = 1 ∨ b = 2 ∨ b = 3)%N →
  write_i32 (Ptr b 0) x (setup alpn tp h ch sh w) =
  Ret tt (if decide (b = 1%N) then setup alpn tp x ch sh w else
          if decide (b = 2%N) then setup alpn tp h x sh w else setup alpn tp h ch x w).
Proof.
  intros [-> |[-> | ->]].
  - by rewrite (write_i32_ok _ _ _ {[ 1%N := [x]; 2%N := [ch]; 3%N := [sh] ]}).
  - by rewrite (write_i32_ok _ _ _ {[ 1%N := [h]; 2%N := [x]; 3%N := [sh] ]}).
  - by rewrite (write_i32_ok _ _ _ {[ 1%N := [h]; 2%N := [ch]; 3%N := [x] ]}).
Qed.

Lemma read_block alpn tp h ch sh (b : N) l w :
  m_u8 (setup_memory g alpn tp h ch sh) !! b = Some l → zlen l ≤ i32_max →
  read_u8 (Ptr b 0) (as_usize (as_i32 (zlen l))) (setup alpn tp h ch sh w) = Ret l (setup alpn tp h ch sh w).
Proof.
  intros Hb Hl. pose proof (zlen_nonneg l).
  rewrite as_i32_id, as_usize_nonneg_i32 by (unfold in_i32, i32_min in *; lia).
  apply read_u8_ok. unfold load. change (w_mem (setup alpn tp h ch sh w)) with (setup_memory g alpn tp h ch sh).
  rewrite Hb. rewrite (proj2 (fits_spec _ _ _)) by lia. by rewrite sub_all.
Qed.

Lemma server_config_new_ok alpn tp early h ch sh w :
  zlen alpn ≤ i32_max → early = 0 ∨ early = u32_max → 0 < w_next w < i32_max →
  server_config_new g alpn early (setup alpn tp h ch sh w) =
  Ret 0 (setup alpn tp (w_next w) ch sh
    (set_qcfg_server (<[w_next w := test_server_config alpn early]> (w_qcfg_server w))
       (set_next (w_next w + 1) (set_error None w)))).
Proof.
  intros Ha Hearly Hn. destruct cw_sizes as [Hs1 Hs2].
  unfold server_config_new, rlsm_quic_server_config_new, insert_out. run. cbn [is_null].
  assert (Hpos : ∀ l : bytes, zlen l ≤ i32_max → (as_i32 (zlen l) <? 0) = false).
  { intros l Hl. pose proof (zlen_nonneg l). rewrite as_i32_id by (unfold in_i32, i32_min in *; lia).
    by apply Z.ltb_ge. }
  rewrite !Hpos by done.
  assert (negb (early =? 0) && negb (early =? u32_max) = false) as -> by (by destruct Hearly as [-> | ->]).
  change (set_error None (setup alpn tp h ch sh w)) with (setup alpn tp h ch sh (set_error None w)).
  cbv beta iota. rewrite (read_block _ _ _ _ _ 1 g.1.1) by done.
  cbv beta iota. rewrite (read_block _ _ _ _ _ 2 g.1.2) by done.
  cbv beta iota. rewrite (read_block _ _ _ _ _ 3 alpn) by done.
  cbv beta iota. rewrite cw_certs, cw_private, cw_build.
  assert (Ht : (if early =? 0
                then server_config_set_ticketer (server_config_set_alpn (server_config_set_key_log cw_config) [alpn])
                else inr (server_config_set_alpn (server_config_set_key_log cw_config) [alpn])) =
               inr (if early =? 0 then cw_ticketed (server_config_set_alpn (server_config_set_key_log cw_config) [alpn])
                    else server_config_set_alpn (server_config_set_key_log cw_config) [alpn]) :> error + server_config).
  { rewrite cw_ticketer. by case_if. }
  cbv zeta. rewrite Ht. rewrite (insert_pos quic_server_cfg_table) by (simpl; lia).
  change (counter (setup alpn tp h ch sh (set_error None w))) with (w_next w).
  rewrite as_i32_id by (unfold in_i32, i32_min in *; lia). cbv beta iota.
  match goal with |- context [write_i32 _ _ ?w1] => change w1 with
    (setup alpn tp h ch sh (set_qcfg_server (<[w_next w := test_server_config alpn early]> (w_qcfg_server w))
       (set_next (w_next w + 1) (set_error None w)))) end.
  rewrite write_handle by auto. done.
Qed.

(** The parameters of a connection, empty or not. *)
Lemma read_tp alpn tp h ch sh w : zlen tp ≤ i32_max →
  (if as_i32 (zlen tp) =? 0 then mret [] else read_u8 (Ptr 5 0) (as_usize (as_i32 (zlen tp)))) (setup alpn tp h ch sh w) =
  Ret tp (setup alpn tp h ch sh w).
Proof.
  intros Ht. pose proof (zlen_nonneg tp). case_if; [|by apply (read_block _ _ _ _ _ 5)].
  breflect. rewrite as_i32_id in * by (unfold in_i32, i32_min in *; lia).
  destruct tp; [done|]. rewrite zlen_cons in *. pose proof (zlen_nonneg tp). lia.
Qed.

Lemma as_i32_zlen_pos (l : bytes) : zlen l ≤ i32_max → (as_i32 (zlen l) <? 0) = false.
Proof.
  intros Hl. pose proof (zlen_nonneg l). rewrite as_i32_id by (unfold in_i32, i32_min in *; lia). by apply Z.ltb_ge.
Qed.

Lemma client_conn_new_ok alpn tp h ch sh cfg c w :
  zlen tp ≤ i32_max → 0 < w_next w < i32_max → w_qcfg_client w !! cfg = Some (test_client_config alpn) →
  qclient_new (test_client_config alpn) V1 cw_name tp = inr c →
  rlsm_quic_client_conn_new cfg 1 (Ptr 4 0) (as_i32 (zlen localhost)) (Ptr 5 0) (as_i32 (zlen tp)) (Ptr 2 0)
    (setup alpn tp h ch sh w) =
  Ret 0 (setup alpn tp h (w_next w) sh
    (set_qconn (<[w_next w := new_entry (QuicClient c)]> (w_qconn w)) (set_next (w_next w + 1) (set_error None w)))).
Proof.
  intros Ht Hn Hc Hq. unfold rlsm_quic_client_conn_new, insert_out. run. cbn [is_null].
  rewrite (as_i32_zlen_pos tp Ht), andb_false_r. change (as_i32 (zlen localhost) <? 0) with false. cbv beta iota.
  change (to_quic_version 1) with (inr V1 : string + QuicVersion). cbv beta iota.
  change (set_error None (setup alpn tp h ch sh w)) with (setup alpn tp h ch sh (set_error None w)).
  rewrite (read_block _ _ _ _ _ 4 localhost) by done. cbv beta iota. rewrite read_tp by done. cbv beta iota.
  change (from_utf8 localhost) with (None : option Utf8Error). cbv beta iota. rewrite cw_localhost.
  rewrite (with_Some quic_client_cfg_table cfg _ _ (test_client_config alpn)) by done. cbv beta iota. rewrite Hq.
  rewrite (insert_pos quic_conn_table) by (simpl; lia).
  change (counter (setup alpn tp h ch sh (set_error None w))) with (w_next w).
  rewrite as_i32_id by (unfold in_i32, i32_min in *; lia). cbv beta iota.
  match goal with |- context [write_i32 _ _ ?w1] => change w1 with
    (setup alpn tp h ch sh (set_qconn (<[w_next w := new_entry (QuicClient c)]> (w_qconn w))
       (set_next (w_next w + 1) (set_error None w)))) end.
  rewrite write_handle by auto. done.
Qed.

Lemma server_conn_new_ok alpn tp h ch sh hc cfg s w :
  zlen tp ≤ i32_max → 0 < w_next w < i32_max → w_qcfg_server w !! hc = Some cfg →
  qserver_new cfg V1 tp = inr s →
  rlsm_quic_server_conn_new hc 1 (Ptr 5 0) (as_i32 (zlen tp)) (Ptr 3 0) (setup alpn tp h ch sh w) =
  Ret 0 (setup alpn tp h ch (w_next w)
    (set_qconn (<[w_next w := new_entry (QuicServer s)]> (w_qconn w)) (set_next (w_next w + 1) (set_error None w)))).
Proof.
  intros Ht Hn Hc Hq. unfold rlsm_quic_server_conn_new, insert_out. run. cbn [is_null].
  rewrite (as_i32_zlen_pos tp Ht), andb_false_r. cbv beta iota.
  change (to_quic_version 1) with (inr V1 : string + QuicVersion). cbv beta iota.
  change (set_error None (setup alpn tp h ch sh w)) with (setup alpn tp h ch sh (set_error None w)).
  rewrite read_tp by done. cbv beta iota.
  rewrite (with_Some quic_server_cfg_table hc _ _ cfg) by done. cbv beta iota. rewrite Hq.
  rewrite (insert_pos quic_conn_table) by (simpl; lia).
  change (counter (setup alpn tp h ch sh (set_error None w))) with (w_next w).
  rewrite as_i32_id by (unfold in_i32, i32_min in *; lia). cbv beta iota.
  match goal with |- context [write_i32 _ _ ?w1] => change w1 with
    (setup alpn tp h ch sh (set_qconn (<[w_next w := new_entry (QuicServer s)]> (w_qconn w))
       (set_next (w_next w + 1) (set_error None w)))) end.
  rewrite write_handle by auto. done.
Qed.

(** A fresh pair: two handles with the new connections of both sides. *)
Record fresh_pair (c : qclient) (s : qserver) (ch sh n : Z) (w w' : world) : Prop := {
  fp_next : w_next w' = n; fp_handles : 0 < ch ∧ ch < sh < n; fp_keys : w_keys w' = w_keys w;
  fp_elapsed : w_elapsed_us w' = w_elapsed_us w;
  fp_client : w_qconn w' !! ch = Some (new_entry (QuicClient c));
  fp_server : w_qconn w' !! sh = Some (new_entry (QuicServer s));
}.

Lemma conn_pair_ok which alpn tp c s w :
  zlen alpn ≤ i32_max → zlen tp ≤ i32_max → 0 < w_next w → w_next w + 4 ≤ i32_max →
  qclient_new (test_client_config alpn) V1 cw_name tp = inr c →
  qserver_new (test_server_config alpn 0) V1 tp = inr s →
  ∃ ch sh w', conn_pair g which alpn tp w = Ret (ch, sh) w' ∧ fresh_pair c s ch sh (w_next w + 4) w w'.
Proof.
  intros Ha Ht Hn Hmax Hc Hs. unfold conn_pair.
  rewrite (bind_Ret (modify _) _ w tt (setup alpn tp 0 0 0 w)) by done.
  pose proof (server_config_new_ok alpn tp 0 0 0 0 w Ha (or_introl eq_refl) ltac:(lia)) as E1.
  set (w1 := set_qcfg_server _ _) in E1. set (n := w_next w) in *.
  assert (E2 : make_server_cfg g alpn (setup alpn tp 0 0 0 w) = Ret (n, g.2) (setup alpn tp n 0 0 w1)).
  { unfold make_server_cfg. by rewrite (bind_Ret _ _ _ _ _ E1). }
  rewrite (bind_Ret _ _ _ _ _ E2). cbv beta iota.
  set (w2 := set_qcfg_client (<[n + 1 := test_client_config alpn]> (w_qcfg_client w)) (set_next (n + 1 + 1) w1)).
  assert (E3 : make_test_client_config g.2 alpn (setup alpn tp n 0 0 w1) = Ret (n + 1) (setup alpn tp n 0 0 w2)).
  { unfold make_test_client_config. rewrite cw_root. cbv zeta.
    assert (Hn1 : 0 < counter (setup alpn tp n 0 0 w1)) by (change (0 < n + 1); lia).
    rewrite (bind_Ret _ _ _ _ _ (insert_pos quic_client_cfg_table _ _ Hn1)).
    change (counter (setup alpn tp n 0 0 w1)) with (n + 1).
    by rewrite as_i32_id by (unfold in_i32, i32_min in *; lia). }
  rewrite (bind_Ret _ _ _ _ _ E3).
  rewrite (bind_Ret _ _ _ _ _ (client_conn_new_ok alpn tp n 0 0 (n + 1) c w2 Ht ltac:(unfold w2; simpl; lia) (lookup_insert_eq _ _ _) Hc)).
  rewrite assert_pass. set (w3 := set_qconn _ _).
  rewrite (bind_Ret _ _ _ _ _ (server_conn_new_ok alpn tp n (w_next w2) 0 n _ s w3 Ht ltac:(unfold w3, w2; simpl; lia) (lookup_insert_eq _ _ _) Hs)).
  rewrite assert_pass. eexists _, _, _. split; [done|].
  split; simpl; [lia|lia|done|done|rewrite lookup_insert_ne by lia; apply lookup_insert_eq|apply lookup_insert_eq].
Qed.

End SetupFacts.

(** ** The calls on the locals *)

Section Calls.
Context {R : Rustls}.

Abbreviation frame b k v wr kh kh2 sm lk w := (set_mem (vars b k v wr kh kh2 sm lk) w).

Lemma load_front {A} (m : gmap N (list A)) b l n :
  m !! b = Some l → 0 ≤ n ≤ zlen l → load m (Ptr b 0) n = Some (sub 0 n l).
Proof. intros Hb Hn. unfold load. rewrite Hb. by rewrite (proj2 (fits_spec _ _ _)) by lia. Qed.

Lemma store_front {A} (m : gmap N (list A)) b l x :
  m !! b = Some l → zlen x ≤ zlen l → store m (Ptr b 0) x = Some (<[b := splice 0 x l]> m).
Proof.
  intros Hb Hn. unfold store. rewrite Hb. by rewrite (proj2 (fits_spec _ _ _)) by (pose proof (zlen_nonneg x); lia).
Qed.

Lemma write_buf3 b k v wr kh kh2 sm lk x w :
  zlen x ≤ zlen b →
  write_u8 p_buf x (frame b k v wr kh kh2 sm lk w) = Ret tt (frame (splice 0 x b) k v wr kh kh2 sm lk w).
Proof.
  intros Hx. by rewrite (write_u8_ok _ _ _ {[ 1%N := splice 0 x b; 2%N := [k]; 3%N := v ]}) by (unfold p_buf; by rewrite (store_front _ _ b)).
Qed.

Lemma write_into_ok h e c' x kc b k v wr kh kh2 sm lk w :
  w_qconn w !! h = Some e → pending e = None → conn_write_hs (conn e) = (c', x, kc) →
  zlen x ≤ 4096 → zlen b = 4096 →
  write_into h (frame b k v wr kh kh2 sm lk w) =
  Ret 0 (frame (splice 0 x b) (kind_of kc) v (zlen x) kh kh2 sm lk
           (set_qconn (<[h := (record_key_change (with_conn e c') kc).1]> (w_qconn w)) (set_error None w))).
Proof.
  intros He Hp Hw Hx Hb. unfold write_into, rlsm_quic_conn_write_hs, or_invalid. run.
  change (is_null p_buf) with false. change (is_null p_written) with false.
  change (is_null p_kc) with false. change (4096 <? 0) with false. cbv beta iota.
  rewrite (with_mut_Some quic_conn_table h _ _ e) by done. rewrite Hp, Hw.
  change (as_usize 4096) with 4096. rewrite (proj2 (Z.ltb_ge _ _)) by done.
  change (set_error None (frame b k v wr kh kh2 sm lk w)) with (frame b k v wr kh kh2 sm lk (set_error None w)).
  rewrite write_buf3 by lia. cbv beta iota.
  rewrite as_i32_id by (pose proof (zlen_nonneg x); unfold in_i32, i32_min, i32_max; lia).
  destruct (record_key_change (with_conn e c') kc) as [e' n] eqn:Hr.
  assert (Hn : n = kind_of kc) by (destruct kc as [[]|]; simpl in Hr; by simplify_eq). by subst n.
Qed.

Lemma write_into_pending h e p w : w_qconn w !! h = Some e → pending e = Some p →
  write_into h w = Ret (-1) (set_error (Some write_hs_pending_msg) w).
Proof. intros He Hp. by apply (write_hs_pending w h e p). Qed.

Lemma to_vec_ok x b k v kh kh2 sm lk w :
  zlen x ≤ 4096 → zlen b = 4096 →
  to_vec (frame (splice 0 x b) k v (zlen x) kh kh2 sm lk w) =
  Ret x (frame (splice 0 x b) k x (zlen x) kh kh2 sm lk w).
Proof.
  intros Hx Hb. pose proof (zlen_nonneg x). unfold to_vec.
  rewrite (bind_Ret _ _ _ _ _ (read_i32_ok (frame (splice 0 x b) k v (zlen x) kh kh2 sm lk w) p_written (zlen x) eq_refl)). cbv zeta.
  rewrite as_usize_nonneg_i32 by (unfold in_i32, i32_min, i32_max; lia).
  rewrite (proj2 (Z.ltb_ge _ _)) by lia.
  erewrite bind_Ret; [|apply (read_u8_ok _ p_buf (zlen x) x)]; [done|]. unfold p_buf.
  rewrite (load_front _ _ (splice 0 x b)) by (done || rewrite zlen_splice; lia).
  by rewrite sub_splice_same by (apply fits_spec; lia).
Qed.

(** What a clock reading leaves. *)
Definition reading (w : world) : Z := default 0 (head (w_elapsed_us w)).
Definition ticked (w : world) : world := set_elapsed (tail (w_elapsed_us w)) w.

Lemma elapsed_us_eq w : elapsed_us w = Ret (reading w) (ticked w).
Proof. unfold elapsed_us, reading, ticked. destruct w; simpl. by case_match. Qed.

Lemma feed_ok h e c' x u p q b k wr kh kh2 sm lk w :
  w_qconn w !! h = Some e → conn_read_hs (conn e) x = (c', inr u) → nonempty x = true → zlen x ≤ i32_max →
  p = Null ∨ p = p_sm → q = Null ∨ q = p_lk →
  feed_conn h x p q (frame b k x wr kh kh2 sm lk w) =
  Ret 0 (frame b k x wr kh kh2 (if is_null p then sm else as_u64 (reading (ticked w)))
           (if is_null q then lk else as_u64 (reading w))
           (set_qconn (<[h := with_conn (capture_client_random e x) c']> (w_qconn w)) (set_error None (ticked (ticked w))))).
Proof.
  intros He Hr Hne Hx Hp Hq. pose proof (zlen_nonneg x).
  assert (Hpos : 0 < zlen x) by (destruct x; [done|]; rewrite zlen_cons; pose proof (zlen_nonneg x); lia).
  unfold feed_conn, rlsm_quic_conn_read_hs, or_invalid. run. cbn [is_null andb].
  rewrite as_i32_id by (unfold in_i32, i32_min in *; lia).
  rewrite (proj2 (Z.ltb_ge _ _)), (proj2 (Z.eqb_neq _ _)) by lia. cbv beta iota.
  rewrite as_usize_nonneg_i32 by (unfold in_i32, i32_min in *; lia).
  rewrite (read_u8_ok _ p_hello (zlen x) x).
  2: { rewrite (load_front _ _ x) by (done || lia). by rewrite sub_all. }
  rewrite (with_mut_Some quic_conn_table h _ _ e) by done. rewrite elapsed_us_eq.
  change (ticked (set_error None (frame b k x wr kh kh2 sm lk w))) with (frame b k x wr kh kh2 sm lk (set_error None (ticked w))).
  change (reading (set_error None (frame b k x wr kh kh2 sm lk w))) with (reading w).
  destruct Hq as [-> | ->]; cbn [is_null];
    [|rewrite (write_u64_ok _ _ _ {[ 1%N := [sm]; 2%N := [as_u64 (reading w)] ]}) by done];
    rewrite capture_keeps_conn, Hr, elapsed_us_eq; destruct Hp as [-> | ->]; reflexivity.
Qed.

Lemma take_keys3 h e n l r b k v wr kh kh2 sm lk w :
  w_qconn w !! h = Some e → pending e = Some (n, (l, r)) → 0 < w_next w < i32_max →
  rlsm_quic_conn_take_keys h p_kh (frame b k v wr kh kh2 sm lk w) =
  Ret 0 (frame b k v wr (w_next w) kh2 sm lk
           (set_qconn (<[h := with_pending e None]> (w_qconn w))
              (set_keys (<[w_next w := {| local := l; remote := r; last_local_pn := None |}]> (w_keys w))
                 (set_next (w_next w + 1) (set_error None w))))).
Proof.
  intros He Hp Hn. unfold rlsm_quic_conn_take_keys, or_invalid. run. change (is_null p_kh) with false. cbv beta iota.
  rewrite (with_mut_Some quic_conn_table h _ _ e) by done. rewrite Hp.
  rewrite (insert_pos keys_table) by (simpl; lia).
  change (counter (set_error None (frame b k v wr kh kh2 sm lk w))) with (w_next w).
  by rewrite as_i32_id by (unfold in_i32, i32_min in *; lia).
Qed.

Lemma conn_free_eq h w :
  rlsm_quic_conn_free h w =
  match w_qconn w !! h with
  | Some _ => Ret 0 (set_qconn (delete h (w_qconn w)) (set_error None w))
  | None => Ret (-1) (set_error (Some "rlsm_quic_conn_free: invalid conn handle"%string)
                        (set_qconn (delete h (w_qconn w)) (set_error None w)))
  end.
Proof. unfold rlsm_quic_conn_free. run. rewrite remove_eq. simpl. by destruct (w_qconn w !! h). Qed.

Lemma conn_free_some h e w : w_qconn w !! h = Some e →
  rlsm_quic_conn_free h w = Ret 0 (set_qconn (delete h (w_qconn w)) (set_error None w)).
Proof. intros He. by rewrite conn_free_eq, He. Qed.

Lemma conn_free_none h w : w_qconn w !! h = None →
  ∃ w', rlsm_quic_conn_free h w = Ret (-1) w' ∧ w_qconn w' = delete h (w_qconn w).
Proof. intros He. rewrite conn_free_eq, He. by eexists. Qed.

Lemma free_both_ok ch sh w :
  ∃ w', free_both ch sh w = Ret tt w' ∧ w_next w' = w_next w ∧ w_elapsed_us w' = w_elapsed_us w.
Proof.
  unfold free_both. run. rewrite conn_free_eq. destruct (w_qconn w !! ch); rewrite conn_free_eq; destruct (w_qconn _ !! sh); by eexists.
Qed.

Lemma free_both_ret ch sh w : ∃ w', free_both ch sh w = Ret tt w'.
Proof. destruct (free_both_ok ch sh w) as (w' & E & _). by exists w'. Qed.

(** The first flights of a pair. *)
Record first_exchange (c : qclient) (s : qserver) (hello v : bytes) (l r : hkey * pkey) : Prop := {
  fe_client : ∃ c1, qclient_write_hs c = (c1, hello, None);
  fe_hello : nonempty hello = true; fe_hello_len : zlen hello ≤ 4096;
  fe_server : ∃ s1 s2 u, qserver_read_hs s hello = (s1, inr u) ∧ qserver_write_hs s1 = (s2, v, Some (Handshake l r));
  fe_flight_len : zlen v ≤ 4096;
}.

Lemma first_calls c s hello v l r ch sh w :
  first_exchange c s hello v l r → ch ≠ sh →
  w_qconn w !! ch = Some (new_entry (QuicClient c)) → w_qconn w !! sh = Some (new_entry (QuicServer s)) →
  ∃ w1 w2 w3 w4 w5 b wv,
    write_into ch (set_mem (start []) w) = Ret 0 w1 ∧ to_vec w1 = Ret hello w2 ∧
    feed_conn sh hello Null Null w2 = Ret 0 w3 ∧ reset w3 = Ret tt w4 ∧ write_into sh w4 = Ret 0 w5 ∧
    (∀ msg, kc_is 1 msg w5 = Ret tt w5) ∧
    w5 = frame b 1 hello (zlen v) 0 0 u64_MAX u64_MAX wv ∧ zlen b = 4096 ∧
    (∃ e, w_qconn wv !! sh = Some e ∧ pending e = Some (1, (wrap_keys l, wrap_keys r))) ∧
    is_Some (w_qconn wv !! ch) ∧ w_next wv = w_next w ∧ w_keys wv = w_keys w.
Proof.
  intros [[c1 F1] F2 F3 (s1 & s2 & u & F4 & F5) F6] Hne Hc Hs.
  assert (Hb : zlen (replicate 4096 0) = 4096) by (by rewrite zlen_replicate).
  pose proof (write_into_ok ch _ (QuicClient c1) hello None _ 0 [] 0 0 0 u64_MAX u64_MAX w Hc eq_refl
    ltac:(simpl; by rewrite F1) F3 Hb) as E1. set (b1 := splice 0 hello _) in E1. set (wa := set_qconn _ _) in E1.
  assert (Hb1 : zlen b1 = 4096) by (unfold b1; rewrite zlen_splice; lia).
  pose proof (to_vec_ok hello (replicate 4096 0) 0 [] 0 0 u64_MAX u64_MAX wa F3 Hb) as E2.
  assert (Hs1 : w_qconn wa !! sh = Some (new_entry (QuicServer s))) by (simpl; by rewrite lookup_insert_ne).
  pose proof (feed_ok sh _ (QuicServer s1) hello u Null Null b1 0 (zlen hello) 0 0 u64_MAX u64_MAX wa Hs1
    ltac:(simpl; by rewrite F4) F2 ltac:(unfold i32_max; lia) ltac:(by left) ltac:(by left)) as E3.
  cbn [is_null] in E3. set (wb := set_qconn _ _) in E3.
  assert (Hs2 : w_qconn wb !! sh = Some (with_conn (capture_client_random (new_entry (QuicServer s)) hello) (QuicServer s1)))
    by apply lookup_insert_eq.
  pose proof (write_into_ok sh _ (QuicServer s2) v (Some (Handshake l r)) b1 0 hello 0 0 0 u64_MAX u64_MAX wb Hs2
    ltac:(simpl; by rewrite capture_keeps_pending) ltac:(simpl; by rewrite F5) F6 Hb1) as E5.
  set (wc := set_qconn _ (set_error None wb)) in E5.
  eexists _, _, _, _, _, _, wc. split; [exact E1|]. split; [exact E2|]. split; [exact E3|]. split; [reflexivity|].
  split; [exact E5|]. split_and!; try done.
  - rewrite zlen_splice; lia.
  - eexists. split; [apply lookup_insert_eq|done].
  - unfold wc. simpl. rewrite !lookup_insert_ne by done. unfold wa. simpl. by rewrite lookup_insert_eq.
Qed.

Lemma first_flights_ok c s hello v l r ch sh w :
  first_exchange c s hello v l r → ch ≠ sh →
  w_qconn w !! ch = Some (new_entry (QuicClient c)) → w_qconn w !! sh = Some (new_entry (QuicServer s)) →
  ∃ b wv, first_flights ch sh (set_mem (start []) w) = Ret tt (frame b 1 hello (zlen v) 0 0 u64_MAX u64_MAX wv) ∧
    zlen b = 4096 ∧ (∃ e, w_qconn wv !! sh = Some e ∧ pending e = Some (1, (wrap_keys l, wrap_keys r))) ∧
    is_Some (w_qconn wv !! ch) ∧ w_next wv = w_next w ∧ w_keys wv = w_keys w.
Proof.
  intros Hf Hne Hc Hs.
  destruct (first_calls c s hello v l r ch sh w Hf Hne Hc Hs) as
    (w1 & w2 & w3 & w4 & w5 & b & wv & E1 & E2 & E3 & E4 & E5 & E6 & -> & H).
  exists b, wv. split; [|done]. unfold first_flights.
  rewrite (bind_Ret _ _ _ _ _ E1), assert_pass, (bind_Ret _ _ _ _ _ E2), (bind_Ret _ _ _ _ _ E3), assert_pass.
  by rewrite (bind_Ret _ _ _ _ _ E4), (bind_Ret _ _ _ _ _ E5), assert_pass, E6.
Qed.
End Calls.

(** ** What rustls must do

    For the configurations of the tests: connections are made; the first flights
    go as in TLS 1.3, a message that is none is refused; before the peer's hello
    there are no parameters of it, and with no ticket no 0-RTT keys; the exchange
    ends within the rounds of the driver, each side with 1-RTT keys, the protocol
    and the parameters of the peer; keys encrypt short packets with a tag of 16. *)
Class PairWorks (R : Rustls) (g : bytes * bytes * cert) `{!CertWorks R g} := {
  pw_client : bytes → qclient; pw_server : bytes → qserver; pw_early : qserver;
  pw_client_new tp : qclient_new (test_client_config g h3) V1 cw_name tp = inr (pw_client tp);
  pw_server_new tp : qserver_new (test_server_config g h3 0) V1 tp = inr (pw_server tp);
  pw_early_new : qserver_new (test_server_config g h3 u32_max) V1 [] = inr pw_early;
  pw_first : ∃ hello v l r, first_exchange (pw_client []) (pw_server []) hello v l r;
  pw_garbage : ∃ s e, qserver_read_hs (pw_server []) garbage = (s, inl e) ∧ 0 ≤ default 50 (qserver_alert s);
  pw_no_tp : qserver_transport_parameters (pw_server []) = None;
  pw_no_zero_rtt : qclient_zero_rtt_keys (pw_client []) = None ∧ qserver_zero_rtt_keys (pw_server []) = None;
  pw_rounds : bytes → list round;
  pw_exchange tp : exchange 20 (pw_client tp) (pw_server tp) = Some (pw_rounds tp) ∧ Forall small (pw_rounds tp);
  pw_keys tp : is_Some (last_one_rtt client_change (pw_rounds tp)) ∧ is_Some (last_one_rtt server_change (pw_rounds tp));
  pw_alpn tp : let '(c, s) := ends (pw_rounds tp) (pw_client tp) (pw_server tp) in
    qclient_alpn_protocol c = Some h3 ∧ qserver_alpn_protocol s = Some h3;
  pw_tp : let '(c, s) := ends (pw_rounds test_tp) (pw_client test_tp) (pw_server test_tp) in
    ∃ p q, qclient_transport_parameters c = Some p ∧ qserver_transport_parameters s = Some q ∧
      0 < zlen p ≤ 1024 ∧ 0 < zlen q ≤ 1024;
  pw_encrypts k hdr pt : zlen pt ≤ 1024 → ∃ ct tag, pkey_encrypt_in_place k 0 hdr pt = (ct, inr tag) ∧ zlen tag = 16;
}.

Section Passes.
Context {R : Rustls} {L : RustlsLaws R} (g : bytes * bytes * cert) `{!CertWorks R g, !PairWorks R g}.

Abbreviation room w := (0 < w_next w ∧ w_next w + 50 ≤ i32_max) (only parsing).
Abbreviation passes test w := (∃ w', test w = Ret tt w').
Abbreviation frame b k v wr kh kh2 sm lk w := (set_mem (vars b k v wr kh kh2 sm lk) w).

Lemma with_pair_ok w :
  room w → ∃ ch sh w', (∀ body, with_pair g body w = body ch sh (set_mem (start []) w')) ∧
    fresh_pair (pw_client []) (pw_server []) ch sh (w_next w + 4) w w'.
Proof.
  intros [Hn Hmax].
  destruct (conn_pair_ok g "" h3 [] (pw_client []) (pw_server []) w) as (ch & sh & w' & E & H); try done; try lia;
    [apply pw_client_new|apply pw_server_new|].
  exists ch, sh, w'. split; [|done]. intros body. unfold with_pair, make_conn_pair. by rewrite (bind_Ret _ _ _ _ _ E).
Qed.

Lemma pair_flights w :
  room w → ∃ ch sh hello n b l r wv e,
    (∀ k, with_pair g (λ c s, first_flights c s;; k c s) w = k ch sh (frame b 1 hello n 0 0 u64_MAX u64_MAX wv)) ∧
    ch ≠ sh ∧ w_qconn wv !! sh = Some e ∧ pending e = Some (1, (wrap_keys l, wrap_keys r)) ∧
    is_Some (w_qconn wv !! ch) ∧ 0 < w_next wv < i32_max.
Proof.
  intros Hr. destruct (with_pair_ok w Hr) as (ch & sh & w' & E & [Hn Hh Hk Hel Hc Hs]).
  destruct pw_first as (hello & v & l & r & Hf).
  destruct (first_flights_ok _ _ hello v l r ch sh w' Hf) as (b & wv & E1 & Hb & (e & He & Hp) & Hch & N & K); try done; [lia|].
  exists ch, sh, hello, (zlen v), b, l, r, wv, e. split_and!; try done; try lia.
  intros k. by rewrite E, (bind_Ret _ _ _ _ _ E1).
Qed.

Lemma pending_write_test w : room w → passes (test_write_hs_with_pending_key_returns_error g) w.
Proof.
  intros Hr. unfold test_write_hs_with_pending_key_returns_error.
  destruct (pair_flights w Hr) as (ch & sh & hello & n & b & l & r & wv & e & -> & Hne & He & Hp & _).
  rewrite (bind_Ret reset _ _ tt (frame b 0 hello 0 0 0 u64_MAX u64_MAX wv)) by done.
  rewrite (bind_Ret _ _ _ _ _ (write_into_pending sh e _ (frame b 0 hello 0 0 0 u64_MAX u64_MAX wv) He Hp)).
  rewrite assert_pass. apply free_both_ret.
Qed.

Lemma pending_free_test w : room w → passes (test_conn_free_with_pending_key_returns_ok g) w.
Proof.
  intros Hr. unfold test_conn_free_with_pending_key_returns_ok.
  destruct (pair_flights w Hr) as (ch & sh & hello & n & b & l & r & wv & e & -> & Hne & He & Hp & [e' He'] & _).
  rewrite (bind_Ret _ _ _ _ _ (conn_free_some sh e (frame b 1 hello n 0 0 u64_MAX u64_MAX wv) He)), assert_pass.
  set (wf := set_qconn _ _). destruct (conn_free_none sh wf) as (w2 & E2 & Q2); [apply lookup_delete_eq|].
  rewrite (bind_Ret _ _ _ _ _ E2), assert_pass.
  rewrite (bind_Ret _ _ _ _ _ (conn_free_some ch e' w2 ltac:(rewrite Q2; simpl; by rewrite !lookup_delete_ne by done))).
  by eexists.
Qed.

Lemma bad_read_test w : room w → passes (test_alert_on_bad_read_hs g) w.
Proof.
  intros Hr. unfold test_alert_on_bad_read_hs.
  destruct (with_pair_ok w Hr) as (ch & sh & w' & -> & [Hn Hh Hk Hel Hc Hs]).
  destruct pw_garbage as (s & er & Hg & Ha).
  rewrite (bind_Ret (modify _) _ _ tt (set_mem (start garbage) w')) by done.
  destruct (read_hs_error (set_mem (start garbage) w') sh (new_entry (QuicServer (pw_server []))) p_hello (zlen garbage) garbage
    (QuicServer s) er) as (w1 & e1 & E1 & Q1 & A1 & _); try done.
  { rewrite capture_keeps_conn. simpl. by rewrite Hg. }
  rewrite (bind_Ret _ _ _ _ _ E1), assert_pass.
  destruct (alert_ok w1 sh e1 Q1) as (w2 & E2 & Q2). rewrite A1 in E2.
  rewrite (bind_Ret _ _ _ _ _ E2). simpl default. rewrite (proj2 (Z.leb_le _ _)) by done. rewrite assert_pass.
  destruct (alert_ok w2 sh (with_alert_cache e1 None)) as (w3 & E3 & _); [by rewrite Q2, lookup_insert_eq|].
  rewrite (bind_Ret _ _ _ _ _ E3), assert_pass. apply free_both_ret.
Qed.

Lemma double_take_test w : room w → passes (test_double_take_keys_returns_error g) w.
Proof.
  intros Hr. unfold test_double_take_keys_returns_error.
  destruct (with_pair_ok w Hr) as (ch & sh & w' & -> & [Hn Hh Hk Hel Hc Hs]).
  destruct pw_first as (hello & v & l & r & Hf).
  destruct (first_calls _ _ hello v l r ch sh w' Hf) as
    (w1 & w2 & w3 & w4 & w5 & b & wv & E1 & E2 & E3 & E4 & E5 & E6 & -> & Hb & (e & He & Hp) & Hch & N & K); try done; [lia|].
  rewrite (bind_Ret _ _ _ _ _ E1), (bind_Ret _ _ _ _ _ E2), (bind_Ret _ _ _ _ _ E3), (bind_Ret _ _ _ _ _ E4).
  rewrite (bind_Ret _ _ _ _ _ E5), (bind_Ret _ _ _ _ _ (E6 _)).
  rewrite (bind_Ret _ _ _ _ _ (take_keys3 sh e _ _ _ b 1 hello (zlen v) 0 0 u64_MAX u64_MAX wv He Hp ltac:(lia))), assert_pass.
  set (wk := set_qconn _ _).
  rewrite (bind_Ret _ _ _ _ _ (read_i32_ok (frame b 1 hello (zlen v) (w_next wv) 0 u64_MAX u64_MAX wk) p_kh _ eq_refl)).
  rewrite (proj2 (Z.ltb_lt _ _)) by lia. rewrite assert_pass.
  assert (Hk2 : w_qconn wk !! sh = Some (with_pending e None)) by apply lookup_insert_eq.
  destruct (take_keys_none (frame b 1 hello (zlen v) (w_next wv) 0 u64_MAX u64_MAX wk) sh _ p_kh2 Hk2 eq_refl eq_refl) as (w6 & E7 & _).
  rewrite (bind_Ret _ _ _ _ _ E7), assert_pass. apply free_both_ret.
Qed.

Abbreviation asked ab tb aw tw w := (set_mem (queries ab tb aw tw) w).

Lemma alpn_ok h e p ab tb aw tw w :
  w_qconn w !! h = Some e → conn_alpn_protocol (conn e) = Some p → zlen p ≤ 32 → zlen ab = 32 →
  rlsm_quic_conn_alpn h (Ptr 1 0) 32 (Ptr 1 0) (asked ab tb aw tw w) =
  Ret 0 (asked (splice 0 p ab) tb (zlen p) tw (set_error None w)).
Proof.
  intros He Hp Hl Ha. pose proof (zlen_nonneg p). unfold rlsm_quic_conn_alpn, copy_out, or_invalid. run. cbn [is_null].
  change (32 <? 0) with false. cbv beta iota. rewrite (with_Some quic_conn_table h _ _ e) by done. rewrite Hp.
  change (as_usize 32) with 32. rewrite (proj2 (Z.ltb_ge _ _)) by lia.
  rewrite (write_u8_ok _ _ _ {[ 1%N := splice 0 p ab; 2%N := tb ]}) by (rewrite (store_front _ _ ab); [done|done|lia]).
  by rewrite as_i32_id by (unfold in_i32, i32_min, i32_max; lia).
Qed.

Lemma tp_ok h e p ab tb aw tw w :
  w_qconn w !! h = Some e → conn_transport_parameters (conn e) = Some p → zlen p ≤ 1024 → zlen tb = 1024 →
  rlsm_quic_conn_transport_params h (Ptr 2 0) 1024 (Ptr 2 0) (asked ab tb aw tw w) =
  Ret 0 (asked ab (splice 0 p tb) aw (zlen p) (set_error None w)).
Proof.
  intros He Hp Hl Ha. pose proof (zlen_nonneg p). unfold rlsm_quic_conn_transport_params, copy_out, or_invalid. run.
  cbn [is_null]. change (1024 <? 0) with false. cbv beta iota.
  rewrite (with_Some quic_conn_table h _ _ e) by done. rewrite Hp.
  change (as_usize 1024) with 1024. rewrite (proj2 (Z.ltb_ge _ _)) by lia.
  rewrite (write_u8_ok _ _ _ {[ 1%N := ab; 2%N := splice 0 p tb ]}) by (rewrite (store_front _ _ tb); [done|done|lia]).
  by rewrite as_i32_id by (unfold in_i32, i32_min, i32_max; lia).
Qed.

Lemma query_alpn_ok h e ab tb aw tw w :
  w_qconn w !! h = Some e → conn_alpn_protocol (conn e) = Some h3 → zlen ab = 32 →
  query_alpn h (asked ab tb aw tw w) = Ret tt (asked (splice 0 h3 ab) tb 2 tw (set_error None w)).
Proof.
  intros He Hp Ha. unfold query_alpn.
  rewrite (bind_Ret _ _ _ _ _ (alpn_ok h e h3 ab tb aw tw w He Hp ltac:(done) Ha)), assert_pass.
  rewrite (bind_Ret _ _ _ _ _ (read_i32_ok (asked (splice 0 h3 ab) tb 2 tw (set_error None w)) (Ptr 1 0) 2 eq_refl)).
  change (as_usize 2) with (zlen h3). erewrite bind_Ret; [|apply (read_u8_ok _ (Ptr 1 0) (zlen h3) h3)]; [done|].
  rewrite (load_front _ _ (splice 0 h3 ab)) by (done || rewrite zlen_splice by (change (zlen h3) with 2; lia); change (zlen h3) with 2; lia).
  by rewrite sub_splice_same by (apply fits_spec; change (zlen h3) with 2; lia).
Qed.

Lemma query_tp_ok h msg e p ab tb aw tw w :
  w_qconn w !! h = Some e → conn_transport_parameters (conn e) = Some p → 0 < zlen p ≤ 1024 → zlen tb = 1024 →
  query_tp h msg (asked ab tb aw tw w) = Ret tt (asked ab (splice 0 p tb) aw (zlen p) (set_error None w)).
Proof.
  intros He Hp [Hl Hl'] Ha. unfold query_tp. rewrite (bind_Ret _ _ _ _ _ (tp_ok h e p ab tb aw tw w He Hp Hl' Ha)), assert_pass.
  rewrite (bind_Ret _ _ _ _ _ (read_i32_ok (asked ab (splice 0 p tb) aw (zlen p) (set_error None w)) (Ptr 2 0) (zlen p) eq_refl)).
  by rewrite (proj2 (Z.ltb_lt _ _)) by done.
Qed.

Lemma no_tp_test w : room w → passes (test_transport_params_unavailable_before_hello g) w.
Proof.
  intros Hr. unfold test_transport_params_unavailable_before_hello.
  destruct (with_pair_ok w Hr) as (ch & sh & w' & -> & [Hn Hh Hk Hel Hc Hs]).
  set (wq := asked [] (replicate 256 0) 0 0 w'). rewrite (bind_Ret (modify _) _ _ tt wq) by done.
  assert (E : rlsm_quic_conn_transport_params sh (Ptr 2 0) 256 (Ptr 2 0) wq = Ret 1 (set_error None wq)).
  { unfold rlsm_quic_conn_transport_params, copy_out, or_invalid. run. cbn [is_null]. change (256 <? 0) with false.
    cbv beta iota. rewrite (with_Some quic_conn_table sh _ _ (new_entry (QuicServer (pw_server [])))) by done. simpl. by rewrite pw_no_tp. }
  rewrite (bind_Ret _ _ _ _ _ E), assert_pass.
  rewrite (bind_Ret _ _ _ _ _ (read_i32_ok (set_error None wq) (Ptr 2 0) 0 eq_refl)), assert_pass. apply free_both_ret.
Qed.

Lemma handshaking_done h q w : at_rest w h q → conn_is_handshaking q = false →
  rlsm_quic_conn_is_handshaking h w = Ret 0 (set_error None w).
Proof.
  intros (e & He & <- & _) Hq. unfold rlsm_quic_conn_is_handshaking, or_invalid. run.
  rewrite (with_Some quic_conn_table h _ _ e) by done. by rewrite Hq.
Qed.

(** A pair, and the handshake on it. *)
Lemma pair_handshake which tp w :
  room w → zlen tp ≤ i32_max →
  ∃ ch sh w1 ck sk w2, conn_pair g which h3 tp w = Ret (ch, sh) w1 ∧ run_handshake ch sh w1 = Ret (ck, sk) w2 ∧
    (let '(c, s) := ends (pw_rounds tp) (pw_client tp) (pw_server tp) in
     at_rest w2 ch (QuicClient c) ∧ at_rest w2 sh (QuicServer s) ∧ finished c s = true) ∧
    0 < ck ∧ 0 < sk ∧ ∃ l r, w_keys w2 !! ck = Some (entry_of l r).
Proof.
  intros [Hn Hmax] Ht. destruct (conn_pair_ok g which h3 tp (pw_client tp) (pw_server tp) w) as (ch & sh & w1 & E & [N H1 K El C S]);
    try done; try lia; [apply pw_client_new|apply pw_server_new|].
  destruct (pw_exchange tp) as [Hx Hf]. destruct (pw_keys tp) as [[[lc rc] Hkc] [[ls rs] Hks]].
  destruct (run_handshake_ok ch sh (pw_client tp) (pw_server tp) (pw_rounds tp) w1) as (ck & sk & w2 & E2 & R1 & R2 & K1 & K2);
    try done; try lia; [by eexists|by eexists|].
  destruct (phase_a_exchange 20 _ _ _ Hx) as [_ Hfin]. rewrite Hkc in K1. rewrite Hks in K2. simpl in K1, K2.
  exists ch, sh, w1, ck, sk, w2. destruct (ends _ _ _) as [c s]. split_and!; try done; try lia. exists lc, rc. apply K1.
Qed.

Lemma full_handshake_test w : room w → passes (test_full_handshake_client_server g) w.
Proof.
  intros Hr. unfold test_full_handshake_client_server, make_conn_pair_with_tp.
  destruct (pair_handshake " (with tp)" test_tp w Hr ltac:(done)) as (ch & sh & w1 & ck & sk & w2 & E1 & E2 & Hc & Hck & Hsk & _).
  pose proof (pw_alpn test_tp) as Ha. pose proof pw_tp as Hp. destruct (ends _ _ _) as [c s].
  destruct Hc as (Rc & Rs & Hfin). destruct Ha as [Ac As]. destruct Hp as (p & q & Pc & Ps & Lp & Lq).
  unfold finished in Hfin. apply andb_true_iff in Hfin as [Fc Fs]. apply negb_true_iff in Fc, Fs.
  rewrite (bind_Ret _ _ _ _ _ E1). cbv beta iota. rewrite (bind_Ret _ _ _ _ _ E2). cbv beta iota.
  rewrite (proj2 (Z.ltb_lt _ _) Hck), (proj2 (Z.ltb_lt _ _) Hsk), !assert_pass.
  rewrite (bind_Ret _ _ _ _ _ (handshaking_done ch _ w2 Rc Fc)), assert_pass.
  rewrite (bind_Ret _ _ _ _ _ (handshaking_done sh _ (set_error None w2) Rs Fs)), assert_pass.
  rewrite (bind_Ret (modify _) _ _ tt (asked (replicate 32 0) (replicate 1024 0) 0 0 (set_error None (set_error None w2)))) by done.
  destruct Rc as (ec & Ec & Qc & _), Rs as (es & Es & Qs & _).
  set (w3 := set_error None (set_error None w2)).
  rewrite (bind_Ret _ _ _ _ _ (query_alpn_ok ch ec (replicate 32 0) (replicate 1024 0) 0 0 w3 Ec ltac:(by rewrite Qc) eq_refl)).
  set (ab := splice 0 h3 (replicate 32 0)). set (w4 := set_error None w3).
  rewrite (bind_Ret (write_i32 (Ptr 1 0) 0) _ _ tt (asked ab (replicate 1024 0) 0 0 w4)) by done.
  rewrite (bind_Ret _ _ _ _ _ (query_alpn_ok sh es ab (replicate 1024 0) 0 0 w4 Es ltac:(by rewrite Qs) eq_refl)).
  set (ab' := splice 0 h3 ab). set (w5 := set_error None w4).
  rewrite (bind_Ret _ _ _ _ _ (query_tp_ok ch _ ec p ab' (replicate 1024 0) 2 0 w5 Ec ltac:(by rewrite Qc) Lp eq_refl)).
  set (tb := splice 0 p _). set (w6 := set_error None w5).
  rewrite (bind_Ret (write_i32 (Ptr 2 0) 0) _ _ tt (asked ab' tb 2 0 w6)) by done.
  assert (Htb : zlen tb = 1024) by (unfold tb; rewrite zlen_splice; change (zlen (replicate 1024 0)) with 1024; lia).
  rewrite (bind_Ret _ _ _ _ _ (query_tp_ok sh _ es q ab' tb 2 0 w6 Es ltac:(by rewrite Qs) Lq Htb)). apply free_both_ret.
Qed.

Lemma encrypt_with_ok keys l r hdr b n msg w :
  w_keys w !! keys = Some (entry_of l r) → zlen hdr ≤ 1024 → Z.of_nat n ≤ 1024 →
  ∃ w', encrypt_with keys hdr b n msg w = Ret tt w'.
Proof.
  intros Hk Hh Hn. pose proof (zlen_nonneg hdr). unfold encrypt_with.
  set (m := set_mem (encrypt_memory hdr b n) w). rewrite (bind_Ret (modify _) _ _ tt m) by done.
  destruct (pw_encrypts l.2 hdr (replicate n b)) as (ct & tag & He & Ht); [by rewrite zlen_replicate|].
  assert (Hb : zlen (replicate n b ++ replicate 16 0) = Z.of_nat n + 16) by (by rewrite zlen_app, !zlen_replicate).
  rewrite !as_i32_id by (unfold in_i32, i32_min, i32_max in *; lia).
  destruct (local_encrypt_ok m keys (entry_of l r) l.2 0 (Ptr 1 0) (zlen hdr) (Ptr 2 0) (Z.of_nat n) (Z.of_nat n + 16)
    hdr (replicate n b ++ replicate 16 0) ct tag) as (w' & E & _);
    try done; try (unfold in_i32, i32_min, i32_max; lia).
  - unfold u8_at. rewrite (load_front _ _ hdr) by (done || lia). by rewrite sub_all.
  - unfold u8_at. rewrite (load_front _ _ (replicate n b ++ replicate 16 0)) by (done || lia). by rewrite <- Hb, sub_all.
  - rewrite <- (zlen_replicate n b), sub_app_l, sub_all by lia. done.
  - rewrite (bind_Ret _ _ _ _ _ E), (proj2 (Z.ltb_lt _ _)) by lia. by eexists.
Qed.

Lemma handshake_keys_test w : room w → passes (test_handshake_keys_available g) w.
Proof.
  intros Hr. unfold test_handshake_keys_available.
  destruct (pair_flights w Hr) as (ch & sh & hello & n & b & l & r & wv & e & -> & Hne & He & Hp & Hch & Hn).
  rewrite (bind_Ret _ _ _ _ _ (take_keys3 sh e _ _ _ b 1 hello n 0 0 u64_MAX u64_MAX wv He Hp Hn)), assert_pass.
  set (wk := set_qconn _ _).
  rewrite (bind_Ret _ _ _ _ _ (read_i32_ok (frame b 1 hello n (w_next wv) 0 u64_MAX u64_MAX wk) p_kh _ eq_refl)).
  rewrite (proj2 (Z.ltb_lt _ _)) by lia. rewrite assert_pass.
  destruct (encrypt_with_ok (w_next wv) l r [0xc0; 0x00; 0x00; 0x00; 0x01] 0xAA 32
    "Wave 1 encrypt should succeed with Handshake keys" (frame b 1 hello n (w_next wv) 0 u64_MAX u64_MAX wk)) as [w' E];
    [apply lookup_insert_eq|done|done|]. rewrite (bind_Ret _ _ _ _ _ E). apply free_both_ret.
Qed.

Lemma one_rtt_keys_test w : room w → passes (test_1rtt_keys_available g) w.
Proof.
  intros Hr. unfold test_1rtt_keys_available, make_conn_pair.
  destruct (pair_handshake "" [] w Hr ltac:(done)) as (ch & sh & w1 & ck & sk & w2 & E1 & E2 & _ & Hck & _ & l & r & K).
  rewrite (bind_Ret _ _ _ _ _ E1). cbv beta iota. rewrite (bind_Ret _ _ _ _ _ E2). cbv beta iota.
  rewrite (proj2 (Z.ltb_lt _ _) Hck), assert_pass.
  destruct (encrypt_with_ok ck l r [0x40; 0x00] 0xBB 16 "Wave 1 encrypt should succeed with 1-RTT keys" w2 K) as [w' E]; [done|done|].
  rewrite (bind_Ret _ _ _ _ _ E). apply free_both_ret.
Qed.

(** *** 0-RTT *)

Lemma fresh_client_zero_rtt_test w : room w → passes (test_0rtt_keys_unavailable_fresh_session g) w.
Proof.
  intros Hr. unfold test_0rtt_keys_unavailable_fresh_session.
  destruct (with_pair_ok w Hr) as (ch & sh & w' & -> & [Hn Hh Hk Hel Hc Hs]).
  assert (E : rlsm_quic_conn_zero_rtt_keys ch p_kh (set_mem (start []) w') = Ret 1 (set_error None (set_mem (start []) w'))).
  { unfold rlsm_quic_conn_zero_rtt_keys, or_invalid. run. change (is_null p_kh) with false. cbv beta iota.
    rewrite (with_Some quic_conn_table ch _ _ (new_entry (QuicClient (pw_client [])))) by done. destruct pw_no_zero_rtt as [Z1 _].
    cbn [conn new_entry]. by rewrite Z1. }
  rewrite (bind_Ret _ _ _ _ _ E), assert_pass.
  rewrite (bind_Ret _ _ _ _ _ (read_i32_ok (set_error None (set_mem (start []) w')) p_kh 0 eq_refl)), assert_pass.
  apply free_both_ret.
Qed.

Lemma fresh_server_zero_rtt_test w : room w → passes (test_server_0rtt_keys_unavailable_fresh_session g) w.
Proof.
  intros Hr. unfold test_server_0rtt_keys_unavailable_fresh_session.
  destruct (with_pair_ok w Hr) as (ch & sh & w' & -> & [Hn Hh Hk Hel Hc Hs]).
  set (wn := frame (replicate 4096 0) 0 [] 0 (-1) 0 u64_MAX u64_MAX (set_error None w')).
  assert (E : rlsm_quic_server_conn_zero_rtt_keys sh p_kh (set_mem (start []) w') = Ret 1 wn).
  { unfold rlsm_quic_server_conn_zero_rtt_keys. run. change (is_null p_kh) with false. cbv beta iota.
    rewrite (with_Some quic_conn_table sh _ _ (new_entry (QuicServer (pw_server [])))) by done. destruct pw_no_zero_rtt as [_ Z2].
    cbn [conn new_entry]. by rewrite Z2. }
  rewrite (bind_Ret _ _ _ _ _ E), assert_pass.
  rewrite (bind_Ret _ _ _ _ _ (read_i32_ok wn p_kh (-1) eq_refl)), assert_pass.
  rewrite (bind_Ret _ _ _ _ _ (conn_free_some sh _ wn Hs)). by eexists.
Qed.

Lemma client_rejected_test w : room w → passes (test_server_0rtt_keys_rejects_client_handle g) w.
Proof.
  intros Hr. unfold test_server_0rtt_keys_rejects_client_handle.
  destruct (with_pair_ok w Hr) as (ch & sh & w' & -> & [Hn Hh Hk Hel Hc Hs]).
  set (msg := "rlsm_quic_server_conn_zero_rtt_keys: not supported on client connections"%string).
  set (wn := frame (replicate 4096 0) 0 [] 0 (-1) 0 u64_MAX u64_MAX (set_error (Some msg) w')).
  assert (E : rlsm_quic_server_conn_zero_rtt_keys ch p_kh (set_mem (start []) w') = Ret (-1) wn).
  { unfold rlsm_quic_server_conn_zero_rtt_keys. run. change (is_null p_kh) with false. cbv beta iota.
    by rewrite (with_Some quic_conn_table ch _ _ (new_entry (QuicClient (pw_client [])))). }
  rewrite (bind_Ret _ _ _ _ _ E), assert_pass.
  rewrite (bind_Ret _ _ _ _ _ (read_i32_ok wn p_kh (-1) eq_refl)), assert_pass.
  set (we := asked (replicate 256 0) [] 0 0 wn). rewrite (bind_Ret (modify _) _ _ tt we) by done.
  assert (E2 : ∃ w2, rlsm_last_error (Ptr 1 0) 256 we = Ret (zlen (string_bytes msg) + 1) w2)
    by (eexists; vm_compute; reflexivity).
  destruct E2 as [w2 E2]. rewrite (bind_Ret _ _ _ _ _ E2), assert_pass. apply free_both_ret.
Qed.

Lemma null_out_test w : room w → passes (test_server_0rtt_keys_null_out_param g) w.
Proof.
  intros Hr. unfold test_server_0rtt_keys_null_out_param.
  destruct (with_pair_ok w Hr) as (ch & sh & w' & -> & _).
  erewrite bind_Ret by reflexivity. rewrite assert_pass. apply free_both_ret.
Qed.

Lemma invalid_handle_test w : w_qconn w !! (-99) = None → passes test_server_0rtt_keys_invalid_handle w.
Proof.
  intros Hq. unfold test_server_0rtt_keys_invalid_handle.
  rewrite (bind_Ret (modify _) _ _ tt (set_mem (start []) w)) by done.
  unfold rlsm_quic_server_conn_zero_rtt_keys. run. change (is_null p_kh) with false. cbv beta iota.
  rewrite (with_None quic_conn_table (-99)) by done. by eexists.
Qed.

(** *** Timings *)

Lemma prepared w :
  room w → ∃ ch sh hello b w' s u,
    (∀ body, q6_prepare_server_with_client_hello g body w =
             body ch sh hello (frame b 0 hello (zlen hello) 0 0 u64_MAX u64_MAX w')) ∧
    w_qconn w' !! sh = Some (new_entry (QuicServer (pw_server []))) ∧
    qserver_read_hs (pw_server []) hello = (s, inr u) ∧ nonempty hello = true ∧ zlen hello ≤ i32_max ∧
    w_elapsed_us w' = w_elapsed_us w ∧ w_next w' = w_next w + 4.
Proof.
  intros Hr. destruct (with_pair_ok w Hr) as (ch & sh & w' & E & [Hn Hh Hk Hel Hc Hs]).
  destruct pw_first as (hello & v & l & r & [[c1 F1] F2 F3 (s1 & s2 & u & F4 & F5) F6]).
  assert (Hb : zlen (replicate 4096 0) = 4096) by (by rewrite zlen_replicate).
  pose proof (write_into_ok ch _ (QuicClient c1) hello None _ 0 [] 0 0 0 u64_MAX u64_MAX w' Hc eq_refl
    ltac:(simpl; by rewrite F1) F3 Hb) as E1. set (wa := set_qconn _ _) in E1.
  pose proof (to_vec_ok hello (replicate 4096 0) 0 [] 0 0 u64_MAX u64_MAX wa F3 Hb) as E2.
  eexists ch, sh, hello, _, wa, s1, u. split_and!; try done.
  - intros body. unfold q6_prepare_server_with_client_hello.
    by rewrite E, (bind_Ret _ _ _ _ _ E1), assert_pass, (bind_Ret _ _ _ _ _ E2).
  - simpl. rewrite lookup_insert_ne by lia. done.
  - unfold i32_max. lia.
Qed.

(** A clock reading that is none of the sentinels. *)
Abbreviation sane t := (0 ≤ t < u64_MAX).

Lemma sane_head l : Forall (λ t, sane t) l → sane (default 0 (head l)).
Proof. by intros [|t l' Ht]. Qed.
Lemma sane_tail l : Forall (λ t, sane t) l → Forall (λ t, sane t) (tail l).
Proof. by intros [|t l' Ht]. Qed.
#[local] Hint Resolve sane_head sane_tail : core.

Lemma sane_u64 t : sane t → as_u64 t = t.
Proof. intros Ht. unfold as_u64. apply Z.mod_small. unfold u64_MAX in *. lia. Qed.

Lemma not_max_ok p msg t w :
  load (m_u64 (w_mem w)) p 1 = Some [as_u64 t] → sane t → not_max p msg w = Ret tt w.
Proof.
  intros Hl Ht. unfold not_max. rewrite (bind_Ret _ _ _ _ _ (read_u64_ok _ _ _ Hl)), sane_u64 by done.
  by rewrite (proj2 (Z.eqb_neq _ _)) by lia.
Qed.

Lemma both_null_test w : room w → passes (test_q6_read_hs_both_null_no_crash g) w.
Proof.
  intros Hr. unfold test_q6_read_hs_both_null_no_crash.
  destruct (prepared w Hr) as (ch & sh & hello & b & w' & s & u & -> & Hs & Hread & Hne & Hlen & _).
  rewrite (bind_Ret _ _ _ _ _ (feed_ok sh _ (QuicServer s) hello u Null Null b 0 (zlen hello) 0 0 u64_MAX u64_MAX w' Hs
    ltac:(simpl; by rewrite Hread) Hne Hlen ltac:(by left) ltac:(by left))), assert_pass.
  apply free_both_ret.
Qed.

(** The readings of the next two clocks, and of the two after them. *)
Lemma partial_null_test w :
  0 < w_next w ∧ w_next w + 54 ≤ i32_max → Forall (λ t, sane t) (w_elapsed_us w) → passes (test_q6_read_hs_partial_null_writes_only_non_null g) w.
Proof.
  intros Hr Hclock. unfold test_q6_read_hs_partial_null_writes_only_non_null.
  destruct (prepared w ltac:(lia)) as (ch & sh & hello & b & w1 & s & u & E & Hs & Hrd & Hne & Hlen & El & N1).
  pose proof (feed_ok sh _ (QuicServer s) hello u p_sm Null b 0 (zlen hello) 0 0 u64_MAX u64_MAX w1 Hs
    ltac:(simpl; by rewrite Hrd) Hne Hlen ltac:(by right) ltac:(by left)) as E1. cbn [is_null] in E1.
  set (w2 := frame b 0 hello _ _ _ (as_u64 _) _ _) in E1.
  destruct (free_both_ok ch sh w2) as (w3 & E3 & N3 & El3).
  erewrite bind_Ret; [|rewrite E, (bind_Ret _ _ _ _ _ E1), assert_pass;
    rewrite (bind_Ret _ _ _ _ _ (not_max_ok p_sm _ (reading (ticked w1)) w2 eq_refl ltac:(unfold reading; simpl; rewrite El; auto)));
    exact E3].
  destruct (prepared w3) as (ch' & sh' & hello' & b' & w4 & s' & u' & -> & Hs' & Hrd' & Hne' & Hlen' & El' & _).
  { rewrite N3. change (w_next w2) with (w_next w1). rewrite N1. lia. }
  pose proof (feed_ok sh' _ (QuicServer s') hello' u' Null p_lk b' 0 (zlen hello') 0 0 u64_MAX u64_MAX w4 Hs'
    ltac:(simpl; by rewrite Hrd') Hne' Hlen' ltac:(by left) ltac:(by right)) as E5. cbn [is_null] in E5.
  set (w5 := frame b' 0 hello' _ _ _ _ (as_u64 _) _) in E5. rewrite (bind_Ret _ _ _ _ _ E5), assert_pass.
  rewrite (bind_Ret _ _ _ _ _ (not_max_ok p_lk _ (reading w4) w5 eq_refl
    ltac:(unfold reading; rewrite El', El3; simpl; rewrite El; auto))).
  apply free_both_ret.
Qed.

(** The test with both slots passes exactly when the second reading is not zero. *)
Lemma both_slots_test w :
  room w → Forall (λ t, sane t) (w_elapsed_us w) →
  if 0 <? reading (ticked w) then passes (test_q6_read_hs_both_non_null_values_reasonable g) w
  else ∃ msg, test_q6_read_hs_both_non_null_values_reasonable g w = Panic msg.
Proof.
  intros Hr Hclock. unfold test_q6_read_hs_both_non_null_values_reasonable.
  destruct (prepared w Hr) as (ch & sh & hello & b & w1 & s & u & -> & Hs & Hrd & Hne & Hlen & El & N1).
  pose proof (feed_ok sh _ (QuicServer s) hello u p_sm p_lk b 0 (zlen hello) 0 0 u64_MAX u64_MAX w1 Hs
    ltac:(simpl; by rewrite Hrd) Hne Hlen ltac:(by right) ltac:(by right)) as E1. cbn [is_null] in E1.
  set (w2 := frame b 0 hello _ _ _ (as_u64 _) _ _) in E1.
  assert (R1 : reading w1 = reading w) by (unfold reading; by rewrite El).
  assert (R2 : reading (ticked w1) = reading (ticked w)) by (unfold reading; simpl; by rewrite El).
  assert (S1 : sane (reading w)) by (unfold reading; auto).
  assert (S2 : sane (reading (ticked w))) by (unfold reading; simpl; auto).
  rewrite (bind_Ret _ _ _ _ _ E1), assert_pass.
  rewrite (bind_Ret _ _ _ _ _ (not_max_ok p_sm _ (reading (ticked w1)) w2 eq_refl ltac:(by rewrite R2))).
  rewrite (bind_Ret _ _ _ _ _ (not_max_ok p_lk _ (reading w1) w2 eq_refl ltac:(by rewrite R1))).
  rewrite (bind_Ret _ _ _ _ _ (read_u64_ok w2 p_sm (as_u64 (reading (ticked w1))) eq_refl)).
  rewrite R2, sane_u64 by done. destruct (0 <? reading (ticked w)); [rewrite assert_pass; apply free_both_ret|by eexists].
Qed.

Lemma null_params_test w : w_qconn w !! (-1) = None → passes test_read_hs_null_out_params_no_crash w.
Proof.
  intros Hq. unfold test_read_hs_null_out_params_no_crash, rlsm_quic_conn_read_hs, or_invalid. run. cbn [is_null andb].
  change (0 <? 0) with false. change (0 =? 0) with true. cbv beta iota.
  rewrite (with_mut_None quic_conn_table (-1)) by done. by eexists.
Qed.

(** *** Configurations *)

Abbreviation set_up h ch sh w := (set_mem (setup_memory g h3 [] h ch sh) w).

Lemma client_config_test w : room w → passes (test_client_config_new_returns_handle g) w.
Proof.
  intros [Hn Hmax]. unfold test_client_config_new_returns_handle.
  rewrite (bind_Ret (modify _) _ _ tt (set_up (-1) 0 0 w)) by done.
  set (cfg := client_config_set_alpn (client_config_set_key_log (client_config_build true root_store_webpki)) [h3]).
  set (w1 := set_up (w_next w) 0 0 (set_qcfg_client (<[w_next w := cfg]> (w_qcfg_client w)) (set_next (w_next w + 1) (set_error None w)))).
  assert (E : rlsm_quic_client_config_new (Ptr 3 0) (as_i32 (zlen h3)) (Ptr 1 0) (set_up (-1) 0 0 w) = Ret 0 w1).
  { unfold rlsm_quic_client_config_new, insert_out. run. cbn [is_null]. change (as_i32 (zlen h3) <? 0) with false. cbv beta iota.
    rewrite (read_u8_ok _ (Ptr 3 0) _ h3) by done. rewrite (insert_pos quic_client_cfg_table) by (simpl; lia).
    change (counter (set_error None (set_up (-1) 0 0 w))) with (w_next w).
    by rewrite as_i32_id by (unfold in_i32, i32_min in *; lia). }
  rewrite (bind_Ret _ _ _ _ _ E), assert_pass, (bind_Ret _ _ _ _ _ (read_i32_ok w1 (Ptr 1 0) (w_next w) eq_refl)).
  rewrite (proj2 (Z.ltb_lt _ _)) by lia. by eexists.
Qed.

Lemma server_config_test w : room w → passes (test_server_config_new_returns_handle g) w.
Proof.
  intros [Hn Hmax]. unfold test_server_config_new_returns_handle.
  rewrite (bind_Ret (modify _) _ _ tt (set_up (-1) 0 0 w)) by done.
  rewrite (bind_Ret _ _ _ _ _ (server_config_new_ok g h3 [] 0 (-1) 0 0 w ltac:(done) ltac:(by left) ltac:(lia))), assert_pass.
  set (w1 := set_qcfg_server _ _).
  rewrite (bind_Ret _ _ _ _ _ (read_i32_ok (set_up (w_next w) 0 0 w1) (Ptr 1 0) (w_next w) eq_refl)).
  rewrite (proj2 (Z.ltb_lt _ _)) by lia. by eexists.
Qed.

Lemma illegal_early_data_test w : passes (test_server_config_new_rejects_illegal_max_early_data g) w.
Proof.
  destruct (cw_sizes (g:=g)) as [Hs1 Hs2].
  assert (E : ∀ n w, n ∈ [1; 100; 0x7FFFFFFF; 0xFFFFFFFE] → ∃ w', server_config_new g h3 n (set_up (-1) 0 0 w) = Ret (-1) w' ∧
    load (m_i32 (w_mem w')) (Ptr 1 0) 1 = Some [-1]).
  { intros n w0 Hn. unfold server_config_new, rlsm_quic_server_config_new. run. cbn [is_null].
    rewrite !as_i32_zlen_pos by done.
    assert (negb (n =? 0) && negb (n =? u32_max) = true) as ->; [|by eexists].
    rewrite !elem_of_cons in Hn. destruct Hn as [-> |[-> |[-> |[-> |Hn]]]]; try done. by apply elem_of_nil in Hn. }
  unfold test_server_config_new_rejects_illegal_max_early_data. revert E.
  generalize [1; 100; 0x7FFFFFFF; 0xFFFFFFFE]. intros l E. revert w. induction l as [|n l IH]; intros w; [by eexists|]. simpl.
  rewrite (bind_Ret (modify _) _ _ tt (set_up (-1) 0 0 w)) by done.
  destruct (E n w) as (w' & E1 & Hl); [by left|]. rewrite (bind_Ret _ _ _ _ _ E1), assert_pass.
  rewrite (bind_Ret _ _ _ _ _ (read_i32_ok _ _ _ Hl)), assert_pass. apply IH. intros m w0 Hm. apply E. by right.
Qed.

Lemma unlimited_early_data_test w : room w → passes (test_server_config_new_accepts_u32_max g) w.
Proof.
  intros [Hn Hmax]. unfold test_server_config_new_accepts_u32_max.
  rewrite (bind_Ret (modify _) _ _ tt (set_up (-1) 0 (-1) w)) by done.
  rewrite (bind_Ret _ _ _ _ _ (server_config_new_ok g h3 [] u32_max (-1) 0 (-1) w ltac:(done) ltac:(by right) ltac:(lia))), assert_pass.
  set (w1 := set_qcfg_server _ _).
  rewrite (bind_Ret _ _ _ _ _ (read_i32_ok (set_up (w_next w) 0 (-1) w1) (Ptr 1 0) (w_next w) eq_refl)).
  rewrite (proj2 (Z.ltb_lt _ _)) by lia. rewrite assert_pass.
  pose proof (server_conn_new_ok g h3 [] (w_next w) 0 (-1) (w_next w) _ pw_early w1 ltac:(done) ltac:(simpl; lia)
    (lookup_insert_eq _ _ _) pw_early_new) as E.
  rewrite (bind_Ret _ _ _ _ _ E), assert_pass. set (w2 := set_qconn _ _).
  rewrite (bind_Ret _ _ _ _ _ (read_i32_ok (set_up (w_next w) 0 (w_next w1) w2) (Ptr 3 0) (w_next w1) eq_refl)).
  rewrite (proj2 (Z.ltb_lt _ _)) by (simpl; lia). rewrite assert_pass.
  assert (Hl : w_qconn w2 !! w_next w1 = Some (new_entry (QuicServer pw_early))) by apply lookup_insert_eq.
  rewrite (bind_Ret _ _ _ _ _ (conn_free_some (w_next w1) _ (set_up (w_next w) 0 (w_next w1) w2) Hl)). by eexists.
Qed.

(** The tests of [quic_hs.rs] pass with any rustls that does what is asked above,
    from any state of the process with room for their handles, where -1 and -99 are
    no handles and the clocks are sane. The last one, which wants to see time pass,
    passes when the second clock of the call reads more than 0. *)
Theorem conn_tests_pass w :
  0 < w_next w → w_next w + 54 ≤ i32_max → w_qconn w !! (-1) = None → w_qconn w !! (-99) = None →
  Forall (λ t, sane t) (w_elapsed_us w) →
  Forall (λ test, passes test w)
    [test_write_hs_with_pending_key_returns_error g; test_conn_free_with_pending_key_returns_ok g;
     test_alert_on_bad_read_hs g; test_double_take_keys_returns_error g;
     test_transport_params_unavailable_before_hello g; test_full_handshake_client_server g;
     test_handshake_keys_available g; test_1rtt_keys_available g;
     test_client_config_new_returns_handle g; test_server_config_new_returns_handle g;
     test_0rtt_keys_unavailable_fresh_session g; test_server_0rtt_keys_unavailable_fresh_session g;
     test_server_0rtt_keys_rejects_client_handle g; test_server_0rtt_keys_null_out_param g;
     test_server_0rtt_keys_invalid_handle; test_q6_read_hs_both_null_no_crash g;
     test_q6_read_hs_partial_null_writes_only_non_null g;
     test_server_config_new_rejects_illegal_max_early_data g; test_server_config_new_accepts_u32_max g;
     test_read_hs_null_out_params_no_crash] ∧
  (0 < reading (ticked w) → passes (test_q6_read_hs_both_non_null_values_reasonable g) w).
Proof.
  intros H1 H2 H3 H4 H5. assert (Hr : room w) by lia. split.
  - repeat apply Forall_cons_2; [..|apply Forall_nil_2];
      auto using pending_write_test, pending_free_test, bad_read_test, double_take_test, no_tp_test, full_handshake_test,
        handshake_keys_test, one_rtt_keys_test, client_config_test, server_config_test, fresh_client_zero_rtt_test,
        fresh_server_zero_rtt_test, client_rejected_test, null_out_test, invalid_handle_test, both_null_test,
        partial_null_test, illegal_early_data_test, unlimited_early_data_test, null_params_test.
  - intros Ht. pose proof (both_slots_test w Hr H5) as H. by rewrite (proj2 (Z.ltb_lt _ _) Ht) in H.
Qed.
End Passes.

(** ** A library that does it

    Two flights on each side: the client's hello and the end of its handshake with
    the change to 1-RTT keys, the server's with the two changes. *)
Definition live_client (tp : bytes) : toy_quic :=
  {| q_script := [([1; 0; 0; 1; 0], None); ([20; 0], Some (OneRtt (12, 22) (13, 23) 30))];
     q_seen := []; q_hs := true; q_tp := Some tp; q_zero := None |}.
Definition live_server (tp : bytes) : toy_quic :=
  {| q_script := [([2; 0], Some (Handshake (20, 10) (21, 11))); ([4; 0], Some (OneRtt (13, 23) (12, 22) 31))];
     q_seen := []; q_hs := true; q_tp := Some tp; q_zero := None |}.

Definition live : Rustls := Eval cbv beta delta [toy_with] in toy_with
  (λ _, live_client) (λ _, live_server)
  (λ q b, ({| q_script := q_script q; q_seen := q_seen q ++ b; q_hs := q_hs q; q_tp := q_tp q; q_zero := q_zero q |},
           if default 0 (head b) =? 110 then inl "unexpected message"%string else inr tt))
  (λ q, nonempty (q_script q)) (λ q, if nonempty (q_seen q) then q_tp q else None)
  Full (λ _, false) id.

Definition live_laws : RustlsLaws live := toy_with_laws _ _ _ _ _ _ _ _.

Definition live_cert : bytes * bytes * @cert live := ([5], [7], 3).

Definition live_cert_works : CertWorks live live_cert.
Proof.
  by apply (Build_CertWorks live live_cert 5 [] 7 ([], 0) id [3] localhost).
Defined.

Definition live_rounds (tp : bytes) : list (@round live) := default [] (exchange (R:=live) 20 (live_client tp) (live_server tp)).

Definition live_pair_works : @PairWorks live live_cert live_cert_works.
Proof.
  apply (@Build_PairWorks live live_cert live_cert_works live_client live_server (live_server [])) with (pw_rounds := live_rounds);
    try done.
  - eexists _, _, _, _. split; [by eexists|done|done|by eexists _, _, _|done].
  - eexists _, _. split; [vm_compute; reflexivity|done].
  - intros tp. split; [reflexivity|]. by repeat constructor.
  - by eexists _, _.
  - intros k hdr pt _. eexists _, _. split; [reflexivity|apply zlen_replicate].
Qed.

(** A fresh process. *)
Definition live_boot : @world live :=
  {| w_mem := mem_of []; w_next := 1; w_last_error := None; w_config := ∅; w_conn := ∅;
     w_keys := ∅; w_qcfg_client := ∅; w_qcfg_server := ∅; w_qconn := ∅;
     w_keys_free_count := 0; w_next_arc := 0; w_elapsed_us := [] |}.

Example conn_tests_pass_live :
  ∃ w', test_full_handshake_client_server (R:=live) live_cert live_boot = Ret tt w'.
Proof.
  pose proof (conn_tests_pass (R:=live) (L:=live_laws) live_cert (CertWorks0:=live_cert_works)
    (PairWorks0:=live_pair_works) live_boot) as H.
  destruct H as [H _]; [done|done|done|done|constructor|].
  do 5 apply Forall_cons in H as [_ H]. by apply Forall_cons in H as [H _].
Qed.
End ConnTestsFacts.
