(* ===== verification/ReplayTests.v ===== *)
(** * The tests of the replay authenticator

    The tests of
    [src/crates/librustls-mojo/src/quic_hs/tests_replay_authenticator.rs], and the
    test of the 0-RTT keys of a resumed connection of [quic_hs.rs], as programs. A
    test that uses the resumption fixture takes the two connections the fixture
    makes with its session store as arguments. *)

From S2P Require Import Prelude Effects Handles Rustls World Frames Toy QuicKeys QuicKeysFacts.
From S2P Require Import QuicHs QuicHsFacts Loopback Fixture ConnTests ConnTestsFacts.
Import Effects Handles Rustls World Frames Toy QuicKeys QuicKeysFacts QuicHs QuicHsFacts Loopback Fixture ConnTests ConnTestsFacts.

Module ReplayTests.

(** Blocks of bytes: 1 is [buf1], 2 [buf2], 3 [synthetic] or [full]; of [u64]: 1 is
    [len1], 2 [len2], 3 [sm_us], 4 [lk_us]. *)
Definition replay_vars (b1 b2 x : bytes) (l1 l2 sm lk : Z) : memory :=
  {| m_u8 := {[ 1%N := b1; 2%N := b2; 3%N := x ]}; m_i32 := ∅;
     m_u64 := {[ 1%N := [l1]; 2%N := [l2]; 3%N := [sm]; 4%N := [lk] ]}; m_ptr := ∅ |}.
Definition zeros : bytes := replicate 32 0.

Section Tests.
Context {R : Rustls} (gen_test_cert : bytes * bytes * cert).

Definition build_server_config_via_ffi : prog world server_config :=
  modify (set_mem (setup_memory gen_test_cert h3 [] (-1) 0 0));;
  rc ← server_config_new gen_test_cert h3 u32_max; assert_ (rc =? 0) "rlsm_quic_server_config_new must succeed";;
  out_handle ← read_i32 (Ptr 1 0); assert_ (0 <? out_handle) "out_handle";;
  o ← with_ quic_server_cfg_table out_handle (λ cfg, mret cfg);
  expect o "config handle must exist".

(** A server connection that was never read from, in the table. *)
Definition fresh_server : prog world Z :=
  cfg ← build_server_config_via_ffi;
  match qserver_new cfg V1 [] with
  | inl e => panic ("ServerConnection::new: " +:+ error_debug e)
  | inr server =>
      o ← insert quic_conn_table (new_entry (QuicServer server));
      expect o "insert"
  end.

Definition authenticator (h : Z) (n : N) : prog world Z :=
  rlsm_quic_server_conn_replay_authenticator h (Ptr n 0) (Ptr n 0).
Definition len_is (n : N) (z : Z) (msg : string) : prog world unit :=
  len ← read_u64 (Ptr n 0); assert_ (len =? z) msg.
Definition probe {A} (h : Z) (f : QuicConnEntry → A) : prog world A :=
  o ← with_ quic_conn_table h (λ entry, mret (f entry)); expect o "server handle must exist".

Definition test_ffi_replay_authenticator_unavailable_before_client_hello : prog world unit :=
  h ← fresh_server;
  modify (set_mem (replay_vars zeros [] [] 999 0 0 0));;
  rc ← authenticator h 1; assert_ (rc =? 1) "no client_random captured yet -> rc=1";;
  len_is 1 0 "out_len must be 0 on rc != 0";;
  rlsm_quic_conn_free h;; mret tt.

(** The full ClientHello prefix, cut after 5 bytes. *)
Definition full : bytes := [0x01; 0x00; 0x00; 0x22; 0x03; 0x03] ++ ((λ i, as_u8 (Z.of_nat i + 0x40)) <$> seq 0 32).

Definition test_ffi_client_random_captured_handles_fragmented_first_read_hs : prog world unit :=
  h ← fresh_server;
  modify (set_mem (replay_vars [] [] full 0 0 0 0));;
  rlsm_quic_conn_read_hs h (Ptr 3 0) 5 (Ptr 3 0) (Ptr 4 0);;
  probe1 ← probe h (λ e, (first_ch_prefix_len e, client_random_captured e));
  assert_ (probe1.1 =? 5) "5 bytes accumulated";;
  assert_ (negb probe1.2) "5 bytes is below the 38-byte threshold";;
  rlsm_quic_conn_read_hs h (Ptr 3 5) 33 (Ptr 3 0) (Ptr 4 0);;
  probe2 ← probe h (λ e, (first_ch_prefix_len e, client_random_captured e, client_random e));
  assert_ (probe2.1.1 =? 38) "38 bytes accumulated";;
  assert_ probe2.1.2 "38 bytes accumulated -> capture must fire";;
  let expected := (λ i, as_u8 (Z.of_nat i + 0x40)) <$> seq 0 32 in
  assert_ (bool_decide (probe2.2 = expected)) "captured random must equal bytes 6..38 of the assembled CH";;
  rlsm_quic_conn_free h;; mret tt.

(** *** On the resumed connections *)

Context (client_2 : qclient) (server_2 : qserver).

Definition with_resumed (body : Z → Z → prog world unit) : prog world unit :=
  p ← drive_resumed client_2 server_2;
  let '(server_h, client_h) := p in
  modify (set_mem (replay_vars zeros zeros [] 0 0 0 0));; body server_h client_h.

Definition test_ffi_replay_authenticator_stable_across_verbatim_replay : prog world unit :=
  with_resumed (λ server_h client_h,
    rc1 ← authenticator server_h 1; assert_ (rc1 =? 0) "first read must succeed on captured-random conn";;
    len_is 1 32 "len1";;
    rc2 ← authenticator server_h 2; assert_ (rc2 =? 0) "second read must also succeed";;
    len_is 2 32 "len2";;
    buf1 ← read_u8 (Ptr 1 0) 32;
    buf2 ← read_u8 (Ptr 2 0) 32;
    assert_ (bool_decide (buf1 = buf2)) "two reads of the same conn yield identical bytes";;
    free_both server_h client_h).

Definition test_ffi_replay_authenticator_output_shape : prog world unit :=
  with_resumed (λ server_h client_h,
    rc ← authenticator server_h 1; assert_ (rc =? 0) "rc";;
    len_is 1 32 "len";;
    buf ← read_u8 (Ptr 1 0) 32;
    assert_ (negb (forallb (λ b, b =? 0) buf)) "client_random must not be all-zero";;
    free_both server_h client_h).

Definition test_ffi_client_random_captured_on_first_read_hs : prog world unit :=
  with_resumed (λ server_h client_h,
    p ← probe server_h (λ entry, (client_random_captured entry, client_random entry));
    assert_ p.1 "client_random_captured must be true after read_hs";;
    assert_ (existsb (λ b, negb (b =? 0)) p.2) "client_random must not be all-zero";;
    free_both server_h client_h).

Definition synthetic : bytes := [0x01; 0x00; 0x00; 0x22; 0x03; 0x03] ++ replicate 32 0xAB.

Definition test_ffi_client_random_captured_on_first_clienthello_only : prog world unit :=
  with_resumed (λ server_h client_h,
    original ← probe server_h client_random;
    modify (set_mem (replay_vars [] [] synthetic 0 0 0 0));;
    rlsm_quic_conn_read_hs server_h (Ptr 3 0) 38 (Ptr 3 0) (Ptr 4 0);;
    after ← probe server_h client_random;
    assert_ (bool_decide (after = original)) "HRR-scenario synthetic CH must NOT overwrite the first-captured random";;
    free_both server_h client_h).

(** Of [quic_hs.rs]; [keys_h] is an [i32] of its own. *)
Definition test_server_0rtt_keys_returns_success_on_resumed_conn : prog world unit :=
  with_resumed (λ server_h client_h,
    modify (set_mem (start []));; write_i32 p_kh (-1);;
    rc ← rlsm_quic_server_conn_zero_rtt_keys server_h p_kh; assert_ (rc =? 0) "resumed server conn must yield 0-RTT keys";;
    keys_h ← read_i32 p_kh; assert_ (0 <? keys_h) "keys handle must be positive on success";;
    free_both server_h client_h).

(** Two runs of the fixture, the second on other connections. *)
Definition test_ffi_replay_authenticator_changes_on_fresh_client_random (client_3 : qclient) (server_3 : qserver)
  : prog world unit :=
  p ← drive_resumed client_2 server_2;
  q ← drive_resumed client_3 server_3;
  let '(s1, c1) := p in
  let '(s2, c2) := q in
  modify (set_mem (replay_vars zeros zeros [] 0 0 0 0));;
  rc ← authenticator s1 1; assert_ (rc =? 0) "s1";;
  rc ← authenticator s2 2; assert_ (rc =? 0) "s2";;
  b1 ← read_u8 (Ptr 1 0) 32;
  b2 ← read_u8 (Ptr 2 0) 32;
  assert_ (negb (bool_decide (b1 = b2))) "independent resumptions produce distinct authenticators";;
  free_both s1 c1;; free_both s2 c2.
End Tests.

(** ** What they rest on *)

Section Facts.
Context {R : Rustls}.

Abbreviation held b1 b2 x l1 l2 sm lk w := (set_mem (replay_vars b1 b2 x l1 l2 sm lk) w).

(** The authenticator of a captured entry, in either pair of locals. *)
Lemma authenticator_1 h e b1 b2 x l1 l2 sm lk w :
  w_qconn w !! h = Some e → is_server e = true → client_random_captured e = true → zlen (client_random e) = 32 → zlen b1 = 32 →
  authenticator h 1 (held b1 b2 x l1 l2 sm lk w) = Ret 0 (held (client_random e) b2 x 32 l2 sm lk (set_error None w)).
Proof.
  intros He Hs Hc Hr Hb. unfold authenticator, rlsm_quic_server_conn_replay_authenticator, or_invalid. run. cbn [is_null].
  rewrite (write_u64_ok _ _ _ {[ 1%N := [0]; 2%N := [l2]; 3%N := [sm]; 4%N := [lk] ]}) by done.
  rewrite (with_Some quic_conn_table h _ _ e) by done. unfold is_server in Hs. destruct (conn e); [done|]. rewrite Hc. cbn [negb].
  rewrite (write_u8_ok _ _ _ {[ 1%N := client_random e; 2%N := b2; 3%N := x ]}); [done|].
  rewrite (store_front _ _ b1) by (done || lia). rewrite splice_full by (unfold zlen in *; lia). done.
Qed.

Lemma authenticator_2 h e b1 b2 x l1 l2 sm lk w :
  w_qconn w !! h = Some e → is_server e = true → client_random_captured e = true → zlen (client_random e) = 32 → zlen b2 = 32 →
  authenticator h 2 (held b1 b2 x l1 l2 sm lk w) = Ret 0 (held b1 (client_random e) x l1 32 sm lk (set_error None w)).
Proof.
  intros He Hs Hc Hr Hb. unfold authenticator, rlsm_quic_server_conn_replay_authenticator, or_invalid. run. cbn [is_null].
  rewrite (write_u64_ok _ _ _ {[ 1%N := [l1]; 2%N := [0]; 3%N := [sm]; 4%N := [lk] ]}) by done.
  rewrite (with_Some quic_conn_table h _ _ e) by done. unfold is_server in Hs. destruct (conn e); [done|]. rewrite Hc. cbn [negb].
  rewrite (write_u8_ok _ _ _ {[ 1%N := b1; 2%N := client_random e; 3%N := x ]}); [done|].
  rewrite (store_front _ _ b2) by (done || lia). rewrite splice_full by (unfold zlen in *; lia). done.
Qed.

Lemma probe_ok {A} h e (f : QuicConnEntry → A) w : w_qconn w !! h = Some e → probe h f w = Ret (f e) w.
Proof. intros He. unfold probe. run. by rewrite (with_Some quic_conn_table h _ _ e). Qed.

(** Whatever rustls makes of the bytes, a call returns and the hook has seen them. *)
Lemma read_any h e o n b1 b2 x l1 l2 sm lk w :
  w_qconn w !! h = Some e → 0 < n ≤ i32_max → 0 ≤ o → o + n ≤ zlen x →
  ∃ rc e' w' sm' lk', rlsm_quic_conn_read_hs h (Ptr 3 o) n (Ptr 3 0) (Ptr 4 0) (held b1 b2 x l1 l2 sm lk w) =
      Ret rc (held b1 b2 x l1 l2 sm' lk' w') ∧
    w_qconn w' = <[h := e']> (w_qconn w) ∧ same_capture (capture_client_random e (sub o n x)) e' ∧ w_next w' = w_next w.
Proof.
  intros He Hn Ho Hx. unfold rlsm_quic_conn_read_hs, or_invalid. run. cbn [is_null andb].
  rewrite (proj2 (Z.ltb_ge _ _)), (proj2 (Z.eqb_neq _ _)) by lia. cbv beta iota.
  rewrite as_usize_nonneg_i32 by (unfold in_i32, i32_min in *; lia).
  rewrite (read_u8_ok _ (Ptr 3 o) n (sub o n x)).
  2: { unfold load. change (m_u8 (w_mem (set_error None (held b1 b2 x l1 l2 sm lk w))) !! 3%N) with (Some x). cbv beta iota.
       by rewrite (proj2 (fits_spec _ _ _)) by lia. }
  rewrite (with_mut_Some quic_conn_table h _ _ e) by done. rewrite elapsed_us_eq.
  set (t1 := as_u64 (reading _)).
  rewrite (write_u64_ok _ _ _ {[ 1%N := [l1]; 2%N := [l2]; 3%N := [sm]; 4%N := [t1] ]}) by done.
  destruct (conn_read_hs (conn (capture_client_random e (sub o n x))) (sub o n x)) as [c' res] eqn:Er. rewrite elapsed_us_eq.
  set (t2 := as_u64 (reading _)).
  rewrite (write_u64_ok _ _ _ {[ 1%N := [l1]; 2%N := [l2]; 3%N := [t2]; 4%N := [t1] ]}) by done.
  pose proof (conn_read_hs_side (capture_client_random e (sub o n x)) (sub o n x) c' res Er) as Hside.
  destruct res as [er|u].
  - eexists (-1), _, (set_qconn _ (set_error (Some _) (ticked (ticked w)))), t2, t1.
    split; [reflexivity|]. split; [done|]. split; [|done]. etrans; [exact Hside|apply same_capture_alert].
  - eexists 0, _, (set_qconn _ (set_error None (ticked (ticked w)))), t2, t1.
    split; [reflexivity|]. by split_and!.
Qed.

(** ** The tests without the fixture *)

Section Fresh.
Context (g : bytes * bytes * cert) `{!CertWorks R g} (s : qserver).
Context (server_new : qserver_new (test_server_config g h3 u32_max) V1 [] = inr s).

Lemma fresh_server_ok w :
  0 < w_next w → w_next w + 2 ≤ i32_max →
  ∃ h w', fresh_server g w = Ret h w' ∧ w_qconn w' !! h = Some (new_entry (QuicServer s)).
Proof.
  intros H1 H2. unfold fresh_server, build_server_config_via_ffi.
  set (wm := set_mem (setup_memory g h3 [] (-1) 0 0) w).
  pose proof (server_config_new_ok g h3 [] u32_max (-1) 0 0 w ltac:(done) ltac:(by right) ltac:(lia)) as E.
  set (w1 := set_qcfg_server _ _) in E. set (w2 := set_mem (setup_memory g h3 [] (w_next w) 0 0) w1).
  assert (Ec : (modify (set_mem (setup_memory g h3 [] (-1) 0 0));;
    rc ← server_config_new g h3 u32_max; assert_ (rc =? 0) "rlsm_quic_server_config_new must succeed";;
    out_handle ← read_i32 (Ptr 1 0); assert_ (0 <? out_handle) "out_handle";;
    o ← with_ quic_server_cfg_table out_handle (λ cfg, mret cfg);
    expect o "config handle must exist") w = Ret (test_server_config g h3 u32_max) w2).
  { rewrite (bind_Ret (modify _) _ _ tt wm) by done. rewrite (bind_Ret _ _ _ _ _ E), assert_pass.
    rewrite (bind_Ret _ _ _ _ _ (read_i32_ok w2 (Ptr 1 0) (w_next w) eq_refl)).
    rewrite (proj2 (Z.ltb_lt _ _)) by lia. rewrite assert_pass. run.
    by rewrite (with_Some quic_server_cfg_table (w_next w) _ _ (test_server_config g h3 u32_max)) by apply lookup_insert_eq. }
  rewrite (bind_Ret _ _ _ _ _ Ec), server_new.
  assert (Hc : 0 < counter w2) by (change (0 < w_next w + 1); lia).
  rewrite (bind_Ret _ _ _ _ _ (insert_pos quic_conn_table _ w2 Hc)). eexists _, _. split; [done|]. apply lookup_insert_eq.
Qed.

Lemma unavailable_test w :
  0 < w_next w → w_next w + 2 ≤ i32_max →
  ∃ w', test_ffi_replay_authenticator_unavailable_before_client_hello g w = Ret tt w'.
Proof.
  intros H1 H2. destruct (fresh_server_ok w H1 H2) as (h & w1 & E & Hl).
  unfold test_ffi_replay_authenticator_unavailable_before_client_hello. rewrite (bind_Ret _ _ _ _ _ E).
  set (w2 := held zeros [] [] 999 0 0 0 w1). rewrite (bind_Ret (modify _) _ _ tt w2) by done.
  set (w3 := held zeros [] [] 0 0 0 0 (set_error None w1)).
  assert (E3 : authenticator h 1 w2 = Ret 1 w3).
  { unfold authenticator, rlsm_quic_server_conn_replay_authenticator, or_invalid. run. cbn [is_null].
    rewrite (write_u64_ok _ _ _ {[ 1%N := [0]; 2%N := [0]; 3%N := [0]; 4%N := [0] ]}) by done.
    by rewrite (with_Some quic_conn_table h _ _ (new_entry (QuicServer s))). }
  rewrite (bind_Ret _ _ _ _ _ E3), assert_pass.
  rewrite (bind_Ret (len_is 1 0 _) _ w3 tt w3) by done.
  rewrite (bind_Ret _ _ _ _ _ (conn_free_some h _ w3 Hl)). by eexists.
Qed.

Lemma fragmented_test w :
  0 < w_next w → w_next w + 2 ≤ i32_max →
  ∃ w', test_ffi_client_random_captured_handles_fragmented_first_read_hs g w = Ret tt w'.
Proof.
  intros H1 H2. destruct (fresh_server_ok w H1 H2) as (h & w1 & E & Hl).
  unfold test_ffi_client_random_captured_handles_fragmented_first_read_hs. rewrite (bind_Ret _ _ _ _ _ E).
  rewrite (bind_Ret (modify _) _ _ tt (held [] [] full 0 0 0 0 w1)) by done.
  destruct (read_any h _ 0 5 [] [] full 0 0 0 0 w1 Hl) as (rc & e1 & w2 & sm & lk & E1 & Q1 & C1 & _); [by vm_compute..|].
  rewrite (bind_Ret _ _ _ _ _ E1).
  destruct C1 as [S1 C1]. specialize (C1 _ (capture_step (new_entry (QuicServer s)) [] (sub 0 5 full) eq_refl (captures_new s))).
  rewrite (bind_Ret _ _ _ _ _ (probe_ok h e1 _ (held [] [] full 0 0 sm lk w2) ltac:(simpl; by rewrite Q1, lookup_insert_eq))).
  rewrite (cap_len _ _ C1), (cap_flag _ _ C1). rewrite !assert_pass.
  destruct (read_any h e1 5 33 [] [] full 0 0 sm lk w2) as (rc' & e2 & w3 & sm' & lk' & E2 & Q2 & C2 & _);
    [by rewrite Q1, lookup_insert_eq|by vm_compute..|].
  rewrite (bind_Ret _ _ _ _ _ E2).
  destruct C2 as [S2 C2]. rewrite is_server_capture in S1. specialize (C2 _ (capture_step _ _ (sub 5 33 full) S1 C1)).
  assert (He2 : w_qconn (held [] [] full 0 0 sm' lk' w3) !! h = Some e2) by (simpl; by rewrite Q2, lookup_insert_eq).
  rewrite (bind_Ret _ _ _ _ _ (probe_ok h e2 _ _ He2)).
  rewrite (cap_len _ _ C2), (cap_flag _ _ C2), (cap_random _ _ C2). rewrite !assert_pass.
  rewrite (bind_Ret _ _ _ _ _ (conn_free_some h _ _ He2)). by eexists.
Qed.
End Fresh.

(** ** The tests on a resumed connection *)

(** The fixture gets 0-RTT keys and a ClientHello from the two connections. *)
Definition resumes (c : qclient) (s : qserver) : Prop :=
  ∃ st c' s', resumed_loop 16 sticky_new (c, s) = Ret (true, st) (c', s') ∧ st_captured st = true.

Abbreviation stream c s := (concat (resumed_flights 16 c s)).

Lemma resumed_loop_keys n st c s st' c' s' :
  resumed_loop n st (c, s) = Ret (true, st') (c', s') → is_Some (qserver_zero_rtt_keys s').
Proof.
  revert st c s. induction n as [|n IH]; intros st c s; simpl; [done|].
  destruct (qclient_write_hs c) as [[c1 buf] kc].
  destruct (nonempty buf); [destruct (qserver_read_hs s buf) as [s1 [er|u]]; [done|]|];
    (destruct (is_some _) eqn:Z1; [intros [= <- <- <-]; by destruct (qserver_zero_rtt_keys _)|]);
    destruct (qserver_write_hs _) as [[s2 buf2] ks];
    (destruct (is_some (qserver_zero_rtt_keys s2)) eqn:Z2; [intros [= <- <- <-]; by destruct (qserver_zero_rtt_keys _)|]);
    (destruct (nonempty buf2); [destruct (qclient_read_hs c1 buf2) as [c2 [er|u']]; [done|]|]); apply IH.
Qed.

Lemma drive_resumed_ok c s w :
  resumes c s → 0 < w_next w → w_next w + 2 ≤ i32_max →
  ∃ e s' w', drive_resumed c s w = Ret (w_next w, w_next w + 1) w' ∧ w_next w' = w_next w + 2 ∧
    w_qconn w' !! w_next w = Some e ∧ is_Some (w_qconn w' !! (w_next w + 1)) ∧
    (∀ h, h < w_next w → w_qconn w' !! h = w_qconn w !! h) ∧
    captures e (stream c s) ∧ hello_seen (stream c s) = true ∧
    conn e = QuicServer s' ∧ is_Some (qserver_zero_rtt_keys s').
Proof.
  intros (st & c' & s' & El & Hst) H1 H2. unfold drive_resumed.
  destruct (resumed_loop_captures 16 (new_entry (QuicServer s)) [] c s true st c' s') as (e & He & -> & Hc);
    [done|apply captures_new|exact El|]. pose proof (resumed_loop_keys _ _ _ _ _ _ _ El) as Hk.
  rewrite El, Hst, !assert_pass. rewrite app_nil_l in Hc. clear El. revert Hc Hst. generalize (stream c s) as d. intros d Hc Hst.
  assert (P1 : 0 < counter w) by apply H1. rewrite (bind_Ret _ _ _ _ _ (insert_pos quic_conn_table _ w P1)).
  change (counter w) with (w_next w). rewrite as_i32_id by (unfold in_i32, i32_min, i32_max in *; lia). cbn [expect].
  set (w1 := set_map quic_conn_table _ _). rewrite (bind_Ret (mret (w_next w)) _ w1 (w_next w) w1 eq_refl).
  assert (P2 : 0 < counter w1) by (change (0 < w_next w + 1); lia).
  rewrite (bind_Ret _ _ _ _ _ (insert_pos quic_conn_table _ w1 P2)).
  change (counter w1) with (w_next w + 1). rewrite as_i32_id by (unfold in_i32, i32_min, i32_max in *; lia). cbn [expect].
  eexists (server_entry s' (sticky_of e)), s', _. split; [reflexivity|]. split_and!; try done.
  - simpl. lia.
  - simpl. rewrite lookup_insert_ne by lia. apply lookup_insert_eq.
  - simpl. by rewrite lookup_insert_eq.
  - intros h Hh. simpl. by rewrite !lookup_insert_ne by lia.
  - by destruct Hc; split.
  - by rewrite <- (cap_flag _ _ Hc).
Qed.

Lemma hello_random_len d : hello_seen d = true → hello_random d = sub 6 32 d ∧ zlen (sub 6 32 d) = 32.
Proof.
  intros Hd. unfold hello_random. rewrite Hd. split; [done|]. unfold hello_seen in Hd. breflect.
  apply zlen_sub, fits_spec. lia.
Qed.

Section Resumed.
Context (c : qclient) (s : qserver) (Hres : resumes c s).

Abbreviation random := (sub 6 32 (stream c s)).
Abbreviation room w := (0 < w_next w ∧ w_next w + 4 ≤ i32_max) (only parsing).
Abbreviation passes test w := (∃ w', test w = Ret tt w').

Lemma with_resumed_ok w :
  room w → ∃ h ch e s' w', (∀ body, with_resumed c s body w = body h ch (held zeros zeros [] 0 0 0 0 w')) ∧
    w_qconn w' !! h = Some e ∧ is_server e = true ∧ captures e (stream c s) ∧ client_random_captured e = true ∧
    client_random e = random ∧ zlen random = 32 ∧ conn e = QuicServer s' ∧ is_Some (qserver_zero_rtt_keys s') ∧
    0 < w_next w' < i32_max.
Proof.
  intros [H1 H2]. destruct (drive_resumed_ok c s w Hres H1 ltac:(lia)) as (e & s' & w' & E & N & Q & _ & _ & C & D & S & K).
  destruct (hello_random_len _ D) as [Hr Hl].
  exists (w_next w), (w_next w + 1), e, s', w'. split_and!; try done; try lia.
  - intros body. unfold with_resumed. by rewrite (bind_Ret _ _ _ _ _ E).
  - unfold is_server. by rewrite S.
  - by rewrite (cap_flag _ _ C).
  - by rewrite (cap_random _ _ C), Hr.
Qed.

Lemma read_buf1 b1 b2 x l1 l2 sm lk w : zlen b1 = 32 →
  read_u8 (Ptr 1 0) 32 (held b1 b2 x l1 l2 sm lk w) = Ret b1 (held b1 b2 x l1 l2 sm lk w).
Proof. intros Hb. apply read_u8_ok. rewrite (load_front _ _ b1) by (done || lia). by rewrite <- Hb, sub_all. Qed.

Lemma read_buf2 b1 b2 x l1 l2 sm lk w : zlen b2 = 32 →
  read_u8 (Ptr 2 0) 32 (held b1 b2 x l1 l2 sm lk w) = Ret b2 (held b1 b2 x l1 l2 sm lk w).
Proof. intros Hb. apply read_u8_ok. rewrite (load_front _ _ b2) by (done || lia). by rewrite <- Hb, sub_all. Qed.

Lemma stable_test w : room w → passes (test_ffi_replay_authenticator_stable_across_verbatim_replay c s) w.
Proof.
  intros Hr. unfold test_ffi_replay_authenticator_stable_across_verbatim_replay.
  destruct (with_resumed_ok w Hr) as (h & ch & e & s' & w' & -> & Q & S & C & F & Er & El & _).
  rewrite <- Er in El.
  rewrite (bind_Ret _ _ _ _ _ (authenticator_1 h e zeros zeros [] 0 0 0 0 w' Q S F El eq_refl)), assert_pass.
  set (w1 := set_error None w').
  rewrite (bind_Ret (len_is 1 32 _) _ _ tt (held (client_random e) zeros [] 32 0 0 0 w1)) by done.
  rewrite (bind_Ret _ _ _ _ _ (authenticator_2 h e (client_random e) zeros [] 32 0 0 0 w1 Q S F El eq_refl)), assert_pass.
  set (w2 := set_error None w1).
  rewrite (bind_Ret (len_is 2 32 _) _ _ tt (held (client_random e) (client_random e) [] 32 32 0 0 w2)) by done.
  rewrite (bind_Ret _ _ _ _ _ (read_buf1 _ _ _ _ _ _ _ _ El)), (bind_Ret _ _ _ _ _ (read_buf2 _ _ _ _ _ _ _ _ El)).
  rewrite bool_decide_true, assert_pass by done. apply free_both_ret.
Qed.

(** The next two pass exactly when the random of the ClientHello is not zero. *)
Lemma shape_test w : room w →
  if forallb (λ b, b =? 0) random then ∃ msg, test_ffi_replay_authenticator_output_shape c s w = Panic msg
  else passes (test_ffi_replay_authenticator_output_shape c s) w.
Proof.
  intros Hr. unfold test_ffi_replay_authenticator_output_shape.
  destruct (with_resumed_ok w Hr) as (h & ch & e & s' & w' & -> & Q & S & C & F & Er & El & _).
  rewrite <- Er in *.
  rewrite (bind_Ret _ _ _ _ _ (authenticator_1 h e zeros zeros [] 0 0 0 0 w' Q S F El eq_refl)), assert_pass.
  set (w1 := set_error None w').
  rewrite (bind_Ret (len_is 1 32 _) _ _ tt (held (client_random e) zeros [] 32 0 0 0 w1)) by done.
  rewrite (bind_Ret _ _ _ _ _ (read_buf1 _ _ _ _ _ _ _ _ El)).
  destruct (forallb _ _); [by eexists|]. cbn [negb]. rewrite assert_pass. apply free_both_ret.
Qed.

Lemma captured_test w : room w →
  if forallb (λ b, b =? 0) random then ∃ msg, test_ffi_client_random_captured_on_first_read_hs c s w = Panic msg
  else passes (test_ffi_client_random_captured_on_first_read_hs c s) w.
Proof.
  intros Hr. unfold test_ffi_client_random_captured_on_first_read_hs.
  destruct (with_resumed_ok w Hr) as (h & ch & e & s' & w' & -> & Q & S & C & F & Er & El & _).
  rewrite (bind_Ret _ _ _ _ _ (probe_ok h e _ (held zeros zeros [] 0 0 0 0 w') Q)). cbn [fst snd]. rewrite F, assert_pass, Er.
  assert (existsb (λ b, negb (b =? 0)) random = negb (forallb (λ b, b =? 0) random)) as ->.
  { clear. generalize random. intros l. induction l as [|x l IH]; [done|]. simpl. rewrite IH. by destruct (x =? 0). }
  destruct (forallb _ _); [by eexists|]. cbn [negb]. rewrite assert_pass. apply free_both_ret.
Qed.

(** Whatever rustls answers to the second ClientHello. *)
Lemma first_only_test w : room w → passes (test_ffi_client_random_captured_on_first_clienthello_only c s) w.
Proof.
  intros Hr. unfold test_ffi_client_random_captured_on_first_clienthello_only.
  destruct (with_resumed_ok w Hr) as (h & ch & e & s' & w' & -> & Q & S & C & F & Er & El & _).
  rewrite (bind_Ret _ _ _ _ _ (probe_ok h e _ (held zeros zeros [] 0 0 0 0 w') Q)).
  rewrite (bind_Ret (modify _) _ _ tt (held [] [] synthetic 0 0 0 0 w')) by done.
  destruct (read_any h e 0 38 [] [] synthetic 0 0 0 0 w' Q) as (rc & e1 & w2 & sm & lk & E1 & Q1 & [_ C1] & _); [by vm_compute..|].
  rewrite (bind_Ret _ _ _ _ _ E1).
  assert (Hc : capture_client_random e (sub 0 38 synthetic) = e) by (unfold capture_client_random; by rewrite F, andb_false_r).
  rewrite Hc in C1. specialize (C1 _ C).
  rewrite (bind_Ret _ _ _ _ _ (probe_ok h e1 _ (held [] [] synthetic 0 0 sm lk w2) ltac:(simpl; by rewrite Q1, lookup_insert_eq))).
  rewrite bool_decide_true, assert_pass by (by rewrite (cap_random _ _ C1), (cap_random _ _ C)). apply free_both_ret.
Qed.

Lemma zero_rtt_test w : room w → passes (test_server_0rtt_keys_returns_success_on_resumed_conn c s) w.
Proof.
  intros Hr. unfold test_server_0rtt_keys_returns_success_on_resumed_conn.
  destruct (with_resumed_ok w Hr) as (h & ch & e & s' & w' & -> & Q & S & C & F & Er & El & Hs & [dk Hk] & Hn).
  rewrite (bind_Ret (modify _) _ _ tt (set_mem (start []) w')) by done.
  set (fr z w0 := set_mem (vars (replicate 4096 0) 0 [] 0 z 0 u64_MAX u64_MAX) w0).
  rewrite (bind_Ret (write_i32 p_kh (-1)) _ _ tt (fr (-1) w')) by done.
  assert (E : ∃ w1, rlsm_quic_server_conn_zero_rtt_keys h p_kh (fr (-1) w') = Ret 0 (fr (w_next w') w1)).
  { unfold rlsm_quic_server_conn_zero_rtt_keys. run. change (is_null p_kh) with false. cbv beta iota.
    rewrite (with_Some quic_conn_table h _ _ e) by done. rewrite Hs, Hk. rewrite (insert_pos keys_table) by (simpl; lia).
    change (counter (set_error None (fr (-1) w'))) with (w_next w').
    rewrite as_i32_id by (unfold in_i32, i32_min in *; lia).
    exists (set_keys (<[w_next w' := {| local := {| header := NoOpHpKey2 "local"; packet := NoOpPacketKey "local" |};
       remote := wrap_keys dk; last_local_pn := None |}]> (w_keys w')) (set_next (w_next w' + 1) (set_error None w'))). done. }
  destruct E as [w1 E]. rewrite (bind_Ret _ _ _ _ _ E), assert_pass.
  rewrite (bind_Ret _ _ _ _ _ (read_i32_ok (fr (w_next w') w1) p_kh (w_next w') eq_refl)).
  rewrite (proj2 (Z.ltb_lt _ _)) by lia. rewrite assert_pass. apply free_both_ret.
Qed.

(** Two resumptions have two authenticators exactly when their randoms differ. *)
Lemma fresh_random_test c3 s3 w :
  resumes c3 s3 → room w →
  if bool_decide (random = sub 6 32 (stream c3 s3))
  then ∃ msg, test_ffi_replay_authenticator_changes_on_fresh_client_random c s c3 s3 w = Panic msg
  else passes (test_ffi_replay_authenticator_changes_on_fresh_client_random c s c3 s3) w.
Proof.
  intros H3 [H1 H2]. unfold test_ffi_replay_authenticator_changes_on_fresh_client_random.
  destruct (drive_resumed_ok c s w Hres H1 ltac:(lia)) as (e & s' & w1 & E1 & N1 & Q1 & _ & _ & C1 & D1 & S1 & _).
  destruct (drive_resumed_ok c3 s3 w1 H3 ltac:(lia) ltac:(lia)) as (e3 & s3' & w2 & E2 & N2 & Q2 & _ & Keep & C2 & D2 & S2 & _).
  destruct (hello_random_len _ D1) as [R1 L1]. destruct (hello_random_len _ D2) as [R2 L2].
  rewrite <- R1, <- (cap_random _ _ C1) in *. rewrite <- R2, <- (cap_random _ _ C2) in *.
  rewrite (bind_Ret _ _ _ _ _ E1), (bind_Ret _ _ _ _ _ E2). cbv beta iota.
  rewrite (bind_Ret (modify _) _ _ tt (held zeros zeros [] 0 0 0 0 w2)) by done.
  assert (Q1' : w_qconn w2 !! w_next w = Some e) by (rewrite Keep by lia; done).
  rewrite (bind_Ret _ _ _ _ _ (authenticator_1 (w_next w) e zeros zeros [] 0 0 0 0 w2 Q1' ltac:(unfold is_server; by rewrite S1)
    ltac:(by rewrite (cap_flag _ _ C1)) L1 eq_refl)), assert_pass. set (w3 := set_error None w2).
  rewrite (bind_Ret _ _ _ _ _ (authenticator_2 (w_next w1) e3 (client_random e) zeros [] 32 0 0 0 w3 Q2
    ltac:(unfold is_server; by rewrite S2) ltac:(by rewrite (cap_flag _ _ C2)) L2 eq_refl)), assert_pass.
  rewrite (bind_Ret _ _ _ _ _ (read_buf1 _ _ _ _ _ _ _ _ L1)), (bind_Ret _ _ _ _ _ (read_buf2 _ _ _ _ _ _ _ _ L2)).
  destruct (bool_decide _); [by eexists|]. cbn [negb]. rewrite assert_pass.
  destruct (free_both_ret (w_next w) (w_next w + 1) (held (client_random e) (client_random e3) [] 32 32 0 0 (set_error None w3))) as [w4 E4].
  rewrite (bind_Ret _ _ _ _ _ E4). apply free_both_ret.
Qed.
End Resumed.

(** The tests of the replay authenticator, with any rustls: those about the hook
    and the call pass whatever the connections do with the bytes; the three about
    the random of the ClientHello pass exactly when it is not zero, or when two of
    them differ. *)
Theorem authenticator_tests_decided (g : bytes * bytes * cert) `{!CertWorks R g} s0 c s c3 s3 w :
  qserver_new (test_server_config g h3 u32_max) V1 [] = inr s0 → resumes c s → resumes c3 s3 →
  0 < w_next w → w_next w + 4 ≤ i32_max →
  let ends b test := if b : bool then ∃ w', test w = Ret tt w' else ∃ msg, test w = Panic msg in
  let random := sub 6 32 (stream c s) in
  let zero := forallb (λ b, b =? 0) random in
  ends true (test_ffi_replay_authenticator_unavailable_before_client_hello g) ∧
  ends true (test_ffi_client_random_captured_handles_fragmented_first_read_hs g) ∧
  ends true (test_ffi_replay_authenticator_stable_across_verbatim_replay c s) ∧
  ends true (test_ffi_client_random_captured_on_first_clienthello_only c s) ∧
  ends true (test_server_0rtt_keys_returns_success_on_resumed_conn c s) ∧
  ends (negb zero) (test_ffi_replay_authenticator_output_shape c s) ∧
  ends (negb zero) (test_ffi_client_random_captured_on_first_read_hs c s) ∧
  ends (negb (bool_decide (random = sub 6 32 (stream c3 s3))))
    (test_ffi_replay_authenticator_changes_on_fresh_client_random c s c3 s3).
Proof.
  intros Hs0 Hr Hr3 H1 H2 ends random zero. pose proof (conj H1 H2) as Hroom.
  split_and!.
  - apply (unavailable_test g s0 Hs0 w); lia.
  - apply (fragmented_test g s0 Hs0 w); lia.
  - exact (stable_test c s Hr w Hroom).
  - exact (first_only_test c s Hr w Hroom).
  - exact (zero_rtt_test c s Hr w Hroom).
  - pose proof (shape_test c s Hr w Hroom) as H. unfold ends, zero, random. destruct (forallb _ _); exact H.
  - pose proof (captured_test c s Hr w Hroom) as H. unfold ends, zero, random. destruct (forallb _ _); exact H.
  - pose proof (fresh_random_test c s Hr c3 s3 w Hr3 Hroom) as H. unfold ends, random. destruct (bool_decide _); exact H.
Qed.
End Facts.

(** The hypotheses hold of the toy connections of the fixture. *)
Definition toy_cert : bytes * bytes * @cert toy := ([5], [7], 3).

#[local] Instance toy_cert_works : CertWorks toy toy_cert.
Proof. by apply (Build_CertWorks toy toy_cert 5 [] 7 ([], 0) id [3] localhost). Defined.

Lemma toy_resumes : resumes (R:=toy) hello_client keyed_server.
Proof. eexists _, _, _. split; [vm_compute; reflexivity|done]. Qed.

Example authenticator_tests_toy :
  (∃ w', test_ffi_replay_authenticator_output_shape (R:=toy) hello_client keyed_server (boot (mem_of [])) = Ret tt w') ∧
  ∃ msg, test_ffi_replay_authenticator_changes_on_fresh_client_random (R:=toy) hello_client keyed_server
           hello_client keyed_server (boot (mem_of [])) = Panic msg.
Proof.
  destruct (authenticator_tests_decided (R:=toy) toy_cert
    {| q_script := []; q_seen := []; q_hs := true; q_tp := Some []; q_zero := None |} hello_client keyed_server hello_client keyed_server
    (boot (mem_of [])) eq_refl toy_resumes toy_resumes ltac:(done) ltac:(done)) as (_ & _ & _ & _ & _ & H & _ & H').
  rewrite bool_decide_true in H' by done. by split.
Qed.
End ReplayTests.
