(* ===== verification/RejectTest.v ===== *)
(** * Declining early data

    [reject_early_data_declines_resumed_0rtt] of
    [src/crates/librustls-mojo/src/quic_hs/tests_resumption_fixture.rs] as a
    program. The pairs of connections it makes with its session store are
    arguments: for each of its two rounds the pair of the first handshake and the
    pair that resumes. *)

From S2P Require Import Prelude Effects Handles Rustls World Frames Toy QuicKeys QuicKeysFacts.
From S2P Require Import QuicHs QuicHsFacts Loopback ConnTests ConnTestsFacts.
Import Effects Handles Rustls World Frames Toy QuicKeys QuicKeysFacts QuicHs QuicHsFacts Loopback ConnTests ConnTestsFacts.

Module RejectTest.

Section Test.
Context {R : Rustls}.

(** A driver on two connections the test owns. *)
Definition on_pair {A} (c : qclient) (s : qserver) (p : prog (qclient * qserver) A)
  : prog world (A * (qclient * qserver)) := λ w,
  match p (c, s) with
  | Ret a q => Ret (a, q) w
  | Panic m => Panic m
  | Undef => Undef
  | NoFuel => NoFuel
  end.

(** [for _ in 0..n] up to its [break]. *)
Fixpoint converge (n : nat) : prog (qclient * qserver) unit :=
  match n with
  | O => mret tt
  | S n =>
      pump_once;;
      done ← gets (λ p, finished p.1 p.2);
      if (done : bool) then mret tt else converge n
  end.

Definition put (c : QuicConn) : prog world Z :=
  o ← insert quic_conn_table (new_entry c);
  expect o "called `Option::unwrap()` on a `None` value".

Definition is_resumed (k : option HandshakeKind) : bool := match k with Some Resumed => true | _ => false end.

(** One round of the test. *)
Definition reject_round (reject : bool) (c1 : qclient) (s1 : qserver) (client : qclient) (server : qserver)
  : prog world unit :=
  p ← on_pair c1 s1 drive_first_handshake;
  let '(_, (c1, s1)) := p in
  finished_h ← put (QuicServer s1);
  rc ← rlsm_quic_server_conn_reject_early_data finished_h; assert_ (rc =? -1) "finished server connection";;
  client_h ← put (QuicClient c1);
  rc ← rlsm_quic_server_conn_reject_early_data client_h; assert_ (rc =? -1) "client connection";;
  h ← put (QuicServer server);
  (if reject then rc ← rlsm_quic_server_conn_reject_early_data h; assert_ (rc =? 0) "reject" else mret tt);;
  o ← remove quic_conn_table h;
  match o with
  | Some e =>
      match conn e with
      | QuicServer server =>
          q ← on_pair client server (converge 32);
          let '(_, (client, server)) := q in
          assert_ (finished client server) "resumed handshake did not converge";;
          assert_ (is_resumed (qserver_handshake_kind server)) "handshake kind";;
          assert_ (Bool.eqb (qclient_is_early_data_accepted client) (negb reject)) "reject";;
          remove quic_conn_table finished_h;; remove quic_conn_table client_h;; mret tt
      | QuicClient _ => panic "server entry"
      end
  | None => panic "server entry"
  end.

Definition reject_early_data_declines_resumed_0rtt (first : bool → qclient * qserver)
    (second : bool → qclient * qserver) : prog world unit :=
  reject_round false (first false).1 (first false).2 (second false).1 (second false).2;;
  reject_round true (first true).1 (first true).2 (second true).1 (second true).2;;
  rc ← rlsm_quic_server_conn_reject_early_data (-99); assert_ (rc =? -1) "invalid handle".

(** ** What rustls must do *)

(** The first handshake ends; the new server is in its handshake; with the early
    data declined or not, the exchange ends resumed, and the client was told. *)
Record declines (reject : bool) (c1 : qclient) (s1 : qserver) (client : qclient) (server : qserver) : Prop := {
  dc_first : ∃ c1' s1', drive_first_handshake (c1, s1) = Ret tt (c1', s1') ∧ qserver_is_handshaking s1' = false;
  dc_fresh : qserver_is_handshaking server = true;
  dc_second : ∃ rs, exchange 32 client (if reject then qserver_reject_early_data server else server) = Some rs ∧
    let '(c, s) := ends rs client (if reject then qserver_reject_early_data server else server) in
    qserver_handshake_kind s = Some Resumed ∧ qclient_is_early_data_accepted c = negb reject;
}.

Lemma converge_exchange n c s rs :
  exchange n c s = Some rs →
  converge n (c, s) = Ret tt (ends rs c s) ∧ finished (ends rs c s).1 (ends rs c s).2 = true.
Proof.
  revert c s rs. induction n as [|n IH]; intros c s rs; [done|]. simpl.
  pose proof (pump_once_round c s) as Hp. destruct (exchange_round c s) as [r|]; [|done]. simpl.
  rewrite (bind_Ret _ _ _ _ _ Hp). run. simpl. destruct (finished _ _) eqn:Ef; [by intros [= <-]|].
  destruct (progress r); [|done]. destruct (exchange n _ _) as [rs'|] eqn:Ex; [|done].
  intros [= <-]. rewrite ends_cons. by apply IH.
Qed.

Lemma put_ok c w : 0 < w_next w < i32_max →
  put c w = Ret (w_next w) (set_qconn (<[w_next w := new_entry c]> (w_qconn w)) (set_next (w_next w + 1) w)).
Proof.
  intros Hn. unfold put. assert (Hc : 0 < counter w) by apply Hn.
  rewrite (bind_Ret _ _ _ _ _ (insert_pos quic_conn_table _ w Hc)). change (counter w) with (w_next w).
  by rewrite as_i32_id by (unfold in_i32, i32_min, i32_max in *; lia).
Qed.

(** The call on an entry. *)
Lemma reject_eq h e w : w_qconn w !! h = Some e →
  rlsm_quic_server_conn_reject_early_data h w =
  match conn e with
  | QuicServer s =>
      if qserver_is_handshaking s
      then Ret 0 (set_qconn (<[h := with_conn e (QuicServer (qserver_reject_early_data s))]> (w_qconn w)) (set_error None w))
      else Ret (-1) (set_qconn (<[h := e]> (w_qconn w)) (set_error (Some reject_not_handshaking_msg) w))
  | QuicClient _ => Ret (-1) (set_qconn (<[h := e]> (w_qconn w)) (set_error (Some reject_not_handshaking_msg) w))
  end.
Proof.
  intros He. unfold rlsm_quic_server_conn_reject_early_data, assert_reject_early_data, assert_, or_invalid. run.
  rewrite (with_mut_Some quic_conn_table h _ _ e) by done. destruct (conn e) as [c|s]; [done|].
  by destruct (qserver_is_handshaking s).
Qed.

Lemma reject_round_ok reject c1 s1 client server w :
  declines reject c1 s1 client server → 0 < w_next w → w_next w + 3 ≤ i32_max →
  ∃ w', reject_round reject c1 s1 client server w = Ret tt w' ∧ w_next w' = w_next w + 3 ∧
    (∀ h, h < w_next w → w_qconn w' !! h = w_qconn w !! h).
Proof.
  intros [(c1' & s1' & E1 & F1) Hfresh (rs & Hx & Hends)] Hn Hmax. unfold reject_round. set (n := w_next w) in *.
  rewrite (bind_Ret (on_pair c1 s1 _) _ w (tt, (c1', s1')) w) by (unfold on_pair; by rewrite E1). cbv beta iota.
  rewrite (bind_Ret _ _ _ _ _ (put_ok _ w ltac:(lia))). set (w1 := set_qconn _ _).
  pose proof (reject_eq n (new_entry (QuicServer s1')) w1 (lookup_insert_eq _ _ _)) as R1. simpl conn in R1.
  cbv beta iota in R1. rewrite F1 in R1. rewrite (bind_Ret _ _ _ _ _ R1), assert_pass. set (w2 := set_qconn _ (set_error _ w1)).
  assert (N2 : w_next w2 = n + 1) by done.
  rewrite (bind_Ret _ _ _ _ _ (put_ok _ w2 ltac:(lia))). rewrite N2. set (w3 := set_qconn _ (set_next _ w2)).
  pose proof (reject_eq (n + 1) (new_entry (QuicClient c1')) w3 (lookup_insert_eq _ _ _)) as R2. simpl conn in R2.
  cbv beta iota in R2. rewrite (bind_Ret _ _ _ _ _ R2), assert_pass. set (w4 := set_qconn _ (set_error _ w3)).
  assert (N4 : w_next w4 = n + 1 + 1) by done.
  rewrite (bind_Ret _ _ _ _ _ (put_ok _ w4 ltac:(lia))). rewrite N4. set (w5 := set_qconn _ (set_next _ w4)).
  set (server' := if reject then qserver_reject_early_data server else server) in *.
  assert (E6 : ∃ e w6, (if reject then rc ← rlsm_quic_server_conn_reject_early_data (n + 1 + 1); assert_ (rc =? 0) "reject"
                   else mret tt) w5 = Ret tt w6 ∧ w_qconn w6 = <[n + 1 + 1 := e]> (w_qconn w4) ∧
      conn e = QuicServer server' ∧ w_next w6 = n + 3).
  { pose proof (reject_eq (n + 1 + 1) (new_entry (QuicServer server)) w5 (lookup_insert_eq _ _ _)) as R3. simpl conn in R3.
    cbv beta iota in R3. rewrite Hfresh in R3. unfold server'. destruct reject.
    - rewrite (bind_Ret _ _ _ _ _ R3). eexists _, _. split; [reflexivity|]. simpl. rewrite insert_insert_eq. split_and!; try done. lia.
    - eexists _, w5. split; [reflexivity|]. split_and!; try done. simpl. lia. }
  destruct E6 as (e & w6 & E6 & Q6 & C6 & N6). rewrite (bind_Ret _ _ _ _ _ E6).
  rewrite (bind_Ret _ _ _ _ _ (remove_eq quic_conn_table (n + 1 + 1) w6)).
  change (map_of quic_conn_table w6 !! (n + 1 + 1)) with (w_qconn w6 !! (n + 1 + 1)). rewrite Q6, lookup_insert_eq, C6.
  destruct (converge_exchange 32 client server' rs Hx) as [Hc Hf]. destruct (ends rs client server') as [c s].
  destruct Hends as [Hkind Hacc]. set (w7 := set_map quic_conn_table _ _).
  rewrite (bind_Ret (on_pair client server' _) _ w7 (tt, (c, s)) w7) by (unfold on_pair; by rewrite Hc). cbv beta iota.
  simpl in Hf. rewrite Hf, assert_pass, Hkind, assert_pass, Hacc, Bool.eqb_reflx, assert_pass.
  eexists. split; [reflexivity|]. split; [done|]. intros h Hh. unfold w7. simpl.
  rewrite Q6. rewrite !lookup_delete_ne, lookup_insert_ne by lia. simpl.
  by rewrite !lookup_insert_ne by lia.
Qed.

(** The test passes: refused for the finished and the client connection and for no
    handle, taken by the server in its handshake. *)
Theorem reject_test_passes first second w :
  (∀ b, declines b (first b).1 (first b).2 (second b).1 (second b).2) →
  0 < w_next w → w_next w + 6 ≤ i32_max → w_qconn w !! (-99) = None →
  ∃ w', reject_early_data_declines_resumed_0rtt first second w = Ret tt w'.
Proof.
  intros Hd H1 H2 H99. unfold reject_early_data_declines_resumed_0rtt.
  destruct (reject_round_ok false _ _ _ _ w (Hd false) H1 ltac:(lia)) as (w1 & E1 & N1 & Q1).
  destruct (reject_round_ok true _ _ _ _ w1 (Hd true) ltac:(lia) ltac:(lia)) as (w2 & E2 & N2 & Q2).
  rewrite (bind_Ret _ _ _ _ _ E1), (bind_Ret _ _ _ _ _ E2).
  unfold rlsm_quic_server_conn_reject_early_data, assert_reject_early_data, assert_, or_invalid. run.
  rewrite (with_mut_None quic_conn_table (-99)); [by eexists|]. simpl. by rewrite Q2, Q1 by lia.
Qed.
End Test.

(** A library that does it: the server's flight starts with 9 when it declined, and
    the client looks at the first byte it was sent. *)
Definition resuming : Rustls := Eval cbv beta delta [toy_with] in toy_with
  (λ _, live_client) (λ _, live_server) toy_read_hs (λ q, nonempty (q_script q)) q_tp
  Resumed (λ q, negb (default 0 (head (q_seen q)) =? 9))
  (λ q, {| q_script := ([9], None) :: q_script q; q_seen := q_seen q; q_hs := q_hs q; q_tp := q_tp q; q_zero := q_zero q |}).

Lemma resuming_declines b :
  declines (R:=resuming) b (live_client []) (live_server []) (live_client []) (live_server []).
Proof.
  split; [|done|].
  - eexists _, _. split; [vm_compute; reflexivity|done].
  - exists (default [] (exchange (R:=resuming) 32 (live_client [])
              (if b then @qserver_reject_early_data resuming (live_server []) else live_server []))).
    split; [apply some_default; destruct b; by_eval|destruct b; vm_compute; split; reflexivity].
Qed.
End RejectTest.
