(* ===== verification/QuicPacket.v ===== *)
(** * Wire-level QUIC packets

    Models [src/conformance/tls-conformance/src/quic_packet.rs]: the builder of
    Initial, Handshake and 1-RTT packets, the header and CONNECTION_CLOSE
    parsers, and the opening of an Initial packet ([decrypt_initial_inplace] of
    [lib.rs]). The packet-protection calls go through the class [KeysApi]: the
    builder only sees slices going in and out. The instance is the shim itself,
    called on slices placed in memory of their own. *)

From S2P Require Import Prelude Effects Handles Rustls World Utf8 Varint QuicKeys.
Import Effects Handles Rustls World Utf8 Varint QuicKeys.

Module QuicPacket.

(** ** The interface to the shim

    Each call returns its status code and the buffers as it leaves them. *)
Class KeysApi (S : Type) := {
  api_initial_keys : Z → bytes → Z → prog S Z;
  api_keys_free : Z → prog S Z;
  api_tag_len : Z → prog S Z;
  api_local_encrypt : Z → Z → bytes → bytes → Z → prog S (Z * bytes);
  api_local_header_protect : Z → bytes → Z → bytes → prog S (Z * (Z * bytes));
  api_remote_decrypt : Z → Z → bytes → bytes → prog S (Z * bytes);
  api_remote_header_unprotect : Z → bytes → Z → bytes → prog S (Z * (Z * bytes));
}.

Section Shim.
Context {R : Rustls}.

(** A slice of the calling program in a block of its own, and its release. *)
Definition alloc_u8 (l : bytes) : prog world ptr := λ w,
  let b := fresh (dom (m_u8 (w_mem w))) in
  Ret (Ptr b 0) (set_mem (set_u8 (<[b := l]> (m_u8 (w_mem w))) (w_mem w)) w).

Definition release (p : ptr) : prog world unit := λ w,
  match p with
  | Null => Ret tt w
  | Ptr b _ => Ret tt (set_mem (set_u8 (delete b (m_u8 (w_mem w))) (w_mem w)) w)
  end.

Definition shim_initial_keys (version : Z) (dcid : bytes) (is_client : Z) : prog world Z :=
  pd ← alloc_u8 dcid;
  h ← rlsm_initial_keys version pd (zlen dcid) is_client;
  release pd;;
  mret h.

Definition shim_local_encrypt (h pn : Z) (header payload : bytes) (pt : Z)
  : prog world (Z * bytes) :=
  ph ← alloc_u8 header;
  pp ← alloc_u8 payload;
  rc ← rlsm_keys_local_encrypt h pn ph (zlen header) pp pt (zlen payload);
  payload' ← read_u8 pp (zlen payload);
  release ph;; release pp;;
  mret (rc, payload').

Definition shim_remote_decrypt (h pn : Z) (header payload : bytes) : prog world (Z * bytes) :=
  ph ← alloc_u8 header;
  pp ← alloc_u8 payload;
  rc ← rlsm_keys_remote_decrypt h pn ph (zlen header) pp (zlen payload);
  payload' ← read_u8 pp (zlen payload);
  release ph;; release pp;;
  mret (rc, payload').

Definition shim_header
    (call : Z → ptr → Z → ptr → ptr → Z → prog world Z) (h : Z) (sample : bytes)
    (first_byte : Z) (pn_bytes : bytes) : prog world (Z * (Z * bytes)) :=
  ps ← alloc_u8 sample;
  pf ← alloc_u8 [first_byte];
  pp ← alloc_u8 pn_bytes;
  rc ← call h ps (zlen sample) pf pp (zlen pn_bytes);
  fb ← read_u8 pf 1;
  pn_bytes' ← read_u8 pp (zlen pn_bytes);
  release ps;; release pf;; release pp;;
  mret (rc, (default 0 (head fb), pn_bytes')).

#[global] Instance shim_api : KeysApi world := {
  api_initial_keys := shim_initial_keys;
  api_keys_free := rlsm_keys_free;
  api_tag_len := rlsm_keys_tag_len;
  api_local_encrypt := shim_local_encrypt;
  api_local_header_protect := shim_header rlsm_keys_local_header_protect;
  api_remote_decrypt := shim_remote_decrypt;
  api_remote_header_unprotect := shim_header rlsm_keys_remote_header_unprotect;
}.
End Shim.

(** ** Types *)

Inductive Role := Client | Server.

Record LongHeader := {
  version : Z;
  packet_type : Z;
  lh_dcid : bytes;
  lh_scid : bytes;
  token : bytes;
  payload_offset : Z;
  lh_length : Z;
}.

Record ShortHeader := { sh_dcid : bytes; packet_number_offset : Z }.

Record ConnectionClose := { error_code : Z; frame_type : Z; reason : bytes }.

Definition QUIC_VERSION_V1 : Z := 1.
Definition MAX_CID_LEN : Z := 20.
Definition INITIAL_MIN_BYTES : Z := 1200.

Definition role_to_int (role : Role) : Z := match role with Client => 1 | Server => 0 end.

(** [i32::try_from] on a length. *)
Definition i32_try_from (n : Z) : option Z := if n <=? i32_max then Some n else None.

(** ** Wrappers: [inl] is an [FfiError]'s code. *)

Section Packets.
Context {S : Type} `{KeysApi S}.

Definition initial_keys (role : Role) (dcid : bytes) : prog S (Z + Z) :=
  match i32_try_from (zlen dcid) with
  | None => mret (inl (-1))
  | Some _ =>
      h ← api_initial_keys QUIC_VERSION_V1 dcid (role_to_int role);
      if h <=? 0 then mret (inl h) else mret (inr h)
  end.

(** [Drop for KeysHandle]. *)
Definition keys_drop (keys : Z) : prog S unit :=
  if 0 <? keys then (api_keys_free keys;; mret tt) else mret tt.

Definition keys_tag_len (keys : Z) : prog S (Z + Z) :=
  n ← api_tag_len keys;
  if n <? 0 then mret (inl n) else mret (inr n).

Definition local_encrypt (keys pn : Z) (header payload : bytes) (plaintext_len : Z)
  : prog S ((Z + Z) * bytes) :=
  match i32_try_from (zlen header), i32_try_from (zlen payload), i32_try_from plaintext_len with
  | Some _, Some _, Some pt =>
      '(rc, payload') ← api_local_encrypt keys pn header payload pt;
      mret (if rc <? 0 then inl rc else inr rc, payload')
  | _, _, _ => mret (inl (-1), payload)
  end.

Definition local_header_protect (keys : Z) (sample : bytes) (first_byte : Z) (pn_bytes : bytes)
  : prog S ((Z + unit) * (Z * bytes)) :=
  match i32_try_from (zlen sample), i32_try_from (zlen pn_bytes) with
  | Some _, Some _ =>
      '(rc, out) ← api_local_header_protect keys sample first_byte pn_bytes;
      mret (if rc =? 0 then inr tt else inl rc, out)
  | _, _ => mret (inl (-1), (first_byte, pn_bytes))
  end.

Definition remote_decrypt (keys pn : Z) (header payload : bytes) : prog S ((Z + Z) * bytes) :=
  match i32_try_from (zlen header), i32_try_from (zlen payload) with
  | Some _, Some _ =>
      '(rc, payload') ← api_remote_decrypt keys pn header payload;
      mret (if rc <? 0 then inl rc else inr rc, payload')
  | _, _ => mret (inl (-1), payload)
  end.

Definition remote_header_unprotect (keys : Z) (sample : bytes) (first_byte : Z)
    (pn_bytes : bytes) : prog S ((Z + unit) * (Z * bytes)) :=
  match i32_try_from (zlen sample), i32_try_from (zlen pn_bytes) with
  | Some _, Some _ =>
      '(rc, out) ← api_remote_header_unprotect keys sample first_byte pn_bytes;
      mret (if rc =? 0 then inr tt else inl rc, out)
  | _, _ => mret (inl (-1), (first_byte, pn_bytes))
  end.

(** ** The builder *)

Record PacketBuilder := { dcid : bytes; scid : bytes; packet_number : Z }.

(** The [debug_assert]s on the lengths are not in a release build. *)
Definition builder_new (dcid scid : bytes) : PacketBuilder :=
  {| dcid := dcid; scid := scid; packet_number := 0 |}.

Definition next_pn (b : PacketBuilder) : PacketBuilder :=
  {| dcid := dcid b; scid := scid b; packet_number := as_u64 (packet_number b + 1) |}.

(** [encode_varint] into a vector: [None] panics. *)
Definition push_varint (v : Z) (out : bytes) : prog S bytes :=
  match encode_varint v out with
  | Some out' => mret out'
  | None => panic ("varint out of range: " +:+ pretty v)
  end.

(** [expect] on a [Result<_, FfiError>]. *)
Definition expect_ok {A} (r : Z + A) (msg : string) : prog S A :=
  match r with
  | inr a => mret a
  | inl code => panic (msg +:+ ": FfiError { code: " +:+ pretty code +:+ " }")
  end.

Definition protect_header_in_place (pkt : bytes) (pn_offset pn_length keys : Z)
  : prog S bytes :=
  let so := pn_offset + 4 in
  if negb (fits so 16 pkt) then panic "slice index out of range"
  else
    let sample := sub so 16 pkt in
    '(r, (first', pn')) ← local_header_protect keys sample (default 0 (head pkt))
                            (sub pn_offset pn_length pkt);
    expect_ok r "HP";;
    mret (splice pn_offset pn' (splice 0 [first'] pkt)).

Definition encode_1rtt (b : PacketBuilder) (payload : bytes) (keys : Z)
  : prog S (bytes * PacketBuilder) :=
  let pn := packet_number b in
  let pn_length := 4 in
  t ← keys_tag_len keys;
  tag_len ← expect_ok t "tag len";
  let pkt := [Z.lor 0x40 (pn_length - 1)] ++ dcid b in
  let pn_offset := zlen pkt in
  let pkt := pkt ++ be_bytes 4 (as_u32 pn) in
  let header_len := pn_offset + pn_length in
  let plaintext_len := zlen payload in
  let header_bytes := pkt in
  '(r, buf) ← local_encrypt keys pn header_bytes
                (payload ++ replicate (Z.to_nat tag_len) 0) plaintext_len;
  expect_ok r "aead encrypt (1-RTT)";;
  pkt ← protect_header_in_place (pkt ++ buf) pn_offset pn_length keys;
  mret (pkt, next_pn b).

Definition encode_long (b : PacketBuilder) (packet_type : Z) (crypto_payload : bytes)
    (keys : Z) (is_initial : bool) : prog S (bytes * PacketBuilder) :=
  let pn := packet_number b in
  let pn_length := 4 in
  t ← keys_tag_len keys;
  tag_len ← expect_ok t "tag len";
  qp ← push_varint 0 [0x06];
  qp ← push_varint (zlen crypto_payload) qp;
  let qp := qp ++ crypto_payload in
  let h := [Z.lor (Z.lor 0xC0 (Z.shiftl packet_type 4)) (pn_length - 1)]
           ++ be_bytes 4 1
           ++ [as_u8 (zlen (dcid b))] ++ dcid b
           ++ [as_u8 (zlen (scid b))] ++ scid b in
  h ← (if is_initial then push_varint 0 h else mret h);
  let unpadded := pn_length + zlen qp + tag_len in
  let lvw := if is_initial then 2 else varint_width unpadded in
  let total := zlen h + lvw + unpadded in
  let qp := if is_initial && (total <? INITIAL_MIN_BYTES)
            then qp ++ replicate (Z.to_nat (INITIAL_MIN_BYTES - total)) 0 else qp in
  let length := pn_length + zlen qp + tag_len in
  h ← (if is_initial then
         if length <? 2 ^ 14 then
           match be_bytes 2 (as_u16 length) with
           | [b0; b1] => mret (h ++ [Z.lor b0 0x40; b1])
           | _ => panic "unreachable"
           end
         else panic "Initial Length too large"
       else push_varint length h);
  let pn_offset := zlen h in
  let h := h ++ be_bytes 4 (as_u32 pn) in
  let plaintext_len := zlen qp in
  '(r, buf) ← local_encrypt keys pn h (qp ++ replicate (Z.to_nat tag_len) 0) plaintext_len;
  expect_ok r "aead encrypt (long header)";;
  pkt ← protect_header_in_place (h ++ buf) pn_offset pn_length keys;
  mret (pkt, next_pn b).

Definition encode_initial (b : PacketBuilder) (crypto_payload : bytes) (keys : Z) :=
  encode_long b 0 crypto_payload keys true.

Definition encode_handshake (b : PacketBuilder) (crypto_payload : bytes) (keys : Z) :=
  encode_long b 2 crypto_payload keys false.

(** ** Parsers *)

(** [buf.get(i)?] *)
Definition byte_at (buf : bytes) (i : Z) : option Z := buf !! Z.to_nat i.

Definition parse_long_header (buf : bytes) : option LongHeader :=
  if (zlen buf <? 7) || (Z.land (default 0 (head buf)) 0x80 =? 0) then None
  else
    let packet_type := Z.land (Z.shiftr (default 0 (head buf)) 4) 0x03 in
    let version := be_val (sub 1 4 buf) in
    dcil ← byte_at buf 5;
    let i := 6 in
    if (MAX_CID_LEN <? dcil) || (zlen buf <? i + dcil) then None
    else
      let dcid := sub i dcil buf in
      let i := i + dcil in
      scil ← byte_at buf i;
      let i := i + 1 in
      if (MAX_CID_LEN <? scil) || (zlen buf <? i + scil) then None
      else
        let scid := sub i scil buf in
        let i := i + scil in
        '(token, i) ← (if packet_type =? 0 then
                         '(tl, c) ← decode_varint (drop (Z.to_nat i) buf);
                         let i := i + c in
                         if zlen buf <? i + tl then None else Some (sub i tl buf, i + tl)
                       else Some ([], i));
        '(length, c) ← decode_varint (drop (Z.to_nat i) buf);
        let i := i + c in
        if zlen buf <? i + length then None
        else Some {| version := version; packet_type := packet_type; lh_dcid := dcid;
                     lh_scid := scid; token := token; payload_offset := i;
                     lh_length := length |}.

Definition parse_short_header (buf : bytes) (dcid_len : Z) : option ShortHeader :=
  if (zlen buf =? 0) || negb (Z.land (default 0 (head buf)) 0x80 =? 0)
     || (zlen buf <? 1 + dcid_len) then None
  else Some {| sh_dcid := sub 1 dcid_len buf; packet_number_offset := 1 + dcid_len |}.

(** [&buf[i..]] and [&buf[i..i + n]], which panic out of range. *)
Definition slice_from (i : Z) (buf : bytes) : prog S bytes :=
  if (0 <=? i) && (i <=? zlen buf) then mret (drop (Z.to_nat i) buf)
  else panic "range start index out of range for slice".
Definition slice (i n : Z) (buf : bytes) : prog S bytes :=
  if fits i n buf then mret (sub i n buf) else panic "range end index out of range for slice".

Definition parse_connection_close (payload : bytes) : prog S (option ConnectionClose) :=
  match head payload with
  | None => mret None
  | Some frame_type =>
      if negb (frame_type =? 0x1c) && negb (frame_type =? 0x1d) then mret None
      else
        let i := 1 in
        rest ← slice_from i payload;
        match decode_varint rest with
        | None => mret None
        | Some (error_code, c) =>
            let i := i + c in
            o ← (if frame_type =? 0x1c then
                   rest ← slice_from i payload;
                   mret ('(_, c) ← decode_varint rest; Some (i + c))
                 else mret (Some i));
            match o with
            | None => mret None
            | Some i =>
                rest ← slice_from i payload;
                match decode_varint rest with
                | None => mret None
                | Some (rl, c) =>
                    let i := i + c in
                    if zlen payload <? i + rl then mret None
                    else
                      text ← slice i rl payload;
                      mret (Some {| error_code := error_code; frame_type := frame_type;
                                    reason := from_utf8_lossy text |})
                end
            end
        end
  end.

(** ** Opening an Initial packet (lib.rs)

    The function and the inline block it mirrors differ in the first word of
    their messages. *)

Definition decrypt_reply (prefix : string) (pkt : bytes) (header : LongHeader) (keys : Z)
  : prog S (string + bytes) :=
  let reply := pkt in
  let pn_offset := payload_offset header in
  let sample_off := pn_offset + 4 in
  if zlen reply <? sample_off + 16 then
    mret (inl (prefix +:+ "reply too short for HP sample: need " +:+ pretty (sample_off + 16)
                 +:+ ", got " +:+ pretty (zlen reply)))
  else
    let sample := sub sample_off 16 reply in
    '(r, (first_byte, rest4)) ← remote_header_unprotect keys sample (default 0 (head reply))
                                  (sub pn_offset 4 reply);
    let reply := splice pn_offset rest4 (splice 0 [first_byte] reply) in
    match r with
    | inl code => mret (inl (prefix +:+ "HP unprotect failed: rc=" +:+ pretty code))
    | inr _ =>
        let pn_length := Z.land first_byte 0x03 + 1 in
        let pn := be_val (sub pn_offset pn_length reply) in
        let header_len := pn_offset + pn_length in
        let header_bytes := sub 0 header_len reply in
        let end_ := pn_offset + lh_length header in
        if zlen reply <? end_ then
          mret (inl (prefix +:+ "reply truncated: payload end " +:+ pretty end_
                       +:+ " > len " +:+ pretty (zlen reply)))
        else if end_ <? header_len then panic "slice index starts after its end"
        else
          '(r, payload') ← remote_decrypt keys pn header_bytes
                             (sub header_len (end_ - header_len) reply);
          let reply := splice header_len payload' reply in
          match r with
          | inl code => mret (inl (prefix +:+ "AEAD decrypt failed: rc=" +:+ pretty code))
          | inr pt_len => mret (inr (sub header_len pt_len reply))
          end
    end.

Definition decrypt_initial_inplace (pkt : bytes) (header : LongHeader) (keys : Z)
  : prog S (string + bytes) := decrypt_reply "Initial " pkt header keys.
End Packets.
End QuicPacket.
