(* ===== verification/QuicPacketFacts.v ===== *)
(** * Properties of the packet layer

    What the packet builder needs of the shim is the class [KeysApiLaws]: two
    linked handles of which one seals what the other opens. The round trips of
    whole packets are proved against it, and the shim discharges it from the
    lemmas of [QuicKeysFacts]. The parsers have properties of their own. *)

From S2P Require Import Prelude Effects Handles Rustls World Utf8 Varint QuicKeys Toy.
From S2P Require Import QuicKeysFacts QuicPacket.
Import Effects Handles Rustls World Utf8 Varint QuicKeys Toy QuicKeysFacts QuicPacket.

Module QuicPacketFacts.

(** ** The contract of packet protection

    A [link] names a sealing and an opening handle; [linked l s n] says that in
    state [s] both are alive with keys of one secret and no packet number from
    [n] on was used. *)
Class KeysApiLaws {S : Type} (A : KeysApi S) := {
  link : Type;
  link_local : link → Z;
  link_remote : link → Z;
  link_tag : link → Z;
  linked : link → S → Z → Prop;
  law_tag_range : ∀ l s n, linked l s n → 16 ≤ link_tag l ≤ 255;
  law_tag_len : ∀ l s n, linked l s n →
    ∃ s', api_tag_len (link_local l) s = Ret (link_tag l) s' ∧ linked l s' n;
  law_seal : ∀ l s n pn hdr pt, linked l s n → n ≤ pn →
    zlen hdr ≤ i32_max → zlen pt + link_tag l ≤ i32_max →
    ∃ ct s', api_local_encrypt (link_local l) pn hdr
               (pt ++ replicate (Z.to_nat (link_tag l)) 0) (zlen pt) s = Ret (zlen ct, ct) s' ∧
      zlen ct = zlen pt + link_tag l ∧ linked l s' (pn + 1) ∧
      ∀ s2 m, linked l s2 m → ∃ tail s3,
        api_remote_decrypt (link_remote l) pn hdr ct s2 = Ret (zlen pt, pt ++ tail) s3 ∧
        zlen tail = link_tag l ∧ linked l s3 m;
  law_mask : ∀ l s n sample b pn, linked l s n → zlen sample = 16 → zlen pn = 4 →
    Z.land b 3 = 3 → Z.testbit b 7 = true →
    ∃ b' pn' s', api_local_header_protect (link_local l) sample b pn s = Ret (0, (b', pn')) s' ∧
      zlen pn' = 4 ∧ Z.shiftr b' 4 = Z.shiftr b 4 ∧ linked l s' n ∧
      ∀ s2 m, linked l s2 m → ∃ s3,
        api_remote_header_unprotect (link_remote l) sample b' pn' s2 = Ret (0, (b, pn)) s3 ∧
        linked l s3 m;
}.

(** ** Cutting a packet *)

Section Cut.
Context {A : Type} (buf k m l : list A) (off : Z).
Hypothesis Hbuf : buf = k ++ m ++ l.
Hypothesis Hoff : off = zlen k.

Lemma sub_at n : n = zlen m → sub off n buf = m.
Proof. intros ->. subst. apply sub_app_exact. Qed.

Lemma splice_at new : zlen new = zlen m → splice off new buf = k ++ new ++ l.
Proof. subst. apply splice_app. Qed.

Lemma drop_at : drop (Z.to_nat off) buf = m ++ l.
Proof. subst. unfold zlen. rewrite Nat2Z.id. apply drop_app_length. Qed.

Lemma fits_at n : n = zlen m → fits off n buf = true.
Proof. intros ->. subst. apply fits_app. Qed.
End Cut.

Lemma byte_at_mid buf k b l off : buf = k ++ b :: l → off = zlen k → byte_at buf off = Some b.
Proof.
  intros -> ->. unfold byte_at, zlen. rewrite Nat2Z.id, lookup_app_r by lia.
  by rewrite Nat.sub_diag.
Qed.

(** Equations between concatenations, and lengths of them. *)
Ltac solve_app := repeat first [rewrite <- app_assoc | rewrite <- app_comm_cons]; reflexivity.
Ltac solve_zlen := repeat first [rewrite zlen_app | rewrite zlen_cons | rewrite zlen_nil]; lia.

(** The Length field of an Initial packet: two bytes whatever the value. *)
Lemma forced_length v :
  0 ≤ v < 2 ^ 14 → ∃ b0 b1, be_bytes 2 (as_u16 v) = [b0; b1] ∧
    [Z.lor b0 0x40; b1] = tagged_bytes 1 v.
Proof.
  intros Hv. unfold as_u16. rewrite Z.mod_small by lia.
  rewrite be_bytes_cons, head_byte by (simpl; lia).
  eexists _, _. split; [done|]. change 0x40 with (64 * 1).
  rewrite tag_byte; [done|lia|]. apply tagged_head_bound. simpl. lia.
Qed.

(** ** Parsing a built header *)

(** Everything of a long header between its first byte and its Length. *)
Definition long_middle (ty : Z) (d s : bytes) : bytes :=
  be_bytes 4 1 ++ [zlen d] ++ d ++ [zlen s] ++ s ++ (if ty =? 0 then [0] else []).

Lemma first_byte_bits b ty :
  Z.shiftr b 4 = 12 + ty → 0 ≤ ty < 4 →
  Z.land b 0x80 ≠ 0 ∧ Z.land (Z.shiftr b 4) 0x03 = ty.
Proof.
  intros Hb Hty. split.
  - intros H0. assert (Ht : Z.testbit b 7 = true).
    { change 7 with (3 + 4). rewrite <- Z.shiftr_spec, Hb by lia.
      assert (ty = 0 ∨ ty = 1 ∨ ty = 2 ∨ ty = 3) as [-> | [-> | [-> | ->]]] by lia; done. }
    assert (H7 : Z.testbit (Z.land b 0x80) 7 = true).
    { by rewrite Z.land_spec, Ht. }
    by rewrite H0 in H7.
  - rewrite Hb. assert (ty = 0 ∨ ty = 1 ∨ ty = 2 ∨ ty = 3) as [-> | [-> | [-> | ->]]] by lia; done.
Qed.

Lemma parse_long_built b ty d s lenb len body :
  Z.shiftr b 4 = 12 + ty → 0 ≤ ty < 4 → zlen d ≤ MAX_CID_LEN → zlen s ≤ MAX_CID_LEN →
  decode_varint (lenb ++ body) = Some (len, zlen lenb) → 0 ≤ len ≤ zlen body →
  parse_long_header ((b :: long_middle ty d s) ++ lenb ++ body) =
    Some {| version := 1; packet_type := ty; lh_dcid := d; lh_scid := s; token := [];
            payload_offset := zlen (b :: long_middle ty d s) + zlen lenb; lh_length := len |}.
Proof.
  intros Hb Hty Hd Hs Hdec Hlen. destruct (first_byte_bits b ty Hb Hty) as [H80 H3].
  pose proof (zlen_nonneg d). pose proof (zlen_nonneg s). pose proof (zlen_nonneg lenb).
  set (tk := if ty =? 0 then [0] else []).
  set (buf := (b :: long_middle ty d s) ++ lenb ++ body).
  assert (Hm : long_middle ty d s = be_bytes 4 1 ++ [zlen d] ++ d ++ [zlen s] ++ s ++ tk) by done.
  assert (Htk : zlen tk = if ty =? 0 then 1 else 0) by (unfold tk; by case_if).
  assert (Hbe : zlen (be_bytes 4 1) = 4) by done.
  assert (Hver : be_val (be_bytes 4 1) = 1) by done.
  generalize dependent (be_bytes 4 1). intros be Hm Hbe Hver.
  assert (Hbuf : buf = [b] ++ be ++ [zlen d] ++ d ++ [zlen s] ++ s ++ tk ++ lenb ++ body).
  { unfold buf. rewrite Hm. solve_app. }
  assert (Hz : zlen buf = 7 + zlen d + zlen s + zlen tk + zlen lenb + zlen body).
  { rewrite Hbuf. solve_zlen. }
  pose proof (zlen_nonneg tk). pose proof (zlen_nonneg body).
  assert (Hhd : default 0 (head buf) = b) by (by rewrite Hbuf).
  assert (Hoff : zlen (b :: long_middle ty d s) = 7 + zlen d + zlen s + zlen tk).
  { rewrite Hm. solve_zlen. }
  unfold parse_long_header. rewrite Hhd, H3. unfold MAX_CID_LEN in *.
  rewrite (sub_at buf [b] be _ 1 Hbuf eq_refl 4), Hver by done.
  pass_guards. rewrite (byte_at_mid buf ([b] ++ be) (zlen d)
    (d ++ [zlen s] ++ s ++ tk ++ lenb ++ body)) by (rewrite ?Hbuf; solve_zlen || solve_app).
  simpl. pass_guards.
  rewrite (sub_at buf ([b] ++ be ++ [zlen d]) d ([zlen s] ++ s ++ tk ++ lenb ++ body))
    by (rewrite ?Hbuf; solve_zlen || solve_app).
  rewrite (byte_at_mid buf ([b] ++ be ++ [zlen d] ++ d) (zlen s)
    (s ++ tk ++ lenb ++ body)) by (rewrite ?Hbuf; solve_zlen || solve_app).
  simpl. pass_guards.
  rewrite (sub_at buf ([b] ++ be ++ [zlen d] ++ d ++ [zlen s]) s (tk ++ lenb ++ body))
    by (rewrite ?Hbuf; solve_zlen || solve_app).
  rewrite (drop_at buf ([b] ++ be ++ [zlen d] ++ d ++ [zlen s] ++ s) tk (lenb ++ body))
    by (rewrite ?Hbuf; solve_zlen || solve_app).
  match goal with |- (?c ≫= _) = _ => replace c with (Some (@nil Z, 7 + zlen d + zlen s + zlen tk)) end.
  - simpl. rewrite (drop_at buf ([b] ++ be ++ [zlen d] ++ d ++ [zlen s] ++ s ++ tk) lenb body)
      by (rewrite ?Hbuf; solve_zlen || solve_app).
    rewrite Hdec. simpl. pass_guards. do 2 f_equal. lia.
  - unfold tk in *. destruct (ty =? 0) eqn:E; [|do 2 f_equal; lia].
    change ([0] ++ lenb ++ body) with (varint 0 ++ lenb ++ body).
    rewrite decode_varint_app by lia. simpl. change (varint_width 0) with 1. pass_guards.
    f_equal. f_equal. lia.
Qed.

(** ** Sealing and opening a whole packet *)

Section Packets.
Context {S : Type} {A : KeysApi S} {L : KeysApiLaws A}.

Lemma sample_at (buf k ct rest : bytes) off :
  buf = k ++ ct ++ rest → off = zlen k → 16 ≤ zlen ct → sub off 16 buf = sub 0 16 ct.
Proof.
  intros -> -> H. rewrite sub_app_right, Z.sub_diag by lia. by apply sub_app_left.
Qed.

(** The masked packet, its sample and number read in place. *)
Lemma protect_ok l s n b mid pnb ct :
  linked l s n → Z.land b 3 = 3 → Z.testbit b 7 = true → zlen pnb = 4 → 16 ≤ zlen ct →
  ∃ b' pnb' s',
    protect_header_in_place ((b :: mid) ++ pnb ++ ct) (zlen (b :: mid)) 4 (link_local l) s
      = Ret ((b' :: mid) ++ pnb' ++ ct) s' ∧
    zlen pnb' = 4 ∧ Z.shiftr b' 4 = Z.shiftr b 4 ∧ linked l s' n ∧
    ∀ s2 m, linked l s2 m → ∃ s3,
      api_remote_header_unprotect (link_remote l) (sub 0 16 ct) b' pnb' s2
        = Ret (0, (b, pnb)) s3 ∧ linked l s3 m.
Proof.
  intros Hl H3 H7 Hpn Hct.
  assert (Hs : zlen (sub 0 16 ct) = 16) by (apply zlen_sub, fits_spec; lia).
  destruct (law_mask l s n (sub 0 16 ct) b pnb Hl Hs Hpn H3 H7)
    as (b' & pnb' & s' & E & Hpn' & Hb' & Hl' & Hun).
  exists b', pnb', s'. split_and!; try done. pose proof (zlen_nonneg (b :: mid)).
  unfold protect_header_in_place, local_header_protect.
  replace (fits (zlen (b :: mid) + 4) 16 ((b :: mid) ++ pnb ++ ct)) with true
    by (symmetry; apply fits_spec; rewrite !zlen_app; lia).
  rewrite (sample_at _ ((b :: mid) ++ pnb) ct [])
    by (rewrite ?app_nil_r; done || solve_app || solve_zlen).
  rewrite (sub_at ((b :: mid) ++ pnb ++ ct) (b :: mid) pnb ct) by (done || lia). simpl negb. cbv iota.
  unfold i32_try_from, i32_max. rewrite Hs, Hpn. simpl. run. rewrite E. simpl.
  f_equal. change (splice 0 [b'] (b :: mid ++ pnb ++ ct)) with ((b' :: mid) ++ pnb ++ ct).
  apply (splice_at _ (b' :: mid) pnb ct); [done|done|lia].
Qed.

(** What the receiver of a sealed packet gets, whatever is coalesced behind. *)
Definition opens_to (l : link) (first : Z) (mid pnb ct pt : bytes) : Prop :=
  ∀ hd rest s m, linked l s m → payload_offset hd = zlen (first :: mid) →
    lh_length hd = 4 + zlen ct → ∃ s',
    decrypt_initial_inplace ((first :: mid) ++ pnb ++ ct ++ rest) hd (link_remote l) s
      = Ret (inr pt) s' ∧ linked l s' m.

Lemma open_ok l b mid pn pnb b' pnb' ct pt :
  Z.land b 3 = 3 → zlen pnb = 4 → zlen pnb' = 4 → be_val pnb = pn →
  zlen ct = zlen pt + link_tag l → 16 ≤ zlen ct ≤ i32_max → zlen mid ≤ 2 ^ 20 →
  (∀ s2 m, linked l s2 m → ∃ s3,
    api_remote_header_unprotect (link_remote l) (sub 0 16 ct) b' pnb' s2
      = Ret (0, (b, pnb)) s3 ∧ linked l s3 m) →
  (∀ s2 m, linked l s2 m → ∃ tail s3,
    api_remote_decrypt (link_remote l) pn ((b :: mid) ++ pnb) ct s2
      = Ret (zlen pt, pt ++ tail) s3 ∧ zlen tail = link_tag l ∧ linked l s3 m) →
  opens_to l b' mid pnb' ct pt.
Proof.
  intros H3 Hpn Hpn' Hv Hct H16 Hmid Hun Hdec hd rest s m Hl Hoff Hlen.
  destruct (Hun s m Hl) as (s1 & E1 & Hl1).
  destruct (Hdec s1 m Hl1) as (tail & s2 & E2 & Htail & Hl2).
  exists s2. split; [|done]. pose proof (zlen_nonneg mid) as H0m.
  pose proof (zlen_nonneg rest). pose proof (zlen_nonneg pt).
  assert (Hz : zlen (b' :: mid) = 1 + zlen mid) by apply zlen_cons.
  set (pkt := (b' :: mid) ++ pnb' ++ ct ++ rest).
  set (pkt2 := (b :: mid) ++ pnb ++ ct ++ rest).
  assert (Hlp : zlen pkt = 5 + zlen mid + zlen ct + zlen rest) by (unfold pkt; solve_zlen).
  assert (Hlp2 : zlen pkt2 = zlen pkt) by (unfold pkt2, pkt; solve_zlen).
  assert (Hs : zlen (sub 0 16 ct) = 16) by (apply zlen_sub, fits_spec; lia).
  unfold decrypt_initial_inplace, decrypt_reply, remote_header_unprotect.
  rewrite Hoff, Hlen, Hz. pass_guards.
  rewrite (sample_at pkt ((b' :: mid) ++ pnb') ct rest)
    by (unfold pkt; solve_app || solve_zlen).
  rewrite (sub_at pkt (b' :: mid) pnb' (ct ++ rest)) by (done || solve_zlen).
  change (default 0 (head pkt)) with b'.
  unfold i32_try_from. rewrite Hs, Hpn'. unfold i32_max in *. pass_guards. run. rewrite E1.
  assert (Hsp : splice (1 + zlen mid) pnb (splice 0 [b] pkt) = pkt2).
  { change (splice 0 [b] pkt) with ((b :: mid) ++ pnb' ++ ct ++ rest).
    apply (splice_at _ (b :: mid) pnb' (ct ++ rest)); solve [done | solve_zlen]. }
  cbn beta iota. rewrite Hsp, H3. change (3 + 1) with 4. cbn iota.
  rewrite (sub_at pkt2 (b :: mid) pnb (ct ++ rest)), Hv by (done || solve_zlen).
  rewrite (sub_at pkt2 [] ((b :: mid) ++ pnb) (ct ++ rest))
    by (unfold pkt2; solve_app || solve_zlen).
  rewrite Hlp2. pass_guards.
  rewrite (sub_at pkt2 ((b :: mid) ++ pnb) ct rest) by (unfold pkt2; solve_app || solve_zlen).
  unfold remote_decrypt, i32_try_from, i32_max. rewrite zlen_app, zlen_cons, Hpn. pass_guards.
  run. rewrite E2. pass_guards. do 2 f_equal.
  rewrite (splice_at pkt2 ((b :: mid) ++ pnb) ct rest)
    by (unfold pkt2; solve_app || solve_zlen).
  apply (sub_at _ ((b :: mid) ++ pnb) pt (tail ++ rest)); solve [solve_app | solve_zlen].
Qed.

(** The last steps of both encoders. *)
Lemma seal_ok l s n pn b mid pnb pt msg {X} (x : X) :
  linked l s n → n ≤ pn → Z.land b 3 = 3 → Z.testbit b 7 = true →
  zlen pnb = 4 → be_val pnb = pn → zlen mid ≤ 2 ^ 20 → zlen pt + link_tag l ≤ 2 ^ 30 →
  ∃ b' pnb' ct s',
    ('(r, buf) ← local_encrypt (link_local l) pn ((b :: mid) ++ pnb)
                   (pt ++ replicate (Z.to_nat (link_tag l)) 0) (zlen pt);
     expect_ok r msg;;
     pkt ← protect_header_in_place (((b :: mid) ++ pnb) ++ buf) (zlen (b :: mid)) 4
             (link_local l);
     mret (pkt, x)) s = Ret ((b' :: mid) ++ pnb' ++ ct, x) s' ∧
    zlen pnb' = 4 ∧ zlen ct = zlen pt + link_tag l ∧ Z.shiftr b' 4 = Z.shiftr b 4 ∧
    linked l s' (pn + 1) ∧ opens_to l b' mid pnb' ct pt.
Proof.
  intros Hl Hn H3 H7 Hpn Hv Hmid Hpt. pose proof (law_tag_range l s n Hl).
  pose proof (zlen_nonneg mid). pose proof (zlen_nonneg pt).
  assert (Hh : zlen ((b :: mid) ++ pnb) = 5 + zlen mid) by solve_zlen.
  destruct (law_seal l s n pn ((b :: mid) ++ pnb) pt Hl Hn) as (ct & s1 & E1 & Hct & Hl1 & Hd);
    [unfold i32_max; lia..|].
  destruct (protect_ok l s1 (pn + 1) b mid pnb ct Hl1 H3 H7 Hpn ltac:(lia))
    as (b' & pnb' & s2 & E2 & Hpn' & Hb' & Hl2 & Hu).
  exists b', pnb', ct, s2. split_and!; try done.
  - unfold local_encrypt, i32_try_from, i32_max. rewrite Hh, zlen_app, zlen_replicate. pass_guards.
    run. rewrite E1. pass_guards. simpl expect_ok. run. by rewrite <- (app_assoc (b :: mid)), E2.
  - apply (open_ok l b mid pn pnb b' pnb' ct pt); try done. unfold i32_max. lia.
Qed.

Definition crypto_frame (data : bytes) : bytes := [0x06] ++ varint 0 ++ varint (zlen data) ++ data.

Lemma zlen_crypto_frame data :
  zlen data < 2 ^ 62 → zlen (crypto_frame data) = 2 + varint_width (zlen data) + zlen data.
Proof.
  intros. unfold crypto_frame. rewrite !zlen_app. unfold varint.
  rewrite !zlen_tagged_bytes. change (varint_width 0) with 1. rewrite zlen_cons, zlen_nil. lia.
Qed.

Lemma first_byte_long ty : 0 ≤ ty < 4 →
  let b := Z.lor (Z.lor 0xC0 (Z.shiftl ty 4)) (4 - 1) in
  Z.land b 3 = 3 ∧ Z.testbit b 7 = true ∧ Z.shiftr b 4 = 12 + ty.
Proof.
  intros. assert (ty = 0 ∨ ty = 1 ∨ ty = 2 ∨ ty = 3) as [-> | [-> | [-> | ->]]] by lia; done.
Qed.

Lemma push_varint_ok v out s : 0 ≤ v < 2 ^ 62 → push_varint (S:=S) v out s = Ret (out ++ varint v) s.
Proof. intros. unfold push_varint. by rewrite encode_varint_spec. Qed.

(** Length fields of both kinds. *)
Definition length_field (ty len : Z) : bytes :=
  if ty =? 0 then tagged_bytes 1 len else varint len.

Lemma zlen_length_field ty len :
  zlen (length_field ty len) = if ty =? 0 then 2 else varint_width len.
Proof. unfold length_field. case_if; [done|]. apply zlen_tagged_bytes. Qed.

Lemma decode_length_field ty len rest :
  0 ≤ len < 2 ^ 62 → (ty = 0 → len < 2 ^ 14) →
  decode_varint (length_field ty len ++ rest) = Some (len, zlen (length_field ty len)).
Proof.
  intros Hl Ht. rewrite zlen_length_field. unfold length_field. case_if; breflect.
  - apply decode_tagged_bytes; [lia|]. split; [lia|]. by apply Ht.
  - by apply decode_varint_app.
Qed.

Lemma zlen_long_middle ty d s :
  zlen (long_middle ty d s) = 6 + zlen d + zlen s + (if ty =? 0 then 1 else 0).
Proof.
  assert (zlen (be_bytes 4 1) = 4) by done. unfold long_middle.
  destruct (ty =? 0); solve_zlen.
Qed.

(** The padding an Initial gets. *)
Definition initial_pad (ty : Z) (d s crypto : bytes) (tag : Z) : nat :=
  if ty =? 0 then Z.to_nat (1200 - (zlen d + zlen s + 14 + zlen (crypto_frame crypto) + tag))
  else 0%nat.

(** The three steps of the long-header assembler before sealing. *)
Lemma header_step ty b d s' (s : S) : zlen d ≤ MAX_CID_LEN → zlen s' ≤ MAX_CID_LEN →
  let h := [b] ++ be_bytes 4 1 ++ [as_u8 (zlen d)] ++ d ++ [as_u8 (zlen s')] ++ s' in
  (if ty =? 0 then push_varint 0 h else mret h) s = Ret (b :: long_middle ty d s') s.
Proof.
  intros Hd Hs. cbv zeta. unfold MAX_CID_LEN, as_u8 in *. pose proof (zlen_nonneg d).
  pose proof (zlen_nonneg s'). rewrite !Z.mod_small by lia. unfold long_middle.
  generalize (be_bytes 4 1). intros be. case_if.
  - rewrite push_varint_ok by lia. f_equal. change (varint 0) with [0]. solve_app.
  - run. by rewrite app_nil_r.
Qed.

Lemma padding_step ty b d s crypto tag :
  let qp := crypto_frame crypto in
  let unpadded := 4 + zlen qp + tag in
  let total := zlen (b :: long_middle ty d s)
               + (if ty =? 0 then 2 else varint_width unpadded) + unpadded in
  (if (ty =? 0) && (total <? INITIAL_MIN_BYTES)
   then qp ++ replicate (Z.to_nat (INITIAL_MIN_BYTES - total)) 0 else qp)
    = qp ++ replicate (initial_pad ty d s crypto tag) 0.
Proof.
  cbv zeta. rewrite zlen_cons, zlen_long_middle. unfold initial_pad, INITIAL_MIN_BYTES.
  destruct (ty =? 0); cbn [andb]; [|by rewrite app_nil_r]. case_if; breflect.
  - do 2 f_equal. lia.
  - replace (Z.to_nat _) with 0%nat by lia. by rewrite app_nil_r.
Qed.

Lemma length_step ty len h (s : S) : 0 ≤ len < 2 ^ 62 → (ty = 0 → len < 2 ^ 14) →
  (if ty =? 0 then
     if len <? 2 ^ 14 then
       match be_bytes 2 (as_u16 len) with
       | [b0; b1] => mret (h ++ [Z.lor b0 0x40; b1])
       | _ => panic "unreachable"
       end
     else panic "Initial Length too large"
   else push_varint len h) s = Ret (h ++ length_field ty len) s.
Proof.
  intros Hl Ht. unfold length_field. case_if; breflect.
  - pass_guards. destruct (forced_length len) as (b0 & b1 & -> & <-); [lia|done].
  - by rewrite push_varint_ok.
Qed.

Lemma encode_long_ok l s n b ty crypto :
  let pad := initial_pad ty (dcid b) (scid b) crypto (link_tag l) in
  let qp := crypto_frame crypto ++ replicate pad 0 in
  let len := 4 + zlen qp + link_tag l in
  linked l s n → n ≤ packet_number b < 2 ^ 32 → 0 ≤ packet_number b → 0 ≤ ty < 4 →
  zlen (dcid b) ≤ MAX_CID_LEN → zlen (scid b) ≤ MAX_CID_LEN →
  zlen (crypto_frame crypto) + link_tag l < (if ty =? 0 then 2 ^ 14 - 4 else 2 ^ 30) →
  ∃ b' pnb' ct s',
    encode_long b ty crypto (link_local l) (ty =? 0) s =
      Ret ((b' :: long_middle ty (dcid b) (scid b) ++ length_field ty len) ++ pnb' ++ ct,
           next_pn b) s' ∧
    zlen pnb' = 4 ∧ zlen ct = zlen qp + link_tag l ∧ Z.shiftr b' 4 = 12 + ty ∧
    linked l s' (packet_number b + 1) ∧
    opens_to l b' (long_middle ty (dcid b) (scid b) ++ length_field ty len) pnb' ct qp.
Proof.
  intros pad qp len Hl Hn H0 Hty Hd Hs Hsz.
  destruct (law_tag_len l s n Hl) as (s1 & E1 & Hl1). pose proof (law_tag_range l s n Hl).
  assert (Hdata : zlen crypto < 2 ^ 62).
  { assert (zlen crypto ≤ zlen (crypto_frame crypto)).
    { unfold crypto_frame. rewrite !zlen_app. pose proof (zlen_nonneg (varint 0)).
      pose proof (zlen_nonneg (varint (zlen crypto))). rewrite zlen_cons, zlen_nil. lia. }
    case_if_in Hsz; lia. }
  pose proof (zlen_nonneg crypto). pose proof (zlen_nonneg (dcid b)).
  pose proof (zlen_nonneg (scid b)).
  destruct (first_byte_long ty Hty) as (B3 & B7 & B4).
  assert (Hqp : zlen qp = zlen (crypto_frame crypto) + Z.of_nat pad).
  { unfold qp. by rewrite zlen_app, zlen_replicate. }
  assert (Hlen : 0 ≤ len < 2 ^ 62 ∧ (ty = 0 → len < 2 ^ 14) ∧ len ≤ 2 ^ 30 + 4).
  { pose proof (zlen_nonneg (crypto_frame crypto)). unfold len. rewrite Hqp.
    unfold pad, initial_pad. destruct (ty =? 0) eqn:E; breflect; split_and!; lia. }
  destruct Hlen as (Hl62 & Hl14 & Hl30).
  set (mid := long_middle ty (dcid b) (scid b) ++ length_field ty len).
  set (pnb := be_bytes 4 (as_u32 (packet_number b))).
  assert (Hpnb : be_val pnb = packet_number b).
  { unfold pnb, as_u32. rewrite Z.mod_small by lia. rewrite be_val_be_bytes by (simpl; lia).
    apply Z.mod_small. simpl. lia. }
  assert (Hmid : zlen mid ≤ 2 ^ 20).
  { unfold mid. rewrite zlen_app, zlen_long_middle, zlen_length_field. unfold MAX_CID_LEN in *.
    pose proof (varint_width_pos len). repeat case_if; lia. }
  destruct (seal_ok l s1 n (packet_number b) _ mid pnb qp "aead encrypt (long header)" (next_pn b)
    Hl1 ltac:(lia) B3 B7 eq_refl Hpnb Hmid ltac:(unfold len in *; lia))
    as (b' & pnb' & ct & s' & E & Hp' & Hct & Hb' & Hl' & Ho).
  exists b', pnb', ct, s'. split_and!; try done; [|congruence].
  rewrite <- E. unfold encode_long.
  rewrite (bind_Ret _ _ s (inr (link_tag l)) s1)
    by (unfold keys_tag_len; run; rewrite E1; by pass_guards).
  rewrite (bind_Ret _ _ s1 (link_tag l) s1) by done. cbv zeta.
  rewrite (bind_Ret _ _ s1 _ s1 (push_varint_ok 0 [6] s1 ltac:(lia))).
  rewrite (bind_Ret _ _ s1 _ s1 (push_varint_ok (zlen crypto) _ s1 ltac:(lia))).
  rewrite <- !(app_assoc [6]), <- (app_assoc (varint 0)). fold (crypto_frame crypto).
  rewrite (bind_Ret _ _ s1 _ s1 (header_step ty _ _ _ s1 Hd Hs)).
  rewrite padding_step. fold pad qp len.
  rewrite (bind_Ret _ _ s1 _ s1 (length_step ty len _ s1 Hl62 Hl14)).
  done.
Qed.

(** A packet on the wire, followed by anything: the receiver's view. *)
Record received (l : link) (s : S) (b : PacketBuilder) (ty : Z) (pkt payload : bytes) : Prop := {
  received_header : ∀ rest, ∃ hd, parse_long_header (pkt ++ rest) = Some hd ∧
    version hd = 1 ∧ packet_type hd = ty ∧ lh_dcid hd = dcid b ∧ lh_scid hd = scid b ∧
    token hd = [] ∧ payload_offset hd + lh_length hd = zlen pkt ∧
    ∃ s', decrypt_initial_inplace (pkt ++ rest) hd (link_remote l) s = Ret (inr payload) s';
  received_next : linked l s (packet_number b + 1);
}.

Lemma long_roundtrip l s n b ty crypto :
  let payload := crypto_frame crypto
    ++ replicate (initial_pad ty (dcid b) (scid b) crypto (link_tag l)) 0 in
  linked l s n → n ≤ packet_number b < 2 ^ 32 → 0 ≤ packet_number b → 0 ≤ ty < 4 →
  zlen (dcid b) ≤ MAX_CID_LEN → zlen (scid b) ≤ MAX_CID_LEN →
  zlen (crypto_frame crypto) + link_tag l < (if ty =? 0 then 2 ^ 14 - 4 else 2 ^ 30) →
  ∃ pkt s', encode_long b ty crypto (link_local l) (ty =? 0) s = Ret (pkt, next_pn b) s' ∧
    zlen pkt = 11 + zlen (dcid b) + zlen (scid b) + (if ty =? 0 then 3 else
      varint_width (4 + zlen payload + link_tag l)) + zlen payload + link_tag l ∧
    received l s' b ty pkt payload.
Proof.
  intros payload Hl Hn H0 Hty Hd Hs Hsz.
  destruct (encode_long_ok l s n b ty crypto Hl Hn H0 Hty Hd Hs Hsz)
    as (b' & pnb' & ct & s' & E & Hp & Hct & Hb & Hl' & Ho).
  fold payload in E, Hct, Ho. set (len := 4 + zlen payload + link_tag l) in *.
  pose proof (law_tag_range l s n Hl). pose proof (zlen_nonneg payload).
  assert (Hlen : 0 ≤ len < 2 ^ 62 ∧ (ty = 0 → len < 2 ^ 14)).
  { pose proof (zlen_nonneg (crypto_frame crypto)). pose proof (zlen_nonneg (dcid b)).
    pose proof (zlen_nonneg (scid b)).
    unfold len, payload. rewrite zlen_app, zlen_replicate. unfold initial_pad.
    destruct (ty =? 0) eqn:E0; breflect; split_and!; lia. }
  destruct Hlen as [Hl62 Hl14].
  pose proof (zlen_length_field ty len) as Hlf. pose proof (zlen_long_middle ty (dcid b) (scid b)) as Hlm.
  eexists _, s'. split_and!; [exact E| |].
  { rewrite !zlen_app, zlen_cons, zlen_app, Hp, Hct, Hlf, Hlm. unfold len. case_if; lia. }
  split; [|done]. intros rest.
  pose proof (parse_long_built b' ty (dcid b) (scid b) (length_field ty len) len
    (pnb' ++ ct ++ rest) Hb Hty Hd Hs) as Hparse.
  rewrite decode_length_field in Hparse by done.
  specialize (Hparse eq_refl). rewrite !zlen_app, Hp, Hct in Hparse.
  pose proof (zlen_nonneg rest). specialize (Hparse ltac:(unfold len; lia)).
  match type of Hparse with _ = Some ?h => set (hdr := h) in Hparse; exists hdr end.
  split_and!; try done.
  - rewrite <- Hparse. f_equal. solve_app.
  - cbn [hdr payload_offset lh_length]. subst len. solve_zlen.
  - destruct (Ho hdr rest s' _ Hl') as (s2 & E2 & _); [| |exists s2; rewrite <- E2; f_equal; solve_app].
    + cbn [hdr payload_offset]. solve_zlen.
    + cbn [hdr lh_length]. subst len. lia.
Qed.
End Packets.

(** ** The shim keeps the contract *)

Section Shim.
Context {R : Rustls} {L : RustlsLaws R}.

Record shim_link := {
  sl_local : Z; sl_remote : Z; sl_k : pkey; sl_k' : pkey; sl_hk : hkey; sl_hk' : hkey;
}.

Record shim_linked (l : shim_link) (w : world) (n : Z) : Prop := {
  sl_sealer : ∃ e, w_keys w !! sl_local l = Some e ∧ local e = wrap_keys (sl_hk l, sl_k l) ∧
    ∀ pn, n ≤ pn → pn_reused e pn = false;
  sl_opener : ∃ e, w_keys w !! sl_remote l = Some e ∧ remote e = wrap_keys (sl_hk' l, sl_k' l);
  sl_peers : peer_pkey (sl_k l) (sl_k' l) ∧ peer_hkey (sl_hk l) (sl_hk' l);
  sl_tag : 16 ≤ pkey_tag_len (sl_k l) ≤ 255;
  sl_encrypts : ∀ pn hdr pt, ∃ ct tag, pkey_encrypt_in_place (sl_k l) pn hdr pt = (ct, inr tag);
  sl_masks : ∀ sample b pn, zlen sample = 16 →
    ∃ q, hkey_encrypt_in_place (sl_hk l) sample b pn = (q, inr tt);
}.

Lemma shim_linked_keys l w w' n :
  w_keys w' = w_keys w → shim_linked l w n → shim_linked l w' n.
Proof. intros E []. by split; rewrite ?E. Qed.

(** Blocks of the calling program. *)
Lemma alloc_ok l w : ∃ b w1,
  alloc_u8 l w = Ret (Ptr b 0) w1 ∧ u8_at w1 (Ptr b 0) (zlen l) = Some l ∧
  w_keys w1 = w_keys w ∧
  ∀ b' n x, u8_at w (Ptr b' 0) n = Some x → b' ≠ b ∧ u8_at w1 (Ptr b' 0) n = Some x.
Proof.
  set (b := fresh (dom (m_u8 (w_mem w)))). exists b. eexists. split_and!; [done| |done|].
  - unfold u8_at, load. simpl. rewrite lookup_insert_eq. unfold fits.
    pose proof (zlen_nonneg l). pass_guards. by rewrite sub_all.
  - intros b' n x. unfold u8_at, load. simpl.
    assert (Hf : m_u8 (w_mem w) !! b = None) by (apply not_elem_of_dom, is_fresh).
    destruct (decide (b' = b)) as [->|Hne]; [by rewrite Hf|]. intros Hx.
    split; [done|]. by rewrite lookup_insert_ne.
Qed.

Lemma release_ok b o (w : world) : ∃ w', release (Ptr b o) w = Ret tt w' ∧ w_keys w' = w_keys w.
Proof. by eexists. Qed.

Lemma shim_tag_len l w n : shim_linked l w n →
  ∃ w', rlsm_keys_tag_len (sl_local l) w = Ret (pkey_tag_len (sl_k l)) w' ∧ shim_linked l w' n.
Proof.
  intros Hl. pose proof Hl as [(e & He & Hk & _) _ _ Ht _ _].
  unfold rlsm_keys_tag_len. run. rewrite (with_Some keys_table (sl_local l) _ _ e) by done.
  run. rewrite Hk. simpl. rewrite as_i32_id by (unfold in_i32, i32_min, i32_max; lia).
  eexists. split; [done|]. by apply (shim_linked_keys _ w).
Qed.

Lemma shim_open l k pn hdr ct pt out w n :
  sl_k' l = k → pkey_decrypt_in_place k pn hdr ct = (out, inr pt) → zlen out = zlen ct →
  zlen hdr ≤ i32_max → zlen ct ≤ i32_max → zlen pt ≤ zlen ct → shim_linked l w n →
  ∃ w', shim_remote_decrypt (sl_remote l) pn hdr ct w = Ret (zlen pt, out) w' ∧
    shim_linked l w' n.
Proof.
  intros Hk Hdec Hout Hh Hc Hpt Hl. pose proof Hl as [_ (e & He & Hr) _ _ _ _].
  pose proof (zlen_nonneg hdr). pose proof (zlen_nonneg ct).
  destruct (alloc_ok hdr w) as (b1 & w1 & A1 & U1 & K1 & _).
  destruct (alloc_ok ct w1) as (b2 & w2 & A2 & U2 & K2 & O2).
  destruct (O2 _ _ _ U1) as [Hne U1'].
  destruct (remote_decrypt_ok w2 (sl_remote l) e k pn (Ptr b1 0) (zlen hdr) (Ptr b2 0) (zlen ct)
    hdr ct out pt) as (w3 & E3 & U3 & K3 & _); auto; try (unfold in_i32, i32_min; lia).
  { congruence. }
  { by rewrite Hr, <- Hk. }
  eexists. split.
  - unfold shim_remote_decrypt. run. rewrite A1, A2, E3.
    rewrite (read_u8_ok _ _ _ out) by done. run. done.
  - apply (shim_linked_keys _ w); [|done]. simpl. congruence.
Qed.

Lemma shim_seal l w n pn hdr pt : shim_linked l w n → n ≤ pn →
  zlen hdr ≤ i32_max → zlen pt + pkey_tag_len (sl_k l) ≤ i32_max →
  ∃ ct w', shim_local_encrypt (sl_local l) pn hdr
             (pt ++ replicate (Z.to_nat (pkey_tag_len (sl_k l))) 0) (zlen pt) w
           = Ret (zlen ct, ct) w' ∧
    zlen ct = zlen pt + pkey_tag_len (sl_k l) ∧ shim_linked l w' (pn + 1) ∧
    ∀ w2 m, shim_linked l w2 m → ∃ tail w3,
      shim_remote_decrypt (sl_remote l) pn hdr ct w2 = Ret (zlen pt, pt ++ tail) w3 ∧
      zlen tail = pkey_tag_len (sl_k l) ∧ shim_linked l w3 m.
Proof.
  intros Hl Hn Hh Hp. pose proof Hl as [(e & He & Hk & Hf) (er & Her & Hr) [Pp Ph] Ht Henc Hm].
  destruct (Henc pn hdr pt) as (ct & tag & Hct). set (t := pkey_tag_len (sl_k l)) in *.
  destruct (encrypt_length _ _ _ _ _ _ Hct) as [Lc Lt]. fold t in Lt.
  destruct (decrypt_encrypt _ _ _ _ _ _ _ Pp Hct) as (tail & Hdec & Htl).
  pose proof (zlen_nonneg hdr). pose proof (zlen_nonneg pt).
  set (buf := pt ++ replicate (Z.to_nat t) 0).
  assert (Hbuf : zlen buf = zlen pt + t) by (unfold buf; rewrite zlen_app, zlen_replicate; lia).
  destruct (alloc_ok hdr w) as (b1 & w1 & A1 & U1 & K1 & _).
  destruct (alloc_ok buf w1) as (b2 & w2 & A2 & U2 & K2 & O2).
  destruct (O2 _ _ _ U1) as [Hne U1'].
  destruct (local_encrypt_ok w2 (sl_local l) e (sl_k l) pn (Ptr b1 0) (zlen hdr) (Ptr b2 0)
    (zlen pt) (zlen buf) hdr buf ct tag) as (w3 & E3 & U3 & K3 & _);
    auto; try (unfold in_i32, i32_min; lia).
  { congruence. }
  { by rewrite Hk. }
  { by rewrite (sub_at buf [] pt (replicate (Z.to_nat t) 0)). }
  assert (Hz : zlen (ct ++ tag) = zlen pt + t) by (rewrite zlen_app; lia).
  rewrite Lt in E3, U3. exists (ct ++ tag). eexists. split_and!; [|done| |].
  - unfold shim_local_encrypt. run. rewrite A1, A2, E3.
    rewrite Hbuf, (read_u8_ok _ _ _ (ct ++ tag)) by done. run. by rewrite Hz.
  - rewrite K2, K1 in K3. split; [|  |done|done|done|done].
    + eexists. cbn [w_keys set_mem]. rewrite K3, lookup_insert_eq. split_and!; [done|done|].
      intros q Hq. unfold pn_reused. simpl. pass_guards. done.
    + cbn [w_keys set_mem]. rewrite K3, lookup_insert. case_decide as Heq; [|eauto].
      eexists. split; [done|]. rewrite <- Heq, He in Her. by injection Her as <-.
  - intros w4 m Hl4. exists tail.
    destruct (shim_open l (sl_k' l) pn hdr (ct ++ tag) pt (pt ++ tail) w4 m) as (w5 & E5 & Hl5);
      auto; rewrite ?zlen_app in *; try lia. exists w5. split_and!; [done|lia|done].
Qed.

(** Header protection on slices, for either direction. *)
Lemma shim_header_ok name verb f h e sample b pn b' pn' w :
  w_keys w !! h = Some e → zlen sample = 16 → zlen pn = 4 → zlen pn' = 4 →
  f e sample b pn = ((b', pn'), inr tt) →
  ∃ w', shim_header (header_in_place name verb f) h sample b pn w = Ret (0, (b', pn')) w' ∧
    w_keys w' = w_keys w.
Proof.
  intros He Hs Hp Hp' Hf.
  destruct (alloc_ok sample w) as (b1 & w1 & A1 & U1 & K1 & _).
  destruct (alloc_ok [b] w1) as (b2 & w2 & A2 & U2 & K2 & O2).
  destruct (O2 _ _ _ U1) as [N12 U1'].
  destruct (alloc_ok pn w2) as (b3 & w3 & A3 & U3 & K3 & O3).
  destruct (O3 _ _ _ U1') as [N13 U1'']. destruct (O3 _ _ _ U2) as [N23 U2'].
  destruct (header_in_place_ok name verb f w3 h e (Ptr b1 0) 16 (Ptr b2 0) (Ptr b3 0) 4
    sample b pn b' pn') as (w4 & E4 & F4 & P4 & K4 & _);
    try (unfold in_i32, i32_min, i32_max; lia); try congruence; try done.
  { by left. }
  eexists. split.
  - unfold shim_header. run. rewrite A1, A2, A3, Hs, Hp, E4.
    rewrite (read_u8_ok _ _ _ [b']) by done. rewrite (read_u8_ok _ _ _ pn') by done. run. done.
  - simpl. congruence.
Qed.

Lemma shim_mask l w n sample b pn : shim_linked l w n → zlen sample = 16 → zlen pn = 4 →
  Z.land b 3 = 3 → Z.testbit b 7 = true →
  ∃ b' pn' w', shim_header rlsm_keys_local_header_protect (sl_local l) sample b pn w
      = Ret (0, (b', pn')) w' ∧
    zlen pn' = 4 ∧ Z.shiftr b' 4 = Z.shiftr b 4 ∧ shim_linked l w' n ∧
    ∀ w2 m, shim_linked l w2 m → ∃ w3,
      shim_header rlsm_keys_remote_header_unprotect (sl_remote l) sample b' pn' w2
        = Ret (0, (b, pn)) w3 ∧ shim_linked l w3 m.
Proof.
  intros Hl Hs Hp H3 H7. pose proof Hl as [(e & He & Hk & _) _ [_ Ph] _ _ Hm].
  destruct (Hm sample b pn Hs) as [[b' pn'] Hf].
  pose proof (hp_length _ _ _ _ _ _ _ Hf) as Hpl.
  pose proof (hp_long_bits _ _ _ _ _ _ _ Hf H7) as Hb.
  destruct (shim_header_ok "rlsm_keys_local_header_protect" "protect"
    (λ entry, header_encrypt_in_place (header (local entry))) (sl_local l) e sample b pn b' pn' w)
    as (w' & E & K); [done|done|done|lia|by rewrite Hk|].
  exists b', pn', w'. split_and!; [done|lia|done|by apply (shim_linked_keys _ w)|].
  intros w2 m Hl2. pose proof Hl2 as [_ (er & Her & Hr) _ _ _ _].
  destruct (shim_header_ok "rlsm_keys_remote_header_unprotect" "unprotect"
    (λ entry, header_decrypt_in_place (header (remote entry))) (sl_remote l) er sample b' pn' b pn w2)
    as (w3 & E3 & K3); [done|done|lia|done| |].
  - rewrite Hr. simpl. pose proof (hp_decrypt_encrypt _ _ _ _ _ _ _ [] Ph Hf) as Hd.
    rewrite !app_nil_r in Hd. apply Hd; [lia|]. rewrite zlen_nil. lia.
  - exists w3. split; [done|]. by apply (shim_linked_keys _ w2).
Qed.

#[export] Instance shim_laws : KeysApiLaws shim_api := {
  link := shim_link;
  link_local := sl_local;
  link_remote := sl_remote;
  link_tag := λ l, pkey_tag_len (sl_k l);
  linked := shim_linked;
  law_tag_range := λ l w n H, sl_tag l w n H;
  law_tag_len := shim_tag_len;
  law_seal := shim_seal;
  law_mask := shim_mask;
}.

(** C2: an Initial packet built with one handle is at least 1200 bytes long,
    and whatever is coalesced behind it, the receiver's parser finds version
    1, type 0, both connection ids, an empty token and a Length that ends
    exactly at the end of the packet, and the peer's handle opens it to the
    CRYPTO frame followed by padding; padding is only added to reach 1200. *)
Theorem initial_packet_roundtrip (l : shim_link) w n b crypto :
  shim_linked l w n → n ≤ packet_number b < 2 ^ 32 → 0 ≤ packet_number b →
  zlen (dcid b) ≤ MAX_CID_LEN → zlen (scid b) ≤ MAX_CID_LEN →
  zlen (crypto_frame crypto) + pkey_tag_len (sl_k l) < 2 ^ 14 - 4 →
  ∃ pkt pad w', encode_initial b crypto (sl_local l) w = Ret (pkt, next_pn b) w' ∧
    INITIAL_MIN_BYTES ≤ zlen pkt ∧ (0 < pad → zlen pkt = INITIAL_MIN_BYTES)%nat ∧
    received l w' b 0 pkt (crypto_frame crypto ++ replicate pad 0).
Proof.
  intros Hl Hn H0 Hd Hs Hsz.
  destruct (long_roundtrip (L:=shim_laws) l w n b 0 crypto Hl Hn H0 ltac:(lia) Hd Hs Hsz)
    as (pkt & w' & E & Hz & Hr).
  eexists pkt, _, w'. split_and!; [exact E| | |exact Hr];
    rewrite zlen_app, zlen_replicate in Hz; unfold initial_pad, INITIAL_MIN_BYTES in *;
    simpl in Hz |- *; lia.
Qed.

(** The same for a Handshake packet of any size, which is not padded. *)
Theorem handshake_packet_roundtrip (l : shim_link) w n b crypto :
  shim_linked l w n → n ≤ packet_number b < 2 ^ 32 → 0 ≤ packet_number b →
  zlen (dcid b) ≤ MAX_CID_LEN → zlen (scid b) ≤ MAX_CID_LEN →
  zlen (crypto_frame crypto) + pkey_tag_len (sl_k l) < 2 ^ 30 →
  ∃ pkt w', encode_handshake b crypto (sl_local l) w = Ret (pkt, next_pn b) w' ∧
    received l w' b 2 pkt (crypto_frame crypto).
Proof.
  intros Hl Hn H0 Hd Hs Hsz.
  destruct (long_roundtrip (L:=shim_laws) l w n b 2 crypto Hl Hn H0 ltac:(lia) Hd Hs Hsz)
    as (pkt & w' & E & _ & Hr).
  simpl in Hr. rewrite app_nil_r in Hr. eauto.
Qed.
End Shim.

(** Client and server Initial keys of one connection id: handles 1 and 2. *)
Definition pair_link : shim_link :=
  {| sl_local := 1; sl_remote := 2; sl_k := (10 : @pkey toy); sl_k' := (10 : @pkey toy);
     sl_hk := (10 : @hkey toy); sl_hk' := (10 : @hkey toy) |}.

Lemma pair_linked : shim_linked pair_link pair_world 0.
Proof.
  split.
  - exists (pair_entry 1). split_and!; [apply some_default; by_eval|by_vm|].
    intros pn _. unfold pn_reused. replace (last_local_pn (pair_entry 1)) with (@None Z); [done|by_vm].
  - exists (pair_entry 2). split; [apply some_default; by_eval|by_vm].
  - done.
  - done.
  - intros. eexists _, _. reflexivity.
  - intros. eexists. reflexivity.
Qed.

Definition pair_builder : PacketBuilder :=
  {| dcid := [1; 2; 3; 4]; scid := [5; 6; 7; 8]; packet_number := 3 |}.

Lemma initial_packet_roundtrip_witness :
  ∃ pkt pad w', encode_initial pair_builder [9; 9; 9] 1 pair_world
                  = Ret (pkt, next_pn pair_builder) w' ∧
    INITIAL_MIN_BYTES ≤ zlen pkt ∧ (0 < pad → zlen pkt = INITIAL_MIN_BYTES)%nat ∧
    received pair_link w' pair_builder 0 pkt (crypto_frame [9; 9; 9] ++ replicate pad 0).
Proof.
  apply (initial_packet_roundtrip pair_link pair_world 0 pair_builder [9; 9; 9]).
  - apply pair_linked.
  - done.
  - done.
  - done.
  - done.
  - done.
Defined.

Lemma handshake_packet_roundtrip_witness :
  ∃ pkt w', encode_handshake pair_builder [9; 9; 9] 1 pair_world
              = Ret (pkt, next_pn pair_builder) w' ∧
    received pair_link w' pair_builder 2 pkt (crypto_frame [9; 9; 9]).
Proof.
  apply (handshake_packet_roundtrip pair_link pair_world 0 pair_builder [9; 9; 9]).
  - apply pair_linked.
  - done.
  - done.
  - done.
  - done.
  - done.
Defined.

(** ** CONNECTION_CLOSE frames *)

Lemma option_bind_Some {A B} (a : A) (f : A → option B) : (Some a ≫= f) = f a.
Proof. done. Qed.

Definition close_frame (ft code fty : Z) (reason : bytes) : bytes :=
  [ft] ++ varint code ++ (if ft =? 0x1c then varint fty else []) ++ varint (zlen reason) ++ reason.

(** A front of an integer and what follows: cut inside it, or after it. *)
Lemma decode_front v tail p q :
  0 ≤ v < 2 ^ 62 → p ++ q = varint v ++ tail →
  decode_varint p = None ∨ ∃ p', p = varint v ++ p' ∧ p' ++ q = tail.
Proof.
  intros Hv E. destruct (decide (length p < length (varint v))%nat) as [Hlt|Hge].
  - left. destruct p as [|b p]; [done|].
    pose proof (decode_varint_app v [] Hv) as Hd. rewrite app_nil_r in Hd.
    destruct (varint v) as [|b0 tl] eqn:Ev; [done|]. injection E as -> E.
    unfold decode_varint in *. case_if_in Hd; [done|]. injection Hd as _ Hw.
    assert (zlen (varint v) = varint_width v) as Hz by apply zlen_tagged_bytes.
    rewrite Ev in Hz. rewrite Hw, <- Hz. unfold zlen in *. by pass_guards.
  - right. exists (drop (length (varint v)) p). split.
    + rewrite <- (take_drop (length (varint v)) p) at 1. f_equal.
      rewrite <- (take_app_le p q), E by lia. apply take_app_length.
    + apply (app_inv_head (varint v)). rewrite <- E, app_assoc. f_equal.
      rewrite <- (take_drop (length (varint v)) p) at 2. f_equal.
      rewrite <- (take_app_le p q), E by lia. by rewrite take_app_length.
Qed.

Lemma zlen_varint v : zlen (varint v) = varint_width v.
Proof. apply zlen_tagged_bytes. Qed.

(** Slices of a cut buffer. *)
Lemma slice_from_at {S} (buf k m : bytes) i (s : S) : buf = k ++ m → i = zlen k → slice_from i buf s = Ret m s.
Proof.
  intros -> ->. unfold slice_from. rewrite zlen_app. pose proof (zlen_nonneg k). pose proof (zlen_nonneg m).
  pass_guards. by rewrite (drop_at (k ++ m) k m [] (zlen k)), app_nil_r by (by rewrite ?app_nil_r).
Qed.

Lemma slice_at {S} (buf k m l : bytes) i n (s : S) :
  buf = k ++ m ++ l → i = zlen k → n = zlen m → slice i n buf s = Ret m s.
Proof.
  intros Hb Hi Hn. unfold slice. rewrite (fits_at buf k m l i Hb Hi n Hn), (sub_at buf k m l i Hb Hi n Hn). done.
Qed.

(** The parser after the frame type, on what it has not read yet. *)
Section Close.
Context {S : Type} (s : S) (ft code fty : Z) (why : bytes).
Hypothesis Hft : ft = 0x1c ∨ ft = 0x1d.
Hypothesis Hcode : 0 ≤ code < 2 ^ 62.
Hypothesis Hfty : 0 ≤ fty < 2 ^ 62.
Hypothesis Hwhy : zlen why < 2 ^ 62.

Let mid : bytes := if ft =? 0x1c then varint fty else [].

Lemma close_guard : negb (ft =? 0x1c) && negb (ft =? 0x1d) = false.
Proof. by destruct Hft as [-> | ->]. Qed.

(** The integers before the length of the reason, on any payload that holds them. *)
Lemma close_integers p :
  let i := 1 + varint_width code + zlen mid in
  let buf := [ft] ++ varint code ++ mid ++ p in
  parse_connection_close buf s =
  match decode_varint p with
  | None => Ret None s
  | Some (rl, c) =>
      (if zlen buf <? i + c + rl then mret None
       else
         text ← slice (i + c) rl buf;
         mret (Some {| error_code := code; frame_type := ft; reason := from_utf8_lossy text |})) s
  end.
Proof.
  intros i buf. unfold parse_connection_close. change (head buf) with (Some ft). cbv iota. rewrite close_guard.
  rewrite (bind_Ret _ _ _ _ _ (slice_from_at buf [ft] (varint code ++ mid ++ p) 1 s eq_refl eq_refl)).
  rewrite decode_varint_app by done. cbv iota zeta. rewrite (bind_Ret _ _ s (Some i) s).
  - cbv iota. rewrite (bind_Ret _ _ _ _ _ (slice_from_at buf ([ft] ++ varint code ++ mid) p i s
      ltac:(unfold buf; solve_app) ltac:(unfold i; rewrite <- (zlen_varint code); solve_zlen))).
    by destruct (decode_varint p) as [[? ?]|].
  - unfold i, mid in *. destruct (ft =? 0x1c) eqn:E; [|change (zlen (@nil Z)) with 0; by rewrite Z.add_0_r].
    rewrite (bind_Ret _ _ _ _ _ (slice_from_at buf ([ft] ++ varint code) (varint fty ++ p) (1 + varint_width code) s
      ltac:(unfold buf; solve_app) ltac:(rewrite <- zlen_varint; solve_zlen))).
    rewrite decode_varint_app, zlen_varint by done. done.
Qed.

(** A payload that holds the frame up to its reason: the reason decides. *)
Lemma close_parse p :
  parse_connection_close ([ft] ++ varint code ++ mid ++ varint (zlen why) ++ p) s =
    Ret (if zlen p <? zlen why then None
         else Some {| error_code := code; frame_type := ft;
                      reason := from_utf8_lossy (sub 0 (zlen why) p) |}) s.
Proof.
  pose proof (zlen_nonneg why). rewrite close_integers, decode_varint_app by lia. cbv iota.
  set (rl := varint (zlen why)). set (buf := [ft] ++ varint code ++ mid ++ rl ++ p).
  assert (Hz : zlen buf = 1 + varint_width code + zlen mid + varint_width (zlen why) + zlen p).
  { unfold buf, rl. rewrite <- !zlen_varint. solve_zlen. }
  destruct (zlen p <? zlen why) eqn:E; breflect; pass_guards; [done|].
  assert (Hp : p = sub 0 (zlen why) p ++ drop (length why) p).
  { unfold sub, zlen. change (Z.to_nat 0) with 0%nat. rewrite drop_0, Nat2Z.id. by rewrite take_drop. }
  rewrite (bind_Ret _ _ _ (sub 0 (zlen why) p) s); [done|].
  apply (slice_at _ ([ft] ++ varint code ++ mid ++ rl) (sub 0 (zlen why) p) (drop (length why) p)).
  - unfold buf. rewrite Hp at 1. solve_app.
  - unfold rl. rewrite <- !zlen_varint. solve_zlen.
  - symmetry. apply zlen_sub, fits_spec. lia.
Qed.

(** Payloads cut inside an integer. *)
Lemma close_stuck_code p : decode_varint p = None → parse_connection_close ([ft] ++ p) s = Ret None s.
Proof.
  intros Hn. unfold parse_connection_close. change (head ([ft] ++ p)) with (Some ft). cbv iota. rewrite close_guard.
  by rewrite (bind_Ret _ _ _ _ _ (slice_from_at ([ft] ++ p) [ft] p 1 s eq_refl eq_refl)), Hn.
Qed.

Lemma close_stuck_type p :
  ft = 0x1c → decode_varint p = None → parse_connection_close ([ft] ++ varint code ++ p) s = Ret None s.
Proof.
  intros Ht Hn. set (buf := [ft] ++ varint code ++ p).
  unfold parse_connection_close. change (head buf) with (Some ft). cbv iota. rewrite close_guard.
  rewrite (bind_Ret _ _ _ _ _ (slice_from_at buf [ft] (varint code ++ p) 1 s eq_refl eq_refl)).
  rewrite decode_varint_app by done. cbv iota zeta. rewrite (proj2 (Z.eqb_eq ft 0x1c) Ht).
  rewrite (bind_Ret _ _ s None s); [done|].
  rewrite (bind_Ret _ _ _ _ _ (slice_from_at buf ([ft] ++ varint code) p (1 + varint_width code) s
      ltac:(unfold buf; solve_app) ltac:(rewrite <- zlen_varint; solve_zlen))). by rewrite Hn.
Qed.

Lemma close_truncated p q :
  p ++ q = close_frame ft code fty why → q ≠ [] → parse_connection_close p s = Ret None s.
Proof.
  intros E Hq. unfold close_frame in E. fold mid in E.
  destruct p as [|b p]; [done|]. injection E as -> E. change (ft :: p) with ([ft] ++ p).
  destruct (decode_front code _ p q Hcode E) as [Hn|(p1 & -> & E1)]; [by apply close_stuck_code|].
  assert (Hm : (ft = 0x1c ∧ decode_varint p1 = None) ∨ ∃ p2, p1 = mid ++ p2 ∧ p2 ++ q = varint (zlen why) ++ why).
  { unfold mid in *. destruct (Z.eqb_spec ft 0x1c) as [->|]; [|right; by exists p1].
    destruct (decode_front fty _ p1 q Hfty E1) as [?|?]; [by left|by right]. }
  destruct Hm as [[Ht Hn]|(p2 & -> & E2)]; [by apply close_stuck_type|].
  pose proof (zlen_nonneg why).
  destruct (decode_front (zlen why) _ p2 q ltac:(lia) E2) as [Hn|(p3 & -> & E3)].
  { by rewrite close_integers, Hn. }
  rewrite close_parse. assert (zlen why = zlen p3 + zlen q) by (rewrite <- E3; apply zlen_app).
  destruct q; [done|]. rewrite zlen_cons in *. pose proof (zlen_nonneg q). by pass_guards.
Qed.
End Close.

(** The parser neither uses nor changes the state. *)
Lemma close_state {S T} p (s s' : S) (t : T) o :
  parse_connection_close p s = Ret o s' → s' = s ∧ parse_connection_close p t = Ret o t.
Proof.
  unfold parse_connection_close. destruct (head p) as [ft|]; [|by intros [= <- <-]]. case_if; [by intros [= <- <-]|].
  unfold slice_from, slice. run. repeat (case_match; simplify_eq; try done); by intros [= <- <-].
Qed.

(** On bytes, no slice of it is out of range. *)
Lemma close_returns {S} p (s : S) : all_bytes p → ∃ o, parse_connection_close p s = Ret o s.
Proof.
  intros Hp. assert (Hd : ∀ i v n, 0 ≤ i ≤ zlen p → decode_varint (drop (Z.to_nat i) p) = Some (v, n) →
    0 ≤ v ∧ 0 ≤ i + n ≤ zlen p).
  { intros i v n Hi E. destruct (decode_varint_value _ _ _ (Forall_drop _ _ _ Hp) E) as (Hv & Hw & Hn).
    assert (zlen (drop (Z.to_nat i) p) = zlen p - i) by (unfold zlen in *; rewrite length_drop; lia). lia. }
  unfold parse_connection_close. destruct p as [|ft p']; [by eexists|]. set (p := ft :: p') in *.
  change (head p) with (Some ft). cbv iota. case_if; [by eexists|].
  assert (H1 : 0 ≤ 1 ≤ zlen p) by (unfold p; rewrite zlen_cons; pose proof (zlen_nonneg p'); lia).
  assert (Hs : ∀ i, 0 ≤ i ≤ zlen p → slice_from i p s = Ret (drop (Z.to_nat i) p) s)
    by (intros i Hi; unfold slice_from; by pass_guards).
  rewrite (bind_Ret _ _ _ _ _ (Hs 1 H1)).
  destruct (decode_varint (drop (Z.to_nat 1) p)) as [[code c]|] eqn:E1; [|by eexists].
  destruct (Hd _ _ _ H1 E1) as [_ H2]. cbv zeta.
  assert (H3 : ∃ o, (if ft =? 0x1c then rest ← slice_from (1 + c) p; mret ('(_, c0) ← decode_varint rest; Some (1 + c + c0))
                     else mret (Some (1 + c))) s = Ret o s ∧ ∀ i, o = Some i → 0 ≤ i ≤ zlen p).
  { case_if; [|exists (Some (1 + c)); split; [done|]; intros i [=]; lia]. rewrite (bind_Ret _ _ _ _ _ (Hs _ H2)).
    eexists. split; [done|]. destruct (decode_varint (drop (Z.to_nat (1 + c)) p)) as [[v n]|] eqn:E2; [|done]. intros i [=].
    destruct (Hd _ _ _ H2 E2). lia. }
  destruct H3 as (o & E & Hi). rewrite (bind_Ret _ _ _ _ _ E). destruct o as [i|]; [|by eexists].
  specialize (Hi i eq_refl). rewrite (bind_Ret _ _ _ _ _ (Hs _ Hi)).
  destruct (decode_varint (drop (Z.to_nat i) p)) as [[rl n]|] eqn:E3; [|by eexists].
  destruct (Hd _ _ _ Hi E3) as [Hrl Hn]. case_if; [by eexists|]. breflect.
  unfold slice. rewrite (proj2 (fits_spec _ _ _)) by lia. by eexists.
Qed.

(** A CONNECTION_CLOSE frame of either kind parses to its error code and
    reason whatever follows it, a reason that is UTF-8 comes back exactly and
    any other one as UTF-8; no truncation of the frame parses at all. *)
Theorem connection_close_parses ft code fty why :
  (ft = 0x1c ∨ ft = 0x1d) → 0 ≤ code < 2 ^ 62 → 0 ≤ fty < 2 ^ 62 → zlen why < 2 ^ 62 →
  (∀ rest, ∃ text,
    parse_connection_close (close_frame ft code fty why ++ rest) tt =
      Ret (Some {| error_code := code; frame_type := ft; reason := text |}) tt ∧
    from_utf8 text = None ∧ (from_utf8 why = None → text = why)) ∧
  ∀ p q, p ++ q = close_frame ft code fty why → q ≠ [] → parse_connection_close p tt = Ret None tt.
Proof.
  intros Hft Hc Hf Hw. split; [|intros p q; by apply close_truncated].
  intros rest. exists (from_utf8_lossy why). split_and!.
  - unfold close_frame. rewrite <- !app_assoc, close_parse by done.
    rewrite zlen_app. pose proof (zlen_nonneg rest). pass_guards.
    by rewrite sub_app_l, sub_all by lia.
  - apply from_utf8_lossy_valid.
  - apply from_utf8_lossy_id.
Qed.

Lemma connection_close_parses_witness :
  (∃ text, parse_connection_close (close_frame 0x1c 0x128 6 [110; 111] ++ [0; 0]) tt =
      Ret (Some {| error_code := 0x128; frame_type := 0x1c; reason := text |}) tt ∧
    from_utf8 text = None ∧ (from_utf8 [110; 111] = None → text = [110; 111])) ∧
  parse_connection_close [0x1c; 0x41; 0x28; 6; 2; 110] tt = Ret None tt.
Proof.
  destruct (connection_close_parses 0x1c 0x128 6 [110; 111]) as [H1 H2].
  - by left.
  - lia.
  - lia.
  - done.
  - split; [apply H1|]. by apply (H2 _ [111]).
Defined.
End QuicPacketFacts.
