(* ===== verification/FrameScan.v ===== *)
(** * Walking decrypted payloads

    Models the frame walkers of [src/conformance/tls-conformance/src/lib.rs]:
    the inline one of [drive_handshake_initial_inner], that of
    [scan_initial_plaintext_for_cc], and [scan_plaintext_into_rustls], which
    feeds CRYPTO data to the TLS connection. They are programs over the
    connection that return a [Result] ([inl] is [Err]); a slice out of range is
    a panic. The outer loops run on fuel, one unit per byte of the payload, and
    so does the loop over ACK ranges, whose count comes from the packet. *)

From S2P Require Import Prelude Effects Rustls Utf8 Varint QuicPacket.
Import Effects Rustls Utf8 Varint QuicPacket.

Module FrameScan.

(** The [?] operator on a [Result]. *)
Definition attempt {S E A B} (c : prog S (E + A)) (k : A → prog S (E + B))
  : prog S (E + B) :=
  r ← c; match r with inl m => mret (inl m) | inr a => k a end.

Notation "x ←? c ; k" := (attempt c (λ x, k))
  (at level 20, c at level 100, k at level 200, only parsing) : stdpp_scope.
Notation "' x ←? c ; k" := (attempt c (λ x : _, k))
  (at level 20, x pattern, c at level 100, k at level 200, only parsing) : stdpp_scope.

Section Walk.
Context {S : Type}.

Definition ok {A} (a : A) : prog S (string + A) := mret (inr a).
Definition err {A} (m : string) : prog S (string + A) := mret (inl m).

(** [decode_varint(&plaintext[p..]).ok_or_else(|| msg)?; p += n]: the value
    and the position after it. *)
Definition varint_at (plaintext : bytes) (p : Z) (msg : string) : prog S (string + (Z * Z)) :=
  if zlen plaintext <? p then panic "range start index out of range"
  else
    match decode_varint (drop (Z.to_nat p) plaintext) with
    | Some (v, n) => ok (v, p + n)
    | None => err msg
    end.

(** [for _ in 0..range_count]: two integers each. *)
Fixpoint ack_ranges (fuel : nat) (plaintext : bytes) (remaining p : Z) : prog S (string + Z) :=
  if remaining <=? 0 then ok p
  else
    match fuel with
    | O => no_fuel
    | Datatypes.S fuel =>
        '(_, p) ←? varint_at plaintext p "ACK: gap varint truncated";
        '(_, p) ←? varint_at plaintext p "ACK: range_len varint truncated";
        ack_ranges fuel plaintext (remaining - 1) p
    end.

(** ACK and ACK_ECN: the position of the next frame. *)
Definition skip_ack (plaintext : bytes) (i ft : Z) : prog S (string + Z) :=
  let with_ecn := ft =? 0x03 in
  let p := i + 1 in
  '(_, p) ←? varint_at plaintext p "ACK: largest_acked varint truncated";
  '(_, p) ←? varint_at plaintext p "ACK: ack_delay varint truncated";
  '(range_count, p) ←? varint_at plaintext p "ACK: range_count varint truncated";
  '(_, p) ←? varint_at plaintext p "ACK: first_range varint truncated";
  p ←? ack_ranges (Datatypes.S (length plaintext)) plaintext range_count p;
  if with_ecn then
    '(_, p) ←? varint_at plaintext p "ACK_ECN: count varint truncated";
    '(_, p) ←? varint_at plaintext p "ACK_ECN: count varint truncated";
    '(_, p) ←? varint_at plaintext p "ACK_ECN: count varint truncated";
    ok p
  else ok p.

(** CRYPTO: where the data starts and how long it is. *)
Definition crypto_span (plaintext : bytes) (i : Z) : prog S (string + (Z * Z)) :=
  let p := i + 1 in
  '(_, p) ←? varint_at plaintext p "CRYPTO: offset varint truncated";
  '(len, p) ←? varint_at plaintext p "CRYPTO: length varint truncated";
  if zlen plaintext <? p + len then err "CRYPTO: data slice truncated"
  else ok (p, len).

(** NEW_CONNECTION_ID: the position of the next frame. *)
Definition skip_ncid (plaintext : bytes) (i : Z) : prog S (string + Z) :=
  let p := i + 1 in
  '(_, p) ←? varint_at plaintext p "NCID: seq truncated";
  '(_, p) ←? varint_at plaintext p "NCID: retire_prior_to truncated";
  match byte_at plaintext p with
  | None => err "NCID: cid len byte missing"
  | Some cid_len =>
      let p := p + 1 in
      if zlen plaintext <? p + cid_len + 16 then err "NCID: cid+token tail truncated"
      else ok (p + cid_len + 16)
  end.

(** CONNECTION_CLOSE ends every walk. *)
Definition close_at (plaintext : bytes) (i : Z) : prog S (string + option ConnectionClose) :=
  rest ← slice_from i plaintext;
  o ← parse_connection_close rest;
  match o with
  | Some cc => ok (Some cc)
  | None => err "CONNECTION_CLOSE parse failed"
  end.

(** The walk inside [drive_handshake_initial_inner]. *)
Fixpoint first_reply_loop (fuel : nat) (plaintext : bytes) (i : Z)
  : prog S (string + option ConnectionClose) :=
  match fuel with
  | O => no_fuel
  | Datatypes.S fuel =>
      match byte_at plaintext i with
      | None => ok None
      | Some ft =>
          if (ft =? 0x00) || (ft =? 0x01) then first_reply_loop fuel plaintext (i + 1)
          else if (ft =? 0x02) || (ft =? 0x03) then
            i ←? skip_ack plaintext i ft;
            first_reply_loop fuel plaintext i
          else if (ft =? 0x1c) || (ft =? 0x1d) then close_at plaintext i
          else ok None
      end
  end.

Definition scan_first_reply (plaintext : bytes) : prog S (string + option ConnectionClose) :=
  first_reply_loop (Datatypes.S (length plaintext)) plaintext 0.

Fixpoint initial_scan_loop (fuel : nat) (plaintext : bytes) (i : Z)
  : prog S (string + option ConnectionClose) :=
  match fuel with
  | O => no_fuel
  | Datatypes.S fuel =>
      match byte_at plaintext i with
      | None => ok None
      | Some ft =>
          if (ft =? 0x00) || (ft =? 0x01) then initial_scan_loop fuel plaintext (i + 1)
          else if (ft =? 0x02) || (ft =? 0x03) then
            i ←? skip_ack plaintext i ft;
            initial_scan_loop fuel plaintext i
          else if ft =? 0x06 then
            '(p, len) ←? crypto_span plaintext i;
            initial_scan_loop fuel plaintext (p + len)
          else if (ft =? 0x1c) || (ft =? 0x1d) then close_at plaintext i
          else ok None
      end
  end.

Definition scan_initial_plaintext_for_cc (plaintext : bytes)
  : prog S (string + option ConnectionClose) :=
  initial_scan_loop (Datatypes.S (length plaintext)) plaintext 0.
End Walk.

Section Rustls.
Context {R : Rustls}.

(** [conn.read_hs(..).map_err(..)?] on the connection in the state. *)
Definition feed (data : bytes) : prog qclient (string + unit) := λ conn,
  let '(conn', r) := qclient_read_hs conn data in
  Ret match r with
      | inr u => inr u
      | inl e => inl ("rustls read_hs failed: " +:+ error_debug e)
      end conn'.

Fixpoint rustls_scan_loop (fuel : nat) (plaintext : bytes) (i : Z)
  : prog qclient (string + option ConnectionClose) :=
  match fuel with
  | O => no_fuel
  | Datatypes.S fuel =>
      match byte_at plaintext i with
      | None => ok None
      | Some ft =>
          if (ft =? 0x00) || (ft =? 0x01) then rustls_scan_loop fuel plaintext (i + 1)
          else if (ft =? 0x02) || (ft =? 0x03) then
            i ←? skip_ack plaintext i ft;
            rustls_scan_loop fuel plaintext i
          else if ft =? 0x06 then
            '(p, len) ←? crypto_span plaintext i;
            data ← slice p len plaintext;
            _ ←? feed data;
            rustls_scan_loop fuel plaintext (p + len)
          else if ft =? 0x18 then
            i ←? skip_ncid plaintext i;
            rustls_scan_loop fuel plaintext i
          else if (ft =? 0x1c) || (ft =? 0x1d) then close_at plaintext i
          else if ft =? 0x1e then rustls_scan_loop fuel plaintext (i + 1)
          else ok None
      end
  end.

(** [PlaintextScan] has the one field [cc], which is the result here. *)
Definition scan_plaintext_into_rustls (plaintext : bytes)
  : prog qclient (string + option ConnectionClose) :=
  rustls_scan_loop (Datatypes.S (length plaintext)) plaintext 0.
End Rustls.
End FrameScan.
