(* ===== verification/FrameScanFacts.v ===== *)
(** * Properties of the frame walkers

    Every walker ends with a result on every payload. On the encoding of a list
    of frames the one that feeds the TLS connection does what a fold over that
    list says. *)

From S2P Require Import Prelude Effects Rustls World Utf8.
From S2P Require Import Varint Toy QuicPacket QuicPacketFacts FrameScan.
Import Effects Rustls World Utf8 Varint Toy QuicPacket QuicPacketFacts FrameScan.

Module FrameScanFacts.

(** ** Walks end

    A step that does not touch the state and gives an error or a value with a
    property. *)
Definition settles {S A} (P : A → Prop) (c : prog S (string + A)) : Prop :=
  ∀ s, ∃ r, c s = Ret r s ∧ match r with inl _ => True | inr a => P a end.

(** A program that returns. *)
Definition completes {S A} (c : prog S A) : Prop := ∀ s, ∃ r s', c s = Ret r s'.

Lemma settles_ok {S A} (P : A → Prop) a : P a → settles P (ok (S:=S) a).
Proof. intros H s. by exists (inr a). Qed.

Lemma settles_err {S A} (P : A → Prop) m : settles P (err (S:=S) m).
Proof. intros s. by exists (inl m). Qed.

Lemma settles_attempt {S A B} (P : A → Prop) (Q : B → Prop) (c : prog S (string + A)) k :
  settles P c → (∀ a, P a → settles Q (k a)) → settles Q (attempt c k).
Proof.
  intros Hc Hk s. destruct (Hc s) as ([m|a] & E & H); unfold attempt; run; rewrite E.
  - by exists (inl m).
  - by apply Hk.
Qed.

Lemma completes_attempt {S A B} (P : A → Prop) (c : prog S (string + A))
    (k : A → prog S (string + B)) :
  settles P c → (∀ a, P a → completes (k a)) → completes (attempt c k).
Proof.
  intros Hc Hk s. destruct (Hc s) as ([m|a] & E & H); unfold attempt; run; rewrite E.
  - by exists (inl m), s.
  - by apply Hk.
Qed.

Lemma settles_completes {S A} (P : A → Prop) (c : prog S (string + A)) : settles P c → completes c.
Proof. intros Hc s. destruct (Hc s) as (r & E & _). eauto. Qed.

Lemma byte_at_Some pt i b : byte_at pt i = Some b → 0 ≤ i → i < zlen pt.
Proof. unfold byte_at, zlen. intros H%lookup_lt_Some ?. lia. Qed.

Section Totality.
Context {S : Type} (pt : bytes).
Hypothesis Hpt : all_bytes pt.

(** A position further on, still inside the payload. *)
Definition beyond (i p : Z) : Prop := i < p ≤ zlen pt.

Lemma varint_at_settles i msg :
  0 ≤ i ≤ zlen pt → settles (λ q, 0 ≤ q.1 ∧ beyond i q.2) (varint_at (S:=S) pt i msg).
Proof.
  intros Hi. unfold varint_at. pass_guards.
  destruct (decode_varint _) as [[v n]|] eqn:E; [|apply settles_err].
  apply settles_ok. simpl. unfold beyond.
  assert (Hb : all_bytes (drop (Z.to_nat i) pt)) by by apply Forall_drop.
  destruct (decode_varint_value _ _ _ Hb E) as (Hv & Hw & Hn).
  assert (zlen (drop (Z.to_nat i) pt) = zlen pt - i).
  { unfold zlen in *. rewrite length_drop. lia. }
  lia.
Qed.

Lemma settles_varint {B} (Q : B → Prop) i msg k :
  0 ≤ i ≤ zlen pt → (∀ v p, 0 ≤ v → beyond i p → settles Q (k (v, p))) →
  settles Q (attempt (varint_at (S:=S) pt i msg) k).
Proof.
  intros Hi Hk. eapply settles_attempt; [by apply varint_at_settles|].
  intros [v p] [? ?]. by apply Hk.
Qed.

(** One integer further. *)
#[local] Ltac next_varint :=
  apply settles_varint; [unfold beyond in *; lia|]; intros ? ? ? ?; cbn beta iota.

Lemma ack_ranges_settles fuel n i j :
  0 ≤ j < i ∧ i ≤ zlen pt → zlen pt - i < Z.of_nat fuel →
  settles (beyond j) (ack_ranges (S:=S) fuel pt n i).
Proof.
  revert n i. induction fuel as [|fuel IH]; intros n i Hi Hf; simpl; [lia|].
  case_if; [apply settles_ok; unfold beyond; lia|].
  do 2 next_varint. apply IH; unfold beyond in *; lia.
Qed.

Lemma skip_ack_settles i ft :
  0 ≤ i < zlen pt → settles (beyond i) (skip_ack (S:=S) pt i ft).
Proof.
  intros Hi. unfold skip_ack. do 4 next_varint.
  eapply settles_attempt.
  { apply (ack_ranges_settles _ _ _ i); unfold beyond, zlen in *; lia. }
  intros q Hq. case_if; [do 3 next_varint|]; apply settles_ok; unfold beyond in *; lia.
Qed.

Lemma crypto_span_settles i :
  0 ≤ i < zlen pt →
  settles (λ q, 0 ≤ q.1 ∧ 0 ≤ q.2 ∧ beyond i (q.1 + q.2)) (crypto_span (S:=S) pt i).
Proof.
  intros Hi. unfold crypto_span. do 2 next_varint. case_if; [apply settles_err|].
  breflect. apply settles_ok. unfold beyond in *. simpl. lia.
Qed.

Lemma skip_ncid_settles i :
  0 ≤ i < zlen pt → settles (beyond i) (skip_ncid (S:=S) pt i).
Proof.
  intros Hi. unfold skip_ncid. do 2 next_varint.
  match goal with |- context [byte_at pt ?p] => destruct (byte_at pt p) as [c|] eqn:E end;
    [|apply settles_err].
  assert (0 ≤ c < 256).
  { unfold byte_at in E. by apply (Forall_lookup_1 _ _ _ _ Hpt E). }
  case_if; [apply settles_err|]. breflect. apply settles_ok. unfold beyond in *. lia.
Qed.

Lemma close_at_settles i : 0 ≤ i ≤ zlen pt → settles (λ _, True) (close_at (S:=S) pt i).
Proof.
  intros Hi s. unfold close_at.
  assert (Hs : slice_from i pt s = Ret (drop (Z.to_nat i) pt) s) by (unfold slice_from; by pass_guards).
  rewrite (bind_Ret _ _ _ _ _ Hs).
  destruct (close_returns (drop (Z.to_nat i) pt) s ltac:(by apply Forall_drop)) as [[cc|] Hc];
    rewrite (bind_Ret _ _ _ _ _ Hc); [by exists (inr (Some cc))|by eexists (inl _)].
Qed.

Lemma slice_completes {B} i n (k : bytes → prog S (string + B)) :
  0 ≤ i → 0 ≤ n → i + n ≤ zlen pt → (∀ data, completes (k data)) → completes (data ← slice i n pt; k data).
Proof.
  intros Hi Hn Hz Hk s.
  assert (Hs : slice i n pt s = Ret (sub i n pt) s) by (unfold slice; by rewrite (proj2 (fits_spec _ _ _)) by lia).
  rewrite (bind_Ret _ _ _ _ _ Hs). apply Hk.
Qed.
End Totality.

(** The three loops: one unit of fuel per byte not yet walked is enough. *)
Section Loops.
Context (pt : bytes).
Hypothesis Hpt : all_bytes pt.

#[local] Ltac walk_case IH :=
  first
    [ apply IH; lia
    | eapply completes_attempt;
        [first [apply skip_ack_settles; [done|lia]|apply skip_ncid_settles; [done|lia]]|];
      intros p Hp; unfold beyond in Hp; apply IH; lia
    | eapply settles_completes, close_at_settles; [done|lia]
    | eapply (settles_completes (λ _, True)); by apply settles_ok ].

#[local] Ltac walk :=
  let fuel := fresh "fuel" in let IH := fresh "IH" in
  intros fuel; induction fuel as [|fuel IH]; intros i Hi Hf; [lia|]; simpl;
  destruct (byte_at pt i) as [ft|] eqn:E; [apply byte_at_Some in E; [|lia]|walk_case IH];
  repeat case_if; try walk_case IH.

Lemma first_reply_completes {S} : ∀ fuel i,
  0 ≤ i ≤ zlen pt → zlen pt - i < Z.of_nat fuel →
  completes (first_reply_loop (S:=S) fuel pt i).
Proof. walk. Qed.

Lemma initial_scan_completes {S} : ∀ fuel i,
  0 ≤ i ≤ zlen pt → zlen pt - i < Z.of_nat fuel →
  completes (initial_scan_loop (S:=S) fuel pt i).
Proof.
  walk. eapply completes_attempt; [apply crypto_span_settles; [done|lia]|].
  intros [p len] (_ & _ & Hp). unfold beyond in Hp. simpl in Hp. apply IH; lia.
Qed.

Lemma feed_completes {R : Rustls} {B} data (k : unit → prog qclient (string + B)) :
  (∀ u, completes (k u)) → completes (attempt (feed data) k).
Proof.
  intros Hk s. unfold attempt, feed. run. destruct (qclient_read_hs s data) as [s' [e|u]].
  - eauto.
  - apply Hk.
Qed.

Lemma rustls_scan_completes {R : Rustls} : ∀ fuel i,
  0 ≤ i ≤ zlen pt → zlen pt - i < Z.of_nat fuel → completes (rustls_scan_loop fuel pt i).
Proof.
  walk. eapply completes_attempt; [apply crypto_span_settles; [done|lia]|].
  intros [p len] (Hp0 & Hl0 & Hp). unfold beyond in Hp. simpl in Hp0, Hl0, Hp.
  apply slice_completes; [lia..|]. intros data. apply feed_completes. intros _. apply IH; lia.
Qed.
End Loops.

(** C8: whatever bytes a peer puts in a packet (ACK range counts up to
    [2^62] included), each of the three walkers ends: it returns a result or
    an error message and does not loop, and none of the slices it takes is out
    of range, which would be a panic: those in front of the integers, the
    CRYPTO data fed to the connection, the CONNECTION_CLOSE frame and the
    reason phrase inside it. *)
Theorem walkers_total {R : Rustls} pt :
  all_bytes pt →
  completes (scan_first_reply (S:=unit) pt) ∧
  completes (scan_initial_plaintext_for_cc (S:=unit) pt) ∧
  completes (scan_plaintext_into_rustls pt).
Proof.
  intros Hpt. unfold zlen. split_and!.
  - apply first_reply_completes; unfold zlen; [done|lia|lia].
  - apply initial_scan_completes; unfold zlen; [done|lia|lia].
  - apply rustls_scan_completes; unfold zlen; [done|lia|lia].
Qed.

Lemma walkers_total_witness :
  let pt := [0x02; 0x00; 0x00; 0xFF; 0xFF; 0xFF; 0xFF; 0xFF; 0xFF; 0xFF; 0xFF; 0x00; 0x00] in
  completes (scan_first_reply (S:=unit) pt) ∧
  completes (scan_initial_plaintext_for_cc (S:=unit) pt) ∧
  completes (scan_plaintext_into_rustls (R:=toy) pt).
Proof. intros pt. apply (walkers_total (R:=toy) pt). by_decision. Defined.

(** ** Walks over encoded frames *)

Inductive frame :=
  | Padding
  | Ping
  | HandshakeDone
  | Ack (largest delay first : Z) (ranges : list (Z * Z)) (ecn : option (Z * Z * Z))
  | Crypto (offset : Z) (data : bytes)
  | NewConnectionId (seq retire_prior_to : Z) (cid token : bytes)
  | Close (ft code fty : Z) (why : bytes)
  | Other (ft : Z) (body : bytes).

Definition encode_range (r : Z * Z) : bytes := varint r.1 ++ varint r.2.

Definition encode_ecn (ecn : option (Z * Z * Z)) : bytes :=
  match ecn with Some (a, b, c) => varint a ++ varint b ++ varint c | None => [] end.

Definition encode_frame (f : frame) : bytes :=
  match f with
  | Padding => [0x00]
  | Ping => [0x01]
  | HandshakeDone => [0x1e]
  | Ack largest delay first ranges ecn =>
      [if is_some ecn then 0x03 else 0x02] ++ varint largest ++ varint delay ++ varint (zlen ranges)
      ++ varint first ++ mjoin (encode_range <$> ranges) ++ encode_ecn ecn
  | Crypto offset data => [0x06] ++ varint offset ++ varint (zlen data) ++ data
  | NewConnectionId seq rpt cid tok =>
      [0x18] ++ varint seq ++ varint rpt ++ [zlen cid] ++ cid ++ tok
  | Close ft code fty why => close_frame ft code fty why
  | Other ft body => ft :: body
  end.

Definition var_ok (v : Z) : Prop := 0 ≤ v < 2 ^ 62.

Definition known : list Z := [0x00; 0x01; 0x02; 0x03; 0x06; 0x18; 0x1c; 0x1d; 0x1e].

Definition frame_ok (f : frame) : Prop :=
  match f with
  | Padding | Ping | HandshakeDone => True
  | Ack largest delay first ranges ecn =>
      var_ok largest ∧ var_ok delay ∧ var_ok first ∧ zlen ranges < 2 ^ 62 ∧
      Forall (λ r, var_ok r.1 ∧ var_ok r.2) ranges ∧
      match ecn with Some (a, b, c) => var_ok a ∧ var_ok b ∧ var_ok c | None => True end
  | Crypto offset data => var_ok offset ∧ zlen data < 2 ^ 62
  | NewConnectionId seq rpt cid tok =>
      var_ok seq ∧ var_ok rpt ∧ zlen cid < 256 ∧ zlen tok = 16
  | Close ft code fty why =>
      (ft = 0x1c ∨ ft = 0x1d) ∧ var_ok code ∧ var_ok fty ∧ zlen why < 2 ^ 62
  | Other ft _ => ft ∉ known
  end.

(** What the frames mean to the connection: CRYPTO data is fed in order, the
    first CONNECTION_CLOSE ends the walk, an unknown frame hides the rest. *)
Fixpoint walk_spec {R : Rustls} (fs : list frame) : prog qclient (string + option ConnectionClose) :=
  match fs with
  | [] => ok None
  | Crypto _ data :: fs => _ ←? feed data; walk_spec fs
  | Close ft code _ why :: _ =>
      ok (Some {| error_code := code; frame_type := ft; reason := from_utf8_lossy why |})
  | Other _ _ :: _ => ok None
  | _ :: fs => walk_spec fs
  end.

Lemma varint_at_ok {S} pt pre v rest p msg (s : S) :
  pt = pre ++ varint v ++ rest → p = zlen pre → var_ok v →
  varint_at pt p msg s = Ret (inr (v, zlen (pre ++ varint v))) s.
Proof.
  intros Hpt Hp Hv. pose proof (varint_width_pos v).
  assert (Hz : zlen pt = zlen pre + varint_width v + zlen rest).
  { rewrite Hpt, <- zlen_varint. solve_zlen. }
  pose proof (zlen_nonneg rest). unfold varint_at. pass_guards.
  rewrite (drop_at pt pre (varint v) rest p Hpt Hp), decode_varint_app by done.
  unfold ok. run. by rewrite zlen_app, zlen_varint, Hp.
Qed.

Lemma attempt_ok {S A B} (c : prog S (string + A)) (k : A → prog S (string + B)) s a s' :
  c s = Ret (inr a) s' → attempt c k s = k a s'.
Proof. intros H. unfold attempt. run. by rewrite H. Qed.

Lemma ack_ranges_ok {S} pt rs (s : S) : ∀ fuel pre rest,
  pt = pre ++ mjoin (encode_range <$> rs) ++ rest → (length rs < fuel)%nat →
  Forall (λ r, var_ok r.1 ∧ var_ok r.2) rs →
  ack_ranges fuel pt (zlen rs) (zlen pre) s
    = Ret (inr (zlen (pre ++ mjoin (encode_range <$> rs)))) s.
Proof.
  induction rs as [|[g n] rs IH]; intros fuel pre rest Hpt Hf Hrs.
  - destruct fuel; simpl; by rewrite app_nil_r.
  - destruct fuel as [|fuel]; [simpl in Hf; lia|]. inversion Hrs as [|? ? [Hg Hn] Hrs']; subst x l.
    simpl in Hg, Hn. cbn [ack_ranges]. rewrite zlen_cons. pose proof (zlen_nonneg rs). pass_guards.
    change (mjoin (encode_range <$> (g, n) :: rs))
      with ((varint g ++ varint n) ++ mjoin (encode_range <$> rs)) in *.
    rewrite (attempt_ok _ _ _ _ _ (varint_at_ok pt pre g
      (varint n ++ mjoin (encode_range <$> rs) ++ rest) _ _ s ltac:(rewrite Hpt; solve_app) eq_refl Hg)).
    cbn beta iota.
    rewrite (attempt_ok _ _ _ _ _ (varint_at_ok pt (pre ++ varint g) n
      (mjoin (encode_range <$> rs) ++ rest) _ _ s ltac:(rewrite Hpt; solve_app) eq_refl Hn)).
    cbn beta iota. replace (1 + zlen rs - 1) with (zlen rs) by lia.
    rewrite (IH fuel ((pre ++ varint g) ++ varint n) rest); [|rewrite Hpt; solve_app|simpl in Hf; lia|done].
    do 3 f_equal. solve_app.
Qed.

Lemma length_ranges rs : (length rs ≤ length (mjoin (encode_range <$> rs)))%nat.
Proof.
  induction rs as [|r rs IH]; [simpl; lia|].
  change (mjoin (encode_range <$> r :: rs))
    with ((varint r.1 ++ varint r.2) ++ mjoin (encode_range <$> rs)).
  rewrite !length_app. cbn [length].
  pose proof (zlen_varint r.1). pose proof (varint_width_pos r.1). unfold zlen in *. lia.
Qed.

(** Walks one integer of a known payload. *)
Ltac known_varint pre v rest :=
  let H := fresh in
  match goal with
  | Hpt : ?pt = _, Hv : var_ok v |- attempt (varint_at ?pt _ ?msg) _ ?s = _ =>
      pose proof (varint_at_ok pt pre v rest (zlen pre) msg s ltac:(rewrite Hpt; solve_app)
        eq_refl Hv) as H;
      erewrite (attempt_ok _ _ _ _ _ H); cbn beta iota; clear H
  end.

Section Steps.
Context {S : Type} (pt pre rest : bytes) (s : S).

Lemma skip_ack_ok largest delay first ranges ecn :
  let f := Ack largest delay first ranges ecn in
  frame_ok f → pt = pre ++ encode_frame f ++ rest →
  skip_ack pt (zlen pre) (if is_some ecn then 0x03 else 0x02) s
    = Ret (inr (zlen (pre ++ encode_frame f))) s.
Proof.
  intros f (Hl & Hd & Hf & Hz & Hr & He) Hpt. unfold f in *. clear f.
  cbn [encode_frame] in *. set (t := if is_some ecn then 0x03 else 0x02) in *.
  pose proof (zlen_nonneg ranges). assert (Hn : var_ok (zlen ranges)) by (unfold var_ok; lia).
  set (rs := mjoin (encode_range <$> ranges)) in *. unfold skip_ack. cbv zeta.
  replace (zlen pre + 1) with (zlen (pre ++ [t])) by solve_zlen.
  known_varint (pre ++ [t]) largest (varint delay ++ varint (zlen ranges) ++ varint first
    ++ rs ++ encode_ecn ecn ++ rest).
  known_varint ((pre ++ [t]) ++ varint largest) delay (varint (zlen ranges) ++ varint first
    ++ rs ++ encode_ecn ecn ++ rest).
  known_varint (((pre ++ [t]) ++ varint largest) ++ varint delay) (zlen ranges) (varint first
    ++ rs ++ encode_ecn ecn ++ rest).
  known_varint ((((pre ++ [t]) ++ varint largest) ++ varint delay) ++ varint (zlen ranges)) first
    (rs ++ encode_ecn ecn ++ rest).
  set (q := ((((pre ++ [t]) ++ varint largest) ++ varint delay) ++ varint (zlen ranges))
    ++ varint first).
  assert (Hq : pt = q ++ rs ++ encode_ecn ecn ++ rest) by (rewrite Hpt; unfold q; solve_app).
  assert (Hfuel : (length ranges < Datatypes.S (length pt))%nat).
  { rewrite Hq, !length_app. assert (length ranges ≤ length rs)%nat; [|lia].
    apply length_ranges. }
  rewrite (attempt_ok _ _ _ _ _ (ack_ranges_ok pt ranges s _ q (encode_ecn ecn ++ rest) Hq Hfuel Hr)).
  cbn beta iota. fold rs. destruct ecn as [[[a b] c]|]; cbn [is_some encode_ecn] in *;
    [destruct He as (Ha & Hb & Hc)|]; unfold t; cbn [Z.eqb Pos.eqb]; cbv iota.
  - known_varint (q ++ rs) a (varint b ++ varint c ++ rest).
    known_varint ((q ++ rs) ++ varint a) b (varint c ++ rest).
    known_varint (((q ++ rs) ++ varint a) ++ varint b) c rest.
    unfold ok. run. do 3 f_equal. unfold q. solve_app.
  - unfold ok. run. do 3 f_equal. unfold q. rewrite app_nil_r. solve_app.
Qed.

Lemma crypto_span_ok offset data :
  frame_ok (Crypto offset data) → pt = pre ++ encode_frame (Crypto offset data) ++ rest →
  ∃ p, crypto_span pt (zlen pre) s = Ret (inr (p, zlen data)) s ∧
    p + zlen data = zlen (pre ++ encode_frame (Crypto offset data)) ∧
    slice p (zlen data) pt s = Ret data s.
Proof.
  intros [Ho Hd] Hpt. cbn [encode_frame] in *. pose proof (zlen_nonneg data).
  assert (Hn : var_ok (zlen data)) by (unfold var_ok; lia).
  set (q := ((pre ++ [6]) ++ varint offset) ++ varint (zlen data)).
  assert (Hq : pt = q ++ data ++ rest) by (rewrite Hpt; unfold q; solve_app).
  pose proof (zlen_nonneg rest).
  assert (Hz : zlen pt = zlen q + zlen data + zlen rest) by (rewrite Hq; solve_zlen).
  exists (zlen q). split_and!.
  - unfold crypto_span. cbv zeta. replace (zlen pre + 1) with (zlen (pre ++ [6])) by solve_zlen.
    known_varint (pre ++ [6]) offset (varint (zlen data) ++ data ++ rest).
    known_varint ((pre ++ [6]) ++ varint offset) (zlen data) (data ++ rest).
    fold q. by pass_guards.
  - unfold q. solve_zlen.
  - by apply (slice_at pt q data rest).
Qed.

Lemma skip_ncid_ok seq rpt cid tok :
  let f := NewConnectionId seq rpt cid tok in
  frame_ok f → pt = pre ++ encode_frame f ++ rest →
  skip_ncid pt (zlen pre) s = Ret (inr (zlen (pre ++ encode_frame f))) s.
Proof.
  intros f (Hs & Hr & Hc & Ht) Hpt. unfold f in *. clear f. cbn [encode_frame] in *.
  set (q := ((pre ++ [0x18]) ++ varint seq) ++ varint rpt).
  assert (Hq : pt = q ++ zlen cid :: cid ++ tok ++ rest) by (rewrite Hpt; unfold q; solve_app).
  pose proof (zlen_nonneg rest).
  assert (Hz : zlen pt = zlen q + 1 + zlen cid + 16 + zlen rest) by (rewrite Hq; solve_zlen).
  unfold skip_ncid. cbv zeta. replace (zlen pre + 1) with (zlen (pre ++ [0x18])) by solve_zlen.
  known_varint (pre ++ [0x18]) seq (varint rpt ++ zlen cid :: cid ++ tok ++ rest).
  known_varint ((pre ++ [0x18]) ++ varint seq) rpt (zlen cid :: cid ++ tok ++ rest).
  fold q. rewrite (byte_at_mid pt q (zlen cid) _ (zlen q) Hq eq_refl). pass_guards.
  unfold ok. run. do 2 f_equal. unfold q. solve_zlen.
Qed.

Lemma close_at_ok ft code fty why :
  frame_ok (Close ft code fty why) → pt = pre ++ encode_frame (Close ft code fty why) ++ rest →
  close_at pt (zlen pre) s =
    Ret (inr (Some {| error_code := code; frame_type := ft; reason := from_utf8_lossy why |})) s.
Proof.
  intros (Hft & Hc & Hf & Hw) Hpt. cbn [encode_frame] in *. unfold close_at.
  rewrite (bind_Ret _ _ _ _ _ (slice_from_at pt pre _ _ s Hpt eq_refl)). unfold close_frame.
  pose proof (zlen_nonneg rest).
  assert (Hc' : parse_connection_close (([ft] ++ varint code ++ (if ft =? 0x1c then varint fty else [])
      ++ varint (zlen why) ++ why) ++ rest) s
    = Ret (Some {| error_code := code; frame_type := ft; reason := from_utf8_lossy why |}) s).
  { rewrite <- !app_assoc, close_parse by done. rewrite zlen_app. pass_guards.
    by rewrite sub_app_l, sub_all by lia. }
  by rewrite (bind_Ret _ _ _ _ _ Hc').
Qed.
End Steps.

(** The first byte of a frame is its type. *)
Definition frame_type_byte (f : frame) : Z :=
  match f with
  | Padding => 0x00 | Ping => 0x01 | HandshakeDone => 0x1e
  | Ack _ _ _ _ ecn => if is_some ecn then 0x03 else 0x02
  | Crypto _ _ => 0x06 | NewConnectionId _ _ _ _ => 0x18
  | Close ft _ _ _ | Other ft _ => ft
  end.

Lemma encode_frame_cons f : ∃ body, encode_frame f = frame_type_byte f :: body.
Proof. destruct f; eexists; reflexivity. Qed.

Lemma other_guards ft : ft ∉ known →
  (ft =? 0x00) || (ft =? 0x01) = false ∧ (ft =? 0x02) || (ft =? 0x03) = false ∧
  (ft =? 0x06) = false ∧ (ft =? 0x18) = false ∧ (ft =? 0x1c) || (ft =? 0x1d) = false ∧
  (ft =? 0x1e) = false.
Proof. intros H. unfold known in H. set_unfold. lia. Qed.

Lemma rustls_scan_frames {R : Rustls} fs : ∀ fuel pt pre conn,
  pt = pre ++ mjoin (encode_frame <$> fs) → (length fs < fuel)%nat → Forall frame_ok fs →
  rustls_scan_loop fuel pt (zlen pre) conn = walk_spec fs conn.
Proof.
  induction fs as [|f fs IH]; intros fuel pt pre conn Hpt Hfuel Hok;
    (destruct fuel as [|fuel]; [simpl in Hfuel; lia|]); cbn [rustls_scan_loop].
  { unfold byte_at. simpl in Hpt. rewrite app_nil_r in Hpt. subst pt.
    unfold zlen. rewrite Nat2Z.id, lookup_ge_None_2 by lia. done. }
  inversion Hok as [|? ? Hf Hfs]; subst x l.
  change (mjoin (encode_frame <$> f :: fs))
    with (encode_frame f ++ mjoin (encode_frame <$> fs)) in Hpt.
  set (rest := mjoin (encode_frame <$> fs)) in *.
  assert (Hrec : ∀ c, rustls_scan_loop fuel pt (zlen (pre ++ encode_frame f)) c = walk_spec fs c).
  { intros c. apply IH; [rewrite Hpt; solve_app|simpl in Hfuel; lia|done]. }
  destruct (encode_frame_cons f) as [body Hb].
  rewrite (byte_at_mid pt pre (frame_type_byte f) (body ++ rest))
    by (rewrite ?Hpt, ?Hb; done || solve_app).
  assert (Hone : zlen pre + 1 = zlen (pre ++ [frame_type_byte f])) by solve_zlen.
  destruct f as [| | |largest delay first ranges ecn|offset data|seq rpt cid tok|ft code fty why|ft bd];
    cbn [frame_type_byte encode_frame walk_spec] in *.
  - simpl orb. cbv iota. rewrite Hone. apply Hrec.
  - simpl orb. cbv iota. rewrite Hone. apply Hrec.
  - simpl. rewrite Hone. apply Hrec.
  - pose proof (skip_ack_ok pt pre rest conn largest delay first ranges ecn Hf Hpt) as Hs.
    destruct ecn; cbn [is_some Z.eqb Pos.eqb orb] in Hs |- *;
      (etransitivity; [exact (attempt_ok _ _ _ _ _ Hs)|apply Hrec]).
  - destruct (crypto_span_ok pt pre rest conn offset data Hf Hpt) as (p & E & Hp & Hd).
    cbn [Z.eqb Pos.eqb orb]. rewrite (attempt_ok _ _ _ _ _ E); cbn beta iota.
    rewrite (bind_Ret _ _ _ _ _ Hd), Hp.
    unfold attempt. run. destruct (feed data conn) as [[m|u] c| | |]; [done| |done..]. apply Hrec.
  - pose proof (skip_ncid_ok pt pre rest conn seq rpt cid tok Hf Hpt) as Hs.
    cbn [Z.eqb Pos.eqb orb]. etransitivity; [exact (attempt_ok _ _ _ _ _ Hs)|apply Hrec].
  - pose proof (close_at_ok pt pre rest conn ft code fty why Hf Hpt) as Hs.
    destruct Hf as [[-> | ->] _]; exact Hs.
  - destruct (other_guards ft Hf) as (-> & -> & -> & -> & -> & ->). done.
Qed.

Lemma length_frames fs : (length fs ≤ length (mjoin (encode_frame <$> fs)))%nat.
Proof.
  induction fs as [|f fs IH]; [simpl; lia|].
  change (mjoin (encode_frame <$> f :: fs)) with (encode_frame f ++ mjoin (encode_frame <$> fs)).
  destruct (encode_frame_cons f) as [body ->]. rewrite length_app. cbn [length]. lia.
Qed.

(** C7: on the payload made of any list of well-formed frames, the walker
    that serves the handshake drivers does what the frames in front of the
    first one of a type it does not know say. It walks up to the first frame
    that is a CONNECTION_CLOSE or of an unknown type: the data of every CRYPTO
    frame before it is fed to the TLS connection once and in order (until the
    connection refuses some, whose error is returned), and if it is a
    CONNECTION_CLOSE it is reported with its code and reason. An unknown frame
    has no length to skip by, and so ends the walk with nothing to report:
    whatever is behind it is neither fed nor reported, as the code's
    [_ => break] has it. *)
Theorem scan_feeds_frames {R : Rustls} fs conn :
  Forall frame_ok fs →
  scan_plaintext_into_rustls (mjoin (encode_frame <$> fs)) conn = walk_spec fs conn.
Proof.
  intros Hok. pose proof (length_frames fs).
  apply (rustls_scan_frames fs _ _ []); [done|lia|done].
Qed.

Definition some_frames : list frame :=
  [Padding; Ack 5 100 2 [(0, 1); (3, 70)] (Some (1, 2, 16384)); Crypto 0 [1; 2; 3]; Ping;
   NewConnectionId 1 0 [7; 7] (replicate 16 9); Crypto 3 [4]; HandshakeDone;
   Close 0x1c 0x128 6 [110; 111]; Crypto 4 [5]].

Lemma scan_feeds_frames_witness :
  let conn : @qclient toy :=
    {| q_script := []; q_seen := []; q_hs := true; q_tp := None; q_zero := None |} in
  scan_plaintext_into_rustls (R:=toy) (mjoin (encode_frame <$> some_frames)) conn
    = Ret (inr (Some {| error_code := 0x128; frame_type := 0x1c; reason := [110; 111] |}))
        {| q_script := []; q_seen := [1; 2; 3; 4]; q_hs := true; q_tp := None; q_zero := None |}.
Proof.
  intros conn. transitivity (walk_spec (R:=toy) some_frames conn).
  - apply (scan_feeds_frames (R:=toy) some_frames conn).
    repeat constructor; unfold var_ok; simpl; lia.
  - by_vm.
Defined.
End FrameScanFacts.
