(* ===== verification/RustlsPackets.v ===== *)
(** * Packets under keys held by the harness

    Models the packet functions of [src/conformance/tls-conformance/src/lib.rs]
    that use rustls's Handshake and 1-RTT keys directly: building Handshake
    and short-header packets around CRYPTO frames, and opening packets of both
    kinds. Results are as in [FrameScan]: [inl] is [Err], a bad slice or an
    integer too large for its encoding is a panic. The theorems are the round
    trips between the two directions. *)

From S2P Require Import Prelude Effects Rustls World.
From S2P Require Import Varint Toy QuicPacket QuicPacketFacts FrameScan.
Import Effects Rustls World Varint Toy QuicPacket QuicPacketFacts FrameScan.

Module RustlsPackets.

Section Build.
Context {R : Rustls} {S : Type}.

(** [rustls::quic::DirectionalKeys]: header key and packet key. *)
Definition dir_keys : Type := hkey * pkey.

Definition encode_crypto_frame (offset : Z) (data : bytes) : prog S bytes :=
  out ← push_varint offset [0x06];
  out ← push_varint (zlen data) out;
  mret (out ++ data).

(** [encrypt_in_place] on the payload behind the header, then the tag, then
    header protection over the whole packet: the end of both builders. *)
Definition seal_packet (name hp_name short : string) (hdr : bytes) (pn_offset pn : Z)
    (payload : bytes) (keys : dir_keys) : prog S (string + bytes) :=
  let pn_length := 4 in
  let '(payload', t) := pkey_encrypt_in_place keys.2 pn hdr payload in
  match t with
  | inl e => err (name +:+ error_debug e)
  | inr tag =>
      let pkt := hdr ++ payload' ++ tag in
      let so := pn_offset + 4 in
      if zlen pkt <? so + 16 then err short
      else
        let sample := sub so 16 pkt in
        let '((first, pn_bytes), r) :=
          hkey_encrypt_in_place keys.1 sample (default 0 (head pkt)) (sub pn_offset pn_length pkt) in
        match r with
        | inl e => err (hp_name +:+ error_debug e)
        | inr _ => ok (splice pn_offset pn_bytes (splice 0 [first] pkt))
        end
  end.

Definition build_handshake_packet (dcid scid : bytes) (pn : Z) (crypto_payload : bytes)
    (local_keys : dir_keys) : prog S (string + bytes) :=
  let pn_length := 4 in
  let tag_len := pkey_tag_len local_keys.2 in
  qp ← push_varint 0 [0x06];
  qp ← push_varint (zlen crypto_payload) qp;
  let qp := qp ++ crypto_payload in
  let hdr := [Z.lor (Z.lor 0xC0 (Z.shiftl 2 4)) (pn_length - 1)] ++ be_bytes 4 1
             ++ [as_u8 (zlen dcid)] ++ dcid ++ [as_u8 (zlen scid)] ++ scid in
  let length := pn_length + zlen qp + tag_len in
  hdr ← push_varint length hdr;
  let pn_offset := zlen hdr in
  let hdr := hdr ++ be_bytes 4 (as_u32 pn) in
  seal_packet "rustls encrypt_in_place (Handshake): " "rustls HP encrypt (Handshake): "
    "Handshake packet too short for HP sample" hdr pn_offset pn qp local_keys.

Definition build_short_header_crypto_packet (dcid : bytes) (pn : Z) (crypto_frame_bytes : bytes)
    (one_rtt_local : dir_keys) : prog S (string + bytes) :=
  let pn_length := 4 in
  let first_byte := Z.lor 0x40 (pn_length - 1) in
  let hdr := [first_byte] ++ dcid in
  let pn_offset := zlen hdr in
  let hdr := hdr ++ be_bytes 4 (as_u32 pn) in
  seal_packet "rustls encrypt_in_place (1-RTT): " "rustls HP encrypt_in_place (1-RTT): "
    "1-RTT packet too short for HP sample" hdr pn_offset pn crypto_frame_bytes one_rtt_local.

Definition decrypt_long_with_rustls (pkt : bytes) (header : LongHeader) (remote_keys : dir_keys)
  : prog S (string + bytes) :=
  let buf := pkt in
  let pn_offset := payload_offset header in
  let so := pn_offset + 4 in
  if zlen buf <? so + 16 then
    err ("packet too short for HP sample: need " +:+ pretty (so + 16) +:+ ", got "
           +:+ pretty (zlen buf))
  else
    let sample := sub so 16 buf in
    let '((first, rest4), r) :=
      hkey_decrypt_in_place remote_keys.1 sample (default 0 (head buf)) (sub pn_offset 4 buf) in
    match r with
    | inl e => err ("rustls HP decrypt: " +:+ error_debug e)
    | inr _ =>
        let buf := splice pn_offset rest4 (splice 0 [first] buf) in
        let pn_length := Z.land first 0x03 + 1 in
        let header_len := pn_offset + pn_length in
        let pn := be_val (sub pn_offset pn_length buf) in
        let header_bytes := sub 0 header_len buf in
        let end_ := pn_offset + lh_length header in
        if zlen buf <? end_ then
          err ("packet truncated: payload end " +:+ pretty end_ +:+ " > buf len "
                 +:+ pretty (zlen buf))
        else if end_ <? header_len then panic "slice index starts after its end"
        else
          match (pkey_decrypt_in_place remote_keys.2 pn header_bytes
                   (sub header_len (end_ - header_len) buf)).2 with
          | inl e => err ("rustls AEAD decrypt: " +:+ error_debug e)
          | inr pt => ok pt
          end
    end.

Definition decrypt_short_with_rustls (pkt : bytes) (dcid_len : Z) (remote_keys : dir_keys)
  : prog S (string + bytes) :=
  if (zlen pkt =? 0) || negb (Z.land (default 0 (head pkt)) 0x80 =? 0) then
    err "not a short-header packet"
  else
    let pn_offset := 1 + dcid_len in
    let so := pn_offset + 4 in
    if zlen pkt <? so + 16 then
      err ("1-RTT packet too short for HP sample: need " +:+ pretty (so + 16) +:+ ", got "
             +:+ pretty (zlen pkt))
    else
      let buf := pkt in
      let sample := sub so 16 buf in
      let '((first, rest4), r) :=
        hkey_decrypt_in_place remote_keys.1 sample (default 0 (head buf)) (sub pn_offset 4 buf) in
      match r with
      | inl e => err ("rustls HP decrypt (1-RTT): " +:+ error_debug e)
      | inr _ =>
          let buf := splice pn_offset rest4 (splice 0 [first] buf) in
          let pn_length := Z.land first 0x03 + 1 in
          let header_len := pn_offset + pn_length in
          let pn := be_val (sub pn_offset pn_length buf) in
          let header_bytes := sub 0 header_len buf in
          match (pkey_decrypt_in_place remote_keys.2 pn header_bytes
                   (sub header_len (zlen buf - header_len) buf)).2 with
          | inl e => err ("rustls AEAD decrypt (1-RTT): " +:+ error_debug e)
          | inr pt => ok pt
          end
      end.
End Build.

(** ** Round trips *)

Section Facts.
Context {R : Rustls} {L : RustlsLaws R} {S : Type}.

(** Keys of the two ends of one direction that work. *)
Record keys_agree (k k' : dir_keys) : Prop := {
  agree_header : peer_hkey k.1 k'.1;
  agree_packet : peer_pkey k.2 k'.2;
  agree_tag : 16 ≤ pkey_tag_len k.2 ≤ 255;
  agree_encrypts : ∀ pn hdr pt, ∃ ct tag, pkey_encrypt_in_place k.2 pn hdr pt = (ct, inr tag);
  agree_masks : ∀ sample b pn, zlen sample = 16 →
    ∃ q, hkey_encrypt_in_place k.1 sample b pn = (q, inr tt);
}.

(** A sealed packet: the parts on the wire and how they open. *)
Record sealed (k' : dir_keys) (b pn : Z) (mid pnb pt : bytes) (b' : Z) (pnb' ct : bytes) : Prop := {
  sealed_pn : zlen pnb' = 4;
  sealed_unmask : hkey_decrypt_in_place k'.1 (sub 0 16 ct) b' pnb' = ((b, pnb), inr tt);
  sealed_open : (pkey_decrypt_in_place k'.2 pn ((b :: mid) ++ pnb) ct).2 = inr pt;
  sealed_long : Z.testbit b 7 = true → Z.shiftr b' 4 = Z.shiftr b 4;
  sealed_short : Z.testbit b 7 = false → Z.shiftr b' 5 = Z.shiftr b 5;
}.

Lemma seal_packet_ok n1 n2 n3 k k' b pn mid pnb pt (s : S) :
  keys_agree k k' → Z.land b 3 = 3 → zlen pnb = 4 →
  ∃ b' pnb' ct,
    seal_packet n1 n2 n3 ((b :: mid) ++ pnb) (zlen (b :: mid)) pn pt k s
      = Ret (inr ((b' :: mid) ++ pnb' ++ ct)) s ∧
    zlen ct = zlen pt + pkey_tag_len k.2 ∧ sealed k' b pn mid pnb pt b' pnb' ct.
Proof.
  intros [Hh Hp Ht He Hm] H3 H4. destruct (He pn ((b :: mid) ++ pnb) pt) as (c & tag & E).
  destruct (encrypt_length _ _ _ _ _ _ E) as [Lc Lt].
  destruct (decrypt_encrypt _ _ _ _ _ _ _ Hp E) as (tail & Hdec & _).
  set (ct := c ++ tag). pose proof (zlen_nonneg pt).
  assert (Hct : zlen ct = zlen pt + pkey_tag_len k.2) by (unfold ct; solve_zlen).
  assert (Hs : zlen (sub 0 16 ct) = 16) by (apply zlen_sub, fits_spec; lia).
  destruct (Hm (sub 0 16 ct) b pnb Hs) as [[b' pnb'] Eh].
  pose proof (hp_length _ _ _ _ _ _ _ Eh) as Hl. exists b', pnb', ct. split_and!; [|done|].
  - unfold seal_packet. rewrite E. fold ct. pose proof (zlen_nonneg (b :: mid)).
    set (pkt := ((b :: mid) ++ pnb) ++ ct).
    assert (Hz : zlen pkt = zlen (b :: mid) + 4 + zlen ct) by (unfold pkt; rewrite !zlen_app; lia).
    pass_guards.
    rewrite (sample_at pkt ((b :: mid) ++ pnb) ct [])
      by (rewrite ?app_nil_r, ?zlen_app; done || lia).
    rewrite (sub_at pkt (b :: mid) pnb ct) by (done || solve_app || (unfold pkt; solve_app)).
    change (default 0 (head pkt)) with b. rewrite Eh. unfold ok. run. do 2 f_equal.
    apply (splice_at _ (b' :: mid) pnb ct); [|done|lia].
    unfold pkt. change (splice 0 [b'] (((b :: mid) ++ pnb) ++ ct)) with (((b' :: mid) ++ pnb) ++ ct).
    solve_app.
  - split; [lia| |unfold ct; by rewrite Hdec|by apply (hp_long_bits _ _ _ _ _ _ _ Eh)
           |by apply (hp_short_bits _ _ _ _ _ _ _ Eh)].
    pose proof (hp_decrypt_encrypt _ _ _ _ _ _ _ [] Hh Eh) as Hd. rewrite !app_nil_r in Hd.
    apply Hd; [lia|]. rewrite zlen_nil. lia.
Qed.

Lemma decrypt_long_ok k' hd b pn mid pnb pt b' pnb' ct rest (s : S) :
  sealed k' b pn mid pnb pt b' pnb' ct → Z.land b 3 = 3 → zlen pnb = 4 → be_val pnb = pn →
  16 ≤ zlen ct → payload_offset hd = zlen (b' :: mid) → lh_length hd = 4 + zlen ct →
  decrypt_long_with_rustls ((b' :: mid) ++ pnb' ++ ct ++ rest) hd k' s = Ret (inr pt) s.
Proof.
  intros [Hp' Hu Ho _ _] H3 Hp Hv Hct Hoff Hlen. set (pkt := (b' :: mid) ++ pnb' ++ ct ++ rest).
  set (pkt2 := (b :: mid) ++ pnb ++ ct ++ rest).
  pose proof (zlen_nonneg mid). pose proof (zlen_nonneg rest).
  assert (Hz : zlen (b' :: mid) = 1 + zlen mid) by apply zlen_cons.
  assert (Hlp : zlen pkt = 5 + zlen mid + zlen ct + zlen rest) by (unfold pkt; solve_zlen).
  assert (Hlp2 : zlen pkt2 = zlen pkt) by (unfold pkt2, pkt; solve_zlen).
  unfold decrypt_long_with_rustls. rewrite Hoff, Hlen, Hz. pass_guards.
  rewrite (sample_at pkt ((b' :: mid) ++ pnb') ct rest) by (unfold pkt; solve_app || solve_zlen).
  rewrite (sub_at pkt (b' :: mid) pnb' (ct ++ rest)) by (done || solve_zlen).
  change (default 0 (head pkt)) with b'. rewrite Hu.
  assert (Hsp : splice (1 + zlen mid) pnb (splice 0 [b] pkt) = pkt2).
  { change (splice 0 [b] pkt) with ((b :: mid) ++ pnb' ++ ct ++ rest).
    apply (splice_at _ (b :: mid) pnb' (ct ++ rest)); solve [done | solve_zlen]. }
  rewrite Hsp, H3. change (3 + 1) with 4.
  rewrite (sub_at pkt2 (b :: mid) pnb (ct ++ rest)), Hv by (done || solve_zlen).
  rewrite (sub_at pkt2 [] ((b :: mid) ++ pnb) (ct ++ rest))
    by (unfold pkt2; solve_app || solve_zlen).
  rewrite Hlp2. pass_guards.
  rewrite (sub_at pkt2 ((b :: mid) ++ pnb) ct rest) by (unfold pkt2; solve_app || solve_zlen).
  by rewrite Ho.
Qed.

Lemma decrypt_short_ok k' d b pn pnb pt b' pnb' ct (s : S) :
  sealed k' b pn d pnb pt b' pnb' ct → Z.land b 3 = 3 → Z.land b' 0x80 = 0 →
  zlen pnb = 4 → be_val pnb = pn → 16 ≤ zlen ct →
  decrypt_short_with_rustls ((b' :: d) ++ pnb' ++ ct) (zlen d) k' s = Ret (inr pt) s.
Proof.
  intros [Hp' Hu Ho _ _] H3 H80 Hp Hv Hct. set (pkt := (b' :: d) ++ pnb' ++ ct).
  set (pkt2 := (b :: d) ++ pnb ++ ct). pose proof (zlen_nonneg d).
  assert (Hlp : zlen pkt = 5 + zlen d + zlen ct) by (unfold pkt; solve_zlen).
  assert (Hlp2 : zlen pkt2 = zlen pkt) by (unfold pkt2, pkt; solve_zlen).
  unfold decrypt_short_with_rustls. change (default 0 (head pkt)) with b'. rewrite H80.
  rewrite Z.eqb_refl. pass_guards.
  rewrite (sample_at pkt ((b' :: d) ++ pnb') ct [])
    by (unfold pkt; rewrite ?app_nil_r; solve_app || solve_zlen).
  rewrite (sub_at pkt (b' :: d) pnb' ct) by (done || solve_zlen). rewrite Hu.
  assert (Hsp : splice (1 + zlen d) pnb (splice 0 [b] pkt) = pkt2).
  { change (splice 0 [b] pkt) with ((b :: d) ++ pnb' ++ ct).
    apply (splice_at _ (b :: d) pnb' ct); solve [done | solve_zlen]. }
  rewrite Hsp, H3. change (3 + 1) with 4.
  rewrite (sub_at pkt2 (b :: d) pnb ct), Hv by (done || solve_zlen).
  rewrite (sub_at pkt2 [] ((b :: d) ++ pnb) ct) by (unfold pkt2; solve_app || solve_zlen).
  rewrite (sub_at pkt2 ((b :: d) ++ pnb) ct [])
    by (unfold pkt2; rewrite ?app_nil_r; solve_app || solve_zlen).
  by rewrite Ho.
Qed.

Lemma ret_inj {A} (x y : A) (s : S) : Ret x s = Ret y s → x = y.
Proof. by intros [= ->]. Qed.

Lemma pn_bytes_value pn : 0 ≤ pn < 2 ^ 32 → be_val (be_bytes 4 (as_u32 pn)) = pn.
Proof.
  intros. unfold as_u32. rewrite Z.mod_small by lia. rewrite be_val_be_bytes by (simpl; lia).
  apply Z.mod_small. simpl. lia.
Qed.

(** C30: a Handshake packet the harness builds with its own end of the
    handshake keys is parsed, also in front of other packets, to type 2 with
    both connection ids and a Length that ends with it, and opens under the
    keys of the other end to the CRYPTO frame at offset 0. *)
Theorem handshake_build_decrypt k k' d s' pn crypto rest (s : S) :
  keys_agree k k' → 0 ≤ pn < 2 ^ 32 → zlen d ≤ MAX_CID_LEN → zlen s' ≤ MAX_CID_LEN →
  zlen crypto < 2 ^ 60 →
  ∃ pkt hd, build_handshake_packet d s' pn crypto k s = Ret (inr pkt) s ∧
    parse_long_header (pkt ++ rest) = Some hd ∧ version hd = 1 ∧ packet_type hd = 2 ∧
    lh_dcid hd = d ∧ lh_scid hd = s' ∧ payload_offset hd + lh_length hd = zlen pkt ∧
    decrypt_long_with_rustls (pkt ++ rest) hd k' s = Ret (inr (crypto_frame crypto)) s.
Proof.
  intros Hk Hpn Hd Hs Hc. pose proof (agree_tag _ _ Hk). pose proof (zlen_nonneg crypto).
  pose proof (varint_width_pos (zlen crypto)).
  set (qp := crypto_frame crypto). pose proof (zlen_crypto_frame crypto ltac:(lia)) as Hqp.
  set (len := 4 + zlen qp + pkey_tag_len k.2). fold qp in Hqp.
  set (b := Z.lor (Z.lor 0xC0 (Z.shiftl 2 4)) (4 - 1)).
  set (mid := long_middle 2 d s' ++ varint len). set (pnb := be_bytes 4 (as_u32 pn)).
  destruct (seal_packet_ok "rustls encrypt_in_place (Handshake): " "rustls HP encrypt (Handshake): "
    "Handshake packet too short for HP sample" k k' b pn mid pnb qp s Hk eq_refl eq_refl)
    as (b' & pnb' & ct & E & Hct & Hsealed).
  assert (Hb' : Z.shiftr b' 4 = 12 + 2) by (by rewrite (sealed_long _ _ _ _ _ _ _ _ _ Hsealed)).
  pose proof (sealed_pn _ _ _ _ _ _ _ _ _ Hsealed) as Hp'. pose proof (zlen_nonneg rest).
  pose proof (parse_long_built b' 2 d s' (varint len) len (pnb' ++ ct ++ rest) Hb' ltac:(lia) Hd Hs)
    as Hparse.
  rewrite decode_varint_app, zlen_varint in Hparse by (unfold len; lia). specialize (Hparse eq_refl).
  rewrite !zlen_app, Hp', Hct in Hparse. specialize (Hparse ltac:(unfold len; lia)).
  set (hd := {| version := 1; packet_type := 2; lh_dcid := d; lh_scid := s'; token := [];
    payload_offset := zlen (b' :: long_middle 2 d s') + varint_width len; lh_length := len |}) in Hparse.
  exists ((b' :: mid) ++ pnb' ++ ct), hd. split_and!; try done.
  - rewrite <- E. unfold build_handshake_packet.
    rewrite (bind_Ret _ _ s _ s (push_varint_ok 0 [6] s ltac:(lia))).
    rewrite (bind_Ret _ _ s _ s (push_varint_ok (zlen crypto) _ s ltac:(lia))).
    rewrite <- !(app_assoc [6]), <- (app_assoc (varint 0)). fold (crypto_frame crypto). fold qp.
    cbv zeta. fold b. rewrite (ret_inj _ _ _ (header_step (S:=S) 2 b d s' s Hd Hs)).
    rewrite (bind_Ret _ _ s _ s (push_varint_ok len _ s ltac:(unfold len; lia))).
    reflexivity.
  - rewrite <- Hparse. f_equal. unfold mid. solve_app.
  - cbn [hd payload_offset lh_length]. unfold mid. rewrite <- zlen_varint. subst len. solve_zlen.
  - rewrite <- !(app_assoc (b' :: mid)), <- (app_assoc pnb').
    apply (decrypt_long_ok k' hd b pn mid pnb qp); [done|done|done|exact (pn_bytes_value pn Hpn)|lia| |].
    + cbn [hd payload_offset]. unfold mid. rewrite <- zlen_varint. solve_zlen.
    + cbn [hd lh_length]. subst len. lia.
Qed.

(** A short-header packet with any payload opens, under the keys of the
    other end and with the connection-id length the sender used, to exactly
    that payload, and its first byte still has the form of a short header. *)
Theorem short_build_decrypt k k' d pn payload (s : S) :
  keys_agree k k' → 0 ≤ pn < 2 ^ 32 →
  ∃ pkt, build_short_header_crypto_packet d pn payload k s = Ret (inr pkt) s ∧
    zlen pkt = 5 + zlen d + zlen payload + pkey_tag_len k.2 ∧
    parse_short_header pkt (zlen d)
      = Some {| sh_dcid := d; packet_number_offset := 1 + zlen d |} ∧
    decrypt_short_with_rustls pkt (zlen d) k' s = Ret (inr payload) s.
Proof.
  intros Hk Hpn. pose proof (agree_tag _ _ Hk). pose proof (zlen_nonneg payload).
  pose proof (zlen_nonneg d).
  destruct (seal_packet_ok "rustls encrypt_in_place (1-RTT): " "rustls HP encrypt_in_place (1-RTT): "
    "1-RTT packet too short for HP sample" k k' (Z.lor 0x40 (4 - 1)) pn d
    (be_bytes 4 (as_u32 pn)) payload s Hk eq_refl eq_refl) as (b' & pnb' & ct & E & Hct & Hsealed).
  pose proof (sealed_pn _ _ _ _ _ _ _ _ _ Hsealed) as Hp'.
  assert (H80 : Z.land b' 0x80 = 0).
  { pose proof (sealed_short _ _ _ _ _ _ _ _ _ Hsealed eq_refl) as Hb.
    apply Z.bits_inj'. intros i Hi. rewrite Z.land_spec, Z.bits_0.
    destruct (decide (i = 7)) as [->|Hne].
    - change 7 with (2 + 5) at 1. by rewrite <- Z.shiftr_spec, Hb.
    - change 0x80 with (2 ^ 7). by rewrite Z.pow2_bits_false, andb_false_r. }
  eexists. split_and!; [exact E| | |].
  - solve_zlen.
  - unfold parse_short_header. change (default 0 (head _)) with b'. rewrite H80, Z.eqb_refl.
    assert (Hz : zlen ((b' :: d) ++ pnb' ++ ct) = 5 + zlen d + zlen ct) by solve_zlen.
    rewrite Hz. pass_guards. do 2 f_equal. by apply (sub_at _ [b'] d (pnb' ++ ct)).
  - eapply decrypt_short_ok; [exact Hsealed|done|done|done|by apply pn_bytes_value|lia].
Qed.
End Facts.

Definition toy_keys : @dir_keys toy := ((10, 20) : @hkey toy * @pkey toy).

Lemma toy_agree : keys_agree toy_keys toy_keys.
Proof.
  split; [done|done|done| |].
  - intros. eexists _, _. reflexivity.
  - intros. eexists. reflexivity.
Qed.

Lemma handshake_build_decrypt_witness :
  ∃ pkt hd, build_handshake_packet [1; 2] [3; 4; 5] 7 [20; 0; 0] toy_keys tt = Ret (inr pkt) tt ∧
    parse_long_header (pkt ++ [0xC0]) = Some hd ∧ version hd = 1 ∧ packet_type hd = 2 ∧
    lh_dcid hd = [1; 2] ∧ lh_scid hd = [3; 4; 5] ∧ payload_offset hd + lh_length hd = zlen pkt ∧
    decrypt_long_with_rustls (pkt ++ [0xC0]) hd toy_keys tt
      = Ret (inr (crypto_frame [20; 0; 0])) tt.
Proof.
  apply (handshake_build_decrypt toy_keys toy_keys [1; 2] [3; 4; 5] 7 [20; 0; 0] [0xC0] tt).
  - apply toy_agree.
  - lia.
  - done.
  - done.
  - done.
Defined.

Lemma short_build_decrypt_witness :
  ∃ pkt, build_short_header_crypto_packet [1; 2] 7 [6; 0; 1; 24] toy_keys tt = Ret (inr pkt) tt ∧
    zlen pkt = 27 ∧
    parse_short_header pkt 2 = Some {| sh_dcid := [1; 2]; packet_number_offset := 3 |} ∧
    decrypt_short_with_rustls pkt 2 toy_keys tt = Ret (inr [6; 0; 1; 24]) tt.
Proof.
  apply (short_build_decrypt toy_keys toy_keys [1; 2] 7 [6; 0; 1; 24] tt).
  - apply toy_agree.
  - lia.
Defined.
End RustlsPackets.
