(* ===== verification/TransportParams.v ===== *)
(** * Transport-parameter blocks

    Models the builders of [src/conformance/tls-conformance/src/lib.rs]: the
    baseline block [server_tp_bytes_well_formed] and the module
    [adversarial_tp]. A builder is a sequence of appends to a vector; [None] is
    the panic of [encode_varint]. Against them stand a reference decoder of RFC
    9000 section 18 and the list of rules a block breaks. *)

From S2P Require Import Prelude Varint World QuicPacketFacts.
Import Varint World QuicPacketFacts.

Module TransportParams.

(** ** The builders *)

Definition append_varint_param (id value : Z) (out : bytes) : option bytes :=
  value_bytes ← encode_varint value [];
  out ← encode_varint id out;
  out ← encode_varint (zlen value_bytes) out;
  Some (out ++ value_bytes).

Definition server_tp_bytes_well_formed : option bytes :=
  let out := [] in
  out ← encode_varint 0x0f out;
  out ← encode_varint 8 out;
  let out := out ++ replicate 8 0 in
  out ← append_varint_param 0x01 30000 out;
  out ← append_varint_param 0x03 1452 out;
  out ← append_varint_param 0x04 1048576 out;
  out ← append_varint_param 0x05 65536 out;
  out ← append_varint_param 0x06 65536 out;
  out ← append_varint_param 0x07 65536 out;
  out ← append_varint_param 0x08 100 out;
  append_varint_param 0x09 100 out.

Definition push_tp (id : Z) (value : bytes) (out : bytes) : option bytes :=
  out ← encode_varint id out;
  out ← encode_varint (zlen value) out;
  Some (out ++ value).

Definition push_varint_tp (id value : Z) (out : bytes) : option bytes :=
  value_bytes ← encode_varint value [];
  push_tp id value_bytes out.

Definition varint_value (v : Z) : option bytes := encode_varint v [].

Definition f02_missing_initial_scid : option bytes :=
  let out := [] in
  out ← push_varint_tp 0x01 30000 out;
  out ← push_varint_tp 0x03 1452 out;
  out ← push_varint_tp 0x04 1048576 out;
  out ← push_varint_tp 0x05 65536 out;
  out ← push_varint_tp 0x06 65536 out;
  out ← push_varint_tp 0x07 65536 out;
  out ← push_varint_tp 0x08 100 out;
  push_varint_tp 0x09 100 out.

Definition f03_original_dcid_forbidden : option bytes :=
  out ← server_tp_bytes_well_formed;
  push_tp 0x00 (replicate 8 0) out.

Definition f04_preferred_addr_forbidden : option bytes :=
  out ← server_tp_bytes_well_formed;
  let val := [127; 0; 0; 1] ++ [0x10; 0xbb] ++ replicate 16 0 ++ [0x10; 0xbb] ++ [1] ++ [0]
             ++ replicate 16 0 in
  push_tp 0x0d val out.

Definition f05_retry_scid_forbidden : option bytes :=
  out ← server_tp_bytes_well_formed;
  push_tp 0x10 (replicate 8 0) out.

Definition f06_stateless_reset_forbidden : option bytes :=
  out ← server_tp_bytes_well_formed;
  push_tp 0x02 (replicate 16 0) out.

Definition f07_max_udp_payload_below_min : option bytes :=
  let out := [] in
  v ← varint_value 30000; out ← push_tp 0x01 v out;
  v ← varint_value 1100; out ← push_tp 0x03 v out;
  v ← varint_value 1048576; out ← push_tp 0x04 v out;
  v ← varint_value 65536; out ← push_tp 0x05 v out;
  v ← varint_value 65536; out ← push_tp 0x06 v out;
  v ← varint_value 65536; out ← push_tp 0x07 v out;
  v ← varint_value 100; out ← push_tp 0x08 v out;
  v ← varint_value 100; out ← push_tp 0x09 v out;
  push_tp 0x0f [] out.

Definition f08_ack_delay_exponent_above_max : option bytes :=
  out ← server_tp_bytes_well_formed;
  v ← varint_value 21;
  push_tp 0x0a v out.

Definition f09_max_ack_delay_above_threshold : option bytes :=
  out ← server_tp_bytes_well_formed;
  v ← varint_value 16384;
  push_tp 0x0b v out.

(** ** The reference decoder

    A block is a sequence of (id, length, value); each entry takes at least
    two bytes, so one unit of fuel per byte is enough. *)

Fixpoint parse_params (fuel : nat) (buf : bytes) : option (list (Z * bytes)) :=
  match buf, fuel with
  | [], _ => Some []
  | _, O => None
  | _, S fuel =>
      '(id, n) ← decode_varint buf;
      let buf := drop (Z.to_nat n) buf in
      '(len, n) ← decode_varint buf;
      let buf := drop (Z.to_nat n) buf in
      if zlen buf <? len then None
      else
        l ← parse_params fuel (drop (Z.to_nat len) buf);
        Some ((id, sub 0 len buf) :: l)
  end.

Definition params (buf : bytes) : option (list (Z * bytes)) := parse_params (length buf) buf.

(** The rules of RFC 9000 (sections 7.3, 7.4, 18.2) a client's block can break
    that the scenarios are about. *)
Inductive violation :=
  | MissingInitialScid
  | InitialScidMismatch
  | ServerOnly (id : Z)
  | MaxUdpPayloadBelowMin
  | AckDelayExponentAboveMax
  | MaxAckDelayAboveMax
  | DuplicateParameter.

#[global] Instance violation_eq_dec : EqDecision violation.
Proof. solve_decision. Defined.

Definition param_value (id : Z) (l : list (Z * bytes)) : option bytes :=
  '(_, (_, v)) ← list_find (λ p, p.1 = id) l; Some v.

Definition param_int (id : Z) (l : list (Z * bytes)) : option Z :=
  v ← param_value id l; p ← decode_varint v; Some p.1.

Definition flag (b : bool) (v : violation) : list violation := if b then [v] else [].

Definition violations (scid : bytes) (l : list (Z * bytes)) : list violation :=
  match param_value 0x0f l with
  | None => [MissingInitialScid]
  | Some v => flag (bool_decide (v ≠ scid)) InitialScidMismatch
  end
  ++ (ServerOnly <$> filter (λ i, i ∈ fst <$> l) [0x00; 0x02; 0x0d; 0x10])
  ++ flag (default 1200 (param_int 0x03 l) <? 1200) MaxUdpPayloadBelowMin
  ++ flag (20 <? default 3 (param_int 0x0a l)) AckDelayExponentAboveMax
  ++ flag (2 ^ 14 <=? default 25 (param_int 0x0b l)) MaxAckDelayAboveMax
  ++ flag (bool_decide (¬ NoDup (fst <$> l))) DuplicateParameter.

(** The eight zero bytes every scenario uses as its source connection id. *)
Definition scenario_scid : bytes := replicate 8 0.

Definition broken_rules (block : option bytes) : option (list violation) :=
  b ← block; l ← params b; Some (violations scenario_scid l).

(** ** Properties *)

Definition entry_ok (p : Z * bytes) : Prop := 0 ≤ p.1 < 2 ^ 62 ∧ zlen p.2 < 2 ^ 62.

Definition encode_entry (p : Z * bytes) : bytes := varint p.1 ++ varint (zlen p.2) ++ p.2.

Lemma push_tp_ok p out : entry_ok p → push_tp p.1 p.2 out = Some (out ++ encode_entry p).
Proof.
  intros [Hi Hv]. pose proof (zlen_nonneg p.2). unfold push_tp, encode_entry.
  rewrite encode_varint_spec by done. simpl. rewrite encode_varint_spec by lia. simpl.
  f_equal. unfold varint. by rewrite <- !app_assoc.
Qed.

Lemma drop_varint v rest : drop (Z.to_nat (varint_width v)) (varint v ++ rest) = rest.
Proof. rewrite <- zlen_varint. by apply (drop_at _ (varint v) [] rest). Qed.

Lemma parse_entries l : ∀ fuel,
  Forall entry_ok l → (length l ≤ fuel)%nat →
  parse_params fuel (mjoin (encode_entry <$> l)) = Some l.
Proof.
  induction l as [|[id v] l IH]; intros fuel Hok Hf; [by destruct fuel|].
  inversion Hok as [|? ? [Hi Hv] Hok']; subst. simpl in Hi, Hv. pose proof (zlen_nonneg v).
  destruct fuel as [|fuel]; [simpl in Hf; lia|].
  change (mjoin (encode_entry <$> (id, v) :: l))
    with ((varint id ++ varint (zlen v) ++ v) ++ mjoin (encode_entry <$> l)).
  rewrite <- !app_assoc. set (rest := mjoin (encode_entry <$> l)) in *.
  unfold parse_params; fold parse_params.
  destruct (varint id ++ varint (zlen v) ++ v ++ rest) as [|b0 bs] eqn:E.
  { apply (f_equal zlen) in E. rewrite zlen_app, zlen_varint, zlen_nil in E.
    pose proof (varint_width_pos id). pose proof (zlen_nonneg (varint (zlen v) ++ v ++ rest)). lia. }
  rewrite <- E. clear E. rewrite decode_varint_app by done. rewrite option_bind_Some; cbv beta iota zeta.
  rewrite drop_varint, decode_varint_app by lia. rewrite option_bind_Some; cbv beta iota zeta.
  rewrite drop_varint. pose proof (zlen_nonneg rest). rewrite zlen_app. pass_guards.
  rewrite (drop_at (v ++ rest) v [] rest) by done. simpl app.
  rewrite IH by (done || (simpl in Hf; lia)). simpl. by rewrite sub_app_l, sub_all by lia.
Qed.

(** A block assembled entry by entry. *)
Definition push_all (l : list (Z * bytes)) (out : bytes) : option bytes :=
  foldl (λ o p, o ≫= push_tp p.1 p.2) (Some out) l.

Lemma push_all_ok l out :
  Forall entry_ok l → push_all l out = Some (out ++ mjoin (encode_entry <$> l)).
Proof.
  unfold push_all. revert out. induction l as [|p l IH]; intros out Hok.
  - simpl. by rewrite app_nil_r.
  - inversion Hok; subst. cbn [foldl]. rewrite option_bind_Some, push_tp_ok, IH by done.
    by rewrite <- app_assoc.
Qed.

Lemma length_entries l : (length l ≤ length (mjoin (encode_entry <$> l)))%nat.
Proof.
  induction l as [|[id v] l IH]; [simpl; lia|].
  change (mjoin (encode_entry <$> (id, v) :: l))
    with ((varint id ++ varint (zlen v) ++ v) ++ mjoin (encode_entry <$> l)).
  rewrite !length_app. cbn [length]. pose proof (zlen_varint id). pose proof (varint_width_pos id).
  unfold zlen in *. lia.
Qed.

(** A block assembled with [push_tp] from any list of identifiers and
    values decodes to exactly that list, in order, duplicates included. *)
Theorem tp_block_roundtrip l :
  Forall entry_ok l → ∃ b, push_all l [] = Some b ∧ params b = Some l.
Proof.
  intros Hok. eexists. split; [by apply push_all_ok|]. rewrite app_nil_l.
  apply parse_entries; [done|apply length_entries].
Qed.

Lemma tp_block_roundtrip_witness :
  ∃ b, push_all [(0x0f, [1; 2; 3]); (0x4001, []); (0x0f, [9])] [] = Some b ∧
    params b = Some [(0x0f, [1; 2; 3]); (0x4001, []); (0x0f, [9])].
Proof.
  apply (tp_block_roundtrip [(0x0f, [1; 2; 3]); (0x4001, []); (0x0f, [9])]).
  repeat constructor; simpl; lia.
Defined.

(** No builder panics, the baseline block breaks no rule, and each
    adversarial block breaks the one rule its scenario is about; that of F07
    breaks a second one as well, since its [initial_source_connection_id] is
    empty where the scenarios' packets carry eight zero bytes. *)
Example adversarial_blocks :
  broken_rules server_tp_bytes_well_formed = Some [] ∧
  broken_rules f02_missing_initial_scid = Some [MissingInitialScid] ∧
  broken_rules f03_original_dcid_forbidden = Some [ServerOnly 0x00] ∧
  broken_rules f04_preferred_addr_forbidden = Some [ServerOnly 0x0d] ∧
  broken_rules f05_retry_scid_forbidden = Some [ServerOnly 0x10] ∧
  broken_rules f06_stateless_reset_forbidden = Some [ServerOnly 0x02] ∧
  broken_rules f07_max_udp_payload_below_min
    = Some [InitialScidMismatch; MaxUdpPayloadBelowMin] ∧
  broken_rules f08_ack_delay_exponent_above_max = Some [AckDelayExponentAboveMax] ∧
  broken_rules f09_max_ack_delay_above_threshold = Some [MaxAckDelayAboveMax].
Proof. split_and!; by_eval. Qed.
End TransportParams.
