(* ===== verification/RawClientHello.v ===== *)
(** * The hand-assembled ClientHello

    Models [src/conformance/tls-conformance/src/raw_client_hello.rs]: the
    builder of a TLS 1.3 ClientHello without the [quic_transport_parameters]
    extension. The 32 random bytes are an argument. Length casts truncate as
    in the source. The theorem reads the message back with a decoder of the
    RFC 8446 layout. *)

From S2P Require Import Prelude World QuicPacketFacts.
Import World QuicPacketFacts.

Module RawClientHello.

Module ext.
Definition SERVER_NAME : Z := 0x0000.
Definition SUPPORTED_GROUPS : Z := 0x000a.
Definition APPLICATION_LAYER_PROTO_NEG : Z := 0x0010.
Definition SIGNATURE_ALGORITHMS : Z := 0x000d.
Definition SUPPORTED_VERSIONS : Z := 0x002b.
Definition KEY_SHARE : Z := 0x0033.
Definition QUIC_TRANSPORT_PARAMETERS : Z := 0x0039.
End ext.

(** [server_name] is a Rust string: its bytes. *)
Record ClientHelloOmittingQuicTp := { server_name : bytes; alpn : bytes }.

Definition default_hello : ClientHelloOmittingQuicTp :=
  {| server_name := string_bytes "localhost"; alpn := string_bytes "h3" |}.

Definition put_u16 (v : Z) (out : bytes) : bytes := out ++ be_bytes 2 v.

Definition put_u24 (v : Z) (out : bytes) : bytes :=
  out ++ [as_u8 (Z.land (Z.shiftr v 16) 0xff); as_u8 (Z.land (Z.shiftr v 8) 0xff);
          as_u8 (Z.land v 0xff)].

Definition push_extension (ext_type : Z) (body : bytes) (out : bytes) : bytes :=
  let out := put_u16 ext_type out in
  let out := put_u16 (as_u16 (zlen body)) out in
  out ++ body.

Definition build_sni_body (server_name : bytes) : bytes :=
  let name := server_name in
  let entry_len := 1 + 2 + zlen name in
  let body := put_u16 (as_u16 entry_len) [] in
  let body := body ++ [0x00] in
  let body := put_u16 (as_u16 (zlen name)) body in
  body ++ name.

Definition build_alpn_body (alpn : bytes) : bytes :=
  let entry_len := 1 + zlen alpn in
  let body := put_u16 (as_u16 entry_len) [] in
  let body := body ++ [as_u8 (zlen alpn)] in
  body ++ alpn.

Definition build_supported_versions_body : bytes := put_u16 0x0304 [2].

Definition build_supported_groups_body : bytes := put_u16 0x001d (put_u16 2 []).

Definition build_signature_algorithms_body : bytes :=
  let schemes := [0x0403; 0x0804; 0x0805; 0x0806; 0x0401] in
  let bytes_len := zlen schemes * 2 in
  let body := put_u16 (as_u16 bytes_len) [] in
  foldl (λ body s, put_u16 s body) body schemes.

Definition build_key_share_body : bytes :=
  let key_exchange := replicate 32 0 in
  let entry_len := 2 + 2 + zlen key_exchange in
  let body := put_u16 (as_u16 entry_len) [] in
  let body := put_u16 0x001d body in
  let body := put_u16 (as_u16 (zlen key_exchange)) body in
  body ++ key_exchange.

Definition build (self : ClientHelloOmittingQuicTp) (random : bytes) : string + bytes :=
  if zlen (server_name self) =? 0 then inl "server_name must be non-empty"%string
  else if zlen (alpn self) =? 0 then inl "alpn must be non-empty"%string
  else
    let body := put_u16 0x0303 [] in
    let body := body ++ random in
    let body := body ++ [0] in
    let body := put_u16 2 body in
    let body := put_u16 0x1301 body in
    let body := body ++ [1] in
    let body := body ++ [0x00] in
    let exts := push_extension ext.SERVER_NAME (build_sni_body (server_name self)) [] in
    let exts := push_extension ext.SUPPORTED_VERSIONS build_supported_versions_body exts in
    let exts := push_extension ext.SUPPORTED_GROUPS build_supported_groups_body exts in
    let exts := push_extension ext.SIGNATURE_ALGORITHMS build_signature_algorithms_body exts in
    let exts := push_extension ext.KEY_SHARE build_key_share_body exts in
    let exts := push_extension ext.APPLICATION_LAYER_PROTO_NEG (build_alpn_body (alpn self)) exts in
    let body := put_u16 (as_u16 (zlen exts)) body in
    let body := body ++ exts in
    let hs := [0x01] in
    let hs := put_u24 (as_u32 (zlen body)) hs in
    inr (hs ++ body).

(** ** The reference decoder (RFC 8446, sections 4 and 4.1.2) *)

(** An [n]-byte big-endian length and what it covers; the rest. *)
Definition take_vec (n : Z) (buf : bytes) : option (bytes * bytes) :=
  if zlen buf <? n then None
  else
    let len := be_val (sub 0 n buf) in
    let buf := drop (Z.to_nat n) buf in
    if zlen buf <? len then None
    else Some (sub 0 len buf, drop (Z.to_nat len) buf).

Fixpoint parse_extensions (fuel : nat) (buf : bytes) : option (list (Z * bytes)) :=
  match buf, fuel with
  | [], _ => Some []
  | _, O => None
  | _, S fuel =>
      if zlen buf <? 2 then None
      else
        '(body, rest) ← take_vec 2 (drop 2 buf);
        l ← parse_extensions fuel rest;
        Some ((be_val (sub 0 2 buf), body) :: l)
  end.

Record client_hello := {
  ch_random : bytes; ch_session_id : bytes; ch_suites : bytes; ch_compression : bytes;
  ch_extensions : list (Z * bytes);
}.

(** The handshake message: type, length, version, random, session id, cipher
    suites, compression methods, extensions, and nothing behind them. *)
Definition parse_client_hello (msg : bytes) : option client_hello :=
  if negb (bool_decide (head msg = Some 1)) then None
  else
    '(body, rest) ← take_vec 3 (drop 1 msg);
    if negb (zlen rest =? 0) || (zlen body <? 34) then None
    else if negb (bool_decide (sub 0 2 body = [3; 3])) then None
    else
      '(session_id, buf) ← take_vec 1 (drop 34 body);
      '(suites, buf) ← take_vec 2 buf;
      '(compression, buf) ← take_vec 1 buf;
      '(exts, rest) ← take_vec 2 buf;
      if negb (zlen rest =? 0) then None
      else
        l ← parse_extensions (length exts) exts;
        Some {| ch_random := sub 2 32 body; ch_session_id := session_id; ch_suites := suites;
                ch_compression := compression; ch_extensions := l |}.

(** The single host name of a [server_name] body and the single protocol of
    an ALPN body. *)
Definition sni_name (body : bytes) : option bytes :=
  '(l, rest) ← take_vec 2 body;
  if negb (zlen rest =? 0) || negb (bool_decide (head l = Some 0)) then None
  else '(name, rest) ← take_vec 2 (drop 1 l); if zlen rest =? 0 then Some name else None.

Definition alpn_name (body : bytes) : option bytes :=
  '(l, rest) ← take_vec 2 body;
  if negb (zlen rest =? 0) then None
  else '(name, rest) ← take_vec 1 l; if zlen rest =? 0 then Some name else None.

(** The 16-bit numbers that fill a vector behind a length of [n] bytes: the
    versions (sections 4.2.1), the groups (4.2.7) and the signature schemes
    (4.2.3). *)
Fixpoint u16s (buf : bytes) : option (list Z) :=
  match buf with
  | [] => Some []
  | [_] => None
  | a :: b :: buf => l ← u16s buf; Some (be_val [a; b] :: l)
  end.

Definition u16_vec (n : Z) (body : bytes) : option (list Z) :=
  '(l, rest) ← take_vec n body;
  if zlen rest =? 0 then u16s l else None.

(** The entries of a [key_share] body (section 4.2.8): a group and a key
    behind its length are an extension's layout. *)
Definition key_shares (body : bytes) : option (list (Z * bytes)) :=
  '(l, rest) ← take_vec 2 body;
  if zlen rest =? 0 then parse_extensions (length l) l else None.

(** ** Properties *)

Lemma take_vec_ok n l rest :
  0 ≤ n ≤ 4 → zlen l < 256 ^ n →
  take_vec n (be_bytes (Z.to_nat n) (zlen l) ++ l ++ rest) = Some (l, rest).
Proof.
  intros Hn Hl. pose proof (zlen_nonneg l). pose proof (zlen_nonneg rest).
  assert (Hb : zlen (be_bytes (Z.to_nat n) (zlen l)) = n) by (unfold zlen; rewrite length_be_bytes; lia).
  set (p := be_bytes (Z.to_nat n) (zlen l)) in *.
  assert (Hv : be_val p = zlen l).
  { unfold p. rewrite be_val_be_bytes by lia. rewrite Z2Nat.id by lia. apply Z.mod_small. lia. }
  unfold take_vec. rewrite !zlen_app, Hb. pass_guards.
  rewrite (sub_at (p ++ l ++ rest) [] p (l ++ rest)), Hv by done.
  rewrite (drop_at (p ++ l ++ rest) p l rest) by done. rewrite zlen_app. pass_guards.
  rewrite sub_app_l, sub_all by lia. by rewrite (drop_at (l ++ rest) l [] rest).
Qed.

Lemma take_vec_end n l :
  0 ≤ n ≤ 4 → zlen l < 256 ^ n → take_vec n (be_bytes (Z.to_nat n) (zlen l) ++ l) = Some (l, []).
Proof. intros. rewrite <- (app_nil_r l) at 2. by apply take_vec_ok. Qed.

Lemma put_u24_ok v out : put_u24 v out = out ++ be_bytes 3 v.
Proof.
  unfold put_u24. rewrite !be_bytes_cons. f_equal.
  assert (Hb : ∀ x, as_u8 (Z.land x 0xff) = as_u8 x).
  { intros x. unfold as_u8. change 0xff with (Z.ones 8). rewrite Z.land_ones by lia.
    by rewrite Z.mod_mod. }
  by rewrite !Hb, Z.shiftr_0_r.
Qed.

(** Extensions as they are written, one after the other. *)
Definition encode_ext (p : Z * bytes) : bytes := be_bytes 2 p.1 ++ be_bytes 2 (zlen p.2) ++ p.2.

Definition ext_ok (p : Z * bytes) : Prop := 0 ≤ p.1 < 2 ^ 16 ∧ zlen p.2 < 2 ^ 16.

Lemma as_u16_small v : 0 ≤ v < 2 ^ 16 → as_u16 v = v.
Proof. apply Z.mod_small. Qed.

Lemma push_extension_ok p out : ext_ok p → push_extension p.1 p.2 out = out ++ encode_ext p.
Proof.
  intros [_ Hl]. pose proof (zlen_nonneg p.2). unfold push_extension, put_u16, encode_ext.
  rewrite as_u16_small by lia. by rewrite <- !app_assoc.
Qed.

Lemma parse_extensions_ok l : ∀ fuel,
  Forall ext_ok l → (length l ≤ fuel)%nat →
  parse_extensions fuel (mjoin (encode_ext <$> l)) = Some l.
Proof.
  induction l as [|[t b] l IH]; intros fuel Hok Hf; [by destruct fuel|].
  inversion Hok as [|? ? [Ht Hb] Hok']; subst. simpl in Ht, Hb. pose proof (zlen_nonneg b).
  destruct fuel as [|fuel]; [simpl in Hf; lia|].
  change (mjoin (encode_ext <$> (t, b) :: l))
    with ((be_bytes 2 t ++ be_bytes 2 (zlen b) ++ b) ++ mjoin (encode_ext <$> l)).
  rewrite <- !app_assoc. set (rest := mjoin (encode_ext <$> l)) in *.
  set (tb := be_bytes 2 t). assert (Htb : zlen tb = 2) by done.
  assert (Hv : be_val tb = t).
  { unfold tb. rewrite be_val_be_bytes by lia. apply Z.mod_small. simpl. lia. }
  unfold parse_extensions; fold parse_extensions.
  set (buf := tb ++ be_bytes 2 (zlen b) ++ b ++ rest).
  assert (Hz : 4 ≤ zlen buf).
  { unfold buf. rewrite !zlen_app, Htb. change (zlen (be_bytes 2 (zlen b))) with 2.
    pose proof (zlen_nonneg rest). lia. }
  destruct buf as [|b0 bs] eqn:E; [by rewrite zlen_nil in Hz|]. rewrite <- E in *. clear E b0 bs.
  pass_guards. change 2%nat with (Z.to_nat 2).
  unfold buf at 1. rewrite (drop_at _ tb (be_bytes 2 (zlen b) ++ b ++ rest) []) by
    (rewrite ?app_nil_r; done). rewrite app_nil_r.
  change 2%nat with (Z.to_nat 2) at 1. rewrite take_vec_ok by (simpl; lia).
  rewrite option_bind_Some; cbv beta iota zeta.
  rewrite IH by (done || (simpl in Hf; lia)). rewrite option_bind_Some; cbv beta iota zeta.
  unfold buf. by rewrite (sub_at _ [] tb (be_bytes 2 (zlen b) ++ b ++ rest)), Hv.
Qed.

(** The extensions of a built message. *)
Definition hello_exts (self : ClientHelloOmittingQuicTp) : list (Z * bytes) :=
  [(ext.SERVER_NAME, build_sni_body (server_name self));
   (ext.SUPPORTED_VERSIONS, build_supported_versions_body);
   (ext.SUPPORTED_GROUPS, build_supported_groups_body);
   (ext.SIGNATURE_ALGORITHMS, build_signature_algorithms_body);
   (ext.KEY_SHARE, build_key_share_body);
   (ext.APPLICATION_LAYER_PROTO_NEG, build_alpn_body (alpn self))].

Section Hello.
Context (self : ClientHelloOmittingQuicTp) (random : bytes).
Hypothesis Hrandom : zlen random = 32.
Hypothesis Hname : 1 ≤ zlen (server_name self) ≤ 60000.
Hypothesis Halpn : 1 ≤ zlen (alpn self) ≤ 255.

Lemma sni_body_eq :
  build_sni_body (server_name self) =
    be_bytes 2 (zlen (0 :: be_bytes 2 (zlen (server_name self)) ++ server_name self))
    ++ 0 :: be_bytes 2 (zlen (server_name self)) ++ server_name self.
Proof.
  unfold build_sni_body, put_u16. rewrite !as_u16_small by lia.
  assert (Hz : zlen (0 :: be_bytes 2 (zlen (server_name self)) ++ server_name self)
    = 1 + 2 + zlen (server_name self)).
  { rewrite zlen_cons, zlen_app. change (zlen (be_bytes 2 _)) with 2. lia. }
  rewrite Hz. rewrite app_nil_l. solve_app.
Qed.

Lemma alpn_body_eq :
  build_alpn_body (alpn self) =
    be_bytes 2 (zlen (be_bytes 1 (zlen (alpn self)) ++ alpn self))
    ++ be_bytes 1 (zlen (alpn self)) ++ alpn self.
Proof.
  unfold build_alpn_body, put_u16. rewrite as_u16_small by lia.
  assert (Hz : zlen (be_bytes 1 (zlen (alpn self)) ++ alpn self) = 1 + zlen (alpn self)).
  { rewrite zlen_app. change (zlen (be_bytes 1 _)) with 1. lia. }
  rewrite Hz, app_nil_l. change (be_bytes 1 (zlen (alpn self)))
    with [as_u8 (Z.shiftr (zlen (alpn self)) 0)]. rewrite Z.shiftr_0_r. solve_app.
Qed.

Lemma sni_readable : sni_name (build_sni_body (server_name self)) = Some (server_name self).
Proof.
  rewrite sni_body_eq. unfold sni_name. set (n := server_name self) in *.
  set (l := 0 :: be_bytes 2 (zlen n) ++ n).
  assert (Hl : zlen l < 65536).
  { unfold l. rewrite zlen_cons, zlen_app. change (zlen (be_bytes 2 _)) with 2. lia. }
  change (be_bytes 2) with (be_bytes (Z.to_nat 2)). rewrite take_vec_end by (simpl; lia).
  rewrite option_bind_Some; cbv beta iota zeta. change (drop 1 l) with (be_bytes (Z.to_nat 2) (zlen n) ++ n).
  rewrite take_vec_end by (simpl; lia). done.
Qed.

Lemma alpn_readable : alpn_name (build_alpn_body (alpn self)) = Some (alpn self).
Proof.
  rewrite alpn_body_eq. unfold alpn_name. set (n := alpn self) in *.
  set (l := be_bytes 1 (zlen n) ++ n).
  assert (Hl : zlen l < 65536).
  { unfold l. rewrite zlen_app. change (zlen (be_bytes 1 _)) with 1. lia. }
  change (be_bytes 2) with (be_bytes (Z.to_nat 2)). rewrite take_vec_end by (simpl; lia).
  rewrite option_bind_Some; cbv beta iota zeta.
  change l with (be_bytes (Z.to_nat 1) (zlen n) ++ n). by rewrite take_vec_end by (simpl; lia).
Qed.

Lemma zlen_sni : zlen (build_sni_body (server_name self)) = 5 + zlen (server_name self).
Proof.
  rewrite sni_body_eq, zlen_app, zlen_cons, zlen_app. change (zlen (be_bytes 2 _)) with 2. lia.
Qed.

Lemma zlen_alpn : zlen (build_alpn_body (alpn self)) = 3 + zlen (alpn self).
Proof.
  rewrite alpn_body_eq, !zlen_app. change (zlen (be_bytes 2 _)) with 2.
  change (zlen (be_bytes 1 _)) with 1. lia.
Qed.

Lemma hello_exts_ok : Forall ext_ok (hello_exts self).
Proof.
  unfold hello_exts. pose proof zlen_sni. pose proof zlen_alpn.
  repeat constructor; cbn [fst snd]; try done; lia.
Qed.

Let exts : bytes := mjoin (encode_ext <$> hello_exts self).

Lemma exts_app : exts =
  encode_ext (ext.SERVER_NAME, build_sni_body (server_name self))
  ++ encode_ext (ext.SUPPORTED_VERSIONS, build_supported_versions_body)
  ++ encode_ext (ext.SUPPORTED_GROUPS, build_supported_groups_body)
  ++ encode_ext (ext.SIGNATURE_ALGORITHMS, build_signature_algorithms_body)
  ++ encode_ext (ext.KEY_SHARE, build_key_share_body)
  ++ encode_ext (ext.APPLICATION_LAYER_PROTO_NEG, build_alpn_body (alpn self)).
Proof.
  rewrite <- (app_nil_r (encode_ext (ext.APPLICATION_LAYER_PROTO_NEG, _))). reflexivity.
Qed.

Lemma zlen_encode_ext p : zlen (encode_ext p) = 4 + zlen p.2.
Proof. unfold encode_ext. rewrite !zlen_app. change (zlen (be_bytes 2 _)) with 2. lia. Qed.

Lemma zlen_exts : zlen exts = 89 + zlen (server_name self) + zlen (alpn self).
Proof.
  rewrite exts_app, !zlen_app, !zlen_encode_ext. cbn [snd]. rewrite zlen_sni, zlen_alpn.
  change (zlen build_supported_versions_body) with 3.
  change (zlen build_supported_groups_body) with 4.
  change (zlen build_signature_algorithms_body) with 12.
  change (zlen build_key_share_body) with 38. lia.
Qed.

(** The body of the message and the message. *)
Let body : bytes :=
  [3; 3] ++ random ++ [0] ++ be_bytes 2 2 ++ [0x13; 0x01] ++ [1; 0] ++ be_bytes 2 (zlen exts) ++ exts.

Lemma zlen_body : zlen body = 43 + zlen exts.
Proof.
  unfold body. rewrite !zlen_app, Hrandom. change (zlen (be_bytes 2 _)) with 2.
  rewrite !zlen_cons, !zlen_nil. lia.
Qed.

Lemma build_eq : build self random = inr ([1] ++ be_bytes 3 (zlen body) ++ body).
Proof.
  pose proof zlen_exts as Hx. pose proof zlen_body as Hb. pose proof hello_exts_ok as Hok.
  unfold build. pass_guards.
  unfold hello_exts in Hok. rewrite !Forall_cons in Hok. destruct Hok as (K1 & K2 & K3 & K4 & K5 & K6 & _).
  rewrite (push_extension_ok (_, _) _ K1), (push_extension_ok (_, _) _ K2),
    (push_extension_ok (_, _) _ K3), (push_extension_ok (_, _) _ K4),
    (push_extension_ok (_, _) _ K5), (push_extension_ok (_, _) _ K6).
  rewrite <- !app_assoc.
  rewrite app_nil_l, <- exts_app. rewrite put_u24_ok. unfold put_u16.
  rewrite as_u16_small by lia. rewrite app_nil_l.
  change (be_bytes 2 4865) with [0x13; 0x01]. change (be_bytes 2 771) with [3; 3].
  assert (Hbody : ((((([3; 3] ++ random ++ [0]) ++ be_bytes 2 2) ++ [0x13; 0x01]) ++ [1] ++ [0])
    ++ be_bytes 2 (zlen exts)) ++ exts = body) by (unfold body; solve_app).
  rewrite Hbody. unfold as_u32. rewrite Z.mod_small by lia. by rewrite <- app_assoc.
Qed.

Lemma parse_built : parse_client_hello ([1] ++ be_bytes 3 (zlen body) ++ body) =
  Some {| ch_random := random; ch_session_id := []; ch_suites := [0x13; 0x01];
          ch_compression := [0]; ch_extensions := hello_exts self |}.
Proof.
  pose proof zlen_exts as Hx. pose proof zlen_body as Hb.
  unfold parse_client_hello.
  change (drop 1 ([1] ++ be_bytes 3 (zlen body) ++ body))
    with (be_bytes (Z.to_nat 3) (zlen body) ++ body).
  change (bool_decide (head ([1] ++ be_bytes 3 (zlen body) ++ body) = Some 1)) with true.
  cbn [negb]. rewrite take_vec_end by (simpl; lia).
  rewrite option_bind_Some; cbv beta iota zeta. rewrite zlen_nil. pass_guards.
  assert (H33 : sub 0 2 body = [3; 3]) by done. rewrite H33.
  change (bool_decide ([3; 3] = [3; 3])) with true. cbn [negb].
  change 34%nat with (Z.to_nat 34).
  rewrite (drop_at body ([3; 3] ++ random)
    ([0] ++ be_bytes 2 2 ++ [0x13; 0x01] ++ [1; 0] ++ be_bytes 2 (zlen exts)) exts)
    by (unfold body; solve_app || (rewrite zlen_app, Hrandom; done)).
  rewrite <- !app_assoc.
  set (r3 := be_bytes 2 (zlen exts) ++ exts).
  rewrite (take_vec_ok 1 [] ([0; 2] ++ [0x13; 0x01] ++ [1; 0] ++ r3) ltac:(lia) eq_refl
    : take_vec 1 ([0] ++ be_bytes 2 2 ++ [0x13; 0x01] ++ [1; 0] ++ r3) = _).
  rewrite option_bind_Some; cbv beta iota zeta.
  rewrite (take_vec_ok 2 [0x13; 0x01] ([1; 0] ++ r3) ltac:(lia) eq_refl
    : take_vec 2 ([0; 2] ++ [0x13; 0x01] ++ [1; 0] ++ r3) = _).
  rewrite option_bind_Some; cbv beta iota zeta.
  rewrite (take_vec_ok 1 [0] r3 ltac:(lia) eq_refl : take_vec 1 ([1; 0] ++ r3) = _).
  rewrite option_bind_Some; cbv beta iota zeta. unfold r3.
  change (be_bytes 2 (zlen exts)) with (be_bytes (Z.to_nat 2) (zlen exts)).
  rewrite take_vec_end by (simpl; lia). rewrite option_bind_Some; cbv beta iota zeta.
  rewrite zlen_nil. cbn [Z.eqb negb].
  rewrite (parse_extensions_ok (hello_exts self)).
  - rewrite option_bind_Some. do 2 f_equal. by apply (sub_at body [3; 3] random ([0] ++ be_bytes 2 2 ++ [0x13; 0x01] ++ [1; 0] ++ be_bytes 2 (zlen exts) ++ exts)).
  - apply hello_exts_ok.
  - unfold hello_exts, zlen in *. cbn [length]. lia.
Qed.
End Hello.

(** What the six bodies say. *)
Definition hello_says (self : ClientHelloOmittingQuicTp) (exts : list (Z * bytes)) : Prop :=
  ∃ sni versions groups schemes shares protocols,
    exts = [(ext.SERVER_NAME, sni); (ext.SUPPORTED_VERSIONS, versions);
            (ext.SUPPORTED_GROUPS, groups); (ext.SIGNATURE_ALGORITHMS, schemes);
            (ext.KEY_SHARE, shares); (ext.APPLICATION_LAYER_PROTO_NEG, protocols)] ∧
    sni_name sni = Some (server_name self) ∧
    u16_vec 1 versions = Some [0x0304] ∧
    u16_vec 2 groups = Some [0x001d] ∧
    u16_vec 2 schemes = Some [0x0403; 0x0804; 0x0805; 0x0806; 0x0401] ∧
    key_shares shares = Some [(0x001d, replicate 32 0)] ∧
    alpn_name protocols = Some (alpn self).

(** C31: for every host name and protocol of usable length the builder returns
    a message whose every length field agrees with the layout of RFC 8446. A
    decoder finds the given random bytes, the empty session identifier, the one
    cipher suite, the null compression method and the six extensions in order;
    and the body of each reads back under its own layout, with nothing behind
    it: the host name, TLS 1.3 as the only version, x25519 as the only group,
    the five signature schemes, one key share of 32 zero bytes for x25519, and
    the protocol. The [quic_transport_parameters] extension is not among them.
    An empty host name or protocol is an error instead. *)
Theorem client_hello_decodes self random :
  zlen random = 32 → zlen (server_name self) ≤ 60000 → zlen (alpn self) ≤ 255 →
  (server_name self = [] → build self random = inl "server_name must be non-empty"%string) ∧
  (server_name self ≠ [] → alpn self = [] → build self random = inl "alpn must be non-empty"%string) ∧
  (server_name self ≠ [] → alpn self ≠ [] → ∃ msg exts,
    build self random = inr msg ∧
    parse_client_hello msg = Some {| ch_random := random; ch_session_id := [];
      ch_suites := [0x13; 0x01]; ch_compression := [0]; ch_extensions := exts |} ∧
    hello_says self exts ∧ ext.QUIC_TRANSPORT_PARAMETERS ∉ fst <$> exts).
Proof.
  intros Hr Hn Ha. split_and!.
  - intros E. unfold build. by rewrite E.
  - intros Hne E. unfold build. rewrite E. destruct (server_name self) as [|c n]; [done|].
    rewrite zlen_cons. pose proof (zlen_nonneg n). by pass_guards.
  - intros Hne Hae. assert (1 ≤ zlen (server_name self) ∧ 1 ≤ zlen (alpn self)) as [H1 H2].
    { destruct (server_name self) as [|c n]; [done|]. destruct (alpn self) as [|c' a]; [done|].
      rewrite !zlen_cons. pose proof (zlen_nonneg n). pose proof (zlen_nonneg a). lia. }
    eexists _, (hello_exts self).
    split_and!; [apply build_eq; lia|apply parse_built; lia| |by_decision].
    eexists _, _, _, _, _, _. split; [reflexivity|].
    split_and!; [apply sni_readable; lia|by_eval..|apply alpn_readable; lia].
Qed.

Lemma client_hello_decodes_witness :
  ∃ msg exts, build default_hello (replicate 32 7) = inr msg ∧
    parse_client_hello msg = Some {| ch_random := replicate 32 7; ch_session_id := [];
      ch_suites := [0x13; 0x01]; ch_compression := [0]; ch_extensions := exts |} ∧
    hello_says default_hello exts ∧ ext.QUIC_TRANSPORT_PARAMETERS ∉ fst <$> exts.
Proof.
  destruct (client_hello_decodes default_hello (replicate 32 7)) as (_ & _ & H).
  - done.
  - done.
  - done.
  - by apply H.
Defined.
End RawClientHello.
