(* ===== verification/Drivers.v ===== *)
(** * The handshake drivers of the conformance harness

    Models the drivers of [src/conformance/tls-conformance/src/lib.rs]. A
    driver is a program over [harness]: the shim's state, the TLS connection,
    the packet builder, the keys and packet numbers it has collected, and the
    outside world. The outside is a script: datagrams and receive errors in the
    order they come, readings of the clock, results of the socket calls; what
    was sent is logged with the name its call site gives it in errors. When the
    script of readings ends, every deadline has passed; when that of datagrams
    ends, receiving times out. *)

From S2P Require Import Prelude Effects Rustls Utf8 Varint QuicPacket FrameScan RustlsPackets.
Import Effects Rustls Utf8 Varint QuicPacket FrameScan RustlsPackets.

Module Drivers.

(** ** The environment *)

(** [str::parse] for unsigned integers up to [max]. *)
Fixpoint digits_value (max acc : Z) (s : bytes) : option Z :=
  match s with
  | [] => Some acc
  | c :: s =>
      if (48 <=? c) && (c <=? 57) then
        let acc := acc * 10 + (c - 48) in
        if max <? acc then None else digits_value max acc s
      else None
  end.

Definition parse_unsigned (max : Z) (s : string) : option Z :=
  match string_bytes s with
  | [] => None
  | [43] => None
  | 43 :: s => digits_value max 0 s
  | s => digits_value max 0 s
  end.

(** [std::env::var(name).ok()]. *)
Definition environment : Type := string → option string.

Definition server_port (env : environment) : Z :=
  default 4433 (s ← env "TLS_SERVER_PORT"; parse_unsigned (2 ^ 16 - 1) s).

(** The [Display] of [server_addr()]. *)
Definition server_addr (env : environment) : string := "127.0.0.1:" +:+ pretty (server_port env).

Definition parse_env_or (env : environment) (name : string) (dflt : Z) : Z :=
  default dflt (s ← env name; parse_unsigned (2 ^ 64 - 1) s).

(** What [recv_from] gives: data, or an error, which is a timeout when its kind
    is [WouldBlock] or [TimedOut], with its [Display]. *)
Inductive recv_event :=
  | Datagram (data : bytes)
  | RecvError (timeout : bool) (display : string).

Definition read_timed_out : recv_event :=
  RecvError true "Resource temporarily unavailable (os error 11)".

Record io := {
  io_inbox : list recv_event;
  io_clock : list Z;
  io_results : list (option string);
  io_log : list (string * bytes);
}.

Inductive InjectionEpoch := EpochHandshake | EpochOneRtt.

Record Injection := { epoch : InjectionEpoch; inj_bytes : bytes }.

Section Drivers.
Context {R : Rustls} {S : Type} `{KeysApi S} (env : environment).

(** [rustls::quic::Keys]: local and remote. *)
Definition quic_keys : Type := dir_keys * dir_keys.

Record harness := {
  h_shim : S;
  h_conn : qclient;
  h_builder : PacketBuilder;
  h_handshake_keys : option quic_keys;
  h_one_rtt_keys : option quic_keys;
  h_hs_send_pn : Z;
  h_one_rtt_send_pn : Z;
  h_injected : bool;
  h_io : io;
}.

Definition set_shim s (h : harness) : harness :=
  {| h_shim := s; h_conn := h_conn h; h_builder := h_builder h;
     h_handshake_keys := h_handshake_keys h; h_one_rtt_keys := h_one_rtt_keys h;
     h_hs_send_pn := h_hs_send_pn h; h_one_rtt_send_pn := h_one_rtt_send_pn h;
     h_injected := h_injected h; h_io := h_io h |}.
Definition set_conn c (h : harness) : harness :=
  {| h_shim := h_shim h; h_conn := c; h_builder := h_builder h;
     h_handshake_keys := h_handshake_keys h; h_one_rtt_keys := h_one_rtt_keys h;
     h_hs_send_pn := h_hs_send_pn h; h_one_rtt_send_pn := h_one_rtt_send_pn h;
     h_injected := h_injected h; h_io := h_io h |}.
Definition set_builder b (h : harness) : harness :=
  {| h_shim := h_shim h; h_conn := h_conn h; h_builder := b;
     h_handshake_keys := h_handshake_keys h; h_one_rtt_keys := h_one_rtt_keys h;
     h_hs_send_pn := h_hs_send_pn h; h_one_rtt_send_pn := h_one_rtt_send_pn h;
     h_injected := h_injected h; h_io := h_io h |}.
Definition set_handshake_keys k (h : harness) : harness :=
  {| h_shim := h_shim h; h_conn := h_conn h; h_builder := h_builder h;
     h_handshake_keys := Some k; h_one_rtt_keys := h_one_rtt_keys h;
     h_hs_send_pn := h_hs_send_pn h; h_one_rtt_send_pn := h_one_rtt_send_pn h;
     h_injected := h_injected h; h_io := h_io h |}.
Definition set_one_rtt_keys k (h : harness) : harness :=
  {| h_shim := h_shim h; h_conn := h_conn h; h_builder := h_builder h;
     h_handshake_keys := h_handshake_keys h; h_one_rtt_keys := Some k;
     h_hs_send_pn := h_hs_send_pn h; h_one_rtt_send_pn := h_one_rtt_send_pn h;
     h_injected := h_injected h; h_io := h_io h |}.
Definition bump_hs_pn (h : harness) : harness :=
  {| h_shim := h_shim h; h_conn := h_conn h; h_builder := h_builder h;
     h_handshake_keys := h_handshake_keys h; h_one_rtt_keys := h_one_rtt_keys h;
     h_hs_send_pn := as_u64 (h_hs_send_pn h + 1); h_one_rtt_send_pn := h_one_rtt_send_pn h;
     h_injected := h_injected h; h_io := h_io h |}.
Definition bump_one_rtt_pn (h : harness) : harness :=
  {| h_shim := h_shim h; h_conn := h_conn h; h_builder := h_builder h;
     h_handshake_keys := h_handshake_keys h; h_one_rtt_keys := h_one_rtt_keys h;
     h_hs_send_pn := h_hs_send_pn h; h_one_rtt_send_pn := as_u64 (h_one_rtt_send_pn h + 1);
     h_injected := h_injected h; h_io := h_io h |}.
Definition set_injected (h : harness) : harness :=
  {| h_shim := h_shim h; h_conn := h_conn h; h_builder := h_builder h;
     h_handshake_keys := h_handshake_keys h; h_one_rtt_keys := h_one_rtt_keys h;
     h_hs_send_pn := h_hs_send_pn h; h_one_rtt_send_pn := h_one_rtt_send_pn h;
     h_injected := true; h_io := h_io h |}.
Definition set_io i (h : harness) : harness :=
  {| h_shim := h_shim h; h_conn := h_conn h; h_builder := h_builder h;
     h_handshake_keys := h_handshake_keys h; h_one_rtt_keys := h_one_rtt_keys h;
     h_hs_send_pn := h_hs_send_pn h; h_one_rtt_send_pn := h_one_rtt_send_pn h;
     h_injected := h_injected h; h_io := i |}.

(** Programs of a part of the state. *)
Definition lift {X A B} (get : X → B) (set : B → X → X) (c : prog B A) : prog X A := λ x,
  match c (get x) with
  | Ret a b => Ret a (set b x)
  | Panic m => Panic m
  | Undef => Undef
  | NoFuel => NoFuel
  end.

Definition on_shim {A} (c : prog S A) : prog harness A := lift h_shim set_shim c.
Definition on_conn {A} (c : prog qclient A) : prog harness A := lift h_conn set_conn c.
Definition on_io {A} (c : prog io A) : prog harness A := lift h_io set_io c.

(** ** Socket and clock *)

(** The result of the next fallible socket call. *)
Definition os_result : prog io (option string) := λ i,
  Ret (default None (head (io_results i)))
    {| io_inbox := io_inbox i; io_clock := io_clock i; io_results := tail (io_results i);
       io_log := io_log i |}.

Definition os_call (what : string) : prog io (string + unit) :=
  r ← os_result;
  match r with Some e => err (what +:+ ": " +:+ e) | None => ok tt end.

(** [socket.send_to(&pkt, server).map_err(|e| format!("{what}: {e}"))?] *)
Definition send_to (what : string) (pkt : bytes) : prog io (string + unit) :=
  _ ←? os_call what;
  modify (λ i, {| io_inbox := io_inbox i; io_clock := io_clock i; io_results := io_results i;
                  io_log := io_log i ++ [(what, pkt)] |});;
  ok tt.

(** [recv_from] into a buffer of [cap] bytes: a longer datagram is cut. *)
Definition recv_from (cap : nat) : prog io recv_event := λ i,
  let rest := {| io_inbox := tail (io_inbox i); io_clock := io_clock i;
                 io_results := io_results i; io_log := io_log i |} in
  match head (io_inbox i) with
  | None => Ret read_timed_out rest
  | Some (Datagram d) => Ret (Datagram (take cap d)) rest
  | Some e => Ret e rest
  end.

(** [Instant::now()]; [None] is a time after every deadline. *)
Definition now : prog io (option Z) := λ i,
  Ret (head (io_clock i))
    {| io_inbox := io_inbox i; io_clock := tail (io_clock i); io_results := io_results i;
       io_log := io_log i |}.

Definition past (t deadline : option Z) : bool :=
  match t, deadline with
  | None, _ => true
  | Some t, Some d => d <=? t
  | Some _, None => false
  end.

Definition deadline_in (ms : Z) : prog io (option Z) :=
  t ← now; mret ((λ t, t + ms) <$> t).

(** ** Pumping the TLS connection *)

Definition conn_write : prog qclient (bytes * option (KeyChange hkey pkey secrets)) := λ c,
  let '(c', out, kc) := qclient_write_hs c in Ret (out, kc) c'.

Definition is_nil {A} (l : list A) : bool := match l with [] => true | _ => false end.

Definition store_keys (kc : option (KeyChange hkey pkey secrets)) : prog harness unit :=
  match kc with
  | Some (Handshake l r) => modify (set_handshake_keys (l, r))
  | Some (OneRtt l r _) => modify (set_one_rtt_keys (l, r))
  | None => mret tt
  end.

(** [builder.encode_initial(&out, keys)] and the send. *)
Definition send_initial (what : string) (out : bytes) (keys : Z) : prog harness (string + unit) :=
  b ← gets h_builder;
  '(pkt, b') ← on_shim (encode_initial b out keys);
  modify (set_builder b');;
  on_io (send_to what pkt).

(** A Handshake packet with the next packet number, and the send. *)
Definition send_handshake (what : string) (dcid scid out : bytes) (hs : quic_keys)
  : prog harness (string + unit) :=
  pn ← gets h_hs_send_pn;
  pkt ←? build_handshake_packet dcid scid pn out hs.1;
  _ ←? on_io (send_to what pkt);
  modify bump_hs_pn;;
  ok tt.

Fixpoint pump_rustls_write_hs (fuel : nat) (dcid scid : bytes) (keys : Z)
  : prog harness (string + unit) :=
  match fuel with
  | O => no_fuel
  | Datatypes.S fuel =>
      '(out, kc) ← on_conn conn_write;
      if is_nil out && negb (is_some kc) then ok tt
      else
        hk ← gets h_handshake_keys;
        ork ← gets h_one_rtt_keys;
        _ ←? (if is_nil out then ok tt
              else match hk with
                   | None => send_initial "send Initial (pump)" out keys
                   | Some hs => if is_some ork then ok tt
                                else send_handshake "send Handshake" dcid scid out hs
                   end);
        store_keys kc;;
        pump_rustls_write_hs fuel dcid scid keys
  end.

Fixpoint pump_rustls_write_hs_discarding_finished (fuel : nat) (keys : Z)
  : prog harness (string + unit) :=
  match fuel with
  | O => no_fuel
  | Datatypes.S fuel =>
      '(out, kc) ← on_conn conn_write;
      if is_nil out && negb (is_some kc) then ok tt
      else
        hk ← gets h_handshake_keys;
        _ ←? (if negb (is_nil out) && negb (is_some hk)
              then send_initial "send Initial (pump-discarding)" out keys
              else ok tt);
        store_keys kc;;
        pump_rustls_write_hs_discarding_finished fuel keys
  end.

(** ** Walking a datagram *)

Definition first_is_long (rest : bytes) : bool :=
  negb (Z.land (default 0 (head rest)) 0x80 =? 0).

(** During the handshake: coalesced packets are opened one by one, fed to the
    connection and searched for a CONNECTION_CLOSE ([Some] ends the driver).
    [pump] is the pump of the driver, run before the first Handshake packet. *)
Fixpoint handshake_walk (fuel : nat) (pump : prog harness (string + unit)) (keys : Z)
    (datagram : bytes) (offset : Z) : prog harness (string + option ConnectionClose) :=
  let rest := drop (Z.to_nat offset) datagram in
  match rest, fuel with
  | [], _ => ok None
  | _, O => no_fuel
  | _, Datatypes.S fuel =>
      if negb (first_is_long rest) then ok None
      else
        match parse_long_header rest with
        | None => err "malformed long header"
        | Some header =>
            let pkt_len := payload_offset header + lh_length header in
            if zlen rest <? pkt_len then
              err ("coalesced packet truncated: need " +:+ pretty pkt_len +:+ " bytes, have "
                     +:+ pretty (zlen rest))
            else
              let pkt := sub 0 pkt_len rest in
              let scan plaintext :=
                cc ←? on_conn (scan_plaintext_into_rustls plaintext);
                match cc with
                | Some cc => ok (Some cc)
                | None => handshake_walk fuel pump keys datagram (offset + pkt_len)
                end in
              if packet_type header =? 0 then
                plaintext ←? on_shim (decrypt_initial_inplace pkt header keys);
                scan plaintext
              else if packet_type header =? 2 then
                hk ← gets h_handshake_keys;
                _ ←? (if is_some hk then ok tt else pump);
                hk ← gets h_handshake_keys;
                match hk with
                | None => err "server sent Handshake before we received KeyChange::Handshake"
                | Some k =>
                    plaintext ←? decrypt_long_with_rustls pkt header k.2;
                    scan plaintext
                end
              else handshake_walk fuel pump keys datagram (offset + pkt_len)
        end
  end.

(** After it: packets that do not open are passed over, and a short header
    ends the datagram. *)
Fixpoint drain_walk (fuel : nat) (malformed : string) (keys scid_len : Z) (datagram : bytes)
    (offset : Z) : prog harness (string + option ConnectionClose) :=
  let rest := drop (Z.to_nat offset) datagram in
  match rest, fuel with
  | [], _ => ok None
  | _, O => no_fuel
  | _, Datatypes.S fuel =>
      if negb (first_is_long rest) then
        ork ← gets h_one_rtt_keys;
        match ork with
        | None => ok None
        | Some k =>
            r ← decrypt_short_with_rustls rest scid_len k.2;
            match r with
            | inl _ => ok None
            | inr plaintext => on_conn (scan_plaintext_into_rustls plaintext)
            end
        end
      else
        match parse_long_header rest with
        | None => err malformed
        | Some header =>
            let pkt_len := payload_offset header + lh_length header in
            if zlen rest <? pkt_len then ok None
            else
              let pkt := sub 0 pkt_len rest in
              let next := drain_walk fuel malformed keys scid_len datagram (offset + pkt_len) in
              if (packet_type header =? 0) || (packet_type header =? 2) then
                hk ← gets h_handshake_keys;
                r ← (if packet_type header =? 0
                     then on_shim (decrypt_initial_inplace pkt header keys)
                     else match hk with
                          | Some k => decrypt_long_with_rustls pkt header k.2
                          | None => err "late Handshake but no handshake keys"
                          end);
                match r with
                | inl _ => next
                | inr plaintext =>
                    cc ←? on_conn (scan_plaintext_into_rustls plaintext);
                    match cc with Some cc => ok (Some cc) | None => next end
                end
              else next
        end
  end.

(** ** The drain after the handshake *)

Fixpoint drain_loop (fuel : nat) (malformed : string) (keys scid_len : Z) (deadline : option Z)
  : prog harness (string + option ConnectionClose) :=
  match fuel with
  | O => no_fuel
  | Datatypes.S fuel =>
      t ← on_io now;
      if past t deadline then ok None
      else
        ev ← on_io (recv_from 4096);
        match ev with
        | RecvError true _ => drain_loop fuel malformed keys scid_len deadline
        | RecvError false _ => ok None
        | Datagram d =>
            cc ←? drain_walk (length d) malformed keys scid_len d 0;
            match cc with
            | Some cc => ok (Some cc)
            | None => drain_loop fuel malformed keys scid_len deadline
            end
        end
  end.

Definition drain (malformed : string) (keys scid_len : Z)
  : prog harness (string + option ConnectionClose) :=
  deadline ← on_io (deadline_in (parse_env_or env "TLS_ONERTT_DRAIN_MS" 250));
  _ ← on_io os_result;
  clock ← gets (λ h, io_clock (h_io h));
  drain_loop (Datatypes.S (length clock)) malformed keys scid_len deadline.

(** ** The full handshake *)

(** One iteration per reading of the clock. *)
Fixpoint full_loop (fuel pump_fuel : nat) (dcid scid : bytes) (keys : Z) (deadline : option Z)
  : prog harness (string + option ConnectionClose) :=
  match fuel with
  | O => no_fuel
  | Datatypes.S fuel =>
      t ← on_io now;
      if past t deadline then ok None
      else
        handshaking ← gets (λ h, qclient_is_handshaking (h_conn h));
        if negb handshaking then ok None
        else
          ev ← on_io (recv_from 4096);
          match ev with
          | RecvError true _ => ok None
          | RecvError false e => err ("recv_from: " +:+ e)
          | Datagram d =>
              let pump := pump_rustls_write_hs pump_fuel dcid scid keys in
              cc ←? handshake_walk (length d) pump keys d 0;
              match cc with
              | Some cc => ok (Some cc)
              | None => _ ←? pump; full_loop fuel pump_fuel dcid scid keys deadline
              end
          end
  end.

(** The ClientHello, sent in the first Initial packet. *)
Definition first_flight (what : string) (keys : Z) : prog harness (string + unit) :=
  '(crypto_buf, kc) ← on_conn conn_write;
  if is_nil crypto_buf then err "rustls produced no ClientHello bytes"
  else if is_some kc then err "unexpected KeyChange before sending ClientHello"
  else send_initial what crypto_buf keys.

(** Socket set-up: bind and the read timeout. *)
Definition open_socket : prog io (string + unit) :=
  _ ←? os_call "bind UDP";
  os_call "set_read_timeout".

Definition timeout_ms : Z := parse_env_or env "TLS_HANDSHAKE_TIMEOUT_MS" 500.

(** [initial_keys(Role::Client, &dcid)?]; the handle is freed when the driver
    returns, with whatever result. *)
Definition with_client_keys {X A} (shim : ∀ B, prog S B → prog X B) (dcid : bytes)
    (body : Z → prog X (string + A)) : prog X (string + A) :=
  r ← shim _ (initial_keys Client dcid);
  match r with
  | inl code => err ("client initial_keys failed: rc=" +:+ pretty code)
  | inr keys => a ← body keys; shim _ (keys_drop keys);; mret a
  end.

Definition full_body (pump_fuel : nat) : prog harness (string + option ConnectionClose) :=
  dcid ← gets (λ h, dcid (h_builder h));
  scid ← gets (λ h, scid (h_builder h));
  with_client_keys (@on_shim) dcid (λ keys,
    _ ←? on_io open_socket;
    _ ←? first_flight "send Initial" keys;
    deadline ← on_io (deadline_in (as_u64 (timeout_ms * 4)));
    clock ← gets (λ h, io_clock (h_io h));
    cc ←? full_loop (Datatypes.S (length clock)) pump_fuel dcid scid keys deadline;
    match cc with
    | Some cc => ok (Some cc)
    | None => drain "malformed long header in 1-RTT drain" keys (zlen scid)
    end).

(** ** Injection *)

Definition inject_now (inj : Injection) (dcid scid : bytes) : prog harness (string + unit) :=
  match epoch inj with
  | EpochHandshake =>
      hk ← gets h_handshake_keys;
      match hk with
      | None => err "Handshake injection requested before Handshake keys materialised"
      | Some hs => send_handshake "send Handshake injection" dcid scid (inj_bytes inj) hs
      end
  | EpochOneRtt =>
      ork ← gets h_one_rtt_keys;
      match ork with
      | None => err "1-RTT injection requested before 1-RTT keys materialised"
      | Some k =>
          frame ← encode_crypto_frame 0 (inj_bytes inj);
          pn ← gets h_one_rtt_send_pn;
          pkt ←? build_short_header_crypto_packet dcid pn frame k.1;
          _ ←? on_io (send_to "send 1-RTT injection" pkt);
          modify bump_one_rtt_pn;;
          ok tt
      end
  end.

Definition pump_for (pump_fuel : nat) (inj : Injection) (dcid scid : bytes) (keys : Z)
  : prog harness (string + unit) :=
  match epoch inj with
  | EpochHandshake => pump_rustls_write_hs_discarding_finished pump_fuel keys
  | EpochOneRtt => pump_rustls_write_hs pump_fuel dcid scid keys
  end.

Definition inject_once (inj : Injection) (dcid scid : bytes) : prog harness (string + unit) :=
  _ ←? inject_now inj dcid scid;
  modify set_injected;;
  ok tt.

(** One iteration per reading of the clock. *)
Fixpoint injection_loop (fuel pump_fuel : nat) (inj : Injection) (dcid scid : bytes) (keys : Z)
    (deadline : option Z) : prog harness (string + option ConnectionClose) :=
  match fuel with
  | O => no_fuel
  | Datatypes.S fuel =>
      let continue := injection_loop fuel pump_fuel inj dcid scid keys deadline in
      t ← on_io now;
      if past t deadline then ok None
      else
        handshaking ← gets (λ h, qclient_is_handshaking (h_conn h));
        injected ← gets h_injected;
        if negb handshaking && injected then ok None
        else
          ev ← on_io (recv_from 4096);
          match ev with
          | RecvError true _ =>
              hk ← gets h_handshake_keys;
              if negb injected && is_some hk then _ ←? inject_once inj dcid scid; continue
              else continue
          | RecvError false e => err ("recv_from: " +:+ e)
          | Datagram d =>
              let pump := pump_for pump_fuel inj dcid scid keys in
              cc ←? handshake_walk (length d) pump keys d 0;
              match cc with
              | Some cc => ok (Some cc)
              | None =>
                  _ ←? pump;
                  hk ← gets h_handshake_keys;
                  ork ← gets h_one_rtt_keys;
                  let ready := match epoch inj with
                               | EpochHandshake => is_some hk
                               | EpochOneRtt => is_some ork
                               end in
                  if negb injected && ready then _ ←? inject_once inj dcid scid; continue
                  else continue
              end
          end
  end.

(** The driver drains with a copy of the loops above; the message tells it. *)
Definition injection_drain (keys scid_len : Z) : prog harness (string + option ConnectionClose) :=
  drain "malformed long header in drain" keys scid_len.

Definition injection_body (pump_fuel : nat) (inj : Injection)
  : prog harness (string + option ConnectionClose) :=
  dcid ← gets (λ h, dcid (h_builder h));
  scid ← gets (λ h, scid (h_builder h));
  with_client_keys (@on_shim) dcid (λ keys,
    _ ←? on_io open_socket;
    _ ←? first_flight "send Initial" keys;
    deadline ← on_io (deadline_in (as_u64 (timeout_ms * 4)));
    clock ← gets (λ h, io_clock (h_io h));
    cc ←? injection_loop (Datatypes.S (length clock)) pump_fuel inj dcid scid keys deadline;
    match cc with
    | Some cc => ok (Some cc)
    | None => injection_drain keys (zlen scid)
    end).

(** ** One exchange *)

(** The single reply of the Initial drivers. *)
Definition one_reply (cap : nat) : prog io (string + bytes) :=
  ev ← recv_from cap;
  match ev with
  | Datagram d => ok d
  | RecvError _ e => err ("recv_from timed out or failed: " +:+ e)
  end.

Definition initial_body : prog harness (string + option ConnectionClose) :=
  '(crypto_buf, kc) ← on_conn conn_write;
  if is_nil crypto_buf then err "rustls produced no ClientHello bytes"
  else if is_some kc then err "unexpected KeyChange before sending ClientHello"
  else
    dcid ← gets (λ h, dcid (h_builder h));
    with_client_keys (@on_shim) dcid (λ keys,
      b ← gets h_builder;
      '(pkt, b') ← on_shim (encode_initial b crypto_buf keys);
      modify (set_builder b');;
      _ ←? on_io open_socket;
      _ ←? on_io (send_to ("send_to " +:+ server_addr env) pkt);
      reply ←? on_io (one_reply 2048);
      match parse_long_header reply with
      | None => err "server reply did not parse as a long-header packet"
      | Some header =>
          if negb (packet_type header =? 0) then
            err ("expected server Initial (packet_type=0), got " +:+ pretty (packet_type header))
          else
            plaintext ←? on_shim (decrypt_reply "" reply header keys);
            on_shim (scan_first_reply plaintext)
      end).

(** The drivers' callers see the shim and the outside; the rest is local. *)
Definition process : Type := S * io.

Definition p_shim {A} (c : prog S A) : prog process A := lift fst (λ s p, (s, p.2)) c.
Definition p_io {A} (c : prog io A) : prog process A := lift snd (λ i p, (p.1, i)) c.

(** The reply to a raw ClientHello: Initial packets of the burst are opened
    and searched, others passed over. *)
Fixpoint raw_walk (fuel : nat) (keys : Z) (reply : bytes) (offset : Z)
  : prog process (string + option ConnectionClose) :=
  let rest := drop (Z.to_nat offset) reply in
  match rest, fuel with
  | [], _ => ok None
  | _, O => no_fuel
  | _, Datatypes.S fuel =>
      if negb (first_is_long rest) then ok None
      else
        match parse_long_header rest with
        | None => err "server reply did not parse as a long-header packet"
        | Some header =>
            let pkt_len := payload_offset header + lh_length header in
            if zlen rest <? pkt_len then
              err ("coalesced packet truncated: need " +:+ pretty pkt_len +:+ " bytes, have "
                     +:+ pretty (zlen rest))
            else if negb (packet_type header =? 0) then raw_walk fuel keys reply (offset + pkt_len)
            else
              plaintext ←? p_shim (decrypt_initial_inplace (sub 0 pkt_len rest) header keys);
              cc ←? p_shim (scan_initial_plaintext_for_cc plaintext);
              match cc with
              | Some cc => ok (Some cc)
              | None => raw_walk fuel keys reply (offset + pkt_len)
              end
        end
  end.

Definition drive_handshake_with_raw_clienthello (builder : PacketBuilder) (ch_bytes : bytes)
  : prog process (string + option ConnectionClose) :=
  if is_nil ch_bytes then err "ch_bytes must be non-empty"
  else
    with_client_keys (@p_shim) (dcid builder) (λ keys,
      '(pkt, _) ← p_shim (encode_initial builder ch_bytes keys);
      _ ←? p_io open_socket;
      _ ←? p_io (send_to ("send_to " +:+ server_addr env) pkt);
      reply ←? p_io (one_reply 4096);
      raw_walk (length reply) keys reply 0).

(** ** Entry points *)

(** The verifier of the harness: any certificate chain is accepted, signatures
    are checked by the provider. *)
Definition AcceptAnyServerCert (provider : crypto_provider)
  : ServerCertVerifier cert server_name digitally_signed signature_scheme error :=
  let algorithms := signature_verification_algorithms provider in
  {| verify_server_cert := λ _end_entity _intermediates _server_name _ocsp_response _now, inr tt;
     verify_tls12_signature := λ message cert dss, crypto_verify_tls12_signature message cert dss algorithms;
     verify_tls13_signature := λ message cert dss, crypto_verify_tls13_signature message cert dss algorithms;
     supported_verify_schemes := supported_schemes algorithms |}.

Definition build_quic_client_config_with_alpn (alpn : list bytes) : client_config :=
  let provider := ring_provider in
  let verifier := AcceptAnyServerCert provider in
  client_config_set_alpn (client_config_build_dangerous true provider verifier) alpn.

Definition h3 : list bytes := [string_bytes "h3"].

(** [ServerName::try_from("localhost")?] and [ClientConnection::new(..)?]. *)
Definition new_connection (config : client_config) (tp_bytes : bytes) : string + qclient :=
  match server_name_try_from (string_bytes "localhost") with
  | None => inl ("invalid server name: " +:+ name_error_display)
  | Some name =>
      match qclient_new config V1 name tp_bytes with
      | inl e => inl ("ClientConnection::new failed: " +:+ error_display e)
      | inr conn => inr conn
      end
  end.

Definition start (p : process) (conn : qclient) (builder : PacketBuilder) : harness :=
  {| h_shim := p.1; h_conn := conn; h_builder := builder; h_handshake_keys := None;
     h_one_rtt_keys := None; h_hs_send_pn := 0; h_one_rtt_send_pn := 0; h_injected := false;
     h_io := p.2 |}.

(** A connection's driver run to its end. *)
Definition with_connection {A} (builder : PacketBuilder) (tp_bytes : bytes)
    (config : client_config) (body : prog harness (string + A)) : prog process (string + A) := λ p,
  match new_connection config tp_bytes with
  | inl m => Ret (inl m) p
  | inr conn =>
      match body (start p conn builder) with
      | Ret a h => Ret a (h_shim h, h_io h)
      | Panic m => Panic m
      | Undef => Undef
      | NoFuel => NoFuel
      end
  end.

Definition drive_handshake_initial_inner (builder : PacketBuilder) (tp_bytes : bytes)
    (config : client_config) : prog process (string + option ConnectionClose) :=
  with_connection builder tp_bytes config initial_body.

Definition drive_handshake_initial (builder : PacketBuilder) (tp_bytes : bytes)
  : prog process (string + option ConnectionClose) :=
  drive_handshake_initial_inner builder tp_bytes (build_quic_client_config_with_alpn h3).

Definition drive_handshake_initial_no_alpn (builder : PacketBuilder) (tp_bytes : bytes)
  : prog process (string + option ConnectionClose) :=
  drive_handshake_initial_inner builder tp_bytes (build_quic_client_config_with_alpn []).

Definition drive_handshake_full_inner (pump_fuel : nat) (builder : PacketBuilder)
    (tp_bytes : bytes) (config : client_config) : prog process (string + option ConnectionClose) :=
  with_connection builder tp_bytes config (full_body pump_fuel).

Definition drive_handshake_full (pump_fuel : nat) (builder : PacketBuilder) (tp_bytes : bytes)
  : prog process (string + option ConnectionClose) :=
  drive_handshake_full_inner pump_fuel builder tp_bytes (build_quic_client_config_with_alpn h3).

Definition drive_handshake_with_injection_inner (pump_fuel : nat) (builder : PacketBuilder)
    (tp_bytes : bytes) (inj : Injection) (config : client_config)
  : prog process (string + option ConnectionClose) :=
  with_connection builder tp_bytes config (injection_body pump_fuel inj).

Definition drive_handshake_with_injection (pump_fuel : nat) (builder : PacketBuilder)
    (tp_bytes : bytes) (inj : Injection) : prog process (string + option ConnectionClose) :=
  if 1100 <? zlen (inj_bytes inj) then
    err ("injection bytes exceed Handshake MTU; got " +:+ pretty (zlen (inj_bytes inj)) +:+ " bytes")
  else
    drive_handshake_with_injection_inner pump_fuel builder tp_bytes inj
      (build_quic_client_config_with_alpn h3).
End Drivers.
End Drivers.
