(* ===== verification/Hoare.v ===== *)
(** * Triples

    A small program logic for [prog]: [hoare F P c Q] says that [c], started in
    a state with [P], ends with a result and a state with [Q] or stops (a panic
    or undefined behaviour); [F] says whether running out of fuel is allowed.
    With [F := True] triples are about what a run that returns has done, with
    [F := False] also about its end. *)

From S2P Require Import Prelude Effects Handles Rustls World FrameScan.
Import Effects Handles Rustls World FrameScan.

Module Hoare.

Definition hoare {S A} (F : Prop) (P : S → Prop) (c : prog S A) (Q : A → S → Prop) : Prop :=
  ∀ s, P s → match c s with Ret a s' => Q a s' | NoFuel => F | _ => True end.

Section Rules.
Context {S : Type} (F : Prop).
Implicit Types P I : S → Prop.

Lemma hoare_ret {A} P (a : A) (Q : A → S → Prop) : (∀ s, P s → Q a s) → hoare F P (mret a) Q.
Proof. intros H s Hs. by apply H. Qed.

Lemma hoare_bind {A B} P (M : A → S → Prop) Q (c : prog S A) (k : A → prog S B) :
  hoare F P c M → (∀ a, hoare F (M a) (k a) Q) → hoare F P (c ≫= k) Q.
Proof.
  intros Hc Hk s Hs. unfold mbind, prog_bind. specialize (Hc s Hs).
  destruct (c s) as [a s'| | |]; try done. by apply Hk.
Qed.

Lemma hoare_gets {A} P (f : S → A) (Q : A → S → Prop) :
  (∀ s, P s → Q (f s) s) → hoare F P (gets f) Q.
Proof. intros H s Hs. by apply H. Qed.

Lemma hoare_modify P (f : S → S) (Q : unit → S → Prop) :
  (∀ s, P s → Q tt (f s)) → hoare F P (modify f) Q.
Proof. intros H s Hs. by apply H. Qed.

Lemma hoare_panic {A} P m (Q : A → S → Prop) : hoare F P (panic m) Q.
Proof. done. Qed.

Lemma hoare_undef {A} P (Q : A → S → Prop) : hoare F P undef Q.
Proof. done. Qed.

Lemma hoare_no_fuel {A} P (Q : A → S → Prop) : F → hoare F P no_fuel Q.
Proof. intros H s _. exact H. Qed.

Lemma hoare_expect {A} P (o : option A) m (Q : A → S → Prop) :
  (∀ a s, P s → Q a s) → hoare F P (expect o m) Q.
Proof. intros H s Hs. destruct o; simpl; [by apply H|done]. Qed.

Lemma hoare_conseq {A} P P' (Q Q' : A → S → Prop) (c : prog S A) :
  hoare F P' c Q' → (∀ s, P s → P' s) → (∀ a s, Q' a s → Q a s) → hoare F P c Q.
Proof.
  intros Hc HP HQ s Hs. specialize (Hc s (HP s Hs)). destruct (c s); try done. by apply HQ.
Qed.

Lemma hoare_conj {A} P P' (Q Q' : A → S → Prop) (c : prog S A) :
  hoare F P c Q → hoare F P' c Q' → hoare F (λ s, P s ∧ P' s) c (λ a s, Q a s ∧ Q' a s).
Proof.
  intros H1 H2 s [Hp Hp']. specialize (H1 s Hp). specialize (H2 s Hp'). by destruct (c s).
Qed.

(** What holds without the state can be assumed. *)
Lemma hoare_pure {A} (X : Prop) P (Q : A → S → Prop) (c : prog S A) :
  (X → hoare F P c Q) → hoare F (λ s, X ∧ P s) c Q.
Proof. intros H s [HX Hs]. by apply H. Qed.

(** Reading the state once more than the precondition shows. *)
Lemma hoare_state {A} P (Q : A → S → Prop) (c : prog S A) :
  (∀ s, P s → hoare F (λ s', s' = s) c Q) → hoare F P c Q.
Proof. intros H s Hs. by apply (H s Hs s). Qed.

(** [?]: an error is the result. *)
Lemma hoare_attempt {E A B} P (M : A → S → Prop) (Q : E + B → S → Prop)
    (c : prog S (E + A)) (k : A → prog S (E + B)) :
  hoare F P c (λ r s, match r with inl m => Q (inl m) s | inr a => M a s end) →
  (∀ a, hoare F (M a) (k a) Q) → hoare F P (attempt c k) Q.
Proof.
  intros Hc Hk. unfold attempt. eapply hoare_bind; [exact Hc|].
  intros [m|a]; [by apply hoare_ret|apply Hk].
Qed.

Lemma hoare_attempt_keep {E A B} P I (c : prog S (E + A)) (k : A → prog S (E + B)) :
  hoare F P c (λ _, I) → (∀ a, hoare F I (k a) (λ _, I)) → hoare F P (attempt c k) (λ _, I).
Proof.
  intros Hc Hk. apply (hoare_attempt _ (λ _, I)); [|done].
  eapply hoare_conseq; [exact Hc|done|]. by intros [?|?].
Qed.

(** A read that the invariant does not follow. *)
Lemma hoare_read {A B} P (f : S → A) (k : A → prog S B) Q :
  (∀ a, hoare F P (k a) Q) → hoare F P (gets f ≫= k) Q.
Proof. intros Hk. apply (hoare_bind _ (λ _, P)); [by apply hoare_gets|done]. Qed.

Lemma hoare_if {A} P (b : bool) (c d : prog S A) Q :
  (b = true → hoare F P c Q) → (b = false → hoare F P d Q) → hoare F P (if b then c else d) Q.
Proof. destruct b; auto. Qed.
End Rules.

(** Nothing can go wrong when fuel may run out and nothing is asked. *)
Lemma hoare_any {S A} (P : S → Prop) (c : prog S A) : hoare True P c (λ _ _, True).
Proof. intros s _. by destruct (c s). Qed.

(** A program that returns keeps what a [hoare] with fuel says. *)
Lemma hoare_run {S A} F (P : S → Prop) (c : prog S A) Q s a s' :
  hoare F P c Q → P s → c s = Ret a s' → Q a s'.
Proof. intros H Hs E. specialize (H s Hs). by rewrite E in H. Qed.

Lemma hoare_ends {S A} (P : S → Prop) (c : prog S A) Q s :
  hoare False P c Q → P s → c s ≠ NoFuel.
Proof. intros H Hs E. specialize (H s Hs). by rewrite E in H. Qed.

(** ** Tables *)

Section Tables.
Context {S T : Type} (tbl : HandleTable S T) (F : Prop) (I : S → Prop).
Hypothesis Hset : ∀ m s, I s → I (set_map tbl m s).

Lemma hoare_with {B} h (f : T → prog S B) :
  (∀ v, hoare F I (f v) (λ _, I)) → hoare F I (with_ tbl h f) (λ _, I).
Proof.
  intros Hf. unfold with_. eapply hoare_bind; [by apply (hoare_gets _ _ _ (λ _, I))|].
  intros [v|]; [|by apply hoare_ret].
  eapply hoare_bind; [apply Hf|]. intros. by apply hoare_ret.
Qed.

Lemma hoare_with_mut {B} h (f : T → prog S (T * B)) :
  (∀ v, hoare F I (f v) (λ _, I)) → hoare F I (with_mut tbl h f) (λ _, I).
Proof.
  intros Hf. unfold with_mut. eapply hoare_bind; [by apply (hoare_gets _ _ _ (λ _, I))|].
  intros [v|]; [|by apply hoare_ret].
  eapply hoare_bind; [apply Hf|]. intros [v' b].
  eapply (hoare_bind _ _ (λ _, I)); [apply hoare_modify; auto|]. intros. by apply hoare_ret.
Qed.
End Tables.
End Hoare.
