(* ===== verification/Bench.v ===== *)
(** * The handshake benchmark

    [src/crates/librustls-mojo/benches/handshake.rs]: handshakes between a rustls
    client and server in memory, of which the calls of the server are timed. The
    clock is the list of durations that [Instant::elapsed] measures; the printed
    rows are kept as data. The session store of a configuration lives inside
    rustls, so a configuration that is used again is given by its value at each
    handshake. Floating point is the binary64 of the Standard Library's
    [SpecFloat]. *)

From Stdlib Require Import SpecFloat.
From stdpp Require Import sorting pretty.
From S2P Require Import Prelude Effects Handles Rustls World Frames Toy QuicKeys.
From S2P Require Import QuicHs Loopback Hoare.
Import Effects Handles Rustls World Frames Toy QuicKeys QuicHs Loopback Hoare.

Module Bench.

Definition WARMUP : nat := 200.
Definition ALPN : bytes := string_bytes "h3".
Definition TRANSPORT_PARAMS : bytes := [0x01; 0x04; 0x80; 0x00; 0xea; 0x60].

(** ** Statistics *)

Definition f64_of (z : Z) : spec_float := binary_normalize 53 1024 z 0 false.
Definition f64_mul : spec_float → spec_float → spec_float := SFmul 53 1024.
Definition f64_div : spec_float → spec_float → spec_float := SFdiv 53 1024.

(** [f as usize]: towards zero, saturating. *)
Definition f64_as_usize (f : spec_float) : Z :=
  match f with
  | S754_finite false m e => Z.min (2 ^ 64 - 1) (Z.shiftl (Zpos m) e)
  | S754_infinity false => 2 ^ 64 - 1
  | _ => 0
  end.

(** The literals [0.50] and [0.90]. *)
Definition p50_literal : spec_float := S754_finite false 4503599627370496 (-53).
Definition p90_literal : spec_float := S754_finite false 8106479329266893 (-53).

Record Stats := { st_min : spec_float; st_p50 : spec_float; st_p90 : spec_float; st_mean : spec_float }.

(** The index [((n as f64 * p) as usize).min(n - 1)]. *)
Definition pct_index (n : Z) (p : spec_float) : Z := Z.min (f64_as_usize (f64_mul (f64_of n) p)) (n - 1).

(** [samples[i]] panics out of range. *)
Definition index {S} (l : list Z) (i : Z) : prog S Z :=
  expect (if 0 <=? i then l !! Z.to_nat i else None) "index out of bounds".

Definition stats {S} (samples : list Z) : prog S Stats :=
  let samples := merge_sort Z.le samples in
  let n := zlen samples in
  let pct p := (v ← index samples (pct_index n p); mret (f64_div (f64_of v) (f64_of 1000))) in
  m ← index samples 0;
  p50 ← pct p50_literal;
  p90 ← pct p90_literal;
  mret {| st_min := f64_div (f64_of m) (f64_of 1000); st_p50 := p50; st_p90 := p90;
          st_mean := f64_div (f64_div (f64_of (as_u64 (foldr Z.add 0 samples))) (f64_of n)) (f64_of 1000) |}.

(** ** Configurations *)

Section Bench.
Context {R : Rustls}.

(** [NoCertVerifier] of the benchmark. *)
Definition NoCertVerifier : ServerCertVerifier cert server_name digitally_signed signature_scheme error :=
  let algorithms := signature_verification_algorithms aws_lc_rs_provider in
  {| verify_server_cert := λ _end_entity _intermediates _server_name _ocsp_response _now, inr tt;
     verify_tls12_signature := λ message cert dss, crypto_verify_tls12_signature message cert dss algorithms;
     verify_tls13_signature := λ message cert dss, crypto_verify_tls13_signature message cert dss algorithms;
     supported_verify_schemes := supported_schemes algorithms |}.

(** [r.expect(msg)] *)
Definition expect_ok {S E A} (debug : E → string) (r : E + A) (msg : string) : prog S A :=
  match r with inr a => mret a | inl e => panic (msg +:+ ": " +:+ debug e) end.

(** The files are given by what [std::fs::read] answers for [server.crt] and
    [server.key]. *)
Definition load_cert_key {S} (crt key : io_error + bytes) : prog S (list cert * private_key) :=
  cert_pem ← expect_ok io_error_display crt "read certs/server.crt";
  key_pem ← expect_ok io_error_display key "read certs/server.key";
  certs ← expect_ok io_error_display (pem_certs cert_pem) "parse cert PEM";
  key ← expect_ok io_error_display (pem_private_key key_pem) "parse key PEM";
  key ← expect key "no private key in certs/server.key";
  mret (certs, key).

Definition server_config {S} (crt key : io_error + bytes) (send_tls13_tickets : Z)
  : prog S Rustls.server_config :=
  '(certs, key) ← load_cert_key crt key;
  config ← expect_ok error_debug (server_config_build true certs key) "server config";
  let config := server_config_set_alpn config [ALPN] in
  config ← expect_ok error_debug (server_config_set_ticketer config) "ticketer";
  mret (server_config_set_send_tls13_tickets config send_tls13_tickets).

Definition client_config : Rustls.client_config :=
  client_config_set_alpn (client_config_build_dangerous true aws_lc_rs_provider NoCertVerifier) [ALPN].

(** ** One handshake *)

Record HandshakeSample := {
  server_time : Z;
  post_hs_bytes : Z;
  kind : option HandshakeKind;
}.

(** One encryption level of what is pending, and whether there was any. *)
Definition pull_level {C} (write : C → C * bytes * option (KeyChange hkey pkey secrets)) (conn : C)
  : C * bytes * bool :=
  let '(conn, buf, key_change) := write conn in
  (conn, buf, match key_change with Some _ => true | None => false end || nonempty buf).

(** [t.elapsed()] in nanoseconds, added to [server_time]: an addition beyond the
    largest [Duration] panics. *)
Definition elapsed : prog (list Z) Z := λ clock, Ret (default 0 (head clock)) (tail clock).
Definition add_elapsed (server_time : Z) : prog (list Z) Z :=
  d ← elapsed;
  if server_time + d <? 2 ^ 64 * 10 ^ 9 then mret (server_time + d)
  else panic "overflow when adding durations".

(** [while pull_level(client)]: client to server. *)
Fixpoint client_levels (fuel : nat) (client : qclient) (server : qserver) (server_time : Z)
  : prog (list Z) (qclient * qserver * Z) :=
  match fuel with
  | O => no_fuel
  | Datatypes.S fuel =>
      let '(client, buf, more) := pull_level qclient_write_hs client in
      if more then
        if nonempty buf then
          let '(server, r) := qserver_read_hs server buf in
          expect_ok error_debug r "server read_hs";;
          server_time ← add_elapsed server_time;
          client_levels fuel client server server_time
        else client_levels fuel client server server_time
      else mret (client, server, server_time)
  end.

(** [loop { pull_level(server) }]: server to client. *)
Fixpoint server_levels (fuel : nat) (client : qclient) (server : qserver) (server_time server_emitted : Z)
  : prog (list Z) (qclient * qserver * Z * Z) :=
  match fuel with
  | O => no_fuel
  | Datatypes.S fuel =>
      let '(server, buf, more) := pull_level qserver_write_hs server in
      server_time ← add_elapsed server_time;
      if negb more then mret (client, server, server_time, server_emitted)
      else if nonempty buf then
        let '(client, r) := qclient_read_hs client buf in
        expect_ok error_debug r "client read_hs";;
        server_levels fuel client server server_time (server_emitted + zlen buf)
      else server_levels fuel client server server_time server_emitted
  end.

(** [for _round in 0..n], up to its [break]. *)
Fixpoint rounds (n fuel : nat) (client : qclient) (server : qserver) (server_time post_hs_bytes : Z)
  : prog (list Z) (qclient * qserver * Z * Z) :=
  match n with
  | O => mret (client, server, server_time, post_hs_bytes)
  | Datatypes.S n =>
      '(client, server, server_time) ← client_levels fuel client server server_time;
      let server_done := negb (qserver_is_handshaking server) in
      '(client, server, server_time, server_emitted) ← server_levels fuel client server server_time 0;
      let post_hs_bytes := if server_done then post_hs_bytes + server_emitted else post_hs_bytes in
      if negb (qclient_is_handshaking client) && negb (qserver_is_handshaking server) &&
         (server_emitted =? 0)
      then mret (client, server, server_time, post_hs_bytes)
      else rounds n fuel client server server_time post_hs_bytes
  end.

Definition run_handshake (fuel : nat) (server_cfg : Rustls.server_config) (client_cfg : Rustls.client_config)
  : prog (list Z) HandshakeSample :=
  name ← expect (server_name_try_from (string_bytes "localhost")) "server name";
  client ← expect_ok error_debug (qclient_new client_cfg V1 name TRANSPORT_PARAMS) "client connection";
  server ← expect_ok error_debug (qserver_new server_cfg V1 TRANSPORT_PARAMS) "server connection";
  server_time ← add_elapsed 0;
  '(client, server, server_time, post_hs_bytes) ← rounds 8 fuel client server server_time 0;
  assert_ (negb (qclient_is_handshaking client) && negb (qserver_is_handshaking server))
    "handshake did not complete";;
  assert_ (bool_decide (qserver_alpn_protocol server = Some ALPN)) "ALPN not negotiated";;
  mret {| server_time := server_time; post_hs_bytes := post_hs_bytes;
          kind := qserver_handshake_kind server |}.

(** ** The scenarios *)

Record bench := { b_clock : list Z; b_rows : list (string * Stats * string) }.

(** What runs on the clock alone. *)
Definition on_clock {A} (c : prog (list Z) A) : prog bench A := λ b,
  match c (b_clock b) with
  | Ret a clock => Ret a {| b_clock := clock; b_rows := b_rows b |}
  | Panic m => Panic m
  | Undef => Undef
  | NoFuel => NoFuel
  end.

Definition print_row (name : string) (s : Stats) (note : string) : prog bench unit :=
  modify (λ b, {| b_clock := b_clock b; b_rows := b_rows b ++ [(name, s, note)] |}).

Definition kind_debug (k : HandshakeKind) : string :=
  match k with
  | Full => "Full" | Resumed => "Resumed" | FullWithHelloRetryRequest => "FullWithHelloRetryRequest"
  end.

#[global] Instance HandshakeKind_eq_dec : EqDecision HandshakeKind.
Proof. solve_decision. Defined.

Definition check {S} (name : string) (expect_kind : HandshakeKind) (expect_post_hs : bool)
    (s : HandshakeSample) : prog S unit :=
  assert_ (bool_decide (kind s = Some expect_kind)) (name +:+ ": unexpected handshake kind");;
  assert_ (Bool.eqb (0 <? post_hs_bytes s) expect_post_hs)
    (name +:+ ": post-handshake bytes = " +:+ pretty (post_hs_bytes s)).

Section Scenario.
Context (fuel : nat) (name : string) (server_cfg : nat → Rustls.server_config).
Context (client_cfg : nat → Rustls.client_config) (expect_kind : HandshakeKind) (expect_post_hs : bool).

(** The [i]th handshake of the scenario and its check. *)
Definition checked_handshake (i : nat) : prog (list Z) HandshakeSample :=
  s ← run_handshake fuel (server_cfg i) (client_cfg i);
  check name expect_kind expect_post_hs s;;
  mret s.

(** [for _ in 0..WARMUP] *)
Fixpoint warm_up (n i : nat) : prog (list Z) unit :=
  match n with
  | O => mret tt
  | Datatypes.S n => checked_handshake i;; warm_up n (Datatypes.S i)
  end.

(** [for _ in 0..n] from the [i]th handshake on: the samples pushed and the last
    [post_hs]. *)
Fixpoint collect (n i : nat) (samples : list Z) (post_hs : Z) : prog (list Z) (list Z * Z) :=
  match n with
  | O => mret (samples, post_hs)
  | Datatypes.S n =>
      s ← checked_handshake i;
      collect n (Datatypes.S i) (samples ++ [as_u64 (server_time s)]) (post_hs_bytes s)
  end.

Definition bench_handshakes (iters : nat) : prog bench unit :=
  on_clock (warm_up WARMUP 0);;
  '(samples, post_hs) ← on_clock (collect iters WARMUP [] 0);
  st ← stats samples;
  print_row name st (kind_debug expect_kind +:+ ", " +:+ pretty post_hs +:+ " post-hs bytes").
End Scenario.

(** The timed calls of [f] after a warm-up. *)
Definition bench_primitive (name : string) (iters : nat) (f : prog (list Z) unit) : prog bench unit :=
  on_clock (for_loop WARMUP 0 (λ _ _, f) tt);;
  samples ← on_clock (for_loop iters 0 (λ _ samples, f;; d ← elapsed; mret (samples ++ [as_u64 d])) []);
  st ← stats samples;
  print_row name st "".

(** ** What a sample is *)

(** The calls of a handshake, in order. *)
Inductive call := ServerNew | ServerRead | ServerWrite (n : Z) | ClientWrite | ClientRead.

Definition of_server (e : call) : bool :=
  match e with ServerNew | ServerRead | ServerWrite _ => true | _ => false end.
Definition server_calls (tr : list call) : nat := length (filter of_server tr).
Definition emitted (tr : list call) : Z :=
  foldr (λ e n, match e with ServerWrite k => k + n | _ => n end) 0 tr.

(** The connections only ever read what the other wrote, one level at a time,
    and every read succeeds. *)
Inductive relay : qclient → qserver → list call → qclient → qserver → Prop :=
  | relay_done c s : relay c s [] c s
  | relay_client c s c1 b kc s1 tr c' s' :
      qclient_write_hs c = (c1, b, kc) → server_takes s b = Some s1 → relay c1 s1 tr c' s' →
      relay c s (ClientWrite :: (if nonempty b then [ServerRead] else []) ++ tr) c' s'
  | relay_server c s s1 b kc c1 tr c' s' :
      qserver_write_hs s = (s1, b, kc) → client_takes c b = Some c1 → relay c1 s1 tr c' s' →
      relay c s (ServerWrite (zlen b) :: (if nonempty b then [ClientRead] else []) ++ tr) c' s'.

(** The readings of the clock that a trace takes, and their sum. *)
Definition total (l : list Z) : Z := foldr Z.add 0 l.

(** A sample of a handshake under these configurations: the clock is read once
    for each call of the server and never for one of the client. *)
Definition measured (scfg : Rustls.server_config) (ccfg : Rustls.client_config)
    (clock : list Z) (s : HandshakeSample) (clock' : list Z) : Prop :=
  ∃ name c0 s0 tr c1 s1,
    server_name_try_from (string_bytes "localhost") = Some name ∧
    qclient_new ccfg V1 name TRANSPORT_PARAMS = inr c0 ∧
    qserver_new scfg V1 TRANSPORT_PARAMS = inr s0 ∧
    relay c0 s0 tr c1 s1 ∧
    qclient_is_handshaking c1 = false ∧ qserver_is_handshaking s1 = false ∧
    qserver_alpn_protocol s1 = Some ALPN ∧ kind s = qserver_handshake_kind s1 ∧
    0 ≤ post_hs_bytes s ≤ emitted tr ∧
    (let n := server_calls (ServerNew :: tr) in
     server_time s = total (take n clock) ∧ clock' = drop n clock).

(** Samples in a row, from the [i]th handshake on. *)
Fixpoint measured_all (server_cfg : nat → Rustls.server_config) (client_cfg : nat → Rustls.client_config)
    (i : nat) (clock : list Z) (ss : list HandshakeSample) (clock' : list Z) : Prop :=
  match ss with
  | [] => clock' = clock
  | s :: ss =>
      ∃ c1, measured (server_cfg i) (client_cfg i) clock s c1 ∧
            measured_all server_cfg client_cfg (Datatypes.S i) c1 ss clock'
  end.

(** [n] readings of the clock, added up. *)
Definition ticks (n : nat) (clock : list Z) (t : Z) (clock' : list Z) (t' : Z) : Prop :=
  t' = t + total (take n clock) ∧ clock' = drop n clock.

Lemma total_app l k : total (l ++ k) = total l + total k.
Proof. induction l as [|x l IH]; simpl; [done|]. rewrite IH. lia. Qed.

Lemma ticks_0 clock t : ticks 0 clock t clock t.
Proof. split; simpl; [lia|done]. Qed.

Lemma ticks_trans n m clock t clock1 t1 clock2 t2 :
  ticks n clock t clock1 t1 → ticks m clock1 t1 clock2 t2 → ticks (n + m) clock t clock2 t2.
Proof.
  intros [-> ->] [-> ->]. split; [|by rewrite drop_drop].
  rewrite <- Z.add_assoc, <- total_app. do 2 f_equal. apply take_take_drop.
Qed.

Lemma add_elapsed_ticks t clock t' clock' :
  add_elapsed t clock = Ret t' clock' → ticks 1 clock t clock' t'.
Proof.
  unfold add_elapsed. run. unfold elapsed. case_if; [|done]. intros [= <- <-].
  destruct clock; split; simpl; try done; lia.
Qed.

Lemma relay_trans c s tr c1 s1 tr' c2 s2 :
  relay c s tr c1 s1 → relay c1 s1 tr' c2 s2 → relay c s (tr ++ tr') c2 s2.
Proof.
  intros H H'. induction H as [| |]; [done| |]; simpl; rewrite <- app_assoc; econstructor; eauto.
Qed.

Lemma server_calls_app tr tr' : server_calls (tr ++ tr') = (server_calls tr + server_calls tr')%nat.
Proof. unfold server_calls. by rewrite filter_app, length_app. Qed.

Lemma emitted_app tr tr' : emitted (tr ++ tr') = emitted tr + emitted tr'.
Proof. induction tr as [|[] tr IH]; simpl; lia. Qed.

(** After fewer than [n] calls there is nothing more to write. *)
Fixpoint dry_within {C} (write : C → C * bytes * option (KeyChange hkey pkey secrets)) (n : nat) (c : C) : Prop :=
  match n with
  | O => False
  | Datatypes.S n => let '(c', out, kc) := write c in out = [] ∧ kc = None ∨ dry_within write n c'
  end.

Lemma dry_within_le {C} write n m (c : C) : (n ≤ m)%nat → dry_within write n c → dry_within write m c.
Proof.
  revert m c. induction n as [|n IH]; intros [|m] c Hm; simpl; try done; [lia|].
  destruct (write c) as [[c' out] kc]. intros [?|?]; [by left|right]. apply IH; [lia|done].
Qed.

Lemma pull_level_more {C} write (c c1 : C) b kc :
  write c = (c1, b, kc) →
  pull_level write c = (c1, b, true) ∧ ¬ (b = [] ∧ kc = None) ∨
  pull_level write c = (c1, b, false) ∧ b = [] ∧ kc = None.
Proof.
  unfold pull_level. intros ->. destruct kc, b; simpl; try (right; done); left; (split; [done|]); by intros [? ?].
Qed.

(** *** The two directions *)

Lemma client_levels_relay fuel c s t clock :
  match client_levels fuel c s t clock with
  | Ret (c', s', t') clock' =>
      ∃ tr, relay c s tr c' s' ∧ ticks (server_calls tr) clock t clock' t' ∧ emitted tr = 0
  | NoFuel => ¬ dry_within qclient_write_hs fuel c
  | _ => True
  end.
Proof.
  revert c s t clock. induction fuel as [|fuel IH]; intros c s t clock; [by intros ?|].
  cbn [client_levels dry_within]. destruct (qclient_write_hs c) as [[c1 b] kc] eqn:E.
  destruct (pull_level_more _ _ _ _ _ E) as [[-> Hm]|(-> & -> & ->)].
  2:{ exists [ClientWrite]. split_and!; [|apply ticks_0|done].
      apply (relay_client _ _ _ _ _ s _ _ _ E); [done|constructor]. }
  destruct (nonempty b) eqn:Eb.
  - destruct (qserver_read_hs s b) as [s1 [e|u]] eqn:Er; [done|]. unfold expect_ok.
    change (mret u;; ?k) with k. unfold mbind at 1, prog_bind at 1.
    destruct (add_elapsed t clock) as [t1 clock1| | |] eqn:Ea; try done.
    2:{ revert Ea. unfold add_elapsed. run. unfold elapsed. by case_if. }
    specialize (IH c1 s1 t1 clock1).
    change ((mret u ≫= λ _, client_levels fuel c1 s1 t1) clock1) with (client_levels fuel c1 s1 t1 clock1).
    destruct (client_levels fuel c1 s1 t1 clock1) as [[[c' s'] t'] clock'| | |]; try done.
    + destruct IH as (tr & H1 & H2 & H3). exists (ClientWrite :: [ServerRead] ++ tr).
      split_and!; [| |done].
      * change ([ServerRead]) with (if true then [ServerRead] else []). rewrite <- Eb.
        apply (relay_client _ _ _ _ _ s1 _ _ _ E); [|done]. unfold server_takes. by rewrite Eb, Er.
      * apply (ticks_trans 1 _ _ _ _ _ _ _ (add_elapsed_ticks _ _ _ _ Ea) H2).
    + intros [?|?]; [by apply Hm|by apply IH].
  - specialize (IH c1 s t clock). destruct (client_levels fuel c1 s t clock) as [[[c' s'] t'] clock'| | |]; try done.
    + destruct IH as (tr & H1 & H2 & H3). exists (ClientWrite :: [] ++ tr). split_and!; [|done|done].
      change (@nil call) with (if false then [ServerRead] else []). rewrite <- Eb.
      apply (relay_client _ _ _ _ _ s _ _ _ E); [|done]. unfold server_takes. by rewrite Eb.
    + intros [?|?]; [by apply Hm|by apply IH].
Qed.

Lemma server_levels_relay fuel c s t em clock :
  match server_levels fuel c s t em clock with
  | Ret (c', s', t', em') clock' =>
      ∃ tr, relay c s tr c' s' ∧ ticks (server_calls tr) clock t clock' t' ∧ em' = em + emitted tr
  | NoFuel => ¬ dry_within qserver_write_hs fuel s
  | _ => True
  end.
Proof.
  revert c s t em clock. induction fuel as [|fuel IH]; intros c s t em clock; [by intros ?|].
  cbn [server_levels dry_within]. destruct (qserver_write_hs s) as [[s1 b] kc] eqn:E.
  pose proof (pull_level_more _ _ _ _ _ E) as Hp.
  destruct (pull_level qserver_write_hs s) as [[s1' b'] more].
  unfold mbind at 1, prog_bind at 1. destruct (add_elapsed t clock) as [t1 clock1| | |] eqn:Ea; try done.
  2:{ revert Ea. unfold add_elapsed. run. unfold elapsed. by case_if. }
  pose proof (add_elapsed_ticks _ _ _ _ Ea) as Ht.
  destruct Hp as [[[= -> -> ->] Hm]|([= -> -> ->] & -> & ->)]; cbn [negb].
  2:{ exists [ServerWrite 0]. split_and!; [|done|simpl; lia].
      apply (relay_server _ _ _ _ _ c _ _ _ E); [done|constructor]. }
  destruct (nonempty b) eqn:Eb.
  - destruct (qclient_read_hs c b) as [c1 [e|u]] eqn:Er; [done|]. unfold expect_ok.
    specialize (IH c1 s1 t1 (em + zlen b) clock1).
    change ((mret u ≫= λ _, server_levels fuel c1 s1 t1 (em + zlen b)) clock1)
      with (server_levels fuel c1 s1 t1 (em + zlen b) clock1).
    destruct (server_levels fuel c1 s1 t1 _ clock1) as [[[[c' s'] t'] em'] clock'| | |]; try done.
    + destruct IH as (tr & H1 & H2 & ->). exists (ServerWrite (zlen b) :: [ClientRead] ++ tr).
      split_and!; [| |simpl; lia].
      * change ([ClientRead]) with (if true then [ClientRead] else []). rewrite <- Eb.
        apply (relay_server _ _ _ _ _ c1 _ _ _ E); [|done]. unfold client_takes. by rewrite Eb, Er.
      * apply (ticks_trans 1 _ _ _ _ _ _ _ Ht H2).
    + intros [?|?]; [by apply Hm|by apply IH].
  - specialize (IH c s1 t1 em clock1).
    destruct (server_levels fuel c s1 t1 em clock1) as [[[[c' s'] t'] em'] clock'| | |]; try done.
    + destruct IH as (tr & H1 & H2 & ->). exists (ServerWrite (zlen b) :: [] ++ tr).
      split_and!; [| |destruct b; simpl; [unfold zlen; simpl; lia|done]].
      * change (@nil call) with (if false then [ClientRead] else []). rewrite <- Eb.
        apply (relay_server _ _ _ _ _ c _ _ _ E); [|done]. unfold client_takes. by rewrite Eb.
      * apply (ticks_trans 1 _ _ _ _ _ _ _ Ht H2).
    + intros [?|?]; [by apply Hm|by apply IH].
Qed.
End Bench.

(** rustls writes a handshake message once: in the states a connection can reach,
    repeated [write_hs] without new input runs dry. *)
Class RunsDry (R : Rustls) := {
  levels : nat;
  client_live : qclient → Prop;
  server_live : qserver → Prop;
  client_live_new : ∀ config v name tp c, qclient_new config v name tp = inr c → client_live c;
  server_live_new : ∀ config v tp s, qserver_new config v tp = inr s → server_live s;
  client_live_write : ∀ c c' out kc, client_live c → qclient_write_hs c = (c', out, kc) → client_live c';
  server_live_write : ∀ s s' out kc, server_live s → qserver_write_hs s = (s', out, kc) → server_live s';
  client_live_read : ∀ c data c' r, client_live c → qclient_read_hs c data = (c', r) → client_live c';
  server_live_read : ∀ s data s' r, server_live s → qserver_read_hs s data = (s', r) → server_live s';
  client_live_dry : ∀ c, client_live c → dry_within qclient_write_hs levels c;
  server_live_dry : ∀ s, server_live s → dry_within qserver_write_hs levels s;
}.

Section Ends.
Context {R : Rustls} `{!RunsDry R} (fuel : nat).
Hypothesis Hfuel : (levels ≤ fuel)%nat.

Lemma relay_live c s tr c' s' :
  relay c s tr c' s' → client_live c ∧ server_live s → client_live c' ∧ server_live s'.
Proof.
  induction 1 as [|c s c1 b kc s1 tr c' s' E T _ IH|c s s1 b kc c1 tr c' s' E T _ IH]; intros [Hc Hs]; [done| |].
  - apply IH. split; [by eapply client_live_write|]. revert T. unfold server_takes. case_if; [|congruence].
    destruct (qserver_read_hs s b) as [s2 [e|u]] eqn:Er; [done|]. intros [= <-]. by eapply server_live_read.
  - apply IH. split; [|by eapply server_live_write]. revert T. unfold client_takes. case_if; [|congruence].
    destruct (qclient_read_hs c b) as [c2 [e|u]] eqn:Er; [done|]. intros [= <-]. by eapply client_live_read.
Qed.

Lemma relay_emitted c s tr c' s' : relay c s tr c' s' → 0 ≤ emitted tr.
Proof.
  induction 1 as [|? ? ? b|? ? ? b]; simpl; [done| |]; rewrite emitted_app;
    destruct (nonempty b); simpl; pose proof (zlen_nonneg b); lia.
Qed.

Lemma rounds_relay n c s t post clock :
  client_live c ∧ server_live s →
  match rounds n fuel c s t post clock with
  | Ret (c', s', t', post') clock' =>
      ∃ tr, relay c s tr c' s' ∧ ticks (server_calls tr) clock t clock' t' ∧
            post ≤ post' ≤ post + emitted tr
  | NoFuel => False
  | _ => True
  end.
Proof.
  revert c s t post clock. induction n as [|n IH]; intros c s t post clock Hl; cbn [rounds].
  { exists []. split_and!; [constructor|apply ticks_0|done|simpl; lia]. }
  unfold mbind at 1, prog_bind at 1. pose proof (client_levels_relay fuel c s t clock) as H1.
  destruct (client_levels fuel c s t clock) as [[[c1 s1] t1] clock1| | |]; try done.
  2:{ apply H1. destruct Hl as [Hc _]. by eapply dry_within_le, client_live_dry. }
  destruct H1 as (tr1 & R1 & T1 & E1). apply (relay_live _ _ _ _ _ R1) in Hl.
  unfold mbind at 1, prog_bind at 1. pose proof (server_levels_relay fuel c1 s1 t1 0 clock1) as H2.
  destruct (server_levels fuel c1 s1 t1 0 clock1) as [[[[c2 s2] t2] em] clock2| | |]; try done.
  2:{ apply H2. destruct Hl as [_ Hs]. by eapply dry_within_le, server_live_dry. }
  destruct H2 as (tr2 & R2 & T2 & ->). apply (relay_live _ _ _ _ _ R2) in Hl.
  pose proof (relay_emitted _ _ _ _ _ R2) as Hem.
  assert (Hr := relay_trans _ _ _ _ _ _ _ _ R1 R2). assert (Ht := ticks_trans _ _ _ _ _ _ _ _ T1 T2).
  rewrite <- server_calls_app in Ht. cbv zeta. rewrite Z.add_0_l.
  set (post2 := if negb (qserver_is_handshaking s1) then post + emitted tr2 else post).
  assert (Hp : post ≤ post2 ≤ post + emitted (tr1 ++ tr2)).
  { rewrite emitted_app. unfold post2. case_if; lia. }
  destruct (_ && _ && _).
  { by exists (tr1 ++ tr2). }
  specialize (IH c2 s2 t2 post2 clock2 Hl).
  destruct (rounds n fuel c2 s2 t2 post2 clock2) as [[[[c3 s3] t3] post3] clock3| | |]; try done.
  destruct IH as (tr3 & R3 & T3 & Hp3). exists ((tr1 ++ tr2) ++ tr3). split_and!.
  - by eapply relay_trans.
  - rewrite server_calls_app. by eapply ticks_trans.
  - lia.
  - rewrite emitted_app. lia.
Qed.

Lemma run_handshake_measured scfg ccfg clock :
  match run_handshake fuel scfg ccfg clock with
  | Ret s clock' => measured scfg ccfg clock s clock'
  | NoFuel => False
  | _ => True
  end.
Proof.
  unfold run_handshake. destruct (server_name_try_from _) as [name|] eqn:En; [|done]. unfold expect_ok.
  cbn [expect]. unfold mbind at 1, prog_bind at 1, mret at 1, prog_ret at 1.
  destruct (qclient_new ccfg V1 name TRANSPORT_PARAMS) as [e|c] eqn:Ec; [done|].
  destruct (qserver_new scfg V1 TRANSPORT_PARAMS) as [e|s] eqn:Es; [done|].
  unfold mbind, prog_bind, mret, prog_ret. cbv beta iota.
  destruct (add_elapsed 0 clock) as [t clock1| | |] eqn:Ea; try done.
  2:{ revert Ea. unfold add_elapsed. run. unfold elapsed. by case_if. }
  pose proof (rounds_relay 8 c s t 0 clock1) as H. generalize dependent 8%nat. intros n H.
  destruct (rounds n fuel c s t 0 clock1) as [[[[c' s'] t'] post] clock2| | |]; try done.
  2:{ apply H. split; [by eapply client_live_new|by eapply server_live_new]. }
  destruct H as (tr & R1 & T1 & Hp). { split; [by eapply client_live_new|by eapply server_live_new]. }
  unfold assert_.
  destruct (qclient_is_handshaking c') eqn:Ehc; [done|].
  destruct (qserver_is_handshaking s') eqn:Ehs; [done|]. cbn [negb andb].
  case_bool_decide as Hal; [|done]. exists name, c, s, tr, c', s'. split_and!; try done; try (simpl; lia).
  destruct (ticks_trans _ _ _ _ _ _ _ _ (add_elapsed_ticks _ _ _ _ Ea) T1) as [H1 H2]. rewrite Z.add_0_l in H1. by split.
Qed.

Section Scenario.
Context (name : string) (server_cfg : nat → Rustls.server_config).
Context (client_cfg : nat → Rustls.client_config) (expect_kind : HandshakeKind) (expect_post_hs : bool).

(** What the check of a scenario asks of a sample. *)
Definition expected (s : HandshakeSample) : Prop :=
  kind s = Some expect_kind ∧ (0 <? post_hs_bytes s) = expect_post_hs.

Lemma checked_handshake_measured i clock :
  match checked_handshake fuel name server_cfg client_cfg expect_kind expect_post_hs i clock with
  | Ret s clock' => measured (server_cfg i) (client_cfg i) clock s clock' ∧ expected s
  | NoFuel => False
  | _ => True
  end.
Proof.
  unfold checked_handshake, mbind, prog_bind. pose proof (run_handshake_measured (server_cfg i) (client_cfg i) clock) as H.
  destruct (run_handshake _ _ _ _) as [s clock'| | |]; try done. unfold check, assert_.
  case_bool_decide as Hk; [|done]. destruct (Bool.eqb _ _) eqn:Eb; [|done].
  apply eqb_prop in Eb. done.
Qed.

Lemma warm_up_measured n i clock :
  match warm_up fuel name server_cfg client_cfg expect_kind expect_post_hs n i clock with
  | Ret _ clock' => ∃ ss, length ss = n ∧ measured_all server_cfg client_cfg i clock ss clock' ∧
                          Forall expected ss
  | NoFuel => False
  | _ => True
  end.
Proof.
  revert i clock. induction n as [|n IH]; intros i clock; simpl; [by exists []|].
  unfold mbind, prog_bind. pose proof (checked_handshake_measured i clock) as H.
  destruct (checked_handshake _ _ _ _ _ _ i clock) as [s c1| | |]; try done. destruct H as [Hm He].
  specialize (IH (Datatypes.S i) c1). destruct (warm_up _ _ _ _ _ _ _ _ c1) as [u c2| | |]; try done.
  destruct IH as (ss & Hn & Ha & Hf). exists (s :: ss). split_and!; [simpl; lia|by exists c1|by constructor].
Qed.

Definition sample_times (ss : list HandshakeSample) : list Z := (λ s, as_u64 (server_time s)) <$> ss.
Definition last_post (d : Z) (ss : list HandshakeSample) : Z := default d (post_hs_bytes <$> last ss).

Lemma collect_measured n i acc post clock :
  match collect fuel name server_cfg client_cfg expect_kind expect_post_hs n i acc post clock with
  | Ret (samples, post') clock' =>
      ∃ ss, length ss = n ∧ measured_all server_cfg client_cfg i clock ss clock' ∧ Forall expected ss ∧
            samples = acc ++ sample_times ss ∧ post' = last_post post ss
  | NoFuel => False
  | _ => True
  end.
Proof.
  revert i acc post clock. induction n as [|n IH]; intros i acc post clock; simpl.
  { exists []. by rewrite app_nil_r. }
  unfold mbind, prog_bind. pose proof (checked_handshake_measured i clock) as H.
  destruct (checked_handshake _ _ _ _ _ _ i clock) as [s c1| | |]; try done. destruct H as [Hm He].
  specialize (IH (Datatypes.S i) (acc ++ [as_u64 (server_time s)]) (post_hs_bytes s) c1).
  destruct (collect _ _ _ _ _ _ _ _ _ _ c1) as [[samples post'] c2| | |]; try done.
  destruct IH as (ss & Hn & Ha & Hf & -> & ->). exists (s :: ss).
  split_and!; [simpl; lia|by exists c1|by constructor|by rewrite <- app_assoc|].
  unfold last_post. rewrite last_cons. by destruct (last ss).
Qed.
End Scenario.
End Ends.

(** *** The statistics *)

Lemma pct_index_bound n p : 1 ≤ n → 0 ≤ pct_index n p ≤ n - 1.
Proof.
  intros Hn. unfold pct_index. assert (0 ≤ f64_as_usize (f64_mul (f64_of n) p)); [|lia].
  destruct (f64_mul _ _) as [| [] | |[] m e]; simpl; try lia.
  apply Z.min_glb; [lia|]. by apply Z.shiftl_nonneg.
Qed.

Lemma index_ok {S} l i (s : S) : 0 ≤ i < zlen l → ∃ v, index l i s = Ret v s ∧ v ∈ l.
Proof.
  intros Hi. unfold index. rewrite (proj2 (Z.leb_le _ _)) by lia.
  destruct (lookup_lt_is_Some_2 l (Z.to_nat i)) as [v Hv]; [unfold zlen in *; lia|].
  exists v. rewrite Hv. split; [done|]. by eapply list_elem_of_lookup_2.
Qed.

(** The smallest sample, and samples for the two percentiles. *)
Definition summarises (samples : list Z) (st : Stats) : Prop :=
  ∃ lo mid hi, lo ∈ samples ∧ mid ∈ samples ∧ hi ∈ samples ∧ Forall (Z.le lo) samples ∧
    st_min st = f64_div (f64_of lo) (f64_of 1000) ∧ st_p50 st = f64_div (f64_of mid) (f64_of 1000) ∧
    st_p90 st = f64_div (f64_of hi) (f64_of 1000).

Lemma stats_nil {S} (s : S) : ∃ m, stats [] s = Panic m.
Proof. by eexists. Qed.

Lemma stats_ok {S} samples (s : S) :
  samples ≠ [] → ∃ st, stats samples s = Ret st s ∧ summarises samples st.
Proof.
  intros Hne. unfold stats. pose proof (merge_sort_Permutation Z.le samples) as Hp.
  pose proof (Sorted_merge_sort Z.le samples) as Hs. apply Sorted_StronglySorted in Hs; [|apply _].
  set (l := merge_sort Z.le samples) in *. clearbody l.
  assert (Hn : 1 ≤ zlen l).
  { destruct l; [by apply Permutation_nil_l in Hp|unfold zlen; simpl; lia]. }
  destruct (index_ok l 0 s) as (lo & E0 & H0); [lia|].
  destruct (index_ok l (pct_index (zlen l) p50_literal) s) as (mid & E1 & H1).
  { pose proof (pct_index_bound (zlen l) p50_literal). lia. }
  destruct (index_ok l (pct_index (zlen l) p90_literal) s) as (hi & E2 & H2).
  { pose proof (pct_index_bound (zlen l) p90_literal). lia. }
  eexists. split.
  { unfold mbind, prog_bind. rewrite E0. cbv beta iota. rewrite E1. cbn [mret prog_ret]. cbv beta iota. rewrite E2. done. }
  exists lo, mid, hi. rewrite <- Hp. split_and!; try done.
  destruct l as [|x l]; [done|]. injection E0 as ->. inversion Hs. by constructor.
Qed.

(** *** The scenarios *)

Section Rows.
Context {R : Rustls} `{!RunsDry R} (fuel : nat).
Context (name : string) (server_cfg : nat → Rustls.server_config).
Context (client_cfg : nat → Rustls.client_config) (expect_kind : HandshakeKind) (expect_post_hs : bool).

Abbreviation scenario := (bench_handshakes fuel name server_cfg client_cfg expect_kind expect_post_hs).
Abbreviation check_ok := (Forall (expected expect_kind expect_post_hs)).

(** A scenario of the benchmark ends, and what it prints was measured: its row
    sums up one sample for each iteration, each of a handshake of its own in
    which client and server only read what the other wrote, both finished, the
    server negotiated h3 with the expected kind of handshake, and the clock was
    read for the calls of the server and no others. With no iterations it has
    nothing to print and does not return. *)
Theorem bench_rows_measured iters b :
  (levels ≤ fuel)%nat →
  scenario iters b ≠ NoFuel ∧
  ∀ b', scenario iters b = Ret tt b' →
    iters ≠ 0%nat ∧
    ∃ warm ss clock1 st,
      length warm = WARMUP ∧ measured_all server_cfg client_cfg 0 (b_clock b) warm clock1 ∧ check_ok warm ∧
      length ss = iters ∧ measured_all server_cfg client_cfg WARMUP clock1 ss (b_clock b') ∧ check_ok ss ∧
      summarises (sample_times ss) st ∧
      b_rows b' = b_rows b ++ [(name, st,
        kind_debug expect_kind +:+ ", " +:+ pretty (last_post 0 ss) +:+ " post-hs bytes")].
Proof.
  intros Hfuel. unfold bench_handshakes, mbind, prog_bind, on_clock.
  pose proof (warm_up_measured fuel Hfuel name server_cfg client_cfg expect_kind expect_post_hs WARMUP 0 (b_clock b)) as Hw.
  generalize dependent WARMUP. intros W Hw. destruct (warm_up _ _ _ _ _ _ W 0 _) as [u c1| | |]; try done.
  destruct Hw as (warm & Wn & Wm & We). cbn [b_clock b_rows].
  pose proof (collect_measured fuel Hfuel name server_cfg client_cfg expect_kind expect_post_hs iters W [] 0 c1) as Hc.
  destruct (collect _ _ _ _ _ _ iters W [] 0 c1) as [[samples post] c2| | |]; try done.
  destruct Hc as (ss & Sn & Sm & Se & -> & ->). cbn [app b_rows].
  destruct ss as [|s ss].
  { destruct (stats_nil {| b_clock := c2; b_rows := b_rows b |}) as [m E]. cbn [sample_times fmap list_fmap]. by rewrite E. }
  destruct (stats_ok (sample_times (s :: ss)) {| b_clock := c2; b_rows := b_rows b |}) as (st & E & Hst); [done|].
  rewrite E. split; [done|]. intros b' [= <-]. split; [by destruct iters|].
  by exists warm, (s :: ss), c1, st.
Qed.
End Rows.

(** ** The configuration of the server *)

(** The fields of a [ServerConfig] are set independently; a configuration fresh
    from the builder sends two tickets and takes no early data. *)
Class ServerConfigFields (R : Rustls) := {
  key_log_alpn : ∀ c l, server_config_set_alpn (server_config_set_key_log c) l =
                        server_config_set_key_log (server_config_set_alpn c l);
  key_log_ticketer : ∀ c, server_config_set_ticketer (server_config_set_key_log c) =
    match server_config_set_ticketer c with inr c' => inr (server_config_set_key_log c') | inl e => inl e end;
  early_key_log : ∀ c n, server_config_set_max_early_data (server_config_set_key_log c) n =
                         server_config_set_key_log (server_config_set_max_early_data c n);
  early_alpn : ∀ c l n, server_config_set_max_early_data (server_config_set_alpn c l) n =
                        server_config_set_alpn (server_config_set_max_early_data c n) l;
  early_ticketer : ∀ c c' n, server_config_set_ticketer c = inr c' →
    server_config_set_ticketer (server_config_set_max_early_data c n) =
    inr (server_config_set_max_early_data c' n);
  tickets_alpn : ∀ c l n, server_config_set_send_tls13_tickets (server_config_set_alpn c l) n =
                          server_config_set_alpn (server_config_set_send_tls13_tickets c n) l;
  tickets_ticketer : ∀ c c' n, server_config_set_ticketer c = inr c' →
    server_config_set_ticketer (server_config_set_send_tls13_tickets c n) =
    inr (server_config_set_send_tls13_tickets c' n);
  built_tickets : ∀ t certs key c, server_config_build t certs key = inr c →
    server_config_set_send_tls13_tickets c 2 = c;
  built_early : ∀ t certs key c, server_config_build t certs key = inr c →
    server_config_set_max_early_data c 0 = c;
}.

Section Mirror.
Context {R : Rustls} `{!ServerConfigFields R}.

(** The builder's defaults survive the other fields. *)
Lemma ticketer_defaults t certs key c l c' :
  server_config_build t certs key = inr c → server_config_set_ticketer (server_config_set_alpn c l) = inr c' →
  server_config_set_max_early_data c' 0 = c' ∧ server_config_set_send_tls13_tickets c' 2 = c'.
Proof.
  intros Hb Ht. pose proof (early_ticketer _ _ 0 Ht) as He. pose proof (tickets_ticketer _ _ 2 Ht) as Hk.
  rewrite early_alpn, (built_early _ _ _ _ Hb) in He. rewrite tickets_alpn, (built_tickets _ _ _ _ Hb) in Hk.
  split; congruence.
Qed.

Lemma server_config_inv {S} crt key n (s s' : S) cfg :
  server_config (inr crt) (inr key) n s = Ret cfg s' →
  ∃ certs k c c', pem_certs crt = inr certs ∧ pem_private_key key = inr (Some k) ∧
    server_config_build true certs k = inr c ∧
    server_config_set_ticketer (server_config_set_alpn c [ALPN]) = inr c' ∧
    cfg = server_config_set_send_tls13_tickets c' n.
Proof.
  unfold server_config, load_cert_key, expect_ok. run.
  destruct (pem_certs crt) as [e|certs]; [done|].
  destruct (pem_private_key key) as [e|[k|]]; try done. simpl. run.
  destruct (server_config_build true certs k) as [e|c] eqn:Eb; [done|].
  destruct (server_config_set_ticketer _) as [e|c'] eqn:E; [done|]. intros [= <- <-]. by exists certs, k, c, c'.
Qed.

(** The server configuration that the benchmark measures is the one of the
    HTTP/3 server: with the same files, protocol and no early data,
    [rlsm_quic_server_config_new] stores the configuration of the benchmark with
    the key log added and nothing else changed. *)
Theorem bench_config_mirrors_shim {S} crt key (s s' : S) cfg cert_p cert_len key_p key_len alpn_p out w m1 h :
  server_config (inr crt) (inr key) 2 s = Ret cfg s' → pem_certs crt ≠ inr [] →
  load (m_u8 (w_mem w)) cert_p cert_len = Some crt → in_i32 cert_len → 0 ≤ cert_len →
  load (m_u8 (w_mem w)) key_p key_len = Some key → in_i32 key_len → 0 ≤ key_len →
  load (m_u8 (w_mem w)) alpn_p 2 = Some ALPN →
  w_next w = h → 0 < h → store (m_i32 (w_mem w)) out [h] = Some m1 →
  ∃ w', rlsm_quic_server_config_new cert_p cert_len key_p key_len alpn_p 2 0 out w = Ret 0 w' ∧
        w_qcfg_server w' !! h = Some (server_config_set_key_log cfg).
Proof.
  intros Hcfg Hne Hc Ic Pc Hk Ik Pk Ha Hn Hh Hs.
  apply server_config_inv in Hcfg as (certs & k & c & c' & E1 & E2 & E3 & E4 & ->).
  destruct (ticketer_defaults _ _ _ _ _ _ E3 E4) as [D1 D2]. rewrite D2.
  assert (is_null out = false) as Ho by (destruct out; [discriminate|done]).
  unfold rlsm_quic_server_config_new, insert_out. run. pass_guards.
  rewrite !as_usize_nonneg_i32 by done. change (as_usize 2) with 2.
  rewrite (read_u8_ok (set_error None w) _ _ _ Hc), (read_u8_ok (set_error None w) _ _ _ Hk),
    (read_u8_ok (set_error None w) _ _ _ Ha).
  rewrite E1, E2. destruct certs as [|x certs]; [done|].
  rewrite E3, key_log_alpn, key_log_ticketer, E4. change (0 =? 0) with true. cbv beta iota.
  rewrite early_key_log, D1.
  rewrite (insert_pos quic_server_cfg_table _ (set_error None w)) by (simpl; lia).
  erewrite write_i32_ok by (simpl; rewrite Hn; exact Hs).
  eexists. split; [done|]. simpl. rewrite Hn. apply lookup_insert_eq.
Qed.
End Mirror.

(** ** Witnesses *)

Lemma toy_dry n (q : toy_quic) : (length (q_script q) < n)%nat → dry_within (R:=toy) toy_write_hs n q.
Proof.
  revert q. induction n as [|n IH]; intros q; [lia|]. intros Hq. simpl. unfold toy_write_hs.
  destruct (q_script q) as [|[b k] s] eqn:E; [by left|right]. apply IH. simpl in *. lia.
Qed.

#[global] Instance toy_runs_dry : RunsDry toy.
Proof.
  assert (Hw : ∀ q q' out kc, (length (q_script q) < 5)%nat → toy_write_hs q = (q', out, kc) →
    (length (q_script q') < 5)%nat).
  { intros q q' out kc Hq. unfold toy_write_hs.
    destruct (q_script q) as [|[b k] s] eqn:E; intros [= <- <- <-]; simpl in *; rewrite ?E; simpl; lia. }
  refine {| levels := 5; client_live := λ q : @qclient toy, (length (q_script q) < 5)%nat;
            server_live := λ q : @qserver toy, (length (q_script q) < 5)%nat |}; try exact Hw.
  - intros config v name tp c [= <-]. simpl. lia.
  - intros config v tp c [= <-]. simpl. case_if; simpl; lia.
  - by intros c data c' r Hc [= <- <-].
  - by intros c data c' r Hc [= <- <-].
  - intros c. apply toy_dry.
  - intros c. apply toy_dry.
Defined.

#[global] Instance toy_server_config_fields : ServerConfigFields toy.
Proof. split; try done; intros; simplify_eq/=; done. Defined.

(** Three handshakes of connections that begin where the handshake ends; the
    server has a ticket to send. *)
Definition row_start : bench := {| b_clock := replicate 4096 250; b_rows := [] |}.

#[local] Abbreviation row_run :=
  (bench_handshakes (R:=toy) 5 "full" (λ _, ([], 1)) (λ _, [[]]) Full true).

Lemma bench_rows_measured_witness :
  result_of (row_run 3 row_start) = Some tt ∧
  row_run 3 row_start ≠ NoFuel ∧
  ∀ b', row_run 3 row_start = Ret tt b' →
    3%nat ≠ 0%nat ∧
    ∃ warm ss clock1 st,
      length warm = WARMUP ∧
      measured_all (R:=toy) (λ _, ([], 1)) (λ _, [[]]) 0 (b_clock row_start) warm clock1 ∧
      Forall (expected Full true) warm ∧ length ss = 3%nat ∧
      measured_all (R:=toy) (λ _, ([], 1)) (λ _, [[]]) WARMUP clock1 ss (b_clock b') ∧
      Forall (expected Full true) ss ∧ summarises (sample_times ss) st ∧
      b_rows b' = b_rows row_start ++ [("full"%string, st,
        (kind_debug Full +:+ ", " +:+ pretty (last_post 0 ss) +:+ " post-hs bytes")%string)].
Proof.
  split; [by_eval|].
  apply (bench_rows_measured (R:=toy) 5 "full" (λ _, ([], 1)) (λ _, [[]]) Full true 3 row_start). simpl. lia.
Defined.

Definition files_world : world (R:=toy) := boot (mem_of [[3]; [9]; ALPN]).

Lemma bench_config_mirrors_shim_witness :
  ∃ w', rlsm_quic_server_config_new (R:=toy) (Ptr 1 0) 1 (Ptr 2 0) 1 (Ptr 3 0) 2 0 (Ptr 1 0) files_world = Ret 0 w' ∧
        w_qcfg_server w' !! 1 = Some ([ALPN], 0).
Proof.
  refine (bench_config_mirrors_shim (R:=toy) (S:=unit) [3] [9] tt tt ([ALPN], 0) (Ptr 1 0) 1 (Ptr 2 0) 1 (Ptr 3 0)
    (Ptr 1 0) files_world _ 1 _ _ _ _ _ _ _ _ _ _ _ _); try reflexivity; done.
Defined.
End Bench.
