(* ===== verification/DriverRules.v ===== *)
(** * Rules for the handshake drivers

    An invariant of the drivers is indexed by the readings of the clock still to
    come and by whether the injection was sent. What every part of a driver
    keeps is asked of the parts once, in the hypotheses of the section; the
    walks, the loops and the drain then keep it. [wire] is what is known of
    datagrams and their slices, [usable] of keys taken from rustls, [plain] of
    opened payloads and [found] of a CONNECTION_CLOSE seen in one: it is what
    is known of the driver's result. *)

From S2P Require Import Prelude Effects Rustls Utf8 Varint QuicPacket FrameScan RustlsPackets.
From S2P Require Import Hoare Drivers.
Import Effects Rustls Utf8 Varint QuicPacket FrameScan RustlsPackets Hoare Drivers.

Module DriverRules.

(** ** Triples for a part of the state *)

Lemma hoare_lift {X A B} F (get : X → B) (set : B → X → X) (c : prog B A)
    (P : X → Prop) (PB : B → Prop) (QB : A → B → Prop) (Q : A → X → Prop) :
  hoare F PB c QB → (∀ x, P x → PB (get x)) →
  (∀ x a b, P x → QB a b → Q a (set b x)) → hoare F P (lift get set c) Q.
Proof.
  intros Hc HP HQ x Hx. unfold lift. specialize (Hc (get x) (HP x Hx)).
  destruct (c (get x)); try done. by apply HQ.
Qed.

Section Rules.
Context {R : Rustls} {S : Type} `{KeysApi S} (env : environment).
Context (F : Prop) (wire plain : bytes → Prop) (usable : quic_keys → Prop).
Context (found : ConnectionClose → Prop) (keys : Z).
Context (I : list Z → bool → harness (S:=S) → Prop).

Definition opens_plain (r : string + bytes) : Prop :=
  match r with inl _ => True | inr pt => plain pt end.

Definition earned (r : string + option ConnectionClose) : Prop :=
  match r with inr (Some cc) => found cc | _ => True end.

Definition then_earned (J : harness (S:=S) → Prop) (r : string + option ConnectionClose)
    (h : harness (S:=S)) : Prop := earned r ∧ J h.

(** What the parts of a driver keep. *)
Record kept : Prop := {
  kept_clock : ∀ cl b h, I cl b h → io_clock (h_io h) = cl;
  kept_injected : ∀ cl b h, I cl b h → h_injected h = b;
  kept_now : ∀ cl b, hoare F (I cl b) (on_io now) (λ t h, t = head cl ∧ I (tail cl) b h);
  kept_os : ∀ cl b, hoare F (I cl b) (on_io os_result) (λ _, I cl b);
  kept_recv : ∀ cl b, hoare F (I cl b) (on_io (recv_from 4096))
    (λ ev h, match ev with Datagram d => wire d | _ => True end ∧ I cl b h);
  kept_keys : ∀ cl b h k, I cl b h → h_handshake_keys h = Some k ∨ h_one_rtt_keys h = Some k →
    usable k;
  kept_decrypt : ∀ cl b pkt hd, wire pkt → hoare F (I cl b)
    (on_shim (decrypt_initial_inplace pkt hd keys)) (λ r h, opens_plain r ∧ I cl b h);
  kept_long : ∀ cl b pkt hd k, wire pkt → usable k → hoare F (I cl b)
    (decrypt_long_with_rustls pkt hd k.2) (λ r h, opens_plain r ∧ I cl b h);
  kept_short : ∀ cl b pkt n k, wire pkt → usable k → hoare F (I cl b)
    (decrypt_short_with_rustls pkt n k.2) (λ r h, opens_plain r ∧ I cl b h);
  kept_scan : ∀ cl b pt, plain pt → hoare F (I cl b)
    (on_conn (scan_plaintext_into_rustls pt)) (then_earned (I cl b));
  kept_drop : ∀ n d, wire d → wire (drop n d);
  kept_sub : ∀ n d, wire d → wire (sub 0 n d);
  kept_progress : F ∨ ∀ d hd, wire d → parse_long_header d = Some hd →
    1 ≤ payload_offset hd + lh_length hd;
}.

Context (K : kept).

(** A unit of fuel for every byte not walked. *)
Definition enough (fuel : nat) (d : bytes) (offset : Z) : Prop :=
  F ∨ (0 ≤ offset ∧ zlen d - offset ≤ Z.of_nat fuel).

Lemma enough_start d : enough (length d) d 0.
Proof. right. unfold zlen. lia. Qed.

Lemma enough_none d offset x rest : enough 0 d offset → drop (Z.to_nat offset) d = x :: rest → F.
Proof.
  intros [HF|[? Hl]] E; [done|]. apply (f_equal length) in E. rewrite length_drop in E.
  unfold zlen in Hl. simpl in E. lia.
Qed.

Lemma enough_next fuel d offset hd :
  wire d → enough (Datatypes.S fuel) d offset →
  parse_long_header (drop (Z.to_nat offset) d) = Some hd →
  enough fuel d (offset + (payload_offset hd + lh_length hd)).
Proof.
  intros Hd [HF|[? Hl]] E; [by left|].
  destruct (kept_progress K) as [HF|Hp]; [by left|]. right.
  specialize (Hp _ _ (kept_drop K _ _ Hd) E). lia.
Qed.

(** An opened payload goes on to what can use it. *)
Lemma attempt_opened {B} J (c : prog (harness (S:=S)) (string + bytes))
    (k : bytes → prog (harness (S:=S)) (string + B)) Q :
  hoare F J c (λ r h, opens_plain r ∧ J h) → (∀ m h, J h → Q (inl m) h) →
  (∀ pt, plain pt → hoare F J (k pt) Q) → hoare F J (attempt c k) Q.
Proof.
  intros Hc Hm Hk. apply (hoare_attempt _ _ (λ pt h, plain pt ∧ J h)).
  - eapply hoare_conseq; [exact Hc|done|]. intros [m|pt] h [? ?]; [by apply Hm|done].
  - intros pt. apply hoare_pure, Hk.
Qed.

(** Results without a CONNECTION_CLOSE. *)
Lemma ret_none J (Q : harness (S:=S) → Prop) : (∀ h, J h → Q h) →
  hoare F J (ok None) (then_earned Q).
Proof. intros HQ. apply hoare_ret. intros h Hh. split; [done|by apply HQ]. Qed.

Lemma ret_err J (Q : harness (S:=S) → Prop) m : (∀ h, J h → Q h) →
  hoare F J (err m) (then_earned Q).
Proof. intros HQ. apply hoare_ret. intros h Hh. split; [done|by apply HQ]. Qed.

(** [?] on a step that is not a search. *)
Lemma attempt_step {A} J (c : prog (harness (S:=S)) (string + A)) k (Q : harness (S:=S) → Prop) :
  hoare F J c (λ _, J) → (∀ h, J h → Q h) → (∀ a, hoare F J (k a) (then_earned Q)) →
  hoare F J (attempt c k) (then_earned Q).
Proof.
  intros Hc HQ Hk. apply (hoare_attempt _ _ (λ _, J)); [|done].
  eapply hoare_conseq; [exact Hc|done|]. intros [m|a] h Hh; [split; [done|by apply HQ]|done].
Qed.

(** A search, and what follows when it found nothing. *)
Lemma attempt_search J c next (Q : harness (S:=S) → Prop) :
  hoare F J c (then_earned J) → (∀ h, J h → Q h) → hoare F J next (then_earned Q) →
  hoare F J (attempt c (λ cc, match cc with Some cc => ok (Some cc) | None => next end))
    (then_earned Q).
Proof.
  intros Hc HQ Hn. apply (hoare_attempt _ _ (λ cc h, earned (inr cc) ∧ J h)).
  - eapply hoare_conseq; [exact Hc|done|]. intros [m|cc] h [? ?]; [split; [done|by apply HQ]|done].
  - intros [cc|]; apply hoare_pure; intros He; [|done].
    apply hoare_ret. intros h Hh. split; [done|by apply HQ].
Qed.

(** Keys that were stored can be used. *)
Lemma read_handshake_keys {A} cl b (k : option quic_keys → prog (harness (S:=S)) A) Q :
  hoare F (I cl b) (k None) Q → (∀ ks, usable ks → hoare F (I cl b) (k (Some ks)) Q) →
  hoare F (I cl b) (gets h_handshake_keys ≫= k) Q.
Proof.
  intros Hn Hs. apply hoare_state. intros h Hh. intros h' ->.
  unfold mbind, prog_bind, gets. destruct (h_handshake_keys h) as [ks|] eqn:E; [|by apply Hn].
  apply Hs; [|done]. apply (kept_keys K _ _ _ _ Hh). by left.
Qed.

Lemma read_one_rtt_keys {A} cl b (k : option quic_keys → prog (harness (S:=S)) A) Q :
  hoare F (I cl b) (k None) Q → (∀ ks, usable ks → hoare F (I cl b) (k (Some ks)) Q) →
  hoare F (I cl b) (gets h_one_rtt_keys ≫= k) Q.
Proof.
  intros Hn Hs. apply hoare_state. intros h Hh. intros h' ->.
  unfold mbind, prog_bind, gets. destruct (h_one_rtt_keys h) as [ks|] eqn:E; [|by apply Hn].
  apply Hs; [|done]. apply (kept_keys K _ _ _ _ Hh). by right.
Qed.

(** ** The walk of the handshake *)

Lemma walk_rule pump : (∀ cl b, hoare F (I cl b) pump (λ _, I cl b)) →
  ∀ fuel d offset cl b, wire d → enough fuel d offset →
  hoare F (I cl b) (handshake_walk fuel pump keys d offset) (then_earned (I cl b)).
Proof.
  intros Hpump fuel. induction fuel as [|fuel IH]; intros d offset cl b Hd Hf; simpl;
    (destruct (drop (Z.to_nat offset) d) as [|x rest'] eqn:E; [by apply ret_none|]).
  { by eapply hoare_no_fuel, enough_none. }
  rewrite <- E in *. apply hoare_if; intros _; [by apply ret_none|].
  destruct (parse_long_header _) as [hd|] eqn:Eh; [|by apply ret_err].
  pose proof (enough_next _ _ _ _ Hd Hf Eh) as Hn.
  apply hoare_if; intros _; [by apply ret_err|].
  assert (Hpkt : wire (sub 0 (payload_offset hd + lh_length hd) (drop (Z.to_nat offset) d)))
    by (by apply (kept_sub K), (kept_drop K)).
  assert (Hscan : ∀ pt, plain pt → hoare F (I cl b)
    (attempt (on_conn (scan_plaintext_into_rustls pt)) (λ cc, match cc with
       | Some cc => ok (Some cc)
       | None => handshake_walk fuel pump keys d (offset + (payload_offset hd + lh_length hd))
       end)) (then_earned (I cl b))).
  { intros pt Hpt. apply attempt_search; [by apply (kept_scan K)|done|by apply IH]. }
  apply hoare_if; intros _.
  { apply attempt_opened; [by apply (kept_decrypt K)|done|done]. }
  apply hoare_if; intros _; [|by apply IH].
  apply hoare_read. intros hk. apply attempt_step; [|done|].
  { apply hoare_if; intros _; [by apply hoare_ret|apply Hpump]. }
  intros []. apply read_handshake_keys; [by apply ret_err|]. intros ks Hks.
  apply attempt_opened; [by apply (kept_long K)|done|done].
Qed.

(** ** The drain *)

Lemma drain_walk_rule malformed n : ∀ fuel d offset cl b, wire d → enough fuel d offset →
  hoare F (I cl b) (drain_walk fuel malformed keys n d offset) (then_earned (I cl b)).
Proof.
  induction fuel as [|fuel IH]; intros d offset cl b Hd Hf; simpl;
    (destruct (drop (Z.to_nat offset) d) as [|x rest'] eqn:E; [by apply ret_none|]).
  { by eapply hoare_no_fuel, enough_none. }
  rewrite <- E in *. pose proof (kept_drop K (Z.to_nat offset) d Hd) as Hrest.
  apply hoare_if; intros _.
  { apply read_one_rtt_keys; [by apply ret_none|]. intros ks Hks.
    eapply hoare_bind; [by apply (kept_short K)|].
    intros [m|pt]; apply hoare_pure; intros Hpt; [by apply ret_none|by apply (kept_scan K)]. }
  destruct (parse_long_header _) as [hd|] eqn:Eh; [|by apply ret_err].
  pose proof (enough_next _ _ _ _ Hd Hf Eh) as Hn.
  apply hoare_if; intros _; [by apply ret_none|].
  pose proof (kept_sub K (payload_offset hd + lh_length hd) _ Hrest) as Hpkt.
  apply hoare_if; intros _; [|by apply IH].
  assert (Hopen : ∀ c, hoare F (I cl b) c (λ r h, opens_plain r ∧ I cl b h) →
    hoare F (I cl b)
      (r ← c;
       match r with
       | inl _ => drain_walk fuel malformed keys n d (offset + (payload_offset hd + lh_length hd))
       | inr pt => attempt (on_conn (scan_plaintext_into_rustls pt)) (λ cc, match cc with
           | Some cc => ok (Some cc)
           | None => drain_walk fuel malformed keys n d (offset + (payload_offset hd + lh_length hd))
           end)
       end) (then_earned (I cl b))).
  { intros c Hc. eapply hoare_bind; [exact Hc|].
    intros [m|pt]; apply hoare_pure; intros Hpt; [by apply IH|].
    apply attempt_search; [by apply (kept_scan K)|done|by apply IH]. }
  apply read_handshake_keys; [|intros ks Hks]; apply Hopen;
    (apply hoare_if; intros _; [by apply (kept_decrypt K)|]).
  - by apply hoare_ret.
  - by apply (kept_long K).
Qed.

(** Every iteration but the last takes a reading of the clock. *)
Definition ticks (fuel : nat) (cl : list Z) : Prop := F ∨ (length cl < fuel)%nat.

Definition settled (b : bool) (h : harness (S:=S)) : Prop := ∃ cl, I cl b h.

Lemma now_rule fuel cl b deadline (again : prog (harness (S:=S)) (string + option ConnectionClose)) Q :
  ticks (Datatypes.S fuel) cl → (∀ cl' h, I cl' b h → Q h) →
  (ticks fuel (tail cl) → hoare F (I (tail cl) b) again (then_earned Q)) →
  hoare F (I cl b) (t ← on_io now; if past t deadline then ok None else again) (then_earned Q).
Proof.
  intros Ht HQ Hk. eapply hoare_bind; [apply (kept_now K)|]. intros t. apply hoare_pure. intros ->.
  apply hoare_if; intros Hp; [apply ret_none; intros; by eapply HQ|]. apply Hk.
  destruct Ht as [HF|Ht]; [by left|]. right. destruct cl; simpl in *; [done|lia].
Qed.

Lemma settled_I cl b h : I cl b h → settled b h.
Proof. by eexists. Qed.

Lemma drain_loop_rule malformed n deadline b : ∀ fuel cl, ticks fuel cl →
  hoare F (I cl b) (drain_loop fuel malformed keys n deadline) (then_earned (settled b)).
Proof.
  induction fuel as [|fuel IH]; intros cl Ht; simpl.
  { apply hoare_no_fuel. destruct Ht; [done|lia]. }
  apply (now_rule fuel); [done|by intros; eapply settled_I|]. intros Ht'.
  pose proof (settled_I (tail cl) b) as HI.
  eapply hoare_bind; [apply (kept_recv K)|]. intros [d|[] e]; apply hoare_pure; intros Hd.
  - apply attempt_search; [apply drain_walk_rule; [done|apply enough_start]|done|by apply IH].
  - by apply IH.
  - by apply ret_none.
Qed.

Lemma drain_rule malformed n b :
  hoare F (settled b) (drain env malformed keys n) (then_earned (settled b)).
Proof.
  intros h0 [cl Hcl]. revert h0 Hcl.
  change (hoare F (I cl b) (drain env malformed keys n) (then_earned (settled b))).
  unfold drain. apply (hoare_bind _ _ (λ _, I (tail cl) b)).
  { unfold deadline_in. intros h Hh.
    destruct (kept_now K cl b h Hh) as [_ Hi]. exact Hi. }
  intros deadline. eapply hoare_bind; [apply (kept_os K)|]. intros ?.
  eapply (hoare_bind _ _ (λ clock h, clock = tail cl ∧ I (tail cl) b h)).
  { apply hoare_gets. intros h Hh. split; [by eapply (kept_clock K)|done]. }
  intros clock. apply hoare_pure. intros ->. apply drain_loop_rule. right. lia.
Qed.

(** ** The loops *)

Definition at_end (h : harness (S:=S)) : Prop := ∃ b, settled b h.

Lemma at_end_I cl b h : I cl b h → at_end h.
Proof. by eexists _, _. Qed.

Lemma drain_end malformed n : hoare F at_end (drain env malformed keys n) (then_earned at_end).
Proof.
  intros h [b Hb]. pose proof (drain_rule malformed n b h Hb) as Hd.
  destruct (drain env malformed keys n h) as [r h'| | |]; try done.
  destruct Hd as [? ?]. split; [done|by eexists].
Qed.

(** A datagram and the pump after it. *)
Lemma walk_pump_rule pump cl b d (k : prog (harness (S:=S)) (string + option ConnectionClose)) :
  (∀ cl b, hoare F (I cl b) pump (λ _, I cl b)) → wire d →
  hoare F (I cl b) k (then_earned at_end) →
  hoare F (I cl b)
    (attempt (handshake_walk (length d) pump keys d 0) (λ cc,
       match cc with
       | Some cc => ok (Some cc)
       | None => attempt pump (λ _, k)
       end)) (then_earned at_end).
Proof.
  intros Hpump Hd Hk. pose proof (at_end_I cl b) as HI.
  apply attempt_search; [apply (walk_rule pump Hpump); [done|apply enough_start]|done|].
  by apply attempt_step.
Qed.

Lemma full_loop_rule pump_fuel d s deadline b :
  (∀ cl b, hoare F (I cl b) (pump_rustls_write_hs pump_fuel d s keys) (λ _, I cl b)) →
  ∀ fuel cl, ticks fuel cl →
  hoare F (I cl b) (full_loop fuel pump_fuel d s keys deadline) (then_earned at_end).
Proof.
  intros Hpump. induction fuel as [|fuel IH]; intros cl Ht; simpl.
  { apply hoare_no_fuel. destruct Ht; [done|lia]. }
  apply (now_rule fuel); [done|by intros; eapply at_end_I|]. intros Ht'.
  pose proof (at_end_I (tail cl) b) as HI. apply hoare_read. intros hs.
  apply hoare_if; intros _; [by apply ret_none|].
  eapply hoare_bind; [apply (kept_recv K)|]. intros [p|[] e]; apply hoare_pure; intros Hp.
  - apply walk_pump_rule; [done|done|by apply IH].
  - by apply ret_none.
  - by apply ret_err.
Qed.

(** Whether the injection was sent, after trying to. *)
Definition sent_now (r : string + unit) : bool := match r with inl _ => false | inr _ => true end.

Section Injection.
Context (pump_fuel : nat) (inj : Injection) (d s : bytes).
Hypothesis Hpump : ∀ cl b, hoare F (I cl b) (pump_for pump_fuel inj d s keys) (λ _, I cl b).
Hypothesis Hinject : ∀ cl, hoare F (I cl false) (inject_once inj d s) (λ r, I cl (sent_now r)).

Lemma inject_rule b cl (k : prog (harness (S:=S)) (string + option ConnectionClose)) ready :
  (∀ b, hoare F (I cl b) k (then_earned at_end)) →
  hoare F (I cl b) (if negb b && ready then attempt (inject_once inj d s) (λ _, k) else k)
    (then_earned at_end).
Proof.
  intros Hk. destruct b; simpl; [apply Hk|]. destruct ready; [|apply Hk].
  eapply (hoare_attempt _ _ (λ _, I cl true)); [|done].
  eapply hoare_conseq; [apply Hinject|done|].
  intros [?|?] ? ?; [split; [done|by eapply at_end_I]|done].
Qed.

Lemma injection_loop_rule deadline : ∀ fuel cl b, ticks fuel cl →
  hoare F (I cl b) (injection_loop fuel pump_fuel inj d s keys deadline) (then_earned at_end).
Proof.
  induction fuel as [|fuel IH]; intros cl b Ht; simpl.
  { apply hoare_no_fuel. destruct Ht; [done|lia]. }
  apply (now_rule fuel); [done|by intros; eapply at_end_I|]. intros Ht'.
  pose proof (at_end_I (tail cl) b) as HI. apply hoare_read. intros hs.
  apply (hoare_bind _ _ (λ i h, i = b ∧ I (tail cl) b h)).
  { apply hoare_gets. intros h Hh. split; [by eapply (kept_injected K)|done]. }
  intros i. apply hoare_pure. intros ->. apply hoare_if; intros _; [by apply ret_none|].
  eapply hoare_bind; [apply (kept_recv K)|]. intros [p|[] e]; apply hoare_pure; intros Hp.
  - apply walk_pump_rule; [done|done|]. apply hoare_read. intros hk. apply hoare_read. intros ork.
    apply inject_rule. intros b'. by apply IH.
  - apply hoare_read. intros hk. apply inject_rule. intros b'. by apply IH.
  - by apply ret_err.
Qed.
End Injection.
End Rules.

(** ** From the first flight to the end

    [I] holds until the driver has its Initial keys, [J] of these from then on
    and [E] when they are released. *)

Section Bodies.
Context {R : Rustls} {S : Type} `{KeysApi S} (env : environment).
Context (F : Prop) (wire plain : bytes → Prop) (usable : quic_keys → Prop).
Context (found : ConnectionClose → Prop) (d s : bytes).
Context (I : list Z → bool → harness (S:=S) → Prop) (J : Z → list Z → bool → harness (S:=S) → Prop).
Context (E : harness (S:=S) → Prop).
Hypothesis K : ∀ keys, kept F wire plain usable found keys (J keys).
Hypothesis Hcids : ∀ cl b h, I cl b h → dcid (h_builder h) = d ∧ scid (h_builder h) = s.
Hypothesis Hkeys : ∀ cl b, hoare F (I cl b) (on_shim (initial_keys Client d))
  (λ r h, match r with inl _ => E h | inr keys => J keys cl b h end).
Hypothesis Hdrop : ∀ cl b keys, hoare F (J keys cl b) (on_shim (keys_drop keys)) (λ _, E).
Hypothesis Hopen : ∀ keys cl b, hoare F (J keys cl b) (on_io open_socket) (λ _, J keys cl b).
Hypothesis Hfirst : ∀ cl b keys,
  hoare F (J keys cl b) (first_flight "send Initial" keys) (λ _, J keys cl b).

Lemma with_keys_rule cl b (body : Z → prog (harness (S:=S)) (string + option ConnectionClose)) :
  (∀ keys, hoare F (J keys cl b) (body keys) (then_earned found (at_end (J keys)))) →
  hoare F (I cl b) (with_client_keys (@on_shim R S) d body) (then_earned found E).
Proof.
  intros Hb. eapply hoare_bind; [apply Hkeys|].
  intros [code|keys]; [by apply ret_err|].
  eapply hoare_bind; [by apply Hb|]. intros r. apply (hoare_bind _ _ (λ _, then_earned found E r)).
  - intros h (Hr & b' & cl' & Hh). pose proof (Hdrop cl' b' keys h Hh) as Hd.
    by destruct (on_shim (keys_drop keys) h).
  - intros. by apply hoare_ret.
Qed.

(** A loop between the first flight and the drain. *)
Lemma body_rule (loop : Z → nat → option Z → prog (harness (S:=S)) (string + option ConnectionClose))
    malformed cl b :
  (∀ keys deadline fuel cl, ticks F fuel cl →
     hoare F (J keys cl b) (loop keys fuel deadline) (then_earned found (at_end (J keys)))) →
  hoare F (I cl b)
    (with_client_keys (@on_shim R S) d (λ keys,
      attempt (on_io open_socket) (λ _,
      attempt (first_flight "send Initial" keys) (λ _,
      deadline ← on_io (deadline_in (as_u64 (timeout_ms env * 4)));
      clock ← gets (λ h, io_clock (h_io h));
      attempt (loop keys (Datatypes.S (length clock)) deadline) (λ cc,
      match cc with
      | Some cc => ok (Some cc)
      | None => drain env malformed keys (zlen s)
      end))))) (then_earned found E).
Proof.
  intros Hloop. apply with_keys_rule. intros keys. specialize (K keys).
  pose proof (at_end_I (J keys) cl b) as HI. apply attempt_step; [apply Hopen|done|]. intros _.
  apply attempt_step; [apply Hfirst|done|]. intros _. apply (hoare_bind _ _ (λ _, J keys (tail cl) b)).
  { intros h Hh. destruct (kept_now _ _ _ _ _ _ _ K cl b h Hh) as [_ Hi]. exact Hi. }
  intros deadline. apply (hoare_bind _ _ (λ clock h, clock = tail cl ∧ J keys (tail cl) b h)).
  { apply hoare_gets. intros h Hh. split; [by eapply (kept_clock _ _ _ _ _ _ _ K)|done]. }
  intros clock. apply hoare_pure. intros ->.
  apply (hoare_attempt _ _ (λ cc h, earned found (inr cc) ∧ at_end (J keys) h)).
  - eapply hoare_conseq; [apply (Hloop keys deadline _ (tail cl)); right; lia|done|]. by intros [?|?].
  - intros [cc|]; apply hoare_pure; intros He; [by apply hoare_ret|].
    by apply (drain_end env F wire plain usable found keys (J keys) K).
Qed.

Lemma cids_rule {A} cl b (k : bytes → bytes → prog (harness (S:=S)) A) Q :
  hoare F (I cl b) (k d s) Q →
  hoare F (I cl b) (dc ← gets (λ h, dcid (h_builder h)); sc ← gets (λ h, scid (h_builder h)); k dc sc) Q.
Proof.
  intros Hk h Hh. destruct (Hcids _ _ _ Hh) as [<- <-]. exact (Hk h Hh).
Qed.

Lemma full_body_rule pump_fuel cl b :
  (∀ keys cl b, hoare F (J keys cl b) (pump_rustls_write_hs pump_fuel d s keys) (λ _, J keys cl b)) →
  hoare F (I cl b) (full_body env pump_fuel) (then_earned found E).
Proof.
  intros Hp. unfold full_body. apply cids_rule.
  apply (body_rule (λ keys fuel deadline, full_loop fuel pump_fuel d s keys deadline)).
  intros keys deadline fuel cl' Ht.
  by apply (full_loop_rule F wire plain usable found keys (J keys) (K keys)).
Qed.

Lemma injection_body_rule pump_fuel inj cl :
  (∀ keys cl b, hoare F (J keys cl b) (pump_for pump_fuel inj d s keys) (λ _, J keys cl b)) →
  (∀ keys cl, hoare F (J keys cl false) (inject_once inj d s) (λ r, J keys cl (sent_now r))) →
  hoare F (I cl false) (injection_body env pump_fuel inj) (then_earned found E).
Proof.
  intros Hp Hi. unfold injection_body. apply cids_rule.
  apply (body_rule (λ keys fuel deadline, injection_loop fuel pump_fuel inj d s keys deadline)).
  intros keys deadline fuel cl' Ht.
  by apply (injection_loop_rule F wire plain usable found keys (J keys) (K keys)).
Qed.
End Bodies.
End DriverRules.
