(* ===== verification/DriverTrace.v ===== *)
(** * What the drivers send

    An abstract sender, with the packet numbers of the three spaces and whether
    the injection was sent, says which packet may be sent when. A run of a
    driver that returns is a run of the sender: what it added to the log is the
    packets of the steps. The properties of the log follow by induction on the
    steps. *)

From S2P Require Import Prelude Effects Handles Rustls World Utf8 Varint Toy.
From S2P Require Import QuicKeysFacts QuicPacket QuicPacketFacts FrameScan RustlsPackets.
From S2P Require Import Hoare Drivers DriverRules.
Import Effects Handles Rustls World Utf8 Varint Toy.
Import QuicKeysFacts QuicPacket QuicPacketFacts FrameScan RustlsPackets Hoare Drivers DriverRules.

Module DriverTrace.

(** ** The sender *)

Section Sender.
Context {R : Rustls} {S : Type} `{KeysApi S}.

(** Packets built with rustls keys: what the builders return, if not an error. *)
Definition packet_of (c : prog unit (string + bytes)) : option bytes :=
  match c tt with Ret (inr pkt) _ => Some pkt | _ => None end.

Definition handshake_packet (d s : bytes) (pn : Z) (data : bytes) (k : dir_keys) : option bytes :=
  packet_of (build_handshake_packet d s pn data k).

Definition one_rtt_packet (d : bytes) (pn : Z) (data : bytes) (k : dir_keys) : option bytes :=
  packet_of (frame ← encode_crypto_frame 0 data; build_short_header_crypto_packet d pn frame k).

Record sender := {
  s_builder : PacketBuilder;
  s_hs_pn : Z;
  s_one_rtt_pn : Z;
  s_injected : bool;
}.

Definition initial_labels : list string :=
  ["send Initial"; "send Initial (pump)"; "send Initial (pump-discarding)"].

(** One packet of a driver with the given injection, if it has one. *)
Inductive transmits (m : option Injection) : sender → string * bytes → sender → Prop :=
  | tx_initial b hs ort i what out keys pkt (w w' : S) :
      what ∈ initial_labels → encode_initial b out keys w = Ret (pkt, next_pn b) w' →
      transmits m
        {| s_builder := b; s_hs_pn := hs; s_one_rtt_pn := ort; s_injected := i |} (what, pkt)
        {| s_builder := next_pn b; s_hs_pn := hs; s_one_rtt_pn := ort; s_injected := i |}
  | tx_handshake b hs ort i out k pkt :
      (∀ inj, m = Some inj → epoch inj = EpochOneRtt) →
      handshake_packet (dcid b) (scid b) hs out k = Some pkt →
      transmits m
        {| s_builder := b; s_hs_pn := hs; s_one_rtt_pn := ort; s_injected := i |}
        ("send Handshake", pkt)
        {| s_builder := b; s_hs_pn := as_u64 (hs + 1); s_one_rtt_pn := ort; s_injected := i |}
  | tx_inject_handshake b hs ort inj k pkt :
      m = Some inj → epoch inj = EpochHandshake →
      handshake_packet (dcid b) (scid b) hs (inj_bytes inj) k = Some pkt →
      transmits m
        {| s_builder := b; s_hs_pn := hs; s_one_rtt_pn := ort; s_injected := false |}
        ("send Handshake injection", pkt)
        {| s_builder := b; s_hs_pn := as_u64 (hs + 1); s_one_rtt_pn := ort; s_injected := true |}
  | tx_inject_one_rtt b hs ort inj k pkt :
      m = Some inj → epoch inj = EpochOneRtt →
      one_rtt_packet (dcid b) ort (inj_bytes inj) k = Some pkt →
      transmits m
        {| s_builder := b; s_hs_pn := hs; s_one_rtt_pn := ort; s_injected := false |}
        ("send 1-RTT injection", pkt)
        {| s_builder := b; s_hs_pn := hs; s_one_rtt_pn := as_u64 (ort + 1); s_injected := true |}.

(** An Initial packet that could not be sent has used its number. *)
Definition skip_initial (a : sender) : sender :=
  {| s_builder := next_pn (s_builder a); s_hs_pn := s_hs_pn a; s_one_rtt_pn := s_one_rtt_pn a;
     s_injected := s_injected a |}.

Inductive sends (m : option Injection) (a : sender) : list (string * bytes) → sender → Prop :=
  | sends_nil : sends m a [] a
  | sends_lost l b : sends m a l b → sends m a l (skip_initial b)
  | sends_snoc l e b c : sends m a l b → transmits m b e c → sends m a (l ++ [e]) c.

Definition sender_of (h : harness (S:=S)) : sender :=
  {| s_builder := h_builder h; s_hs_pn := h_hs_send_pn h; s_one_rtt_pn := h_one_rtt_send_pn h;
     s_injected := h_injected h |}.

(** ** Builders do not look at the state *)

Definition stateless {A} (c : ∀ X, prog X A) : Prop :=
  ∀ X (x : X), c X x = match c unit tt with
                       | Ret a _ => Ret a x
                       | Panic m => Panic m
                       | Undef => Undef
                       | NoFuel => NoFuel
                       end.

Lemma stateless_ret {A} (a : A) : stateless (λ X, mret a : prog X A).
Proof. done. Qed.

Lemma stateless_bind {A B} (c : ∀ X, prog X A) (k : ∀ X, A → prog X B) :
  stateless c → (∀ a, stateless (λ X, k X a)) → stateless (λ X, c X ≫= k X).
Proof.
  intros Hc Hk X x. unfold mbind, prog_bind. rewrite (Hc X x).
  destruct (c unit tt) as [a []| | |]; try done. apply Hk.
Qed.

Lemma push_varint_stateless v out : stateless (λ X, push_varint (S:=X) v out).
Proof. intros X x. unfold push_varint. by destruct (encode_varint v out). Qed.

Lemma seal_packet_stateless n1 n2 n3 hdr off pn pt k :
  stateless (λ X, seal_packet (S:=X) n1 n2 n3 hdr off pn pt k).
Proof.
  intros X x. unfold seal_packet. destruct (pkey_encrypt_in_place _ _ _ _) as [? [?|?]]; [done|].
  cbv zeta. destruct (_ <? _); [done|].
  by destruct (hkey_encrypt_in_place _ _ _ _) as [[? ?] [?|?]].
Qed.

Lemma build_handshake_stateless d s pn data k :
  stateless (λ X, build_handshake_packet (S:=X) d s pn data k).
Proof.
  unfold build_handshake_packet.
  repeat (apply stateless_bind; [apply push_varint_stateless|intros]).
  apply seal_packet_stateless.
Qed.

Lemma crypto_frame_stateless offset data :
  stateless (λ X, encode_crypto_frame (S:=X) offset data).
Proof.
  unfold encode_crypto_frame. repeat (apply stateless_bind; [apply push_varint_stateless|intros]).
  apply stateless_ret.
Qed.

Lemma one_rtt_stateless d pn data k :
  stateless (λ X, frame ← encode_crypto_frame (S:=X) 0 data;
                  build_short_header_crypto_packet (S:=X) d pn frame k).
Proof.
  apply stateless_bind; [apply crypto_frame_stateless|intros; apply seal_packet_stateless].
Qed.

Lemma stateless_cases {X} (c : ∀ X, prog X (string + bytes)) (x : X) : stateless c →
  match c X x with
  | Ret (inl _) x' => x' = x
  | Ret (inr pkt) x' => x' = x ∧ packet_of (c unit) = Some pkt
  | _ => True
  end.
Proof.
  intros Hc. rewrite Hc. unfold packet_of. by destruct (c unit tt) as [[?|?] []| | |].
Qed.

Lemma encode_initial_builder b out keys (w : S) pkt b' w' :
  encode_initial b out keys w = Ret (pkt, b') w' → b' = next_pn b.
Proof.
  intros E. revert E. apply (hoare_run True (λ _, True) _ (λ r _, r.2 = next_pn b)); [|done].
  unfold encode_initial, encode_long.
  repeat (eapply hoare_bind; [apply hoare_any|intros; simpl]).
  repeat case_match; repeat (eapply hoare_bind; [apply hoare_any|intros; simpl]); by apply hoare_ret.
Qed.
Lemma decrypt_long_stateless pkt hd k :
  stateless (λ X, decrypt_long_with_rustls (S:=X) pkt hd k).
Proof.
  intros X x. unfold decrypt_long_with_rustls. cbv zeta. destruct (_ <? _); [done|].
  destruct (hkey_decrypt_in_place _ _ _ _) as [[? ?] [?|?]]; [done|].
  do 2 (destruct (_ <? _); [done|]). by destruct (pkey_decrypt_in_place _ _ _ _).2.
Qed.

Lemma decrypt_short_stateless pkt n k :
  stateless (λ X, decrypt_short_with_rustls (S:=X) pkt n k).
Proof.
  intros X x. unfold decrypt_short_with_rustls. cbv zeta. destruct (_ || _); [done|].
  destruct (_ <? _); [done|]. destruct (hkey_decrypt_in_place _ _ _ _) as [[? ?] [?|?]]; [done|].
  by destruct (pkey_decrypt_in_place _ _ _ _).2.
Qed.

Lemma stateless_keeps {A X} (c : ∀ X, prog X A) (P : X → Prop) :
  stateless c → hoare True P (c X) (λ _, P).
Proof. intros Hc x Hx. rewrite Hc. by destruct (c unit tt). Qed.
End Sender.

(** ** The drivers are senders *)

Section Trace.
Context {R : Rustls} {S : Type} `{KeysApi S} (env : environment).
Context (m : option Injection) (b0 : PacketBuilder) (log0 : list (string * bytes)).

Definition new_sender : sender :=
  {| s_builder := b0; s_hs_pn := 0; s_one_rtt_pn := 0; s_injected := false |}.

Record traced (cl : list Z) (b : bool) (h : harness (S:=S)) : Prop := {
  traced_clock : io_clock (h_io h) = cl;
  traced_injected : h_injected h = b;
  traced_dcid : dcid (h_builder h) = dcid b0;
  traced_scid : scid (h_builder h) = scid b0;
  traced_log : ∃ new, io_log (h_io h) = log0 ++ new ∧
    sends (S:=S) m new_sender new (sender_of h);
}.

(** What does not send. *)
Lemma traced_same cl b h h' :
  io_clock (h_io h') = io_clock (h_io h) → io_log (h_io h') = io_log (h_io h) →
  sender_of h' = sender_of h → traced cl b h → traced cl b h'.
Proof.
  intros Hc Hl Hs [? ? ? ? ?]. inversion Hs as [[Hb Hh Ho Hi]].
  split; rewrite ?Hc, ?Hl, ?Hs, ?Hb, ?Hi; done.
Qed.

Lemma traced_shim {A} (c : prog S A) cl b :
  hoare True (traced cl b) (on_shim c) (λ _, traced cl b).
Proof.
  eapply hoare_lift; [apply (hoare_any (λ _, True))|done|].
  intros h a x Hh _. by apply (traced_same _ _ h).
Qed.

Lemma traced_conn {A} (c : prog qclient A) cl b :
  hoare True (traced cl b) (on_conn c) (λ _, traced cl b).
Proof.
  eapply hoare_lift; [apply (hoare_any (λ _, True))|done|].
  intros h a x Hh _. by apply (traced_same _ _ h).
Qed.

Lemma traced_os cl b : hoare True (traced cl b) (on_io os_result) (λ _, traced cl b).
Proof. intros h Hh. by apply (traced_same _ _ h). Qed.

Lemma traced_os_call what cl b :
  hoare True (traced cl b) (on_io (os_call what)) (λ _, traced cl b).
Proof.
  intros h Hh. unfold on_io, lift, os_call, os_result, mbind, prog_bind.
  destruct (default None _); by apply (traced_same _ _ h).
Qed.

Lemma traced_open cl b : hoare True (traced cl b) (on_io open_socket) (λ _, traced cl b).
Proof.
  intros h Hh. unfold on_io, lift, open_socket, attempt, os_call, os_result, mbind, prog_bind.
  destruct (default None _); [by apply (traced_same _ _ h)|].
  simpl. destruct (default None _); by apply (traced_same _ _ h).
Qed.

Lemma traced_kept keys :
  kept True (λ _, True) (λ _, True) (λ _, True) (λ _, True) keys traced.
Proof.
  split; intros; try (by left); try done.
  - by eapply traced_clock.
  - by eapply traced_injected.
  - intros h [Hc ? ? ? ?]. split; [by rewrite Hc|]. split; simpl; try done. by rewrite Hc.
  - apply traced_os.
  - intros h Hh. unfold on_io, lift, recv_from.
    destruct (head _) as [[?|? ?]|]; (split; [done|by apply (traced_same _ _ h)]).
  - eapply hoare_conseq; [apply traced_shim|done|]. by intros [?|?].
  - eapply hoare_conseq;
      [apply (stateless_keeps (λ X, decrypt_long_with_rustls (S:=X) pkt hd k.2)), decrypt_long_stateless|done|].
    by intros [?|?].
  - eapply hoare_conseq;
      [apply (stateless_keeps (λ X, decrypt_short_with_rustls (S:=X) pkt n k.2)), decrypt_short_stateless|done|].
    by intros [?|?].
  - eapply hoare_conseq; [apply traced_conn|done|]. by intros [?|[?|]].
Qed.

Lemma traced_keys d cl b : hoare True (traced cl b) (on_shim (initial_keys Client d))
  (λ r h, match r with inl _ => at_end traced h | inr _ => traced cl b h end).
Proof. eapply hoare_conseq; [apply traced_shim|done|]. intros [?|?] h Hh; [exact (at_end_I traced cl b h Hh)|exact Hh]. Qed.

Lemma traced_drop keys cl b : hoare True (traced cl b) (on_shim (keys_drop keys)) (λ _, at_end traced).
Proof. eapply hoare_conseq; [apply traced_shim|done|]. intros ? h Hh. exact (at_end_I traced cl b h Hh). Qed.

(** What sends: one more packet at the end of the log. *)
Lemma traced_sent cl b b' h h' e :
  io_clock (h_io h') = io_clock (h_io h) → io_log (h_io h') = io_log (h_io h) ++ [e] →
  h_injected h' = b' → dcid (h_builder h') = dcid (h_builder h) →
  scid (h_builder h') = scid (h_builder h) → transmits (S:=S) m (sender_of h) e (sender_of h') →
  traced cl b h → traced cl b' h'.
Proof.
  intros Hc Hl Hi Hd Hs Ht [? ? ? ? (new & Hlog & Hsends)]. split; try congruence.
  exists (new ++ [e]). rewrite Hl, Hlog, app_assoc. split; [done|]. by eapply sends_snoc.
Qed.

(** A call to the socket. *)
Lemma send_to_cases what pkt (i : io) :
  ∃ rest, send_to what pkt i = Ret (inr tt) {| io_inbox := io_inbox i; io_clock := io_clock i;
      io_results := rest; io_log := io_log i ++ [(what, pkt)] |} ∨
    ∃ e, send_to what pkt i = Ret (inl e) {| io_inbox := io_inbox i; io_clock := io_clock i;
      io_results := rest; io_log := io_log i |}.
Proof.
  exists (tail (io_results i)). unfold send_to, attempt, os_call, os_result, mbind, prog_bind.
  destruct (default None _) as [e|]; [right; by eexists|by left].
Qed.

Lemma traced_initial what out keys cl b : what ∈ initial_labels →
  hoare True (traced cl b) (send_initial what out keys) (λ _, traced cl b).
Proof.
  intros Hw h Hh. unfold send_initial, on_shim, on_io, lift, mbind, prog_bind, gets, modify. simpl.
  destruct (encode_initial _ _ _ _) as [[pkt b'] w'| | |] eqn:E; try done.
  pose proof (encode_initial_builder _ _ _ _ _ _ _ E) as ->. simpl.
  destruct (send_to_cases what pkt (h_io h)) as (rest & [->|[e ->]]).
  - apply (traced_sent cl b b h _ (what, pkt)); try done; [apply Hh|]. by eapply tx_initial.
  - destruct Hh as [? ? ? ? (new & ? & ?)]. split; try done. exists new. split; [done|].
    by apply (sends_lost _ _ _ (sender_of h)).
Qed.

Lemma traced_handshake out hs cl b : (∀ inj, m = Some inj → epoch inj = EpochOneRtt) →
  hoare True (traced cl b) (send_handshake "send Handshake" (dcid b0) (scid b0) out hs)
    (λ _, traced cl b).
Proof.
  intros Hm h Hh. unfold send_handshake, attempt, on_io, lift, mbind, prog_bind, gets, modify.
  pose proof (stateless_cases _ h (build_handshake_stateless (dcid b0) (scid b0)
    (h_hs_send_pn h) out hs.1)) as Hb. cbv beta in Hb.
  destruct (build_handshake_packet _ _ _ _ _ h) as [[e|pkt] h1| | |]; try done; [by subst|].
  destruct Hb as [-> E]. simpl.
  destruct (send_to_cases "send Handshake" pkt (h_io h)) as (rest & [->|[e ->]]);
    [|by apply (traced_same _ _ h)].
  apply (traced_sent cl b b h _ ("send Handshake", pkt)); try done; [apply Hh|].
  eapply tx_handshake; [done|]. by rewrite (traced_dcid _ _ _ Hh), (traced_scid _ _ _ Hh).
Qed.

Lemma traced_inject inj cl : m = Some inj →
  hoare True (traced cl false) (inject_once inj (dcid b0) (scid b0)) (λ r, traced cl (sent_now r)).
Proof.
  intros Hm h Hh. pose proof (traced_dcid _ _ _ Hh) as Hd. pose proof (traced_scid _ _ _ Hh) as Hs.
  pose proof (traced_injected _ _ _ Hh) as Hi.
  unfold inject_once, inject_now, send_handshake, attempt, on_io, lift, mbind, prog_bind, gets, modify.
  destruct (epoch inj) eqn:He.
  - destruct (h_handshake_keys h) as [hs|]; [|done].
    pose proof (stateless_cases _ h (build_handshake_stateless (dcid b0) (scid b0)
      (h_hs_send_pn h) (inj_bytes inj) hs.1)) as Hb. cbv beta in Hb.
    destruct (build_handshake_packet _ _ _ _ _ h) as [[e|pkt] h1| | |]; try done; [by subst|].
    destruct Hb as [-> E]. simpl.
    destruct (send_to_cases "send Handshake injection" pkt (h_io h)) as (rest & [->|[e ->]]);
      [|by apply (traced_same _ _ h)].
    apply (traced_sent cl false true h _ ("send Handshake injection", pkt)); try done.
    unfold sender_of. simpl. rewrite Hi. eapply tx_inject_handshake; [done|done|].
    by rewrite Hd, Hs.
  - destruct (h_one_rtt_keys h) as [k|]; [|done].
    pose proof (stateless_cases _ h (one_rtt_stateless (dcid b0) (h_one_rtt_send_pn h)
      (inj_bytes inj) k.1)) as Hb. cbv beta in Hb. unfold mbind, prog_bind in Hb.
    pose proof (crypto_frame_stateless 0 (inj_bytes inj) _ h) as Hf. cbv beta in Hf.
    destruct (encode_crypto_frame 0 (inj_bytes inj) h) as [fr h1| | |]; try done.
    assert (h1 = h) as -> by (destruct (encode_crypto_frame 0 (inj_bytes inj) tt); congruence).
    destruct (build_short_header_crypto_packet _ _ _ _ h) as [[e|pkt] h1| | |]; try done; [by subst|].
    destruct Hb as [-> E]. simpl.
    destruct (send_to_cases "send 1-RTT injection" pkt (h_io h)) as (rest & [->|[e ->]]);
      [|by apply (traced_same _ _ h)].
    apply (traced_sent cl false true h _ ("send 1-RTT injection", pkt)); try done.
    unfold sender_of. simpl. rewrite Hi. apply (tx_inject_one_rtt _ _ _ _ inj k.1); [done|done|].
    rewrite Hd. exact E.
Qed.
Lemma traced_store kc cl b : hoare True (traced cl b) (store_keys kc) (λ _, traced cl b).
Proof. intros h Hh. by destruct kc as [[? ?|? ? ?]|]; apply (traced_same _ _ h). Qed.

Lemma traced_pump keys : (∀ inj, m = Some inj → epoch inj = EpochOneRtt) → ∀ fuel cl b,
  hoare True (traced cl b) (pump_rustls_write_hs fuel (dcid b0) (scid b0) keys) (λ _, traced cl b).
Proof.
  intros Hm. induction fuel as [|fuel IH]; intros cl b; [by apply hoare_no_fuel|]. simpl.
  eapply hoare_bind; [apply traced_conn|]. intros [out kc].
  apply hoare_if; intros _; [by apply hoare_ret|]. do 2 (apply hoare_read; intros ?).
  apply hoare_attempt_keep.
  - repeat case_match; try (by apply hoare_ret); [by apply traced_handshake|].
    apply traced_initial. set_solver.
  - intros []. eapply hoare_bind; [apply traced_store|]. intros []. apply IH.
Qed.

Lemma traced_pump_discarding keys : ∀ fuel cl b,
  hoare True (traced cl b) (pump_rustls_write_hs_discarding_finished fuel keys) (λ _, traced cl b).
Proof.
  induction fuel as [|fuel IH]; intros cl b; [by apply hoare_no_fuel|]. simpl.
  eapply hoare_bind; [apply traced_conn|]. intros [out kc].
  apply hoare_if; intros _; [by apply hoare_ret|]. apply hoare_read. intros ?.
  apply hoare_attempt_keep.
  - case_match; [|by apply hoare_ret]. apply traced_initial. set_solver.
  - intros []. eapply hoare_bind; [apply traced_store|]. intros []. apply IH.
Qed.

Lemma traced_first keys cl b :
  hoare True (traced cl b) (first_flight "send Initial" keys) (λ _, traced cl b).
Proof.
  eapply hoare_bind; [apply traced_conn|]. intros [out kc].
  do 2 (apply hoare_if; intros _; [by apply hoare_ret|]). apply traced_initial. set_solver.
Qed.

Lemma traced_cids cl b h :
  traced cl b h → dcid (h_builder h) = dcid b0 ∧ scid (h_builder h) = scid b0.
Proof. intros Hh. split; apply Hh. Qed.

Lemma full_traced pump_fuel cl b : m = None →
  hoare True (traced cl b) (full_body env pump_fuel) (λ _, at_end traced).
Proof.
  intros Hm. eapply (hoare_conseq _ _ (traced cl b) _ (then_earned (λ _, True) (at_end traced)));
    [|done|by intros ? ? [_ ?]].
  apply (full_body_rule env True (λ _, True) (λ _, True) (λ _, True) (λ _, True)
           (dcid b0) (scid b0) traced (λ _, traced) (at_end traced)); intros.
  - apply traced_kept.
  - by eapply traced_cids.
  - apply traced_keys.
  - apply traced_drop.
  - apply traced_open.
  - apply traced_first.
  - apply traced_pump. by rewrite Hm.
Qed.

Lemma injection_traced pump_fuel inj cl : m = Some inj →
  hoare True (traced cl false) (injection_body env pump_fuel inj) (λ _, at_end traced).
Proof.
  intros Hm. eapply (hoare_conseq _ _ (traced cl false) _ (then_earned (λ _, True) (at_end traced)));
    [|done|by intros ? ? [_ ?]].
  apply (injection_body_rule env True (λ _, True) (λ _, True) (λ _, True) (λ _, True)
           (dcid b0) (scid b0) traced (λ _, traced) (at_end traced)); intros.
  - apply traced_kept.
  - by eapply traced_cids.
  - apply traced_keys.
  - apply traced_drop.
  - apply traced_open.
  - apply traced_first.
  - unfold pump_for. destruct (epoch inj) eqn:He; [apply traced_pump_discarding|].
    apply traced_pump. intros inj' [= ->]%(eq_trans (eq_sym Hm)). done.
  - by apply traced_inject.
Qed.

(** From the start to the end of a driver. *)
Lemma connection_traced (body : prog harness (string + option ConnectionClose)) tp config p r p' :
  io_log p.2 = log0 → hoare True (traced (io_clock p.2) false) body (λ _, at_end traced) →
  with_connection b0 tp config body p = Ret r p' →
  ∃ new a, io_log p'.2 = log0 ++ new ∧ sends (S:=S) m new_sender new a.
Proof.
  intros Hl Hb. unfold with_connection. destruct (new_connection config tp) as [e|conn].
  - intros [= <- <-]. exists [], new_sender. rewrite app_nil_r. split; [done|constructor].
  - destruct (body (start p conn b0)) as [a h| | |] eqn:E; try done. intros [= -> <-].
    eapply hoare_run in E; [|exact Hb|].
    + destruct E as (b & cl & [? ? ? ? (new & ? & ?)]). by eexists new, _.
    + split; try done. exists []. rewrite app_nil_r. split; [done|constructor].
Qed.
End Trace.

Section Runs.
Context {R : Rustls} {S : Type} `{KeysApi S} (env : environment).

Lemma full_sends pump_fuel b tp (p : process (S:=S)) r p' :
  drive_handshake_full env pump_fuel b tp p = Ret r p' →
  ∃ new a, io_log p'.2 = io_log p.2 ++ new ∧ sends (S:=S) None (new_sender b) new a.
Proof. apply connection_traced; [done|]. by apply full_traced. Qed.

Lemma injection_sends pump_fuel b tp inj (p : process (S:=S)) r p' :
  drive_handshake_with_injection env pump_fuel b tp inj p = Ret r p' →
  ∃ new a, io_log p'.2 = io_log p.2 ++ new ∧ sends (S:=S) (Some inj) (new_sender b) new a.
Proof.
  unfold drive_handshake_with_injection. case_if.
  - intros [= <- <-]. eexists [], _. rewrite app_nil_r. split; [done|constructor].
  - apply connection_traced; [done|]. by apply injection_traced.
Qed.
(** ** Properties of a sender's runs *)

Definition handshake_labels : list string := ["send Handshake"; "send Handshake injection"].

Definition is_handshake (e : string * bytes) : Prop := e.1 ∈ handshake_labels.
Definition is_one_rtt (e : string * bytes) : Prop := e.1 = "send 1-RTT injection".
Definition not_initial (e : string * bytes) : Prop := e.1 ∉ initial_labels.

#[global] Instance is_handshake_dec e : Decision (is_handshake e).
Proof. unfold is_handshake. apply _. Defined.
#[global] Instance is_one_rtt_dec e : Decision (is_one_rtt e).
Proof. unfold is_one_rtt. apply _. Defined.
#[global] Instance not_initial_dec e : Decision (not_initial e).
Proof. unfold not_initial. apply _. Defined.

Lemma filter_snoc_yes {A} (P : A → Prop) `{!∀ x, Decision (P x)} l x :
  P x → filter P (l ++ [x]) = filter P l ++ [x].
Proof. intros. by rewrite filter_app, filter_cons_True, filter_nil. Qed.

Lemma filter_snoc_no {A} (P : A → Prop) `{!∀ x, Decision (P x)} l x :
  ¬ P x → filter P (l ++ [x]) = filter P l.
Proof. intros. by rewrite filter_app, filter_cons_False, filter_nil, app_nil_r. Qed.

(** Facts about concrete labels, by evaluation. *)
#[local] Ltac by_label := apply (bool_decide_unpack _); vm_compute; reflexivity.

#[local] Ltac by_labels :=
  let Hw := fresh "Hw" in intros Hw;
  repeat (apply elem_of_cons in Hw as [->|Hw];
          [by_label|]);
  by apply elem_of_nil in Hw.

Lemma initial_label_not_handshake what pkt : what ∈ initial_labels → ¬ is_handshake (what, pkt).
Proof. unfold is_handshake. simpl. by_labels. Qed.


Lemma as_u64_next n : as_u64 (as_u64 n + 1) = as_u64 (n + 1).
Proof. unfold as_u64. by rewrite Zplus_mod_idemp_l. Qed.

Section Numbers.
Context (m : option Injection) (b : PacketBuilder).

(** The Handshake packets so far have the numbers from zero on. *)
Definition numbered (l : list (string * bytes)) (a : sender) : Prop :=
  dcid (s_builder a) = dcid b ∧ scid (s_builder a) = scid b ∧
  s_hs_pn a = as_u64 (zlen (filter is_handshake l)) ∧
  ∀ i e, filter is_handshake l !! i = Some e →
    ∃ data k, handshake_packet (dcid b) (scid b) (as_u64 (Z.of_nat i)) data k = Some e.2.

Lemma numbered_next l a what pkt data k :
  is_handshake (what, pkt) → numbered l a →
  handshake_packet (dcid (s_builder a)) (scid (s_builder a)) (s_hs_pn a) data k = Some pkt →
  numbered (l ++ [(what, pkt)])
    {| s_builder := s_builder a; s_hs_pn := as_u64 (s_hs_pn a + 1); s_one_rtt_pn := s_one_rtt_pn a;
       s_injected := s_injected a |}.
Proof.
  intros He (Hd & Hs & Hn & Hl) Hp. unfold numbered. rewrite filter_snoc_yes by done. simpl.
  split_and!; try done.
  - rewrite Hn, as_u64_next, zlen_app. done.
  - intros i e [[_ Hi]|[-> <-]]%lookup_snoc_Some; [by eapply Hl|]. exists data, k.
    rewrite <- Hd, <- Hs. fold (zlen (filter is_handshake l)). by rewrite <- Hn.
Qed.

Lemma sends_numbered l a : sends (S:=S) m (new_sender b) l a → numbered l a.
Proof.
  induction 1 as [|l a Hs IH|l e a a' Hs IH Ht]; [by split_and!|exact IH|].
  destruct Ht as [? ? ? ? what ? ? ? ? ? Hw ?|b' ? ? ? ? ? ? ? Hp|b' ? ? ? ? ? ? ? Hp|].
  - unfold numbered. by rewrite filter_snoc_no by by apply initial_label_not_handshake.
  - eapply (numbered_next _ _ "send Handshake" _ _ _ ltac:(by left) IH Hp).
  - eapply (numbered_next _ _ "send Handshake injection" _ _ _ ltac:(by right; left) IH Hp).
  - unfold numbered. by rewrite filter_snoc_no by (unfold is_handshake; simpl; by_label).
Qed.
End Numbers.

Section Once.
Context (inj : Injection) (b : PacketBuilder).

(** In Handshake mode the injection, with number zero, is all that is sent
    beside Initial packets. *)
Lemma sends_substituted l a : epoch inj = EpochHandshake →
  sends (S:=S) (Some inj) (new_sender b) l a →
  dcid (s_builder a) = dcid b ∧ scid (s_builder a) = scid b ∧
  (s_injected a = false ∧ s_hs_pn a = 0 ∧ filter not_initial l = [] ∨
   s_injected a = true ∧ ∃ k pkt,
     filter not_initial l = [("send Handshake injection", pkt)] ∧
     handshake_packet (dcid b) (scid b) 0 (inj_bytes inj) k = Some pkt).
Proof.
  intros He. induction 1 as [|l a Hs IH|l e a a' Hs IH Ht]; [naive_solver|exact IH|].
  destruct Ht as [? ? ? ? what ? ? ? ? ? Hw ?|? ? ? ? ? ? ? Hm|b' ? ? inj' k pkt [= <-] _ Hp|? ? ? ? ? ? [= <-] He'].
  - by rewrite filter_snoc_no by (intros Hn; by apply Hn).
  - specialize (Hm _ eq_refl). congruence.
  - destruct IH as (Hd & Hsc & [(_ & Hn & Hl)|[? _]]); [|done]. simpl in *.
    rewrite filter_snoc_yes, Hl by (unfold not_initial; simpl; by_label).
    split_and!; try done. right. split; [done|]. exists k, pkt. by rewrite <- Hd, <- Hsc, <- Hn.
  - congruence.
Qed.

End Once.

(** ** The drivers *)

(** C18: the full driver sends its Handshake packets with the numbers 0, 1, 2,
    ... in order, each built for the connection ids of the builder it was given:
    over a whole run no packet number is used twice with the handshake keys
    (before the counter wraps). *)
Theorem handshake_packets_numbered pump_fuel b tp (p : process (S:=S)) r p' :
  drive_handshake_full env pump_fuel b tp p = Ret r p' →
  ∃ new, io_log p'.2 = io_log p.2 ++ new ∧
    (∀ e, e ∈ new → e.1 ∈ initial_labels ∨ is_handshake e) ∧
    ∀ i e, filter is_handshake new !! i = Some e →
      ∃ data k, handshake_packet (dcid b) (scid b) (as_u64 (Z.of_nat i)) data k = Some e.2.
Proof.
  intros (new & a & Hl & Hs)%full_sends. exists new. split_and!; [done| |by eapply sends_numbered].
  clear Hl. induction Hs as [|l a' _ IH|l e a' a'' _ IH Ht]; [set_solver|done|].
  intros e' [He|He]%elem_of_app; [by apply IH|]. apply list_elem_of_singleton in He as ->.
  inversion Ht; subst; try done; [by left|right; by left].
Qed.

(** C19: with an injection at the Handshake epoch, a run that returns has sent
    nothing but Initial packets and at most one Handshake packet, which has
    number 0 and carries the injected bytes in place of the client's Finished. *)
Theorem injection_replaces_finished pump_fuel b tp data (p : process (S:=S)) r p' :
  drive_handshake_with_injection env pump_fuel b tp
    {| epoch := EpochHandshake; inj_bytes := data |} p = Ret r p' →
  ∃ new, io_log p'.2 = io_log p.2 ++ new ∧
    (filter not_initial new = [] ∨
     ∃ k pkt, filter not_initial new = [("send Handshake injection", pkt)] ∧
       handshake_packet (dcid b) (scid b) 0 data k = Some pkt).
Proof.
  intros (new & a & Hl & Hs)%injection_sends. exists new. split; [done|].
  apply sends_substituted in Hs as (_ & _ & [(_ & _ & ?)|[_ ?]]); [by left|by right|done].
Qed.


(** Waiting for a 1-RTT injection does not survive a quiet moment of the
    server: when a receive times out between the handshake keys and the 1-RTT
    keys, before the deadline, the driver tries to inject without keys and
    fails, whatever would have arrived later. *)
Theorem quiet_server_ends_one_rtt_injection fuel pump_fuel data d s keys deadline h k e rest :
  h_handshake_keys h = Some k → h_one_rtt_keys h = None → h_injected h = false →
  past (head (io_clock (h_io h))) deadline = false →
  io_inbox (h_io h) = RecvError true e :: rest →
  ∃ h', injection_loop (Datatypes.S fuel) pump_fuel {| epoch := EpochOneRtt; inj_bytes := data |}
          d s keys deadline h
        = Ret (inl "1-RTT injection requested before 1-RTT keys materialised") h' ∧
    h_injected h' = false ∧ io_inbox (h_io h') = rest ∧ io_log (h_io h') = io_log (h_io h).
Proof.
  intros Hk Ho Hi Hp Hin. simpl.
  unfold mbind, prog_bind, on_io, lift, now, gets, attempt. simpl. rewrite Hp. simpl.
  unfold mbind, prog_bind, gets. simpl. rewrite Hi, andb_false_r.
  unfold mbind, prog_bind, recv_from. simpl. rewrite Hin. simpl. rewrite Hk. simpl.
  unfold inject_once, inject_now, attempt, mbind, prog_bind, gets. simpl. rewrite Ho. simpl.
  eexists. split; [reflexivity|]. done.
Qed.
End Runs.

(** ** A run of each driver

    A server that says nothing: two empty datagrams, then silence. *)

Definition quiet_env : environment := λ _, None.
Definition quiet_io : io :=
  {| io_inbox := [Datagram []; Datagram []]; io_clock := [0; 1; 2; 3]; io_results := [];
     io_log := [] |}.
Definition quiet_start : process (S:=world) := (pair_world, quiet_io).

Definition full_end : process (S:=world) :=
  state_of quiet_start (drive_handshake_full quiet_env 10 pair_builder [7] quiet_start).
Definition injection_end (e : InjectionEpoch) : process (S:=world) :=
  state_of quiet_start (drive_handshake_with_injection quiet_env 10 pair_builder [7]
    {| epoch := e; inj_bytes := [24; 0; 0; 1; 0] |} quiet_start).

Lemma handshake_packets_numbered_witness :
  (io_log full_end.2).*1 = ["send Initial"; "send Handshake"; "send Handshake"] ∧
  ∃ new, io_log full_end.2 = [] ++ new ∧
    (∀ e, e ∈ new → e.1 ∈ initial_labels ∨ is_handshake e) ∧
    ∀ i e, filter is_handshake new !! i = Some e →
      ∃ data k, handshake_packet (R:=toy) (dcid pair_builder) (scid pair_builder)
                  (as_u64 (Z.of_nat i)) data k = Some e.2.
Proof.
  split; [by_eval|].
  apply (handshake_packets_numbered quiet_env 10 pair_builder [7] quiet_start (inr None)).
  apply ret_of. by_eval.
Defined.

Lemma injection_replaces_finished_witness :
  (io_log (injection_end EpochHandshake).2).*1 = ["send Initial"; "send Handshake injection"] ∧
  ∃ new, io_log (injection_end EpochHandshake).2 = [] ++ new ∧
    (filter not_initial new = [] ∨
     ∃ k pkt, filter not_initial new = [("send Handshake injection", pkt)] ∧
       handshake_packet (R:=toy) (dcid pair_builder) (scid pair_builder) 0 [24; 0; 0; 1; 0] k
         = Some pkt).
Proof.
  split; [by_eval|].
  apply (injection_replaces_finished quiet_env 10 pair_builder [7] [24; 0; 0; 1; 0] quiet_start
           (inr None)).
  apply ret_of. by_eval.
Defined.


(** A driver with the handshake keys, at a receive that times out. *)
Definition waiting : harness (R:=toy) (S:=world) :=
  {| h_shim := pair_world;
     h_conn := {| q_script := []; q_seen := []; q_hs := true; q_tp := None; q_zero := None |} : @qclient toy;
     h_builder := pair_builder; h_handshake_keys := Some (toy_keys, toy_keys);
     h_one_rtt_keys := None; h_hs_send_pn := 0; h_one_rtt_send_pn := 0; h_injected := false;
     h_io := {| io_inbox := [RecvError true "os error 11"; Datagram [1]]; io_clock := [1; 2];
                io_results := []; io_log := [] |} |}.

Lemma quiet_server_ends_one_rtt_injection_witness :
  ∃ h', injection_loop 3 10 {| epoch := EpochOneRtt; inj_bytes := [24] |} [1] [2] 1 (Some 2000)
          waiting = Ret (inl "1-RTT injection requested before 1-RTT keys materialised") h' ∧
    h_injected h' = false ∧ io_inbox (h_io h') = [Datagram [1]] ∧ io_log (h_io h') = [].
Proof.
  apply (quiet_server_ends_one_rtt_injection 2 10 [24] [1] [2] 1 (Some 2000) waiting
           (toy_keys, toy_keys) "os error 11" [Datagram [1]]).
  - reflexivity.
  - reflexivity.
  - reflexivity.
  - reflexivity.
  - reflexivity.
Defined.
End DriverTrace.
