(* ===== verification/ApiEnds.v ===== *)
(** * The packet-protection calls end, and give bytes

    The class [KeysApiEnds] is what the drivers need of the shim to end: no
    call runs on, and what opening a packet leaves in the caller's buffers are
    bytes. The model of the shim is an instance, whenever the keys of the
    provider turn bytes into bytes ([ByteLaws]). *)

From S2P Require Import Prelude Effects Handles Rustls World Toy QuicKeys QuicPacket Hoare.
Import Effects Handles Rustls World Toy QuicKeys QuicPacket Hoare.

Module ApiEnds.

(** Keys work on [u8] slices. *)
Class ByteLaws (R : Rustls) : Prop := {
  decrypt_bytes : ∀ k pn hdr ct out r, pkey_decrypt_in_place k pn hdr ct = (out, r) →
    all_bytes ct → all_bytes out ∧ ∀ pt, r = inr pt → all_bytes pt;
  unmask_bytes : ∀ k sample b pn b' pn' r, hkey_decrypt_in_place k sample b pn = ((b', pn'), r) →
    is_byte b → all_bytes pn → is_byte b' ∧ all_bytes pn';
}.

Class KeysApiEnds (S : Type) `{KeysApi S} : Prop := {
  ends_initial_keys : ∀ v d c, hoare False (λ _, True) (api_initial_keys v d c) (λ _ (_ : S), True);
  ends_keys_free : ∀ h, hoare False (λ _, True) (api_keys_free h) (λ _ (_ : S), True);
  ends_tag_len : ∀ h, hoare False (λ _, True) (api_tag_len h) (λ _ (_ : S), True);
  ends_encrypt : ∀ h pn hdr pt n,
    hoare False (λ _, True) (api_local_encrypt h pn hdr pt n) (λ _ (_ : S), True);
  ends_protect : ∀ h sample b pn,
    hoare False (λ _, True) (api_local_header_protect h sample b pn) (λ _ (_ : S), True);
  ends_decrypt : ∀ h pn hdr ct, all_bytes ct →
    hoare False (λ _, True) (api_remote_decrypt h pn hdr ct) (λ r (_ : S), all_bytes r.2);
  ends_unprotect : ∀ h sample b pn, is_byte b → all_bytes pn →
    hoare False (λ _, True) (api_remote_header_unprotect h sample b pn)
      (λ r (_ : S), is_byte r.2.1 ∧ all_bytes r.2.2);
}.

(** ** Blocks of bytes *)

Section Blocks.
Context {R : Rustls}.

(** The blocks of [bs] hold bytes. *)
Definition byte_blocks (bs : gset N) (w : world) : Prop :=
  ∀ b l, b ∈ bs → m_u8 (w_mem w) !! b = Some l → all_bytes l.

Definition in_blocks (bs : gset N) (p : ptr) : Prop :=
  match p with Null => False | Ptr b _ => b ∈ bs end.

Lemma bytes_of_sub o n l : all_bytes l → all_bytes (sub o n l).
Proof. intros. by apply Forall_take, Forall_drop. Qed.

Lemma all_bytes_splice o new l : all_bytes new → all_bytes l → all_bytes (splice o new l).
Proof. intros. apply Forall_app; split; [by apply Forall_take|]. apply Forall_app; split; [done|by apply Forall_drop]. Qed.

Lemma hoare_read_u8 bs p n :
  hoare False (byte_blocks bs) (read_u8 p n)
    (λ l w, (in_blocks bs p → all_bytes l) ∧ byte_blocks bs w).
Proof.
  intros w Hw. unfold read_u8, mbind, prog_bind, gets, load. destruct p as [|b o]; [done|].
  destruct (m_u8 (w_mem w) !! b) as [l|] eqn:E; [|done]. destruct (fits o n l); [|done].
  split; [|done]. intros Hb. apply bytes_of_sub. by eapply Hw.
Qed.

Lemma hoare_write_u8 bs p l : (in_blocks bs p → all_bytes l) →
  hoare False (byte_blocks bs) (write_u8 p l) (λ _, byte_blocks bs).
Proof.
  intros Hl w Hw. unfold write_u8. destruct p as [|b o]; [done|].
  destruct (store _ _ _) as [m|] eqn:E; [|done].
  apply store_fits in E as (k & Hk & _ & ->). intros b' l' Hb. simpl.
  rewrite lookup_insert. case_decide as Eb; [|by apply Hw].
  intros [= <-]. subst b'. apply all_bytes_splice; [by apply Hl|by eapply Hw].
Qed.

(** Every state has the invariant of no blocks. *)
Lemma byte_blocks_empty w : byte_blocks ∅ w.
Proof. intros b l Hb. by apply elem_of_empty in Hb. Qed.

Lemma hoare_alloc bs l : all_bytes l →
  hoare False (byte_blocks bs) (alloc_u8 l)
    (λ p w, ∃ b, p = Ptr b 0 ∧ byte_blocks (bs ∪ {[b]}) w).
Proof.
  intros Hl w Hw. unfold alloc_u8. eexists. split; [done|]. intros b k Hb. simpl.
  rewrite lookup_insert. case_decide; [by intros [= <-]|]. apply Hw.
  apply elem_of_union in Hb as [Hb|Hb%elem_of_singleton]; [done|congruence].
Qed.

Lemma hoare_alloc_any l : hoare False (byte_blocks ∅) (alloc_u8 l) (λ _, byte_blocks ∅).
Proof. intros w _. apply byte_blocks_empty. Qed.

Lemma hoare_release bs p : hoare False (byte_blocks bs) (release p) (λ _, byte_blocks bs).
Proof.
  intros w Hw. destruct p as [|b o]; simpl; [done|]. intros b' l Hb.
  simpl. intros [_ Hl]%lookup_delete_Some. by eapply Hw.
Qed.

(** ** The shim *)

(** One step of a function that keeps [byte_blocks bs]. *)
#[local] Ltac step :=
  cbv zeta;
  lazymatch goal with
  | |- hoare _ _ (let '(_, _) := ?e in _) _ => destruct e as [[? ?] ?] eqn:? || destruct e eqn:?
  | |- hoare _ _ (match ?e with _ => _ end) _ => destruct e eqn:?
  | |- hoare _ _ (mbind _ (read_u8 _ _)) _ =>
      eapply hoare_bind; [apply hoare_read_u8|intros ?; apply hoare_pure; intros ?]
  | |- hoare _ ?P (mbind _ _) _ => apply (hoare_bind _ _ (λ _, P)); [|intros]
  | |- hoare _ _ (mret _) _ => apply hoare_ret; by intros
  | |- hoare _ _ (panic _) _ => apply hoare_panic
  | |- hoare _ _ undef _ => apply hoare_undef
  | |- hoare _ _ (expect _ _) _ => apply hoare_expect; by intros
  | |- hoare _ _ (gets _) _ => apply hoare_gets; by intros
  | |- hoare _ _ (modify _) _ => apply hoare_modify; by intros
  | |- hoare _ _ (with_ _ _ _) _ => apply hoare_with; intros
  | |- hoare _ _ (with_mut _ _ _) _ => apply hoare_with_mut; [by intros|intros]
  | |- hoare _ _ (write_u8 _ _) _ => apply hoare_write_u8
  | |- hoare _ _ (release _) _ => apply hoare_release
  | |- hoare _ _ (alloc_u8 _) _ => apply hoare_alloc_any
  | |- hoare _ _ (rlsm_err _ _) _ => unfold rlsm_err
  | |- hoare _ _ (set_last_error _) _ => unfold set_last_error
  | |- hoare _ _ clear_last_error _ => unfold clear_last_error
  | |- hoare _ _ initial_suite _ => unfold initial_suite
  | |- hoare _ _ (insert _ _) _ => unfold insert, next_handle, fetch_add_1
  | |- hoare _ _ (remove _ _) _ => unfold remove
  end.

Lemma in_no_blocks p l : in_blocks ∅ p → all_bytes l.
Proof. destruct p; simpl; [done|]. by intros ?%elem_of_empty. Qed.

Lemma block_bytes (bs : gset N) b : b ∈ bs →
  ∀ l, (in_blocks bs (Ptr b 0) → all_bytes l) → all_bytes l.
Proof. intros Hb l Hl. by apply Hl. Qed.

Lemma packet_decrypt_bytes `{!ByteLaws R} k pn hdr ct out r :
  packet_decrypt_in_place k pn hdr ct = (out, r) → all_bytes ct → all_bytes out.
Proof.
  destruct k; simpl; [|by intros [= <- <-]]. intros E Hct. by destruct (decrypt_bytes _ _ _ _ _ _ E Hct).
Qed.

Lemma header_decrypt_bytes `{!ByteLaws R} k sample b pn b' pn' r :
  header_decrypt_in_place k sample b pn = ((b', pn'), r) → is_byte b → all_bytes pn →
  is_byte b' ∧ all_bytes pn'.
Proof. destruct k; simpl; [apply unmask_bytes|by intros [= <- <- <-]..]. Qed.

(** Of any blocks: what opening does to the caller's memory. *)
Lemma remote_decrypt_blocks `{!ByteLaws R} bs h pn hp n b m : b ∈ bs →
  hoare False (byte_blocks bs) (rlsm_keys_remote_decrypt h pn hp n (Ptr b 0) m) (λ _, byte_blocks bs).
Proof.
  intros Hb. pose proof (block_bytes bs b Hb) as Hin.
  unfold rlsm_keys_remote_decrypt. repeat step.
  intros _. eapply packet_decrypt_bytes; [eassumption|by apply Hin].
Qed.

Lemma remote_unprotect_blocks `{!ByteLaws R} bs h sp n bf bp m : bf ∈ bs → bp ∈ bs →
  hoare False (byte_blocks bs)
    (rlsm_keys_remote_header_unprotect h sp n (Ptr bf 0) (Ptr bp 0) m) (λ _, byte_blocks bs).
Proof.
  intros Hf Hp. unfold rlsm_keys_remote_header_unprotect, header_in_place.
  pose proof (block_bytes bs bf Hf) as Hinf. pose proof (block_bytes bs bp Hp) as Hinp.
  assert (Hhead : ∀ l, (in_blocks bs (Ptr bf 0) → all_bytes l) → is_byte (default 0 (head l))).
  { intros l Hl%Hinf. destruct l; [by split|by inversion Hl]. }
  repeat step; intros _;
    (edestruct header_decrypt_bytes as [? ?]; [eassumption|by apply Hhead|by apply Hinp|];
     first [assumption|by apply Forall_singleton]).
Qed.

(** Calls that only have to end. *)
Lemma hoare_no_blocks {A} (c : prog world A) :
  hoare False (byte_blocks ∅) c (λ _, byte_blocks ∅) → hoare False (λ _, True) c (λ _ _, True).
Proof. intros Hc. eapply hoare_conseq; [exact Hc|intros; apply byte_blocks_empty|done]. Qed.

#[local] Ltac ends := apply hoare_no_blocks; repeat step; apply in_no_blocks.

(** A block of the caller's, and what follows with it. *)
Lemma hoare_alloc_then {A} bs l (k : ptr → prog world A) Q : all_bytes l →
  (∀ b, hoare False (byte_blocks (bs ∪ {[b]})) (k (Ptr b 0)) Q) →
  hoare False (byte_blocks bs) (alloc_u8 l ≫= k) Q.
Proof.
  intros Hl Hk. eapply hoare_bind; [by apply hoare_alloc|]. intros p w (b & -> & Hw). by apply Hk.
Qed.

Lemma remote_decrypt_ends `{!ByteLaws R} h pn hdr ct : all_bytes ct →
  hoare False (λ _, True) (shim_remote_decrypt h pn hdr ct) (λ r _, all_bytes r.2).
Proof.
  intros Hct. apply (hoare_conseq _ _ (byte_blocks ∅) _ (λ r _, all_bytes r.2));
    [|intros; apply byte_blocks_empty|done].
  eapply hoare_bind; [apply hoare_alloc_any|]. intros ph. apply hoare_alloc_then; [done|]. intros b.
  eapply hoare_bind; [apply remote_decrypt_blocks; set_solver|]. intros rc.
  eapply hoare_bind; [apply hoare_read_u8|]. intros out. apply hoare_pure. intros Hout.
  do 2 (eapply hoare_bind; [apply hoare_release|]; intros ?). apply hoare_ret. intros _ _.
  apply Hout. simpl. set_solver.
Qed.

Lemma remote_unprotect_ends `{!ByteLaws R} h sample b pn : is_byte b → all_bytes pn →
  hoare False (λ _, True) (shim_header rlsm_keys_remote_header_unprotect h sample b pn)
    (λ r _, is_byte r.2.1 ∧ all_bytes r.2.2).
Proof.
  intros Hb Hpn.
  apply (hoare_conseq _ _ (byte_blocks ∅) _ (λ r _, is_byte r.2.1 ∧ all_bytes r.2.2));
    [|intros; apply byte_blocks_empty|done].
  eapply hoare_bind; [apply hoare_alloc_any|]. intros ps.
  apply hoare_alloc_then; [by apply Forall_singleton|]. intros bf.
  apply hoare_alloc_then; [done|]. intros bp.
  eapply hoare_bind; [apply remote_unprotect_blocks; set_solver|]. intros rc.
  do 2 (eapply hoare_bind; [apply hoare_read_u8|]; intros ?; apply hoare_pure; intros ?).
  do 3 (eapply hoare_bind; [apply hoare_release|]; intros ?). apply hoare_ret. intros _ _. simpl.
  match goal with
  | Hf : in_blocks _ (Ptr bf 0) → all_bytes ?fb, Hp : in_blocks _ (Ptr bp 0) → _ |- _ =>
      specialize (Hf ltac:(simpl; set_solver)); split; [|apply Hp; simpl; set_solver];
      destruct fb; [done|by inversion Hf]
  end.
Qed.

#[export] Instance shim_ends `{!ByteLaws R} : KeysApiEnds world.
Proof.
  split; intros; simpl.
  - unfold shim_initial_keys, rlsm_initial_keys. ends.
  - unfold rlsm_keys_free. ends.
  - unfold rlsm_keys_tag_len. ends.
  - unfold shim_local_encrypt, rlsm_keys_local_encrypt. ends.
  - unfold shim_header, rlsm_keys_local_header_protect, header_in_place. ends.
  - by apply remote_decrypt_ends.
  - by apply remote_unprotect_ends.
Qed.
End Blocks.

(** ** The concrete provider keeps to bytes *)

Lemma is_byte_u8 z : is_byte (as_u8 z).
Proof. unfold is_byte, as_u8. apply Z.mod_pos_bound. lia. Qed.

Lemma is_byte_lxor a b : is_byte a → is_byte b → is_byte (Z.lxor a b).
Proof.
  intros [Ha Ha'] [Hb Hb']. assert (0 ≤ Z.lxor a b) by (by apply Z.lxor_nonneg). split; [done|].
  destruct (decide (Z.lxor a b = 0)) as [->|]; [done|]. change 256 with (2 ^ 8).
  assert (∀ z, 0 ≤ z < 256 → Z.log2 z < 8).
  { intros z Hz. destruct (decide (z = 0)) as [->|]; [done|]. apply Z.log2_lt_pow2; lia. }
  apply Z.log2_lt_pow2; [lia|]. eapply Z.le_lt_trans; [by apply Z.log2_lxor|].
  apply Z.max_lub_lt; auto.
Qed.

Lemma is_byte_land m b : is_byte (Z.land m (first_bits b)).
Proof.
  unfold first_bits, is_byte. case_if; [change 15 with (Z.ones 4)|change 31 with (Z.ones 5)];
    rewrite Z.land_ones by lia; pose proof (Z.mod_pos_bound m (2 ^ 4)); pose proof (Z.mod_pos_bound m (2 ^ 5)); lia.
Qed.

Lemma all_bytes_xor m l : is_byte m → all_bytes l → all_bytes (Z.lxor m <$> l).
Proof. intros Hm Hl. apply Forall_fmap. eapply Forall_impl; [exact Hl|]. intros. by apply is_byte_lxor. Qed.

#[global] Instance toy_bytes : ByteLaws toy.
Proof.
  split; simpl.
  - intros k pn hdr ct out r. unfold toy_decrypt. case_if; intros [= <- <-] Hct; [|by split].
    assert (all_bytes (toy_xor k pn (sub 0 (zlen ct - 16) ct))).
    { apply all_bytes_xor; [apply is_byte_u8|by apply bytes_of_sub]. }
    split; [|by intros ? [= <-]]. apply Forall_app. split; [done|by apply bytes_of_sub].
  - intros k sample b pn b' pn' r. unfold toy_hp_decrypt. intros [= <- <- <-] Hb Hpn. split.
    + apply is_byte_lxor; [done|apply is_byte_land].
    + apply Forall_app. split; [|by apply Forall_drop].
      apply all_bytes_xor; [apply is_byte_u8|by apply bytes_of_sub].
Qed.
End ApiEnds.
