(* ===== verification/DriverEnds.v ===== *)
(** * The drivers end

    A driver loops over readings of the clock, over packets of a datagram, over
    frames of a packet and over what the TLS connection has to say. The first
    three are bounded by their input. The last is bounded when the connection
    falls silent ([HandshakeEnds]): after at most [flights] calls, [write_hs]
    has neither data nor keys. Then no driver runs on, whatever arrives. *)

From S2P Require Import Prelude Effects Handles Rustls World Utf8 Varint Toy.
From S2P Require Import QuicKeysFacts QuicPacket QuicPacketFacts FrameScan FrameScanFacts.
From S2P Require Import RustlsPackets Hoare Drivers DriverRules DriverTrace ApiEnds.
Import Effects Handles Rustls World Utf8 Varint Toy.
Import QuicKeysFacts QuicPacket QuicPacketFacts FrameScan FrameScanFacts.
Import RustlsPackets Hoare Drivers DriverRules DriverTrace ApiEnds.

Module DriverEnds.

(** ** The TLS connection *)

(** [write_hs] has nothing more to say after fewer than [n] calls. *)
Fixpoint quiet_within {R : Rustls} (n : nat) (c : qclient) : Prop :=
  match n with
  | O => False
  | Datatypes.S n =>
      let '(c', out, kc) := qclient_write_hs c in
      out = [] ∧ kc = None ∨ quiet_within n c'
  end.

(** rustls writes a handshake message once: in the states a connection can
    reach, repeated [write_hs] without new input runs dry. *)
Class HandshakeEnds (R : Rustls) := {
  flights : nat;
  talking : qclient → Prop;
  talking_new : ∀ config v name tp c, qclient_new config v name tp = inr c → talking c;
  talking_write : ∀ c c' out kc, talking c → qclient_write_hs c = (c', out, kc) → talking c';
  talking_read : ∀ c data c' r, talking c → qclient_read_hs c data = (c', r) → talking c';
  talking_quiet : ∀ c, talking c → quiet_within flights c;
}.

(** ** Parts *)

(** A parsed packet is not empty. *)
Lemma long_header_progress buf hd :
  all_bytes buf → parse_long_header buf = Some hd → 1 ≤ payload_offset hd + lh_length hd.
Proof.
  intros Hb. unfold parse_long_header. case_if; [done|].
  assert (Hbyte : ∀ i c, byte_at buf i = Some c → 0 ≤ c).
  { intros i c Hc. by apply (Forall_lookup_1 _ _ _ _ Hb Hc). }
  assert (Hvar : ∀ i v n, decode_varint (drop (Z.to_nat i) buf) = Some (v, n) → 0 ≤ v ∧ 1 ≤ n).
  { intros i v n Hv. apply decode_varint_value in Hv as (? & ? & ?); [lia|by apply Forall_drop]. }
  destruct (byte_at buf 5) as [dcil|] eqn:E1; [|done]. apply Hbyte in E1. simpl. case_if; [done|].
  destruct (byte_at buf (6 + dcil)) as [scil|] eqn:E2; [|done]. apply Hbyte in E2. simpl.
  case_if; [done|].
  assert (Hlast : ∀ t i, 1 ≤ i → ('(length, c) ← decode_varint (drop (Z.to_nat i) buf);
    if zlen buf <? i + c + length then None
    else Some {| version := be_val (sub 1 4 buf);
                 packet_type := Z.land (Z.shiftr (default 0 (head buf)) 4) 3;
                 lh_dcid := sub 6 dcil buf; lh_scid := sub (6 + dcil + 1) scil buf; token := t;
                 payload_offset := i + c; lh_length := length |}) = Some hd →
    1 ≤ payload_offset hd + lh_length hd).
  { intros t i Hi. destruct (decode_varint (drop (Z.to_nat i) buf)) as [[v n]|] eqn:E; [|done].
    apply Hvar in E. simpl. case_if; [done|]. intros [= <-]. simpl. lia. }
  case_if; [|apply Hlast; lia].
  destruct (decode_varint (drop (Z.to_nat (6 + dcil + 1 + scil)) buf)) as [[v n]|] eqn:E; [|done].
  apply Hvar in E. simpl. case_if; [done|]. apply Hlast. lia.
Qed.

Section Parts.
Context {R : Rustls} `{!ByteLaws R}.

Definition plain_bytes (r : string + bytes) : Prop := opens_plain all_bytes r.

Lemma unmasked_bytes o n1 (x : Z) (l pkt : bytes) : is_byte x → all_bytes l → all_bytes pkt →
  all_bytes (splice o l (splice n1 [x] pkt)).
Proof. intros. apply all_bytes_splice; [done|]. apply all_bytes_splice; [by apply Forall_singleton|done]. Qed.

Lemma head_is_byte l : all_bytes l → is_byte (default 0 (head l)).
Proof. intros Hl. destruct l; [done|by inversion Hl]. Qed.

Lemma decrypt_long_ends {X} (P : X → Prop) pkt hd k : all_bytes pkt →
  hoare False P (decrypt_long_with_rustls pkt hd k) (λ r x, plain_bytes r ∧ P x).
Proof.
  intros Hb x Hx. unfold decrypt_long_with_rustls. cbv zeta. destruct (_ <? _); [done|].
  destruct (hkey_decrypt_in_place _ _ _ _) as [[first rest4] [e|u]] eqn:E; [done|].
  apply unmask_bytes in E as [Hf Hr]; [|by apply head_is_byte|by apply bytes_of_sub].
  do 2 (destruct (_ <? _); [done|]).
  destruct (pkey_decrypt_in_place _ _ _ _) as [out r] eqn:E.
  apply decrypt_bytes in E as [_ Hpt]; [|by apply bytes_of_sub, unmasked_bytes].
  destruct r as [e|pt]; [done|]. split; [by apply Hpt|done].
Qed.

Lemma decrypt_short_ends {X} (P : X → Prop) pkt n k : all_bytes pkt →
  hoare False P (decrypt_short_with_rustls pkt n k) (λ r x, plain_bytes r ∧ P x).
Proof.
  intros Hb x Hx. unfold decrypt_short_with_rustls. cbv zeta.
  destruct (_ || _); [done|]. destruct (_ <? _); [done|].
  destruct (hkey_decrypt_in_place _ _ _ _) as [[first rest4] [e|u]] eqn:E; [done|].
  apply unmask_bytes in E as [Hf Hr]; [|by apply head_is_byte|by apply bytes_of_sub].
  destruct (pkey_decrypt_in_place _ _ _ _) as [out r] eqn:E.
  apply decrypt_bytes in E as [_ Hpt]; [|by apply bytes_of_sub, unmasked_bytes].
  destruct r as [e|pt]; [done|]. split; [by apply Hpt|done].
Qed.
End Parts.

(** What uses the shim. *)
Section Shim.
Context {S : Type} `{KeysApiEnds S}.

Definition ends {A} (c : prog S A) (Q : A → Prop) : Prop :=
  hoare False (λ _, True) c (λ a _, Q a).

Lemma ends_bind {A B} (M : A → Prop) Q (c : prog S A) (k : A → prog S B) :
  ends c M → (∀ a, M a → ends (k a) Q) → ends (c ≫= k) Q.
Proof.
  intros Hc Hk. eapply (hoare_bind _ _ (λ a _, M a ∧ True)).
  - eapply hoare_conseq; [exact Hc|done|done].
  - intros a. apply hoare_pure, Hk.
Qed.

Lemma ends_ret {A} (a : A) (Q : A → Prop) : Q a → ends (mret a) Q.
Proof. intros HQ. by apply hoare_ret. Qed.

Lemma ends_panic {A} m (Q : A → Prop) : ends (panic m) Q.
Proof. done. Qed.

Lemma initial_keys_ends role d : ends (initial_keys role d) (λ _, True).
Proof.
  unfold initial_keys. case_match; [|by apply ends_ret].
  apply (ends_bind (λ _, True)); [apply ends_initial_keys|]. intros h _. case_if; by apply ends_ret.
Qed.

Lemma keys_drop_ends keys : ends (keys_drop keys) (λ _, True).
Proof.
  unfold keys_drop. case_if; [|by apply ends_ret].
  apply (ends_bind (λ _, True)); [apply ends_keys_free|]. intros. by apply ends_ret.
Qed.

Lemma remote_unprotect_call keys sample b pn : is_byte b → all_bytes pn →
  ends (remote_header_unprotect keys sample b pn) (λ r, is_byte r.2.1 ∧ all_bytes r.2.2).
Proof.
  intros Hb Hp. unfold remote_header_unprotect. repeat case_match; try by apply ends_ret.
  eapply ends_bind; [by apply ends_unprotect|]. intros [rc [b' pn']] Hr. by apply ends_ret.
Qed.

Lemma remote_decrypt_call keys pn hdr ct : all_bytes ct →
  ends (remote_decrypt keys pn hdr ct) (λ r, all_bytes r.2).
Proof.
  intros Hc. unfold remote_decrypt. repeat case_match; try by apply ends_ret.
  eapply ends_bind; [by apply ends_decrypt|]. intros [rc ct'] Hr. by apply ends_ret.
Qed.

Lemma decrypt_reply_ends prefix pkt hd keys : all_bytes pkt →
  ends (decrypt_reply prefix pkt hd keys) plain_bytes.
Proof.
  intros Hb. unfold decrypt_reply. cbv zeta. destruct (_ <? _); [by apply ends_ret|].
  eapply ends_bind; [apply remote_unprotect_call; [by apply head_is_byte|by apply bytes_of_sub]|].
  intros [[code|u] [first rest4]] [Hf Hr]; cbv beta iota zeta; [by apply ends_ret|].
  destruct (_ <? _); [by apply ends_ret|]. destruct (_ <? _); [apply ends_panic|].
  eapply ends_bind; [apply remote_decrypt_call, bytes_of_sub, unmasked_bytes; done|].
  intros [[code|n] out] Ho; apply ends_ret; [done|].
  apply bytes_of_sub, all_bytes_splice; [done|by apply unmasked_bytes].
Qed.

(** What only has to end. *)
#[local] Ltac ends_step :=
  cbv zeta;
  lazymatch goal with
  | |- ends (match ?e with _ => _ end) _ => destruct e
  | |- ends (mret _) _ => by apply ends_ret
  | |- ends (panic _) _ => apply ends_panic
  | |- ends (mbind _ _) _ => apply (ends_bind (λ _, True)); [|intros ? _]
  | |- ends (push_varint _ _) _ => unfold push_varint
  | |- ends (expect_ok _ _) _ => unfold expect_ok
  | |- ends (keys_tag_len _) _ => unfold keys_tag_len
  | |- ends (api_tag_len _) _ => apply ends_tag_len
  | |- ends (local_encrypt _ _ _ _ _) _ => unfold local_encrypt
  | |- ends (api_local_encrypt _ _ _ _ _) _ => apply ends_encrypt
  | |- ends (protect_header_in_place _ _ _ _) _ => unfold protect_header_in_place
  | |- ends (local_header_protect _ _ _ _) _ => unfold local_header_protect
  | |- ends (api_local_header_protect _ _ _ _) _ => apply ends_protect
  end.

Lemma encode_initial_ends b out keys : ends (encode_initial b out keys) (λ r, r.2 = next_pn b).
Proof.
  intros w _. pose proof (encode_initial_builder b out keys w) as Hn.
  assert (Hend : ends (encode_initial b out keys) (λ _, True)).
  { unfold encode_initial, encode_long. repeat ends_step. }
  specialize (Hend w Logic.I). destruct (encode_initial b out keys w) as [[pkt b'] w'| | |]; try done.
  by eapply Hn.
Qed.
End Shim.

(** ** Frames fed to the connection *)

(** The walkers' parts do not look at the state. *)
Section Frames.
Context {X : Type} (C : X → Prop).

Lemma varint_at_keeps pt p msg : hoare True C (varint_at pt p msg) (λ _, C).
Proof. unfold varint_at. case_if; [done|]. destruct (decode_varint _) as [[? ?]|]; by apply hoare_ret. Qed.

#[local] Ltac varints :=
  repeat (apply hoare_attempt_keep; [apply varint_at_keeps|intros [? ?]]).

Lemma ack_ranges_keeps pt : ∀ fuel n p, hoare True C (ack_ranges fuel pt n p) (λ _, C).
Proof.
  induction fuel as [|fuel IH]; intros n p; simpl; (case_if; [by apply hoare_ret|]);
    [by apply hoare_no_fuel|]. varints. apply IH.
Qed.

Lemma skip_ack_keeps pt i ft : hoare True C (skip_ack pt i ft) (λ _, C).
Proof.
  unfold skip_ack. varints. apply hoare_attempt_keep; [apply ack_ranges_keeps|]. intros p.
  case_if; varints; by apply hoare_ret.
Qed.

Lemma crypto_span_keeps pt i : hoare True C (crypto_span pt i) (λ _, C).
Proof. unfold crypto_span. varints. case_if; by apply hoare_ret. Qed.

Lemma skip_ncid_keeps pt i : hoare True C (skip_ncid pt i) (λ _, C).
Proof. unfold skip_ncid. varints. repeat case_match; by apply hoare_ret. Qed.

Lemma close_at_keeps pt i : hoare True C (close_at pt i) (λ _, C).
Proof.
  intros c Hc. unfold close_at, slice_from. run. case_if; [|done].
  destruct (parse_connection_close _ c) as [o c'| | |] eqn:E; try done.
  destruct (close_state _ _ _ tt _ E) as [-> _]. by destruct o.
Qed.

Lemma initial_scan_keeps pt : ∀ fuel i, hoare True C (initial_scan_loop fuel pt i) (λ _, C).
Proof.
  induction fuel as [|fuel IH]; intros i; simpl; [by apply hoare_no_fuel|].
  destruct (byte_at pt i) as [ft|]; [|by apply hoare_ret].
  repeat (apply hoare_if; intros _).
  - apply IH.
  - apply hoare_attempt_keep; [apply skip_ack_keeps|]. intros. apply IH.
  - apply hoare_attempt_keep; [apply crypto_span_keeps|]. intros [p len]. apply IH.
  - apply close_at_keeps.
  - by apply hoare_ret.
Qed.
End Frames.

Section Scan.
Context {R : Rustls} (C : qclient → Prop).
Hypothesis C_read : ∀ c data c' r, C c → qclient_read_hs c data = (c', r) → C c'.

Lemma feed_keeps data : hoare True C (feed data) (λ _, C).
Proof. intros c Hc. unfold feed. destruct (qclient_read_hs c data) eqn:E. by eapply C_read. Qed.

Lemma rustls_scan_keeps pt : ∀ fuel i, hoare True C (rustls_scan_loop fuel pt i) (λ _, C).
Proof.
  induction fuel as [|fuel IH]; intros i; simpl; [by apply hoare_no_fuel|].
  destruct (byte_at pt i) as [ft|]; [|by apply hoare_ret].
  repeat (apply hoare_if; intros _).
  - apply IH.
  - apply hoare_attempt_keep; [apply skip_ack_keeps|]. intros. apply IH.
  - apply hoare_attempt_keep; [apply crypto_span_keeps|]. intros [p len].
    apply (hoare_bind _ _ (λ _, C)); [unfold slice; case_if; [by apply hoare_ret|apply hoare_panic]|].
    intros data. apply hoare_attempt_keep; [apply feed_keeps|]. intros. apply IH.
  - apply hoare_attempt_keep; [apply skip_ncid_keeps|]. intros. apply IH.
  - apply close_at_keeps.
  - apply IH.
  - by apply hoare_ret.
Qed.

Lemma scan_ends pt : all_bytes pt → hoare False C (scan_plaintext_into_rustls pt) (λ _, C).
Proof.
  intros Hpt c Hc.
  destruct (rustls_scan_completes pt Hpt (Datatypes.S (length pt)) 0
    ltac:(unfold zlen; lia) ltac:(unfold zlen; lia) c) as (r & c' & E).
  pose proof (rustls_scan_keeps pt (Datatypes.S (length pt)) 0 c Hc) as Hk. unfold scan_plaintext_into_rustls.
  rewrite E in *. exact Hk.
Qed.
End Scan.

(** ** The state of a driver *)

Section Sound.
Context {R : Rustls} `{!ByteLaws R} `{!HandshakeEnds R} {S : Type} `{KeysApiEnds S}.
Context (env : environment) (b0 : PacketBuilder).

Definition event_bytes (e : recv_event) : Prop :=
  match e with Datagram d => all_bytes d | RecvError _ _ => True end.

(** What arrives are bytes, and the connection is as [C] says. *)
Record sound (C : qclient → Prop) (cl : list Z) (b : bool) (h : harness (S:=S)) : Prop := {
  sound_clock : io_clock (h_io h) = cl;
  sound_injected : h_injected h = b;
  sound_dcid : dcid (h_builder h) = dcid b0;
  sound_scid : scid (h_builder h) = scid b0;
  sound_conn : C (h_conn h);
  sound_inbox : Forall event_bytes (io_inbox (h_io h));
}.

Lemma sound_same C cl b b' h h' :
  io_clock (h_io h') = io_clock (h_io h) → io_inbox (h_io h') = io_inbox (h_io h) →
  h_injected h' = b' → dcid (h_builder h') = dcid (h_builder h) →
  scid (h_builder h') = scid (h_builder h) → h_conn h' = h_conn h →
  sound C cl b h → sound C cl b' h'.
Proof. intros Hc Hi Hj Hd Hs Hq [? ? ? ? ? ?]. split; rewrite ?Hc, ?Hi, ?Hd, ?Hs, ?Hq; done. Qed.

Lemma sound_shim {A} (c : prog S A) Q C cl b : ends c Q →
  hoare False (sound C cl b) (on_shim c) (λ a h, Q a ∧ sound C cl b h).
Proof.
  intros Hc. eapply hoare_lift; [exact Hc|done|]. intros h a s Hh HQ. split; [done|].
  apply (sound_same C cl b b h); try done. apply Hh.
Qed.

Lemma sound_shim_any {A} (c : prog S A) C cl b : ends c (λ _, True) →
  hoare False (sound C cl b) (on_shim c) (λ _, sound C cl b).
Proof. intros Hc. eapply hoare_conseq; [by apply sound_shim|done|]. by intros ? ? [_ ?]. Qed.

Lemma sound_os_call what C cl b :
  hoare False (sound C cl b) (on_io (os_call what)) (λ _, sound C cl b).
Proof.
  intros h Hh. unfold on_io, lift, os_call, os_result, mbind, prog_bind.
  destruct (default None _); (apply (sound_same C cl b b h); try done; apply Hh).
Qed.

Lemma sound_open C cl b : hoare False (sound C cl b) (on_io open_socket) (λ _, sound C cl b).
Proof.
  intros h Hh. unfold on_io, lift, open_socket, attempt, os_call, os_result, mbind, prog_bind.
  destruct (default None _); [|simpl; destruct (default None _)];
    (apply (sound_same C cl b b h); try done; apply Hh).
Qed.

Lemma sound_send what pkt C cl b :
  hoare False (sound C cl b) (on_io (send_to what pkt)) (λ _, sound C cl b).
Proof.
  intros h Hh. unfold on_io, lift. destruct (send_to_cases what pkt (h_io h)) as (rest & [->|[e ->]]);
    (apply (sound_same C cl b b h); try done; apply Hh).
Qed.

Lemma sound_recv C cl b cap : hoare False (sound C cl b) (on_io (recv_from cap))
  (λ ev h, event_bytes ev ∧ sound C cl b h).
Proof.
  intros h [? ? ? ? ? Hi]. unfold on_io, lift, recv_from.
  destruct (io_inbox (h_io h)) as [|e l] eqn:E; simpl; [by split; [|split; rewrite ?E]|].
  inversion Hi; subst. destruct e as [d|? ?]; simpl; (split; [|by split; rewrite ?E]); [|done].
  by apply Forall_take.
Qed.

Lemma talking_kept keys :
  kept False all_bytes all_bytes (λ _, True) (λ _, True) keys (sound talking).
Proof.
  split; intros.
  - by eapply sound_clock.
  - by eapply sound_injected.
  - intros h [Hc ? ? ? ? ?]. split; [by rewrite Hc|]. split; simpl; try done. by rewrite Hc.
  - intros h Hh. apply (sound_same talking cl b b h); try done; apply Hh.
  - apply sound_recv.
  - done.
  - apply sound_shim. by apply decrypt_reply_ends.
  - by apply decrypt_long_ends.
  - by apply decrypt_short_ends.
  - eapply hoare_lift; [by apply (scan_ends talking talking_read)|intros h Hh; apply Hh|].
    intros h a c [? ? ? ? ? ?] Hc. split; [by destruct a as [?|[?|]]|by split].
  - by apply Forall_drop.
  - by apply bytes_of_sub.
  - right. apply long_header_progress.
Qed.

Lemma sound_keys d cl b : hoare False (sound talking cl b) (on_shim (initial_keys Client d))
  (λ r h, match r with inl _ => True | inr _ => True end ∧ sound talking cl b h).
Proof.
  eapply hoare_conseq; [apply sound_shim_any, initial_keys_ends|done|]. by intros [?|?].
Qed.

(** ** Pumping ends *)

Lemma sound_initial what out keys C cl b :
  hoare False (sound C cl b) (send_initial what out keys) (λ _, sound C cl b).
Proof.
  unfold send_initial. apply (hoare_bind _ _ (λ bl h, dcid bl = dcid b0 ∧ scid bl = scid b0 ∧ sound C cl b h)).
  { apply hoare_gets. intros h Hh. split_and!; [apply Hh|apply Hh|done]. }
  intros bl. apply hoare_pure. intros Hd. apply hoare_pure. intros Hs.
  eapply hoare_bind; [apply sound_shim, encode_initial_ends|]. intros [pkt b'].
  apply hoare_pure. simpl. intros ->. eapply hoare_bind; [|intros; apply sound_send].
  apply hoare_modify. by intros h [? ? ? ? ? ?].
Qed.

Lemma stateless_ends {A X} (c : ∀ X, prog X A) (P : X → Prop) :
  stateless c → c unit tt ≠ NoFuel → hoare False P (c X) (λ _, P).
Proof. intros Hc Hn x Hx. rewrite Hc. by destruct (c unit tt). Qed.

Lemma push_varint_fuel {X} v out (x : X) : push_varint v out x ≠ NoFuel.
Proof. unfold push_varint. by destruct (encode_varint v out). Qed.

Lemma seal_packet_fuel {X} n1 n2 n3 hdr off pn pt k (x : X) :
  seal_packet n1 n2 n3 hdr off pn pt k x ≠ NoFuel.
Proof.
  unfold seal_packet. destruct (pkey_encrypt_in_place _ _ _ _) as [? [?|?]]; [done|].
  cbv zeta. destruct (_ <? _); [done|]. by destruct (hkey_encrypt_in_place _ _ _ _) as [[? ?] [?|?]].
Qed.

Lemma bind_fuel {A B X} (c : prog X A) (k : A → prog X B) x :
  c x ≠ NoFuel → (∀ a x', k a x' ≠ NoFuel) → (c ≫= k) x ≠ NoFuel.
Proof. intros Hc Hk. unfold mbind, prog_bind. by destruct (c x). Qed.

Lemma build_handshake_ends d s pn data k C cl b :
  hoare False (sound C cl b) (build_handshake_packet d s pn data k) (λ _, sound C cl b).
Proof.
  apply (stateless_ends (λ X, build_handshake_packet (S:=X) d s pn data k));
    [apply build_handshake_stateless|].
  unfold build_handshake_packet. do 2 (apply bind_fuel; [apply push_varint_fuel|intros]).
  cbv zeta. apply bind_fuel; [apply push_varint_fuel|intros]. apply seal_packet_fuel.
Qed.

Lemma sound_handshake what d s out hs C cl b :
  hoare False (sound C cl b) (send_handshake what d s out hs) (λ _, sound C cl b).
Proof.
  unfold send_handshake. apply hoare_read. intros pn.
  apply hoare_attempt_keep; [apply build_handshake_ends|]. intros pkt.
  apply hoare_attempt_keep; [apply sound_send|]. intros [].
  eapply (hoare_bind _ _ (λ _, sound C cl b)); [|intros; by apply hoare_ret].
  apply hoare_modify. by intros h [? ? ? ? ? ?].
Qed.

Lemma sound_store kc C cl b : hoare False (sound C cl b) (store_keys kc) (λ _, sound C cl b).
Proof.
  destruct kc as [[? ?|? ? ?]|]; simpl; [apply hoare_modify|apply hoare_modify|by apply hoare_ret];
    by intros h [? ? ? ? ? ?].
Qed.

(** A connection with at most [n] calls of [write_hs] ahead. *)
Definition within (n : nat) (c : qclient) : Prop := talking c ∧ quiet_within n c.

Lemma sound_write n cl b : hoare False (sound (within (Datatypes.S n)) cl b) (on_conn conn_write)
  (λ r h, sound (if is_nil r.1 && negb (is_some r.2) then talking else within n) cl b h).
Proof.
  intros h [? ? ? ? [Ht Hq] ?]. unfold on_conn, lift, conn_write. simpl in Hq.
  destruct (qclient_write_hs (h_conn h)) as [[c' out] kc] eqn:E.
  pose proof (talking_write _ _ _ _ Ht E) as Ht'. split; simpl; try done.
  destruct Hq as [[-> ->]|Hq]; [done|]. by case_if.
Qed.

Lemma sound_weaken n cl b h : sound (within n) cl b h → sound talking cl b h.
Proof. intros [? ? ? ? [? ?] ?]. by split. Qed.

Lemma error_or_on {A} n cl b (c : prog harness (string + A)) :
  hoare False (sound (within n) cl b) c (λ _, sound (within n) cl b) →
  hoare False (sound (within n) cl b) c (λ r h,
    match r with inl _ => sound talking cl b h | inr _ => sound (within n) cl b h end).
Proof.
  intros Hc. eapply hoare_conseq; [exact Hc|done|]. intros [?|?] h Hh; [by eapply sound_weaken|done].
Qed.

Lemma pump_ends d s keys : ∀ n cl b,
  hoare False (sound (within n) cl b) (pump_rustls_write_hs n d s keys) (λ _, sound talking cl b).
Proof.
  induction n as [|n IH]; intros cl b; [by intros h [? ? ? ? [? []] ?]|]. simpl.
  eapply hoare_bind; [apply sound_write|]. intros [out kc]. cbn [fst snd].
  apply hoare_if; intros Hq; rewrite Hq; [by apply hoare_ret|]. do 2 (apply hoare_read; intros ?).
  apply (hoare_attempt _ _ (λ _, sound (within n) cl b)).
  - apply error_or_on. repeat case_match; [by apply hoare_ret|by apply hoare_ret|apply sound_handshake|apply sound_initial].
  - intros []. eapply hoare_bind; [apply sound_store|]. intros []. apply IH.
Qed.

Lemma pump_discarding_ends keys : ∀ n cl b,
  hoare False (sound (within n) cl b) (pump_rustls_write_hs_discarding_finished n keys)
    (λ _, sound talking cl b).
Proof.
  induction n as [|n IH]; intros cl b; [by intros h [? ? ? ? [? []] ?]|]. simpl.
  eapply hoare_bind; [apply sound_write|]. intros [out kc]. cbn [fst snd].
  apply hoare_if; intros Hq; rewrite Hq; [by apply hoare_ret|]. apply hoare_read. intros ?.
  apply (hoare_attempt _ _ (λ _, sound (within n) cl b)).
  - apply error_or_on. case_match; [apply sound_initial|by apply hoare_ret].
  - intros []. eapply hoare_bind; [apply sound_store|]. intros []. apply IH.
Qed.

Lemma from_talking {A} (c : prog harness A) Q cl b :
  hoare False (sound (within flights) cl b) c Q → hoare False (sound talking cl b) c Q.
Proof.
  intros Hc. eapply hoare_conseq; [exact Hc| |done]. intros h [? ? ? ? Ht ?].
  split; try done. split; [done|by apply talking_quiet].
Qed.
(** ** The drivers with a connection *)

Lemma sound_talk cl b : hoare False (sound talking cl b) (on_conn conn_write) (λ _, sound talking cl b).
Proof.
  intros h [? ? ? ? Ht ?]. unfold on_conn, lift, conn_write.
  destruct (qclient_write_hs (h_conn h)) as [[c' out] kc] eqn:E.
  pose proof (talking_write _ _ _ _ Ht E). by split.
Qed.

Lemma sound_first keys cl b :
  hoare False (sound talking cl b) (first_flight "send Initial" keys) (λ _, sound talking cl b).
Proof.
  eapply hoare_bind; [apply sound_talk|]. intros [out kc].
  do 2 (apply hoare_if; intros _; [by apply hoare_ret|]). apply sound_initial.
Qed.

Lemma sound_inject inj d s cl :
  hoare False (sound talking cl false) (inject_once inj d s) (λ r, sound talking cl (sent_now r)).
Proof.
  unfold inject_once. apply (hoare_attempt _ _ (λ _, sound talking cl false)).
  - eapply (hoare_conseq _ _ (sound talking cl false) _ (λ _, sound talking cl false));
      [|done|by intros [?|?]].
    unfold inject_now. destruct (epoch inj); apply hoare_read.
    + intros [hs|]; [apply sound_handshake|by apply hoare_ret].
    + intros [k|]; [|by apply hoare_ret]. eapply (hoare_bind _ _ (λ _, sound talking cl false)).
      { apply (stateless_ends (λ X, encode_crypto_frame (S:=X) 0 (inj_bytes inj)));
          [apply crypto_frame_stateless|]. unfold encode_crypto_frame.
        do 2 (apply bind_fuel; [apply push_varint_fuel|intros]). done. }
      intros fr. apply hoare_read. intros pn. apply hoare_attempt_keep.
      { apply (stateless_ends (λ X, build_short_header_crypto_packet (S:=X) d pn fr k.1));
          [apply seal_packet_stateless|apply seal_packet_fuel]. }
      intros pkt. apply hoare_attempt_keep; [apply sound_send|]. intros [].
      eapply (hoare_bind _ _ (λ _, sound talking cl false)); [|intros; by apply hoare_ret].
      apply hoare_modify. by intros h [? ? ? ? ? ?].
  - intros []. eapply (hoare_bind _ _ (λ _, sound talking cl true)); [|intros; by apply hoare_ret].
    apply hoare_modify. by intros h [? ? ? ? ? ?].
Qed.

Lemma sound_cids cl b h : sound talking cl b h →
  dcid (h_builder h) = dcid b0 ∧ scid (h_builder h) = scid b0.
Proof. intros Hh. split; apply Hh. Qed.

Lemma full_ends cl b :
  hoare False (sound talking cl b) (full_body env flights) (λ _, at_end (sound talking)).
Proof.
  eapply (hoare_conseq _ _ (sound talking cl b) _ (then_earned (λ _, True) (at_end (sound talking))));
    [|done|by intros ? ? [_ ?]].
  apply (full_body_rule env False all_bytes all_bytes (λ _, True) (λ _, True)
           (dcid b0) (scid b0) (sound talking) (λ _, sound talking) (at_end (sound talking))); intros.
  - apply talking_kept.
  - by eapply sound_cids.
  - eapply hoare_conseq; [apply sound_keys|done|]. intros [?|?] h [_ Hh]; [exact (at_end_I (sound talking) _ _ h Hh)|done].
  - eapply hoare_conseq; [apply sound_shim_any, keys_drop_ends|done|]. intros ? h Hh. exact (at_end_I (sound talking) _ _ h Hh).
  - apply sound_open.
  - apply sound_first.
  - apply from_talking, pump_ends.
Qed.

Lemma injection_ends inj cl :
  hoare False (sound talking cl false) (injection_body env flights inj) (λ _, at_end (sound talking)).
Proof.
  eapply (hoare_conseq _ _ (sound talking cl false) _
            (then_earned (λ _, True) (at_end (sound talking)))); [|done|by intros ? ? [_ ?]].
  apply (injection_body_rule env False all_bytes all_bytes (λ _, True) (λ _, True)
           (dcid b0) (scid b0) (sound talking) (λ _, sound talking) (at_end (sound talking))); intros.
  - apply talking_kept.
  - by eapply sound_cids.
  - eapply hoare_conseq; [apply sound_keys|done|]. intros [?|?] h [_ Hh]; [exact (at_end_I (sound talking) _ _ h Hh)|done].
  - eapply hoare_conseq; [apply sound_shim_any, keys_drop_ends|done|]. intros ? h Hh. exact (at_end_I (sound talking) _ _ h Hh).
  - apply sound_open.
  - apply sound_first.
  - apply from_talking. unfold pump_for. destruct (epoch inj); [apply pump_discarding_ends|apply pump_ends].
  - apply sound_inject.
Qed.

Lemma scan_first_ends pt : all_bytes pt → ends (scan_first_reply (S:=S) pt) (λ _, True).
Proof.
  intros Hpt w _. destruct (first_reply_completes pt Hpt (Datatypes.S (length pt)) 0
    ltac:(unfold zlen; lia) ltac:(unfold zlen; lia) w) as (r & w' & E).
  unfold scan_first_reply. by rewrite E.
Qed.

Lemma sound_reply C cl b cap : hoare False (sound C cl b) (on_io (one_reply cap))
  (λ r h, opens_plain all_bytes r ∧ sound C cl b h).
Proof.
  intros h Hh. pose proof (sound_recv C cl b cap h Hh) as Hr.
  unfold on_io, lift, one_reply, mbind, prog_bind in *.
  by destruct (recv_from cap (h_io h)) as [[d|t e] i| | |].
Qed.

Lemma initial_ends cl b :
  hoare False (sound talking cl b) (initial_body env) (λ _, sound talking cl b).
Proof.
  eapply hoare_bind; [apply sound_talk|]. intros [out kc].
  do 2 (apply hoare_if; intros _; [by apply hoare_ret|]). apply hoare_read. intros d.
  eapply hoare_bind; [apply sound_shim_any, initial_keys_ends|].
  intros [code|keys]; [by apply hoare_ret|].
  apply (hoare_bind _ _ (λ _, sound talking cl b)).
  2: { intros r. eapply hoare_bind; [apply sound_shim_any, keys_drop_ends|]. intros.
       by apply hoare_ret. }
  apply (hoare_bind _ _ (λ bl h, dcid bl = dcid b0 ∧ scid bl = scid b0 ∧ sound talking cl b h)).
  { apply hoare_gets. intros h Hh. split_and!; [apply Hh|apply Hh|done]. }
  intros bl. apply hoare_pure. intros Hd. apply hoare_pure. intros Hs.
  eapply hoare_bind; [apply sound_shim, encode_initial_ends|]. intros [pkt b'].
  apply hoare_pure. simpl. intros ->. eapply (hoare_bind _ _ (λ _, sound talking cl b)).
  { apply hoare_modify. by intros h [? ? ? ? ? ?]. }
  intros _. apply hoare_attempt_keep; [apply sound_open|]. intros _.
  apply hoare_attempt_keep; [apply sound_send|]. intros _.
  apply (attempt_opened False all_bytes); [apply sound_reply|done|]. intros reply Hb.
  destruct (parse_long_header reply) as [hd|]; [|by apply hoare_ret].
  apply hoare_if; intros _; [by apply hoare_ret|].
  apply (attempt_opened False all_bytes); [by apply sound_shim, decrypt_reply_ends|done|]. intros pt Hpt.
  by apply sound_shim_any, scan_first_ends.
Qed.

Lemma connection_ends {A} tp config (p : process (S:=S)) Q
    (body : prog harness (string + A)) :
  Forall event_bytes (io_inbox p.2) →
  hoare False (sound talking (io_clock p.2) false) body Q →
  with_connection b0 tp config body p ≠ NoFuel.
Proof.
  intros Hin Hb. unfold with_connection. destruct (new_connection config tp) as [e|conn] eqn:E; [done|].
  assert (Ht : talking conn).
  { unfold new_connection in E. destruct (server_name_try_from _); [|done].
    destruct (qclient_new _ _ _ _) eqn:E'; [done|]. simplify_eq. by eapply talking_new. }
  pose proof (hoare_ends _ body Q (start p conn b0) Hb) as Hn.
  destruct (body (start p conn b0)); try done. by destruct Hn.
Qed.

(** ** The driver without one *)

Definition arrived (p : process (S:=S)) : Prop := Forall event_bytes (io_inbox p.2).

Lemma arrived_shim {A} (c : prog S A) Q : ends c Q →
  hoare False arrived (p_shim c) (λ a p, Q a ∧ arrived p).
Proof. intros Hc. eapply hoare_lift; [exact Hc|done|done]. Qed.

Lemma arrived_any {A} (c : prog S A) Q : ends c Q → hoare False arrived (p_shim c) (λ _, arrived).
Proof. intros Hc. eapply hoare_conseq; [by apply arrived_shim|done|]. by intros ? ? [_ ?]. Qed.

Lemma arrived_open : hoare False arrived (p_io open_socket) (λ _, arrived).
Proof.
  intros p Hp. unfold p_io, lift, open_socket, attempt, os_call, os_result, mbind, prog_bind.
  destruct (default None _); [done|]. simpl. by destruct (default None _).
Qed.

Lemma arrived_send what pkt : hoare False arrived (p_io (send_to what pkt)) (λ _, arrived).
Proof.
  intros p Hp. unfold p_io, lift. by destruct (send_to_cases what pkt p.2) as (rest & [->|[e ->]]).
Qed.

Lemma arrived_reply cap : hoare False arrived (p_io (one_reply cap))
  (λ r p, opens_plain all_bytes r ∧ arrived p).
Proof.
  intros p Hp. unfold p_io, lift, one_reply, mbind, prog_bind, recv_from, arrived in *.
  destruct (io_inbox p.2) as [|e l]; simpl; [done|]. inversion Hp; subst.
  destruct e; simpl; (split; [|done]); [by apply Forall_take|done].
Qed.

Lemma scan_initial_ends pt : all_bytes pt →
  ends (scan_initial_plaintext_for_cc (S:=S) pt) (λ _, True).
Proof.
  intros Hpt w _. destruct (initial_scan_completes pt Hpt (Datatypes.S (length pt)) 0
    ltac:(unfold zlen; lia) ltac:(unfold zlen; lia) w) as (r & w' & E).
  unfold scan_initial_plaintext_for_cc. by rewrite E.
Qed.

Lemma attempt_plain {B} (c : prog process (string + bytes)) (k : bytes → prog process (string + B)) :
  hoare False arrived c (λ r p, opens_plain all_bytes r ∧ arrived p) →
  (∀ pt, all_bytes pt → hoare False arrived (k pt) (λ _, arrived)) →
  hoare False arrived (attempt c k) (λ _, arrived).
Proof.
  intros Hc Hk. apply (hoare_attempt _ _ (λ pt p, all_bytes pt ∧ arrived p)).
  - eapply hoare_conseq; [exact Hc|done|]. by intros [?|?] ? [? ?].
  - intros pt. apply hoare_pure, Hk.
Qed.

Lemma raw_walk_ends keys reply : all_bytes reply → ∀ fuel offset,
  0 ≤ offset → zlen reply - offset ≤ Z.of_nat fuel →
  hoare False arrived (raw_walk fuel keys reply offset) (λ _, arrived).
Proof.
  intros Hb. induction fuel as [|fuel IH]; intros offset Ho Hf; simpl;
    (destruct (drop (Z.to_nat offset) reply) as [|x rest'] eqn:E; [by apply hoare_ret|]).
  { apply (f_equal length) in E. rewrite length_drop in E. unfold zlen in Hf. simpl in E. lia. }
  rewrite <- E in *. assert (Hr : all_bytes (drop (Z.to_nat offset) reply)) by by apply Forall_drop.
  apply hoare_if; intros _; [by apply hoare_ret|].
  destruct (parse_long_header _) as [hd|] eqn:Eh; [|by apply hoare_ret].
  pose proof (long_header_progress _ _ Hr Eh) as Hp.
  apply hoare_if; intros _; [by apply hoare_ret|].
  apply hoare_if; intros _; [apply IH; lia|].
  apply attempt_plain; [by apply arrived_shim, decrypt_reply_ends, bytes_of_sub|]. intros pt Hpt.
  apply hoare_attempt_keep; [by eapply arrived_any, scan_initial_ends|].
  intros [cc|]; [by apply hoare_ret|apply IH; lia].
Qed.

Lemma raw_ends ch :
  hoare False arrived (drive_handshake_with_raw_clienthello env b0 ch) (λ _, arrived).
Proof.
  apply hoare_if; intros _; [by apply hoare_ret|].
  eapply hoare_bind; [eapply arrived_any, initial_keys_ends|].
  intros [code|keys]; [by apply hoare_ret|].
  apply (hoare_bind _ _ (λ _, arrived)).
  2: { intros r. eapply hoare_bind; [eapply arrived_any, keys_drop_ends|]. intros. by apply hoare_ret. }
  eapply hoare_bind; [eapply arrived_any, encode_initial_ends|]. intros [pkt b'].
  apply hoare_attempt_keep; [apply arrived_open|]. intros _.
  apply hoare_attempt_keep; [apply arrived_send|]. intros _.
  apply attempt_plain; [apply arrived_reply|]. intros reply Hb.
  apply raw_walk_ends; [done|lia|unfold zlen; lia].
Qed.
End Sound.

(** C25: whatever arrives, in whatever order and however damaged, no driver
    runs on: each returns (or panics) after finitely many steps, the pumps
    within the number of calls after which the TLS connection is silent. *)
Theorem drivers_end {R : Rustls} `{!ByteLaws R} `{!HandshakeEnds R} {S : Type} `{KeysApiEnds S}
    env b tp ch inj (p : process (S:=S)) :
  Forall event_bytes (io_inbox p.2) →
  drive_handshake_initial env b tp p ≠ NoFuel ∧
  drive_handshake_initial_no_alpn env b tp p ≠ NoFuel ∧
  drive_handshake_with_raw_clienthello env b ch p ≠ NoFuel ∧
  drive_handshake_full env flights b tp p ≠ NoFuel ∧
  drive_handshake_with_injection env flights b tp inj p ≠ NoFuel.
Proof.
  intros Hp. split_and!.
  - eapply connection_ends; [done|apply initial_ends].
  - eapply connection_ends; [done|apply initial_ends].
  - eapply hoare_ends; [apply raw_ends|done].
  - eapply connection_ends; [done|apply full_ends].
  - unfold drive_handshake_with_injection. case_if; [done|].
    eapply connection_ends; [done|apply injection_ends].
Qed.

(** ** The concrete provider *)

Lemma toy_quiet n (c : @qclient toy) : (length (q_script c) < n)%nat → quiet_within n c.
Proof.
  revert c. induction n as [|n IH]; intros c Hc; [lia|]. simpl. unfold toy_write_hs.
  destruct (q_script c) as [|[b k] s] eqn:E; [by left|]. right. apply IH. simpl in *. lia.
Qed.

#[global] Instance toy_handshake_ends : HandshakeEnds toy.
Proof.
  refine {| flights := 5; talking := λ q : @qclient toy, (length (q_script q) < 5)%nat |}.
  - intros config v name tp c [= <-]. simpl. lia.
  - intros c c' out kc Hc. simpl. unfold toy_write_hs.
    destruct (q_script c) as [|[? ?] s] eqn:E; intros [= <- <- <-]; simpl in *; rewrite ?E; simpl; lia.
  - by intros c data c' r Hc [= <- <-].
  - intros c. apply toy_quiet.
Defined.

Lemma drivers_end_witness :
  drive_handshake_initial quiet_env pair_builder [7] quiet_start ≠ NoFuel ∧
  drive_handshake_initial_no_alpn quiet_env pair_builder [7] quiet_start ≠ NoFuel ∧
  drive_handshake_with_raw_clienthello quiet_env pair_builder [1; 0] quiet_start ≠ NoFuel ∧
  drive_handshake_full quiet_env (flights (R:=toy)) pair_builder [7] quiet_start ≠ NoFuel ∧
  drive_handshake_with_injection quiet_env (flights (R:=toy)) pair_builder [7]
    {| epoch := EpochOneRtt; inj_bytes := [24] |} quiet_start ≠ NoFuel.
Proof.
  exact (drivers_end (R:=toy) (S:=world) quiet_env pair_builder [7] [1; 0]
           {| epoch := EpochOneRtt; inj_bytes := [24] |} quiet_start
           ltac:(repeat constructor)).
Defined.
End DriverEnds.
