(* ===== verification/HarnessTests.v ===== *)
(** * The unit tests of the TLS harness

    The tests in [lib.rs], [quic_packet.rs] and [raw_client_hello.rs] of
    [src/conformance/tls-conformance/src], as programs over the model: a failed
    assertion is a panic. The test that reads back a field of a rustls
    configuration is left out. *)

From S2P Require Import Prelude Effects Rustls World Toy Utf8 Varint Format QuicKeysFacts QuicPacket.
From S2P Require Import FrameScan RustlsPackets TransportParams RawClientHello Drivers.
Import Effects Rustls World Toy Utf8 Varint Format QuicKeysFacts QuicPacket.
Import FrameScan RustlsPackets TransportParams RawClientHello Drivers.

Module HarnessTests.

(** A test has no state of its own. *)
Definition test : Type := prog unit unit.

(** The builders of blocks panic on an integer that does not fit. *)
Definition block_of (o : option bytes) : prog unit bytes := expect o "value too large for QUIC varint".

(** ** lib.rs *)

(** [set_var], [remove_var] *)
Definition set_var (name value : string) (env : environment) : environment :=
  λ n, if String.eqb n name then Some value else env n.
Definition remove_var (name : string) (env : environment) : environment :=
  λ n, if String.eqb n name then None else env n.

Definition server_addr_reads_port_env (env : environment) : test :=
  let env := set_var "TLS_SERVER_PORT" "5555" env in
  assert_ (server_port env =? 5555) "port";;
  let env := remove_var "TLS_SERVER_PORT" env in
  assert_ (server_port env =? 4433) "port".

(** [walk_tp]: [f] on each entry, from [i] on; each entry takes at least two of
    the bytes that the fuel counts. The closure threads what it captures. *)
Fixpoint walk_tp {A} (fuel : nat) (tp : bytes) (i : Z) (f : Z → Z → bytes → A → prog unit A) (x : A)
  : prog unit (A * Z) :=
  match fuel with
  | O => no_fuel
  | Datatypes.S fuel =>
      if i <? zlen tp then
        '(id, c) ← expect (decode_varint (drop (Z.to_nat i) tp)) "id varint";
        let i := i + c in
        '(len, c) ← expect (decode_varint (drop (Z.to_nat i) tp)) "len varint";
        let i := i + c in
        assert_ (i + len <=? zlen tp) "value bounds for id";;
        x ← f id len (sub i len tp) x;
        walk_tp fuel tp (i + len) f x
      else mret (x, i)
  end.

Definition walk {A} (tp : bytes) (f : Z → Z → bytes → A → prog unit A) (x : A) : prog unit (A * Z) :=
  walk_tp (Datatypes.S (length tp)) tp 0 f x.

Definition collect_tp_ids (tp : bytes) : prog unit (list Z * Z) :=
  walk tp (λ id _ _ ids, mret (ids ++ [id])) [].

Definition has (ids : list Z) (id : Z) : bool := existsb (Z.eqb id) ids.

Definition server_tp_bytes_well_formed_decodes : test :=
  tp ← block_of server_tp_bytes_well_formed;
  assert_ (0 <? zlen tp) "transport params must be non-empty";;
  '(seen_initial_scid, i) ← walk tp (λ id _ _ seen, mret (if id =? 0x0f then true else seen)) false;
  assert_ (i =? zlen tp) "TP block walked exactly";;
  assert_ seen_initial_scid "initial_source_connection_id (0x0f) present".

(** The walk of F02 to F06, and what the block must hold. *)
Definition block_holds (block : option bytes) (required : list Z) (name : string) : test :=
  tp ← block_of block;
  '(ids, consumed) ← collect_tp_ids tp;
  assert_ (consumed =? zlen tp) (name +:+ " TP block walks cleanly");;
  assert_ (forallb (has ids) required) (name +:+ " parameters").

Definition f02_omits_initial_scid_only : test :=
  tp ← block_of f02_missing_initial_scid;
  '(ids, consumed) ← collect_tp_ids tp;
  assert_ (consumed =? zlen tp) "F02 TP block walks cleanly";;
  assert_ (negb (has ids 0x0f)) "F02 must omit initial_source_connection_id";;
  assert_ (forallb (has ids) [0x01; 0x03; 0x04; 0x05; 0x06; 0x07; 0x08; 0x09]) "F02 keeps id".

Definition f03_appends_original_dcid : test := block_holds f03_original_dcid_forbidden [0x0f; 0x00] "F03".
Definition f05_appends_retry_scid : test := block_holds f05_retry_scid_forbidden [0x0f; 0x10] "F05".
Definition f06_appends_stateless_reset_token : test := block_holds f06_stateless_reset_forbidden [0x0f; 0x02] "F06".

(** The second walk of F04, which stops at the entry. *)
Fixpoint find_preferred (fuel : nat) (tp : bytes) (i : Z) : test :=
  match fuel with
  | O => no_fuel
  | Datatypes.S fuel =>
      if i <? zlen tp then
        '(id, c) ← expect (decode_varint (drop (Z.to_nat i) tp)) "unwrap";
        let i := i + c in
        '(len, c) ← expect (decode_varint (drop (Z.to_nat i) tp)) "unwrap";
        let i := i + c in
        if id =? 0x0d then assert_ (len =? 42) "preferred_address with 1-byte CID"
        else find_preferred fuel tp (i + len)
      else mret tt
  end.

Definition f04_appends_preferred_address_with_42_byte_value : test :=
  block_holds f04_preferred_addr_forbidden [0x0d] "F04";;
  tp ← block_of f04_preferred_addr_forbidden;
  find_preferred (Datatypes.S (length tp)) tp 0.

Definition f07_emits_max_udp_payload_1100 : test :=
  tp ← block_of f07_max_udp_payload_below_min;
  '(found, _) ← walk tp (λ id len value found,
    if id =? 0x03 then
      assert_ (len =? 2) "max_udp_payload_size 1100 encodes as 2-byte varint";;
      assert_ (bool_decide (value = [0x44; 0x4c])) "1100 big-endian 2-byte varint";;
      mret true
    else mret found) false;
  assert_ found "TP id 0x03 missing".

Definition f08_appends_ack_delay_exp_21 : test :=
  base ← block_of server_tp_bytes_well_formed;
  tp ← block_of f08_ack_delay_exponent_above_max;
  assert_ (zlen tp =? zlen base + 3) "one appended 0x0a entry = 3 bytes";;
  '(found, _) ← walk tp (λ id _ value found,
    if id =? 0x0a then
      assert_ (bool_decide (value = [21])) "ack_delay_exponent value is 21";; mret true
    else mret found) false;
  assert_ found "appended 0x0a not found".

Definition f09_appends_max_ack_delay_16384 : test :=
  tp ← block_of f09_max_ack_delay_above_threshold;
  '(found, _) ← walk tp (λ id len value found,
    if id =? 0x0b then
      assert_ (len =? 4) "max_ack_delay 16384 encodes as 4-byte varint";;
      assert_ (bool_decide (value = [0x80; 0x00; 0x40; 0x00])) "16384 big-endian 4-byte varint";;
      mret true
    else mret found) false;
  assert_ found "appended 0x0b not found".

Definition encode_crypto_frame_offset_zero : test :=
  out ← encode_crypto_frame 0 [0x18; 0x00; 0x00; 0x01; 0x00];
  assert_ (bool_decide (out = [0x06; 0x00; 0x05; 0x18; 0x00; 0x00; 0x01; 0x00])) "frame".

Definition encode_crypto_frame_offset_large : test :=
  out ← encode_crypto_frame 200 [0x05; 0x00; 0x00; 0x00];
  assert_ (bool_decide (out = [0x06; 0x40; 0xc8; 0x04; 0x05; 0x00; 0x00; 0x00])) "frame".

Section Injection.
Context {R : Rustls} {S : Type} `{KeysApi S} (env : environment).

(** Its state is the process of a driver, of which it uses nothing. *)
Definition injection_size_check_rejects_oversize (fuel : nat) : prog (process (S:=S)) unit :=
  tp ← expect server_tp_bytes_well_formed "value too large for QUIC varint";
  res ← drive_handshake_with_injection env fuel
          {| dcid := replicate 8 1; scid := replicate 8 2; packet_number := 0 |} tp
          {| epoch := EpochHandshake; inj_bytes := replicate 1200 0 |};
  match res with
  | inr _ => panic "assertion failed: res.is_err()"
  | inl err => assert_ (contains (string_bytes err) (string_bytes "MTU")) "expected MTU error"
  end.
End Injection.

(** ** quic_packet.rs *)

Section Packet.
Context {S : Type} `{KeysApi S}.

(** A parsed header ends behind the first byte, so that [head[0]] is there. An
    [FfiError] of the function itself has the code -1. *)
Definition decrypt_initial_for_test (pkt : bytes) (header : LongHeader) (keys : Z) : prog S (Z + bytes) :=
  let buf := pkt in
  let pn_offset := payload_offset header in
  let so := pn_offset + 4 in
  if zlen buf <? so + 16 then mret (inl (-1))
  else
    let sample := sub so 16 buf in
    '(r, (first_byte, rest4)) ← remote_header_unprotect keys sample (default 0 (head buf)) (sub pn_offset 4 buf);
    let buf := splice pn_offset rest4 (splice 0 [first_byte] buf) in
    match r with
    | inl code => mret (inl code)
    | inr _ =>
        let pn_length := Z.land first_byte 0x03 + 1 in
        let header_len := pn_offset + pn_length in
        let pn := be_val (sub pn_offset pn_length buf) in
        let header_bytes := sub 0 header_len buf in
        let end_ := pn_offset + lh_length header in
        if (end_ <? header_len) || (zlen buf <? end_) then panic "slice index out of range"
        else
          '(r, payload') ← remote_decrypt keys pn header_bytes (sub header_len (end_ - header_len) buf);
          let buf := splice header_len payload' buf in
          match r with
          | inl code => mret (inl code)
          | inr pt => mret (inr (sub header_len pt buf))
          end
    end.

(** The random bytes are arguments. Both key handles are dropped at the end,
    the last first. *)
Definition initial_packet_round_trips_through_keys (dcid crypto : bytes) : prog S unit :=
  let builder := builder_new dcid (replicate 8 0) in
  r ← initial_keys Client dcid;
  client_keys ← expect_ok r "client keys";
  '(pkt, builder) ← encode_initial builder crypto client_keys;
  assert_ (INITIAL_MIN_BYTES <=? zlen pkt) "padded to anti-amp min";;
  r ← initial_keys Server dcid;
  server_keys ← expect_ok r "server keys";
  header ← expect (parse_long_header pkt) "long header parses";
  assert_ (packet_type header =? 0) "packet_type";;
  assert_ (version header =? 1) "version";;
  assert_ (bool_decide (lh_dcid header = dcid)) "DCID round-trips";;
  r ← decrypt_initial_for_test pkt header server_keys;
  plaintext ← expect_ok r "decrypt";
  b ← expect (head plaintext) "index out of bounds";
  assert_ (b =? 0x06) "CRYPTO frame type";;
  if negb (fits 4 (zlen crypto) plaintext) then panic "slice index out of range"
  else
    assert_ (bool_decide (sub 4 (zlen crypto) plaintext = crypto)) "AEAD round-trip";;
    keys_drop server_keys;;
    keys_drop client_keys.
End Packet.

Definition varint_round_trip : test :=
  for_loop 9 0 (λ i _,
    let v := nth (Z.to_nat i) [0; 1; 63; 64; 16383; 16384; Z.shiftl 1 29; Z.shiftl 1 30 - 1; Z.shiftl 1 30] 0 in
    buf ← block_of (encode_varint v []);
    d ← expect (decode_varint buf) "decode";
    assert_ (d.1 =? v) "round-trip") tt.

Definition check_close (buf : bytes) (code frame : Z) (text : string) : test :=
  o ← parse_connection_close buf;
  cc ← expect o "cc";
  assert_ ((error_code cc =? code) && (frame_type cc =? frame) &&
           bool_decide (reason cc = string_bytes text)) "close".

Definition connection_close_parses_both_variants : test :=
  buf ← block_of (b ← encode_varint 0x0a [0x1c]; b ← encode_varint 0x06 b; encode_varint 5 b);
  check_close (buf ++ string_bytes "hello") 0x0a 0x1c "hello";;
  buf ← block_of (b ← encode_varint 0x0103 [0x1d]; encode_varint 3 b);
  check_close (buf ++ string_bytes "bye") 0x0103 0x1d "bye".

(** ** raw_client_hello.rs *)

(** [ch.windows(2).any(|w| w == needle)] *)
Fixpoint windows2 (l : bytes) : list bytes :=
  match l with
  | a :: l' => match l' with b :: _ => [a; b] :: windows2 l' | [] => [] end
  | [] => []
  end.
Definition any_window (needle l : bytes) : bool := existsb (λ w, bool_decide (w = needle)) (windows2 l).

(** [default().build().unwrap()] with these random bytes. *)
Definition built (random : bytes) : prog unit bytes :=
  match build default_hello random with inr ch => mret ch | inl e => panic e end.

Definition raw_ch_starts_with_handshake_type_client_hello (random : bytes) : test :=
  ch ← built random;
  assert_ (0 <? zlen ch) "CH must be non-empty";;
  assert_ (default 0 (head ch) =? 0x01) "TLS HandshakeType = ClientHello (0x01)".

Definition raw_ch_does_not_contain_quic_tp_extension (random : bytes) : test :=
  ch ← built random;
  assert_ (negb (any_window [0x00; 0x39] ch)) "quic_transport_parameters codepoint (0x0039) leaked into CH bytes".

Definition raw_ch_length_field_matches_body (random : bytes) : test :=
  ch ← built random;
  assert_ (4 <=? zlen ch) "CH must include 4-byte handshake header";;
  let at_ i := default 0 (ch !! i) in
  let declared := Z.lor (Z.lor (Z.shiftl (at_ 1%nat) 16) (Z.shiftl (at_ 2%nat) 8)) (at_ 3%nat) in
  assert_ (declared =? zlen ch - 4) "uint24 length matches body".

Definition raw_ch_contains_required_extensions (random : bytes) : test :=
  ch ← built random;
  assert_ (forallb (λ code, any_window (be_bytes 2 code) ch)
             [ext.SERVER_NAME; ext.SUPPORTED_VERSIONS; ext.SUPPORTED_GROUPS; ext.SIGNATURE_ALGORITHMS;
              ext.KEY_SHARE; ext.APPLICATION_LAYER_PROTO_NEG]) "required extension missing from CH".

(** ** They pass *)

Lemma windows2_app k x l : windows2 (k ++ x :: l) = windows2 (k ++ [x]) ++ windows2 (x :: l).
Proof.
  induction k as [|a k IH]; [done|]. destruct k as [|b k]; [done|].
  change ((a :: b :: k) ++ x :: l) with (a :: b :: (k ++ x :: l)).
  change ((a :: b :: k) ++ [x]) with (a :: b :: (k ++ [x])). cbn [windows2]. simpl in *. by rewrite IH.
Qed.

Lemma any_window_app needle k x l :
  any_window needle (k ++ x :: l) = any_window needle (k ++ [x]) || any_window needle (x :: l).
Proof. unfold any_window. by rewrite windows2_app, existsb_app. Qed.

(** The message around the random bytes. *)
Definition hello_exts_bytes : bytes := Eval vm_compute in mjoin (encode_ext <$> hello_exts default_hello).
Definition before_random : bytes := [1; 0; 0; 43 + zlen hello_exts_bytes; 3; 3].
Definition after_random : bytes :=
  [0] ++ be_bytes 2 2 ++ [0x13; 0x01] ++ [1; 0] ++ be_bytes 2 (zlen hello_exts_bytes) ++ hello_exts_bytes.

Lemma built_eq random :
  zlen random = 32 → built random tt = Ret (before_random ++ random ++ after_random) tt.
Proof.
  intros Hr. assert (Hn : 1 ≤ zlen (server_name default_hello) ≤ 60000) by (split; by vm_compute).
  assert (Ha : 1 ≤ zlen (alpn default_hello) ≤ 255) by (split; by vm_compute).
  unfold built. rewrite (build_eq _ _ Hr Hn Ha), (zlen_body _ _ Hr).
  change (mjoin (encode_ext <$> hello_exts default_hello)) with hello_exts_bytes.
  reflexivity.
Qed.

Definition passes {S} (t : prog S unit) (s : S) : Prop := ∃ s', t s = Ret tt s'.

(** Where three parts meet. *)
Lemma any_window_mid needle k l m x y z :
  head l = Some x → last l = Some y → head m = Some z →
  any_window needle (k ++ l ++ m) =
    any_window needle (k ++ [x]) || (any_window needle l || (bool_decide ([y; z] = needle) || any_window needle m)).
Proof.
  intros Hx [l2 E2]%last_Some Hz. destruct l as [|x' l1]; [done|]. destruct m as [|z' m]; [done|].
  injection Hx as ->. injection Hz as ->. change ((x :: l1) ++ z :: m) with (x :: (l1 ++ z :: m)).
  rewrite any_window_app. f_equal. change (x :: l1 ++ z :: m) with ((x :: l1) ++ z :: m).
  rewrite E2, <- app_assoc. change ([y] ++ z :: m) with (y :: z :: m). by rewrite any_window_app.
Qed.

(** The test opens a packet as the harness does: where the one succeeds, so does
    the other, with the same plaintext. *)
Lemma decrypt_for_test_same {S} `{KeysApi S} pkt header keys s pt s' :
  decrypt_initial_inplace pkt header keys s = Ret (inr pt) s' →
  decrypt_initial_for_test pkt header keys s = Ret (inr pt) s'.
Proof.
  unfold decrypt_initial_inplace, decrypt_reply, decrypt_initial_for_test. case_if; [done|].
  intros ([r [b rest]] & s1 & E1 & H1)%bind_Ret_inv. rewrite (bind_Ret _ _ _ _ _ E1).
  destruct r as [|[]]; [done|]. destruct (_ <? payload_offset header + lh_length header); [done|].
  destruct (_ + _ <? _); [done|]. cbn [orb].
  apply bind_Ret_inv in H1 as ([r' p'] & s2 & E2 & H2). rewrite (bind_Ret _ _ _ _ _ E2). destruct r'; [done|]. by injection H2 as <- <-.
Qed.

(** On the shim, with Initial keys of the toy library. *)
Example initial_packet_test_passes :
  result_of (initial_packet_round_trips_through_keys (S:=world (R:=toy)) [1; 2; 3; 4; 5; 6; 7; 8] (replicate 256 9)
          (boot (mem_of []))) = Some tt.
Proof. by_eval. Qed.

Section All.
Context {R : Rustls} {S : Type} `{KeysApi S}.

Lemma raw_hello_tests random :
  zlen random = 32 →
  passes (raw_ch_starts_with_handshake_type_client_hello random) tt ∧
  passes (raw_ch_length_field_matches_body random) tt ∧
  passes (raw_ch_contains_required_extensions random) tt ∧
  (passes (raw_ch_does_not_contain_quic_tp_extension random) tt ↔ any_window [0x00; 0x39] random = false).
Proof.
  intros Hr. pose proof (built_eq random Hr) as Hb.
  assert (Hz : zlen (before_random ++ random ++ after_random) = 147).
  { rewrite !zlen_app, Hr. by vm_compute. }
  assert (Hm : ∃ x y, head random = Some x ∧ last random = Some y).
  { destruct random as [|x r]; [done|]. destruct (exists_last (l:=x :: r)) as (k & y & E); [done|].
    exists x, y. split; [done|]. by rewrite E, last_snoc. }
  destruct Hm as (x & y & Hx & Hy).
  assert (Hw : ∀ n, any_window n (before_random ++ random ++ after_random) = _) by
    (intros n; exact (any_window_mid n before_random random after_random x y 0 Hx Hy eq_refl)).
  split_and!; unfold passes.
  - eexists. unfold raw_ch_starts_with_handshake_type_client_hello. rewrite (bind_Ret _ _ _ _ _ Hb).
    rewrite Hz. reflexivity.
  - eexists. unfold raw_ch_length_field_matches_body. rewrite (bind_Ret _ _ _ _ _ Hb). rewrite Hz. reflexivity.
  - eexists. unfold raw_ch_contains_required_extensions. rewrite (bind_Ret _ _ _ _ _ Hb).
    cbn [forallb]. rewrite !Hw.
    rewrite !(orb_assoc _ (bool_decide _)), !(orb_assoc (any_window _ _)).
    repeat match goal with |- context [?b || any_window ?n after_random] =>
      replace (any_window n after_random) with true by (by vm_compute); rewrite (orb_true_r b) end.
    reflexivity.
  - unfold raw_ch_does_not_contain_quic_tp_extension. rewrite (bind_Ret _ _ _ _ _ Hb), Hw.
    assert (any_window [0; 57] (before_random ++ [x]) = false) as -> by (by vm_compute).
    assert (any_window [0; 57] after_random = false) as -> by (by vm_compute).
    rewrite bool_decide_false by done. cbn [orb]. rewrite orb_false_r.
    destruct (any_window [0; 57] random); simpl; split; try done; [by intros [? ?]|by exists tt].
Qed.

(** The unit tests of the harness hold of the model, whatever the environment
    and the random bytes; the test that looks for a leaked extension passes
    exactly when the bytes of its code point are not next to each other among
    the random bytes. *)
Theorem harness_tests_pass env random fuel (p : process (S:=S)) :
  zlen random = 32 →
  Forall (λ t, passes t tt)
    [server_addr_reads_port_env env; server_tp_bytes_well_formed_decodes; f02_omits_initial_scid_only;
     f03_appends_original_dcid; f04_appends_preferred_address_with_42_byte_value; f05_appends_retry_scid;
     f06_appends_stateless_reset_token; f07_emits_max_udp_payload_1100; f08_appends_ack_delay_exp_21;
     f09_appends_max_ack_delay_16384; encode_crypto_frame_offset_zero; encode_crypto_frame_offset_large;
     varint_round_trip; connection_close_parses_both_variants;
     raw_ch_starts_with_handshake_type_client_hello random; raw_ch_length_field_matches_body random;
     raw_ch_contains_required_extensions random] ∧
  passes (injection_size_check_rejects_oversize env fuel) p ∧
  (passes (raw_ch_does_not_contain_quic_tp_extension random) tt ↔ any_window [0x00; 0x39] random = false).
Proof.
  intros Hr. destruct (raw_hello_tests random Hr) as (H1 & H2 & H3 & H4). split_and!; [|by eexists|done..].
  rewrite !Forall_cons, Forall_nil.
  split_and!; try done; eexists; vm_compute; reflexivity.
Qed.
End All.
End HarnessTests.
