(* ===== verification/TlsScenarios.v ===== *)
(** * The TLS conformance scenarios

    Models the assertions of [src/conformance/tls-conformance/src/lib.rs] and
    the [main] of each scenario binary in [src/bin]: build a hostile
    ClientHello or transport-parameter block, run a driver, judge the
    CONNECTION_CLOSE it found. A [main] is a program over the harness's process
    that gives the exit code and the lines of standard error; the random
    connection identifier is its argument. *)

From S2P Require Import Prelude Effects Rustls Utf8 Varint Format QuicPacket FrameScan.
From S2P Require Import RustlsPackets TransportParams RawClientHello Drivers.
Import Effects Rustls Utf8 Varint Format QuicPacket FrameScan RustlsPackets TransportParams.
Import RawClientHello Drivers.

Module TlsScenarios.

Section Scenarios.
Context {R : Rustls} {S : Type} `{KeysApi S} (env : environment).

(** The characters the [Debug] of a [str] escapes beyond ASCII. *)
Context (escaped : Z → bool).

Definition text_x (n : Z) : string := bytes_string (lower_hex n).
Definition text_02x (n : Z) : string := bytes_string (lower_hex_02 n).
Definition text_debug (s : bytes) : string := bytes_string (debug_str escaped s).

(** ** The assertions *)

Definition assert_crypto_error_low_byte (cc : ConnectionClose) (allowed : list Z)
  : string + unit :=
  if negb (frame_type cc =? 0x1c) then
    inl ("expected transport CONNECTION_CLOSE (frame_type=0x1c), got 0x"
           +:+ text_02x (frame_type cc))
  else
    let code := error_code cc in
    if negb ((0x0100 <=? code) && (code <=? 0x01ff)) then
      inl ("expected CRYPTO_ERROR range 0x0100..=0x01ff, got 0x" +:+ text_x code)
    else
      let low := as_u8 (Z.land code 0xff) in
      if negb (existsb (Z.eqb low) allowed) then
        inl ("expected CRYPTO_ERROR low byte ∈ " +:+ bytes_string (debug_u8s allowed)
               +:+ ", got " +:+ pretty low +:+ " (full code 0x" +:+ text_x code +:+ ")")
      else inr tt.

Definition assert_transport_param_error_with_tag (cc : ConnectionClose) (tag : string)
  : string + unit :=
  if negb (frame_type cc =? 0x1c) then
    inl ("expected transport CONNECTION_CLOSE (frame_type=0x1c), got 0x"
           +:+ text_02x (frame_type cc))
  else if negb (error_code cc =? 0x08) then
    inl ("expected TRANSPORT_PARAMETER_ERROR (0x08), got 0x" +:+ text_x (error_code cc))
  else if negb (contains (reason cc) (string_bytes tag)) then
    inl ("expected reason to contain " +:+ text_debug (string_bytes tag) +:+ ", got "
           +:+ text_debug (reason cc))
  else inr tt.

(** ** The binaries *)

(** The exit code and what went to standard error. *)
Definition exit : Type := Z * list string.

Definition got_line (cc : ConnectionClose) : string :=
  "  got error_code=0x" +:+ text_x (error_code cc) +:+ " frame_type=0x"
    +:+ text_02x (frame_type cc) +:+ " reason=" +:+ text_debug (reason cc).

(** The [match] every adversarial [main] ends with. *)
Definition judge (name nothing trouble : string) (check : ConnectionClose → string + unit)
    (result : string + option ConnectionClose) : exit :=
  match result with
  | inr (Some cc) =>
      match check cc with
      | inr _ => (0, [])
      | inl diag => (1, [name +:+ ": assertion failed: " +:+ diag; got_line cc])
      end
  | inr None => (1, [name +:+ ": " +:+ nothing])
  | inl e => (1, [name +:+ ": " +:+ trouble +:+ ": " +:+ e])
  end.

Definition new_builder (dcid : bytes) : PacketBuilder :=
  builder_new dcid (replicate 8 0).

(** A transport-parameter block; building one panics on an integer that does
    not fit. *)
Definition block {A} (tp : option bytes) (k : bytes → prog (process (S:=S)) A)
  : prog (process (S:=S)) A :=
  tp ← expect tp "varint out of range"; k tp.

Definition tp_scenario (name tag : string) (tp : option bytes) (fuel : nat) (dcid : bytes)
  : prog (process (S:=S)) exit :=
  block tp (λ tp,
    r ← drive_handshake_full env fuel (new_builder dcid) tp;
    mret (judge name "no CONNECTION_CLOSE received (server silently dropped or timed out)"
            "handshake driver error" (λ cc, assert_transport_param_error_with_tag cc tag) r)).

Definition f02_main := tp_scenario "f02" "[QUIC-TP-INITIAL-SCID-MISSING]" f02_missing_initial_scid.
Definition f03_main :=
  tp_scenario "f03" "[QUIC-TP-ORIGINAL-DCID-FORBIDDEN]" f03_original_dcid_forbidden.
Definition f04_main :=
  tp_scenario "f04" "[QUIC-TP-PREFERRED-ADDR-FORBIDDEN]" f04_preferred_addr_forbidden.
Definition f05_main := tp_scenario "f05" "[QUIC-TP-RETRY-SCID-FORBIDDEN]" f05_retry_scid_forbidden.
Definition f06_main :=
  tp_scenario "f06" "[QUIC-TP-STATELESS-RESET-FORBIDDEN]" f06_stateless_reset_forbidden.
Definition f07_main :=
  tp_scenario "f07" "[QUIC-TP-MAX-UDP-PAYLOAD-RANGE]" f07_max_udp_payload_below_min.
Definition f08_main :=
  tp_scenario "f08" "[QUIC-TP-ACK-DELAY-EXP-RANGE]" f08_ack_delay_exponent_above_max.
Definition f09_main :=
  tp_scenario "f09" "[QUIC-TP-MAX-ACK-DELAY-RANGE]" f09_max_ack_delay_above_threshold.

Definition injection_scenario (name nothing : string) (inj : Injection) (fuel : nat)
    (dcid : bytes) : prog (process (S:=S)) exit :=
  block server_tp_bytes_well_formed (λ tp,
    r ← drive_handshake_with_injection env fuel (new_builder dcid) tp inj;
    mret (judge name nothing "driver error"
            (λ cc, assert_crypto_error_low_byte cc [10; 47; 50]) r)).

Definition f25_main :=
  injection_scenario "f25" "handshake completed without CC; expected unexpected_message alert"
    {| epoch := EpochHandshake; inj_bytes := [0x18; 0x00; 0x00; 0x01; 0x00] |}.
Definition f26_main :=
  injection_scenario "f26" "handshake completed without CC; expected KeyUpdate-in-1-RTT alert"
    {| epoch := EpochOneRtt; inj_bytes := [0x18; 0x00; 0x00; 0x01; 0x00] |}.
Definition f29_main :=
  injection_scenario "f29" "handshake completed without CC; expected unexpected_message alert"
    {| epoch := EpochHandshake; inj_bytes := [0x05; 0x00; 0x00; 0x00] |}.

Definition f27_main (dcid : bytes) : prog (process (S:=S)) exit :=
  block server_tp_bytes_well_formed (λ tp,
    r ← drive_handshake_initial_no_alpn env (new_builder dcid) tp;
    mret (judge "f27"
            ("no CONNECTION_CLOSE received — server did not surface "
               +:+ "a no_application_protocol alert in its Initial reply")
            "handshake driver error" (λ cc, assert_crypto_error_low_byte cc [120; 50]) r)).

(** [random]: the 32 bytes of the ClientHello's random. *)
Definition f28_main (random dcid : bytes) : prog (process (S:=S)) exit :=
  match build default_hello random with
  | inl e => mret (1, ["f28: failed to build raw ClientHello: " +:+ e])
  | inr ch =>
      r ← drive_handshake_with_raw_clienthello env (new_builder dcid) ch;
      mret (judge "f28"
              ("no CONNECTION_CLOSE received — server did not reject "
                 +:+ "the ClientHello that omitted quic_transport_parameters " +:+ "(RFC 9001 §8.2)")
              "handshake driver error" (λ cc, assert_crypto_error_low_byte cc [109; 50; 47]) r)
  end.

Definition tls_sanity_handshake_main (dcid : bytes) : prog (process (S:=S)) exit :=
  block server_tp_bytes_well_formed (λ tp,
    r ← drive_handshake_initial env (new_builder dcid) tp;
    mret match r with
         | inr None => (0, [])
         | inr (Some cc) =>
             (1, ["tls_sanity_handshake: unexpected CONNECTION_CLOSE error_code=0x"
                    +:+ text_x (error_code cc) +:+ " " +:+ "frame_type=0x"
                    +:+ text_02x (frame_type cc) +:+ " reason=" +:+ text_debug (reason cc)])
         | inl e => (1, ["tls_sanity_handshake: handshake failed: " +:+ e])
         end).
End Scenarios.
End TlsScenarios.
