(* ===== verification/Verdicts.v ===== *)
(** * The verdicts of the TLS scenarios

    When a scenario passes, the server has said so: some datagram that arrived
    holds a packet that opens under keys of this connection, and its payload
    holds the CONNECTION_CLOSE the scenario is about. The drivers are followed
    with the rules of [DriverRules]; what they report is characterised by what
    the assertions accept. *)

From stdpp Require Import relations.
From S2P Require Import Prelude Effects Handles Rustls World Utf8 Varint Toy Format.
From S2P Require Import QuicKeysFacts QuicPacket QuicPacketFacts FrameScan RustlsPackets.
From S2P Require Import TransportParams RawClientHello Hoare Drivers DriverRules DriverTrace.
From S2P Require Import DriverEnds TlsScenarios.
Import Effects Handles Rustls World Utf8 Varint Toy Format.
Import QuicKeysFacts QuicPacket QuicPacketFacts FrameScan RustlsPackets.
Import TransportParams RawClientHello Hoare Drivers DriverRules DriverTrace DriverEnds TlsScenarios.

Module Verdicts.

(** ** What the assertions accept *)

(** What a scenario asks of the CONNECTION_CLOSE. *)
Inductive expectation :=
  | CryptoError (alerts : list Z)
  | TransportParamError (tag : string).

(** RFC 9001, section 4.8: a TLS alert is the transport error 0x100 + alert. *)
Definition meets (e : expectation) (cc : ConnectionClose) : Prop :=
  frame_type cc = 0x1c ∧
  match e with
  | CryptoError alerts => ∃ alert, alert ∈ alerts ∧ error_code cc = 0x100 + alert
  | TransportParamError tag => error_code cc = 0x08 ∧ ∃ k l, reason cc = k ++ string_bytes tag ++ l
  end.

Lemma low_byte code : 0x100 ≤ code ≤ 0x1ff → as_u8 (Z.land code 0xff) = code - 0x100.
Proof.
  intros Hc. change 0xff with (Z.ones 8). rewrite Z.land_ones by lia. unfold as_u8.
  rewrite Z.mod_mod by lia. symmetry. apply (Z.mod_unique _ _ 1); lia.
Qed.

Lemma crypto_error_exact cc allowed : Forall is_byte allowed →
  assert_crypto_error_low_byte cc allowed = inr tt ↔ meets (CryptoError allowed) cc.
Proof.
  intros Hb. unfold assert_crypto_error_low_byte, meets.
  destruct (Z.eqb_spec (frame_type cc) 0x1c) as [Ef|Ef]; simpl; [|by split; [|intros [? _]]].
  rewrite Forall_forall in Hb.
  destruct ((0x100 <=? error_code cc) && (error_code cc <=? 0x1ff)) eqn:Ec; simpl.
  - breflect. rewrite low_byte by lia. destruct (existsb _ _) eqn:Ee; simpl.
    + apply existsb_exists in Ee as (a & Ha & Hl%Z.eqb_eq). split; [|done]. intros _. split; [done|].
      exists a. rewrite list_elem_of_In. split; [done|lia].
    + split; [done|]. intros (_ & a & Ha & Hc). exfalso.
      apply not_true_iff_false in Ee. apply Ee, existsb_exists. exists a.
      rewrite <- list_elem_of_In. split; [done|]. apply Z.eqb_eq. lia.
  - split; [done|]. intros (_ & a & Ha & Hc). specialize (Hb a Ha). unfold is_byte in Hb.
    rewrite andb_false_iff in Ec. breflect. destruct Ec; breflect; lia.
Qed.

Lemma transport_param_error_exact escaped cc tag :
  assert_transport_param_error_with_tag escaped cc tag = inr tt ↔ meets (TransportParamError tag) cc.
Proof.
  unfold assert_transport_param_error_with_tag, meets.
  destruct (Z.eqb_spec (frame_type cc) 0x1c) as [Ef|Ef]; simpl; [|by split; [|intros [? _]]].
  destruct (Z.eqb_spec (error_code cc) 0x08) as [Ec|Ec]; simpl; [|by split; [|intros (_ & ? & _)]].
  destruct (contains _ _) eqn:E; simpl.
  - apply contains_spec in E. by split.
  - split; [done|]. intros (_ & _ & Hr). apply contains_spec in Hr. congruence.
Qed.

(** ** Evidence *)

Section Evidence.
Context {R : Rustls} {S : Type} `{KeysApi S}.

(** What a run starts from: the shim as the run finds it, the connection rustls
    made for it (the driver of a raw ClientHello has none) and the connection
    identifier its Initial keys come from. *)
Record origin := { o_shim : S; o_conn : option qclient; o_dcid : bytes }.

(** The drivers' calls on the connection. *)
Inductive conn_call : relation qclient :=
  | call_write c c' out kc : qclient_write_hs c = (c', out, kc) → conn_call c c'
  | call_read c c' data r : qclient_read_hs c data = (c', r) → conn_call c c'.

(** Keys the run's connection gave, after some calls on it. *)
Definition exported (o : origin) (k : quic_keys) : Prop :=
  ∃ c0 c c' out kc, o_conn o = Some c0 ∧ rtc conn_call c0 c ∧
    qclient_write_hs c = (c', out, Some kc) ∧
    (kc = Handshake k.1 k.2 ∨ ∃ next, kc = OneRtt k.1 k.2 next).

(** The drivers' calls on a key handle, its release apart. *)
Inductive key_call (keys : Z) : relation S :=
  | call_tag_len r s s' : api_tag_len keys s = Ret r s' → key_call keys s s'
  | call_encrypt pn hdr p n r s s' : api_local_encrypt keys pn hdr p n s = Ret r s' → key_call keys s s'
  | call_protect x b pn r s s' : api_local_header_protect keys x b pn s = Ret r s' → key_call keys s s'
  | call_decrypt pn hdr p r s s' : api_remote_decrypt keys pn hdr p s = Ret r s' → key_call keys s s'
  | call_unprotect x b pn r s s' :
      api_remote_header_unprotect keys x b pn s = Ret r s' → key_call keys s s'.

(** The state [s] is one of the run's, after the run's first call of the shim
    gave it the client's Initial keys of its connection identifier under the
    handle [keys], and before it released them. *)
Definition issued (o : origin) (keys : Z) (s : S) : Prop :=
  ∃ s1, initial_keys Client (o_dcid o) (o_shim o) = Ret (inr keys) s1 ∧ rtc (key_call keys) s1 s.

(** A packet opens under keys of the run: in a state the run goes through,
    under the handle of its Initial keys, or under keys of its connection. *)
Inductive opens (o : origin) (pkt pt : bytes) : Prop :=
  | opens_initial prefix hd keys (s s' : S) :
      issued o keys s → decrypt_reply prefix pkt hd keys s = Ret (inr pt) s' → opens o pkt pt
  | opens_handshake hd k :
      exported o k → decrypt_long_with_rustls pkt hd k.2 tt = Ret (inr pt) tt → opens o pkt pt
  | opens_one_rtt n k :
      exported o k → decrypt_short_with_rustls pkt n k.2 tt = Ret (inr pt) tt → opens o pkt pt.

(** Part of a datagram that arrived. *)
Definition received (inbox : list recv_event) (pkt : bytes) : Prop :=
  ∃ dg k l, Datagram dg ∈ inbox ∧ dg = k ++ pkt ++ l.

(** A payload of the run that arrived. *)
Definition opened (inbox : list recv_event) (o : origin) (pt : bytes) : Prop :=
  ∃ pkt, received inbox pkt ∧ opens o pkt pt.

(** A CONNECTION_CLOSE somewhere in a payload. *)
Definition closes (pt : bytes) (cc : ConnectionClose) : Prop :=
  ∃ k l, pt = k ++ l ∧ parse_connection_close l tt = Ret (Some cc) tt.

(** The server's CONNECTION_CLOSE. *)
Definition shown (inbox : list recv_event) (o : origin) (cc : ConnectionClose) : Prop :=
  ∃ pt, opened inbox o pt ∧ closes pt cc.

Lemma received_drop inbox n pkt : received inbox pkt → received inbox (drop n pkt).
Proof.
  intros (dg & k & l & Hd & ->). exists (k ++ pkt ++ l), (k ++ take n pkt), l. split; [done|].
  rewrite <- !app_assoc. f_equal. rewrite app_assoc. by rewrite take_drop.
Qed.

Lemma received_take inbox n pkt : received inbox pkt → received inbox (take n pkt).
Proof.
  intros (dg & k & l & Hd & ->). exists (k ++ pkt ++ l), k, (drop n pkt ++ l). split; [done|].
  f_equal. rewrite app_assoc. by rewrite take_drop.
Qed.

Lemma received_sub inbox o n pkt : received inbox pkt → received inbox (sub o n pkt).
Proof. intros. unfold sub. by apply received_take, received_drop. Qed.

(** What a key handle's calls keep, the packets' do. *)
Section Uses.
Context (keys : Z) (P : S → Prop).
Hypothesis HP : ∀ s s', P s → key_call keys s s' → P s'.

#[local] Ltac uses_step :=
  cbv zeta;
  lazymatch goal with
  | |- hoare _ _ (let '(_, _) := ?e in _) _ => destruct e
  | |- hoare _ _ (match ?e with _ => _ end) _ => destruct e
  | |- hoare _ ?P (mbind _ _) _ => apply (hoare_bind _ _ (λ _, P)); [|intros ?]
  | |- hoare _ _ (mret _) _ => by apply hoare_ret
  | |- hoare _ _ (panic _) _ => apply hoare_panic
  | |- hoare _ _ (push_varint _ _) _ => unfold push_varint
  | |- hoare _ _ (expect_ok _ _) _ => unfold expect_ok
  | |- hoare _ _ (keys_tag_len _) _ => unfold keys_tag_len
  | |- hoare _ _ (local_encrypt _ _ _ _ _) _ => unfold local_encrypt
  | |- hoare _ _ (protect_header_in_place _ _ _ _) _ => unfold protect_header_in_place
  | |- hoare _ _ (local_header_protect _ _ _ _) _ => unfold local_header_protect
  | |- hoare _ _ (remote_decrypt _ _ _ _) _ => unfold remote_decrypt
  | |- hoare _ _ (remote_header_unprotect _ _ _ _) _ => unfold remote_header_unprotect
  | |- hoare _ _ ?c _ =>
      let s := fresh in let Hs := fresh in let E := fresh in
      intros s Hs; destruct (c s) eqn:E; try done; eapply HP; [exact Hs|by econstructor]
  end.

Lemma encode_initial_uses b out : hoare True P (encode_initial b out keys) (λ _, P).
Proof. unfold encode_initial, encode_long. repeat uses_step. Qed.

Lemma decrypt_reply_uses prefix pkt hd : hoare True P (decrypt_reply prefix pkt hd keys) (λ _, P).
Proof. unfold decrypt_reply. repeat uses_step. Qed.
End Uses.

Lemma issued_call o keys s s' : issued o keys s → key_call keys s s' → issued o keys s'.
Proof. intros (s1 & E & Hs) Hc. exists s1. split; [done|by eapply rtc_r]. Qed.

Lemma issued_first o r s' :
  initial_keys Client (o_dcid o) (o_shim o) = Ret r s' →
  match r with inl _ => True | inr keys => issued o keys s' end.
Proof. destruct r; [done|]. intros E. by eexists. Qed.

Lemma reply_opens inbox o prefix pkt hd keys : received inbox pkt →
  hoare True (issued o keys) (decrypt_reply (S:=S) prefix pkt hd keys)
    (λ r s, opens_plain (opened inbox o) r ∧ issued o keys s).
Proof.
  intros Hp s Hs. pose proof (decrypt_reply_uses keys _ (issued_call o keys) prefix pkt hd s Hs) as Hk.
  destruct (decrypt_reply prefix pkt hd keys s) as [[m|pt] s'| | |] eqn:E; try done.
  split; [|done]. exists pkt. split; [done|]. exact (opens_initial o pkt pt prefix hd keys s s' Hs E).
Qed.
End Evidence.

(** ** What the frame walkers report *)

Section Walkers.
Context (pt : bytes).

Definition shows (r : string + option ConnectionClose) : Prop :=
  earned (closes pt) r.

Definition reports {X} (c : prog X (string + option ConnectionClose)) : Prop :=
  hoare True (λ _, True) c (λ r _, shows r).

Lemma reports_attempt {X A} (c : prog X (string + A)) k :
  (∀ a, reports (k a)) → reports (attempt c k).
Proof.
  intros Hk. apply (hoare_attempt _ _ (λ _ _, True)); [|done].
  eapply hoare_conseq; [apply (hoare_any (λ _, True))|done|]. by intros [?|?].
Qed.

Lemma reports_after {X A} (c : prog X A) k : (∀ a, reports (k a)) → reports (c ≫= k).
Proof. intros Hk. apply (hoare_bind _ _ (λ _ _, True)); [apply (hoare_any (λ _, True))|done]. Qed.

Lemma reports_close {X} i : reports (close_at (S:=X) pt i).
Proof.
  intros x _. unfold close_at, slice_from. run. case_if; [|done].
  destruct (parse_connection_close _ x) as [[cc|] x'| | |] eqn:E; try done.
  destruct (close_state _ _ _ tt _ E) as [_ Hc].
  exists (take (Z.to_nat i) pt), (drop (Z.to_nat i) pt). by rewrite take_drop.
Qed.

Lemma reports_none {X} : reports (ok None : prog X _).
Proof. by apply hoare_ret. Qed.

#[local] Ltac walk IH :=
  intros i; simpl; destruct (byte_at pt i) as [ft|]; [|apply reports_none];
  repeat (apply hoare_if; intros _); try apply IH; try apply reports_close; try apply reports_none;
  repeat first [apply reports_attempt; intros []|apply reports_after; intros ?]; try apply IH;
  apply reports_attempt; intros; apply IH.

Lemma reports_first {X} : ∀ fuel i, reports (first_reply_loop (S:=X) fuel pt i).
Proof. induction fuel as [|fuel IH]; [done|]. walk IH. Qed.

Lemma reports_scan {X} : ∀ fuel i, reports (initial_scan_loop (S:=X) fuel pt i).
Proof. induction fuel as [|fuel IH]; [done|]. walk IH. Qed.

Lemma reports_rustls {R : Rustls} : ∀ fuel i, reports (rustls_scan_loop fuel pt i).
Proof. induction fuel as [|fuel IH]; [done|]. walk IH. Qed.
End Walkers.

(** ** The drivers with a connection *)

Section Watched.
Context {R : Rustls} {S : Type} `{KeysApi S} (env : environment).
Context (b0 : PacketBuilder) (inbox : list recv_event) (s0 : S) (c0 : qclient).

Definition from_start : origin (S:=S) := {| o_shim := s0; o_conn := Some c0; o_dcid := dcid b0 |}.

(** [sh] is what is known of the shim. *)
Record watched (sh : S → Prop) (cl : list Z) (b : bool) (h : harness (S:=S)) : Prop := {
  watched_clock : io_clock (h_io h) = cl;
  watched_injected : h_injected h = b;
  watched_dcid : dcid (h_builder h) = dcid b0;
  watched_scid : scid (h_builder h) = scid b0;
  watched_inbox : io_inbox (h_io h) ⊆ inbox;
  watched_at : sh (h_shim h);
  watched_with : rtc conn_call c0 (h_conn h);
  watched_keys : ∀ k, h_handshake_keys h = Some k ∨ h_one_rtt_keys h = Some k → exported from_start k;
}.

Lemma watched_same sh cl b b' h h' :
  io_clock (h_io h') = io_clock (h_io h) → io_inbox (h_io h') = io_inbox (h_io h) →
  h_injected h' = b' → dcid (h_builder h') = dcid (h_builder h) →
  scid (h_builder h') = scid (h_builder h) → h_shim h' = h_shim h → h_conn h' = h_conn h →
  h_handshake_keys h' = h_handshake_keys h → h_one_rtt_keys h' = h_one_rtt_keys h →
  watched sh cl b h → watched sh cl b' h'.
Proof.
  intros Hc Hi Hj Hd Hs Hsh Hco Hk Ho [? ? ? ? ? ? ? ?].
  split; rewrite ?Hc, ?Hi, ?Hd, ?Hs, ?Hsh, ?Hco, ?Hk, ?Ho; done.
Qed.

#[local] Ltac same b h := apply (watched_same _ _ b _ h); try done.

Lemma watched_shim {A} (c : prog S A) (Q : A → Prop) sh sh' cl b :
  hoare True sh c (λ a s, Q a ∧ sh' s) →
  hoare True (watched sh cl b) (on_shim c) (λ a h, Q a ∧ watched sh' cl b h).
Proof.
  intros Hc. eapply hoare_lift; [exact Hc|apply watched_at|]. intros h a s Hh [HQ Hs]. split; [done|].
  by destruct Hh; split.
Qed.

Lemma watched_conn {A} (c : prog qclient A) (Q : A → Prop) sh cl b :
  hoare True (rtc conn_call c0) c (λ a c', Q a ∧ rtc conn_call c0 c') →
  hoare True (watched sh cl b) (on_conn c) (λ a h, Q a ∧ watched sh cl b h).
Proof.
  intros Hc. eapply hoare_lift; [exact Hc|apply watched_with|]. intros h a s Hh [HQ Hs]. split; [done|].
  by destruct Hh; split.
Qed.

Lemma watched_send what pkt sh cl b :
  hoare True (watched sh cl b) (on_io (send_to what pkt)) (λ _, watched sh cl b).
Proof.
  intros h Hh. unfold on_io, lift. destruct (send_to_cases what pkt (h_io h)) as (rest & [->|[e ->]]);
    (same b h; apply Hh).
Qed.

Lemma watched_os sh cl b : hoare True (watched sh cl b) (on_io os_result) (λ _, watched sh cl b).
Proof. intros h Hh. same b h. apply Hh. Qed.

Lemma watched_open sh cl b : hoare True (watched sh cl b) (on_io open_socket) (λ _, watched sh cl b).
Proof.
  intros h Hh. unfold on_io, lift, open_socket, attempt, os_call, os_result, mbind, prog_bind.
  destruct (default None _); [|simpl; destruct (default None _)]; (same b h; apply Hh).
Qed.

Lemma watched_recv cap sh cl b : hoare True (watched sh cl b) (on_io (recv_from cap))
  (λ ev h, match ev with Datagram d => received inbox d | _ => True end ∧ watched sh cl b h).
Proof.
  intros h [? ? ? ? Hi ? ? ?]. unfold on_io, lift, recv_from.
  destruct (io_inbox (h_io h)) as [|e l] eqn:E; simpl.
  - split; [done|]. split; simpl; rewrite ?E; done.
  - assert (l ⊆ inbox) by (intros x Hx; apply Hi; by right).
    destruct e as [d|t m]; (split; [|split; simpl; rewrite ?E; done]); [|done].
    apply received_take. exists d, [], []. rewrite app_nil_r. split; [apply Hi; by left|done].
Qed.

(** The walk of a payload on the connection. *)
Lemma scan_shows pt : hoare True (rtc conn_call c0) (scan_plaintext_into_rustls pt)
  (λ r c, shows pt r ∧ rtc conn_call c0 c).
Proof.
  intros c Hc. pose proof (reports_rustls pt (Datatypes.S (length pt)) 0 c Logic.I) as Hr.
  assert (Hread : ∀ c data c' r, rtc conn_call c0 c → qclient_read_hs c data = (c', r) → rtc conn_call c0 c').
  { intros ? ? ? ? Hx E. eapply rtc_r; [exact Hx|by eapply call_read]. }
  pose proof (rustls_scan_keeps _ Hread pt (Datatypes.S (length pt)) 0 c Hc) as Hk.
  unfold scan_plaintext_into_rustls. by destruct (rustls_scan_loop _ pt 0 c).
Qed.

(** Opening with rustls keys does not look at the state. *)
Lemma stateless_opens {X} (c : ∀ X, prog X (string + bytes)) (P : X → Prop) (Q : bytes → Prop) :
  stateless c → (∀ pt, c unit tt = Ret (inr pt) tt → Q pt) →
  hoare True P (c X) (λ r x, opens_plain Q r ∧ P x).
Proof.
  intros Hc HQ x Hx. rewrite Hc. destruct (c unit tt) as [[m|pt] []| | |]; try done.
  split; [by apply HQ|done].
Qed.

Lemma watched_kept keys :
  kept True (received inbox) (opened inbox from_start) (exported from_start)
    (shown inbox from_start) keys (watched (issued from_start keys)).
Proof.
  split; intros; try (by left).
  - by eapply watched_clock.
  - by eapply watched_injected.
  - intros h [Hc ? ? ? ? ? ? ?]. split; [by rewrite Hc|]. split; simpl; try done. by rewrite Hc.
  - apply watched_os.
  - apply watched_recv.
  - by eapply watched_keys.
  - apply watched_shim. by apply reply_opens.
  - apply (stateless_opens (λ X, decrypt_long_with_rustls (S:=X) pkt hd k.2));
      [apply decrypt_long_stateless|]. intros pt E. exists pkt. split; [done|].
    by eapply opens_handshake.
  - apply (stateless_opens (λ X, decrypt_short_with_rustls (S:=X) pkt n k.2));
      [apply decrypt_short_stateless|]. intros pt E. exists pkt. split; [done|].
    by eapply opens_one_rtt.
  - eapply hoare_conseq; [apply (watched_conn _ (shows pt)), scan_shows|done|].
    intros [m|[cc|]] h [Hr Hh]; (split; [|done]); try done. by exists pt.
  - by apply received_drop.
  - by apply received_sub.
Qed.

(** *** Sending *)

Lemma watched_modify f sh cl b b' :
  (∀ h, io_clock (h_io (f h)) = io_clock (h_io h)) → (∀ h, io_inbox (h_io (f h)) = io_inbox (h_io h)) →
  (∀ h, h_injected h = b → h_injected (f h) = b') → (∀ h, h_builder (f h) = h_builder h) →
  (∀ h, h_shim (f h) = h_shim h) → (∀ h, h_conn (f h) = h_conn h) →
  (∀ h, h_handshake_keys (f h) = h_handshake_keys h) → (∀ h, h_one_rtt_keys (f h) = h_one_rtt_keys h) →
  hoare True (watched sh cl b) (modify f) (λ _, watched sh cl b').
Proof.
  intros Hc Hi Hj Hb Hsh Hco Hk Ho. apply hoare_modify. intros h Hh.
  apply (watched_same _ _ b _ h); rewrite ?Hb; try done. apply Hj, Hh.
Qed.

Lemma watched_encode bl out keys cl b :
  hoare True (watched (issued from_start keys) cl b) (on_shim (encode_initial bl out keys))
    (λ r h, r.2 = next_pn bl ∧ watched (issued from_start keys) cl b h).
Proof.
  apply watched_shim. intros s Hs.
  pose proof (encode_initial_uses keys _ (issued_call from_start keys) bl out s Hs) as Hk.
  destruct (encode_initial bl out keys s) as [[pkt b'] s'| | |] eqn:E; try done.
  split; [by eapply encode_initial_builder|done].
Qed.

(** The builder goes on to the next number. *)
Lemma watched_next bl sh cl b : dcid bl = dcid b0 → scid bl = scid b0 →
  hoare True (watched sh cl b) (modify (set_builder (next_pn bl))) (λ _, watched sh cl b).
Proof. intros Hd Hs. apply hoare_modify. by intros h [? ? ? ? ? ? ? ?]. Qed.

Lemma watched_builder sh cl b : hoare True (watched sh cl b) (gets h_builder)
  (λ bl h, (dcid bl = dcid b0 ∧ scid bl = scid b0) ∧ watched sh cl b h).
Proof. apply hoare_gets. intros h Hh. split; [split; apply Hh|done]. Qed.

Lemma watched_initial what out keys cl b :
  hoare True (watched (issued from_start keys) cl b) (send_initial what out keys)
    (λ _, watched (issued from_start keys) cl b).
Proof.
  eapply hoare_bind; [apply watched_builder|]. intros bl. apply hoare_pure. intros [Hd Hs].
  eapply hoare_bind; [apply watched_encode|]. intros [pkt b']. apply hoare_pure. simpl. intros ->.
  eapply hoare_bind; [by apply watched_next|]. intros []. apply watched_send.
Qed.

Lemma watched_stateless {A} (c : ∀ X, prog X A) sh cl b :
  stateless c → hoare True (watched sh cl b) (c (harness (S:=S))) (λ _, watched sh cl b).
Proof. intros Hc. by apply stateless_keeps. Qed.

Lemma watched_handshake what d s out hs sh cl b :
  hoare True (watched sh cl b) (send_handshake what d s out hs) (λ _, watched sh cl b).
Proof.
  unfold send_handshake. apply hoare_read. intros pn. apply hoare_attempt_keep.
  { apply (watched_stateless (λ X, build_handshake_packet (S:=X) d s pn out hs.1)),
      build_handshake_stateless. }
  intros pkt. apply hoare_attempt_keep; [apply watched_send|]. intros [].
  eapply (hoare_bind _ _ (λ _, watched sh cl b)); [by apply watched_modify|intros; by apply hoare_ret].
Qed.

(** What [write_hs] gives with a key change. *)
Definition offered (r : bytes * option (KeyChange hkey pkey secrets)) : Prop :=
  match r.2 with
  | Some (Handshake k k') => exported from_start (k, k')
  | Some (OneRtt k k' _) => exported from_start (k, k')
  | None => True
  end.

Lemma watched_write sh cl b : hoare True (watched sh cl b) (on_conn conn_write)
  (λ r h, offered r ∧ watched sh cl b h).
Proof.
  apply watched_conn. intros c Hc. unfold conn_write.
  destruct (qclient_write_hs c) as [[c' out] kc] eqn:E.
  split; [|eapply rtc_r; [exact Hc|by eapply call_write]].
  destruct kc as [[k k'|k k' next]|]; try done;
    (eexists c0, c, c', out, _; split; [done|]; split; [exact Hc|]; split; [exact E|]);
    [by left|right; by eexists].
Qed.

Lemma watched_store kc sh cl b : offered ([], kc) →
  hoare True (watched sh cl b) (store_keys kc) (λ _, watched sh cl b).
Proof.
  intros Ho. destruct kc as [[k k'|k k' next]|]; simpl in *; [| |by apply hoare_ret];
    (apply hoare_modify; intros h [? ? ? ? ? ? ? Hk]; split; try done; simpl; intros k0 [E|E]);
    try (by simplify_eq); apply Hk; [by right|by left].
Qed.

Lemma watched_pump d s keys : ∀ fuel cl b,
  hoare True (watched (issued from_start keys) cl b) (pump_rustls_write_hs fuel d s keys)
    (λ _, watched (issued from_start keys) cl b).
Proof.
  induction fuel as [|fuel IH]; intros cl b; [by apply hoare_no_fuel|]. simpl.
  eapply hoare_bind; [apply watched_write|]. intros [out kc]. apply hoare_pure. intros Ho.
  apply hoare_if; intros _; [by apply hoare_ret|]. do 2 (apply hoare_read; intros ?).
  apply hoare_attempt_keep.
  - repeat case_match; try (by apply hoare_ret); [apply watched_handshake|apply watched_initial].
  - intros []. eapply hoare_bind; [by apply watched_store|]. intros []. apply IH.
Qed.

Lemma watched_pump_discarding keys : ∀ fuel cl b,
  hoare True (watched (issued from_start keys) cl b) (pump_rustls_write_hs_discarding_finished fuel keys)
    (λ _, watched (issued from_start keys) cl b).
Proof.
  induction fuel as [|fuel IH]; intros cl b; [by apply hoare_no_fuel|]. simpl.
  eapply hoare_bind; [apply watched_write|]. intros [out kc]. apply hoare_pure. intros Ho.
  apply hoare_if; intros _; [by apply hoare_ret|]. apply hoare_read; intros ?.
  apply hoare_attempt_keep.
  - case_match; [apply watched_initial|by apply hoare_ret].
  - intros []. eapply hoare_bind; [by apply watched_store|]. intros []. apply IH.
Qed.

Lemma watched_first keys cl b :
  hoare True (watched (issued from_start keys) cl b) (first_flight "send Initial" keys)
    (λ _, watched (issued from_start keys) cl b).
Proof.
  eapply hoare_bind; [apply watched_write|]. intros [out kc]. apply hoare_pure. intros _.
  do 2 (apply hoare_if; intros _; [by apply hoare_ret|]). apply watched_initial.
Qed.

Lemma watched_inject_now inj d s sh cl b :
  hoare True (watched sh cl b) (inject_now inj d s) (λ _, watched sh cl b).
Proof.
  unfold inject_now. destruct (epoch inj); apply hoare_read; (intros [k|]; [|by apply hoare_ret]).
  - apply watched_handshake.
  - eapply hoare_bind.
    { apply (watched_stateless (λ X, encode_crypto_frame (S:=X) 0 (inj_bytes inj))),
        crypto_frame_stateless. }
    intros fr. apply hoare_read. intros pn. apply hoare_attempt_keep.
    { apply (watched_stateless (λ X, build_short_header_crypto_packet (S:=X) d pn fr k.1)),
        seal_packet_stateless. }
    intros pkt. apply hoare_attempt_keep; [apply watched_send|]. intros [].
    eapply (hoare_bind _ _ (λ _, watched sh cl b)); [by apply watched_modify|intros; by apply hoare_ret].
Qed.

Lemma watched_inject inj d s sh cl :
  hoare True (watched sh cl false) (inject_once inj d s) (λ r, watched sh cl (sent_now r)).
Proof.
  unfold inject_once. apply (hoare_attempt _ _ (λ _, watched sh cl false)).
  - eapply hoare_conseq; [apply watched_inject_now|done|]. by intros [?|?].
  - intros []. eapply (hoare_bind _ _ (λ _, watched sh cl true)); [by apply watched_modify|].
    intros. by apply hoare_ret.
Qed.

Lemma watched_cids sh cl b h :
  watched sh cl b h → dcid (h_builder h) = dcid b0 ∧ scid (h_builder h) = scid b0.
Proof. intros Hh. split; apply Hh. Qed.

Lemma watched_issue cl b :
  hoare True (watched (eq s0) cl b) (on_shim (initial_keys Client (dcid b0)))
    (λ r h, match r with inl _ => True | inr keys => watched (issued from_start keys) cl b h end).
Proof.
  apply (hoare_lift _ _ _ _ _ (eq s0)
    (λ r s, match r with inl _ => True | inr keys => issued from_start keys s end)); [|apply watched_at|].
  - intros s <-. destruct (initial_keys Client (dcid b0) s0) as [r s'| | |] eqn:E; try done.
    by apply (issued_first from_start).
  - intros h [code|keys] s Hh Hs; [done|]. by destruct Hh; split.
Qed.

(** *** From start to end *)

Definition told (J : harness (S:=S) → Prop) := then_earned (shown inbox from_start) J.

Lemma full_watched pump_fuel cl b :
  hoare True (watched (eq s0) cl b) (full_body env pump_fuel) (told (λ _, True)).
Proof.
  apply (full_body_rule env True (received inbox) (opened inbox from_start) (exported from_start)
           (shown inbox from_start) (dcid b0) (scid b0) (watched (eq s0))
           (λ keys, watched (issued from_start keys))); intros.
  - by apply watched_kept.
  - by eapply watched_cids.
  - apply watched_issue.
  - apply hoare_any.
  - apply watched_open.
  - apply watched_first.
  - apply watched_pump.
Qed.

Lemma injection_watched pump_fuel inj cl :
  hoare True (watched (eq s0) cl false) (injection_body env pump_fuel inj) (told (λ _, True)).
Proof.
  apply (injection_body_rule env True (received inbox) (opened inbox from_start) (exported from_start)
           (shown inbox from_start) (dcid b0) (scid b0) (watched (eq s0))
           (λ keys, watched (issued from_start keys))); intros.
  - by apply watched_kept.
  - by eapply watched_cids.
  - apply watched_issue.
  - apply hoare_any.
  - apply watched_open.
  - apply watched_first.
  - unfold pump_for. destruct (epoch inj); [apply watched_pump_discarding|apply watched_pump].
  - apply watched_inject.
Qed.

Lemma watched_reply cap sh cl b : hoare True (watched sh cl b) (on_io (one_reply cap))
  (λ r h, opens_plain (received inbox) r ∧ watched sh cl b h).
Proof.
  intros h Hh. pose proof (watched_recv cap sh cl b h Hh) as Hr.
  unfold on_io, lift, one_reply, mbind, prog_bind in *.
  by destruct (recv_from cap (h_io h)) as [[d|t e] i| | |].
Qed.

Lemma initial_watched cl b :
  hoare True (watched (eq s0) cl b) (initial_body env) (told (λ _, True)).
Proof.
  eapply hoare_bind; [apply watched_write|]. intros [out kc]. apply hoare_pure. intros _.
  do 2 (apply hoare_if; intros _; [by apply ret_err|]).
  apply (hoare_bind _ _ (λ d h, d = dcid b0 ∧ watched (eq s0) cl b h)).
  { apply hoare_gets. intros h Hh. split; [apply Hh|done]. }
  intros d. apply hoare_pure. intros ->. eapply hoare_bind; [apply watched_issue|].
  intros [code|keys]; [by apply ret_err|]. apply (hoare_bind _ _ (told (λ _, True))).
  2: { intros r. apply hoare_pure. intros Hr. eapply hoare_bind; [apply (hoare_any (λ _, True))|].
       intros. by apply hoare_ret. }
  eapply hoare_bind; [apply watched_builder|]. intros bl. apply hoare_pure. intros [Hd Hs].
  eapply hoare_bind; [apply watched_encode|]. intros [pkt b']. apply hoare_pure. simpl. intros ->.
  eapply (hoare_bind _ _ (λ _, watched (issued from_start keys) cl b)); [by apply watched_next|].
  intros _. apply attempt_step; [apply watched_open|done|]. intros _.
  apply attempt_step; [apply watched_send|done|]. intros _.
  apply (attempt_opened True (received inbox)); [apply watched_reply|done|]. intros reply Hreply.
  destruct (parse_long_header reply) as [hd|]; [|by apply ret_err].
  apply hoare_if; intros _; [by apply ret_err|].
  apply (attempt_opened True (opened inbox from_start)); [|done|].
  { apply watched_shim. by apply reply_opens. }
  intros pt Hpt. eapply hoare_conseq; [apply (watched_shim _ (shows pt) (issued from_start keys) (λ _, True))|done|].
  - intros s _. pose proof (reports_first pt (Datatypes.S (length pt)) 0 s Logic.I) as Hr.
    unfold scan_first_reply. by destruct (first_reply_loop _ pt 0 s).
  - intros [m|[cc|]] h [Hr _]; (split; [|done]); try done. by exists pt.
Qed.
End Watched.

Section Runs.
Context {R : Rustls} {S : Type} `{KeysApi S} (env : environment).

(** The connection made for a run, if rustls makes one. *)
Definition made (config : client_config) (tp : bytes) : option qclient :=
  match new_connection config tp with inr c => Some c | inl _ => None end.

(** What a driver reports was shown by the server in this run: the run that
    starts in [p], for the connection [conn] and the identifier [d]. *)
Definition honest (conn : option qclient) (d : bytes)
    (driver : prog (process (S:=S)) (string + option ConnectionClose)) : Prop :=
  ∀ p cc p', driver p = Ret (inr (Some cc)) p' →
    shown (io_inbox p.2) {| o_shim := p.1; o_conn := conn; o_dcid := d |} cc.

Lemma connection_honest (body : prog harness (string + option ConnectionClose)) b0 tp config :
  (∀ inbox s0 c0 cl, hoare True (watched b0 inbox s0 c0 (eq s0) cl false) body
     (told b0 inbox s0 c0 (λ _, True))) →
  honest (made config tp) (dcid b0) (with_connection b0 tp config body).
Proof.
  intros Hb p cc p'. unfold with_connection, made. destruct (new_connection config tp) as [e|conn]; [done|].
  destruct (body (start p conn b0)) as [a h| | |] eqn:E; try done. intros [= -> <-].
  eapply (hoare_run True) in E; [|apply (Hb (io_inbox p.2) p.1 conn (io_clock p.2))|]; [apply E|].
  split; try done. by intros k [?|?].
Qed.

(** *** The driver without a connection *)

(** What is known of the shim, and what is to arrive. *)
Definition waiting (sh : S → Prop) (inbox : list recv_event) (p : process (S:=S)) : Prop :=
  sh p.1 ∧ io_inbox p.2 = inbox.

Lemma waiting_shim {A} sh sh' inbox (c : prog S A) (Q : A → Prop) :
  hoare True sh c (λ a s, Q a ∧ sh' s) →
  hoare True (waiting sh inbox) (p_shim c) (λ a p, Q a ∧ waiting sh' inbox p).
Proof. intros Hc. eapply hoare_lift; [exact Hc|by intros ? [? _]|]. by intros x a s [_ Hi] [HQ Hs]. Qed.

Lemma raw_walk_told o keys inbox rest reply : received inbox reply →
  ∀ fuel offset, hoare True (waiting (issued o keys) rest) (raw_walk fuel keys reply offset)
    (λ r _, earned (shown inbox o) r).
Proof.
  intros Hr. induction fuel as [|fuel IH]; intros offset; simpl;
    (destruct (drop (Z.to_nat offset) reply) as [|x rest'] eqn:E; [by apply hoare_ret|]);
    [by apply hoare_no_fuel|]. rewrite <- E in *.
  apply hoare_if; intros _; [by apply hoare_ret|].
  destruct (parse_long_header _) as [hd|]; [|by apply hoare_ret].
  apply hoare_if; intros _; [by apply hoare_ret|]. apply hoare_if; intros _; [apply IH|].
  apply (hoare_attempt _ _ (λ pt p, opened inbox o pt ∧ waiting (issued o keys) rest p)).
  { eapply hoare_conseq; [apply waiting_shim, reply_opens, received_sub, received_drop, Hr|done|].
    by intros [m|pt] p [? ?]. }
  intros pt. apply hoare_pure. intros Hpt.
  apply (hoare_attempt _ _ (λ cc p, earned (shown inbox o) (inr cc) ∧ waiting (issued o keys) rest p)).
  - eapply hoare_conseq; [apply (waiting_shim (issued o keys) (issued o keys) rest _ (shows pt))|done|].
    + intros s Hs. pose proof (reports_scan (X:=S) pt (Datatypes.S (length pt)) 0 s I) as Hsh.
      pose proof (initial_scan_keeps _ pt (Datatypes.S (length pt)) 0 s Hs) as Hk.
      unfold scan_initial_plaintext_for_cc. by destruct (initial_scan_loop _ pt 0 s).
    + intros [m|[cc|]] p [Hs Hp]; try done. split; [by exists pt|done].
  - intros [cc|]; apply hoare_pure; intros He; [by apply hoare_ret|apply IH].
Qed.

Lemma waiting_open sh inbox : hoare True (waiting sh inbox) (p_io open_socket) (λ _, waiting sh inbox).
Proof.
  intros p Hp. unfold p_io, lift, open_socket, attempt, os_call, os_result, mbind, prog_bind.
  destruct (default None _); [done|]. simpl. by destruct (default None _).
Qed.

Lemma waiting_send sh inbox what pkt :
  hoare True (waiting sh inbox) (p_io (send_to what pkt)) (λ _, waiting sh inbox).
Proof.
  intros p Hp. unfold p_io, lift. by destruct (send_to_cases what pkt p.2) as (rest & [->|[e ->]]).
Qed.

Lemma waiting_reply sh inbox cap : hoare True (waiting sh inbox) (p_io (one_reply cap))
  (λ r p, opens_plain (received inbox) r ∧ waiting sh (tail inbox) p).
Proof.
  intros p [Hs Hp]. unfold p_io, lift, one_reply, mbind, prog_bind, recv_from. rewrite Hp.
  destruct inbox as [|[d|t e] l]; simpl; try done.
  split; [|done]. apply received_take. exists d, [], []. rewrite app_nil_r. split; [by left|done].
Qed.

(** [?] where only the result is of interest. *)
Lemma attempt_earned {X A} (J : X → Prop) found (c : prog X (string + A)) k M :
  hoare True J c (λ r x, match r with inl _ => True | inr a => M a x end) →
  (∀ a, hoare True (M a) (k a) (λ r _, earned found r)) →
  hoare True J (attempt c k) (λ r _, earned found r).
Proof.
  intros Hc Hk. apply (hoare_attempt _ _ M); [|done].
  eapply hoare_conseq; [exact Hc|done|]. by intros [?|?].
Qed.

Lemma raw_honest b0 ch : honest None (dcid b0) (drive_handshake_with_raw_clienthello env b0 ch).
Proof.
  intros p cc p' E. set (o := {| o_shim := p.1; o_conn := None; o_dcid := dcid b0 |}).
  eapply (hoare_run True (waiting (eq p.1) (io_inbox p.2)) _ (λ r _, earned (shown (io_inbox p.2) o) r)) in E;
    [exact E| |done].
  clear E. generalize (io_inbox p.2). intros inbox. apply hoare_if; intros _; [by apply hoare_ret|].
  eapply (hoare_bind _ _ (λ r q, match r with inl _ => True | inr keys => waiting (issued o keys) inbox q end)).
  { intros q [Hs Hi]. unfold p_shim, lift. rewrite <- Hs.
    destruct (initial_keys Client (dcid b0) p.1) as [[c|keys] s'| | |] eqn:E; try done.
    split; [apply (issued_first o _ _ E)|done]. }
  intros [code|keys]; [by apply hoare_ret|].
  apply (hoare_bind _ _ (λ r _, earned (shown inbox o) r)).
  2: { intros r q Hr. unfold p_shim, lift, mbind, prog_bind. by destruct (keys_drop keys q.1). }
  eapply (hoare_bind _ _ (λ _, waiting (issued o keys) inbox)).
  { eapply hoare_conseq; [apply (waiting_shim (issued o keys) (issued o keys) inbox _ (λ _, True))|done|by intros ? ? [_ ?]].
    eapply hoare_conseq; [apply encode_initial_uses, issued_call|done|done]. }
  intros [pkt b']. apply (attempt_earned _ _ _ _ (λ _, waiting (issued o keys) inbox)).
  { eapply hoare_conseq; [apply waiting_open|done|]. by intros [?|?]. }
  intros _. apply (attempt_earned _ _ _ _ (λ _, waiting (issued o keys) inbox)).
  { eapply hoare_conseq; [apply waiting_send|done|]. by intros [?|?]. }
  intros _. apply (attempt_earned _ _ _ _ (λ reply q, received inbox reply ∧ waiting (issued o keys) (tail inbox) q)).
  { eapply hoare_conseq; [apply waiting_reply|done|]. by intros [?|?] ? [? ?]. }
  intros reply. apply hoare_pure. intros Hr. by apply raw_walk_told.
Qed.

Lemma full_honest fuel b tp :
  honest (made (build_quic_client_config_with_alpn h3) tp) (dcid b) (drive_handshake_full env fuel b tp).
Proof. apply connection_honest. intros. apply full_watched. Qed.

Lemma initial_honest b tp config :
  honest (made config tp) (dcid b) (drive_handshake_initial_inner env b tp config).
Proof. apply connection_honest. intros. apply initial_watched. Qed.

Lemma injection_honest fuel b tp inj :
  honest (made (build_quic_client_config_with_alpn h3) tp) (dcid b)
    (drive_handshake_with_injection env fuel b tp inj).
Proof.
  intros p cc p'. unfold drive_handshake_with_injection. case_if; [done|].
  apply connection_honest. intros. apply injection_watched.
Qed.
End Runs.

(** ** The scenarios *)

Section Scenarios.
Context {R : Rustls} {S : Type} `{KeysApi S} (env : environment) (escaped : Z → bool).

(** A scenario: what it expects, the connection rustls makes for it, the driver
    it runs and its [main]. The arguments are the fuel of the pumps, the random
    bytes of a raw ClientHello and the random connection identifier. *)
Record scenario := {
  sc_expects : expectation;
  sc_conn : option qclient;
  sc_driver : nat → bytes → bytes → prog (process (S:=S)) (string + option ConnectionClose);
  sc_main : nat → bytes → bytes → prog (process (S:=S)) exit;
}.

Definition with_params (tp : option bytes)
    (driver : bytes → prog (process (S:=S)) (string + option ConnectionClose)) :=
  block tp driver.

Definition tp_row tag tp main : scenario :=
  {| sc_expects := TransportParamError tag;
     sc_conn := tp ≫= made (build_quic_client_config_with_alpn h3);
     sc_driver fuel _ d := with_params tp (drive_handshake_full env fuel (new_builder d));
     sc_main fuel _ d := main fuel d |}.

Definition injection_row inj main : scenario :=
  {| sc_expects := CryptoError [10; 47; 50];
     sc_conn := server_tp_bytes_well_formed ≫= made (build_quic_client_config_with_alpn h3);
     sc_driver fuel _ d := with_params server_tp_bytes_well_formed
       (λ tp, drive_handshake_with_injection env fuel (new_builder d) tp inj);
     sc_main fuel _ d := main fuel d |}.

Definition scenarios : list scenario := [
  tp_row "[QUIC-TP-INITIAL-SCID-MISSING]" f02_missing_initial_scid (f02_main env escaped);
  tp_row "[QUIC-TP-ORIGINAL-DCID-FORBIDDEN]" f03_original_dcid_forbidden (f03_main env escaped);
  tp_row "[QUIC-TP-PREFERRED-ADDR-FORBIDDEN]" f04_preferred_addr_forbidden (f04_main env escaped);
  tp_row "[QUIC-TP-RETRY-SCID-FORBIDDEN]" f05_retry_scid_forbidden (f05_main env escaped);
  tp_row "[QUIC-TP-STATELESS-RESET-FORBIDDEN]" f06_stateless_reset_forbidden (f06_main env escaped);
  tp_row "[QUIC-TP-MAX-UDP-PAYLOAD-RANGE]" f07_max_udp_payload_below_min (f07_main env escaped);
  tp_row "[QUIC-TP-ACK-DELAY-EXP-RANGE]" f08_ack_delay_exponent_above_max (f08_main env escaped);
  tp_row "[QUIC-TP-MAX-ACK-DELAY-RANGE]" f09_max_ack_delay_above_threshold (f09_main env escaped);
  injection_row {| epoch := EpochHandshake; inj_bytes := [24; 0; 0; 1; 0] |} (f25_main env escaped);
  injection_row {| epoch := EpochOneRtt; inj_bytes := [24; 0; 0; 1; 0] |} (f26_main env escaped);
  {| sc_expects := CryptoError [120; 50];
     sc_conn := server_tp_bytes_well_formed ≫= made (build_quic_client_config_with_alpn []);
     sc_driver _ _ d := with_params server_tp_bytes_well_formed
       (drive_handshake_initial_no_alpn env (new_builder d));
     sc_main _ _ d := f27_main env escaped d |};
  {| sc_expects := CryptoError [109; 50; 47];
     sc_conn := None;
     sc_driver _ random d :=
       match build default_hello random with
       | inl e => err e
       | inr ch => drive_handshake_with_raw_clienthello env (new_builder d) ch
       end;
     sc_main _ random d := f28_main env escaped random d |};
  injection_row {| epoch := EpochHandshake; inj_bytes := [5; 0; 0; 0] |} (f29_main env escaped)
].

(** A verdict that fits what the driver found. *)
Definition judged (e : expectation) (r : string + option ConnectionClose) (x : exit) : Prop :=
  (x.1 = 0 ∨ x.1 = 1) ∧ (x.1 = 0 ↔ x.2 = []) ∧
  (x.1 = 0 ↔ ∃ cc, r = inr (Some cc) ∧ meets e cc).

Lemma failed e r line lines : (∀ cc, r = inr (Some cc) → ¬ meets e cc) → judged e r (1, line :: lines).
Proof.
  intros Hr. split; [by right|]. split; [done|]. split; [done|]. intros (cc & -> & Hm).
  by destruct (Hr cc).
Qed.

Lemma judge_judged e name nothing trouble check r :
  (∀ cc, check cc = inr tt ↔ meets e cc) → judged e r (judge escaped name nothing trouble check r).
Proof.
  intros Hc. destruct r as [m|[cc|]]; simpl; [by apply failed| |by apply failed].
  destruct (check cc) as [diag|[]] eqn:E.
  - apply failed. intros cc' [= <-] Hm%Hc. congruence.
  - split; [by left|]. split; [done|]. split; [|done]. intros _. exists cc. by rewrite <- Hc.
Qed.

(** A [main] runs its driver, and says what the driver found. *)
Definition faithful (sc : scenario) : Prop := ∀ fuel random d,
  honest (sc_conn sc) d (sc_driver sc fuel random d) ∧
  ∀ p x p', sc_main sc fuel random d p = Ret x p' →
    ∃ r, sc_driver sc fuel random d p = Ret r p' ∧ judged (sc_expects sc) r x.

Lemma block_honest config d tp driver :
  (∀ tp, honest (made config tp) d (driver tp)) → honest (tp ≫= made config) d (with_params tp driver).
Proof. intros Hd p cc p'. destruct tp as [tp|]; [apply Hd|done]. Qed.

Lemma block_faithful e tp (driver : bytes → prog (process (S:=S)) (string + option ConnectionClose))
    verdict p x p' :
  (∀ r, judged e r (verdict r)) →
  block tp (λ tp, r ← driver tp; mret (verdict r)) p = Ret x p' →
  ∃ r, with_params tp driver p = Ret r p' ∧ judged e r x.
Proof.
  intros Hv. destruct tp as [tp|]; [|done]. unfold with_params, block, mbind, prog_bind, mret, prog_ret. simpl.
  destruct (driver tp p) as [r q| | |]; try done. intros [= <- <-]. by exists r.
Qed.

Lemma tp_faithful name tag tp :
  faithful (tp_row tag tp (tp_scenario env escaped name tag tp)).
Proof.
  intros fuel random d. split.
  - apply block_honest. intros. apply (full_honest env fuel (new_builder d)).
  - intros p x p'. apply block_faithful. intros r. apply judge_judged. intros cc.
    apply transport_param_error_exact.
Qed.

Lemma injection_faithful name nothing inj :
  faithful (injection_row inj (injection_scenario env escaped name nothing inj)).
Proof.
  intros fuel random d. split.
  - apply block_honest. intros. apply (injection_honest env fuel (new_builder d)).
  - intros p x p'. apply block_faithful. intros r. apply judge_judged. intros cc.
    apply crypto_error_exact. by apply (bool_decide_unpack _).
Qed.

Lemma scenarios_faithful : Forall faithful scenarios.
Proof.
  unfold scenarios. do 8 (constructor; [apply tp_faithful|]).
  do 2 (constructor; [apply injection_faithful|]). constructor; [|constructor; [|constructor; [|constructor]]].
  - intros fuel random d. split.
    + apply block_honest. intros. apply (initial_honest env (new_builder d)).
    + intros p x p'. apply block_faithful. intros r. apply judge_judged. intros cc.
      apply crypto_error_exact. by apply (bool_decide_unpack _).
  - intros fuel random d. cbn [sc_driver sc_main sc_expects]. unfold f28_main.
    destruct (build default_hello random) as [e|ch].
    + split; [done|]. intros p x p' [= <- <-]. exists (inl e). split; [done|]. by apply failed.
    + split; [apply (raw_honest env (new_builder d))|]. intros p x p'. unfold mbind, prog_bind, mret, prog_ret.
      destruct (drive_handshake_with_raw_clienthello _ _ _ p) as [r q| | |]; try done.
      intros [= <- <-]. exists r. split; [done|]. apply judge_judged. intros cc.
      apply crypto_error_exact. by apply (bool_decide_unpack _).
  - apply injection_faithful.
Qed.
End Scenarios.

(** C20: every adversarial scenario that ends exits with 0 or 1, prints
    nothing exactly when it exits with 0, and exits with 0 exactly when its
    driver found a CONNECTION_CLOSE of the transport kind with the alert or the
    error and tag it expects; and then the server sent that frame in this run:
    part of a datagram that arrived opens to a payload that holds it. It opens
    under the handle the run's first call of the shim issued for the Initial
    keys of its connection identifier, in a state reached from the one after
    that call by calls on the handle other than its release, or under Handshake
    or 1-RTT keys that [write_hs] gave on the connection rustls made for this
    scenario, after reads and writes on it. *)
Theorem verdicts_earned {R : Rustls} {S : Type} `{KeysApi S} env escaped sc fuel random d
    (p : process (S:=S)) code lines p' :
  sc ∈ scenarios env escaped →
  sc_main sc fuel random d p = Ret (code, lines) p' →
  ∃ r, sc_driver sc fuel random d p = Ret r p' ∧
    (code = 0 ∨ code = 1) ∧ (code = 0 ↔ lines = []) ∧
    (code = 0 ↔ ∃ cc, r = inr (Some cc) ∧ meets (sc_expects sc) cc) ∧
    (code = 0 → ∃ cc, r = inr (Some cc) ∧ meets (sc_expects sc) cc ∧
       shown (io_inbox p.2) {| o_shim := p.1; o_conn := sc_conn sc; o_dcid := d |} cc).
Proof.
  intros Hsc E. pose proof (proj1 (Forall_forall _ _) (scenarios_faithful env escaped) sc Hsc) as Hf.
  destruct (Hf fuel random d) as [Hh Hm]. destruct (Hm _ _ _ E) as (r & Er & H01 & Hl & Hc).
  exists r. do 4 (split; [done|]). intros (cc & -> & Hmeets)%Hc. exists cc.
  split; [done|]. split; [done|by eapply Hh].
Qed.

(** ** A server that rejects the ClientHello of F28 *)

(** An Initial packet of the server's with the given frames. *)
Definition server_initial (d s frames : bytes) : prog (world (R:=toy)) bytes :=
  k ← initial_keys Server d;
  match k with
  | inl _ => mret []
  | inr keys =>
      let h := [0xC3] ++ be_bytes 4 1 ++ [zlen d] ++ d ++ [zlen s] ++ s ++ [0]
               ++ [0x40; 4 + zlen frames + 16] in
      '(_, buf) ← local_encrypt keys 0 (h ++ [0; 0; 0; 0]) (frames ++ replicate 16 0) (zlen frames);
      protect_header_in_place (h ++ [0; 0; 0; 0] ++ buf) (zlen h) 4 keys
  end.

Definition client_id : bytes := [1; 2; 3; 4; 5; 6; 7; 8].

(** CONNECTION_CLOSE with the alert missing_extension (109). *)
Definition missing_extension_reply : bytes :=
  default [] (result_of (server_initial client_id [] [0x1c; 0x41; 0x6d; 0x06; 0; 0; 0] pair_world)).

Definition f28_start : process (S:=world (R:=toy)) :=
  (pair_world, {| io_inbox := [Datagram missing_extension_reply]; io_clock := []; io_results := [];
                  io_log := [] |}).

Definition f28_row : scenario (S:=world (R:=toy)) :=
  default (tp_row quiet_env "" None (λ _ _, mret (0, []))) (scenarios quiet_env (λ _, false) !! 11%nat).

Definition f28_run : outcome (process (S:=world (R:=toy))) exit :=
  sc_main f28_row 0 (replicate 32 7) client_id f28_start.

Lemma verdicts_earned_witness :
  result_of f28_run = Some (0, []) ∧
  ∃ r, sc_driver f28_row 0 (replicate 32 7) client_id f28_start = Ret r (state_of f28_start f28_run) ∧
    (0 = 0 ∨ 0 = 1) ∧ (0 = 0 ↔ @nil string = []) ∧
    (0 = 0 ↔ ∃ cc, r = inr (Some cc) ∧ meets (sc_expects f28_row) cc) ∧
    (0 = 0 → ∃ cc, r = inr (Some cc) ∧ meets (sc_expects f28_row) cc ∧
       shown (R:=toy) (S:=world) (io_inbox f28_start.2)
         {| o_shim := f28_start.1; o_conn := sc_conn f28_row; o_dcid := client_id |} cc).
Proof.
  assert (E : result_of f28_run = Some (0, [])) by by_eval. split; [exact E|].
  apply (verdicts_earned quiet_env (λ _, false) f28_row 0 (replicate 32 7) client_id f28_start 0 []).
  - apply (list_elem_of_lookup_2 _ 11%nat). reflexivity.
  - apply ret_of. exact E.
Defined.
End Verdicts.
