(* ===== verification/Quiche.v ===== *)
(** * The interface to quiche, and the process around it

    The raw-frame scenarios ([src/conformance/quiche-raw-frame-scenarios]) drive
    a vendored QUIC client, quiche, over UDP. The client is the class [Quiche]:
    a connection is a value, a call gives the connection after it and its
    [Result]; the time and the randomness quiche takes by itself are part of
    the connection. A call that may panic gives [None] then.

    The process is [net]: what the successive [recv_from] calls give, readings
    of the clock, results of the other system calls, ports and random bytes the
    system hands out, and what was sent and printed. When the script of readings
    ends every deadline has passed; when that of datagrams ends, receiving times
    out. *)

From S2P Require Import Prelude Effects Utf8 FrameScan Drivers.
Import Effects Utf8 FrameScan Drivers.

Module Quiche.

(** [SocketAddr]: an IPv4 address and a port. *)
Record addr := { ip : Z; port : Z }.

#[global] Instance addr_eq_dec : EqDecision addr.
Proof. solve_decision. Defined.

Definition localhost : Z := 0x7f000001.
Definition unspecified : Z := 0.

(** [quiche::Error] and [quiche::h3::Error]; [Other] carries the [Debug] of any
    other variant. *)
Inductive qerror := Done | InvalidState | Other (debug : string).

Definition qerror_debug (e : qerror) : string :=
  match e with Done => "Done" | InvalidState => "InvalidState" | Other s => s end.

(** [quiche::Type]. *)
Inductive pkt_type := TInitial | TRetry | THandshake | TZeroRTT | TVersionNegotiation | TShort.

(** The variants of [quiche::frame::Frame] the scenarios build. *)
Inductive Frame :=
  | Ping
  | PathChallenge (data : bytes)
  | Stream (stream_id offset : Z) (data : bytes) (fin : bool)
  | ResetStream (stream_id error_code final_size : Z)
  | StopSending (stream_id error_code : Z)
  | NewToken (token : bytes)
  | MaxStreamData (stream_id max : Z)
  | MaxStreamsBidi (max : Z)
  | StreamsBlockedBidi (limit : Z)
  | NewConnectionId (seq_num retire_prior_to : Z) (conn_id reset_token : bytes)
  | HandshakeDone.

(** The setters of [quiche::Config]. *)
Inductive setting :=
  | verify_peer (b : bool)
  | enable_early_data
  | max_idle_timeout (ms : Z)
  | max_recv_udp_payload_size (n : Z)
  | max_send_udp_payload_size (n : Z)
  | initial_max_data (n : Z)
  | initial_max_stream_data_bidi_local (n : Z)
  | initial_max_stream_data_bidi_remote (n : Z)
  | initial_max_stream_data_uni (n : Z)
  | initial_max_streams_bidi (n : Z)
  | initial_max_streams_uni (n : Z)
  | disable_active_migration (b : bool).

(** [quiche::h3::Header] and the events of [quiche::h3::Event]. *)
Definition header : Type := bytes * bytes.

Inductive h3_event := Headers (l : list header) | Data | Finished | Reset (code : Z) | GoAway | PriorityUpdate.

Class Quiche := {
  qconfig : Type;
  config_new : qerror + qconfig;
  config_set : setting → qconfig → qconfig;
  set_application_protos : list bytes → qconfig → qerror + qconfig;
  qconn : Type;
  connect : bytes → bytes → addr → addr → qconfig → qerror + qconn;
  conn_send : Z → qconn → qconn * (qerror + (bytes * addr));
  conn_recv : bytes → addr → addr → qconn → qconn * (qerror + Z);
  on_timeout : qconn → qconn;
  is_established : qconn → bool;
  is_closed : qconn → bool;
  peer_error : qconn → option (Z * bytes);
  local_error : qconn → option (Z * bytes);
  session : qconn → option bytes;
  set_session : bytes → qconn → qconn * (qerror + unit);
  has_application_crypto_seal : qconn → bool;
  close : bool → Z → bytes → qconn → qconn * (qerror + unit);
  stream_send : Z → bytes → bool → qconn → qconn * (qerror + Z);
  encode_pkt : pkt_type → list Frame → Z → qconn → qconn * option (qerror + bytes);
  encode_pkt_with_payload : pkt_type → bytes → Z → qconn → qconn * option (qerror + bytes);
  encode_pkt_reserved_bits : pkt_type → list Frame → Z → Z → qconn → qconn * option (qerror + bytes);
  h3_config : Type;
  h3_config_new : qerror + h3_config;
  h3_conn : Type;
  with_transport : h3_config → qconn → qconn * (qerror + h3_conn);
  send_request : list header → bool → h3_conn * qconn → h3_conn * qconn * (qerror + Z);
  send_body : Z → bytes → bool → h3_conn * qconn → h3_conn * qconn * (qerror + Z);
  poll : h3_conn * qconn → h3_conn * qconn * (qerror + (Z * h3_event));
}.

(** ** System calls *)

Inductive io_kind := WouldBlock | TimedOut | OtherKind.

#[global] Instance io_kind_eq_dec : EqDecision io_kind.
Proof. solve_decision. Defined.

(** An error of the system, with its [Display] and [Debug]. *)
Record os_error := { os_kind : io_kind; os_display : string; os_debug : string }.

(** [io::Error]: from the system, or made from a kind and a message. *)
Inductive io_error := Os (e : os_error) | Custom (kind : io_kind) (msg : string).

Definition io_display (e : io_error) : string :=
  match e with Os e => os_display e | Custom _ m => m end.

Definition error_kind (e : io_error) : io_kind :=
  match e with Os e => os_kind e | Custom k _ => k end.

(** [io::Error::other] *)
Definition other (m : string) : io_error := Custom OtherKind m.

Inductive arrival := Arrived (data : bytes) (from : addr) | RecvFailed (e : os_error).

(** A datagram that was sent: the socket, the destination, the bytes. *)
Record sent := { sent_from : addr; sent_to : addr; sent_data : bytes }.

Inductive console := Stdout (line : string) | Stderr (line : string).

Record net := {
  n_inbox : list arrival;
  n_clock : list Z;
  n_results : list (option os_error);
  n_ports : list Z;
  n_random : list bytes;
  n_sent : list sent;
  n_console : list console;
}.

Definition os_next : prog net (option os_error) := λ n,
  Ret (default None (head (n_results n)))
    {| n_inbox := n_inbox n; n_clock := n_clock n; n_results := tail (n_results n);
       n_ports := n_ports n; n_random := n_random n; n_sent := n_sent n; n_console := n_console n |}.

(** A call whose success gives [a]. *)
Definition sys {A} (a : A) : prog net (os_error + A) :=
  r ← os_next; mret match r with Some e => inl e | None => inr a end.

(** [UdpSocket::bind("<ip>:0")]: the socket is its address. *)
Definition bind (ip : Z) : prog net (os_error + addr) :=
  r ← os_next;
  match r with
  | Some e => mret (inl e)
  | None => λ n,
      Ret (inr {| ip := ip; port := default 0 (head (n_ports n)) |})
        {| n_inbox := n_inbox n; n_clock := n_clock n; n_results := n_results n;
           n_ports := tail (n_ports n); n_random := n_random n; n_sent := n_sent n;
           n_console := n_console n |}
  end.

Definition set_read_timeout : prog net (os_error + unit) := sys tt.
Definition local_addr (socket : addr) : prog net (os_error + addr) := sys socket.

(** [SystemRandom::fill] of a buffer of [len] bytes: [None] on failure. *)
Definition fill (len : nat) : prog net (option bytes) :=
  r ← os_next;
  match r with
  | Some _ => mret None
  | None => λ n,
      Ret (Some (take len (default [] (head (n_random n)) ++ replicate len 0)))
        {| n_inbox := n_inbox n; n_clock := n_clock n; n_results := n_results n;
           n_ports := n_ports n; n_random := tail (n_random n); n_sent := n_sent n;
           n_console := n_console n |}
  end.

Definition transmit (socket to : addr) (data : bytes) (n : net) : net :=
  {| n_inbox := n_inbox n; n_clock := n_clock n; n_results := n_results n; n_ports := n_ports n;
     n_random := n_random n;
     n_sent := n_sent n ++ [{| sent_from := socket; sent_to := to; sent_data := data |}];
     n_console := n_console n |}.

Definition send_to (socket : addr) (data : bytes) (to : addr) : prog net (os_error + Z) :=
  r ← os_next;
  match r with
  | Some e => mret (inl e)
  | None => modify (transmit socket to data);; mret (inr (zlen data))
  end.

Definition dquote : string := bytes_string [34].

Definition blocked : os_error :=
  {| os_kind := WouldBlock; os_display := "Resource temporarily unavailable (os error 11)";
     os_debug := "Os { code: 11, kind: WouldBlock, message: " +:+ dquote
                   +:+ "Resource temporarily unavailable" +:+ dquote +:+ " }" |}.

(** [socket.recv_from] into a buffer of 65535 bytes. *)
Definition recv_from : prog net arrival := λ n,
  let rest := {| n_inbox := tail (n_inbox n); n_clock := n_clock n; n_results := n_results n;
                 n_ports := n_ports n; n_random := n_random n; n_sent := n_sent n;
                 n_console := n_console n |} in
  match head (n_inbox n) with
  | None => Ret (RecvFailed blocked) rest
  | Some (Arrived d from) => Ret (Arrived (take (Z.to_nat 65535) d) from) rest
  | Some e => Ret e rest
  end.

Definition is_timeout (e : os_error) : bool :=
  bool_decide (os_kind e = WouldBlock) || bool_decide (os_kind e = TimedOut).

(** [Instant::now()] *)
Definition now : prog net (option Z) := λ n,
  Ret (head (n_clock n))
    {| n_inbox := n_inbox n; n_clock := tail (n_clock n); n_results := n_results n;
       n_ports := n_ports n; n_random := n_random n; n_sent := n_sent n; n_console := n_console n |}.

Definition deadline_in (ms : Z) : prog net (option Z) :=
  t ← now; mret ((λ t, t + ms) <$> t).

Definition print (l : console) : prog net unit :=
  modify (λ n, {| n_inbox := n_inbox n; n_clock := n_clock n; n_results := n_results n;
                  n_ports := n_ports n; n_random := n_random n; n_sent := n_sent n;
                  n_console := n_console n ++ [l] |}).

Definition println (s : string) : prog net unit := print (Stdout s).
Definition eprintln (s : string) : prog net unit := print (Stderr s).

(** ** A client

    A connection and the process around it. *)
Section Client.
Context {Q : Quiche}.

Definition client : Type := qconn * net.

Definition on_net {A} (c : prog net A) : prog client A := lift snd (λ n x, (x.1, n)) c.

Definition on_conn {A} (f : qconn → qconn * A) : prog client A := λ x,
  let '(c, a) := f x.1 in Ret a (c, x.2).

Definition asks {A} (f : qconn → A) : prog client A := gets (λ x, f x.1).

(** A client made from the process: what it did, and its connection after. *)
Definition run_client {A} (c : qconn) (body : prog client A) : prog net (A * qconn) := λ n,
  match body (c, n) with
  | Ret a x => Ret (a, x.1) x.2
  | Panic m => Panic m
  | Undef => Undef
  | NoFuel => NoFuel
  end.
End Client.
End Quiche.
