(* ===== verification/ToyQuiche.v ===== *)
(** * A small QUIC client

    An executable instance of [Quiche]: a handshake of one exchange. The first
    byte of a datagram says what it is: [2] the server's handshake, after which
    Handshake keys are live until the Finished is sent; [4] a session ticket;
    [6] a response with a status; [9] a CONNECTION_CLOSE with a code and a
    reason. *)

From S2P Require Import Prelude Effects Quiche.
Import Effects Quiche.

Module ToyQuiche.

Record tconn := {
  t_to : addr;
  t_hello : bool;
  t_keys : bool;
  t_finished : bool;
  t_established : bool;
  t_peer : option (Z * bytes);
  t_session : option bytes;
  t_seal : bool;
  t_request : bool;
  t_response : option (list header);
}.

Definition fresh_tconn (to : addr) : tconn :=
  {| t_to := to; t_hello := true; t_keys := false; t_finished := false; t_established := false;
     t_peer := None; t_session := None; t_seal := false; t_request := false; t_response := None |}.

Definition toy_send (c : tconn) : tconn * (qerror + (bytes * addr)) :=
  if t_hello c then
    ({| t_to := t_to c; t_hello := false; t_keys := t_keys c; t_finished := t_finished c;
        t_established := t_established c; t_peer := t_peer c; t_session := t_session c;
        t_seal := t_seal c; t_request := t_request c; t_response := t_response c |},
     inr ([1], t_to c))
  else if t_finished c then
    ({| t_to := t_to c; t_hello := false; t_keys := false; t_finished := false;
        t_established := true; t_peer := t_peer c; t_session := t_session c;
        t_seal := t_seal c; t_request := t_request c; t_response := t_response c |},
     inr ([3], t_to c))
  else if t_request c then
    ({| t_to := t_to c; t_hello := false; t_keys := t_keys c; t_finished := false;
        t_established := t_established c; t_peer := t_peer c; t_session := t_session c;
        t_seal := t_seal c; t_request := false; t_response := t_response c |},
     inr ([5], t_to c))
  else (c, inl Done).

Definition toy_recv (d : bytes) (c : tconn) : tconn :=
  let tag := default 0 (head d) in
  {| t_to := t_to c; t_hello := t_hello c;
     t_keys := (tag =? 2) || t_keys c;
     t_finished := (tag =? 2) || t_finished c;
     t_established := t_established c;
     t_peer := if tag =? 9 then Some (default 0 (d !! 1%nat), drop 2 d) else t_peer c;
     t_session := if tag =? 4 then Some (drop 1 d) else t_session c;
     t_seal := t_seal c; t_request := t_request c;
     t_response := if tag =? 6 then Some [(string_bytes ":status", drop 1 d)] else t_response c |}.

Definition toy_encode (ty : pkt_type) (pkt : bytes) (c : tconn) : tconn * option (qerror + bytes) :=
  (c, match ty with
      | THandshake => if t_keys c then Some (inr pkt) else None
      | TZeroRTT => Some (if t_seal c then inr pkt else inl InvalidState)
      | _ => Some (if t_established c then inr pkt else inl InvalidState)
      end).

Definition toy_resume (blob : bytes) (c : tconn) : tconn :=
  {| t_to := t_to c; t_hello := t_hello c; t_keys := t_keys c; t_finished := t_finished c;
     t_established := t_established c; t_peer := t_peer c; t_session := Some blob;
     t_seal := true; t_request := t_request c; t_response := t_response c |}.

Definition toy_request (c : tconn) : tconn :=
  {| t_to := t_to c; t_hello := t_hello c; t_keys := t_keys c; t_finished := t_finished c;
     t_established := t_established c; t_peer := t_peer c; t_session := t_session c;
     t_seal := t_seal c; t_request := true; t_response := t_response c |}.

Definition toy_poll (c : tconn) : tconn * (qerror + (Z * h3_event)) :=
  match t_response c with
  | None => (c, inl Done)
  | Some l =>
      ({| t_to := t_to c; t_hello := t_hello c; t_keys := t_keys c; t_finished := t_finished c;
          t_established := t_established c; t_peer := t_peer c; t_session := t_session c;
          t_seal := t_seal c; t_request := t_request c; t_response := None |}, inr (0, Headers l))
  end.

#[global] Instance toy_quiche : Quiche := {|
  qconfig := list setting;
  config_new := inr [];
  config_set s c := c ++ [s];
  set_application_protos _ c := inr c;
  qconn := tconn;
  connect _ _ _ to _ := inr (fresh_tconn to);
  conn_send _ c := toy_send c;
  conn_recv d _ _ c := (toy_recv d c, inr (zlen d));
  on_timeout c := c;
  is_established := t_established;
  is_closed _ := false;
  peer_error := t_peer;
  local_error _ := None;
  session := t_session;
  set_session blob c := (toy_resume blob c, inr tt);
  has_application_crypto_seal := t_seal;
  close _ _ _ c := (c, inr tt);
  stream_send _ d _ c := (c, inr (zlen d));
  encode_pkt ty fr _ c := toy_encode ty [7; Z.of_nat (length fr)] c;
  encode_pkt_with_payload ty d _ c := toy_encode ty (7 :: d) c;
  encode_pkt_reserved_bits ty fr mask _ c := toy_encode ty [7; mask] c;
  h3_config := unit;
  h3_config_new := inr tt;
  h3_conn := unit;
  with_transport _ c := (c, inr tt);
  send_request _ _ x := (x.1, toy_request x.2, inr 0);
  send_body _ d _ x := (x, inr (zlen d));
  poll x := (let r := toy_poll x.2 in (x.1, r.1, r.2));
|}.

Definition toy_net (inbox : list arrival) (clock : list Z) : net :=
  {| n_inbox := inbox; n_clock := clock; n_results := []; n_ports := [50000; 50001; 50002; 50003];
     n_random := []; n_sent := []; n_console := [] |}.
End ToyQuiche.
