(* ===== verification/RawFrames.v ===== *)
(** * The raw-frame scenario library

    Models [src/conformance/quiche-raw-frame-scenarios/src/lib.rs]. A function
    that panics where a caller may catch it returns the panic as a value: its
    result is [inl] with the message. The loops over quiche's output run on
    fuel given as an argument; the loops that watch a deadline have one unit per
    reading of the clock. *)

From S2P Require Import Prelude Effects Utf8 Format FrameScan Drivers TlsScenarios Quiche.
Import Effects Utf8 Format FrameScan Drivers TlsScenarios Quiche.

Module RawFrames.

Definition MAX_DATAGRAM_SIZE : Z := 1350.
Definition HANDSHAKE_DEADLINE_MS : Z := 2000.
Definition CLOSE_DEADLINE_MS : Z := 2000.

(** [quiche::MAX_CONN_ID_LEN] *)
Definition MAX_CONN_ID_LEN : nat := 20.

Definition server_addr_with_port (p : Z) : addr := {| ip := localhost; port := p |}.

Section RawFrames.
Context {Q : Quiche}.

(** [.expect(what)] on a [Result], as a value. *)
Definition expecting {X A} (what : string) (debug : A → string) {B} (r : A + B)
  : prog X (string + B) :=
  match r with inl e => err (what +:+ ": " +:+ debug e) | inr b => ok b end.

Definition expect_call {A} (what : string) (c : prog net (os_error + A)) : prog net (string + A) :=
  r ← c; expecting what os_debug r.

(** [expect] where no caller catches. *)
Definition or_panic {X A} (c : prog X (string + A)) : prog X A :=
  r ← c; match r with inl m => panic m | inr a => mret a end.

Definition h3_protos : list bytes := [string_bytes "h3"].

(** The settings every client has, after [verify_peer] and the protocols. *)
Definition client_settings : list setting := [
  max_idle_timeout 5000;
  max_recv_udp_payload_size MAX_DATAGRAM_SIZE;
  max_send_udp_payload_size MAX_DATAGRAM_SIZE;
  initial_max_data 10000000;
  initial_max_stream_data_bidi_local 1000000;
  initial_max_stream_data_bidi_remote 1000000;
  initial_max_stream_data_uni 1000000;
  initial_max_streams_bidi 100;
  initial_max_streams_uni 100;
  disable_active_migration true
].

Definition apply_settings (l : list setting) (c : qconfig) : qconfig :=
  foldl (λ c s, config_set s c) c l.

Definition build_client_config : prog net (string + qconfig) :=
  config ←? expecting "quiche::Config::new" qerror_debug config_new;
  let config := config_set (verify_peer false) config in
  config ←? expecting "set_application_protos h3" qerror_debug
              (set_application_protos h3_protos config);
  ok (apply_settings client_settings config).

(** ** Sending what quiche has to send *)

Fixpoint flush_send (fuel : nat) (socket : addr) : prog client (string + unit) :=
  match fuel with
  | O => no_fuel
  | S fuel =>
      r ← on_conn (conn_send MAX_DATAGRAM_SIZE);
      match r with
      | inr (out, to) =>
          s ← on_net (send_to socket out to);
          match s with
          | inr _ => flush_send fuel socket
          | inl e =>
              if bool_decide (os_kind e = WouldBlock) then ok tt
              else err ("flush_send: send_to failed: " +:+ os_debug e)
          end
      | inl Done => ok tt
      | inl e => err ("flush_send: conn.send failed: " +:+ qerror_debug e)
      end
  end.

(** ** Connecting *)

(** The socket, its address and the connection: the start of both functions. *)
Definition start_client (port : Z) : prog net (string + (qconn * addr)) :=
  let server := server_addr_with_port port in
  socket ←? expect_call "bind UDP" (bind localhost);
  _ ←? expect_call "set_read_timeout" set_read_timeout;
  local ←? expect_call "local_addr" (local_addr socket);
  scid ← fill MAX_CONN_ID_LEN;
  match scid with
  | None => err "random scid: Unspecified"
  | Some scid =>
      config ←? build_client_config;
      conn ←? expecting "quiche::connect" qerror_debug
                (connect (string_bytes "localhost") scid local server config);
      ok (conn, socket)
  end.

(** [while !conn.is_established() && Instant::now() < deadline] *)
Fixpoint establish_loop (fuel flush_fuel : nat) (socket : addr) (deadline : option Z)
  : prog client (string + unit) :=
  match fuel with
  | O => no_fuel
  | S fuel =>
      established ← asks is_established;
      if established : bool then ok tt
      else
        t ← on_net now;
        if past t deadline then ok tt
        else
          ev ← on_net recv_from;
          _ ←? match ev with
               | Arrived d from =>
                   r ← on_conn (conn_recv d socket from);
                   match r with
                   | inl e => err ("navette_connect: conn.recv failed: " +:+ qerror_debug e)
                   | inr _ => ok tt
                   end
               | RecvFailed e =>
                   if is_timeout e then on_conn (λ c, (on_timeout c, tt));; ok tt
                   else err ("navette_connect: recv_from failed: " +:+ os_debug e)
               end;
          _ ←? flush_send flush_fuel socket;
          establish_loop fuel flush_fuel socket deadline
  end.

Definition clock_fuel : prog client nat := gets (λ x : client, S (length (n_clock x.2))).

Definition establish (flush_fuel : nat) (socket : addr) : prog client (string + unit) :=
  deadline ← on_net (deadline_in HANDSHAKE_DEADLINE_MS);
  _ ←? flush_send flush_fuel socket;
  fuel ← clock_fuel;
  _ ←? establish_loop fuel flush_fuel socket deadline;
  established ← asks is_established;
  if established : bool then ok tt
  else err ("navette_connect: handshake did not complete within " +:+ pretty HANDSHAKE_DEADLINE_MS
              +:+ " ms").

(** The connection, the socket and the server's address, or the panic. *)
Definition connected (port : Z) (c : qconn) (socket : addr) (body : prog client (string + unit))
  : prog net (string + (qconn * addr * addr)) :=
  '(r, conn) ← run_client c body;
  match r with
  | inl m => err m
  | inr _ => ok (conn, socket, server_addr_with_port port)
  end.

Definition navette_connect (flush_fuel : nat) (port : Z)
  : prog net (string + (qconn * addr * addr)) :=
  '(conn, socket) ←? start_client port;
  connected port conn socket (establish flush_fuel socket).

(** The loop that waits for Handshake keys: the outer [inl] is a panic, the
    inner one the [Err] the loop breaks with. *)
Fixpoint probe_loop (fuel flush_fuel : nat) (socket : addr) (deadline : option Z)
  : prog client (string + (string + unit)) :=
  match fuel with
  | O => no_fuel
  | S fuel =>
      let continue :=
        t ← on_net now;
        if past t deadline then
          ok (inl ("handshake-epoch keys did not materialise within "
                     +:+ pretty HANDSHAKE_DEADLINE_MS +:+ " ms"))
        else
          ev ← on_net recv_from;
          match ev with
          | Arrived d from =>
              r ← on_conn (conn_recv d socket from);
              match r with
              | inl e => ok (inl ("conn.recv failed: " +:+ qerror_debug e))
              | inr _ => probe_loop fuel flush_fuel socket deadline
              end
          | RecvFailed e =>
              if is_timeout e then
                on_conn (λ c, (on_timeout c, tt));;
                _ ←? flush_send flush_fuel socket;
                probe_loop fuel flush_fuel socket deadline
              else ok (inl ("recv_from failed: " +:+ os_debug e))
          end in
      probed ← on_conn (encode_pkt THandshake [] MAX_DATAGRAM_SIZE);
      match probed with
      | Some (inr _) => ok (inr tt)
      | Some (inl InvalidState) | None => continue
      | Some (inl e) => ok (inl ("probe failed: " +:+ qerror_debug e))
      end
  end.

Definition await_handshake_keys (flush_fuel : nat) (socket : addr) : prog client (string + unit) :=
  deadline ← on_net (deadline_in HANDSHAKE_DEADLINE_MS);
  _ ←? flush_send flush_fuel socket;
  fuel ← clock_fuel;
  result ←? probe_loop fuel flush_fuel socket deadline;
  match result with
  | inr _ => ok tt
  | inl msg => err ("navette_connect_until_handshake_keys: " +:+ msg)
  end.

Definition navette_connect_until_handshake_keys (flush_fuel : nat) (port : Z)
  : prog net (string + (qconn * addr * addr)) :=
  '(conn, socket) ←? start_client port;
  connected port conn socket (await_handshake_keys flush_fuel socket).

(** ** Raw packets *)

(** What an encoder wrote, sent; a panic of the encoder is one of the caller. *)
Definition send_encoded (name : string) (encode : qconn → qconn * option (qerror + bytes))
    (socket server : addr) : prog client (io_error + Z) :=
  r ← on_conn encode;
  match r with
  | None => panic name
  | Some (inl e) => mret (inl (other (name +:+ ": " +:+ qerror_debug e)))
  | Some (inr pkt) =>
      s ← on_net (send_to socket pkt server);
      mret match s with inl e => inl (Os e) | inr n => inr n end
  end.

Definition send_raw_1rtt (socket server : addr) (frames : list Frame) : prog client (io_error + Z) :=
  send_encoded "encode_pkt" (encode_pkt TShort frames MAX_DATAGRAM_SIZE) socket server.

Definition send_raw_1rtt_bytes (socket server : addr) (frame_payload : bytes)
  : prog client (io_error + Z) :=
  send_encoded "encode_pkt_with_payload"
    (encode_pkt_with_payload TShort frame_payload MAX_DATAGRAM_SIZE) socket server.

(** ** Waiting for the close *)

Definition decode_reason (reason : bytes) : bytes :=
  let take_ := Z.min (zlen reason) 256 in
  from_utf8_lossy (sub 0 take_ reason).

Fixpoint close_loop (fuel flush_fuel : nat) (socket : addr) (deadline : option Z)
  : prog client (option (Z * bytes)) :=
  match fuel with
  | O => no_fuel
  | S fuel =>
      t ← on_net now;
      if past t deadline then mret None
      else
        peer ← asks peer_error;
        match peer with
        | Some (code, reason) => mret (Some (code, decode_reason reason))
        | None =>
            closed ← asks is_closed;
            if closed : bool then
              local ← asks local_error;
              match local with
              | Some (code, reason) => mret (Some (code, decode_reason reason))
              | None => mret None
              end
            else
              ev ← on_net recv_from;
              let next := or_panic (flush_send flush_fuel socket);;
                          close_loop fuel flush_fuel socket deadline in
              match ev with
              | Arrived d from => on_conn (conn_recv d socket from);; next
              | RecvFailed e =>
                  if is_timeout e then on_conn (λ c, (on_timeout c, tt));; next
                  else mret None
              end
        end
  end.

Definition wait_connection_close (flush_fuel : nat) (socket : addr) (timeout_ms : Z)
  : prog client (option (Z * bytes)) :=
  deadline ← on_net (deadline_in timeout_ms);
  local ← or_panic (on_net (expect_call "local_addr" (local_addr socket)));
  fuel ← clock_fuel;
  close_loop fuel flush_fuel local deadline.

Definition drain_pending (flush_fuel : nat) (socket : addr) : prog client unit :=
  or_panic (flush_send flush_fuel socket).

(** ** The verdict *)

Definition assert_close (escaped : Z → bool) (result : option (Z * bytes)) (expected_code : Z)
    (guard_tag failure_id : string) : prog net bool :=
  let expected := "expected code 0x" +:+ text_x expected_code +:+ " containing "
                  +:+ text_debug escaped (string_bytes guard_tag) in
  match result with
  | Some (code, reason) =>
      if (code =? expected_code) && contains reason (string_bytes guard_tag) then
        println ("PASS " +:+ failure_id);; mret true
      else
        eprintln ("FAIL " +:+ failure_id +:+ ": got code 0x" +:+ text_x code +:+ " reason "
                    +:+ text_debug escaped reason +:+ ", " +:+ expected);; mret false
  | None =>
      eprintln ("FAIL " +:+ failure_id +:+ ": no CONNECTION_CLOSE within timeout " +:+ "("
                  +:+ expected +:+ ")");; mret false
  end.
End RawFrames.
End RawFrames.
