(* ===== verification/Resumption.v ===== *)
(** * Resumption drivers of the raw-frame scenarios

    Models [src/conformance/quiche-raw-frame-scenarios/src/resumption.rs]:
    taking a session ticket, resuming with it up to the 0-RTT keys, the same
    while recording every datagram, replaying a recording, and sending one
    HTTP/3 request in 0-RTT. Results are [io::Result]s, [inl] being the error.
    Waiting ([thread::sleep]) changes nothing the model sees. *)

From S2P Require Import Prelude Effects Utf8 FrameScan Drivers Quiche RawFrames.
Import Effects Utf8 FrameScan Drivers Quiche RawFrames.

Module Resumption.

Definition PHASE1_DEADLINE_MS : Z := 2000.
Definition PHASE2_DEADLINE_MS : Z := 2000.

Section Resumption.
Context {Q : Quiche}.

Definition good {X A} (a : A) : prog X (io_error + A) := mret (inr a).
Definition fail {X A} (e : io_error) : prog X (io_error + A) := mret (inl e).

(** [.map_err(|e| io::Error::other(format!("{what}: {e:?}")))] *)
Definition wrapped {X A} (what : string) (r : qerror + A) : prog X (io_error + A) :=
  match r with inl e => fail (other (what +:+ ": " +:+ qerror_debug e)) | inr a => good a end.

(** [?] on an error of the system. *)
Definition io_call {A} (c : prog net (os_error + A)) : prog net (io_error + A) :=
  r ← c; mret match r with inl e => inl (Os e) | inr a => inr a end.

Definition early_config : prog net (io_error + qconfig) :=
  config ←? wrapped "Config::new" config_new;
  let config := config_set (verify_peer false) config in
  config ←? wrapped "set_application_protos" (set_application_protos h3_protos config);
  let config := config_set enable_early_data config in
  good (apply_settings client_settings config).

(** Configuration, socket, source identifier, connection: the first steps of
    every driver. *)
Definition open_client (server_addr : addr) : prog net (io_error + (qconn * addr)) :=
  config ←? early_config;
  socket ←? io_call (bind unspecified);
  _ ←? io_call set_read_timeout;
  local ←? io_call (local_addr socket);
  scid ← fill MAX_CONN_ID_LEN;
  match scid with
  | None => fail (other "random scid")
  | Some scid =>
      conn ←? wrapped "quiche::connect"
                (connect (string_bytes "localhost") scid local server_addr config);
      good (conn, socket)
  end.

Fixpoint flush (fuel : nat) (socket : addr) : prog client (io_error + unit) :=
  match fuel with
  | O => no_fuel
  | S fuel =>
      r ← on_conn (conn_send MAX_DATAGRAM_SIZE);
      match r with
      | inr (out, to) =>
          s ← on_net (send_to socket out to);
          match s with
          | inr _ => flush fuel socket
          | inl e => if bool_decide (os_kind e = WouldBlock) then good tt else fail (Os e)
          end
      | inl Done => good tt
      | inl e => fail (other ("conn.send: " +:+ qerror_debug e))
      end
  end.

(** The receiving half of a pump. *)
Definition ingest (socket : addr) : prog client (io_error + unit) :=
  ev ← on_net recv_from;
  match ev with
  | Arrived d from =>
      r ← on_conn (conn_recv d socket from);
      _ ←? wrapped "conn.recv" r;
      good tt
  | RecvFailed e =>
      if is_timeout e then on_conn (λ c, (on_timeout c, tt));; good tt else fail (Os e)
  end.

Definition pump_once (flush_fuel : nat) (socket : addr) : prog client (io_error + unit) :=
  _ ←? ingest socket;
  flush flush_fuel socket.

(** [while !done(conn) && Instant::now() < deadline { pump_once(..)?; }] *)
Fixpoint pump_until (fuel flush_fuel : nat) (stop : qconn → bool) (socket : addr)
    (deadline : option Z) : prog client (io_error + unit) :=
  match fuel with
  | O => no_fuel
  | S fuel =>
      stopped ← asks stop;
      if stopped : bool then good tt
      else
        t ← on_net now;
        if past t deadline then good tt
        else
          _ ←? pump_once flush_fuel socket;
          pump_until fuel flush_fuel stop socket deadline
  end.

(** A call on the HTTP/3 connection, which sits on the transport. *)
Definition on_h3 {A} (h3 : h3_conn) (f : h3_conn * qconn → h3_conn * qconn * A)
  : prog client (A * h3_conn) := λ x,
  let '(h3', c', a) := f (h3, x.1) in Ret (a, h3') (c', x.2).

(** [loop { match h3.poll(..) { Ok(_) => {} Err(_) => break } }] *)
Fixpoint drain_events (fuel : nat) (h3 : h3_conn) : prog client h3_conn :=
  match fuel with
  | O => no_fuel
  | S fuel =>
      '(r, h3) ← on_h3 h3 poll;
      match r with inr _ => drain_events fuel h3 | inl _ => mret h3 end
  end.

Definition h3_header (name value : string) : header := (string_bytes name, string_bytes value).

Definition get_request (agent : string) : list header := [
  h3_header ":method" "GET"; h3_header ":scheme" "https"; h3_header ":authority" "localhost";
  h3_header ":path" "/"; h3_header "user-agent" agent ].

(** HTTP/3 on top of the connection, and the request: its stream. *)
Definition h3_request (config : h3_config) (req : list header) (fin : bool)
  : prog client (io_error + (h3_conn * Z)) :=
  r ← on_conn (with_transport config);
  h3 ←? wrapped "h3::with_transport" r;
  '(r, h3) ← on_h3 h3 (send_request req fin);
  sid ←? wrapped "h3::send_request" r;
  good (h3, sid).

(** ** Phase 1 *)

Fixpoint ticket_loop (fuel flush_fuel poll_fuel : nat) (socket : addr) (deadline : option Z)
    (h3 : h3_conn) : prog client (io_error + option bytes) :=
  match fuel with
  | O => no_fuel
  | S fuel =>
      t ← on_net now;
      if past t deadline then good None
      else
        s ← asks session;
        match s with
        | Some blob => good (Some blob)
        | None =>
            _ ←? pump_once flush_fuel socket;
            h3 ← drain_events poll_fuel h3;
            ticket_loop fuel flush_fuel poll_fuel socket deadline h3
        end
  end.

Definition ticket_body (flush_fuel poll_fuel : nat) (socket : addr)
  : prog client (io_error + bytes) :=
  deadline ← on_net (deadline_in PHASE1_DEADLINE_MS);
  _ ←? flush flush_fuel socket;
  fuel ← clock_fuel;
  _ ←? pump_until fuel flush_fuel is_established socket deadline;
  established ← asks is_established;
  if negb established then
    fail (Custom TimedOut ("handshake not established within " +:+ pretty PHASE1_DEADLINE_MS
                             +:+ " ms"))
  else
    config ←? wrapped "h3::Config::new" h3_config_new;
    '(h3, _) ←? h3_request config (get_request "navette-resumption-phase1") true;
    _ ←? flush flush_fuel socket;
    fuel ← clock_fuel;
    blob ←? ticket_loop fuel flush_fuel poll_fuel socket deadline h3;
    match blob with
    | None => fail (Custom TimedOut ("no session ticket within " +:+ pretty PHASE1_DEADLINE_MS
                                       +:+ " ms"))
    | Some blob =>
        on_conn (close false 0 (string_bytes "phase 1 done"));;
        flush flush_fuel socket;;
        good blob
    end.

Definition drive_to_session_ticket (flush_fuel poll_fuel : nat) (server_addr : addr)
  : prog net (io_error + bytes) :=
  '(conn, socket) ←? open_client server_addr;
  '(r, _) ← run_client conn (ticket_body flush_fuel poll_fuel socket);
  mret r.

(** ** Phase 2 *)

Record ResumedConn := { r_conn : qconn; r_socket : addr; r_server_addr : addr }.

(** A client with the ticket, run and handed back with what it found. *)
Definition resume {A} (server_addr : addr) (session_blob : bytes)
    (body : addr → prog client (io_error + A)) : prog net (io_error + (ResumedConn * A)) :=
  '(conn, socket) ←? open_client server_addr;
  '(r, conn) ← run_client conn
    (s ← on_conn (set_session session_blob);
     _ ←? wrapped "conn.set_session" s;
     body socket);
  match r with
  | inl e => fail e
  | inr a => good ({| r_conn := conn; r_socket := socket; r_server_addr := server_addr |}, a)
  end.

Definition seal_body (flush_fuel : nat) (socket : addr) : prog client (io_error + unit) :=
  deadline ← on_net (deadline_in PHASE2_DEADLINE_MS);
  _ ←? flush flush_fuel socket;
  fuel ← clock_fuel;
  _ ←? pump_until fuel flush_fuel has_application_crypto_seal socket deadline;
  sealed ← asks has_application_crypto_seal;
  if negb sealed then
    fail (Custom TimedOut ("Application crypto_seal not installed within "
      +:+ pretty PHASE2_DEADLINE_MS +:+ " ms " +:+ "(resumption likely rejected by server)"))
  else good tt.

Definition drive_to_zero_rtt_seal (flush_fuel : nat) (server_addr : addr) (session_blob : bytes)
  : prog net (io_error + ResumedConn) :=
  '(resumed, _) ←? resume server_addr session_blob (seal_body flush_fuel);
  good resumed.

(** ** Recording the datagrams *)

Fixpoint capture_flush (fuel : nat) (socket : addr) (captured : list bytes)
  : prog client (io_error + list bytes) :=
  match fuel with
  | O => no_fuel
  | S fuel =>
      r ← on_conn (conn_send MAX_DATAGRAM_SIZE);
      match r with
      | inr (out, to) =>
          let captured := captured ++ [out] in
          s ← on_net (send_to socket out to);
          match s with
          | inr _ => capture_flush fuel socket captured
          | inl e => fail (Os e)
          end
      | inl Done => good captured
      | inl e => fail (other ("conn.send: " +:+ qerror_debug e))
      end
  end.

(** [h3_state] and [request_sent] change together: [Some] is [true]. *)
Definition request_once (config : h3_config) (req : list header) (h3 : option h3_conn)
  : prog client (io_error + option h3_conn) :=
  sealed ← asks has_application_crypto_seal;
  match h3 with
  | None =>
      if sealed : bool then
        '(h3, _) ←? h3_request config req true;
        good (Some h3)
      else good None
  | Some h3 => good (Some h3)
  end.

Definition drain_some (poll_fuel : nat) (h3 : option h3_conn) : prog client (option h3_conn) :=
  match h3 with
  | None => mret None
  | Some h3 => h3 ← drain_events poll_fuel h3; mret (Some h3)
  end.

Fixpoint capture_loop (fuel flush_fuel poll_fuel : nat) (socket : addr) (deadline : option Z)
    (config : h3_config) (h3 : option h3_conn) (captured : list bytes)
  : prog client (io_error + list bytes) :=
  match fuel with
  | O => no_fuel
  | S fuel =>
      t ← on_net now;
      if past t deadline then good captured
      else
        h3 ←? request_once config (get_request "navette-replay-capture") h3;
        captured ←? capture_flush flush_fuel socket captured;
        _ ←? ingest socket;
        h3 ← drain_some poll_fuel h3;
        if is_some h3 && negb (is_nil captured) then good captured
        else capture_loop fuel flush_fuel poll_fuel socket deadline config h3 captured
  end.

Definition capture_body (flush_fuel poll_fuel : nat) (socket : addr)
  : prog client (io_error + list bytes) :=
  deadline ← on_net (deadline_in 2000);
  captured ←? capture_flush flush_fuel socket [];
  config ←? wrapped "h3::Config::new" h3_config_new;
  fuel ← clock_fuel;
  captured ←? capture_loop fuel flush_fuel poll_fuel socket deadline config None captured;
  if is_nil captured then
    fail (Custom TimedOut "drive_to_zero_rtt_with_datagram_capture: no datagrams captured")
  else good captured.

Definition drive_to_zero_rtt_with_datagram_capture (flush_fuel poll_fuel : nat)
    (server_addr : addr) (session_blob : bytes) : prog net (io_error + (ResumedConn * list bytes)) :=
  resume server_addr session_blob (capture_body flush_fuel poll_fuel).

Fixpoint replay_loop (socket server_addr : addr) (datagrams : list bytes)
  : prog net (io_error + unit) :=
  match datagrams with
  | [] => good tt
  | d :: datagrams =>
      _ ←? io_call (send_to socket d server_addr);
      _ ← recv_from;
      replay_loop socket server_addr datagrams
  end.

Definition replay_datagrams_verbatim (server_addr : addr) (datagrams : list bytes)
  : prog net (io_error + unit) :=
  socket ←? io_call (bind unspecified);
  _ ←? io_call set_read_timeout;
  replay_loop socket server_addr datagrams.

(** ** One request in 0-RTT *)

(** [str::from_utf8] and [parse::<u16>()]. *)
Definition status_value (value : bytes) : option Z :=
  match from_utf8 value with
  | Some _ => None
  | None => parse_unsigned (2 ^ 16 - 1) (bytes_string value)
  end.

(** [for hdr in &list]: the last status that parses. *)
Definition status_of (l : list header) (observed : option Z) : option Z :=
  foldl (λ observed hdr,
    if bool_decide (hdr.1 = string_bytes ":status") then
      match status_value hdr.2 with Some v => Some v | None => observed end
    else observed) observed l.

Fixpoint status_events (fuel : nat) (h3 : h3_conn) (stream : Z) (observed : option Z)
  : prog client (io_error + (h3_conn * option Z)) :=
  match fuel with
  | O => no_fuel
  | S fuel =>
      '(r, h3) ← on_h3 h3 poll;
      match r with
      | inr (sid, Headers l) =>
          status_events fuel h3 stream (if sid =? stream then status_of l observed else observed)
      | inr _ => status_events fuel h3 stream observed
      | inl Done => good (h3, observed)
      | inl e => fail (other ("h3::poll: " +:+ qerror_debug e))
      end
  end.

Definition zero_rtt_request (method path : string) : list header := [
  h3_header ":method" method; h3_header ":scheme" "https"; h3_header ":authority" "localhost";
  h3_header ":path" path; h3_header "user-agent" "navette-zero-rtt-http" ].

(** The request and its body, once the keys are there. *)
Definition submit_once (config : h3_config) (method path : string) (body : option bytes)
    (h3 : option (h3_conn * Z)) : prog client (io_error + option (h3_conn * Z)) :=
  sealed ← asks has_application_crypto_seal;
  match h3 with
  | None =>
      if sealed : bool then
        '(h3, sid) ←? h3_request config (zero_rtt_request method path) (negb (is_some body));
        match body with
        | None => good (Some (h3, sid))
        | Some b =>
            '(r, h3) ← on_h3 h3 (send_body sid b true);
            _ ←? wrapped "h3::send_body" r;
            good (Some (h3, sid))
        end
      else good None
  | Some h3 => good (Some h3)
  end.

Fixpoint status_loop (fuel flush_fuel poll_fuel : nat) (socket : addr) (deadline : option Z)
    (config : h3_config) (method path : string) (body : option bytes)
    (h3 : option (h3_conn * Z)) (observed : option Z) : prog client (io_error + option Z) :=
  match fuel with
  | O => no_fuel
  | S fuel =>
      t ← on_net now;
      if past t deadline then good observed
      else if is_some observed then good observed
      else
        h3 ←? submit_once config method path body h3;
        _ ←? flush flush_fuel socket;
        _ ←? ingest socket;
        match h3 with
        | None => status_loop fuel flush_fuel poll_fuel socket deadline config method path body None observed
        | Some (h3, sid) =>
            '(h3, observed) ←? status_events poll_fuel h3 sid observed;
            status_loop fuel flush_fuel poll_fuel socket deadline config method path body
              (Some (h3, sid)) observed
        end
  end.

Definition request_body (flush_fuel poll_fuel : nat) (method path : string) (body : option bytes)
    (socket : addr) : prog client (io_error + Z) :=
  deadline ← on_net (deadline_in 2500);
  _ ←? flush flush_fuel socket;
  config ←? wrapped "h3::Config::new" h3_config_new;
  fuel ← clock_fuel;
  status ←? status_loop fuel flush_fuel poll_fuel socket deadline config method path body None None;
  match status with
  | None => fail (Custom TimedOut "drive_to_zero_rtt_with_h3_request: no :status header observed")
  | Some status => good status
  end.

Definition drive_to_zero_rtt_with_h3_request (flush_fuel poll_fuel : nat) (server_addr : addr)
    (session_blob : bytes) (method path : string) (body : option bytes)
  : prog net (io_error + (ResumedConn * Z)) :=
  resume server_addr session_blob (request_body flush_fuel poll_fuel method path body).
End Resumption.
End Resumption.
