(* ===== verification/RawScenarios.v ===== *)
(** * The raw-frame scenario binaries

    Models the [main] of each binary in
    [src/conformance/quiche-raw-frame-scenarios/src/bin]: connect, inject, wait
    for the close, judge it; and the 0-RTT scenarios on top of the resumption
    drivers. A [main] is a program over the process that returns the exit code.
    A panic that [main] does not catch ends the process. *)

From S2P Require Import Prelude Effects Utf8 FrameScan Drivers Quiche RawFrames Resumption.
Import Effects Utf8 FrameScan Drivers Quiche RawFrames Resumption.

Module RawScenarios.

Section Binaries.
Context {Q : Quiche} (env : environment) (escaped : Z → bool) (flush_fuel poll_fuel : nat).

(** [env::var("QRF_SERVER_PORT").ok().and_then(|s| s.parse().ok()).unwrap_or(4433)] *)
Definition qrf_port : Z :=
  default 4433 (s ← env "QRF_SERVER_PORT"; parse_unsigned (2 ^ 16 - 1) s).

Definition fails (id what : string) : prog net Z := eprintln ("FAIL " +:+ id +:+ ": " +:+ what);; mret 1.

(** [if assert_close(..) { ExitCode::from(0) } else { ExitCode::from(1) }] *)
Definition judge_close (id tag : string) (expected : Z) (outcome : option (Z * bytes)) : prog net Z :=
  b ← assert_close escaped outcome expected tag id;
  mret (if b : bool then 0 else 1).

(** A step before the wait: [inl] is the line that ends the scenario. *)
Definition injection : Type := addr → addr → prog client (string + unit).

(** From the injection to the verdict, on a connection. *)
Definition inject_and_wait (id tag : string) (expected : Z) (inject : injection)
    (conn : qconn) (socket server : addr) : prog net Z :=
  '(r, _) ← run_client conn
    (_ ←? inject socket server;
     outcome ← wait_connection_close flush_fuel socket CLOSE_DEADLINE_MS;
     ok outcome);
  match r with
  | inl what => fails id what
  | inr outcome => judge_close id tag expected outcome
  end.

(** [catch_unwind(|| navette_connect(port))] *)
Definition established_scenario (id tag : string) (expected : Z) (inject : injection) : prog net Z :=
  r ← navette_connect flush_fuel qrf_port;
  match r with
  | inl _ => fails id "handshake did not establish"
  | inr (conn, socket, server) => inject_and_wait id tag expected inject conn socket server
  end.

(** [navette_connect_until_handshake_keys(port)], not caught. *)
Definition handshake_scenario (id tag : string) (expected : Z) (inject : injection) : prog net Z :=
  '(conn, socket, server) ← or_panic (navette_connect_until_handshake_keys flush_fuel qrf_port);
  inject_and_wait id tag expected inject conn socket server.

(** [if let Err(e) = <call> { eprintln!("FAIL {FAILURE_ID}: <name> failed: {e}"); .. }] *)
Definition inject_frames (frames : list Frame) : injection := λ socket server,
  r ← send_raw_1rtt socket server frames;
  match r with inl e => err ("send_raw_1rtt failed: " +:+ io_display e) | inr _ => ok tt end.

(** A packet of an encoder called in [main], and the send. *)
Definition inject_encoded (name : string) (encode : qconn → qconn * option (qerror + bytes))
  : injection := λ socket server,
  r ← on_conn encode;
  match r with
  | None => panic name
  | Some (inl e) => err (name +:+ " failed: " +:+ qerror_debug e)
  | Some (inr pkt) =>
      s ← on_net (send_to socket pkt server);
      match s with inl e => err ("send_to failed: " +:+ os_display e) | inr _ => ok tt end
  end.

(** ** Frames in 1-RTT *)

Definition s_f01_stream_large_offset : prog net Z :=
  established_scenario "F01" "[QUIC-STREAM-LARGE-OFFSET]" 0x03
    (inject_frames [Stream 4 0x3FFFFFFFFFFFFFFF [] false]).

Definition s_f10_unknown_frame : prog net Z :=
  established_scenario "F10" "[QUIC-UNKNOWN-FRAME]" 0x07 (λ socket server,
    r ← send_raw_1rtt_bytes socket server [0xFE; 0x00];
    match r with
    | inl e => err ("send_raw_1rtt_bytes failed: " +:+ io_display e)
    | inr _ => ok tt
    end).

Definition s_f11_no_frames : prog net Z :=
  established_scenario "F11" "[QUIC-NO-FRAMES]" 0x0A (inject_frames []).

Definition s_f14_reserved_bits_short : prog net Z :=
  established_scenario "F14" "[QUIC-RESERVED-BITS-SHORT]" 0x0A
    (inject_encoded "encode_pkt_reserved_bits"
       (encode_pkt_reserved_bits TShort [Ping] 0x18 MAX_DATAGRAM_SIZE)).

Definition s_f15_reset_on_server_uni : prog net Z :=
  established_scenario "F15" "[QUIC-RESET-SEND-ONLY]" 0x05 (inject_frames [ResetStream 3 0 0]).

Definition s_f16_stop_sending_local_not_created : prog net Z :=
  established_scenario "F16" "[QUIC-STOP-LOCAL-NOT-CREATED]" 0x05 (inject_frames [StopSending 999 0]).

Definition s_f17_new_token_server : prog net Z :=
  established_scenario "F17" "[QUIC-NEW-TOKEN-SERVER]" 0x0A
    (inject_frames [NewToken (string_bytes "x")]).

Definition s_f18_max_stream_data_nonexist : prog net Z :=
  established_scenario "F18" "[QUIC-MAX-STREAM-DATA-NONEXIST]" 0x05
    (inject_frames [MaxStreamData 99999 0x10000]).

Definition s_f20_max_streams_overflow : prog net Z :=
  established_scenario "F20" "[QUIC-MAX-STREAMS-OVERFLOW]" 0x07
    (inject_frames [MaxStreamsBidi (2 ^ 60 + 1)]).

Definition s_f21_streams_blocked_overflow : prog net Z :=
  established_scenario "F21" "[QUIC-STREAMS-BLOCKED-OVERFLOW]" 0x07
    (inject_frames [StreamsBlockedBidi (2 ^ 60 + 1)]).

Definition s_f22_cid_retire_prior_gt_seq : prog net Z :=
  established_scenario "F22" "[QUIC-CID-RETIRE-PRIOR-GT-SEQ]" 0x07
    (inject_frames [NewConnectionId 5 10 (replicate 8 1) (replicate 16 0)]).

Definition s_f23_cid_zero_length : prog net Z :=
  established_scenario "F23" "[QUIC-CID-ZERO-LENGTH]" 0x07
    (inject_frames [NewConnectionId 5 0 [] (replicate 16 0)]).

Definition s_f24_handshake_done_server : prog net Z :=
  established_scenario "F24" "[QUIC-HANDSHAKE-DONE-SERVER]" 0x0A (inject_frames [HandshakeDone]).

(** A stream opened by quiche itself first. *)
Fixpoint drain_outgoing (fuel : nat) (socket : addr) : prog client (io_error + unit) :=
  match fuel with
  | O => no_fuel
  | S fuel =>
      r ← on_conn (conn_send MAX_DATAGRAM_SIZE);
      match r with
      | inr (out, to) =>
          s ← on_net (send_to socket out to);
          match s with inl e => fail (Os e) | inr _ => drain_outgoing fuel socket end
      | inl Done => good tt
      | inl e => fail (other ("conn.send: " +:+ qerror_debug e))
      end
  end.

Definition s_f19_max_stream_data_recv_only : prog net Z :=
  established_scenario "F19" "[QUIC-MAX-STREAM-DATA-RECV-ONLY]" 0x05 (λ socket server,
    r ← on_conn (stream_send 2 (string_bytes "x") false);
    match r with
    | inl e => err ("stream_send failed: " +:+ qerror_debug e)
    | inr _ =>
        d ← drain_outgoing flush_fuel socket;
        match d with
        | inl e => err ("drain after stream_send failed: " +:+ io_display e)
        | inr _ => inject_frames [MaxStreamData 2 0x10000] socket server
        end
    end).

(** ** Frames in the Handshake space *)

Definition s_f12_reserved_bits_hs : prog net Z :=
  handshake_scenario "F12" "[QUIC-RESERVED-BITS-HS]" 0x0A
    (inject_encoded "encode_pkt_reserved_bits"
       (encode_pkt_reserved_bits THandshake [Ping] 0x0C MAX_DATAGRAM_SIZE)).

Definition s_f13_path_challenge_hs : prog net Z :=
  handshake_scenario "F13" "[QUIC-PATH-CHALLENGE-HS]" 0x0A
    (inject_encoded "encode_pkt"
       (encode_pkt THandshake [PathChallenge (replicate 8 0)] MAX_DATAGRAM_SIZE)).

(** ** 0-RTT *)

(** [match <driver> { Ok(a) => a, Err(e) => { eprintln!(..); return 1 } }] *)
Definition phase {A} (id what : string) (c : prog net (io_error + A)) (k : A → prog net Z)
  : prog net Z :=
  r ← c;
  match r with
  | inl e => fails id (what +:+ " failed: " +:+ io_display e)
  | inr a => k a
  end.

Definition build_crypto_frame_payload : bytes := [0x06; 0x00; 0x08] ++ replicate 8 0.

Definition s_f30_crypto_in_zero_rtt : prog net Z :=
  let server := server_addr_with_port qrf_port in
  phase "F30" "phase 1 (ticket capture)" (drive_to_session_ticket flush_fuel poll_fuel server)
    (λ ticket,
  eprintln ("F30 phase 1: captured session ticket (" +:+ pretty (zlen ticket) +:+ " bytes)");;
  phase "F30" "phase 2 (0-RTT seal drive)" (drive_to_zero_rtt_seal flush_fuel server ticket)
    (λ resumed,
  eprintln "F30 phase 2: 0-RTT seal installed";;
  '(r, _) ← run_client (r_conn resumed)
    (w ← on_conn (encode_pkt_with_payload TZeroRTT build_crypto_frame_payload MAX_DATAGRAM_SIZE);
     match w with
     | None => panic "encode_pkt_with_payload"
     | Some (inl e) => err ("encode_pkt_with_payload(ZeroRTT) failed: " +:+ qerror_debug e)
     | Some (inr pkt) =>
         s ← on_net (send_to (r_socket resumed) pkt (r_server_addr resumed));
         match s with
         | inl e => err ("send_to failed: " +:+ os_display e)
         | inr _ =>
             on_net (eprintln ("F30 phase 3: injected 0-RTT CRYPTO packet ("
                                 +:+ pretty (zlen pkt) +:+ " bytes)"));;
             outcome ← wait_connection_close flush_fuel (r_socket resumed) CLOSE_DEADLINE_MS;
             ok outcome
         end
     end);
  match r with
  | inl what => fails "F30" what
  | inr outcome => judge_close "F30" "[QUIC-CRYPTO-IN-0RTT]" 0x0a outcome
  end)).

Definition s_zero_rtt_fresh_resumption : prog net Z :=
  let server := server_addr_with_port qrf_port in
  phase "R02" "phase 1A (T1 capture)" (drive_to_session_ticket flush_fuel poll_fuel server) (λ t1,
  eprintln ("R02 phase 1A: captured T1 (" +:+ pretty (zlen t1) +:+ " bytes)");;
  phase "R02" "phase 2 (resume T1)" (drive_to_zero_rtt_seal flush_fuel server t1) (λ _,
  eprintln "R02 phase 2: resumed against T1, 0-RTT seal installed";;
  phase "R02" "phase 1B (T2 capture)" (drive_to_session_ticket flush_fuel poll_fuel server) (λ t2,
  eprintln ("R02 phase 1B: captured T2 (" +:+ pretty (zlen t2) +:+ " bytes)");;
  if bool_decide (t1 = t2) then
    fails "R02" ("T1 and T2 are byte-identical — " +:+ "expected distinct ticket blobs")
  else
    phase "R02" "phase 3 (resume T2)" (drive_to_zero_rtt_seal flush_fuel server t2) (λ _,
    eprintln "R02 phase 3: resumed against T2, 0-RTT seal installed";;
    eprintln ("R02: PASS — two distinct resumptions across distinct tickets "
      +:+ "both accepted (anti-replay does not over-reject legitimate clients)");;
    mret 0)))).

(** R03 and R04: one request in 0-RTT and its status. *)
Definition status_scenario (id driver method path expect_ pass : string) (body : option bytes)
    (expected : Z) : prog net Z :=
  let server := server_addr_with_port qrf_port in
  phase id "phase 1 (ticket capture)" (drive_to_session_ticket flush_fuel poll_fuel server) (λ ticket,
  eprintln (id +:+ " phase 1: captured ticket (" +:+ pretty (zlen ticket) +:+ " bytes)");;
  phase id driver
    (drive_to_zero_rtt_with_h3_request flush_fuel poll_fuel server ticket method path body)
    (λ '(_, status),
  if negb (status =? expected) then
    fails id ("expected status " +:+ expect_ +:+ ", got " +:+ pretty status)
  else eprintln (id +:+ ": PASS — " +:+ pass);; mret 0)).

Definition s_zero_rtt_http_get_accepted : prog net Z :=
  status_scenario "R03" "phase 2 (0-RTT GET)" "GET" "/" "200 (filter accept)"
    ("0-RTT GET / returned 200 " +:+ "(IdempotentOnly filter accepted; handler dispatched)")
    None 200.

Definition s_zero_rtt_http_post_rejected : prog net Z :=
  status_scenario "R04" "phase 2 (0-RTT POST)" "POST" "/echo" "425 (filter reject)"
    ("0-RTT POST /echo returned 425 " +:+ "(IdempotentOnly filter rejected; handler skipped)")
    (Some (string_bytes "hello-zero-rtt-post")) 425.

Definition sanity_probe_handshake_succeeds (server : addr) : prog net (io_error + unit) :=
  _ ←? drive_to_session_ticket flush_fuel poll_fuel server;
  good tt.

(** A system call of [main] itself. *)
Definition main_call {A} (id what : string) (c : prog net (os_error + A)) (k : A → prog net Z)
  : prog net Z :=
  r ← c;
  match r with inl e => fails id (what +:+ ": " +:+ os_display e) | inr a => k a end.

Definition s_zero_rtt_replay : prog net Z :=
  let server := server_addr_with_port qrf_port in
  phase "R01" "phase 1 (ticket capture)" (drive_to_session_ticket flush_fuel poll_fuel server)
    (λ ticket,
  eprintln ("R01 phase 1: captured session ticket (" +:+ pretty (zlen ticket) +:+ " bytes)");;
  phase "R01" "phase 2 (0-RTT drive + capture)"
    (drive_to_zero_rtt_with_datagram_capture flush_fuel poll_fuel server ticket) (λ '(_, captured),
  eprintln ("R01 phase 2: captured " +:+ pretty (zlen captured) +:+ " datagrams from resumed flight");;
  if is_nil captured then
    fails "R01" ("phase 2 captured zero datagrams — " +:+ "server may have rejected resumption")
  else
    phase "R01" "phase 3 (verbatim replay)" (replay_datagrams_verbatim server captured) (λ _,
    eprintln ("R01 phase 3: replayed " +:+ pretty (zlen captured) +:+ " datagrams verbatim");;
    main_call "R01" "sanity probe socket bind" (bind unspecified) (λ _,
    main_call "R01" "sanity probe set_read_timeout" set_read_timeout (λ _,
    r ← sanity_probe_handshake_succeeds server;
    match r with
    | inl e => fails "R01" ("post-replay sanity probe failed: " +:+ io_display e +:+ " "
                              +:+ "— server may have died or wedged")
    | inr _ => eprintln "R01: PASS — replay silent-dropped, server still healthy";; mret 0
    end))))).

(** ** The probe that the server is alive *)

(** Its own flush: [false] on a hard error. *)
Fixpoint sanity_flush (fuel : nat) (socket : addr) : prog client bool :=
  match fuel with
  | O => no_fuel
  | S fuel =>
      r ← on_conn (conn_send MAX_DATAGRAM_SIZE);
      match r with
      | inr (out, to) =>
          s ← on_net (send_to socket out to);
          match s with
          | inr _ => sanity_flush fuel socket
          | inl e => mret (bool_decide (os_kind e = WouldBlock))
          end
      | inl Done => mret true
      | inl _ => mret false
      end
  end.

Definition has_status (l : list header) : bool :=
  existsb (λ hdr : header, bool_decide (hdr.1 = string_bytes ":status")) l.

Fixpoint sanity_events (fuel : nat) (h3 : h3_conn) (saw_status : bool)
  : prog client (string + (h3_conn * bool)) :=
  match fuel with
  | O => no_fuel
  | S fuel =>
      '(r, h3) ← on_h3 h3 poll;
      match r with
      | inr (_, Headers l) => sanity_events fuel h3 (saw_status || has_status l)
      | inr _ => sanity_events fuel h3 saw_status
      | inl Done => ok (h3, saw_status)
      | inl e => err ("h3 poll: " +:+ qerror_debug e)
      end
  end.

Fixpoint sanity_loop (fuel : nat) (socket : addr) (deadline : option Z) (h3 : h3_conn)
    (saw_status : bool) : prog client (string + bool) :=
  match fuel with
  | O => no_fuel
  | S fuel =>
      t ← on_net now;
      if past t deadline then ok saw_status
      else if saw_status then ok saw_status
      else
        ev ← on_net recv_from;
        _ ←? match ev with
             | Arrived d from =>
                 r ← on_conn (conn_recv d socket from);
                 match r with
                 | inl e => err ("conn.recv: " +:+ qerror_debug e)
                 | inr _ => ok tt
                 end
             | RecvFailed e =>
                 if is_timeout e then on_conn (λ c, (on_timeout c, tt));; ok tt
                 else err ("recv_from: " +:+ os_display e)
             end;
        '(h3, saw_status) ←? sanity_events poll_fuel h3 saw_status;
        flushed ← sanity_flush flush_fuel socket;
        if flushed : bool then sanity_loop fuel socket deadline h3 saw_status
        else err "send loop hard error"
  end.

(** [<what> failed: {e:?}] *)
Definition sanity_step {A} (what : string) (r : qerror + A) : prog client (string + A) :=
  match r with inl e => err (what +:+ " failed: " +:+ qerror_debug e) | inr a => ok a end.

Definition sanity_body (socket : addr) : prog client (string + bool) :=
  config ←? sanity_step "h3::Config::new" h3_config_new;
  r ← on_conn (with_transport config);
  h3 ←? sanity_step "h3 with_transport" r;
  '(r, h3) ← on_h3 h3 (send_request (get_request "quiche-raw-frame-sanity") true);
  _ ←? sanity_step "send_request" r;
  flushed ← sanity_flush flush_fuel socket;
  if negb flushed then err "send loop hard error after request"
  else
    deadline ← on_net (deadline_in 2000);
    l ← on_net (local_addr socket);
    match l with
    | inl e => err ("local_addr failed: " +:+ os_display e)
    | inr local => fuel ← clock_fuel; sanity_loop fuel local deadline h3 false
    end.

Definition sanity_get : prog net Z :=
  let id := "sanity_get"%string in
  r ← navette_connect flush_fuel qrf_port;
  match r with
  | inl _ => fails id "handshake did not establish (see panic above)"
  | inr (conn, socket, _) =>
      '(r, _) ← run_client conn (sanity_body socket);
      match r with
      | inl what => fails id what
      | inr true => println ("PASS " +:+ id);; mret 0
      | inr false => fails id ("no :status received within " +:+ pretty 2000 +:+ " ms")
      end
  end.
End Binaries.
End RawScenarios.
