(* ===== verification/RawFacts.v ===== *)
(** * What the raw-frame scenarios establish

    The verdict of a scenario that injects frames is tied to its run: the
    connection that [connect] gave evolved by calls of the interface, the packet
    was sealed from the scenario's frames and sent, and the close that was
    judged is the one the connection reports. *)

From stdpp Require Import relations.
From S2P Require Import Prelude Effects Utf8 FrameScan Hoare Drivers DriverRules TlsScenarios Verdicts.
From S2P Require Import Quiche ToyQuiche RawFrames Resumption RawScenarios.
Import Effects Utf8 FrameScan Hoare Drivers DriverRules TlsScenarios Verdicts.
Import Quiche ToyQuiche RawFrames Resumption RawScenarios.

Module RawFacts.

Create HintDb carries.

Section Facts.
Context {Q : Quiche}.

(** ** How a connection evolves *)

Inductive moves : qconn → qconn → Prop :=
  | moves_send n c c' r : conn_send n c = (c', r) → moves c c'
  | moves_recv d to from c c' r : conn_recv d to from c = (c', r) → moves c c'
  | moves_timeout c : moves c (on_timeout c)
  | moves_stream_send sid d fin c c' r : stream_send sid d fin c = (c', r) → moves c c'
  | moves_encode ty fr n c c' r : encode_pkt ty fr n c = (c', r) → moves c c'
  | moves_encode_payload ty d n c c' r : encode_pkt_with_payload ty d n c = (c', r) → moves c c'
  | moves_encode_reserved ty fr m n c c' r :
      encode_pkt_reserved_bits ty fr m n c = (c', r) → moves c c'.

Definition evolves : relation qconn := rtc moves.

(** A connection that evolved from [c0], after the datagrams [l] were sent. *)
Record carried (c0 : qconn) (l : list sent) (x : client) : Prop := {
  carried_conn : evolves c0 x.1;
  carried_sent : l ⊆ n_sent x.2;
}.

Definition carries {A} (c : prog client A) : Prop :=
  ∀ c0 l, hoare True (carried c0 l) c (λ _, carried c0 l).

Lemma carries_ret {A} (a : A) : carries (mret a).
Proof. intros c0 l. by apply hoare_ret. Qed.

Lemma carries_bind {A B} (c : prog client A) (k : A → prog client B) :
  carries c → (∀ a, carries (k a)) → carries (c ≫= k).
Proof. intros Hc Hk c0 l. eapply hoare_bind; [apply Hc|]. intros a. apply Hk. Qed.

Lemma carries_attempt {E A B} (c : prog client (E + A)) (k : A → prog client (E + B)) :
  carries c → (∀ a, carries (k a)) → carries (attempt c k).
Proof. intros Hc Hk. apply carries_bind; [done|]. intros [e|a]; [apply carries_ret|apply Hk]. Qed.

Lemma carries_ok {A} (a : A) : carries (ok a).
Proof. apply carries_ret. Qed.

Lemma carries_err {A} m : carries (err (A:=A) m).
Proof. apply carries_ret. Qed.

Lemma carries_good {A} (a : A) : carries (good a).
Proof. apply carries_ret. Qed.

Lemma carries_fail {A} e : carries (fail (A:=A) e).
Proof. apply carries_ret. Qed.

Lemma carries_panic {A} m : carries (panic m : prog client A).
Proof. done. Qed.

Lemma carries_gets {A} (f : client → A) : carries (gets f).
Proof. intros c0 l. by apply hoare_gets. Qed.

Lemma carries_asks {A} (f : qconn → A) : carries (asks f).
Proof. apply carries_gets. Qed.

Lemma carries_clock : carries clock_fuel.
Proof. apply carries_gets. Qed.

Lemma carries_conn {A} (f : qconn → qconn * A) : (∀ c c' a, f c = (c', a) → moves c c') → carries (on_conn f).
Proof.
  intros Hf c0 l [c n] [Hc Hn]. unfold on_conn. simpl. destruct (f c) as [c' a] eqn:E.
  split; [|done]. simpl in *. eapply rtc_r; [exact Hc|by eapply Hf].
Qed.

(** Calls that keep what was sent. *)
Definition keeps_sent {A} (c : prog net A) : Prop :=
  ∀ l, hoare True (λ n, l ⊆ n_sent n) c (λ _ n, l ⊆ n_sent n).

Lemma carries_net {A} (c : prog net A) : keeps_sent c → carries (on_net c).
Proof.
  intros Hc c0 l. eapply hoare_lift; [apply (Hc l)|intros x Hx; apply Hx|].
  intros x a n [Hx _] Hn. by split.
Qed.

Lemma keeps_sent_bind {A B} (c : prog net A) (k : A → prog net B) :
  keeps_sent c → (∀ a, keeps_sent (k a)) → keeps_sent (c ≫= k).
Proof. intros Hc Hk l. eapply hoare_bind; [apply Hc|]. intros a. apply Hk. Qed.

Lemma keeps_sent_ret {A} (a : A) : keeps_sent (mret a).
Proof. intros l. by apply hoare_ret. Qed.

Lemma keeps_now : keeps_sent now.
Proof. by intros l n Hn. Qed.

Lemma keeps_deadline ms : keeps_sent (deadline_in ms).
Proof. apply keeps_sent_bind; [apply keeps_now|intros; apply keeps_sent_ret]. Qed.

Lemma keeps_os : keeps_sent os_next.
Proof. by intros l n Hn. Qed.

Lemma keeps_recv : keeps_sent recv_from.
Proof. intros l n Hn. unfold recv_from. by destruct (head _) as [[? ?|?]|]. Qed.

Lemma keeps_local_addr s : keeps_sent (local_addr s).
Proof. apply keeps_sent_bind; [apply keeps_os|intros; apply keeps_sent_ret]. Qed.

Lemma keeps_print m : keeps_sent (print m).
Proof. by intros l n Hn. Qed.

Lemma keeps_send socket d to : keeps_sent (send_to socket d to).
Proof.
  apply keeps_sent_bind; [apply keeps_os|]. intros [e|]; [apply keeps_sent_ret|].
  apply keeps_sent_bind; [|intros; apply keeps_sent_ret].
  intros l. apply hoare_modify. intros n Hn x Hx. simpl. apply elem_of_app. left. by apply Hn.
Qed.

Lemma keeps_sent_expect {A} what (c : prog net (os_error + A)) : keeps_sent c → keeps_sent (expect_call what c).
Proof. intros Hc. apply keeps_sent_bind; [done|]. intros [e|a]; apply keeps_sent_ret. Qed.

Lemma carries_or_panic {A} (c : prog client (string + A)) : carries c → carries (or_panic c).
Proof. intros Hc. apply carries_bind; [done|]. intros [m|a]; [done|apply carries_ret]. Qed.

Lemma carries_timeout : carries (on_conn (λ c, (on_timeout c, tt))).
Proof. apply carries_conn. intros c c' a [= <- <-]. constructor. Qed.

Lemma carries_recv_conn d to from : carries (on_conn (conn_recv d to from)).
Proof. apply carries_conn. intros c c' a E. by econstructor. Qed.

Lemma carries_send n : carries (on_conn (conn_send n)).
Proof. apply carries_conn. intros c c' a E. by econstructor. Qed.

Lemma carries_no_fuel {A} : carries (no_fuel : prog client A).
Proof. intros c0 l. by apply hoare_no_fuel. Qed.

#[local] Hint Resolve carries_ret carries_ok carries_err carries_good carries_fail carries_panic carries_gets
  carries_asks carries_clock carries_timeout carries_recv_conn carries_send carries_no_fuel
  carries_or_panic : carries.
#[local] Hint Resolve keeps_now keeps_deadline keeps_recv keeps_local_addr keeps_print keeps_send
  keeps_sent_expect : carries.

(** Steps through a program of the client. *)
#[local] Ltac carry :=
  repeat first
    [ progress intros
    | progress cbv zeta
    | match goal with
      | |- carries (attempt _ _) => apply carries_attempt
      | |- carries (_ ≫= _) => apply carries_bind
      end
    | solve [auto with carries]
    | apply carries_net; solve [auto with carries]
    | match goal with |- context [match ?x with _ => _ end] => destruct x end ].

Lemma carries_flush socket : ∀ fuel, carries (flush_send fuel socket).
Proof. induction fuel as [|fuel IH]; simpl; carry. Qed.
#[local] Hint Resolve carries_flush : carries.

Lemma carries_establish flush_fuel socket : carries (establish flush_fuel socket).
Proof.
  assert (Hl : ∀ fuel deadline, carries (establish_loop fuel flush_fuel socket deadline)).
  { induction fuel as [|fuel IH]; intros; simpl; carry. }
  unfold establish. carry.
Qed.

Lemma carries_await flush_fuel socket : carries (await_handshake_keys flush_fuel socket).
Proof.
  assert (He : ∀ n, carries (on_conn (encode_pkt THandshake [] n))).
  { intros n. apply carries_conn. intros c c' a E. by econstructor. }
  assert (Hl : ∀ fuel deadline, carries (probe_loop fuel flush_fuel socket deadline)).
  { induction fuel as [|fuel IH]; intros; simpl; carry. }
  unfold await_handshake_keys. carry.
Qed.

Lemma carries_close flush_fuel socket deadline : ∀ fuel,
  carries (close_loop fuel flush_fuel socket deadline).
Proof. induction fuel as [|fuel IH]; simpl; carry. Qed.

Lemma carries_drain_outgoing socket : ∀ fuel, carries (drain_outgoing fuel socket).
Proof. induction fuel as [|fuel IH]; simpl; carry. Qed.

(** ** The close that is reported *)

(** A close the connection knows of: the peer's, or its own once it is closed. *)
Definition closed_with (c : qconn) (code : Z) (reason : bytes) : Prop :=
  peer_error c = Some (code, reason) ∨
  peer_error c = None ∧ is_closed c = true ∧ local_error c = Some (code, reason).

Definition reported (r : option (Z * bytes)) (x : client) : Prop :=
  match r with
  | None => True
  | Some (code, text) => ∃ reason, closed_with x.1 code reason ∧ text = decode_reason reason
  end.

Lemma close_loop_reported flush_fuel socket deadline : ∀ fuel,
  hoare True (λ _, True) (close_loop fuel flush_fuel socket deadline) reported.
Proof.
  induction fuel as [|fuel IH]; simpl; [by apply hoare_no_fuel|].
  apply (hoare_bind _ _ (λ _ _, True)); [apply hoare_any|]. intros t.
  apply hoare_if; intros _; [by apply hoare_ret|].
  apply (hoare_bind _ _ (λ p x, p = peer_error x.1)); [by apply hoare_gets|]. intros [[code reason]|].
  { apply hoare_ret. intros x Hx. exists reason. split; [by left|done]. }
  apply (hoare_bind _ _ (λ b x, b = is_closed x.1 ∧ None = peer_error x.1)); [by apply hoare_gets|].
  intros [].
  - apply (hoare_bind _ _ (λ e x, e = local_error x.1 ∧ true = is_closed x.1 ∧ None = peer_error x.1));
      [by apply hoare_gets|].
    intros [[code reason]|]; apply hoare_ret; [|done]. intros x (He & Hc & Hp).
    exists reason. split; [by right|done].
  - apply (hoare_bind _ _ (λ _ _, True)); [apply (hoare_conseq _ _ (λ _, True) _ (λ _ _, True)); try done; apply hoare_any|].
    intros ev. destruct ev as [d from|e]; [|apply hoare_if; intros _; [|by apply hoare_ret]];
      (apply (hoare_bind _ _ (λ _ _, True)); [apply hoare_any|]; intros ?;
       apply (hoare_bind _ _ (λ _ _, True)); [apply hoare_any|]; intros ?; apply IH).
Qed.

(** What [wait_connection_close] returns is what its connection reports at
    that moment. *)
Lemma wait_reported flush_fuel socket ms :
  hoare True (λ _, True) (wait_connection_close flush_fuel socket ms) reported.
Proof.
  unfold wait_connection_close.
  do 3 (apply (hoare_bind _ _ (λ _ _, True)); [apply hoare_any|]; intros ?).
  apply close_loop_reported.
Qed.

Lemma carries_wait flush_fuel socket ms : carries (wait_connection_close flush_fuel socket ms).
Proof.
  unfold wait_connection_close, clock_fuel.
  apply carries_bind; [apply carries_net; auto with carries|]. intros deadline.
  apply carries_bind; [apply carries_or_panic, carries_net; auto with carries|]. intros local.
  apply carries_bind; [apply carries_gets|]. intros fuel. apply carries_close.
Qed.

(** ** Injections *)

Definition packet_sent (socket server : addr) (pkt : bytes) : sent :=
  {| sent_from := socket; sent_to := server; sent_data := pkt |}.

(** A packet of [encode] went out, on a connection that evolved from [c0]. *)
Definition injected (encode : qconn → qconn * option (qerror + bytes)) (socket server : addr)
    (c0 : qconn) (x : client) : Prop :=
  ∃ c1 c2 pkt, evolves c0 c1 ∧ encode c1 = (c2, Some (inr pkt)) ∧
    carried c2 [packet_sent socket server pkt] x.

Definition injects (encode : qconn → qconn * option (qerror + bytes)) (inj : injection) : Prop :=
  ∀ socket server c0, hoare True (λ x, evolves c0 x.1) (inj socket server)
    (λ r x, match r with inl _ => True | inr _ => injected encode socket server c0 x end).

Lemma send_to_sent socket server pkt n :
  match send_to socket pkt server n with
  | Ret (inr _) n' => packet_sent socket server pkt ∈ n_sent n' ∧ n_console n' = n_console n
  | _ => True
  end.
Proof.
  unfold send_to, mbind, prog_bind, os_next, mret, prog_ret, modify.
  destruct (default None _); [done|]. split; [|done]. simpl. apply elem_of_app. right. by left.
Qed.

Lemma injects_encoded name encode : injects encode (inject_encoded name encode).
Proof.
  intros socket server c0 [c1 n] Hc. unfold inject_encoded, on_conn, mbind, prog_bind. simpl.
  destruct (encode c1) as [c2 [[e|pkt]|]] eqn:E; try done. unfold on_net, lift. simpl.
  pose proof (send_to_sent socket server pkt n) as Hs.
  destruct (send_to socket pkt server n) as [[e|k] n'| | |]; try done.
  exists c1, c2, pkt. split_and!; [done|done|]. split; [apply rtc_refl|].
  intros y ->%list_elem_of_singleton. apply Hs.
Qed.

Lemma injects_sent name encode socket server c0 :
  hoare True (λ x, evolves c0 x.1) (send_encoded name encode socket server)
    (λ r x, match r with inl _ => True | inr _ => injected encode socket server c0 x end).
Proof.
  intros [c1 n] Hc. unfold send_encoded, on_conn, mbind, prog_bind. simpl.
  destruct (encode c1) as [c2 [[e|pkt]|]] eqn:E; try done. unfold on_net, lift. simpl.
  pose proof (send_to_sent socket server pkt n) as Hs.
  destruct (send_to socket pkt server n) as [[e|k] n'| | |]; try done.
  exists c1, c2, pkt. split_and!; [done|done|]. split; [apply rtc_refl|].
  intros y ->%list_elem_of_singleton. apply Hs.
Qed.

Lemma injects_frames frames : injects (encode_pkt TShort frames MAX_DATAGRAM_SIZE) (inject_frames frames).
Proof.
  intros socket server c0. unfold inject_frames, send_raw_1rtt.
  eapply hoare_bind; [apply injects_sent|]. intros [e|k]; by apply hoare_ret.
Qed.

Lemma injects_bytes payload what :
  injects (encode_pkt_with_payload TShort payload MAX_DATAGRAM_SIZE) (λ socket server,
    r ← send_raw_1rtt_bytes socket server payload;
    match r with inl e => err (what +:+ io_display e) | inr _ => ok tt end).
Proof.
  intros socket server c0. unfold send_raw_1rtt_bytes.
  eapply hoare_bind; [apply injects_sent|]. intros [e|k]; by apply hoare_ret.
Qed.

Lemma injects_after {A} encode (c : addr → prog client A) (k : A → injection) :
  (∀ socket, carries (c socket)) → (∀ a, injects encode (k a) ∨ ∀ socket server, ∃ m, k a socket server = err m) →
  injects encode (λ socket server, a ← c socket; k a socket server).
Proof.
  intros Hc Hk socket server c0. eapply hoare_bind.
  - eapply hoare_conseq; [apply (Hc socket c0 [])| |].
    + intros x Hx. split; [done|]. apply list_subseteq_nil.
    + intros a x [Hx _]. exact Hx.
  - intros a. destruct (Hk a) as [Hi|He]; [apply Hi|].
    destruct (He socket server) as [m ->]. by apply hoare_ret.
Qed.

(** ** Verdicts *)

Record row := {
  row_id : string;
  row_tag : string;
  row_code : Z;
  row_encode : qconn → qconn * option (qerror + bytes);
  row_main : environment → (Z → bool) → nat → prog net Z;
}.

(** Why a scenario may pass: a connection to the server on the port, evolved
    by calls of quiche, sealed the scenario's packet, the packet was sent, and
    the connection then reports a close with the code, whose reason (the first
    256 bytes of it, as text) has the tag. *)
Definition earned_by (r : row) (env : environment) (n' : net) : Prop :=
  ∃ scid socket config c0 c1 c2 c3 pkt reason,
    connect (string_bytes "localhost") scid socket (server_addr_with_port (qrf_port env)) config = inr c0 ∧
    evolves c0 c1 ∧ row_encode r c1 = (c2, Some (inr pkt)) ∧
    packet_sent socket (server_addr_with_port (qrf_port env)) pkt ∈ n_sent n' ∧
    evolves c2 c3 ∧ closed_with c3 (row_code r) reason ∧
    ∃ k l, decode_reason reason = k ++ string_bytes (row_tag r) ++ l.

Definition verdict_of (r : row) (env : environment) (code : Z) (n' : net) : Prop :=
  (code = 0 ∨ code = 1) ∧
  (code = 0 ↔ last (n_console n') = Some (Stdout ("PASS " +:+ row_id r))) ∧
  (code = 0 → earned_by r env n').

Lemma fails_verdict r env id what n code n' :
  fails id what n = Ret code n' → verdict_of r env code n'.
Proof.
  intros [= <- <-]. split; [by right|]. simpl. rewrite last_snoc. by split.
Qed.

Lemma assert_close_cases escaped outcome expected tag id n :
  ∃ b n', assert_close escaped outcome expected tag id n = Ret b n' ∧ n_sent n' = n_sent n ∧
    (b = true ↔ last (n_console n') = Some (Stdout ("PASS " +:+ id))) ∧
    (b = true ↔ ∃ text k l, outcome = Some (expected, text) ∧ text = k ++ string_bytes tag ++ l).
Proof.
  unfold assert_close. destruct outcome as [[code text]|].
  - destruct ((code =? expected) && contains text (string_bytes tag)) eqn:E.
    + eexists true, _. split; [reflexivity|]. split; [done|]. simpl. rewrite last_snoc. split; [done|].
      split; [|done]. intros _. apply andb_true_iff in E as [->%Z.eqb_eq (k & l & ->)%contains_spec].
      by exists (k ++ string_bytes tag ++ l), k, l.
    + eexists false, _. split; [reflexivity|]. split; [done|]. simpl. rewrite last_snoc.
      split; [by split|]. split; [done|]. intros (t & k & l & [= -> ->] & Ht).
      rewrite Z.eqb_refl in E. simpl in E. apply not_true_iff_false in E. destruct E.
      apply contains_spec. by exists k, l.
  - eexists false, _. split; [reflexivity|]. split; [done|]. simpl. rewrite last_snoc.
    split; [by split|]. split; [done|]. by intros (t & k & l & ? & _).
Qed.

Lemma run_client_Ret {A} (c : qconn) (body : prog client A) n a c' n' :
  run_client c body n = Ret (a, c') n' → body (c, n) = Ret a (c', n').
Proof. unfold run_client. destruct (body (c, n)) as [a' [c1 n1]| | |]; by intros [= -> -> ->]. Qed.

(** The part of a scenario from the injection on. *)
Lemma inject_and_wait_verdict r env escaped fuel inj conn scid config c0 socket n code n' :
  injects (row_encode r) inj →
  connect (string_bytes "localhost") scid socket (server_addr_with_port (qrf_port env)) config = inr c0 →
  evolves c0 conn →
  inject_and_wait escaped fuel (row_id r) (row_tag r) (row_code r) inj conn socket
    (server_addr_with_port (qrf_port env)) n = Ret code n' → verdict_of r env code n'.
Proof.
  intros Hi Hconn Hev E. unfold inject_and_wait in E.
  apply bind_Ret_inv in E as ([res c'] & n1 & E1 & E2). apply run_client_Ret in E1.
  eapply (hoare_run True (λ x, evolves c0 x.1) _
    (λ res x, match res with
              | inl _ => True
              | inr outcome => injected (row_encode r) socket (server_addr_with_port (qrf_port env)) c0 x
                               ∧ reported outcome x
              end)) in E1; [|clear E1|done].
  - destruct res as [what|outcome]; [by eapply fails_verdict|]. unfold judge_close in E2.
    destruct (assert_close_cases escaped outcome (row_code r) (row_tag r) (row_id r) n1)
      as (b & n2 & Ea & Hs & Hl & Hb). unfold mbind, prog_bind in E2. rewrite Ea in E2.
    injection E2 as <- <-. destruct b; cbn iota.
    + split; [by left|]. split; [split; [intros _; by apply Hl|done]|].
      intros _. destruct (proj1 Hb eq_refl) as (text & k & l & -> & Ht).
      destruct E1 as [(c1 & c2 & pkt & H1 & H2 & [H3 H4]) (reason & Hcl & Htext)].
      exists scid, socket, config, c0, c1, c2, c', pkt, reason. split_and!; try done.
      * rewrite Hs. apply H4. by left.
      * exists k, l. by rewrite <- Htext.
    + split; [by right|]. split; [|done]. split; [done|]. intros Hc%Hl. done.
  - apply (hoare_attempt _ _ (λ _ x, injected (row_encode r) socket (server_addr_with_port (qrf_port env)) c0 x)).
    + eapply hoare_conseq; [apply (Hi socket _ c0)|done|]. by intros [?|?].
    + intros []. eapply (hoare_bind _ _ (λ outcome x,
        injected (row_encode r) socket (server_addr_with_port (qrf_port env)) c0 x ∧ reported outcome x));
        [|intros; by apply hoare_ret].
      intros x (c1 & c2 & pkt & H1 & H2 & H3).
      pose proof (hoare_conj _ _ _ _ _ _ (carries_wait fuel socket CLOSE_DEADLINE_MS c2
        [packet_sent socket (server_addr_with_port (qrf_port env)) pkt])
        (wait_reported fuel socket CLOSE_DEADLINE_MS) x (conj H3 I)) as Hw.
      destruct (wait_connection_close fuel socket CLOSE_DEADLINE_MS x) as [o x'| | |]; try done.
      destruct Hw as [Hw1 Hw2]. split; [by exists c1, c2, pkt|done].
Qed.

Lemma local_addr_same socket n l n' : local_addr socket n = Ret (inr l) n' → l = socket.
Proof.
  unfold local_addr, sys, mbind, prog_bind, os_next, mret, prog_ret.
  destruct (default None _); by intros [= <- <-].
Qed.

(** [?] on a step that succeeded. *)
Lemma attempt_inr {X E A B} (c : prog X (E + A)) (k : A → prog X (E + B)) x b x' :
  attempt c k x = Ret (inr b) x' → ∃ a x1, c x = Ret (inr a) x1 ∧ k a x1 = Ret (inr b) x'.
Proof.
  intros ([e|a] & x1 & H1 & H2)%bind_Ret_inv; [done|]. by exists a, x1.
Qed.

Lemma expect_call_inr {A} what (c : prog net (os_error + A)) n a n' :
  expect_call what c n = Ret (inr a) n' → c n = Ret (inr a) n'.
Proof. intros ([e|b] & n1 & H1 & H2)%bind_Ret_inv; [done|]. by injection H2 as -> ->. Qed.

Lemma start_client_connects p n conn socket n' :
  start_client p n = Ret (inr (conn, socket)) n' →
  ∃ scid config, connect (string_bytes "localhost") scid socket (server_addr_with_port p) config = inr conn.
Proof.
  intros (s & n1 & H1 & E)%attempt_inr. apply attempt_inr in E as (u & n2 & H2 & E).
  apply attempt_inr in E as (l & n3 & H3 & E). apply expect_call_inr, local_addr_same in H3. subst l.
  apply bind_Ret_inv in E as ([scid|] & n4 & H4 & E); [|done].
  apply attempt_inr in E as (config & n5 & H5 & E). apply attempt_inr in E as (c & n6 & H6 & E).
  injection E as -> -> _. exists scid, config. unfold expecting in H6.
  by destruct (connect _ _ _ _ _) as [e|c']; [|injection H6 as -> _].
Qed.

Lemma connected_conn p c s body n conn socket server n' :
  (∀ c0 l, hoare True (carried c0 l) body (λ _, carried c0 l)) →
  connected p c s body n = Ret (inr (conn, socket, server)) n' →
  evolves c conn ∧ socket = s ∧ server = server_addr_with_port p.
Proof.
  intros Hb ([r c'] & n1 & H1 & H2)%bind_Ret_inv. apply run_client_Ret in H1.
  destruct r as [m|u]; [done|]. injection H2 as -> -> -> _.
  eapply (hoare_run True (carried c [])) in H1; [|apply Hb|split; [apply rtc_refl|apply list_subseteq_nil]].
  by destruct H1.
Qed.

Lemma established_verdict r env escaped fuel inj n code n' :
  injects (row_encode r) inj →
  established_scenario env escaped fuel (row_id r) (row_tag r) (row_code r) inj n = Ret code n' →
  verdict_of r env code n'.
Proof.
  intros Hi ([m|[[conn socket] server]] & n1 & H1 & H2)%bind_Ret_inv; [by eapply fails_verdict|].
  apply attempt_inr in H1 as ([c0 s] & n2 & H3 & H4).
  apply start_client_connects in H3 as (scid & config & Hc).
  apply connected_conn in H4 as (Hev & -> & ->); [|apply carries_establish].
  by eapply inject_and_wait_verdict.
Qed.

Lemma handshake_verdict r env escaped fuel inj n code n' :
  injects (row_encode r) inj →
  handshake_scenario env escaped fuel (row_id r) (row_tag r) (row_code r) inj n = Ret code n' →
  verdict_of r env code n'.
Proof.
  intros Hi ([[conn socket] server] & n1 & H1 & H2)%bind_Ret_inv.
  apply bind_Ret_inv in H1 as ([m|t] & n2 & H1 & H3); [done|]. injection H3 as -> ->.
  apply attempt_inr in H1 as ([c0 s] & n2 & H3 & H4).
  apply start_client_connects in H3 as (scid & config & Hc).
  apply connected_conn in H4 as (Hev & -> & ->); [|apply carries_await].
  by eapply inject_and_wait_verdict.
Qed.

(** *** The scenarios *)

Definition frames_row id tag code frames main : row :=
  {| row_id := id; row_tag := tag; row_code := code;
     row_encode := encode_pkt TShort frames MAX_DATAGRAM_SIZE; row_main := main |}.

Definition f10_row : row :=
  {| row_id := "F10"; row_tag := "[QUIC-UNKNOWN-FRAME]"; row_code := 7;
     row_encode := encode_pkt_with_payload TShort [254; 0] MAX_DATAGRAM_SIZE;
     row_main := s_f10_unknown_frame |}.

Definition f12_row : row :=
  {| row_id := "F12"; row_tag := "[QUIC-RESERVED-BITS-HS]"; row_code := 10;
     row_encode := encode_pkt_reserved_bits THandshake [Ping] 12 MAX_DATAGRAM_SIZE;
     row_main := s_f12_reserved_bits_hs |}.

Definition f13_row : row :=
  {| row_id := "F13"; row_tag := "[QUIC-PATH-CHALLENGE-HS]"; row_code := 10;
     row_encode := encode_pkt THandshake [PathChallenge (replicate 8 0)] MAX_DATAGRAM_SIZE;
     row_main := s_f13_path_challenge_hs |}.

Definition f14_row : row :=
  {| row_id := "F14"; row_tag := "[QUIC-RESERVED-BITS-SHORT]"; row_code := 10;
     row_encode := encode_pkt_reserved_bits TShort [Ping] 24 MAX_DATAGRAM_SIZE;
     row_main := s_f14_reserved_bits_short |}.

Definition rows : list row := [
  frames_row "F01" "[QUIC-STREAM-LARGE-OFFSET]" 3 [Stream 4 (2 ^ 62 - 1) [] false]
    s_f01_stream_large_offset;
  f10_row;
  frames_row "F11" "[QUIC-NO-FRAMES]" 10 [] s_f11_no_frames;
  f12_row;
  f13_row;
  f14_row;
  frames_row "F15" "[QUIC-RESET-SEND-ONLY]" 5 [ResetStream 3 0 0] s_f15_reset_on_server_uni;
  frames_row "F16" "[QUIC-STOP-LOCAL-NOT-CREATED]" 5 [StopSending 999 0]
    s_f16_stop_sending_local_not_created;
  frames_row "F17" "[QUIC-NEW-TOKEN-SERVER]" 10 [NewToken [120]] s_f17_new_token_server;
  frames_row "F18" "[QUIC-MAX-STREAM-DATA-NONEXIST]" 5 [MaxStreamData 99999 65536]
    s_f18_max_stream_data_nonexist;
  frames_row "F19" "[QUIC-MAX-STREAM-DATA-RECV-ONLY]" 5 [MaxStreamData 2 65536]
    s_f19_max_stream_data_recv_only;
  frames_row "F20" "[QUIC-MAX-STREAMS-OVERFLOW]" 7 [MaxStreamsBidi (2 ^ 60 + 1)]
    s_f20_max_streams_overflow;
  frames_row "F21" "[QUIC-STREAMS-BLOCKED-OVERFLOW]" 7 [StreamsBlockedBidi (2 ^ 60 + 1)]
    s_f21_streams_blocked_overflow;
  frames_row "F22" "[QUIC-CID-RETIRE-PRIOR-GT-SEQ]" 7
    [NewConnectionId 5 10 (replicate 8 1) (replicate 16 0)] s_f22_cid_retire_prior_gt_seq;
  frames_row "F23" "[QUIC-CID-ZERO-LENGTH]" 7 [NewConnectionId 5 0 [] (replicate 16 0)]
    s_f23_cid_zero_length;
  frames_row "F24" "[QUIC-HANDSHAKE-DONE-SERVER]" 10 [HandshakeDone] s_f24_handshake_done_server
].

Definition row_sound (r : row) : Prop := ∀ env escaped fuel n code n',
  row_main r env escaped fuel n = Ret code n' → verdict_of r env code n'.

Lemma established_sound r inj : (∀ fuel, injects (row_encode r) (inj fuel)) →
  (∀ env escaped fuel, row_main r env escaped fuel
     = established_scenario env escaped fuel (row_id r) (row_tag r) (row_code r) (inj fuel)) →
  row_sound r.
Proof. intros Hi Hm env escaped fuel n c n'. rewrite Hm. by apply established_verdict. Qed.

Lemma handshake_sound r inj : injects (row_encode r) inj →
  (∀ env escaped fuel, row_main r env escaped fuel
     = handshake_scenario env escaped fuel (row_id r) (row_tag r) (row_code r) inj) →
  row_sound r.
Proof. intros Hi Hm env escaped fuel n c n'. rewrite Hm. by apply handshake_verdict. Qed.

Lemma frames_sound id tag code frames main :
  (∀ env escaped fuel, main env escaped fuel
     = established_scenario env escaped fuel id tag code (inject_frames frames)) →
  row_sound (frames_row id tag code frames main).
Proof.
  intros Hm. apply (established_sound _ (λ _, inject_frames frames)); [|done].
  intros. apply injects_frames.
Qed.

Lemma injects_f19 fuel : injects (encode_pkt TShort [MaxStreamData 2 65536] MAX_DATAGRAM_SIZE)
  (λ socket server,
    r ← on_conn (stream_send 2 (string_bytes "x") false);
    match r with
    | inl e => err ("stream_send failed: " +:+ qerror_debug e)
    | inr _ =>
        d ← drain_outgoing fuel socket;
        match d with
        | inl e => err ("drain after stream_send failed: " +:+ io_display e)
        | inr _ => inject_frames [MaxStreamData 2 0x10000] socket server
        end
    end).
Proof.
  apply (injects_after _ (λ _, on_conn (stream_send 2 (string_bytes "x") false)) (λ r socket server,
    match r with
    | inl e => err ("stream_send failed: " +:+ qerror_debug e)
    | inr _ =>
        d ← drain_outgoing fuel socket;
        match d with
        | inl e => err ("drain after stream_send failed: " +:+ io_display e)
        | inr _ => inject_frames [MaxStreamData 2 0x10000] socket server
        end
    end)).
  - intros socket. apply carries_conn. intros c c' a E. by econstructor.
  - intros [e|k]; [right; intros; by eexists|left].
    apply (injects_after _ (drain_outgoing fuel) (λ d socket server,
      match d with
      | inl e => err ("drain after stream_send failed: " +:+ io_display e)
      | inr _ => inject_frames [MaxStreamData 2 0x10000] socket server
      end)).
    + intros socket. apply carries_drain_outgoing.
    + intros [e|u]; [right; intros; by eexists|left]. apply injects_frames.
Qed.

Lemma rows_sound : Forall row_sound rows.
Proof.
  unfold rows. repeat (apply Forall_cons_2 || apply Forall_nil_2); try (by apply frames_sound).
  - eapply (established_sound f10_row (λ _, _)); [intros; apply injects_bytes|reflexivity].
  - eapply (handshake_sound f12_row); [apply injects_encoded|reflexivity].
  - eapply (handshake_sound f13_row); [apply injects_encoded|reflexivity].
  - eapply (established_sound f14_row (λ _, _)); [intros; apply injects_encoded|reflexivity].
  - eapply (established_sound _ (λ fuel, _)); [intros fuel; apply (injects_f19 fuel)|reflexivity].
Qed.
End Facts.

(** C21: a raw-frame scenario that ends exits with 0 or 1, and with 0 exactly
    when its last line is its PASS line; then the connection it opened to the
    server's port sealed a packet from the scenario's frames, the packet was
    sent to the server, and the connection reports a close with the expected
    code whose reason holds the scenario's tag. *)
Theorem raw_verdicts_earned {Q : Quiche} r env escaped fuel n code n' :
  r ∈ rows → row_main r env escaped fuel n = Ret code n' →
  (code = 0 ∨ code = 1) ∧
  (code = 0 ↔ last (n_console n') = Some (Stdout ("PASS " +:+ row_id r))) ∧
  (code = 0 → earned_by r env n').
Proof.
  intros Hr. apply (proj1 (Forall_forall _ _) rows_sound r Hr).
Qed.

(** ** F11 against a server that closes *)

Definition no_env : environment := λ _, None.

Definition f11_net : net :=
  toy_net [Arrived [2] (server_addr_with_port 4433);
           Arrived (9 :: 10 :: string_bytes "[QUIC-NO-FRAMES]") (server_addr_with_port 4433)]
    [0; 1; 2; 3; 4; 5; 6].

Definition f11_row : row :=
  default (frames_row "" "" 0 [] (λ _ _ _, mret 0)) (rows !! 2%nat).

#[local] Abbreviation f11_run := (row_main f11_row no_env (λ _, false) 5%nat f11_net).

Lemma raw_verdicts_earned_witness :
  result_of f11_run = Some 0 ∧
  (0 = 0 ∨ 0 = 1) ∧
  (0 = 0 ↔ last (n_console (state_of f11_net f11_run)) = Some (Stdout ("PASS " +:+ row_id f11_row))) ∧
  (0 = 0 → earned_by f11_row no_env (state_of f11_net f11_run)).
Proof.
  assert (E : result_of f11_run = Some 0) by by_eval. split; [exact E|].
  apply (raw_verdicts_earned f11_row no_env (λ _, false) 5 f11_net 0).
  - apply (list_elem_of_lookup_2 _ 2%nat). reflexivity.
  - exact (ret_of f11_net _ 0 E).
Defined.
End RawFacts.
