(* ===== verification/RawWindow.v ===== *)
(** * Timing in the raw-frame library

    [navette_connect_until_handshake_keys] returns in the window where the
    client's Handshake keys are live and its Finished is not sent yet: what
    quiche promises is the class [HandshakeWindow], stated for the calls the
    function makes. [wait_connection_close] reads the clock before it looks at
    the connection, so a close that arrives last is lost. *)

From S2P Require Import Prelude Effects Utf8 FrameScan Hoare Drivers DriverRules.
From S2P Require Import Quiche ToyQuiche RawFrames RawFacts.
Import Effects Utf8 FrameScan Hoare Drivers DriverRules.
Import Quiche ToyQuiche RawFrames RawFacts.

Module RawWindow.

Section Window.
Context {Q : Quiche}.

(** The probe of the loop succeeds. *)
Definition live (c : qconn) : Prop :=
  ∃ c' pkt, encode_pkt THandshake [] MAX_DATAGRAM_SIZE c = (c', Some (inr pkt)).

(** What quiche promises of the handshake: the Finished is unsent until a
    flush with live Handshake keys; only receiving makes them live; encoding
    a packet into a buffer sends nothing. *)
Class HandshakeWindow := {
  unsent : qconn → Prop;
  window_connect : ∀ name scid local peer config c,
    connect name scid local peer config = inr c → unsent c ∧ ¬ live c;
  window_recv : ∀ d to from c c' r,
    conn_recv d to from c = (c', r) → unsent c → unsent c';
  window_timeout : ∀ c, unsent c → ¬ live c → unsent (on_timeout c) ∧ ¬ live (on_timeout c);
  window_send : ∀ n c c' r,
    conn_send n c = (c', r) → unsent c → ¬ live c → unsent c' ∧ ¬ live c';
  window_encode : ∀ c c' r, encode_pkt THandshake [] MAX_DATAGRAM_SIZE c = (c', r) →
    unsent c → unsent c' ∧ (live c' ↔ live c);
}.

Context `{!HandshakeWindow}.

Definition waiting (x : client) : Prop := unsent x.1 ∧ ¬ live x.1.
Definition pending (x : client) : Prop := unsent x.1.

Lemma net_keeps {A} (P : qconn → Prop) (c : prog net A) :
  hoare True (λ x : client, P x.1) (on_net c) (λ _ x, P x.1).
Proof. eapply hoare_lift; [apply (hoare_any (λ _, True))|done|done]. Qed.

Lemma flush_waiting socket : ∀ fuel, hoare True waiting (flush_send fuel socket) (λ _, waiting).
Proof.
  induction fuel as [|fuel IH]; simpl; [by apply hoare_no_fuel|].
  apply (hoare_bind _ _ (λ _, waiting)).
  - intros [c n] [Hu Hl]. unfold on_conn. simpl. destruct (conn_send _ c) as [c' r] eqn:E.
    by eapply window_send.
  - intros [[| |]|[out to]]; try (by apply hoare_ret).
    eapply hoare_bind; [apply (net_keeps (λ c, unsent c ∧ ¬ live c))|].
    intros [e|k]; [|apply IH]. by apply hoare_if; intros _; apply hoare_ret.
Qed.

Lemma probe_waiting : hoare True pending (on_conn (encode_pkt THandshake [] MAX_DATAGRAM_SIZE))
  (λ r x, match r with Some (inr _) => unsent x.1 ∧ live x.1 | _ => waiting x end).
Proof.
  intros [c n] Hu. unfold on_conn. simpl.
  destruct (encode_pkt _ _ _ c) as [c' r] eqn:E. destruct (window_encode _ _ _ E Hu) as [Hu' Hl].
  assert (Hn : ¬ (∃ pkt, r = Some (inr pkt)) → ¬ live c').
  { intros Hr (c2 & pkt & E2)%Hl. apply Hr. exists pkt. congruence. }
  destruct r as [[e|pkt]|]; (split; [done|]); simpl.
  - apply Hn. by intros [? ?].
  - apply Hl. by exists c', pkt.
  - apply Hn. by intros [? ?].
Qed.

Lemma probe_loop_window flush_fuel socket deadline : ∀ fuel,
  hoare True pending (probe_loop fuel flush_fuel socket deadline)
    (λ r x, match r with inr (inr _) => unsent x.1 ∧ live x.1 | _ => True end).
Proof.
  induction fuel as [|fuel IH]; [by apply hoare_no_fuel|]. cbn [probe_loop]. cbv zeta.
  eapply hoare_bind; [apply probe_waiting|].
  assert (Hc : hoare True waiting
    (t ← on_net now;
     if past t deadline then
       ok (inl ("handshake-epoch keys did not materialise within "
                  +:+ pretty HANDSHAKE_DEADLINE_MS +:+ " ms"))
     else
       ev ← on_net recv_from;
       match ev with
       | Arrived d from =>
           r ← on_conn (conn_recv d socket from);
           match r with
           | inl e => ok (inl ("conn.recv failed: " +:+ qerror_debug e))
           | inr _ => probe_loop fuel flush_fuel socket deadline
           end
       | RecvFailed e =>
           if is_timeout e then
             on_conn (λ c, (on_timeout c, tt));;
             attempt (flush_send flush_fuel socket) (λ _, probe_loop fuel flush_fuel socket deadline)
           else ok (inl ("recv_from failed: " +:+ os_debug e))
       end)
    (λ r x, match r with inr (inr _) => unsent x.1 ∧ live x.1 | _ => True end)).
  { eapply hoare_bind; [apply (net_keeps (λ c, unsent c ∧ ¬ live c))|]. intros t.
    apply hoare_if; intros _; [by apply hoare_ret|].
    eapply hoare_bind; [apply (net_keeps (λ c, unsent c ∧ ¬ live c))|]. intros [d from|e].
    - apply (hoare_bind _ _ (λ _, pending)).
      + intros [c n] [Hu Hl]. unfold on_conn. simpl. destruct (conn_recv _ _ _ c) as [c' r] eqn:E.
        by eapply window_recv.
      + intros [e|k]; [by apply hoare_ret|apply IH].
    - apply hoare_if; intros _; [|by apply hoare_ret]. apply (hoare_bind _ _ (λ _, waiting)).
      + intros [c n] [Hu Hl]. by apply window_timeout.
      + intros []. apply (hoare_attempt _ _ (λ _, pending)); [|intros; apply IH].
        eapply hoare_conseq; [apply flush_waiting|done|]. intros [m|u] x [? _]; done. }
  intros [[[| |]|pkt]|]; try exact Hc; by apply hoare_ret.
Qed.
End Window.

(** C24: when [navette_connect_until_handshake_keys] returns a connection, its
    Handshake keys are live and its Finished has not been sent: nothing is
    flushed between the datagram that makes the keys live and the return. *)
Theorem connects_in_handshake_window {Q : Quiche} {W : HandshakeWindow} flush_fuel p n conn socket server n' :
  navette_connect_until_handshake_keys flush_fuel p n = Ret (inr (conn, socket, server)) n' →
  unsent conn ∧ live conn.
Proof.
  intros ([c0 s] & n1 & H1 & H2)%attempt_inr.
  apply start_client_connects in H1 as (scid & config & Hc).
  apply bind_Ret_inv in H2 as ([[m|u] c'] & n2 & H2 & H3); [done|]. injection H3 as <- _ _ _.
  apply run_client_Ret in H2.
  refine (hoare_run True waiting (await_handshake_keys flush_fuel s)
    (λ r x, match r with inr _ => unsent x.1 ∧ live x.1 | _ => True end) (c0, n1) (inr u) (c', n2) _ _ H2);
    [|by eapply window_connect].
  unfold await_handshake_keys.
  eapply hoare_bind; [apply (net_keeps (λ c, unsent c ∧ ¬ live c))|]. intros deadline.
  apply (hoare_attempt _ _ (λ _, pending)).
  { eapply hoare_conseq; [apply flush_waiting|done|]. intros [m|v] x [? _]; done. }
  intros []. apply (hoare_bind _ _ (λ _, pending)); [by apply hoare_gets|]. intros fuel.
  eapply (hoare_attempt _ _ (λ r x, match r with inr _ => unsent x.1 ∧ live x.1 | _ => True end)).
  { eapply hoare_conseq; [apply probe_loop_window|done|]. by intros [m|[m|v]]. }
  intros [m|v]; by apply hoare_ret.
Qed.

(** ** The window of the small client *)

Definition toy_live (c : tconn) : Prop := t_keys c = true.

Lemma toy_live_iff (c : tconn) : live (Q:=toy_quiche) c ↔ toy_live c.
Proof.
  unfold live, toy_live. simpl. unfold toy_encode. split.
  - intros (c' & pkt & [= <- H]). by destruct (t_keys c).
  - intros ->. by eexists _, _.
Qed.

(** Nothing but a Finished waiting behind live keys; none established. *)
Definition toy_unsent (c : tconn) : Prop := t_established c = false ∧ (t_finished c = true → t_keys c = true).

#[global] Instance toy_window : HandshakeWindow (Q:=toy_quiche).
Proof.
  refine {| unsent := toy_unsent : @qconn toy_quiche → Prop |}.
  - intros name scid local peer config c [= <-]. rewrite toy_live_iff. by split.
  - intros d to from c c' r [= <- _] [He Hf]. split; [done|]. simpl.
    by destruct (_ =? 2).
  - by intros.
  - intros n c c' r E [He Hf]. rewrite !toy_live_iff. unfold toy_live. intros Hk. simpl in E.
    unfold toy_send in E. destruct (t_finished c) eqn:Ef; [by destruct Hk; apply Hf|].
    destruct (t_hello c); [|destruct (t_request c)]; injection E as <- _;
      (split; [split; [done|simpl; congruence]|done]).
  - intros c c' r [= <- _] Hu. by split.
Defined.

Definition window_net : net := toy_net [Arrived [2] (server_addr_with_port 4433)] [0; 1; 2; 3].

Definition window_conn : @qconn toy_quiche :=
  match result_of (navette_connect_until_handshake_keys 5 4433 window_net) with
  | Some (inr (c, _, _)) => c
  | _ => fresh_tconn (server_addr_with_port 4433)
  end.

Lemma connects_in_handshake_window_witness :
  t_finished window_conn = true ∧ unsent window_conn ∧ live window_conn.
Proof.
  split; [by_eval|].
  apply (connects_in_handshake_window 5 4433 window_net window_conn
           {| ip := localhost; port := 50000 |} (server_addr_with_port 4433)
           (state_of window_net (navette_connect_until_handshake_keys 5 4433 window_net))).
  apply ret_of. by_eval.
Defined.

(** ** The close that comes last *)

Lemma flush_dry {Q : Quiche} fuel socket c c' n :
  conn_send MAX_DATAGRAM_SIZE c = (c', inl Done) →
  or_panic (flush_send (S fuel) socket) (c, n) = Ret tt (c', n).
Proof.
  intros E. unfold or_panic. simpl. unfold mbind, prog_bind, on_conn. simpl. by rewrite E.
Qed.

(** A CONNECTION_CLOSE that [wait_connection_close] receives in the last
    round before its deadline is not reported: the clock is read before the
    connection is asked, so the result is [None] although the connection knows
    the peer's close. *)
Theorem close_lost_at_deadline {Q : Quiche} fuel socket ms c n d from rest t0 t1 late c1 r c2 e :
  n_clock n = t0 :: t1 :: late → default None (head (n_results n)) = None →
  t1 < t0 + ms → past (head late) (Some (t0 + ms)) = true →
  peer_error c = None → is_closed c = false →
  n_inbox n = Arrived d from :: rest → zlen d ≤ 65535 →
  conn_recv d socket from c = (c1, r) → conn_send MAX_DATAGRAM_SIZE c1 = (c2, inl Done) →
  peer_error c2 = Some e →
  ∃ n', wait_connection_close (S fuel) socket ms (c, n) = Ret None (c2, n') ∧
    peer_error c2 ≠ None ∧ n_inbox n' = rest.
Proof.
  intros Hc Hr Ht Hl Hp Hcl Hi Hd Hrecv Hsend He.
  assert (Htake : take (Z.to_nat 65535) d = d) by (apply take_ge; unfold zlen in Hd; lia).
  assert (Hpast : past (Some t1) (Some (t0 + ms)) = false) by (simpl; apply Z.leb_gt; lia).
  unfold wait_connection_close, deadline_in, clock_fuel, on_net, lift, or_panic, expect_call, local_addr, sys.
  unfold mbind, prog_bind, mret, prog_ret, gets, now, os_next. simpl. rewrite Hc. simpl.
  rewrite Hr. simpl. unfold mbind, prog_bind, mret, prog_ret, asks, gets. cbn [head].
  simpl past in Hpast. simpl. rewrite Hpast. simpl. rewrite Hp. simpl.
  unfold mbind, prog_bind, mret, prog_ret, asks, gets. simpl. rewrite Hcl. simpl.
  unfold mbind, prog_bind, on_conn, recv_from. simpl. rewrite Hi. simpl. rewrite Htake. simpl.
  rewrite Hrecv. simpl. fold (flush_send (S fuel) socket). rewrite (flush_dry fuel socket c1 c2) by done.
  cbn [n_clock fst snd]. destruct late as [|t2 late]; simpl in *.
  - eexists. split; [reflexivity|]. split; [congruence|done].
  - rewrite Hl. eexists. split; [reflexivity|]. split; [congruence|done].
Qed.

Definition late_close : bytes := 9 :: 10 :: string_bytes "[QUIC-NO-FRAMES]".

Definition late_conn : @qconn toy_quiche :=
  {| t_to := server_addr_with_port 4433; t_hello := false; t_keys := false; t_finished := false;
     t_established := true; t_peer := None; t_session := None; t_seal := false;
     t_request := false; t_response := None |}.

Definition late_net : net := toy_net [Arrived late_close (server_addr_with_port 4433)] [0; 1999; 2000].

Lemma close_lost_at_deadline_witness :
  ∃ n', wait_connection_close (Q:=toy_quiche) 1 (server_addr_with_port 50000) CLOSE_DEADLINE_MS (late_conn, late_net)
        = Ret None (toy_recv late_close late_conn, n') ∧
    peer_error (toy_recv late_close late_conn) ≠ None ∧ n_inbox n' = [].
Proof.
  apply (close_lost_at_deadline (Q:=toy_quiche) 0 (server_addr_with_port 50000) CLOSE_DEADLINE_MS late_conn
           late_net late_close (server_addr_with_port 4433) [] 0 1999 [2000]
           (toy_recv late_close late_conn) (inr (zlen late_close)) (toy_recv late_close late_conn)
           (10, string_bytes "[QUIC-NO-FRAMES]")); by vm_compute.
Defined.
End RawWindow.
