(* ===== verification/ReplayFacts.v ===== *)
(** * What the resumption scenarios send

    The recording of a resumed flight is the flight, datagram by datagram, and
    the replay sends it again; so R01 passes only when the server was offered
    the same bytes twice. *)

From stdpp Require Import relations.
From S2P Require Import Prelude Effects Utf8 FrameScan Hoare Drivers DriverRules.
From S2P Require Import Quiche ToyQuiche RawFrames Resumption RawScenarios RawFacts.
Import Effects Utf8 FrameScan Hoare Drivers DriverRules.
Import Quiche ToyQuiche RawFrames Resumption RawScenarios RawFacts.

Module ReplayFacts.

Create HintDb sends.

Section Sends.
Context {Q : Quiche}.

(** ** The resumed connection *)

(** The calls on a connection that give no datagram. *)
Inductive quiet : relation qconn :=
  | quiet_recv d to from c c' r : conn_recv d to from c = (c', r) → quiet c c'
  | quiet_timeout c : quiet c (on_timeout c)
  | quiet_transport config c c' r : with_transport config c = (c', r) → quiet c c'
  | quiet_request req fin h3 h3' c c' r : send_request req fin (h3, c) = (h3', c', r) → quiet c c'
  | quiet_poll h3 h3' c c' r : poll (h3, c) = (h3', c', r) → quiet c c'
  | quiet_done n c c' e : conn_send n c = (c', inl e) → quiet c c'.

(** What a connection gives to send, with the destinations, from one state to
    another. *)
Inductive emits (c : qconn) : list (bytes * addr) → qconn → Prop :=
  | emits_none : emits c [] c
  | emits_quiet l c' c'' : emits c l c' → quiet c' c'' → emits c l c''
  | emits_datagram l c' c'' out to :
      emits c l c' → conn_send MAX_DATAGRAM_SIZE c' = (c'', inr (out, to)) →
      emits c (l ++ [(out, to)]) c''.

Lemma emits_rtc c l c' c'' : emits c l c' → rtc quiet c' c'' → emits c l c''.
Proof. intros He Hq. revert He. induction Hq; [done|]. intros He. by eapply IHHq, emits_quiet. Qed.

(** What was sent, as the connection gave it. *)
Definition datagram (d : sent) : bytes * addr := (sent_data d, sent_to d).

(** The [i]-th socket the system gives from now on, and the next one. *)
Definition bound (n : net) (i : nat) : addr :=
  {| ip := unspecified; port := default 0 (n_ports n !! i) |}.

(** ** Programs that do not send *)

(** No socket is bound; [grow]: whether datagrams may be added. *)
Definition logs (grow : bool) (s : list sent) (ports : list Z) (n : net) : Prop :=
  (if grow then s `prefix_of` n_sent n else n_sent n = s) ∧ n_ports n = ports.

(** Without datagrams, the connection makes quiet calls. *)
Definition held (grow : bool) (s : list sent) (ports : list Z) (c0 : qconn) (x : client) : Prop :=
  logs grow s ports x.2 ∧ (grow = false → rtc quiet c0 x.1).

Definition adds {A} (grow : bool) (c : prog client A) : Prop :=
  ∀ s ports c0, hoare True (held grow s ports c0) c (λ _, held grow s ports c0).

Lemma adds_ret {A} g (a : A) : adds g (mret a).
Proof. intros s ps c0. by apply hoare_ret. Qed.

Lemma adds_good {A} g (a : A) : adds g (good a).
Proof. apply adds_ret. Qed.

Lemma adds_fail {A} g e : adds g (fail (A:=A) e).
Proof. apply adds_ret. Qed.

Lemma adds_gets {A} g (f : client → A) : adds g (gets f).
Proof. intros s ps c0. by apply hoare_gets. Qed.

Lemma adds_asks {A} g (f : qconn → A) : adds g (asks f).
Proof. apply adds_gets. Qed.

Lemma adds_clock g : adds g clock_fuel.
Proof. apply adds_gets. Qed.

Lemma adds_no_fuel {A} g : adds g (no_fuel : prog client A).
Proof. intros s ps c0. by apply hoare_no_fuel. Qed.

Lemma adds_bind {A B} g (c : prog client A) (k : A → prog client B) :
  adds g c → (∀ a, adds g (k a)) → adds g (c ≫= k).
Proof. intros Hc Hk s ps c0. eapply hoare_bind; [apply Hc|]. intros a. apply Hk. Qed.

Lemma adds_attempt {E A B} g (c : prog client (E + A)) (k : A → prog client (E + B)) :
  adds g c → (∀ a, adds g (k a)) → adds g (attempt c k).
Proof. intros Hc Hk. apply adds_bind; [done|]. intros [e|a]; [apply adds_ret|apply Hk]. Qed.

Lemma adds_conn {A} g (f : qconn → qconn * A) :
  (g = false → ∀ c c' a, f c = (c', a) → quiet c c') → adds g (on_conn f).
Proof.
  intros Hf s ps c0 [c n] [Hn Hq]. unfold on_conn. simpl in *. destruct (f c) as [c' a] eqn:E.
  split; [done|]. intros Hg. eapply rtc_r; [by apply Hq|by eapply Hf].
Qed.

Lemma adds_conn_any {A} (f : qconn → qconn * A) : adds true (on_conn f).
Proof. by apply adds_conn. Qed.

Lemma adds_conn_recv g d to from : adds g (on_conn (conn_recv d to from)).
Proof. apply adds_conn. intros _ c c' r E. by eapply quiet_recv. Qed.

Lemma adds_timeout g : adds g (on_conn (λ c, (on_timeout c, tt))).
Proof. apply adds_conn. intros _ c c' r [= <- _]. apply quiet_timeout. Qed.

Lemma adds_transport g config : adds g (on_conn (with_transport config)).
Proof. apply adds_conn. intros _ c c' r E. by eapply quiet_transport. Qed.

Lemma adds_h3 {A} g h3 (f : h3_conn * qconn → h3_conn * qconn * A) :
  (∀ c h3' c' a, f (h3, c) = (h3', c', a) → quiet c c') → adds g (on_h3 h3 f).
Proof.
  intros Hf s ps c0 [c n] [Hn Hq]. unfold on_h3. simpl in *. destruct (f (h3, c)) as [[h3' c'] a] eqn:E.
  split; [done|]. intros Hg. eapply rtc_r; [by apply Hq|by eapply Hf].
Qed.

Lemma adds_send_request g h3 req fin : adds g (on_h3 h3 (send_request req fin)).
Proof. apply adds_h3. intros c h3' c' r E. by eapply quiet_request. Qed.

Lemma adds_poll g h3 : adds g (on_h3 h3 poll).
Proof. apply adds_h3. intros c h3' c' r E. by eapply quiet_poll. Qed.

Lemma adds_net {A} g (c : prog net A) :
  (∀ s ps, hoare True (logs g s ps) c (λ _, logs g s ps)) → adds g (on_net c).
Proof.
  intros Hc s ps c0. eapply hoare_lift; [apply (Hc s ps)|by intros x [? _]|]. by intros x a n [_ ?] ?.
Qed.

Lemma adds_now g : adds g (on_net now).
Proof. apply adds_net. intros s ps n Hn. exact Hn. Qed.

Lemma adds_deadline g ms : adds g (on_net (deadline_in ms)).
Proof. apply adds_net. intros s ps n Hn. exact Hn. Qed.

Lemma adds_recv g : adds g (on_net recv_from).
Proof. apply adds_net. intros s ps n Hn. unfold recv_from. by destruct (head _) as [[? ?|?]|]. Qed.

Lemma adds_send socket d to : adds true (on_net (send_to socket d to)).
Proof.
  apply adds_net. intros s ps n Hn. unfold send_to, mbind, prog_bind, os_next, modify, mret, prog_ret.
  destruct (default None _); [done|]. destruct Hn. split; [by apply prefix_app_r|done].
Qed.

Lemma adds_wrapped {A} g what (r : qerror + A) : adds g (wrapped what r).
Proof. destruct r; apply adds_ret. Qed.

#[local] Hint Resolve adds_ret adds_good adds_fail adds_gets adds_asks adds_clock adds_no_fuel
  adds_conn_any adds_conn_recv adds_timeout adds_transport adds_send_request adds_poll adds_now adds_deadline adds_recv adds_send adds_wrapped : sends.

#[local] Ltac send_free :=
  repeat first
    [ progress intros
    | progress cbv zeta
    | match goal with
      | |- adds _ (attempt _ _) => apply adds_attempt
      | |- adds _ (_ ≫= _) => apply adds_bind
      end
    | solve [auto with sends]
    | match goal with |- context [match ?x with _ => _ end] => destruct x end ].

Lemma adds_drain_events g : ∀ fuel h3, adds g (drain_events fuel h3).
Proof. induction fuel as [|fuel IH]; intros; simpl; send_free. Qed.

Lemma adds_ingest g socket : adds g (ingest socket).
Proof. unfold ingest. send_free. Qed.

Lemma adds_request g config req fin : adds g (h3_request config req fin).
Proof. unfold h3_request. send_free. Qed.

Lemma adds_flush socket : ∀ fuel, adds true (flush fuel socket).
Proof. induction fuel as [|fuel IH]; simpl; send_free. Qed.

#[local] Hint Resolve adds_drain_events adds_ingest adds_request adds_flush : sends.

Lemma adds_request_once g config req h3 : adds g (request_once config req h3).
Proof. unfold request_once. send_free. Qed.

Lemma adds_drain_some g fuel h3 : adds g (drain_some fuel h3).
Proof. unfold drain_some. send_free. Qed.

Lemma adds_pump_until stop socket deadline ff : ∀ fuel, adds true (pump_until fuel ff stop socket deadline).
Proof. induction fuel as [|fuel IH]; simpl; unfold pump_once; send_free. Qed.

Lemma adds_ticket_loop ff pf socket deadline : ∀ fuel h3, adds true (ticket_loop fuel ff pf socket deadline h3).
Proof. induction fuel as [|fuel IH]; intros; simpl; unfold pump_once; send_free. Qed.

#[local] Hint Resolve adds_pump_until adds_ticket_loop : sends.

Lemma adds_ticket_body ff pf socket : adds true (ticket_body ff pf socket).
Proof. unfold ticket_body. send_free. Qed.

(** ** Recording *)

(** What was sent since [s]: the recording, from one socket, and all that the
    connection gave since it was [c0]. *)
Section Recording.
Context (s : list sent) (ports : list Z) (socket : addr) (c0 : qconn).

Definition recorded (captured : list bytes) (x : client) : Prop :=
  ∃ flight, n_sent x.2 = s ++ flight ∧ sent_data <$> flight = captured ∧
    Forall (λ d, sent_from d = socket) flight ∧ emits c0 (datagram <$> flight) x.1 ∧
    n_ports x.2 = ports.

Lemma recorded_keeps {A} captured (c : prog client A) :
  adds false c → hoare True (recorded captured) c (λ _, recorded captured).
Proof.
  intros Hc x (flight & Hs & Hd & Hf & He & Hp).
  assert (Hx : held false (n_sent x.2) (n_ports x.2) x.1 x) by by repeat split.
  specialize (Hc _ _ _ x Hx). destruct (c x) as [a x'| | |]; try done.
  destruct Hc as [[Hs' Hp'] Hq]. exists flight. rewrite Hs', Hp'.
  split_and!; try done. by eapply emits_rtc, Hq.
Qed.

Definition keeps_record (r : io_error + list bytes) (x : client) : Prop :=
  match r with inl _ => True | inr captured => recorded captured x end.

Lemma recorded_datagram captured out to c c' n :
  recorded captured (c, n) → conn_send MAX_DATAGRAM_SIZE c = (c', inr (out, to)) →
  recorded (captured ++ [out]) (c', transmit socket to out n).
Proof.
  intros (flight & Hs & Hd & Hf & He & Hp) E. exists (flight ++ [packet_sent socket to out]).
  simpl in *. rewrite Hs, !fmap_app, Hd, app_assoc. split_and!; try done.
  - apply Forall_app. split; [done|by constructor].
  - by eapply emits_datagram.
Qed.

(** A system call's result is taken off, and nothing else changes. *)
Lemma recorded_os captured c n r n' :
  recorded captured (c, n) → os_next n = Ret r n' → recorded captured (c, n').
Proof. intros (flight & H) [= <- <-]. by exists flight. Qed.

Lemma capture_flush_recorded : ∀ fuel captured,
  hoare True (recorded captured) (capture_flush fuel socket captured) keeps_record.
Proof.
  induction fuel as [|fuel IH]; intros captured; simpl; [by apply hoare_no_fuel|].
  intros [c n] Hr. unfold on_conn, mbind, prog_bind. simpl.
  destruct (conn_send MAX_DATAGRAM_SIZE c) as [c' [e|[out to]]] eqn:E.
  - assert (Hr' : recorded captured (c', n)).
    { destruct Hr as (flight & ? & ? & ? & ? & ?). exists flight. split_and!; try done.
      by eapply emits_quiet, quiet_done. }
    by destruct e.
  - unfold on_net, lift, send_to, mbind, prog_bind. simpl.
    destruct (default None (head (n_results n))) as [e|]; [done|].
    apply IH. apply (recorded_datagram _ _ _ c); [|exact E]. by eapply recorded_os.
Qed.

(** [?] on a step that does not send. *)
Lemma record_step {A} captured (c : prog client (io_error + A))
    (k : A → prog client (io_error + list bytes)) :
  adds false c → (∀ a, hoare True (recorded captured) (k a) (keeps_record)) →
  hoare True (recorded captured) (attempt c k) (keeps_record).
Proof.
  intros Hc Hk. apply (hoare_attempt _ _ (λ _, recorded captured)); [|done].
  eapply hoare_conseq; [by apply recorded_keeps|done|]. by intros [?|?].
Qed.

Lemma capture_loop_recorded ff pf deadline config : ∀ fuel h3 captured,
  hoare True (recorded captured)
    (capture_loop fuel ff pf socket deadline config h3 captured) (keeps_record).
Proof.
  induction fuel as [|fuel IH]; intros h3 captured; simpl; [by apply hoare_no_fuel|].
  eapply hoare_bind; [apply recorded_keeps, adds_now|]. intros t.
  apply hoare_if; intros _; [by apply hoare_ret|].
  apply record_step; [apply adds_request_once|]. intros h3'.
  apply (hoare_attempt _ _ (λ cap x, recorded cap x)).
  { eapply hoare_conseq; [apply capture_flush_recorded|done|]. by intros [?|?]. }
  intros cap. apply record_step; [apply adds_ingest|]. intros [].
  eapply hoare_bind; [apply recorded_keeps, adds_drain_some|]. intros h3''.
  apply hoare_if; intros _; [by apply hoare_ret|apply IH].
Qed.

Lemma capture_recorded ff pf :
  hoare True (recorded []) (capture_body ff pf socket)
    (λ r x, match r with inl _ => True | inr cap => cap ≠ [] ∧ recorded cap x end).
Proof.
  unfold capture_body. eapply hoare_bind; [apply recorded_keeps, adds_deadline|].
  intros deadline. apply (hoare_attempt _ _ recorded).
  { eapply hoare_conseq; [apply capture_flush_recorded|done|]. by intros [?|?]. }
  intros cap. apply (hoare_attempt _ _ (λ _, recorded cap)).
  { eapply hoare_conseq; [apply recorded_keeps, adds_wrapped|done|]. by intros [?|?]. }
  intros config. eapply hoare_bind; [apply recorded_keeps, adds_clock|]. intros fuel.
  apply (hoare_attempt _ _ recorded).
  { eapply hoare_conseq; [apply capture_loop_recorded|done|]. by intros [?|?]. }
  intros [|d cap']; simpl; apply hoare_ret; intros x Hx; [done|by split].
Qed.
End Recording.

(** ** The drivers *)

Definition nadds {A} (grow : bool) (c : prog net A) : Prop :=
  ∀ s ps, hoare True (logs grow s ps) c (λ _, logs grow s ps).

Lemma nadds_ret {A} g (a : A) : nadds g (mret a).
Proof. intros s ps. by apply hoare_ret. Qed.

Lemma nadds_bind {A B} g (c : prog net A) (k : A → prog net B) :
  nadds g c → (∀ a, nadds g (k a)) → nadds g (c ≫= k).
Proof. intros Hc Hk s ps. eapply hoare_bind; [apply Hc|]. intros a. apply Hk. Qed.

Lemma nadds_attempt {E A B} g (c : prog net (E + A)) (k : A → prog net (E + B)) :
  nadds g c → (∀ a, nadds g (k a)) → nadds g (attempt c k).
Proof. intros Hc Hk. apply nadds_bind; [done|]. intros [e|a]; [apply nadds_ret|apply Hk]. Qed.

Lemma nadds_wrapped {A} g what (r : qerror + A) : nadds g (wrapped what r).
Proof. destruct r; apply nadds_ret. Qed.

Lemma nadds_io {A} g (c : prog net (os_error + A)) : nadds g c → nadds g (io_call c).
Proof. intros Hc. apply nadds_bind; [done|]. intros. apply nadds_ret. Qed.

Lemma nadds_os g : nadds g os_next.
Proof. intros s ps n Hn. exact Hn. Qed.

Lemma nadds_sys {A} g (a : A) : nadds g (sys a).
Proof. apply nadds_bind; [apply nadds_os|]. intros. apply nadds_ret. Qed.

Lemma nadds_fill g len : nadds g (fill len).
Proof.
  apply nadds_bind; [apply nadds_os|]. intros [e|]; [apply nadds_ret|]. intros s ps n Hn. exact Hn.
Qed.

Lemma nadds_config g : nadds g early_config.
Proof.
  apply nadds_attempt; [apply nadds_wrapped|intros]. apply nadds_attempt; [apply nadds_wrapped|].
  intros. apply nadds_ret.
Qed.

Lemma nsilent_run {A} (c : prog net A) n a n' :
  nadds false c → c n = Ret a n' → n_sent n' = n_sent n ∧ n_ports n' = n_ports n.
Proof. intros Hc E. specialize (Hc (n_sent n) (n_ports n) n (conj eq_refl eq_refl)). by rewrite E in Hc. Qed.

(** A socket: the next port is taken. *)
Lemma bind_effect n socket n' :
  bind unspecified n = Ret (inr socket) n' →
  socket = bound n 0 ∧ n_sent n' = n_sent n ∧ n_ports n' = tail (n_ports n).
Proof.
  unfold bind, mbind, prog_bind, os_next. simpl. destruct (default None _); [done|].
  intros [= <- <-]. simpl. split_and!; try done. unfold bound. by destruct (n_ports n).
Qed.

Lemma io_call_inr {A} (c : prog net (os_error + A)) n a n' :
  io_call c n = Ret (inr a) n' → c n = Ret (inr a) n'.
Proof. intros ([e|b] & n1 & H1 & H2)%bind_Ret_inv; [done|]. by injection H2 as <- <-. Qed.

Lemma open_effect server n c socket n' :
  open_client server n = Ret (inr (c, socket)) n' →
  socket = bound n 0 ∧ n_sent n' = n_sent n ∧ n_ports n' = tail (n_ports n).
Proof.
  intros (config & n1 & H1 & E)%attempt_inr. apply attempt_inr in E as (so & n2 & H2%io_call_inr & E).
  apply attempt_inr in E as ([] & n3 & H3 & E). apply attempt_inr in E as (local & n4 & H4 & E).
  apply bind_Ret_inv in E as (scid & n5 & H5 & E). destruct scid as [scid|]; [|done].
  apply attempt_inr in E as (c' & n6 & H6 & E). injection E as <- <- <-.
  apply nsilent_run in H1 as [S1 P1]; [|apply nadds_config]. apply bind_effect in H2 as (-> & S2 & P2).
  apply nsilent_run in H3 as [S3 P3]; [|apply nadds_io, nadds_sys].
  apply nsilent_run in H4 as [S4 P4]; [|apply nadds_io, nadds_sys].
  apply nsilent_run in H5 as [S5 P5]; [|apply nadds_fill].
  apply nsilent_run in H6 as [S6 P6]; [|apply nadds_wrapped].
  unfold bound in *. rewrite P1 in *. split_and!; [done|congruence|congruence].
Qed.

Lemma ticket_effect ff pf server n t n' :
  drive_to_session_ticket ff pf server n = Ret (inr t) n' →
  (∃ new, n_sent n' = n_sent n ++ new) ∧ n_ports n' = tail (n_ports n).
Proof.
  intros ([c socket] & n1 & H1 & E)%attempt_inr. apply open_effect in H1 as (_ & S1 & P1).
  apply bind_Ret_inv in E as ([r c'] & n2 & H2 & E). injection E as _ <-.
  apply run_client_Ret in H2.
  assert (Hx : held true (n_sent n1) (n_ports n1) c (c, n1)) by by repeat split.
  pose proof (adds_ticket_body ff pf socket _ _ _ _ Hx) as Hb. rewrite H2 in Hb.
  destruct Hb as [[Hs Hp] _]. simpl in *. rewrite <- S1, <- P1. split; [exact Hs|done].
Qed.

(** A resumption in this run: the ticket of the first phase, in the state
    it left, set on a connection that was just made for the server. *)
Definition resumes (ff pf : nat) (server : addr) (n : net) (ticket : bytes) (socket : addr)
    (c1 : qconn) : Prop :=
  ∃ n1 line n2 c0 n3, drive_to_session_ticket ff pf server n = Ret (inr ticket) n1 ∧
    eprintln line n1 = Ret tt n2 ∧ open_client server n2 = Ret (inr (c0, socket)) n3 ∧
    set_session ticket c0 = (c1, inr tt).

(** The session is set before a driver's own steps. *)
Lemma resume_inv {A} server blob (body : addr → prog client (io_error + A)) n rc a n' :
  resume server blob body n = Ret (inr (rc, a)) n' →
  ∃ c0 n1 c1, open_client server n = Ret (inr (c0, r_socket rc)) n1 ∧
    set_session blob c0 = (c1, inr tt) ∧
    body (r_socket rc) (c1, n1) = Ret (inr a) (r_conn rc, n').
Proof.
  intros ([c0 socket] & n1 & H1 & H2)%attempt_inr.
  apply bind_Ret_inv in H2 as ([[e|a'] c'] & n2 & H2 & H3); [done|]. injection H3 as <- <- <-.
  apply run_client_Ret in H2. apply bind_Ret_inv in H2 as (r & x3 & H3 & H4).
  unfold on_conn in H3. simpl in H3. destruct (set_session blob c0) as [c1 r'] eqn:E.
  injection H3 as <- <-. apply attempt_inr in H4 as ([] & x4 & H4 & H5).
  destruct r' as [e|[]]; [done|]. injection H4 as <-. by exists c0, n1, c1.
Qed.

Lemma capture_is_flight ff pf server blob n rc captured n' :
  drive_to_zero_rtt_with_datagram_capture ff pf server blob n = Ret (inr (rc, captured)) n' →
  captured ≠ [] ∧ ∃ c0 n1 c1 flight, open_client server n = Ret (inr (c0, bound n 0)) n1 ∧
    set_session blob c0 = (c1, inr tt) ∧ n_sent n' = n_sent n ++ flight ∧
    sent_data <$> flight = captured ∧ Forall (λ d, sent_from d = bound n 0) flight ∧
    emits c1 (datagram <$> flight) (r_conn rc) ∧ n_ports n' = tail (n_ports n).
Proof.
  intros (c0 & n1 & c1 & H1 & H2 & H3)%resume_inv.
  destruct (open_effect _ _ _ _ _ H1) as (Hb & S1 & P1). rewrite Hb in *.
  assert (Hr : recorded (n_sent n) (tail (n_ports n)) (bound n 0) c1 [] (c1, n1)).
  { exists []. simpl. rewrite app_nil_r. split_and!; try done. apply emits_none. }
  pose proof (capture_recorded _ _ _ _ ff pf _ Hr) as Hc. rewrite H3 in Hc.
  destruct Hc as (Hne & flight & ? & ? & ? & ? & ?). split; [done|]. by exists c0, n1, c1, flight.
Qed.

Lemma send_to_log socket d to n k n' :
  send_to socket d to n = Ret (inr k) n' → n_sent n' = n_sent n ++ [packet_sent socket to d].
Proof.
  unfold send_to, mbind, prog_bind, os_next, modify, mret, prog_ret.
  destruct (default None _); by intros [= <- <-].
Qed.

Lemma replay_loop_sends socket server : ∀ ds n n',
  replay_loop socket server ds n = Ret (inr tt) n' →
  n_sent n' = n_sent n ++ (packet_sent socket server <$> ds).
Proof.
  induction ds as [|d ds IH]; intros n n'; simpl; [intros [= <-]; by rewrite app_nil_r|].
  intros (k & n1 & H1 & H2)%attempt_inr. apply bind_Ret_inv in H1 as ([e|z] & n2 & H1 & H3); [done|].
  injection H3 as _ <-. apply send_to_log in H1.
  apply bind_Ret_inv in H2 as (ev & n3 & H2 & H4). apply IH in H4.
  assert (n_sent n3 = n_sent n2) as Hr.
  { unfold recv_from in H2. by destruct (head _) as [[? ?|?]|]; injection H2 as _ <-. }
  rewrite H4, Hr, H1, <- app_assoc. done.
Qed.

Lemma replay_sends server ds n n' :
  replay_datagrams_verbatim server ds n = Ret (inr tt) n' →
  n_sent n' = n_sent n ++ (packet_sent (bound n 0) server <$> ds).
Proof.
  intros (socket & n1 & H1%io_call_inr & H2)%attempt_inr. apply attempt_inr in H2 as ([] & n2 & H2 & H3).
  apply bind_effect in H1 as (-> & S1 & _).
  apply nsilent_run in H2 as [S2 _]; [|apply nadds_io, nadds_sys]. apply replay_loop_sends in H3. congruence.
Qed.

(** ** R01 *)

Lemma phase_passed {A} id what (c : prog net (io_error + A)) k n n' :
  phase id what c k n = Ret 0 n' → ∃ a n1, c n = Ret (inr a) n1 ∧ k a n1 = Ret 0 n'.
Proof. intros ([e|a] & n1 & H1 & H2)%bind_Ret_inv; [done|]. by exists a, n1. Qed.

Lemma main_call_passed {A} id what (c : prog net (os_error + A)) k n n' :
  main_call id what c k n = Ret 0 n' → ∃ a n1, c n = Ret (inr a) n1 ∧ k a n1 = Ret 0 n'.
Proof. intros ([e|a] & n1 & H1 & H2)%bind_Ret_inv; [done|]. by exists a, n1. Qed.

Lemma printed {A} l (k : prog net A) n a n' :
  (print l;; k) n = Ret a n' →
  ∃ n1, print l n = Ret tt n1 ∧ n_sent n1 = n_sent n ∧ n_ports n1 = n_ports n ∧ k n1 = Ret a n'.
Proof.
  intros ([] & n1 & H1 & H2)%bind_Ret_inv. exists n1. split; [done|].
  unfold print, modify in H1. injection H1 as <-. by split_and!.
Qed.
End Sends.

Lemma bound_tail n n1 i : n_ports n1 = tail (n_ports n) → bound n1 i = bound n (S i).
Proof. unfold bound. intros E. rewrite E. by destruct (n_ports n). Qed.

(** C22: when R01 passes, the server was offered a flight twice. The first
    time it was what the connection gave that was resumed in this run with the
    ticket of its first phase: the datagrams sent from that connection's
    socket, the second one bound in the run, are at least one and exactly
    those [send] gave on it from the moment the session was set until the
    capture ended, in order, each sent to the destination it came with. Right
    after them the same bytes in the same order went to the server's address
    from a socket bound for the replay, the third one the system gave. *)
Theorem replay_is_verbatim {Q : Quiche} env ff pf n n' :
  let server := server_addr_with_port (qrf_port env) in
  s_zero_rtt_replay env ff pf n = Ret 0 n' →
  ∃ ticket c1 c2 before flight echo after,
    resumes ff pf server n ticket (bound n 1) c1 ∧
    emits c1 (datagram <$> flight) c2 ∧ flight ≠ [] ∧
    Forall (λ d, sent_from d = bound n 1) flight ∧
    echo = packet_sent (bound n 2) server <$> (sent_data <$> flight) ∧
    n_sent n' = n_sent n ++ before ++ flight ++ echo ++ after.
Proof.
  intros server (ticket & n1 & H1 & E)%phase_passed. apply printed in E as (n2 & L2 & P2 & Q2 & E).
  apply phase_passed in E as ([rc captured] & n3 & H3 & E). apply printed in E as (n4 & _ & P4 & Q4 & E).
  destruct captured as [|d captured]; [done|]. cbn [is_nil] in E.
  apply phase_passed in E as ([] & n5 & H5 & E). apply printed in E as (n6 & _ & P6 & _ & E).
  apply main_call_passed in E as (s1 & n7 & H7 & E). apply main_call_passed in E as ([] & n8 & H8 & E).
  apply bind_Ret_inv in E as ([e|[]] & n9 & H9 & E); [done|]. apply printed in E as (n10 & _ & P10 & _ & E).
  injection E as <-.
  destruct (ticket_effect _ _ _ _ _ _ H1) as [[before S1] R1].
  apply capture_is_flight in H3 as (Hne & c0 & n3' & c1 & flight & O3 & A3 & S3 & Hd & Hf & He & R3).
  apply replay_sends in H5 as S5. apply bind_effect in H7 as (_ & S7 & _).
  apply nsilent_run in H8 as [S8 _]; [|apply nadds_sys].
  apply attempt_inr in H9 as (t & n11 & H9 & E9). injection E9 as <-.
  apply ticket_effect in H9 as [[after S9] _].
  rewrite (bound_tail n n2 0) in * by congruence.
  assert (Hb : bound n4 0 = bound n 2).
  { rewrite (bound_tail n2 n4 0) by congruence. apply bound_tail. congruence. }
  exists ticket, c1, (r_conn rc), before, flight, (packet_sent (bound n 2) server <$> (sent_data <$> flight)), after.
  split_and!; [by eexists n1, _, n2, c0, n3'|done|intros E; by rewrite E in Hd|done|done|].
  rewrite P10, S9, S8, S7, P6, S5, Hb, P4, S3, P2, S1, Hd. by rewrite <- !app_assoc.
Qed.

(** ** A run of R01 *)

Definition from_server (d : bytes) : arrival := Arrived d (server_addr_with_port 4433).

Definition r01_net : net :=
  toy_net (from_server <$> [[2]; [4; 77]; [2]; [0]; [0]; [2]; [4; 78]])
    [0; 1; 2; 3; 4; 5; 6; 7; 8; 9; 10; 11; 12].

#[local] Abbreviation r01_run := (s_zero_rtt_replay (Q:=toy_quiche) no_env 5%nat 5%nat r01_net).

Lemma replay_is_verbatim_witness :
  sent_data <$> n_sent (state_of r01_net r01_run)
    = [[1]; [3]; [5]; [1]; [5]; [1]; [5]; [1]; [3]; [5]] ∧
  bound r01_net 1 ≠ bound r01_net 2 ∧
  ∃ ticket c1 c2 before flight echo after,
    resumes (Q:=toy_quiche) 5 5 (server_addr_with_port 4433) r01_net ticket (bound r01_net 1) c1 ∧
    emits (Q:=toy_quiche) c1 (datagram <$> flight) c2 ∧ flight ≠ [] ∧
    Forall (λ d, sent_from d = bound r01_net 1) flight ∧
    echo = packet_sent (bound r01_net 2) (server_addr_with_port 4433) <$> (sent_data <$> flight) ∧
    n_sent (state_of r01_net r01_run) = n_sent r01_net ++ before ++ flight ++ echo ++ after.
Proof.
  assert (E : result_of r01_run = Some 0) by by_eval. split; [by_eval|]. split; [discriminate|].
  apply (replay_is_verbatim (Q:=toy_quiche) no_env 5 5 r01_net).
  exact (ret_of r01_net _ 0 E).
Defined.
End ReplayFacts.
