(* ===== verification/StatusFacts.v ===== *)
(** * The status of a 0-RTT request

    R03 and R04 pass on a status that HTTP/3 reported on the stream of the
    request, on the connection the run resumed, where the request was submitted
    with 0-RTT keys. *)

From stdpp Require Import relations.
From S2P Require Import Prelude Effects Utf8 FrameScan Hoare Drivers DriverRules.
From S2P Require Import Quiche ToyQuiche RawFrames Resumption RawScenarios RawFacts ReplayFacts.
Import Effects Utf8 FrameScan Hoare Drivers DriverRules.
Import Quiche ToyQuiche RawFrames Resumption RawScenarios RawFacts ReplayFacts.

Module StatusFacts.

Section Status.
Context {Q : Quiche}.

(** The pump's calls on a connection. *)
Inductive pumps : relation qconn :=
  | pumps_send n c c' r : conn_send n c = (c', r) → pumps c c'
  | pumps_recv d to from c c' r : conn_recv d to from c = (c', r) → pumps c c'
  | pumps_timeout c : pumps c (on_timeout c).

(** HTTP/3 over a connection: the pump moves the transport, polling both. *)
Inductive http_step : relation (h3_conn * qconn) :=
  | http_pump h3 c c' : pumps c c' → http_step (h3, c) (h3, c')
  | http_poll x y r : poll x = (y, r) → http_step x y.

(** The resumed connection [c1], pumped until it had keys for 0-RTT, took the
    request on stream [sid] and the body, if there is one, with its end; [x] is
    HTTP/3 and the connection after that. *)
Definition submitted (c1 : qconn) (method path : string) (body : option bytes) (sid : Z)
    (x : h3_conn * qconn) : Prop :=
  ∃ config c c' h3 y, rtc pumps c1 c ∧ has_application_crypto_seal c = true ∧
    h3_config_new = inr config ∧ with_transport config c = (c', inr h3) ∧
    send_request (zero_rtt_request method path) (negb (is_some body)) (h3, c') = (y, inr sid) ∧
    match body with
    | None => x = y
    | Some b => ∃ k, send_body sid b true y = (x, inr k)
    end.

(** From there, HTTP/3 reported a response on stream [sid] with a status field
    of that value. *)
Definition answered (x : h3_conn * qconn) (sid status : Z) : Prop :=
  ∃ y z l v, rtc http_step x y ∧ poll y = (z, inr (sid, Headers l)) ∧
    (string_bytes ":status", v) ∈ l ∧ status_value v = Some status.

(** The fields of one response: a status that was seen is in it. *)
Lemma status_of_seen l : ∀ observed v, status_of l observed = Some v →
  observed = Some v ∨ ∃ w, (string_bytes ":status", w) ∈ l ∧ status_value w = Some v.
Proof.
  induction l as [|[name w] l IH]; intros observed v E; [by left|].
  change (status_of l (if bool_decide (name = string_bytes ":status")
    then match status_value w with Some v => Some v | None => observed end
    else observed) = Some v) in E.
  apply IH in E as [E|(w' & Hw & Hv)]; [|right; exists w'; split; [by right|done]].
  case_bool_decide as Hn; [subst name|by left].
  destruct (status_value w) as [v'|] eqn:Ew; [|by left]. injection E as ->.
  right. exists w. split; [by left|done].
Qed.

(** *** The pump *)

Section Pump.
Context (P : qconn → Prop).
Hypothesis HP : ∀ c c', P c → pumps c c' → P c'.

Definition pumped {A} (c : prog client A) : Prop :=
  hoare True (λ x : client, P x.1) c (λ _ x, P x.1).

Lemma pumped_conn {A} (f : qconn → qconn * A) :
  (∀ c c' a, f c = (c', a) → pumps c c') → pumped (on_conn f).
Proof.
  intros Hf [c n] Hc. unfold on_conn. simpl in *. destruct (f c) as [c' a] eqn:E. eapply HP; [done|by eapply Hf].
Qed.

Lemma pumped_net {A} (c : prog net A) : pumped (on_net c).
Proof. intros [q n] Hq. unfold on_net, lift. simpl. by destruct (c n). Qed.

Lemma pumped_attempt {E A B} (c : prog client (E + A)) (k : A → prog client (E + B)) :
  pumped c → (∀ a, pumped (k a)) → pumped (attempt c k).
Proof. intros Hc Hk. eapply hoare_bind; [exact Hc|]. intros [e|a]; [by apply hoare_ret|apply Hk]. Qed.

Lemma pumped_flush socket : ∀ fuel, pumped (flush fuel socket).
Proof.
  induction fuel as [|fuel IH]; simpl; [by apply hoare_no_fuel|].
  eapply hoare_bind; [apply pumped_conn; intros; by eapply pumps_send|].
  intros [[]|[out to]]; try (by apply hoare_ret).
  eapply hoare_bind; [apply pumped_net|]. intros [e|k]; [|apply IH].
  apply hoare_if; intros _; by apply hoare_ret.
Qed.

Lemma pumped_ingest socket : pumped (ingest socket).
Proof.
  eapply hoare_bind; [apply pumped_net|]. intros [d from|e].
  - eapply hoare_bind; [apply pumped_conn; intros; by eapply pumps_recv|]. intros r.
    apply pumped_attempt; [by destruct r; intros ? ?|intros; by apply hoare_ret].
  - apply hoare_if; intros _; [|by apply hoare_ret].
    apply (hoare_bind _ _ (λ _ x, P x.1)); [|intros; by apply hoare_ret].
    apply (pumped_conn (λ c, (on_timeout c, tt))). intros c c' a [= <- _]. apply pumps_timeout.
Qed.
End Pump.

(** *** The loop *)

Section Loop.
Context (c1 : qconn) (method path : string) (body : option bytes).

(** What the loop knows of its variables and the connection. *)
Definition known (h3 : option (h3_conn * Z)) (observed : option Z) (c : qconn) : Prop :=
  match h3 with
  | None => observed = None ∧ rtc pumps c1 c
  | Some (h3, sid) => ∃ x, submitted c1 method path body sid x ∧ rtc http_step x (h3, c) ∧
      match observed with Some v => answered x sid v | None => True end
  end.

(** A status that was seen was the answer to the request. *)
Definition served (o : option Z) : Prop :=
  match o with
  | Some v => ∃ sid x, submitted c1 method path body sid x ∧ answered x sid v
  | None => True
  end.

Lemma known_served h3 observed c : known h3 observed c → served observed.
Proof.
  destruct h3 as [[h3 sid]|]; simpl; [|by intros [-> _]].
  intros (x & Hs & _ & Ho). destruct observed; [by exists sid, x|done].
Qed.

Lemma known_pumps h3 observed c c' : known h3 observed c → pumps c c' → known h3 observed c'.
Proof.
  destruct h3 as [[h3 sid]|]; simpl.
  - intros (x & Hs & Hx & Ho) Hp. exists x. split_and!; [done| |done].
    eapply rtc_r; [exact Hx|by apply http_pump].
  - intros [Ho Hc] Hp. split; [done|by eapply rtc_r].
Qed.

(** A result that goes with the loop's knowledge. *)
Definition then_known {A} (h3 : A → option (h3_conn * Z)) (observed : A → option Z)
    (r : io_error + A) (x : client) : Prop :=
  match r with inl _ => True | inr a => known (h3 a) (observed a) x.1 end.

Lemma status_events_known sid : ∀ fuel h3 observed,
  hoare True (λ x : client, known (Some (h3, sid)) observed x.1) (status_events fuel h3 sid observed)
    (then_known (λ a, Some (a.1, sid)) snd).
Proof.
  induction fuel as [|fuel IH]; intros h3 observed; simpl; [by apply hoare_no_fuel|].
  intros [c n] (x & Hs & Hx & Ho). unfold mbind, prog_bind, on_h3. simpl.
  destruct (poll (h3, c)) as [[h3' c'] r] eqn:E.
  assert (Hx' : rtc http_step x (h3', c')) by (eapply rtc_r; [exact Hx|by eapply http_poll]).
  assert (Hk : known (Some (h3', sid)) observed c') by by exists x.
  destruct r as [e|[sid' ev]]; [by destruct e|].
  destruct ev; try (by apply IH). apply IH. simpl.
  destruct (Z.eqb_spec sid' sid) as [->|]; [|exact Hk]. exists x. split_and!; [done|done|].
  destruct (status_of l observed) as [v|] eqn:Ev; [|done].
  apply status_of_seen in Ev as [->|(w & Hw & Hv)]; [done|]. by exists (h3, c), (h3', c'), l, w.
Qed.

Lemma submit_once_known config h3 observed : h3_config_new = inr config →
  hoare True (λ x : client, known h3 observed x.1) (submit_once config method path body h3)
    (then_known id (λ _, observed)).
Proof.
  intros Hcf [c n] Hk. unfold submit_once, asks, gets, mbind, prog_bind. simpl.
  destruct h3 as [[h3 sid]|]; [done|]. destruct Hk as [-> Hc]. simpl in Hc.
  destruct (has_application_crypto_seal c) eqn:Es; [|done].
  unfold h3_request, attempt, mbind, prog_bind, on_conn. simpl.
  destruct (with_transport config c) as [c' [e|h3]] eqn:Et; [done|]. simpl.
  unfold mbind, prog_bind, on_h3. simpl.
  destruct (send_request _ _ (h3, c')) as [[h3' c''] [e|sid]] eqn:Er; [done|]. simpl.
  destruct body as [b|] eqn:Eb; simpl.
  - unfold mbind, prog_bind. simpl.
    destruct (send_body sid b true (h3', c'')) as [[h3'' c3] [e|k]] eqn:Ey; [done|].
    exists (h3'', c3). split_and!; [|done|done]. exists config, c, c', h3, (h3', c'').
    rewrite Eb. split_and!; [done..|by exists k].
  - exists (h3', c''). split_and!; [|done|done]. exists config, c, c', h3, (h3', c'').
    rewrite Eb. by split_and!.
Qed.

Lemma status_loop_known ff pf socket deadline config : h3_config_new = inr config → ∀ fuel h3 observed,
  hoare True (λ x : client, known h3 observed x.1)
    (status_loop fuel ff pf socket deadline config method path body h3 observed)
    (λ r _, match r with inl _ => True | inr o => served o end).
Proof.
  intros Hcf. induction fuel as [|fuel IH]; intros h3 observed; simpl; [by apply hoare_no_fuel|].
  assert (Hend : hoare True (λ x : client, known h3 observed x.1) (good observed)
    (λ r _, match r with inl _ => True | inr o => served o end)).
  { apply hoare_ret. intros x Hx. by eapply known_served. }
  eapply hoare_bind; [apply (pumped_net (known h3 observed))|]. intros t.
  apply hoare_if; intros _; [done|]. apply hoare_if; intros _; [done|].
  eapply (hoare_attempt _ _ (λ h3' x, known h3' observed x.1)).
  { eapply hoare_conseq; [exact (submit_once_known config h3 observed Hcf)|done|]. by intros [?|?]. }
  intros h3'. assert (HP : ∀ c c', known h3' observed c → pumps c c' → known h3' observed c')
    by apply known_pumps.
  eapply (hoare_attempt _ _ (λ _ x, known h3' observed x.1)).
  { eapply hoare_conseq; [exact (pumped_flush _ HP socket ff)|done|]. by intros [?|?]. }
  intros _. eapply (hoare_attempt _ _ (λ _ x, known h3' observed x.1)).
  { eapply hoare_conseq; [exact (pumped_ingest _ HP socket)|done|]. by intros [?|?]. }
  intros _. destruct h3' as [[h3' sid]|]; [|apply IH].
  eapply (hoare_attempt _ _ (λ a x, known (Some (a.1, sid)) a.2 x.1)).
  { eapply hoare_conseq; [exact (status_events_known sid pf h3' observed)|done|]. by intros [?|?]. }
  intros [h3'' o]. apply IH.
Qed.

Lemma request_body_served ff pf socket n v x' :
  request_body ff pf method path body socket (c1, n) = Ret (inr v) x' → served (Some v).
Proof.
  apply (hoare_run True (λ x : client, rtc pumps c1 x.1) _
    (λ r _, match r with inl _ => True | inr v => served (Some v) end)); [|apply rtc_refl].
  assert (HP : ∀ c c', rtc pumps c1 c → pumps c c' → rtc pumps c1 c') by (intros; by eapply rtc_r).
  eapply hoare_bind; [apply (pumped_net (rtc pumps c1))|]. intros deadline.
  eapply (hoare_attempt _ _ (λ _ x, rtc pumps c1 x.1)).
  { eapply hoare_conseq; [by apply (pumped_flush (rtc pumps c1))|done|]. by intros [?|?]. }
  intros _. eapply (hoare_attempt _ _ (λ config x, h3_config_new = inr config ∧ rtc pumps c1 x.1)).
  { destruct h3_config_new as [e|config]; by apply hoare_ret. }
  intros config. apply hoare_pure. intros Hcf.
  apply (hoare_bind _ _ (λ _ x, rtc pumps c1 x.1)); [by apply hoare_gets|]. intros fuel.
  eapply (hoare_attempt _ _ (λ o _, served o)).
  { eapply hoare_conseq; [by apply (status_loop_known ff pf socket deadline config Hcf _ None None)|done|].
    by intros [?|?]. }
  intros [s|]; by apply hoare_ret.
Qed.
End Loop.

Lemma status_scenario_passed env ff pf id driver method path expect_ pass body expected n n' :
  status_scenario env ff pf id driver method path expect_ pass body expected n = Ret 0 n' →
  ∃ ticket socket c1 sid x, resumes ff pf (server_addr_with_port (qrf_port env)) n ticket socket c1 ∧
    submitted c1 method path body sid x ∧ answered x sid expected.
Proof.
  intros (ticket & n1 & H1 & E)%phase_passed. apply printed in E as (n2 & L2 & _ & _ & E).
  apply phase_passed in E as ([rc status] & n3 & H3 & E).
  destruct (Z.eqb_spec status expected) as [->|]; [|done].
  apply resume_inv in H3 as (c0 & n4 & c1 & O & A & B).
  apply request_body_served in B as (sid & x & Hs & Ha).
  exists ticket, (r_socket rc), c1, sid, x. split; [|done]. by eexists n1, _, n2, c0, n4.
Qed.
End Status.

(** C23: when R03 (a GET in 0-RTT) passes, the connection the run resumed
    with the ticket of its first phase was pumped until it had 0-RTT keys, took
    the request there with the stream's end, and then, only pumped and polled,
    reported a response on the request's own stream with status 200. When R04
    (a POST) passes, the same holds with status 425, where the request was
    taken without the stream's end and the body handed to [send_body] on that
    stream with it (how many of its bytes HTTP/3 took is not looked at). *)
Theorem zero_rtt_statuses_answered {Q : Quiche} env ff pf n n' :
  let server := server_addr_with_port (qrf_port env) in
  (s_zero_rtt_http_get_accepted env ff pf n = Ret 0 n' →
   ∃ ticket socket c1 sid x, resumes ff pf server n ticket socket c1 ∧
     submitted c1 "GET" "/" None sid x ∧ answered x sid 200) ∧
  (s_zero_rtt_http_post_rejected env ff pf n = Ret 0 n' →
   ∃ ticket socket c1 sid x, resumes ff pf server n ticket socket c1 ∧
     submitted c1 "POST" "/echo" (Some (string_bytes "hello-zero-rtt-post")) sid x ∧
     answered x sid 425).
Proof. split; apply status_scenario_passed. Qed.

(** Within one batch of events a later status replaces an earlier one, also an
    informational one: the driver returns the last status, not the first. *)
Lemma later_status_wins v w a b observed :
  status_value v = Some a → status_value w = Some b →
  status_of [(string_bytes ":status", w)] (status_of [(string_bytes ":status", v)] observed) = Some b.
Proof. intros Hv Hw. unfold status_of. simpl. by rewrite Hw. Qed.

(** Servers that answer a GET with 200 and a POST with 425. *)
Definition status_net (status : string) : net :=
  toy_net (from_server <$> [[2]; [4; 77]; 6 :: string_bytes status])
    [0; 1; 2; 3; 4; 5; 6; 7; 8; 9; 10; 11; 12].

#[local] Abbreviation r03_run :=
  (s_zero_rtt_http_get_accepted (Q:=toy_quiche) no_env 5%nat 5%nat (status_net "200")).
#[local] Abbreviation r04_run :=
  (s_zero_rtt_http_post_rejected (Q:=toy_quiche) no_env 5%nat 5%nat (status_net "425")).

Lemma zero_rtt_statuses_answered_witness :
  result_of r03_run = Some 0 ∧ result_of r04_run = Some 0 ∧
  (∃ ticket socket c1 sid x,
    resumes (Q:=toy_quiche) 5 5 (server_addr_with_port 4433) (status_net "200") ticket socket c1 ∧
    submitted (Q:=toy_quiche) c1 "GET" "/" None sid x ∧ answered (Q:=toy_quiche) x sid 200) ∧
  ∃ ticket socket c1 sid x,
    resumes (Q:=toy_quiche) 5 5 (server_addr_with_port 4433) (status_net "425") ticket socket c1 ∧
    submitted (Q:=toy_quiche) c1 "POST" "/echo" (Some (string_bytes "hello-zero-rtt-post")) sid x ∧
    answered (Q:=toy_quiche) x sid 425.
Proof.
  assert (E : result_of r03_run = Some 0) by by_eval. assert (E' : result_of r04_run = Some 0) by by_eval.
  split; [exact E|]. split; [exact E'|]. split.
  - apply (proj1 (zero_rtt_statuses_answered (Q:=toy_quiche) no_env 5 5 (status_net "200")
                    (state_of (status_net "200") r03_run))).
    exact (ret_of (status_net "200") _ 0 E).
  - apply (proj2 (zero_rtt_statuses_answered (Q:=toy_quiche) no_env 5 5 (status_net "425")
                    (state_of (status_net "425") r04_run))).
    exact (ret_of (status_net "425") _ 0 E').
Defined.
End StatusFacts.
