(* ===== verification/RawEnds.v ===== *)
(** * The raw-frame scenarios end

    A loop over quiche's output ends because quiche runs dry, a loop that
    watches a deadline because every round takes a reading of the clock. *)

From S2P Require Import Prelude Effects Utf8 FrameScan Hoare Drivers DriverRules.
From S2P Require Import Quiche ToyQuiche RawFrames Resumption RawScenarios RawFacts.
Import Effects Utf8 FrameScan Hoare Drivers DriverRules.
Import Quiche ToyQuiche RawFrames Resumption RawScenarios RawFacts.

Module RawEnds.

Create HintDb ends.

(** At most [n] calls until [conn.send] gives no datagram. *)
Fixpoint dry_within {Q : Quiche} (n : nat) (c : qconn) : Prop :=
  match n with
  | O => False
  | S n => match conn_send MAX_DATAGRAM_SIZE c with
           | (c', inr _) => dry_within n c'
           | (_, inl _) => True
           end
  end.

(** At most [n] calls until [poll] gives no event. *)
Fixpoint idle_within {Q : Quiche} (n : nat) (x : h3_conn * qconn) : Prop :=
  match n with
  | O => False
  | S n => match poll x with
           | (x', inr _) => idle_within n x'
           | (_, inl _) => True
           end
  end.

(** quiche promises that its queues are bounded. *)
Class QuicheDries (Q : Quiche) := {
  send_bound : nat;
  poll_bound : nat;
  sends_dry : ∀ c, dry_within send_bound c;
  events_dry : ∀ x, idle_within poll_bound x;
}.

Section Ends.
Context {Q : Quiche} `{!QuicheDries Q}.

Definition readings (k : nat) (n : net) : Prop := (length (n_clock n) ≤ k)%nat.

Definition ends {A} (c : prog client A) : Prop :=
  ∀ k, hoare False (λ x, readings k x.2) c (λ _ x, readings k x.2).

Definition nends {A} (c : prog net A) : Prop :=
  ∀ k, hoare False (readings k) c (λ _, readings k).

(** ** Steps *)

Lemma cends_ret {A} (a : A) : ends (mret a).
Proof. intros k. by apply hoare_ret. Qed.

Lemma ends_ok {A} (a : A) : ends (ok a).
Proof. apply cends_ret. Qed.

Lemma ends_err {A} m : ends (err (A:=A) m).
Proof. apply cends_ret. Qed.

Lemma ends_good {A} (a : A) : ends (good a).
Proof. apply cends_ret. Qed.

Lemma ends_fail {A} e : ends (fail (A:=A) e).
Proof. apply cends_ret. Qed.

Lemma cends_panic {A} m : ends (panic m : prog client A).
Proof. done. Qed.

Lemma ends_asks {A} (f : qconn → A) : ends (asks f).
Proof. intros k. by apply hoare_gets. Qed.

Lemma cends_bind {A B} (c : prog client A) (f : A → prog client B) :
  ends c → (∀ a, ends (f a)) → ends (c ≫= f).
Proof. intros Hc Hf k. eapply hoare_bind; [apply Hc|]. intros a. apply Hf. Qed.

Lemma ends_attempt {E A B} (c : prog client (E + A)) (f : A → prog client (E + B)) :
  ends c → (∀ a, ends (f a)) → ends (attempt c f).
Proof. intros Hc Hf. apply cends_bind; [done|]. intros [e|a]; [apply cends_ret|apply Hf]. Qed.

Lemma ends_or_panic {A} (c : prog client (string + A)) : ends c → ends (or_panic c).
Proof. intros Hc. apply cends_bind; [done|]. intros [m|a]; [done|apply cends_ret]. Qed.

Lemma ends_conn {A} (f : qconn → qconn * A) : ends (on_conn f).
Proof. intros k [c n] Hn. unfold on_conn. simpl. by destruct (f c). Qed.

Lemma ends_h3 {A} h3 (f : h3_conn * qconn → h3_conn * qconn * A) : ends (on_h3 h3 f).
Proof. intros k [c n] Hn. unfold on_h3. simpl. by destruct (f (h3, c)) as [[? ?] ?]. Qed.

Lemma ends_net {A} (c : prog net A) : nends c → ends (on_net c).
Proof. intros Hc k. eapply hoare_lift; [apply Hc|done|done]. Qed.

Lemma ends_wrapped {A} what (r : qerror + A) : ends (wrapped what r).
Proof. destruct r; apply cends_ret. Qed.

Lemma ends_sanity_step {A} what (r : qerror + A) : ends (sanity_step what r).
Proof. destruct r; apply cends_ret. Qed.

Lemma nends_ret {A} (a : A) : nends (mret a).
Proof. intros k. by apply hoare_ret. Qed.

Lemma nends_bind {A B} (c : prog net A) (f : A → prog net B) :
  nends c → (∀ a, nends (f a)) → nends (c ≫= f).
Proof. intros Hc Hf k. eapply hoare_bind; [apply Hc|]. intros a. apply Hf. Qed.

Lemma nends_attempt {E A B} (c : prog net (E + A)) (f : A → prog net (E + B)) :
  nends c → (∀ a, nends (f a)) → nends (attempt c f).
Proof. intros Hc Hf. apply nends_bind; [done|]. intros [e|a]; [apply nends_ret|apply Hf]. Qed.

Lemma nends_ok {A} (a : A) : nends (ok a).
Proof. apply nends_ret. Qed.

Lemma nends_err {A} m : nends (err (A:=A) m).
Proof. apply nends_ret. Qed.

Lemma nends_good {A} (a : A) : nends (good a).
Proof. apply nends_ret. Qed.

Lemma nends_fail {A} e : nends (fail (A:=A) e).
Proof. apply nends_ret. Qed.

Lemma nends_same {A} (c : prog net A) :
  (∀ n, match c n with Ret _ n' => n_clock n' = n_clock n | NoFuel => False | _ => True end) → nends c.
Proof.
  intros Hc k n Hn. specialize (Hc n). destruct (c n); try done. unfold readings in *. congruence.
Qed.

Lemma nends_os : nends os_next.
Proof. by apply nends_same. Qed.

Lemma nends_sys {A} (a : A) : nends (sys a).
Proof. apply nends_bind; [apply nends_os|intros; apply nends_ret]. Qed.

Lemma nends_bind_socket ip : nends (bind ip).
Proof. apply nends_bind; [apply nends_os|]. intros [e|]; [apply nends_ret|by apply nends_same]. Qed.

Lemma nends_fill len : nends (fill len).
Proof. apply nends_bind; [apply nends_os|]. intros [e|]; [apply nends_ret|by apply nends_same]. Qed.

Lemma nends_send socket d to : nends (send_to socket d to).
Proof.
  apply nends_bind; [apply nends_os|]. intros [e|]; [apply nends_ret|].
  apply nends_bind; [by apply nends_same|intros; apply nends_ret].
Qed.

Lemma nends_recv : nends recv_from.
Proof. apply nends_same. intros n. unfold recv_from. by destruct (head _) as [[? ?|?]|]. Qed.

Lemma nends_print l : nends (print l).
Proof. by apply nends_same. Qed.

Lemma nends_now : nends now.
Proof. intros k n Hn. unfold now, readings in *. simpl. destruct (n_clock n); simpl in *; lia. Qed.

Lemma nends_deadline ms : nends (deadline_in ms).
Proof. apply nends_bind; [apply nends_now|intros; apply nends_ret]. Qed.

Lemma nends_expect {A} what (c : prog net (os_error + A)) : nends c → nends (expect_call what c).
Proof. intros Hc. apply nends_bind; [done|]. intros [e|a]; apply nends_ret. Qed.

Lemma nends_io {A} (c : prog net (os_error + A)) : nends c → nends (io_call c).
Proof. intros Hc. apply nends_bind; [done|]. intros. apply nends_ret. Qed.

Lemma nends_run {A} (c : qconn) (body : prog client A) : ends body → nends (run_client c body).
Proof.
  intros Hb k n Hn. specialize (Hb k (c, n) Hn). unfold run_client.
  by destruct (body (c, n)) as [a [c' n']| | |].
Qed.

#[local] Hint Resolve cends_ret ends_ok ends_err ends_good ends_fail cends_panic ends_asks ends_or_panic
  ends_conn ends_h3 ends_wrapped ends_sanity_step ends_net : ends.
#[local] Hint Resolve nends_ret nends_ok nends_err nends_good nends_fail nends_os nends_sys
  nends_bind_socket nends_fill nends_send nends_recv nends_print nends_now nends_deadline
  nends_expect nends_io nends_run : ends.

#[local] Ltac ends_steps :=
  repeat first
    [ progress intros
    | progress cbv zeta
    | match goal with
      | |- ends (attempt _ _) => apply ends_attempt
      | |- ends (_ ≫= _) => apply cends_bind
      | |- nends (attempt _ _) => apply nends_attempt
      | |- nends (_ ≫= _) => apply nends_bind
      end
    | solve [auto with ends]
    | match goal with |- context [match ?x with _ => _ end] => destruct x end ].

(** ** Until quiche is dry *)

Definition drying (k n : nat) (x : client) : Prop := readings k x.2 ∧ dry_within n x.1.

Lemma dry_step {A} n k (f : qerror + (bytes * addr) → prog client A) :
  (∀ e, ends (f (inl e))) →
  (∀ out to, hoare False (drying k n) (f (inr (out, to))) (λ _ x, readings k x.2)) →
  hoare False (drying k (S n)) (on_conn (conn_send MAX_DATAGRAM_SIZE) ≫= f) (λ _ x, readings k x.2).
Proof.
  intros He Hs [c m] [Hr Hd]. simpl in *. unfold mbind, prog_bind, on_conn. simpl.
  destruct (conn_send MAX_DATAGRAM_SIZE c) as [c' [e|[out to]]]; [by apply (He e k)|].
  by apply (Hs out to (c', m)).
Qed.

Lemma dry_send {A} n k socket d to (f : os_error + Z → prog client A) :
  (∀ e, ends (f (inl e))) → (∀ z, hoare False (drying k n) (f (inr z)) (λ _ x, readings k x.2)) →
  hoare False (drying k n) (on_net (send_to socket d to) ≫= f) (λ _ x, readings k x.2).
Proof.
  intros He Hs [c m] [Hr Hd]. unfold mbind, prog_bind, on_net, lift. simpl in *.
  pose proof (nends_send socket d to k m Hr) as Hn.
  destruct (send_to socket d to m) as [[e|z] m'| | |]; try done; [by apply (He e k)|].
  by apply (Hs z (c, m')).
Qed.

Lemma dries {A} (c : prog client A) :
  (∀ k, hoare False (drying k send_bound) c (λ _ x, readings k x.2)) → ends c.
Proof. intros Hc k x Hx. apply Hc. split; [done|apply sends_dry]. Qed.

#[local] Ltac dry_loop IH :=
  intros k; apply dry_step; [ends_steps|]; intros out to; apply dry_send; [ends_steps|]; intros z;
  apply IH.

Lemma flush_send_dries socket n k : hoare False (drying k n) (flush_send n socket) (λ _ x, readings k x.2).
Proof. revert k. induction n as [|n IH]; [by intros k x [_ []]|]. simpl. dry_loop IH. Qed.

Lemma flush_dries socket n k : hoare False (drying k n) (flush n socket) (λ _ x, readings k x.2).
Proof. revert k. induction n as [|n IH]; [by intros k x [_ []]|]. simpl. dry_loop IH. Qed.

Lemma capture_flush_dries socket n : ∀ captured k,
  hoare False (drying k n) (capture_flush n socket captured) (λ _ x, readings k x.2).
Proof. induction n as [|n IH]; intros captured; [by intros k x [_ []]|]. simpl. dry_loop IH. Qed.

Lemma drain_outgoing_dries socket n k :
  hoare False (drying k n) (drain_outgoing n socket) (λ _ x, readings k x.2).
Proof. revert k. induction n as [|n IH]; [by intros k x [_ []]|]. simpl. dry_loop IH. Qed.

Lemma sanity_flush_dries socket n k :
  hoare False (drying k n) (sanity_flush n socket) (λ _ x, readings k x.2).
Proof. revert k. induction n as [|n IH]; [by intros k x [_ []]|]. simpl. dry_loop IH. Qed.

Lemma flush_send_ends socket : ends (flush_send send_bound socket).
Proof. apply dries, flush_send_dries. Qed.

Lemma flush_ends socket : ends (flush send_bound socket).
Proof. apply dries, flush_dries. Qed.

Lemma capture_flush_ends socket captured : ends (capture_flush send_bound socket captured).
Proof. apply dries, capture_flush_dries. Qed.

Lemma drain_outgoing_ends socket : ends (drain_outgoing send_bound socket).
Proof. apply dries, drain_outgoing_dries. Qed.

Lemma sanity_flush_ends socket : ends (sanity_flush send_bound socket).
Proof. apply dries, sanity_flush_dries. Qed.

#[local] Hint Resolve flush_send_ends flush_ends capture_flush_ends drain_outgoing_ends
  sanity_flush_ends : ends.

(** ** Until there are no events *)

Definition calming (k n : nat) (h3 : h3_conn) (x : client) : Prop :=
  readings k x.2 ∧ idle_within n (h3, x.1).

Lemma calm_step {A} n k h3 (f : (qerror + (Z * h3_event)) * h3_conn → prog client A) :
  (∀ e h3, ends (f (inl e, h3))) →
  (∀ sid ev h3, hoare False (calming k n h3) (f (inr (sid, ev), h3)) (λ _ x, readings k x.2)) →
  hoare False (calming k (S n) h3) (on_h3 h3 poll ≫= f) (λ _ x, readings k x.2).
Proof.
  intros He Hs [c m] [Hr Hd]. simpl in *. unfold mbind, prog_bind, on_h3. simpl.
  destruct (poll (h3, c)) as [[h3' c'] [e|[sid ev]]]; [by apply (He e h3' k)|].
  by apply (Hs sid ev h3' (c', m)).
Qed.

Lemma drain_events_ends h3 : ends (drain_events poll_bound h3).
Proof.
  assert (Hl : ∀ n k h3, hoare False (calming k n h3) (drain_events n h3) (λ _ x, readings k x.2)).
  { induction n as [|n IH]; intros k h; [by intros x [_ []]|]. simpl.
    apply calm_step; [ends_steps|]. intros. apply IH. }
  intros k x Hx. apply Hl. split; [done|apply events_dry].
Qed.

Lemma status_events_ends h3 stream observed : ends (status_events poll_bound h3 stream observed).
Proof.
  assert (Hl : ∀ n k h3 o, hoare False (calming k n h3) (status_events n h3 stream o) (λ _ x, readings k x.2)).
  { induction n as [|n IH]; intros k h o; [by intros x [_ []]|]. simpl.
    apply calm_step; [ends_steps|]. intros sid [] h'; apply IH. }
  intros k x Hx. apply Hl. split; [done|apply events_dry].
Qed.

Lemma sanity_events_ends h3 saw : ends (sanity_events poll_bound h3 saw).
Proof.
  assert (Hl : ∀ n k h3 o, hoare False (calming k n h3) (sanity_events n h3 o) (λ _ x, readings k x.2)).
  { induction n as [|n IH]; intros k h o; [by intros x [_ []]|]. simpl.
    apply calm_step; [ends_steps|]. intros sid [] h'; apply IH. }
  intros k x Hx. apply Hl. split; [done|apply events_dry].
Qed.

#[local] Hint Resolve drain_events_ends status_events_ends sanity_events_ends : ends.

(** ** Until the deadline *)

(** Ends when at most [k] readings of the clock are left. *)
Definition bounded {A} (k : nat) (c : prog client A) : Prop :=
  hoare False (λ x, readings k x.2) c (λ _ x, readings k x.2).

Lemma bounded_bind {A B} k (c : prog client A) (f : A → prog client B) :
  ends c → (∀ a, bounded k (f a)) → bounded k (c ≫= f).
Proof. intros Hc Hf. eapply hoare_bind; [apply Hc|]. intros a. apply Hf. Qed.

Lemma bounded_attempt {E A B} k (c : prog client (E + A)) (f : A → prog client (E + B)) :
  ends c → (∀ a, bounded k (f a)) → bounded k (attempt c f).
Proof. intros Hc Hf. apply bounded_bind; [done|]. intros [e|a]; [apply cends_ret|apply Hf]. Qed.

(** A round takes a reading. *)
Lemma tick {A} k deadline (stop again : prog client A) :
  ends stop → (∀ k', k = S k' → bounded k' again) →
  bounded k (t ← on_net now; if past t deadline then stop else again).
Proof.
  intros Hs Ha [c n] Hn. unfold mbind, prog_bind, on_net, lift, now, readings in *. simpl in *.
  destruct (n_clock n) as [|t cl] eqn:E; simpl in *.
  - by apply (Hs k).
  - destruct k as [|k]; [lia|]. destruct (match deadline with Some d => d <=? t | None => false end).
    + apply (Hs (S k)). unfold readings. simpl. lia.
    + specialize (Ha k eq_refl (c, {| n_inbox := n_inbox n; n_clock := cl; n_results := n_results n;
        n_ports := n_ports n; n_random := n_random n; n_sent := n_sent n; n_console := n_console n |})).
      unfold readings in Ha. simpl in Ha. specialize (Ha ltac:(lia)).
      destruct (again _) as [a x| | |]; try done. lia.
Qed.

(** A loop with a unit of fuel more than there are readings. *)
Definition clocked {A} (loop : nat → prog client A) : Prop :=
  ∀ fuel k, (k < fuel)%nat → bounded k (loop fuel).

Lemma clocked_ends {A} (loop : nat → prog client A) : clocked loop → ends (clock_fuel ≫= loop).
Proof.
  intros Hl k [c n] Hn. unfold mbind, prog_bind, clock_fuel, gets. simpl in *.
  specialize (Hl (S (length (n_clock n))) (length (n_clock n)) ltac:(lia) (c, n) ltac:(unfold readings; simpl; lia)).
  destruct (loop _ (c, n)) as [a x| | |]; try done. unfold readings in *. lia.
Qed.

#[local] Ltac round :=
  repeat first
    [ progress intros
    | solve [match goal with H : ∀ k, _ → bounded _ _ |- _ => apply H; lia end]
    | solve [match goal with |- bounded ?k ?c => assert (ends c) as Hends by ends_steps; apply Hends end]
    | match goal with
      | |- bounded _ (attempt _ _) => apply bounded_attempt; [solve [ends_steps]|]
      | |- bounded _ (_ ≫= _) => apply bounded_bind; [solve [ends_steps]|]
      end
    | match goal with |- bounded _ (match ?x with _ => _ end) => destruct x end ].

Lemma establish_clocked socket deadline :
  clocked (λ fuel, establish_loop fuel send_bound socket deadline).
Proof.
  intros fuel. induction fuel as [|fuel IH]; intros k Hk; [lia|]. simpl.
  apply bounded_bind; [apply ends_asks|]. intros []; [apply ends_ok|].
  apply tick; [apply ends_ok|]. intros k' ->. round.
Qed.

Lemma probe_clocked socket deadline :
  clocked (λ fuel, probe_loop fuel send_bound socket deadline).
Proof.
  intros fuel. induction fuel as [|fuel IH]; intros k Hk; [lia|]. cbn [probe_loop]. cbv zeta.
  apply bounded_bind; [apply ends_conn|].
  intros [[[| |]|]|]; try apply ends_ok; (apply tick; [apply ends_ok|]); intros k' ->; round.
Qed.

Lemma close_clocked socket deadline :
  clocked (λ fuel, close_loop fuel send_bound socket deadline).
Proof.
  intros fuel. induction fuel as [|fuel IH]; intros k Hk; [lia|]. cbn [close_loop]. cbv zeta.
  apply tick; [apply cends_ret|]. intros k' ->. round.
Qed.

Lemma pump_until_clocked stop socket deadline :
  clocked (λ fuel, pump_until fuel send_bound stop socket deadline).
Proof.
  intros fuel. induction fuel as [|fuel IH]; intros k Hk; [lia|]. simpl.
  apply bounded_bind; [apply ends_asks|]. intros []; [apply ends_good|].
  apply tick; [apply ends_good|]. intros k' ->. unfold pump_once, ingest. round.
Qed.

Lemma ticket_clocked socket deadline : ∀ h3,
  clocked (λ fuel, ticket_loop fuel send_bound poll_bound socket deadline h3).
Proof.
  intros h3 fuel. revert h3. induction fuel as [|fuel IH]; intros h3 k Hk; [lia|]. simpl.
  apply tick; [apply ends_good|]. intros k' ->. unfold pump_once, ingest. round. apply IH. lia.
Qed.

Lemma request_ends config req fin : ends (h3_request config req fin).
Proof. unfold h3_request. ends_steps. Qed.

Lemma ingest_ends socket : ends (ingest socket).
Proof. unfold ingest. ends_steps. Qed.

#[local] Hint Resolve request_ends ingest_ends : ends.

Lemma capture_clocked socket deadline config : ∀ h3 captured,
  clocked (λ fuel, capture_loop fuel send_bound poll_bound socket deadline config h3 captured).
Proof.
  intros h3 captured fuel. revert h3 captured. induction fuel as [|fuel IH]; intros h3 captured k Hk; [lia|].
  simpl. apply tick; [apply ends_good|]. intros k' ->.
  apply bounded_attempt; [unfold request_once; ends_steps|]. intros h3'.
  apply bounded_attempt; [ends_steps|]. intros cap. apply bounded_attempt; [ends_steps|]. intros [].
  apply bounded_bind; [unfold drain_some; ends_steps|]. intros h3''.
  apply hoare_if; intros _; [apply ends_good|]. apply IH. lia.
Qed.

Lemma status_clocked socket deadline config method path body : ∀ h3 observed,
  clocked (λ fuel, status_loop fuel send_bound poll_bound socket deadline config method path body h3 observed).
Proof.
  intros h3 observed fuel. revert h3 observed. induction fuel as [|fuel IH]; intros h3 observed k Hk; [lia|].
  simpl. apply tick; [apply ends_good|]. intros k' ->. apply hoare_if; intros _; [apply ends_good|].
  apply bounded_attempt; [unfold submit_once; ends_steps|]. intros h3'.
  apply bounded_attempt; [ends_steps|]. intros []. apply bounded_attempt; [ends_steps|]. intros [].
  destruct h3' as [[h3' sid]|]; [|apply IH; lia].
  apply bounded_attempt; [ends_steps|]. intros [h3'' o]. apply IH. lia.
Qed.

Lemma sanity_clocked socket deadline : ∀ h3 saw,
  clocked (λ fuel, sanity_loop send_bound poll_bound fuel socket deadline h3 saw).
Proof.
  intros h3 saw fuel. revert h3 saw. induction fuel as [|fuel IH]; intros h3 saw k Hk; [lia|].
  simpl. apply tick; [apply ends_ok|]. intros k' ->. apply hoare_if; intros _; [apply ends_ok|].
  apply bounded_bind; [ends_steps|]. intros ev. apply bounded_attempt; [ends_steps|]. intros [].
  apply bounded_attempt; [ends_steps|]. intros [h3' saw']. apply bounded_bind; [ends_steps|].
  intros []; [apply IH; lia|apply ends_err].
Qed.

(** ** The functions of the library *)

Lemma clocked_then {E A B} (loop : nat → prog client (E + A)) (f : A → prog client (E + B)) :
  clocked loop → (∀ a, ends (f a)) → ends (clock_fuel ≫= λ fuel, attempt (loop fuel) f).
Proof.
  intros Hl Hf. apply (clocked_ends (λ fuel, attempt (loop fuel) f)). intros fuel k Hk.
  eapply hoare_bind; [by apply Hl|]. intros [e|a]; [apply cends_ret|apply Hf].
Qed.

Lemma establish_ends socket : ends (establish send_bound socket).
Proof.
  unfold establish. apply cends_bind; [auto with ends|]. intros deadline.
  apply ends_attempt; [auto with ends|]. intros []. apply clocked_then; [apply establish_clocked|].
  ends_steps.
Qed.

Lemma await_ends socket : ends (await_handshake_keys send_bound socket).
Proof.
  unfold await_handshake_keys. apply cends_bind; [auto with ends|]. intros deadline.
  apply ends_attempt; [auto with ends|]. intros []. apply clocked_then; [apply probe_clocked|].
  ends_steps.
Qed.

Lemma wait_ends socket ms : ends (wait_connection_close send_bound socket ms).
Proof.
  unfold wait_connection_close. apply cends_bind; [auto with ends|]. intros deadline.
  apply cends_bind; [apply ends_or_panic, ends_net, nends_expect, nends_sys|]. intros local.
  apply clocked_ends, close_clocked.
Qed.

Lemma ticket_body_ends socket : ends (ticket_body send_bound poll_bound socket).
Proof.
  unfold ticket_body. apply cends_bind; [auto with ends|]. intros deadline.
  apply ends_attempt; [auto with ends|]. intros []. apply clocked_then; [apply pump_until_clocked|].
  intros []. apply cends_bind; [apply ends_asks|]. intros established. destruct (negb established); [apply ends_fail|].
  apply ends_attempt; [auto with ends|]. intros config. apply ends_attempt; [auto with ends|]. intros [h3 sid].
  apply ends_attempt; [auto with ends|]. intros []. apply clocked_then; [apply ticket_clocked|]. ends_steps.
Qed.

Lemma capture_body_ends socket : ends (capture_body send_bound poll_bound socket).
Proof.
  unfold capture_body. apply cends_bind; [auto with ends|]. intros deadline.
  apply ends_attempt; [auto with ends|]. intros captured. apply ends_attempt; [auto with ends|].
  intros config. apply clocked_then; [apply capture_clocked|]. ends_steps.
Qed.

Lemma seal_body_ends socket : ends (seal_body send_bound socket).
Proof.
  unfold seal_body. apply cends_bind; [auto with ends|]. intros deadline.
  apply ends_attempt; [auto with ends|]. intros []. apply clocked_then; [apply pump_until_clocked|].
  ends_steps.
Qed.

Lemma request_body_ends method path body socket :
  ends (request_body send_bound poll_bound method path body socket).
Proof.
  unfold request_body. apply cends_bind; [auto with ends|]. intros deadline.
  apply ends_attempt; [auto with ends|]. intros []. apply ends_attempt; [auto with ends|].
  intros config. apply clocked_then; [apply status_clocked|]. ends_steps.
Qed.

Lemma sanity_body_ends socket : ends (sanity_body send_bound poll_bound socket).
Proof.
  unfold sanity_body. apply ends_attempt; [auto with ends|]. intros config.
  apply cends_bind; [auto with ends|]. intros r. apply ends_attempt; [auto with ends|]. intros h3.
  apply cends_bind; [auto with ends|]. intros [r' h3']. apply ends_attempt; [auto with ends|]. intros sid.
  apply cends_bind; [auto with ends|]. intros flushed. destruct (negb flushed); [apply ends_err|].
  apply cends_bind; [auto with ends|]. intros deadline.
  apply cends_bind; [apply ends_net, nends_sys|]. intros [e|local]; [apply ends_err|].
  apply clocked_ends, sanity_clocked.
Qed.

Lemma nends_expecting {A B} what (d : A → string) (r : A + B) : nends (expecting what d r).
Proof. destruct r; apply nends_ret. Qed.

Lemma nends_wrapped {A} what (r : qerror + A) : nends (wrapped what r).
Proof. destruct r; apply nends_ret. Qed.

Lemma nends_local_addr socket : nends (local_addr socket).
Proof. apply nends_sys. Qed.

Lemma nends_timeout : nends set_read_timeout.
Proof. apply nends_sys. Qed.

Lemma nends_fails id what : nends (fails id what).
Proof. apply nends_bind; [apply nends_print|intros; apply nends_ret]. Qed.

#[local] Hint Resolve establish_ends await_ends wait_ends ticket_body_ends capture_body_ends
  seal_body_ends request_body_ends sanity_body_ends nends_expecting nends_wrapped nends_local_addr
  nends_timeout nends_fails : ends.

Lemma start_client_ends p : nends (start_client p).
Proof. unfold start_client, build_client_config. ends_steps. Qed.

Lemma open_client_ends server : nends (open_client server).
Proof. unfold open_client, early_config. ends_steps. Qed.

#[local] Hint Resolve start_client_ends open_client_ends : ends.

Lemma connect_ends p : nends (navette_connect send_bound p).
Proof. unfold navette_connect, connected. ends_steps. Qed.

Lemma connect_window_ends p : nends (navette_connect_until_handshake_keys send_bound p).
Proof. unfold navette_connect_until_handshake_keys, connected. ends_steps. Qed.

Lemma ticket_ends server : nends (drive_to_session_ticket send_bound poll_bound server).
Proof. unfold drive_to_session_ticket. ends_steps. Qed.

Lemma resume_ends {A} server blob (body : addr → prog client (io_error + A)) :
  (∀ socket, ends (body socket)) → nends (resume server blob body).
Proof.
  intros Hb. unfold resume. apply nends_attempt; [auto with ends|]. intros [conn socket].
  apply nends_bind; [apply nends_run; ends_steps|]. ends_steps.
Qed.

Lemma replay_ends server ds : nends (replay_datagrams_verbatim server ds).
Proof.
  assert (Hl : ∀ socket, nends (replay_loop socket server ds)).
  { intros socket. induction ds as [|d l IH]; simpl; ends_steps. }
  unfold replay_datagrams_verbatim. ends_steps.
Qed.

Lemma judge_close_ends escaped id tag code outcome : nends (judge_close escaped id tag code outcome).
Proof. unfold judge_close, assert_close, println, eprintln. ends_steps. Qed.

#[local] Hint Resolve connect_ends connect_window_ends ticket_ends resume_ends replay_ends
  judge_close_ends : ends.

(** ** The binaries *)

Definition injection_ends (inj : injection) : Prop := ∀ socket server, ends (inj socket server).

Lemma inject_and_wait_ends escaped id tag code inj conn socket server :
  injection_ends inj → nends (inject_and_wait escaped send_bound id tag code inj conn socket server).
Proof.
  intros Hi. unfold inject_and_wait. apply nends_bind; [|ends_steps].
  apply nends_run, ends_attempt; [apply Hi|]. ends_steps.
Qed.

Lemma established_scenario_ends env escaped id tag code inj :
  injection_ends inj → nends (established_scenario env escaped send_bound id tag code inj).
Proof.
  intros Hi. unfold established_scenario. apply nends_bind; [auto with ends|].
  intros [m|[[conn socket] server]]; [auto with ends|by apply inject_and_wait_ends].
Qed.

Lemma handshake_scenario_ends env escaped id tag code inj :
  injection_ends inj → nends (handshake_scenario env escaped send_bound id tag code inj).
Proof.
  intros Hi. unfold handshake_scenario, or_panic. apply nends_bind.
  - apply nends_bind; [auto with ends|]. intros [m|a]; [done|apply nends_ret].
  - intros [[conn socket] server]. by apply inject_and_wait_ends.
Qed.

Lemma send_encoded_ends name encode socket server : ends (send_encoded name encode socket server).
Proof. unfold send_encoded. ends_steps. Qed.

#[local] Hint Resolve send_encoded_ends : ends.

Lemma inject_frames_ends frames : injection_ends (inject_frames frames).
Proof. intros socket server. unfold inject_frames, send_raw_1rtt. ends_steps. Qed.

Lemma inject_encoded_ends name encode : injection_ends (inject_encoded name encode).
Proof. intros socket server. unfold inject_encoded. ends_steps. Qed.

Lemma frames_row_ends id tag code frames main env escaped :
  main env escaped send_bound
    = established_scenario env escaped send_bound id tag code (inject_frames frames) →
  nends (row_main (frames_row id tag code frames main) env escaped send_bound).
Proof.
  intros Hm. cbn [row_main frames_row]. rewrite Hm. apply established_scenario_ends, inject_frames_ends.
Qed.

Lemma rows_end : Forall (λ r, ∀ env escaped, nends (row_main r env escaped send_bound)) rows.
Proof.
  unfold rows. repeat (apply Forall_cons_2 || apply Forall_nil_2);
    intros env escaped; try (apply frames_row_ends; reflexivity); cbn [row_main].
  - unfold f10_row. cbn [row_main]. unfold s_f10_unknown_frame.
    apply established_scenario_ends. intros socket server. unfold send_raw_1rtt_bytes. ends_steps.
  - unfold f12_row. cbn [row_main]. unfold s_f12_reserved_bits_hs.
    apply handshake_scenario_ends, inject_encoded_ends.
  - unfold f13_row. cbn [row_main]. unfold s_f13_path_challenge_hs.
    apply handshake_scenario_ends, inject_encoded_ends.
  - unfold f14_row. cbn [row_main]. unfold s_f14_reserved_bits_short.
    apply established_scenario_ends, inject_encoded_ends.
  - cbn [row_main frames_row]. unfold s_f19_max_stream_data_recv_only.
    apply established_scenario_ends. intros socket server. unfold inject_frames, send_raw_1rtt. ends_steps.
Qed.

Lemma phase_ends {A} id what (c : prog net (io_error + A)) f :
  nends c → (∀ a, nends (f a)) → nends (phase id what c f).
Proof. intros Hc Hf. unfold phase. apply nends_bind; [done|]. intros [e|a]; [apply nends_fails|apply Hf]. Qed.

Lemma main_call_ends {A} id what (c : prog net (os_error + A)) f :
  nends c → (∀ a, nends (f a)) → nends (main_call id what c f).
Proof. intros Hc Hf. unfold main_call. apply nends_bind; [done|]. intros [e|a]; [apply nends_fails|apply Hf]. Qed.

Lemma printing_ends {A} l (c : prog net A) : nends c → nends (print l;; c).
Proof. intros Hc. apply nends_bind; [apply nends_print|]. by intros []. Qed.

Lemma seal_ends server blob : nends (drive_to_zero_rtt_seal send_bound server blob).
Proof.
  unfold drive_to_zero_rtt_seal. apply nends_attempt; [by auto with ends|]. intros [rc []]. apply nends_good.
Qed.

Lemma f30_ends env escaped : nends (s_f30_crypto_in_zero_rtt env escaped send_bound poll_bound).
Proof.
  unfold s_f30_crypto_in_zero_rtt. cbv zeta. apply phase_ends; [apply ticket_ends|]. intros ticket.
  apply printing_ends, phase_ends; [apply seal_ends|]. intros resumed. apply printing_ends, nends_bind; [|ends_steps].
  apply nends_run. unfold eprintln. ends_steps.
Qed.

Lemma fresh_resumption_ends env : nends (s_zero_rtt_fresh_resumption env send_bound poll_bound).
Proof.
  unfold s_zero_rtt_fresh_resumption. cbv zeta. apply phase_ends; [apply ticket_ends|]. intros t1.
  apply printing_ends, phase_ends; [apply seal_ends|]. intros r1.
  apply printing_ends, phase_ends; [apply ticket_ends|]. intros t2. apply printing_ends.
  destruct (bool_decide (t1 = t2)); [apply nends_fails|].
  apply phase_ends; [apply seal_ends|]. intros r2. do 2 apply printing_ends. apply nends_ret.
Qed.

Lemma status_scenario_ends env id driver method path expect_ pass body expected :
  nends (status_scenario env send_bound poll_bound id driver method path expect_ pass body expected).
Proof.
  unfold status_scenario. cbv zeta. apply phase_ends; [apply ticket_ends|]. intros ticket.
  apply printing_ends, phase_ends; [apply resume_ends; auto with ends|]. intros [rc status].
  destruct (negb _); [apply nends_fails|]. apply printing_ends, nends_ret.
Qed.

Lemma replay_scenario_ends env : nends (s_zero_rtt_replay env send_bound poll_bound).
Proof.
  unfold s_zero_rtt_replay. cbv zeta. apply phase_ends; [apply ticket_ends|]. intros ticket.
  apply printing_ends, phase_ends; [apply resume_ends; auto with ends|]. intros [rc captured].
  apply printing_ends. destruct (is_nil captured); [apply nends_fails|].
  apply phase_ends; [apply replay_ends|]. intros []. apply printing_ends.
  apply main_call_ends; [apply nends_bind_socket|]. intros s1.
  apply main_call_ends; [apply nends_timeout|]. intros [].
  apply nends_bind; [unfold sanity_probe_handshake_succeeds; ends_steps|].
  intros [e|[]]; [apply nends_fails|apply printing_ends, nends_ret].
Qed.

Lemma sanity_get_ends env : nends (sanity_get env send_bound poll_bound).
Proof.
  unfold sanity_get. cbv zeta. apply nends_bind; [apply connect_ends|].
  intros [m|[[conn socket] server]]; [apply nends_fails|].
  apply nends_bind; [apply nends_run, sanity_body_ends|].
  intros [[what|[]] c]; [apply nends_fails|apply printing_ends, nends_ret|apply nends_fails].
Qed.

Lemma nends_run_ends (c : prog net Z) n : nends c → c n ≠ NoFuel.
Proof. intros Hc E. specialize (Hc (length (n_clock n)) n ltac:(unfold readings; lia)). by rewrite E in Hc. Qed.
End Ends.

(** C26: with a QUIC client whose queues are bounded, every raw-frame binary
    ends, whatever the network and the clock do: the bounds of the client are
    enough for the loops that flush and poll, and the readings of the clock
    for the loops that wait. *)
Theorem raw_scenarios_end {Q : Quiche} {D : QuicheDries Q} env escaped n :
  Forall (λ r, row_main r env escaped send_bound n ≠ NoFuel) rows ∧
  s_f30_crypto_in_zero_rtt env escaped send_bound poll_bound n ≠ NoFuel ∧
  s_zero_rtt_fresh_resumption env send_bound poll_bound n ≠ NoFuel ∧
  s_zero_rtt_http_get_accepted env send_bound poll_bound n ≠ NoFuel ∧
  s_zero_rtt_http_post_rejected env send_bound poll_bound n ≠ NoFuel ∧
  s_zero_rtt_replay env send_bound poll_bound n ≠ NoFuel ∧
  sanity_get env send_bound poll_bound n ≠ NoFuel.
Proof.
  split_and!.
  - eapply Forall_impl; [apply rows_end|]. intros r Hr. apply nends_run_ends, Hr.
  - apply nends_run_ends, f30_ends.
  - apply nends_run_ends, fresh_resumption_ends.
  - apply nends_run_ends, status_scenario_ends.
  - apply nends_run_ends, status_scenario_ends.
  - apply nends_run_ends, replay_scenario_ends.
  - apply nends_run_ends, sanity_get_ends.
Qed.

#[global] Instance toy_dries : QuicheDries toy_quiche.
Proof.
  refine {| send_bound := 4; poll_bound := 2 |}.
  - intros c. simpl. destruct c as [to [] k [] e p s l [] r]; by vm_compute.
  - intros [h c]. simpl. unfold toy_poll. by destruct (t_response c).
Defined.

Lemma raw_scenarios_end_witness :
  Forall (λ r, row_main r no_env (λ _, false) (send_bound (Q:=toy_quiche)) f11_net ≠ NoFuel) rows ∧
  s_f30_crypto_in_zero_rtt no_env (λ _, false) (send_bound (Q:=toy_quiche)) (poll_bound (Q:=toy_quiche)) f11_net ≠ NoFuel ∧
  s_zero_rtt_fresh_resumption no_env (send_bound (Q:=toy_quiche)) (poll_bound (Q:=toy_quiche)) f11_net ≠ NoFuel ∧
  s_zero_rtt_http_get_accepted no_env (send_bound (Q:=toy_quiche)) (poll_bound (Q:=toy_quiche)) f11_net ≠ NoFuel ∧
  s_zero_rtt_http_post_rejected no_env (send_bound (Q:=toy_quiche)) (poll_bound (Q:=toy_quiche)) f11_net ≠ NoFuel ∧
  s_zero_rtt_replay no_env (send_bound (Q:=toy_quiche)) (poll_bound (Q:=toy_quiche)) f11_net ≠ NoFuel ∧
  sanity_get no_env (send_bound (Q:=toy_quiche)) (poll_bound (Q:=toy_quiche)) f11_net ≠ NoFuel.
Proof. exact (raw_scenarios_end no_env (λ _, false) f11_net). Defined.
End RawEnds.
