(* ===== verification/H3i.v ===== *)
(** * The HTTP/3 scenarios

    Models [src/conformance/h3i-scenarios]: the shared [loopback_config] and the
    [main] of each binary. The client they drive, h3i, is a third-party crate:
    the class [H3i] has what the scenarios call of it. A [main] builds a list of
    actions, makes one connection with them and judges the summary h3i gives. *)

From S2P Require Import Prelude Effects Utf8 Format TlsScenarios Quiche.
Import Effects Utf8 Format TlsScenarios Quiche.

Module H3i.

(** [quiche::h3::frame::Frame], the variants the scenarios send. *)
Inductive H3Frame :=
  | FData (payload : bytes)
  | FGoAway (id : Z)
  | FCancelPush (push_id : Z)
  | FSettings (max_field_section_size qpack_max_table_capacity qpack_blocked_streams : option Z)
      (connect_protocol_enabled h3_datagram : option Z) (grease : option (Z * Z))
      (additional_settings raw : option (list (Z * Z))).

(** [quiche::ConnectionError] *)
Record ConnectionError := { is_app : bool; conn_error_code : Z; conn_reason : bytes }.

(** What h3i gives. [build] and [connect] fail with the [Debug] of the error;
    [connect] is what this run of the client against the server gives. *)
Class H3i := {
  h3i_config : Type;
  Config_new : h3i_config;
  with_host_port : string → h3i_config → h3i_config;
  with_idle_timeout : Z → h3i_config → h3i_config;
  set_verify_peer : bool → h3i_config → h3i_config;
  build_config : h3i_config → string + h3i_config;
  Action : Type;
  OpenUniStream : Z → bool → Z → Action;
  SendFrame : Z → bool → H3Frame → Action;
  send_headers_frame : Z → bool → list header → Action;
  wait_headers : Z → Action;
  ConnectionSummary : Type;
  sync_connect : h3i_config → list Action → string + ConnectionSummary;
  close_peer_error : ConnectionSummary → option ConnectionError;
  EnrichedHeaders : Type;
  headers_on_stream : Z → ConnectionSummary → list EnrichedHeaders;
  enriched_headers : EnrichedHeaders → list header;
  frames_debug : list EnrichedHeaders → string;
}.

Section Binaries.
Context {H : H3i} (escaped : Z → bool).

(** The process: the connections that were made, with their actions, and what
    was printed. *)
Record process := { p_calls : list (h3i_config * list Action); p_console : list console }.

Definition show (c : console) : prog process unit :=
  modify (λ p, {| p_calls := p_calls p; p_console := p_console p ++ [c] |}).

(** [sync_client::connect(config, actions, None)] *)
Definition call (cfg : h3i_config) (actions : list Action)
  : prog process (string + ConnectionSummary) :=
  modify (λ p, {| p_calls := p_calls p ++ [(cfg, actions)]; p_console := p_console p |});;
  mret (sync_connect cfg actions).

Definition loopback_config (port : Z) : prog process h3i_config :=
  match build_config (set_verify_peer false (with_idle_timeout 2000
          (with_host_port ("127.0.0.1:" +:+ pretty port) Config_new))) with
  | inl e => panic ("h3i config build failed: " +:+ e)
  | inr cfg => mret cfg
  end.

(** The lines of a [main]: the close it wants, a wrong reason, a wrong close,
    no close. *)
Record verdict_lines := {
  on_pass : Z → string → string;
  on_reason : Z → string → string;
  on_close : Z → bool → string;
  on_silence : string;
}.

Definition bool_display (b : bool) : string := if b then "true" else "false".

(** [match summary.conn_close_details.peer_error() { .. }] *)
Definition judge_summary (v : verdict_lines) (expected : Z) (tag : string)
    (summary : ConnectionSummary) : prog process Z :=
  match close_peer_error summary with
  | Some err =>
      let code := conn_error_code err in
      if is_app err && (code =? expected) then
        let reason := from_utf8_lossy (conn_reason err) in
        let shown := text_debug escaped reason in
        if contains reason (string_bytes tag)
        then show (Stdout (on_pass v code shown));; mret 0
        else show (Stderr (on_reason v code shown));; mret 1
      else show (Stderr (on_close v code (is_app err)));; mret 1
  | None => show (Stderr (on_silence v));; mret 1
  end.

(** The connection, and its failure. *)
Definition with_summary (name : string) (actions : list Action)
    (k : ConnectionSummary → prog process Z) : prog process Z :=
  config ← loopback_config 4433;
  r ← call config actions;
  match r with
  | inl e => show (Stderr (name +:+ ": connect failed: " +:+ e));; mret 1
  | inr summary => k summary
  end.

(** ** The binaries *)

Definition plain_lines (name label tag : string) : verdict_lines := {|
  on_pass := λ code r, name +:+ ": PASS code=0x" +:+ text_x code +:+ " reason=" +:+ r;
  on_reason := λ code r, name +:+ ": FAIL code OK (0x" +:+ text_x code +:+ ") but reason " +:+ r
                 +:+ " missing " +:+ text_debug escaped (string_bytes tag);
  on_close := λ code app, name +:+ ": FAIL got code=0x" +:+ text_x code +:+ " is_app="
                +:+ bool_display app +:+ ", expected " +:+ label +:+ " app";
  on_silence := name +:+ ": FAIL no peer close";
|}.

Definition plain_scenario (name label tag : string) (expected : Z) (actions : list Action)
  : prog process Z :=
  with_summary name actions (judge_summary (plain_lines name label tag) expected tag).

Definition H3_FRAME_UNEXPECTED : Z := 0x0105.
Definition H3_MISSING_SETTINGS : Z := 0x010A.
Definition H3_STREAM_CREATION_ERROR : Z := 0x0103.
Definition REQUEST_STREAM_ID : Z := 0.
Definition CLIENT_CONTROL_STREAM_ID : Z := 2.
Definition FIRST_CONTROL_STREAM_ID : Z := 2.
Definition SECOND_CONTROL_STREAM_ID : Z := 6.
Definition STREAM_TYPE_CONTROL : Z := 0x00.

Definition s_f31_data_before_headers : prog process Z :=
  plain_scenario "s_f31" "H3_FRAME_UNEXPECTED (0x0105)" "[H3-DATA-BEFORE-HEADERS]"
    H3_FRAME_UNEXPECTED [SendFrame REQUEST_STREAM_ID false (FData (string_bytes "oops"))].

Definition open_control : Action :=
  OpenUniStream CLIENT_CONTROL_STREAM_ID false STREAM_TYPE_CONTROL.

Definition send_control (f : H3Frame) : Action := SendFrame CLIENT_CONTROL_STREAM_ID false f.

Definition s_f32_first_control_frame_not_settings : prog process Z :=
  plain_scenario "s_f32" "H3_MISSING_SETTINGS (0x010A)" "[H3-CTRL-NO-SETTINGS]"
    H3_MISSING_SETTINGS [open_control; send_control (FGoAway 0)].

Definition settings_with (blocked : Z) : H3Frame :=
  FSettings None (Some 0) (Some blocked) None None None None None.

Definition pinned_settings : H3Frame :=
  FSettings None (Some 0) (Some 0) None None None None None.

Definition s_f33_data_on_control_stream : prog process Z :=
  plain_scenario "s_f33" "H3_FRAME_UNEXPECTED (0x0105)" "[H3-DATA-ON-CTRL]" H3_FRAME_UNEXPECTED
    [open_control; send_control pinned_settings; send_control (FData (string_bytes "x"))].

Definition new_header (name value : string) : header := (string_bytes name, string_bytes value).

Definition s_f34_headers_on_control_stream : prog process Z :=
  plain_scenario "s_f34" "H3_FRAME_UNEXPECTED (0x0105)" "[H3-HEADERS-ON-CTRL]" H3_FRAME_UNEXPECTED
    [open_control; send_control pinned_settings;
     send_headers_frame CLIENT_CONTROL_STREAM_ID false [new_header ":method" "GET"]].

Definition s_f35_second_settings_frame : prog process Z :=
  plain_scenario "s_f35" "H3_FRAME_UNEXPECTED (0x0105)" "[H3-SECOND-SETTINGS]" H3_FRAME_UNEXPECTED
    [open_control; send_control (settings_with 0); send_control (settings_with 1)].

Definition s_f36_cancel_push_on_request : prog process Z :=
  plain_scenario "s_f36" "H3_FRAME_UNEXPECTED (0x0105)" "[H3-CANCEL-PUSH-REQ]" H3_FRAME_UNEXPECTED
    [send_headers_frame REQUEST_STREAM_ID false
       [new_header ":method" "GET"; new_header ":scheme" "https";
        new_header ":authority" "localhost"; new_header ":path" "/"];
     SendFrame REQUEST_STREAM_ID false (FCancelPush 0)].

Definition c9_lines : verdict_lines :=
  let name := "c9_double_control_stream: " in {|
  on_pass := λ code r, name +:+ "PASS (peer closed with H3_STREAM_CREATION_ERROR 0x"
               +:+ text_x code +:+ ", reason=" +:+ r +:+ ")";
  on_reason := λ code r, name +:+ "FAIL (peer closed with H3_STREAM_CREATION_ERROR 0x"
                 +:+ text_x code +:+ " but reason " +:+ r +:+ " does not contain "
                 +:+ text_debug escaped (string_bytes "control stream")
                 +:+ " — guard may be misrouted to the qpack-encoder/decoder branch)";
  on_close := λ code app, name +:+ "FAIL (peer closed with code 0x" +:+ text_x code
                +:+ " is_app=" +:+ bool_display app +:+ ", expected H3_STREAM_CREATION_ERROR 0x"
                +:+ text_x H3_STREAM_CREATION_ERROR +:+ ")";
  on_silence := name +:+ "FAIL (no peer connection close — navette did not detect the second "
                  +:+ "control stream)";
|}.

Definition c9_double_control_stream : prog process Z :=
  with_summary "c9_double_control_stream"
    [OpenUniStream FIRST_CONTROL_STREAM_ID false STREAM_TYPE_CONTROL;
     OpenUniStream SECOND_CONTROL_STREAM_ID false STREAM_TYPE_CONTROL]
    (judge_summary c9_lines H3_STREAM_CREATION_ERROR "control stream").

Definition status_200 (h : header) : bool :=
  bool_decide (h.1 = string_bytes ":status") && bool_decide (h.2 = string_bytes "200").

Definition sanity_get_main : prog process Z :=
  with_summary "sanity_get"
    [send_headers_frame 0 true
       [new_header ":method" "GET"; new_header ":scheme" "https";
        new_header ":authority" "127.0.0.1"; new_header ":path" "/"];
     wait_headers 0]
    (λ summary,
     let received := headers_on_stream 0 summary in
     let got_200 := existsb (λ eh, existsb status_200 (enriched_headers eh)) received in
     if got_200 then
       show (Stdout "sanity_get: PASS (handshake + 200 OK observed on stream 0)");; mret 0
     else
       show (Stderr "sanity_get: FAIL (no :status=200 HEADERS frame on stream 0)");;
       show (Stderr ("frames seen: " +:+ frames_debug received));; mret 1).
End Binaries.

(** ** What a verdict says *)
Section Facts.
Context {H : H3i}.

Definition loopback_built : string + h3i_config :=
  build_config (set_verify_peer false (with_idle_timeout 2000
    (with_host_port "127.0.0.1:4433" Config_new))).

(** The close a scenario wants: by the application, with the code, the reason
    holding the tag. *)
Definition closed_with (code : Z) (tag : string) (summary : ConnectionSummary) : Prop :=
  ∃ err, close_peer_error summary = Some err ∧ is_app err = true ∧ conn_error_code err = code ∧
    contains (from_utf8_lossy (conn_reason err)) (string_bytes tag) = true.

(** A response with status 200 on stream 0. *)
Definition answered_200 (summary : ConnectionSummary) : Prop :=
  ∃ eh, eh ∈ headers_on_stream 0 summary ∧
    (string_bytes ":status", string_bytes "200") ∈ enriched_headers eh.

(** A scenario: what it sends, what it wants, its [main]. *)
Record h3_row := {
  h_actions : list Action;
  h_wants : ConnectionSummary → Prop;
  h_main : (Z → bool) → prog process Z;
}.

Definition get_request (authority : string) : list header :=
  [new_header ":method" "GET"; new_header ":scheme" "https"; new_header ":authority" authority;
   new_header ":path" "/"].

(** The settings frame with which the control stream opens. *)
Definition settings (blocked : Z) : Action :=
  SendFrame 2 false (FSettings None (Some 0) (Some blocked) None None None None None).

Definition h3_rows : list h3_row := [
  {| h_actions := [OpenUniStream 2 false 0; OpenUniStream 6 false 0];
     h_wants := closed_with 0x103 "control stream"; h_main := c9_double_control_stream |};
  {| h_actions := [SendFrame 0 false (FData (string_bytes "oops"))];
     h_wants := closed_with 0x105 "[H3-DATA-BEFORE-HEADERS]"; h_main := s_f31_data_before_headers |};
  {| h_actions := [OpenUniStream 2 false 0; SendFrame 2 false (FGoAway 0)];
     h_wants := closed_with 0x10A "[H3-CTRL-NO-SETTINGS]";
     h_main := s_f32_first_control_frame_not_settings |};
  {| h_actions := [OpenUniStream 2 false 0; settings 0; SendFrame 2 false (FData (string_bytes "x"))];
     h_wants := closed_with 0x105 "[H3-DATA-ON-CTRL]"; h_main := s_f33_data_on_control_stream |};
  {| h_actions := [OpenUniStream 2 false 0; settings 0;
                   send_headers_frame 2 false [new_header ":method" "GET"]];
     h_wants := closed_with 0x105 "[H3-HEADERS-ON-CTRL]"; h_main := s_f34_headers_on_control_stream |};
  {| h_actions := [OpenUniStream 2 false 0; settings 0; settings 1];
     h_wants := closed_with 0x105 "[H3-SECOND-SETTINGS]"; h_main := s_f35_second_settings_frame |};
  {| h_actions := [send_headers_frame 0 false (get_request "localhost"); SendFrame 0 false (FCancelPush 0)];
     h_wants := closed_with 0x105 "[H3-CANCEL-PUSH-REQ]"; h_main := s_f36_cancel_push_on_request |};
  {| h_actions := [send_headers_frame 0 true (get_request "127.0.0.1"); wait_headers 0];
     h_wants := answered_200; h_main := λ _, sanity_get_main |}
].

(** How a judgement of a summary ends. *)
Definition decides (wants : ConnectionSummary → Prop) (k : ConnectionSummary → prog process Z) : Prop :=
  ∀ summary p, ∃ code lines,
    k summary p = Ret code {| p_calls := p_calls p; p_console := p_console p ++ lines |} ∧
    ((code = 0 ∧ wants summary ∧ ∃ t, lines = [Stdout t]) ∨
     (code = 1 ∧ ¬ wants summary ∧ ∃ t ts, lines = Stderr <$> t :: ts)).

Lemma judge_decides escaped v code tag :
  decides (closed_with code tag) (judge_summary escaped v code tag).
Proof.
  intros summary [calls printed]. unfold judge_summary, closed_with.
  destruct (close_peer_error summary) as [[app c r]|] eqn:E; cbn [is_app conn_error_code conn_reason].
  - destruct (app && (c =? code)) eqn:Ec; [destruct (contains _ _) eqn:Et|]; do 2 eexists; (split; [reflexivity|]).
    + left. apply andb_true_iff in Ec as [-> ->%Z.eqb_eq]. eauto 10.
    + right. split; [done|]. split; [|by eexists _, []]. intros (err & [= <-] & _ & _ & Ht). simpl in Ht. congruence.
    + right. split; [done|]. split; [|by eexists _, []]. intros (err & [= <-] & Ha & Hc & _). simpl in *.
      subst. by rewrite Z.eqb_refl in Ec.
  - do 2 eexists. split; [reflexivity|]. right. split; [done|]. split; [by intros (? & ? & _)|by eexists _, []].
Qed.

Lemma got_200_spec l :
  existsb (λ eh, existsb status_200 (enriched_headers eh)) l = true ↔
  ∃ eh, eh ∈ l ∧ (string_bytes ":status", string_bytes "200") ∈ enriched_headers eh.
Proof.
  rewrite existsb_exists. setoid_rewrite existsb_exists. setoid_rewrite <- list_elem_of_In.
  unfold status_200. split.
  - intros (eh & Hin & [n v] & Hh & [Hn%bool_decide_eq_true Hv%bool_decide_eq_true]%andb_true_iff).
    simpl in *. subst. by exists eh.
  - intros (eh & Hin & Hh). exists eh. split; [done|]. eexists. split; [exact Hh|].
    by rewrite !bool_decide_true.
Qed.

Lemma with_summary_decides name actions wants k cfg p :
  decides wants k → loopback_built = inr cfg →
  ∃ code lines,
    with_summary name actions k p
      = Ret code {| p_calls := p_calls p ++ [(cfg, actions)]; p_console := p_console p ++ lines |} ∧
    (code = 0 ∨ code = 1) ∧
    (code = 0 ↔ ∃ summary, sync_connect cfg actions = inr summary ∧ wants summary) ∧
    (code = 0 ↔ ∃ t, lines = [Stdout t]).
Proof.
  intros Hk Hb. unfold with_summary, loopback_config.
  change ("127.0.0.1:" +:+ pretty 4433) with "127.0.0.1:4433".
  fold loopback_built. rewrite Hb. cbn. unfold call, mbind, prog_bind, modify. cbn.
  destruct (sync_connect cfg actions) as [e|summary] eqn:E.
  - do 2 eexists. split; [reflexivity|]. split; [by right|].
    split; split; try done; [by intros (? & ? & _)|by intros [? [=]]].
  - destruct (Hk summary {| p_calls := p_calls p ++ [(cfg, actions)]; p_console := p_console p |})
      as (code & lines & -> & Hv).
    exists code, lines. split; [done|].
    destruct Hv as [(-> & Hw & Hl)|(-> & Hw & t & ts & ->)].
    + split; [by left|]. split; split; eauto.
    + split; [by right|]. split; split; try done; [intros (? & [= <-] & ?); done|by intros [? [=]]].
Qed.
End Facts.

(** Every [main] is [with_summary] with its own judgement. *)
Definition judged_by `{H : H3i} (r : h3_row) : Prop := ∀ escaped, ∃ name k,
  decides (h_wants r) k ∧ h_main r escaped = with_summary name (h_actions r) k.

Lemma h3_rows_judged `{H : H3i} : Forall judged_by h3_rows.
Proof.
  unfold h3_rows.
  do 7 (constructor; [intros escaped; do 2 eexists; split; [apply judge_decides|reflexivity]|]).
  constructor; [|constructor]. intros escaped. do 2 eexists. split; [|reflexivity].
  intros summary [calls printed]. unfold h_wants, answered_200.
  pose proof (got_200_spec (headers_on_stream 0 summary)) as Hspec.
  destruct (existsb _ _).
  - do 2 eexists. split; [reflexivity|]. left. split; [done|]. split; [by apply Hspec|eauto].
  - exists 1. eexists [Stderr _; Stderr _]. split.
    + unfold show, mbind, prog_bind, modify, mret, prog_ret. cbn [p_console p_calls].
      by rewrite <- app_assoc.
    + right. split; [done|]. split; [by intros Hw%Hspec|by eexists _, [_]].
Qed.

(** C28: an HTTP/3 scenario ends whatever h3i reports, having made one
    connection to port 4433 of the loopback with its own actions; it exits with
    0 or 1, with 0 exactly when the summary has what the scenario is about (a
    close by the application with its code and its tag, or a 200 on stream 0),
    and prints one line on standard output exactly when it exits with 0. *)
Theorem h3_verdicts_exact `{H : H3i} r escaped cfg p :
  r ∈ h3_rows → loopback_built = inr cfg →
  ∃ code lines,
    h_main r escaped p
      = Ret code {| p_calls := p_calls p ++ [(cfg, h_actions r)]; p_console := p_console p ++ lines |} ∧
    (code = 0 ∨ code = 1) ∧
    (code = 0 ↔ ∃ summary, sync_connect cfg (h_actions r) = inr summary ∧ h_wants r summary) ∧
    (code = 0 ↔ ∃ t, lines = [Stdout t]).
Proof.
  intros Hr Hb. destruct (proj1 (Forall_forall _ _) h3_rows_judged r Hr escaped) as (name & k & Hk & ->).
  by apply with_summary_decides.
Qed.

(** ** A server with the rules of RFC 9114 the scenarios are about *)

(** The rules, and a server that lacks some of them. *)
Inductive rule :=
  | OneControl | HeadersFirst | SettingsFirst | NoDataOnControl | NoHeadersOnControl
  | OneSettings | NoPushOnRequest.

#[global] Instance rule_eq_dec : EqDecision rule.
Proof. solve_decision. Defined.

Inductive toy_action :=
  | Open (stream : Z)
  | Frame (stream : Z) (f : H3Frame)
  | SendHeaders (stream : Z)
  | Await.

Record h3_server := { control : bool; settled : bool; request : bool }.

(** The rule an action breaks, and the server after it. *)
Definition broken (a : toy_action) (s : h3_server) : option (rule * Z * string) :=
  match a with
  | Open _ => if control s then Some (OneControl, 0x103, "duplicate control stream") else None
  | Frame 0 (FData _) => if request s then None else Some (HeadersFirst, 0x105, "[H3-DATA-BEFORE-HEADERS]")
  | Frame 0 (FCancelPush _) => Some (NoPushOnRequest, 0x105, "[H3-CANCEL-PUSH-REQ]")
  | Frame 2 (FSettings _ _ _ _ _ _ _ _) =>
      if settled s then Some (OneSettings, 0x105, "[H3-SECOND-SETTINGS]") else None
  | Frame 2 f =>
      if settled s then
        match f with FData _ => Some (NoDataOnControl, 0x105, "[H3-DATA-ON-CTRL]") | _ => None end
      else Some (SettingsFirst, 0x10A, "[H3-CTRL-NO-SETTINGS]")
  | SendHeaders 2 => Some (NoHeadersOnControl, 0x105, "[H3-HEADERS-ON-CTRL]")
  | _ => None
  end.

Definition after (a : toy_action) (s : h3_server) : h3_server :=
  {| control := match a with Open _ => true | _ => control s end;
     settled := match a with Frame 2 (FSettings _ _ _ _ _ _ _ _) => true | _ => settled s end;
     request := match a with SendHeaders 0 => true | _ => request s end |}.

Fixpoint serve (lacks : list rule) (l : list toy_action) (s : h3_server) : option ConnectionError * bool :=
  match l with
  | [] => (None, request s)
  | a :: l =>
      match broken a s with
      | Some (g, code, reason) =>
          if bool_decide (g ∈ lacks) then serve lacks l (after a s)
          else (Some {| is_app := true; conn_error_code := code; conn_reason := string_bytes reason |}, false)
      | None => serve lacks l (after a s)
      end
  end.

Definition toy_h3i (lacks : list rule) : H3i := {|
  h3i_config := unit; Config_new := tt; with_host_port := λ _ c, c; with_idle_timeout := λ _ c, c;
  set_verify_peer := λ _ c, c; build_config := inr;
  Action := toy_action; OpenUniStream := λ s _ _, Open s; SendFrame := λ s _ f, Frame s f;
  send_headers_frame := λ s _ _, SendHeaders s; wait_headers := λ _, Await;
  ConnectionSummary := option ConnectionError * bool;
  sync_connect := λ _ l, inr (serve lacks l {| control := false; settled := false; request := false |});
  close_peer_error := fst;
  EnrichedHeaders := list header;
  headers_on_stream := λ _ s, if s.2 then [[(string_bytes ":status", string_bytes "200")]] else [];
  enriched_headers := id; frames_debug := λ _, "[]";
|}.

Definition exits (lacks : list rule) : list (option Z) :=
  (λ r, result_of (h_main r (λ _, false) {| p_calls := []; p_console := [] |}))
    <$> h3_rows (H:=toy_h3i lacks).

(** Every scenario passes against the server with all the rules, and dropping
    one rule fails the scenario about it and no other. *)
Example rules_told_apart :
  let only_fails i := <[i := Some 1]> (replicate 8 (Some 0)) in
  exits [] = replicate 8 (Some 0) ∧ exits [OneControl] = only_fails 0%nat ∧
  exits [HeadersFirst] = only_fails 1%nat ∧ exits [SettingsFirst] = only_fails 2%nat ∧
  exits [NoDataOnControl] = only_fails 3%nat ∧ exits [NoHeadersOnControl] = only_fails 4%nat ∧
  exits [OneSettings] = only_fails 5%nat ∧ exits [NoPushOnRequest] = only_fails 6%nat.
Proof. split_and!; by_eval. Qed.

Definition f32_row : h3_row (H:=toy_h3i []) :=
  default {| h_actions := []; h_wants := λ _, False; h_main := λ _, mret 0 |} (h3_rows !! 2%nat).

#[local] Abbreviation strict := (toy_h3i []).

Definition at_start : process (H:=strict) := @Build_process strict [] [].

Lemma h3_verdicts_exact_witness :
  ∃ code lines,
    h_main f32_row (λ _, false) at_start
      = Ret code (@Build_process strict ([] ++ [(tt, h_actions f32_row)]) ([] ++ lines)) ∧
    (code = 0 ∨ code = 1) ∧
    (code = 0 ↔ ∃ summary, sync_connect (H3i:=strict) tt (h_actions f32_row) = inr summary ∧
                           h_wants f32_row summary) ∧
    (code = 0 ↔ ∃ t, lines = [Stdout t]).
Proof.
  apply (h3_verdicts_exact (H:=strict) f32_row (λ _, false) tt at_start).
  - apply (list_elem_of_lookup_2 _ 2%nat). reflexivity.
  - reflexivity.
Defined.
End H3i.
