(* ===== verification/Compress.v ===== *)
(** * The compression shim

    [src/crates/libcompress-mojo/src]: streaming gzip and brotli decoders over
    the system's zlib and libbrotlidec ([zlib_wrapper.c], [brotli_wrapper.c]),
    with caps on what a decoder takes and gives, a last error per thread
    ([last_error.c]) and the tests of the crate ([lib.rs]). The two libraries are
    the class [Codecs]. Decoder states are objects of a heap of their own, [size_t]
    is 64 bits and [uInt] 32 bits wide. *)

From S2P Require Import Prelude Effects Utf8.
Import Effects Utf8.

Module Compress.

Definition as_i64 (z : Z) : Z := (z + 2 ^ 63) mod 2 ^ 64 - 2 ^ 63.

(** zlib's return codes and flush modes, brotli's results. *)
Definition Z_OK : Z := 0.
Definition Z_STREAM_END : Z := 1.
Definition Z_BUF_ERROR : Z := -5.
Inductive flush_mode := Z_NO_FLUSH | Z_FINISH.
Inductive BrotliDecoderResult :=
  | BROTLI_DECODER_RESULT_ERROR | BROTLI_DECODER_RESULT_SUCCESS
  | BROTLI_DECODER_RESULT_NEEDS_MORE_INPUT | BROTLI_DECODER_RESULT_NEEDS_MORE_OUTPUT.

(** A call of a decoder is given the available input and the room for output; it
    answers with how much of the input it consumed and what it wrote. *)
Class Codecs := {
  zstream : Type;
  inflateInit2 : Z → zstream;
  inflate : zstream → flush_mode → bytes → Z → zstream * Z * bytes * Z;
  brotli : Type;
  BrotliDecoderCreateInstance : brotli;
  BrotliDecoderDecompressStream : brotli → bytes → Z → brotli * Z * bytes * BrotliDecoderResult;
}.

(** Neither library reads or writes more than it is given. *)
Class CodecLaws (C : Codecs) := {
  inflate_room : ∀ z f inp room z' used out rc,
    0 ≤ room → inflate z f inp room = (z', used, out, rc) → 0 ≤ used ≤ zlen inp ∧ zlen out ≤ room;
  brotli_room : ∀ b inp room b' used out rc,
    0 ≤ room → BrotliDecoderDecompressStream b inp room = (b', used, out, rc) →
    0 ≤ used ≤ zlen inp ∧ zlen out ≤ room;
}.

(** ** State *)

(** The counters and caps both structs have; a cap of 0 is no cap. *)
Record counters := {
  in_total : Z; out_total : Z; input_cap : Z; output_cap : Z; ratio_x100 : Z;
}.

Definition add_in (n : Z) (c : counters) : counters :=
  {| in_total := as_u64 (in_total c + n); out_total := out_total c; input_cap := input_cap c;
     output_cap := output_cap c; ratio_x100 := ratio_x100 c |}.
Definition add_out (n : Z) (c : counters) : counters :=
  {| in_total := in_total c; out_total := as_u64 (out_total c + n); input_cap := input_cap c;
     output_cap := output_cap c; ratio_x100 := ratio_x100 c |}.

Section Shim.
Context {C : Codecs}.

(** Of [z_stream], the fields that outlive a call. *)
Record GzipState := {
  zs : zstream; zs_avail_in : Z; inited : bool; gz_finished : bool; gz_counters : counters;
}.

Record BrotliState := { bs : brotli; br_finished : bool; br_counters : counters }.

(** The process: memory, the live decoders, the address the next one gets, which
    allocations succeed, and the thread's last error. *)
Record lcm := {
  l_mem : gmap N bytes;
  l_gzip : gmap N GzipState;
  l_br : gmap N BrotliState;
  l_next : N;
  l_alloc : list bool;
  g_err : bytes;
  g_err_len : Z;
}.

Definition set_l_mem m (l : lcm) : lcm :=
  {| l_mem := m; l_gzip := l_gzip l; l_br := l_br l; l_next := l_next l; l_alloc := l_alloc l;
     g_err := g_err l; g_err_len := g_err_len l |}.
Definition set_gzip g (l : lcm) : lcm :=
  {| l_mem := l_mem l; l_gzip := g; l_br := l_br l; l_next := l_next l; l_alloc := l_alloc l;
     g_err := g_err l; g_err_len := g_err_len l |}.
Definition set_br b (l : lcm) : lcm :=
  {| l_mem := l_mem l; l_gzip := l_gzip l; l_br := b; l_next := l_next l; l_alloc := l_alloc l;
     g_err := g_err l; g_err_len := g_err_len l |}.
Definition set_err e n (l : lcm) : lcm :=
  {| l_mem := l_mem l; l_gzip := l_gzip l; l_br := l_br l; l_next := l_next l; l_alloc := l_alloc l;
     g_err := e; g_err_len := n |}.
Definition set_alloc a n (l : lcm) : lcm :=
  {| l_mem := l_mem l; l_gzip := l_gzip l; l_br := l_br l; l_next := n; l_alloc := a;
     g_err := g_err l; g_err_len := g_err_len l |}.

(** What a library reads and writes of the caller's memory. *)
Definition read_bytes (p : ptr) (n : Z) : prog lcm bytes := λ l,
  if n =? 0 then Ret [] l
  else match load (l_mem l) p n with Some b => Ret b l | None => Undef end.
Definition write_bytes (p : ptr) (b : bytes) : prog lcm unit := λ l,
  match b with
  | [] => Ret tt l
  | _ => match store (l_mem l) p b with Some m => Ret tt (set_l_mem m l) | None => Undef end
  end.

(** An address is fresh, or the allocation fails. *)
Definition alloc : prog lcm (option N) := λ l,
  let l' := set_alloc (tail (l_alloc l)) (l_next l + 1)%N l in
  if default true (head (l_alloc l)) then Ret (Some (l_next l)) l' else Ret None l'.

(** An object of the heap; using one that was freed is undefined. *)
Definition object {A} (heap : lcm → gmap N A) (a : N) : prog lcm A := λ l,
  match heap l !! a with Some x => Ret x l | None => Undef end.

(** ** last_error.c *)

Definition LCM_ERR_BUF : Z := 512.

(** [strnlen] *)
Fixpoint strnlen (s : bytes) (n : nat) : nat :=
  match n, s with
  | Datatypes.S n, b :: s => if b =? 0 then 0%nat else Datatypes.S (strnlen s n)
  | _, _ => 0%nat
  end.

Definition lcm_set_last_error (msg : option bytes) : prog lcm unit :=
  match msg with
  | None => modify (λ l, set_err (splice 0 [0] (g_err l)) 0 l)
  | Some msg =>
      let n := Z.of_nat (strnlen msg (Z.to_nat (LCM_ERR_BUF - 1))) in
      modify (λ l, set_err (splice n [0] (splice 0 (sub 0 n msg) (g_err l))) (n + 1) l)
  end.

Definition lcm_last_error (out_buf : ptr) (buf_len : Z) : prog lcm Z :=
  n ← gets g_err_len;
  if is_null out_buf || (buf_len <=? 0) || (n <=? 0) then mret 0
  else if buf_len <? n then mret 0
  else
    e ← gets g_err;
    write_bytes out_buf (sub 0 n e);;
    mret n.

(** [lcm_set_last_error(msg); return r;] *)
Definition fail {A} (msg : string) (r : A) : prog lcm A :=
  lcm_set_last_error (Some (string_bytes msg));; mret r.

(** ** The caps *)

Definition check_caps_of (who : string) (c : counters) : prog lcm Z :=
  if negb (input_cap c =? 0) && (input_cap c <? in_total c) then fail (who +:+ ": input cap exceeded") (-2)
  else if negb (output_cap c =? 0) && (output_cap c <? out_total c) then
    fail (who +:+ ": output cap exceeded") (-3)
  else if negb (ratio_x100 c =? 0) && (1024 <=? in_total c) &&
          (as_u64 (in_total c * ratio_x100 c) / 100 <? out_total c) then
    fail (who +:+ ": ratio cap exceeded") (-4)
  else mret 0.

Definition check_caps (s : GzipState) : prog lcm Z := check_caps_of "lcm_gzip" (gz_counters s).
Definition check_caps_br (s : BrotliState) : prog lcm Z := check_caps_of "lcm_br" (br_counters s).

(** ** zlib_wrapper.c *)

Definition put_gzip (a : N) (s : GzipState) : prog lcm unit := modify (λ l, set_gzip (<[a := s]> (l_gzip l)) l).

Definition with_gz_counters (s : GzipState) (c : counters) : GzipState :=
  {| zs := zs s; zs_avail_in := zs_avail_in s; inited := inited s; gz_finished := gz_finished s;
     gz_counters := c |}.

Definition lcm_gzip_init (input_cap output_cap ratio_x100 : Z) : prog lcm (option N) :=
  o ← alloc;
  match o with
  | None => fail "lcm_gzip_init: out of memory" None
  | Some a =>
      ok ← alloc;
      match ok with
      | None => fail "lcm_gzip_init: inflateInit2 failed" None
      | Some _ =>
          put_gzip a {| zs := inflateInit2 (15 + 32); zs_avail_in := 0; inited := true; gz_finished := false;
                        gz_counters := {| in_total := 0; out_total := 0; input_cap := input_cap;
                                          output_cap := output_cap; ratio_x100 := ratio_x100 |} |};;
          mret (Some a)
      end
  end.

(** The [inflate] of [feed] and [finish] and what follows it. *)
Definition gzip_inflate (who : string) (a : N) (s : GzipState) (f : flush_mode) (input : bytes)
    (out_ptr : ptr) (out_cap : Z) : prog lcm Z :=
  let avail_out := as_u32 out_cap in
  let '(z, used, out, rc) := inflate (zs s) f input avail_out in
  write_bytes out_ptr out;;
  let avail_in := zlen input - used in
  let s := {| zs := z; zs_avail_in := avail_in; inited := inited s; gz_finished := gz_finished s;
              gz_counters := gz_counters s |} in
  put_gzip a s;;
  if negb (rc =? Z_OK) && negb (rc =? Z_STREAM_END) && negb (rc =? Z_BUF_ERROR) then
    fail (who +:+ ": inflate error") (-1)
  else
    let avail_out := avail_out - zlen out in
    let written := as_usize (out_cap - avail_out) in
    let s := {| zs := z; zs_avail_in := avail_in; inited := inited s;
                gz_finished := (rc =? Z_STREAM_END) || gz_finished s;
                gz_counters := add_out written (gz_counters s) |} in
    put_gzip a s;;
    cap_err ← check_caps s;
    if negb (cap_err =? 0) then mret cap_err else mret (as_i64 written).

Definition lcm_gzip_feed (s : option N) (in_ptr : ptr) (in_len : Z) (out_ptr : ptr) (out_cap : Z)
  : prog lcm Z :=
  match s with
  | None => fail "lcm_gzip_feed: bad args" (-1)
  | Some a =>
      s ← object l_gzip a;
      if negb (inited s) || is_null out_ptr then fail "lcm_gzip_feed: bad args" (-1)
      else if (0 <? in_len) && is_null in_ptr then
        fail "lcm_gzip_feed: in_ptr NULL with in_len > 0" (-1)
      else if gz_finished s then mret 0
      else
        let s := with_gz_counters s (add_in in_len (gz_counters s)) in
        put_gzip a s;;
        if negb (input_cap (gz_counters s) =? 0) && (input_cap (gz_counters s) <? in_total (gz_counters s))
        then fail "lcm_gzip: input cap exceeded" (-2)
        else
          input ← read_bytes in_ptr (as_u32 in_len);
          gzip_inflate "lcm_gzip_feed" a s Z_NO_FLUSH input out_ptr out_cap
  end.

Definition lcm_gzip_finish (s : option N) (out_ptr : ptr) (out_cap : Z) : prog lcm Z :=
  match s with
  | None => fail "lcm_gzip_finish: bad args" (-1)
  | Some a =>
      s ← object l_gzip a;
      if negb (inited s) || is_null out_ptr then fail "lcm_gzip_finish: bad args" (-1)
      else if gz_finished s && (zs_avail_in s =? 0) then mret 0
      else gzip_inflate "lcm_gzip_finish" a s Z_FINISH [] out_ptr out_cap
  end.

Definition lcm_gzip_free (s : option N) : prog lcm unit :=
  match s with
  | None => mret tt
  | Some a => object l_gzip a;; modify (λ l, set_gzip (delete a (l_gzip l)) l)
  end.

(** ** brotli_wrapper.c *)

Definition put_br (a : N) (s : BrotliState) : prog lcm unit := modify (λ l, set_br (<[a := s]> (l_br l)) l).

Definition lcm_br_init (input_cap output_cap ratio_x100 : Z) : prog lcm (option N) :=
  o ← alloc;
  match o with
  | None => fail "lcm_br_init: out of memory" None
  | Some a =>
      ok ← alloc;
      match ok with
      | None => fail "lcm_br_init: BrotliDecoderCreateInstance failed" None
      | Some _ =>
          put_br a {| bs := BrotliDecoderCreateInstance; br_finished := false;
                      br_counters := {| in_total := 0; out_total := 0; input_cap := input_cap;
                                        output_cap := output_cap; ratio_x100 := ratio_x100 |} |};;
          mret (Some a)
      end
  end.

(** The decoder's call of [feed] and [finish] and what follows it. *)
Definition br_decompress (who : string) (a : N) (s : BrotliState) (input : bytes)
    (out_ptr : ptr) (out_cap : Z) : prog lcm Z :=
  let '(b, _used, out, rc) := BrotliDecoderDecompressStream (bs s) input out_cap in
  write_bytes out_ptr out;;
  let s := {| bs := b; br_finished := br_finished s; br_counters := br_counters s |} in
  put_br a s;;
  match rc with
  | BROTLI_DECODER_RESULT_ERROR => fail (who +:+ ": BrotliDecoderDecompressStream error") (-1)
  | _ =>
      let avail_out := out_cap - zlen out in
      let written := as_usize (out_cap - avail_out) in
      let s := {| bs := b;
                  br_finished := match rc with BROTLI_DECODER_RESULT_SUCCESS => true | _ => br_finished s end;
                  br_counters := add_out written (br_counters s) |} in
      put_br a s;;
      cap_err ← check_caps_br s;
      if negb (cap_err =? 0) then mret cap_err else mret (as_i64 written)
  end.

Definition lcm_br_feed (s : option N) (in_ptr : ptr) (in_len : Z) (out_ptr : ptr) (out_cap : Z)
  : prog lcm Z :=
  match s with
  | None => fail "lcm_br_feed: bad args" (-1)
  | Some a =>
      s ← object l_br a;
      if is_null out_ptr then fail "lcm_br_feed: bad args" (-1)
      else if (0 <? in_len) && is_null in_ptr then
        fail "lcm_br_feed: in_ptr NULL with in_len > 0" (-1)
      else if br_finished s then mret 0
      else
        let s := {| bs := bs s; br_finished := br_finished s; br_counters := add_in in_len (br_counters s) |} in
        put_br a s;;
        if negb (input_cap (br_counters s) =? 0) && (input_cap (br_counters s) <? in_total (br_counters s))
        then fail "lcm_br: input cap exceeded" (-2)
        else
          input ← read_bytes in_ptr in_len;
          br_decompress "lcm_br_feed" a s input out_ptr out_cap
  end.

Definition lcm_br_finish (s : option N) (out_ptr : ptr) (out_cap : Z) : prog lcm Z :=
  match s with
  | None => fail "lcm_br_finish: bad args" (-1)
  | Some a =>
      s ← object l_br a;
      if is_null out_ptr then fail "lcm_br_finish: bad args" (-1)
      else if br_finished s then mret 0
      else br_decompress "lcm_br_finish" a s [] out_ptr out_cap
  end.

Definition lcm_br_free (s : option N) : prog lcm unit :=
  match s with
  | None => mret tt
  | Some a => object l_br a;; modify (λ l, set_br (delete a (l_br l)) l)
  end.

(** ** The tests of lib.rs that need no decoding

    The others are in [CompressTests]. *)

Definition GZIP_HELLO : bytes :=
  [31; 139; 8; 0; 0; 0; 0; 0; 2; 255; 203; 72; 205; 201; 201; 87;
   40; 207; 47; 202; 73; 1; 0; 133; 17; 74; 13; 11; 0; 0; 0].
Definition BROTLI_HELLO : bytes :=
  [11; 5; 128; 104; 101; 108; 108; 111; 32; 119; 111; 114; 108; 100; 3].

(** The blocks of a test: the fixture, [out] of [n] bytes and the 512 bytes of
    [last_error_string]. *)
Definition test_memory (fixture : bytes) (l : lcm) : lcm :=
  set_l_mem {[ 1%N := fixture; 2%N := replicate 64 0; 3%N := replicate 512 0 ]} l.

Definition last_error_string : prog lcm bytes :=
  n ← lcm_last_error (Ptr 3 0) 512;
  if n <=? 0 then mret []
  else buf ← read_bytes (Ptr 3 0) (n - 1); mret (from_utf8_lossy buf).

Definition gzip_input_cap_rejects_oversized_feed : prog lcm unit :=
  modify (test_memory GZIP_HELLO);;
  s ← lcm_gzip_init 8 (Z.shiftl 1 20) 0;
  assert_ (match s with Some _ => true | None => false end) "assertion failed: !s.is_null()";;
  n ← lcm_gzip_feed s (Ptr 1 0) (zlen GZIP_HELLO) (Ptr 2 0) 64;
  assert_ (n =? -2) "expected -2 (input cap)";;
  e ← last_error_string;
  assert_ (contains e (string_bytes "input cap")) "assertion failed: last_error_string().contains";;
  lcm_gzip_free s.

Definition brotli_input_cap_rejects_oversized_feed : prog lcm unit :=
  modify (test_memory BROTLI_HELLO);;
  s ← lcm_br_init 4 (Z.shiftl 1 20) 0;
  assert_ (match s with Some _ => true | None => false end) "assertion failed: !s.is_null()";;
  n ← lcm_br_feed s (Ptr 1 0) (zlen BROTLI_HELLO) (Ptr 2 0) 64;
  assert_ (n =? -2) "expected -2 (input cap)";;
  lcm_br_free s.
End Shim.

(** ** The contract of a decoder

    What a decoder promises its caller, proved of both. *)

Definition below_caps (c : counters) : Prop :=
  (input_cap c ≠ 0 → in_total c ≤ input_cap c) ∧
  (output_cap c ≠ 0 → out_total c ≤ output_cap c) ∧
  (ratio_x100 c ≠ 0 → 1024 ≤ in_total c → 100 * out_total c ≤ in_total c * ratio_x100 c).

(** The counters did not wrap and have no larger cap than their types. *)
Definition sane (c : counters) : Prop :=
  0 ≤ in_total c < 2 ^ 63 ∧ 0 ≤ out_total c < 2 ^ 63 ∧ 0 ≤ input_cap c ∧ 0 ≤ output_cap c ∧
  0 ≤ ratio_x100 c < 2 ^ 32.

(** A step of the counters: at most [n] bytes taken, [k] given. *)
Definition counted (c : counters) (n k : Z) (c' : counters) : Prop :=
  in_total c ≤ in_total c' ≤ in_total c + n ∧ out_total c' = out_total c + k ∧
  input_cap c' = input_cap c ∧ output_cap c' = output_cap c ∧ ratio_x100 c' = ratio_x100 c.

Lemma counted_refl c n : 0 ≤ n → counted c n 0 c.
Proof. intros Hn. unfold counted. split_and!; try done; lia. Qed.

Section Contract.
Context {C : Codecs}.

(** The result of a call: what the contract says of it. *)
Definition answered (r k : Z) (c : counters) (l : lcm) : Prop :=
  r = 0 ∨ 0 < r ∧ r = k ∧ below_caps c ∨ r < 0 ∧ 0 < g_err_len l.

(** The decoder at [a] works for the caller: of what [call] does with [n] bytes of
    input and room for [m] bytes, the result counts what was written, within the
    caps; an error leaves a message. *)
Definition keeps_contract (at_ : N → lcm → option counters) (a : N) (n m : Z) (call : prog lcm Z) : Prop :=
  ∀ l c r l', at_ a l = Some c → sane c → in_total c + n < 2 ^ 63 → out_total c + m < 2 ^ 63 →
    call l = Ret r l' →
    ∃ c' k, at_ a l' = Some c' ∧ counted c n k c' ∧ 0 ≤ k ≤ m ∧
      answered r k c' l'.

Class Decoder := {
  feed : option N → ptr → Z → ptr → Z → prog lcm Z;
  finish : option N → ptr → Z → prog lcm Z;
  counters_at : N → lcm → option counters;
}.

Class DecoderLaws (D : Decoder) := {
  feed_contract : ∀ a in_ptr in_len out_ptr out_cap,
    0 ≤ in_len < 2 ^ 32 → 0 ≤ out_cap < 2 ^ 32 →
    keeps_contract counters_at a in_len out_cap (feed (Some a) in_ptr in_len out_ptr out_cap);
  finish_contract : ∀ a out_ptr out_cap,
    0 ≤ out_cap < 2 ^ 32 → keeps_contract counters_at a 0 out_cap (finish (Some a) out_ptr out_cap);
  counters_mem : ∀ a m l, counters_at a (set_l_mem m l) = counters_at a l;
}.

(** *** What the caps say *)

Lemma fail_Ret {A} msg (x r : A) l l' : fail msg x l = Ret r l' →
  r = x ∧ 0 < g_err_len l' ∧ l_gzip l' = l_gzip l ∧ l_br l' = l_br l.
Proof. unfold fail, lcm_set_last_error. intros [= <- <-]. simpl. split_and!; try done. lia. Qed.

Lemma check_caps_sound who c l r l' :
  sane c → check_caps_of who c l = Ret r l' →
  l_gzip l' = l_gzip l ∧ l_br l' = l_br l ∧ (r = 0 ∧ below_caps c ∨ r < 0 ∧ 0 < g_err_len l').
Proof.
  intros (Hi & Ho & Hic & Hoc & Hr). unfold check_caps_of.
  do 3 (case_if; [intros (-> & ? & ? & ?)%fail_Ret; split_and!; try done; right; split; [lia|done]|]).
  intros [= <- <-]. split_and!; try done. left. split; [done|].
  rewrite !andb_false_iff, !negb_false_iff, ?Z.eqb_eq, ?Z.ltb_ge, ?Z.leb_gt in *.
  split_and!; [lia|lia|]. intros Hz Hn. destruct Heqb1 as [[?|?]|Hcap]; [lia|lia|].
  assert (as_u64 (in_total c * ratio_x100 c) ≤ in_total c * ratio_x100 c) by (apply Z.mod_le; lia).
  pose proof (Z.div_mod (as_u64 (in_total c * ratio_x100 c)) 100). 
  pose proof (Z.mod_pos_bound (as_u64 (in_total c * ratio_x100 c)) 100). lia.
Qed.

Lemma read_bytes_Ret p n l b l' : read_bytes p n l = Ret b l' → l' = l ∧ (0 ≤ n → zlen b = n).
Proof.
  unfold read_bytes. case_if.
  - intros [= <- <-]. split; [done|]. breflect. intros _. by rewrite zlen_nil.
  - destruct (load _ p n) eqn:E; [|done]. intros [= <- <-]. split; [done|]. intros _. by eapply load_length.
Qed.

Lemma write_bytes_Ret p b l u l' : write_bytes p b l = Ret u l' → ∃ m, l' = set_l_mem m l.
Proof.
  unfold write_bytes. destruct b; [intros [= <- <-]; exists (l_mem l); by destruct l|].
  destruct (store _ _ _) as [m|]; [|done]. intros [= <- <-]. by exists m.
Qed.

Lemma as_i64_id z : 0 ≤ z < 2 ^ 63 → as_i64 z = z.
Proof. intros Hz. unfold as_i64. rewrite Z.mod_small; lia. Qed.
Lemma as_u64_id z : 0 ≤ z < 2 ^ 64 → as_u64 z = z.
Proof. apply Z.mod_small. Qed.
Lemma as_u32_id z : 0 ≤ z < 2 ^ 32 → as_u32 z = z.
Proof. apply Z.mod_small. Qed.

Lemma add_out_counted c k : sane c → 0 ≤ k → out_total c + k < 2 ^ 63 → counted c 0 k (add_out k c) ∧ sane (add_out k c).
Proof.
  intros (Hi & Ho & Hc) Hk Hm. unfold counted, sane, add_out. simpl. rewrite as_u64_id by lia.
  split_and!; try done; lia.
Qed.

Lemma add_in_counted c n : sane c → 0 ≤ n → in_total c + n < 2 ^ 63 → counted c n 0 (add_in n c) ∧ sane (add_in n c).
Proof.
  intros (Hi & Ho & Hc) Hk Hm. unfold counted, sane, add_in. simpl. rewrite as_u64_id by lia.
  split_and!; try done; lia.
Qed.

Lemma counted_trans c n k c1 n' k' c2 :
  counted c n k c1 → counted c1 n' k' c2 → counted c (n + n') (k + k') c2.
Proof. unfold counted. intros (? & -> & -> & -> & ->) (? & -> & -> & -> & ->). split_and!; try done; lia. Qed.

(** The counting that both decoders end with. *)
Lemma count_and_check (update : counters → prog lcm unit) who c k l r l' :
  sane c → 0 ≤ k → out_total c + k < 2 ^ 63 →
  (∀ c l u l', update c l = Ret u l' → g_err_len l' = g_err_len l) →
  (update (add_out k c);; cap_err ← check_caps_of who (add_out k c);
   if negb (cap_err =? 0) then mret cap_err else mret (as_i64 k)) l = Ret r l' →
  ∃ l1, update (add_out k c) l = Ret tt l1 ∧ l_gzip l' = l_gzip l1 ∧ l_br l' = l_br l1 ∧
        answered r k (add_out k c) l'.
Proof.
  intros Hs Hk Hm Hu ([] & l1 & E1 & (e & l2 & E2 & E3)%bind_Ret_inv)%bind_Ret_inv.
  exists l1. split; [done|]. destruct (add_out_counted c k Hs Hk Hm) as [_ Hs'].
  apply check_caps_sound in E2 as (H1 & H2 & H); [|done].
  revert E3. case_if; intros [= <- <-]; (split_and!; [done|done|]); breflect.
  - destruct H as [[? _]|H]; [done|]. by right; right.
  - rewrite as_i64_id; [|unfold sane in Hs; lia]. destruct H as [[_ H]|[? _]]; [|lia].
    unfold answered. destruct (decide (k = 0)); [by left|]. right. left. split_and!; [lia|done|done].
Qed.

Context `{!CodecLaws C}.

Lemma gzip_inflate_contract who a s f input out_ptr m l r l' :
  sane (gz_counters s) → 0 ≤ m < 2 ^ 32 → out_total (gz_counters s) + m < 2 ^ 63 →
  gzip_inflate who a s f input out_ptr m l = Ret r l' →
  ∃ s' k, l_gzip l' !! a = Some s' ∧ counted (gz_counters s) 0 k (gz_counters s') ∧ 0 ≤ k ≤ m ∧
          answered r k (gz_counters s') l'.
Proof.
  intros Hs Hm Ho. unfold gzip_inflate. rewrite as_u32_id by done.
  destruct (inflate (zs s) f input m) as [[[z used] out] rc] eqn:Ei.
  apply inflate_room in Ei as [_ Hout]; [|lia]. pose proof (zlen_nonneg out).
  intros (u & l1 & _ & (u' & l2 & E2 & E3)%bind_Ret_inv)%bind_Ret_inv. injection E2 as <- <-.
  revert E3. case_if.
  { intros (-> & ? & E & _)%fail_Ret. eexists _, 0. rewrite E. cbn [l_gzip set_gzip].
    rewrite lookup_insert_eq. split; [done|]. cbn [gz_counters].
    split_and!; [by apply counted_refl|lia|lia|]. right. right. split; [lia|done]. }
  cbv zeta. replace (m - (m - zlen out)) with (zlen out) by lia. rewrite as_usize_id by lia. cbn [gz_counters].
  intros E. apply (count_and_check (λ c, put_gzip a {| zs := z; zs_avail_in := zlen input - used; inited := inited s;
    gz_finished := (rc =? Z_STREAM_END) || gz_finished s; gz_counters := c |})) in E
    as (l3 & [= <-] & E & _ & Ha); [|done|lia|lia|by intros ? ? ? ? [= <- <-]].
  eexists _, (zlen out). rewrite E. cbn [l_gzip set_gzip]. rewrite lookup_insert_eq. split; [done|].
  cbn [gz_counters]. split_and!; [apply add_out_counted; [done|lia|lia]|lia|lia|done].
Qed.

Lemma br_decompress_contract who a s input out_ptr m l r l' :
  sane (br_counters s) → 0 ≤ m < 2 ^ 32 → out_total (br_counters s) + m < 2 ^ 63 →
  br_decompress who a s input out_ptr m l = Ret r l' →
  ∃ s' k, l_br l' !! a = Some s' ∧ counted (br_counters s) 0 k (br_counters s') ∧ 0 ≤ k ≤ m ∧
          answered r k (br_counters s') l'.
Proof.
  intros Hs Hm Ho. unfold br_decompress.
  destruct (BrotliDecoderDecompressStream (bs s) input m) as [[[b used] out] rc] eqn:Ei.
  apply brotli_room in Ei as [_ Hout]; [|lia]. pose proof (zlen_nonneg out).
  intros (u & l1 & _ & (u' & l2 & E2 & E3)%bind_Ret_inv)%bind_Ret_inv. injection E2 as <- <-.
  assert (Hfin : ∀ fin, (put_br a {| bs := b; br_finished := fin; br_counters := add_out (as_usize (m - (m - zlen out))) (br_counters s) |};;
      cap_err ← check_caps_of "lcm_br" (add_out (as_usize (m - (m - zlen out))) (br_counters s));
      if negb (cap_err =? 0) then mret cap_err else mret (as_i64 (as_usize (m - (m - zlen out)))))
      (set_br (<[a := {| bs := b; br_finished := br_finished s; br_counters := br_counters s |}]> (l_br l1)) l1) = Ret r l' →
    ∃ s' k, l_br l' !! a = Some s' ∧ counted (br_counters s) 0 k (br_counters s') ∧ 0 ≤ k ≤ m ∧
          answered r k (br_counters s') l').
  { intros fin E. replace (m - (m - zlen out)) with (zlen out) in E by lia. rewrite as_usize_id in E by lia.
    apply (count_and_check (λ c, put_br a {| bs := b; br_finished := fin; br_counters := c |})) in E
      as (l3 & [= <-] & _ & E & Ha); [|done|lia|lia|by intros ? ? ? ? [= <- <-]].
    eexists _, (zlen out). rewrite E. cbn [l_br set_br]. rewrite lookup_insert_eq. split; [done|].
    cbn [br_counters]. split_and!; [apply add_out_counted; [done|lia|lia]|lia|lia|done]. }
  destruct rc; [|by eapply Hfin..].
  apply fail_Ret in E3 as (-> & ? & _ & E). eexists _, 0. rewrite E. cbn [l_br set_br].
  rewrite lookup_insert_eq. split; [done|]. cbn [br_counters].
  split_and!; [by apply counted_refl|lia|lia|]. right. right. split; [lia|done].
Qed.

(** Of a call that stops early: nothing was given. *)
Lemma stopped (o : option counters) c n m r l' :
  o = Some c → 0 ≤ n → 0 ≤ m → r = 0 ∨ r < 0 ∧ 0 < g_err_len l' →
  ∃ c' k, o = Some c' ∧ counted c n k c' ∧ 0 ≤ k ≤ m ∧ answered r k c' l'.
Proof.
  intros Ho Hn Hm Hr. exists c, 0. split_and!; [done|by apply counted_refl|lia|lia|].
  destruct Hr; [by left|by right; right].
Qed.

#[local] Ltac stop_here Ha :=
  first [ intros (-> & ? & Eg & Eb)%fail_Ret; rewrite ?Eg, ?Eb | intros [= <- <-] ];
  apply stopped; [by rewrite Ha|lia|lia|first [by left | right; split; [lia|done]]].

(** Of a call that stops at the cap on the input. *)
Lemma refused (o : option counters) c n m r l' :
  o = Some (add_in n c) → counted c n 0 (add_in n c) → 0 ≤ m → r < 0 → 0 < g_err_len l' →
  ∃ c' k, o = Some c' ∧ counted c n k c' ∧ 0 ≤ k ≤ m ∧ answered r k c' l'.
Proof. intros -> Hk Hm Hr He. exists (add_in n c), 0. split_and!; try done; try lia. by right; right. Qed.

(** Of a call that decodes after the input was counted. *)
Lemma decoded {S} (o : option S) (cs : S → counters) c n m r l' :
  counted c n 0 (add_in n c) →
  (∃ s' k, o = Some s' ∧ counted (add_in n c) 0 k (cs s') ∧ 0 ≤ k ≤ m ∧ answered r k (cs s') l') →
  ∃ c' k, cs <$> o = Some c' ∧ counted c n k c' ∧ 0 ≤ k ≤ m ∧ answered r k c' l'.
Proof.
  intros Hk (s' & k & -> & Hk2 & Hb & Ha). exists (cs s'), k. split_and!; try done; try lia.
  pose proof (counted_trans _ _ _ _ _ _ _ Hk Hk2) as H. by rewrite Z.add_0_r in H.
Qed.

Lemma gzip_feed_contract a in_ptr n out_ptr m :
  0 ≤ n < 2 ^ 32 → 0 ≤ m < 2 ^ 32 →
  keeps_contract (λ a l, gz_counters <$> l_gzip l !! a) a n m (lcm_gzip_feed (Some a) in_ptr n out_ptr m).
Proof.
  intros Hn Hm l c r l' Hc Hs Hi Ho (s & l1 & E1 & E)%bind_Ret_inv. revert E.
  unfold object in E1. destruct (l_gzip l !! a) as [s'|] eqn:Ea; [|done]. injection E1 as -> ->. injection Hc as <-.
  do 3 (case_if; [stop_here Ea|]). intros (u & l2 & [= <- <-] & E)%bind_Ret_inv. revert E.
  cbn [gz_counters with_gz_counters].
  destruct (add_in_counted (gz_counters s) n Hs ltac:(lia) Hi) as [Hk Hs']. case_if.
  - intros (-> & ? & E & _)%fail_Ret. rewrite E. apply refused; [|done|lia|lia|done]. simpl. by rewrite lookup_insert_eq.
  - intros (input & l2 & (-> & _)%read_bytes_Ret & E)%bind_Ret_inv.
    apply decoded; [done|]. by apply gzip_inflate_contract in E.
Qed.

Lemma gzip_finish_contract a out_ptr m :
  0 ≤ m < 2 ^ 32 →
  keeps_contract (λ a l, gz_counters <$> l_gzip l !! a) a 0 m (lcm_gzip_finish (Some a) out_ptr m).
Proof.
  intros Hm l c r l' Hc Hs Hi Ho (s & l1 & E1 & E)%bind_Ret_inv. revert E.
  unfold object in E1. destruct (l_gzip l !! a) as [s'|] eqn:Ea; [|done]. injection E1 as -> ->. injection Hc as <-.
  do 2 (case_if; [stop_here Ea|]). intros (s2 & k & -> & H)%gzip_inflate_contract; [|done..].
  by exists (gz_counters s2), k.
Qed.

Lemma br_feed_contract a in_ptr n out_ptr m :
  0 ≤ n < 2 ^ 32 → 0 ≤ m < 2 ^ 32 →
  keeps_contract (λ a l, br_counters <$> l_br l !! a) a n m (lcm_br_feed (Some a) in_ptr n out_ptr m).
Proof.
  intros Hn Hm l c r l' Hc Hs Hi Ho (s & l1 & E1 & E)%bind_Ret_inv. revert E.
  unfold object in E1. destruct (l_br l !! a) as [s'|] eqn:Ea; [|done]. injection E1 as -> ->. injection Hc as <-.
  do 3 (case_if; [stop_here Ea|]). intros (u & l2 & [= <- <-] & E)%bind_Ret_inv. revert E. cbn [br_counters].
  destruct (add_in_counted (br_counters s) n Hs ltac:(lia) Hi) as [Hk Hs']. case_if.
  - intros (-> & ? & _ & E)%fail_Ret. rewrite E. apply refused; [|done|lia|lia|done]. simpl. by rewrite lookup_insert_eq.
  - intros (input & l2 & (-> & _)%read_bytes_Ret & E)%bind_Ret_inv.
    apply decoded; [done|]. by apply br_decompress_contract in E.
Qed.

Lemma br_finish_contract a out_ptr m :
  0 ≤ m < 2 ^ 32 →
  keeps_contract (λ a l, br_counters <$> l_br l !! a) a 0 m (lcm_br_finish (Some a) out_ptr m).
Proof.
  intros Hm l c r l' Hc Hs Hi Ho (s & l1 & E1 & E)%bind_Ret_inv. revert E.
  unfold object in E1. destruct (l_br l !! a) as [s'|] eqn:Ea; [|done]. injection E1 as -> ->. injection Hc as <-.
  do 2 (case_if; [stop_here Ea|]). intros (s2 & k & -> & H)%br_decompress_contract; [|done..].
  by exists (br_counters s2), k.
Qed.

Definition gzip_decoder : Decoder :=
  {| feed := lcm_gzip_feed; finish := lcm_gzip_finish; counters_at := λ a l, gz_counters <$> l_gzip l !! a |}.
#[export] Instance gzip_laws : DecoderLaws gzip_decoder.
Proof. split; [apply gzip_feed_contract|apply gzip_finish_contract|done]. Qed.

Definition brotli_decoder : Decoder :=
  {| feed := lcm_br_feed; finish := lcm_br_finish; counters_at := λ a l, br_counters <$> l_br l !! a |}.
#[export] Instance brotli_laws : DecoderLaws brotli_decoder.
Proof. split; [apply br_feed_contract|apply br_finish_contract|done]. Qed.
End Contract.

(** ** Sessions

    A caller's calls on one decoder, with its memory as it stands at each. *)

Section Session.
Context {C : Codecs} {D : Decoder} `{!DecoderLaws D}.

Inductive decode_call :=
  | Feed (in_ptr : ptr) (in_len : Z) (out_ptr : ptr) (out_cap : Z)
  | Finish (out_ptr : ptr) (out_cap : Z).

Definition call_in (c : decode_call) : Z := match c with Feed _ n _ _ => n | Finish _ _ => 0 end.
Definition call_room (c : decode_call) : Z := match c with Feed _ _ _ m | Finish _ m => m end.
Definition small (c : decode_call) : Prop := 0 ≤ call_in c < 2 ^ 32 ∧ 0 ≤ call_room c < 2 ^ 32.

Definition exec (a : N) (c : decode_call) : prog lcm Z :=
  match c with
  | Feed p n q m => feed (Some a) p n q m
  | Finish q m => finish (Some a) q m
  end.

(** What a call was given, its result, and the counters after it. *)
Record entry := { e_in : Z; e_result : Z; e_counters : counters }.

Fixpoint session (a : N) (calls : list (gmap N bytes * decode_call)) : prog lcm (list entry) :=
  match calls with
  | [] => mret []
  | (m, c) :: calls =>
      modify (set_l_mem m);;
      r ← exec a c;
      o ← gets (counters_at a);
      cs ← expect o "freed";
      log ← session a calls;
      mret ({| e_in := call_in c; e_result := r; e_counters := cs |} :: log)
  end.

(** After [d] bytes out and [f] bytes in: at a call that delivers, the bytes
    delivered so far respect the cap on the output and the ratio to what was
    taken, and what was taken is no more than was fed and than the cap. *)
Fixpoint within_caps (ic oc ratio d f : Z) (log : list entry) : Prop :=
  match log with
  | [] => True
  | e :: log =>
      let d := d + Z.max 0 (e_result e) in
      let f := f + e_in e in
      let taken := in_total (e_counters e) in
      taken ≤ f ∧
      (0 < e_result e →
        (ic ≠ 0 → taken ≤ ic) ∧ (oc ≠ 0 → d ≤ oc) ∧ (ratio ≠ 0 → 1024 ≤ taken → 100 * d ≤ taken * ratio)) ∧
      within_caps ic oc ratio d f log
  end.

Definition fresh_counters (ic oc ratio : Z) : counters :=
  {| in_total := 0; out_total := 0; input_cap := ic; output_cap := oc; ratio_x100 := ratio |}.

Lemma exec_contract a c : small c → keeps_contract counters_at a (call_in c) (call_room c) (exec a c).
Proof. destruct c; intros [? ?]; [by apply feed_contract|by apply finish_contract]. Qed.

Lemma session_within a calls l c d f log l' :
  counters_at a l = Some c → sane c → d ≤ out_total c → in_total c ≤ f →
  Forall (λ x, small x.2) calls →
  in_total c + 2 ^ 32 * zlen calls < 2 ^ 63 → out_total c + 2 ^ 32 * zlen calls < 2 ^ 63 →
  session a calls l = Ret log l' →
  within_caps (input_cap c) (output_cap c) (ratio_x100 c) d f log.
Proof.
  revert l c d f log. induction calls as [|[m x] calls IH]; intros l c d f log Hc Hs Hd Hf Hall Hi Ho.
  { by intros [= <- _]. }
  apply Forall_cons in Hall as [Hx Hall]. rewrite zlen_cons in Hi, Ho. simpl in Hx. destruct Hx as [Hx1 Hx2].
  pose proof (zlen_nonneg calls) as Hz. cbn [session].
  intros (u & l1 & [= <- <-] & E)%bind_Ret_inv. apply bind_Ret_inv in E as (r & l2 & E1 & E).
  destruct (exec_contract a x (conj Hx1 Hx2) _ c _ _ ltac:(by rewrite counters_mem) Hs ltac:(lia) ltac:(lia) E1)
    as (c' & k & Hc' & (Hin & Hout & Q1 & Q2 & Q3) & Hk & Ha).
  apply bind_Ret_inv in E as (o & l3 & [= <- <-] & E). rewrite Hc' in E.
  apply bind_Ret_inv in E as (cs & l4 & [= <- <-] & E).
  apply bind_Ret_inv in E as (log' & l5 & E & [= <- <-]).
  assert (Hs' : sane c') by (unfold sane in *; rewrite Hout, Q1, Q2, Q3; lia).
  assert (Hd' : d + Z.max 0 r ≤ out_total c') by (destruct Ha as [->|[(? & -> & _)|[? _]]]; lia).
  cbn [within_caps e_result e_in e_counters]. split_and!; [lia| |].
  - intros Hr. destruct Ha as [->|[(_ & -> & B1 & B2 & B3)|[? _]]]; [lia| |lia]. rewrite <- Q1, <- Q2, <- Q3.
    split_and!; [done|intros H; specialize (B2 H); lia|intros H H'; specialize (B3 H H'); lia].
  - rewrite <- Q1, <- Q2, <- Q3. eapply IH; try done; lia.
Qed.
End Session.

Section Capped.
Context {C : Codecs} `{!CodecLaws C}.

Lemma gzip_init_counters ic oc ratio l a l' :
  lcm_gzip_init ic oc ratio l = Ret (Some a) l' →
  counters_at (Decoder:=gzip_decoder) a l' = Some (fresh_counters ic oc ratio).
Proof.
  unfold lcm_gzip_init, mbind, prog_bind, alloc. do 2 (case_if; [|done]).
  intros [= <- <-]. simpl. by rewrite lookup_insert_eq.
Qed.

Lemma br_init_counters ic oc ratio l a l' :
  lcm_br_init ic oc ratio l = Ret (Some a) l' →
  counters_at (Decoder:=brotli_decoder) a l' = Some (fresh_counters ic oc ratio).
Proof.
  unfold lcm_br_init, mbind, prog_bind, alloc. do 2 (case_if; [|done]).
  intros [= <- <-]. simpl. by rewrite lookup_insert_eq.
Qed.

Lemma fresh_within {D : Decoder} `{!DecoderLaws D} ic oc ratio a calls l log l' :
  counters_at a l = Some (fresh_counters ic oc ratio) → 0 ≤ ic → 0 ≤ oc → 0 ≤ ratio < 2 ^ 32 →
  Forall (λ x, small x.2) calls → zlen calls ≤ 2 ^ 30 → session a calls l = Ret log l' →
  within_caps ic oc ratio 0 0 log.
Proof.
  intros Hc Hi Ho Hr Hall Hn E.
  apply (session_within a calls l (fresh_counters ic oc ratio) 0 0 log l'); try done; simpl; try lia.
Qed.

(** C13: decompression bombs are stopped: whatever the bytes, however they are cut
    into calls and whatever zlib and brotli make of them, at every call that
    hands over output the bytes handed over so far respect the cap on the output
    and, once 1024 bytes were taken, the ratio to what was taken, and what was
    taken respects the cap on the input. *)
Theorem decompression_capped ic oc ratio l a l1 calls log l' :
  0 ≤ ic → 0 ≤ oc → 0 ≤ ratio < 2 ^ 32 → Forall (λ x, small x.2) calls → zlen calls ≤ 2 ^ 30 →
  (lcm_gzip_init ic oc ratio l = Ret (Some a) l1 →
   session (D:=gzip_decoder) a calls l1 = Ret log l' → within_caps ic oc ratio 0 0 log) ∧
  (lcm_br_init ic oc ratio l = Ret (Some a) l1 →
   session (D:=brotli_decoder) a calls l1 = Ret log l' → within_caps ic oc ratio 0 0 log).
Proof.
  intros Hi Ho Hr Hall Hn. split.
  - intros E%gzip_init_counters. by apply (fresh_within (D:=gzip_decoder)).
  - intros E%br_init_counters. by apply (fresh_within (D:=brotli_decoder)).
Qed.
End Capped.

(** ** What zlib sees of a body *)

(** zlib goes on where it stopped: the stream it has decoded grows by the front of
    what it is offered. *)
Class Streams (C : Codecs) := {
  consumed : zstream → bytes;
  inflate_consumes : ∀ z f inp room z' used out rc,
    inflate z f inp room = (z', used, out, rc) →
    consumed z' = consumed z ++ take (Z.to_nat used) inp ∧ 0 ≤ used ≤ zlen inp;
}.

Section Prefixes.
Context {C : Codecs} `{!Streams C}.

(** The bytes a caller gives with a call. *)
Definition chunk (m : gmap N bytes) (c : decode_call) : bytes :=
  match c with
  | Feed p n _ _ => if n =? 0 then [] else default [] (load m p n)
  | Finish _ _ => []
  end.

Definition readable (m : gmap N bytes) (c : decode_call) : Prop :=
  match c with Feed p n _ _ => 0 ≤ n ∧ (n = 0 ∨ is_Some (load m p n)) | Finish _ _ => True end.

Definition seen (a : N) (l : lcm) : option bytes := (λ s, consumed (zs s)) <$> l_gzip l !! a.

Lemma check_caps_heap who c l r l' : check_caps_of who c l = Ret r l' → l_gzip l' = l_gzip l.
Proof.
  unfold check_caps_of. do 3 (case_if; [by intros (_ & _ & ? & _)%fail_Ret|]). by intros [= _ <-].
Qed.

Lemma gzip_inflate_seen who a s f input q m l r l' :
  gzip_inflate who a s f input q m l = Ret r l' →
  ∃ u : nat, seen a l' = Some (consumed (zs s) ++ take u input).
Proof.
  unfold gzip_inflate. destruct (inflate _ _ _ _) as [[[z used] out] rc] eqn:Ei.
  apply inflate_consumes in Ei as [Ei _]. intros (u & l1 & _ & (u' & l2 & [= <- <-] & E)%bind_Ret_inv)%bind_Ret_inv.
  exists (Z.to_nat used). rewrite <- Ei. unfold seen. revert E. case_if.
  - intros (_ & _ & -> & _)%fail_Ret. simpl. by rewrite lookup_insert_eq.
  - intros (u2 & l2 & [= <- <-] & (e & l3 & E%check_caps_heap & E')%bind_Ret_inv)%bind_Ret_inv.
    assert (l' = l3) as -> by (revert E'; case_if; by intros [= _ <-]).
    rewrite E. simpl. by rewrite lookup_insert_eq.
Qed.

Lemma as_u32_prefix n : 0 ≤ n → 0 ≤ as_u32 n ≤ n.
Proof. intros Hn. unfold as_u32. pose proof (Z.mod_pos_bound n (2 ^ 32)). pose proof (Z.mod_le n (2 ^ 32)). lia. Qed.

(** A call adds the front of its own chunk and nothing else. *)
Lemma exec_seen a x l r l' b :
  seen a l = Some b → readable (l_mem l) x → exec (D:=gzip_decoder) a x l = Ret r l' →
  ∃ u : nat, seen a l' = Some (b ++ take u (chunk (l_mem l) x)).
Proof.
  intros Hb Hr E. assert (Hsame : seen a l' = seen a l → ∃ u : nat, seen a l' = Some (b ++ take u (chunk (l_mem l) x))).
  { intros ->. exists 0%nat. by rewrite take_0, app_nil_r. }
  destruct x as [p n q m|q m]; simpl in *.
  - apply bind_Ret_inv in E as (s & l1 & E1 & E). unfold object in E1.
    destruct (l_gzip l !! a) as [s'|] eqn:Ea; [|done]. injection E1 as -> ->. revert E.
    do 2 (case_if; [intros (_ & _ & E & _)%fail_Ret; apply Hsame; unfold seen; by rewrite E|]).
    case_if; [intros [= _ <-]; by apply Hsame|].
    intros (u & l2 & [= <- <-] & E)%bind_Ret_inv. revert E. case_if.
    { intros (_ & _ & E & _)%fail_Ret. apply Hsame. unfold seen. rewrite E. simpl. by rewrite lookup_insert_eq, Ea. }
    intros (input & l2 & E2 & E)%bind_Ret_inv. apply gzip_inflate_seen in E as [u ->]. cbn [zs with_gz_counters].
    unfold seen in Hb. rewrite Ea in Hb. injection Hb as ->. destruct Hr as [Hn Hr].
    pose proof (as_u32_prefix n Hn). revert E2. unfold read_bytes. cbn [l_mem set_gzip].
    case_if; [intros [= <- <-]; exists 0%nat; by rewrite take_nil, take_0|]. breflect.
    destruct Hr as [->|[b' Hb']]; [done|]. rewrite (load_prefix _ _ _ (as_u32 n) _ Hb') by lia.
    intros [= <- <-]. rewrite (proj2 (Z.eqb_neq n 0)) by lia. rewrite Hb'. simpl.
    exists (u `min` Z.to_nat (as_u32 n))%nat. unfold sub. by rewrite drop_0, take_take.
  - apply bind_Ret_inv in E as (s & l1 & E1 & E). unfold object in E1.
    destruct (l_gzip l !! a) as [s'|] eqn:Ea; [|done]. injection E1 as -> ->. revert E.
    case_if; [intros (_ & _ & E & _)%fail_Ret; apply Hsame; unfold seen; by rewrite E|].
    case_if; [intros [= _ <-]; by apply Hsame|]. intros E. apply gzip_inflate_seen in E as [u ->].
    unfold seen in Hb. rewrite Ea in Hb. injection Hb as ->. exists 0%nat. by rewrite take_nil, take_0.
Qed.

(** The chunks of a session, each cut to what zlib took of it. *)
Definition taken (us : list nat) (calls : list (gmap N bytes * decode_call)) : bytes :=
  mjoin (zip_with (λ u x, take u (chunk x.1 x.2)) us calls).

Lemma exec_takes a x l r l' b :
  seen a l = Some b → readable (l_mem l) x → exec (D:=gzip_decoder) a x l = Ret r l' →
  ∃ u : nat, (u ≤ length (chunk (l_mem l) x))%nat ∧ seen a l' = Some (b ++ take u (chunk (l_mem l) x)).
Proof.
  intros Hb Hr E. destruct (exec_seen _ _ _ _ _ _ Hb Hr E) as [u ->]. set (c := chunk _ _).
  exists (u `min` length c)%nat. split; [lia|]. by rewrite <- take_take, (take_ge c (length c)).
Qed.

(** One call of a session and the rest of it. *)
Lemma session_step a m x calls l e log l' :
  session (D:=gzip_decoder) a ((m, x) :: calls) l = Ret (e :: log) l' ↔
  ∃ l1, exec (D:=gzip_decoder) a x (set_l_mem m l) = Ret (e_result e) l1 ∧
    counters_at (Decoder:=gzip_decoder) a l1 = Some (e_counters e) ∧ e_in e = call_in x ∧
    session (D:=gzip_decoder) a calls l1 = Ret log l'.
Proof.
  destruct e as [ei er ec]. cbn [session e_in e_result e_counters].
  unfold mbind, prog_bind, modify, gets, mret, prog_ret. cbv beta iota.
  destruct (exec a x _) as [r l1| | |]; [|split; [done|by intros (? & ? & _)]..].
  destruct (counters_at a l1) as [cs|] eqn:Ec; cbv [expect mret prog_ret panic]; [|split; [done|intros (? & [= <- <-] & ? & _); congruence]].
  destruct (session (D:=gzip_decoder) a calls l1) as [log1 l2| | |] eqn:E; [|split; [done|intros (? & [= <- <-] & _ & _ & ?); congruence]..].
  split.
  - intros [= <- <- <- <- <-]. by exists l1.
  - intros (l3 & [= <- <-] & Hc & -> & E'). rewrite Ec in Hc. injection Hc as <-.
    rewrite E in E'. by injection E' as <- <-.
Qed.

Lemma session_nil a l log l' :
  session (D:=gzip_decoder) a [] l = Ret log l' → log = [] ∧ l' = l.
Proof. by intros [= <- <-]. Qed.

Lemma session_cons a c calls l log l' :
  session (D:=gzip_decoder) a (c :: calls) l = Ret log l' → ∃ e log', log = e :: log'.
Proof.
  destruct c as [m x]. cbn [session]. unfold mbind, prog_bind, modify, gets, mret, prog_ret. cbv beta iota.
  destruct (exec a x _) as [r l1| | |]; try done. destruct (counters_at a l1); simpl; try done.
  destruct (session (D:=gzip_decoder) a calls l1); try done. intros [= <- _]. by eexists _, _.
Qed.

(** C39: what zlib leaves of a chunk is lost. Of the bytes a gzip decoder is fed, each
    call hands zlib a front of its own chunk: there are counts, one per call
    and no more than its chunk, such that after every number [k] of calls of the
    session the decoder's stream has consumed exactly the fronts of the first
    [k] chunks that these counts cut. So the count of a call is settled when it
    returns, and the bytes behind it (left because the output filled the
    buffer) enter the stream in no later call, neither in [feed] nor in
    [finish]. *)
Theorem gzip_takes_fronts a b calls l log l' :
  seen a l = Some b → Forall (λ x, readable x.1 x.2) calls →
  session (D:=gzip_decoder) a calls l = Ret log l' →
  ∃ us, Forall2 (λ u x, (u ≤ length (chunk x.1 x.2))%nat) us calls ∧
    ∀ k, ∃ lk, session (D:=gzip_decoder) a (take k calls) l = Ret (take k log) lk ∧
      seen a lk = Some (b ++ taken (take k us) (take k calls)).
Proof.
  revert l b log. induction calls as [|[m x] calls IH]; intros l b log Hb Hall.
  { intros [-> ->]%session_nil. exists []. split; [constructor|]. intros k.
    exists l. rewrite !take_nil. split; [done|]. by rewrite app_nil_r. }
  apply Forall_cons in Hall as [Hx Hall]. intros E.
  destruct (session_cons _ _ _ _ _ _ E) as (e & log' & ->).
  apply session_step in E as (l1 & E1 & Hc & Hi & E).
  destruct (exec_takes _ _ (set_l_mem m l) _ _ b Hb Hx E1) as (u & Hu & Hs).
  destruct (IH _ _ _ Hs Hall E) as (us & Hus & Hk). exists (u :: us). split; [by constructor|].
  intros [|k]; [exists l; split; [done|by rewrite app_nil_r]|].
  destruct (Hk k) as (lk & Ek & Hsk). exists lk. cbn [take]. split; [apply session_step; by exists l1|].
  rewrite Hsk. unfold taken. simpl. by rewrite app_assoc.
Qed.

(** With room for [2^32] bytes or more, zlib is told of the low 32 bits of the room
    only, and what it did not write of the rest counts as written. *)
Lemma gzip_huge_room who a s f input q m l r l' :
  2 ^ 32 ≤ m < 2 ^ 63 → (∀ z f inp room z' used out rc, inflate z f inp room = (z', used, out, rc) → zlen out ≤ room) →
  gzip_inflate who a s f input q m l = Ret r l' → 0 ≤ r →
  m - as_u32 m ≤ r ∧ ∃ out, zlen out ≤ as_u32 m ∧ ∃ l1, write_bytes q out l = Ret tt l1 ∧ l_mem l' = l_mem l1.
Proof.
  intros Hm Hroom. unfold gzip_inflate.
  destruct (inflate _ _ _ _) as [[[z used] out] rc] eqn:Ei. apply Hroom in Ei. pose proof (zlen_nonneg out).
  pose proof (as_u32_prefix m ltac:(lia)) as Hu.
  intros (u & l1 & E1 & (u' & l2 & [= <- <-] & E)%bind_Ret_inv)%bind_Ret_inv Hr. destruct u. revert E.
  case_if; [intros (-> & _)%fail_Ret; lia|]. cbv zeta.
  intros (u2 & l2 & [= <- <-] & (e & l3 & E & E')%bind_Ret_inv)%bind_Ret_inv.
  assert (Hmem : l_mem l3 = l_mem l1 ∧ (e = 0 ∨ e < 0)).
  { revert E. unfold check_caps, check_caps_of. do 3 (case_if; [intros [= <- <-]; split; [done|lia]|]).
    intros [= <- <-]. split; [done|lia]. }
  destruct Hmem as [Hmem He]. revert E'. case_if; intros [= <- <-]; breflect; [lia|].
  rewrite as_usize_id, as_i64_id by lia. split; [lia|]. exists out. split; [done|]. by exists l1.
Qed.
End Prefixes.

(** ** The tests *)

(** A thread that has not called the library yet. *)
Definition boot_lcm {C : Codecs} : lcm :=
  {| l_mem := ∅; l_gzip := ∅; l_br := ∅; l_next := 1; l_alloc := []; g_err := replicate 512 0; g_err_len := 0 |}.

(** The tests of the caps on the input pass with any zlib and any brotli, and
    leave no decoder behind. *)
Theorem input_cap_tests_pass {C : Codecs} :
  (∃ l, gzip_input_cap_rejects_oversized_feed boot_lcm = Ret tt l ∧ l_gzip l = ∅) ∧
  (∃ l, brotli_input_cap_rejects_oversized_feed boot_lcm = Ret tt l ∧ l_br l = ∅).
Proof. split; eexists; (split; [vm_compute; reflexivity|done]). Qed.

(** ** Witnesses *)

(** Codecs that copy. *)
#[export] Instance copying : Codecs := {|
  zstream := bytes; inflateInit2 := λ _, [];
  inflate := λ z _ inp room,
    let n := Z.min (Z.max 0 room) (zlen inp) in (z ++ sub 0 n inp, n, sub 0 n inp, Z_OK);
  brotli := unit; BrotliDecoderCreateInstance := tt;
  BrotliDecoderDecompressStream := λ b inp room,
    let n := Z.min (Z.max 0 room) (zlen inp) in
    (b, n, sub 0 n inp, BROTLI_DECODER_RESULT_NEEDS_MORE_INPUT) |}.

Lemma copied_room (inp : bytes) room : 0 ≤ room →
  0 ≤ Z.min (Z.max 0 room) (zlen inp) ≤ zlen inp ∧ zlen (sub 0 (Z.min (Z.max 0 room) (zlen inp)) inp) ≤ room.
Proof.
  intros Hr. pose proof (zlen_nonneg inp). split; [lia|]. rewrite zlen_sub; [lia|]. apply fits_spec. lia.
Qed.

#[export] Instance copying_laws : CodecLaws copying.
Proof. split; intros; simplify_eq/=; by apply copied_room. Qed.

#[export] Instance copying_streams : Streams copying.
Proof.
  refine {| consumed := λ z : @zstream copying, z |}. intros. simplify_eq/=.
  unfold sub. rewrite drop_0. split; [done|]. pose proof (zlen_nonneg inp). lia.
Defined.

(** Six bytes with room for two, then three, then the end. *)
Definition body_memory : gmap N bytes := {[ 1%N := [1; 2; 3; 4; 5; 6]; 2%N := replicate 8 0 ]}.
Definition body_calls : list (gmap N bytes * decode_call) :=
  [(body_memory, Feed (Ptr 1 0) 6 (Ptr 2 0) 2); (body_memory, Feed (Ptr 1 0) 3 (Ptr 2 0) 8);
   (body_memory, Finish (Ptr 2 0) 8)].

#[local] Abbreviation opened := (state_of boot_lcm (lcm_gzip_init (C:=copying) 100 100 0 boot_lcm)).
#[local] Abbreviation body_run := (session (C:=copying) (D:=gzip_decoder) 1 body_calls opened).

Lemma decompression_capped_witness :
  (e_result <$> default [] (result_of body_run)) = [2; 3; 0] ∧
  within_caps 100 100 0 0 0 (default [] (result_of body_run)).
Proof.
  split; [by_eval|].
  assert (Hs : Forall (λ x, small x.2) body_calls) by (repeat constructor; simpl; lia).
  assert (Hn : zlen body_calls ≤ 2 ^ 30) by by_decision.
  apply (proj1 (decompression_capped (C:=copying) 100 100 0 boot_lcm 1 opened body_calls
    (default [] (result_of body_run)) (state_of opened body_run) ltac:(lia) ltac:(lia) ltac:(lia) Hs Hn)).
  - apply ret_of. by_eval.
  - apply ret_of, (some_default []). by_eval.
Defined.

Lemma gzip_takes_fronts_witness :
  seen (C:=copying) 1 (state_of opened body_run) = Some [1; 2; 1; 2; 3] ∧
  ∃ us, Forall2 (λ u x, (u ≤ length (chunk x.1 x.2))%nat) us body_calls ∧
    ∀ k, ∃ lk, session (C:=copying) (D:=gzip_decoder) 1 (take k body_calls) opened
                 = Ret (take k (default [] (result_of body_run))) lk ∧
      seen (C:=copying) 1 lk = Some ([] ++ taken (take k us) (take k body_calls)).
Proof.
  split; [by_eval|].
  apply (gzip_takes_fronts (C:=copying) 1 [] body_calls opened (default [] (result_of body_run)) (state_of opened body_run)).
  - by_eval.
  - unfold body_calls. rewrite !Forall_cons, Forall_nil. split_and!; try done; (split; [lia|right; eexists; vm_compute; reflexivity]).
  - apply ret_of, (some_default []). by_eval.
Defined.
End Compress.
