(* ===== verification/CompressTests.v ===== *)
(** * The round trips of the compression shim

    The tests of [src/crates/libcompress-mojo/src/lib.rs] that decode: each feeds
    one compressed body whole and finishes the stream behind what came out. *)

From S2P Require Import Prelude Effects Utf8 Compress.
Import Effects Utf8 Compress.

Module CompressTests.

(** The codecs are a parameter here. *)
#[local] Remove Hints copying : typeclass_instances.

Section Tests.
Context {C : Codecs}.

Definition not_null (s : option N) : bool := match s with Some _ => true | None => false end.

Definition gzip_round_trip_hello_world : prog lcm unit :=
  modify (test_memory GZIP_HELLO);;
  s ← lcm_gzip_init (Z.shiftl 1 20) (Z.shiftl 1 20) 0;
  assert_ (not_null s) "assertion failed: !s.is_null()";;
  n ← lcm_gzip_feed s (Ptr 1 0) (zlen GZIP_HELLO) (Ptr 2 0) 64;
  assert_ (0 <=? n) "feed";;
  tail ← lcm_gzip_finish s (Ptr 2 n) (64 - n);
  assert_ (0 <=? tail) "finish";;
  out ← read_bytes (Ptr 2 0) (n + tail);
  assert_ (bool_decide (out = string_bytes "hello world")) "assertion failed: left == right";;
  lcm_gzip_free s.

Definition brotli_round_trip_hello_world : prog lcm unit :=
  modify (test_memory BROTLI_HELLO);;
  s ← lcm_br_init (Z.shiftl 1 20) (Z.shiftl 1 20) 0;
  assert_ (not_null s) "assertion failed: !s.is_null()";;
  n ← lcm_br_feed s (Ptr 1 0) (zlen BROTLI_HELLO) (Ptr 2 0) 64;
  assert_ (0 <=? n) "feed";;
  tail ← lcm_br_finish s (Ptr 2 n) (64 - n);
  assert_ (0 <=? tail) "finish";;
  out ← read_bytes (Ptr 2 0) (n + tail);
  assert_ (bool_decide (out = string_bytes "hello world")) "assertion failed: left == right";;
  lcm_br_free s.

(** ** They pass *)

(** The libraries decode the two bodies: given one whole, with room for all of
    its text, a new decoder takes all of it, writes the text and is at the end. *)
Class DecodesHello := {
  hello_inflate : ∃ z, inflate (inflateInit2 47) Z_NO_FLUSH GZIP_HELLO 64
                       = (z, zlen GZIP_HELLO, string_bytes "hello world", Z_STREAM_END);
  hello_brotli : ∃ b, BrotliDecoderDecompressStream BrotliDecoderCreateInstance BROTLI_HELLO 64
                      = (b, zlen BROTLI_HELLO, string_bytes "hello world", BROTLI_DECODER_RESULT_SUCCESS);
}.

(** A guard of the shim that this call passes. *)
#[local] Ltac pass := match goal with |- context [if ?b then fail _ _ else _] => change b with false end; cbv beta iota zeta.

(** The decoder of a test before its first call, and the state it is in. *)
Definition test_counters (fed : Z) : counters :=
  {| in_total := fed; out_total := 0; input_cap := 2 ^ 20; output_cap := 2 ^ 20; ratio_x100 := 0 |}.
Definition new_gzip (fed : Z) : GzipState :=
  {| zs := inflateInit2 47; zs_avail_in := 0; inited := true; gz_finished := false; gz_counters := test_counters fed |}.
Definition new_brotli (fed : Z) : BrotliState :=
  {| bs := BrotliDecoderCreateInstance; br_finished := false; br_counters := test_counters fed |}.
Definition opened (fixture : bytes) (g : gmap N GzipState) (b : gmap N BrotliState) (n : N) : lcm :=
  test_memory fixture {| l_mem := ∅; l_gzip := g; l_br := b; l_next := n; l_alloc := []; g_err := replicate 512 0; g_err_len := 0 |}.

Lemma gzip_hello_fed `{!DecodesHello} n :
  ∃ l, lcm_gzip_feed (Some 1%N) (Ptr 1 0) 31 (Ptr 2 0) 64 (opened GZIP_HELLO {[ 1%N := new_gzip 0 ]} ∅ n) = Ret 11 l ∧
    load (l_mem l) (Ptr 2 0) 11 = Some (string_bytes "hello world") ∧
    ∃ s, l_gzip l = {[ 1%N := s ]} ∧ inited s = true ∧ gz_finished s = true ∧ zs_avail_in s = 0.
Proof.
  destruct hello_inflate as [z Hz]. unfold lcm_gzip_feed.
  rewrite (bind_Ret _ _ _ (new_gzip 0) (opened GZIP_HELLO {[ 1%N := new_gzip 0 ]} ∅ n)) by done.
  do 2 pass. change (gz_finished (new_gzip 0)) with false. cbv iota.
  rewrite (bind_Ret _ _ _ tt (opened GZIP_HELLO {[ 1%N := new_gzip 31 ]} ∅ n)) by done. pass.
  rewrite (bind_Ret _ _ _ GZIP_HELLO (opened GZIP_HELLO {[ 1%N := new_gzip 31 ]} ∅ n)) by done.
  unfold gzip_inflate. change (zs _) with (inflateInit2 47). change (as_u32 64) with 64. rewrite Hz.
  eexists. split; [vm_compute; reflexivity|]. split; [done|]. eexists. split; [done|]. done.
Qed.

Lemma brotli_hello_fed `{!DecodesHello} n :
  ∃ l, lcm_br_feed (Some 1%N) (Ptr 1 0) 15 (Ptr 2 0) 64 (opened BROTLI_HELLO ∅ {[ 1%N := new_brotli 0 ]} n) = Ret 11 l ∧
    load (l_mem l) (Ptr 2 0) 11 = Some (string_bytes "hello world") ∧
    ∃ s, l_br l = {[ 1%N := s ]} ∧ br_finished s = true.
Proof.
  destruct hello_brotli as [b Hb]. unfold lcm_br_feed.
  rewrite (bind_Ret _ _ _ (new_brotli 0) (opened BROTLI_HELLO ∅ {[ 1%N := new_brotli 0 ]} n)) by done.
  do 2 pass. change (br_finished (new_brotli 0)) with false. cbv iota.
  rewrite (bind_Ret _ _ _ tt (opened BROTLI_HELLO ∅ {[ 1%N := new_brotli 15 ]} n)) by done. pass.
  rewrite (bind_Ret _ _ _ BROTLI_HELLO (opened BROTLI_HELLO ∅ {[ 1%N := new_brotli 15 ]} n)) by done.
  unfold br_decompress. change (bs _) with BrotliDecoderCreateInstance. rewrite Hb.
  eexists. split; [vm_compute; reflexivity|]. split; [done|]. eexists. split; [done|]. done.
Qed.

(** What a finished decoder has to add, and its release. *)
Lemma gzip_hello_finished l s p room :
  l_gzip l = {[ 1%N := s ]} → inited s = true → gz_finished s = true → zs_avail_in s = 0 → is_null p = false →
  lcm_gzip_finish (Some 1%N) p room l = Ret 0 l ∧ lcm_gzip_free (Some 1%N) l = Ret tt (set_gzip ∅ l).
Proof.
  intros Hl Hi Hf Ha Hp. assert (Ho : object l_gzip 1 l = Ret s l) by (unfold object; by rewrite Hl, lookup_singleton_eq).
  unfold lcm_gzip_finish, lcm_gzip_free. rewrite !(bind_Ret _ _ _ _ _ Ho), Hi, Hf, Ha, Hp. split; [done|].
  unfold modify. by rewrite Hl, delete_singleton_eq.
Qed.

Lemma brotli_hello_finished l s p room :
  l_br l = {[ 1%N := s ]} → br_finished s = true → is_null p = false →
  lcm_br_finish (Some 1%N) p room l = Ret 0 l ∧ lcm_br_free (Some 1%N) l = Ret tt (set_br ∅ l).
Proof.
  intros Hl Hf Hp. assert (Ho : object l_br 1 l = Ret s l) by (unfold object; by rewrite Hl, lookup_singleton_eq).
  unfold lcm_br_finish, lcm_br_free. rewrite !(bind_Ret _ _ _ _ _ Ho), Hf, Hp. split; [done|].
  unfold modify. by rewrite Hl, delete_singleton_eq.
Qed.

(** The end of both tests. *)
Lemma hello_read l : load (l_mem l) (Ptr 2 0) 11 = Some (string_bytes "hello world") →
  read_bytes (Ptr 2 0) (11 + 0) l = Ret (string_bytes "hello world") l.
Proof. intros Hr. unfold read_bytes. change (11 + 0) with 11. change (11 =? 0) with false. cbv iota. by rewrite Hr. Qed.

(** The shim hands the body over and the text back unchanged, stays below the
    caps, has nothing left to finish, and the decoder is gone at the end. *)
Theorem round_trip_tests_pass `{!DecodesHello} :
  (∃ l, gzip_round_trip_hello_world boot_lcm = Ret tt l ∧ l_gzip l = ∅) ∧
  (∃ l, brotli_round_trip_hello_world boot_lcm = Ret tt l ∧ l_br l = ∅).
Proof.
  split.
  - destruct (gzip_hello_fed 3) as (l & E & Hm & s & Hl & Hi & Hf & Ha).
    destruct (gzip_hello_finished l s (Ptr 2 11) 53 Hl Hi Hf Ha eq_refl) as [E1 E2].
    exists (set_gzip ∅ l). split; [|done]. unfold gzip_round_trip_hello_world.
    rewrite (bind_Ret _ _ _ tt (test_memory GZIP_HELLO boot_lcm)) by done.
    rewrite (bind_Ret _ _ _ (Some 1%N) (opened GZIP_HELLO {[ 1%N := new_gzip 0 ]} ∅ 3)) by done. rewrite assert_pass.
    rewrite (bind_Ret _ _ _ _ _ E), assert_pass, (bind_Ret _ _ _ _ _ E1), assert_pass.
    by rewrite (bind_Ret _ _ _ _ _ (hello_read l Hm)).
  - destruct (brotli_hello_fed 3) as (l & E & Hm & s & Hl & Hf).
    destruct (brotli_hello_finished l s (Ptr 2 11) 53 Hl Hf eq_refl) as [E1 E2].
    exists (set_br ∅ l). split; [|done]. unfold brotli_round_trip_hello_world.
    rewrite (bind_Ret _ _ _ tt (test_memory BROTLI_HELLO boot_lcm)) by done.
    rewrite (bind_Ret _ _ _ (Some 1%N) (opened BROTLI_HELLO ∅ {[ 1%N := new_brotli 0 ]} 3)) by done. rewrite assert_pass.
    rewrite (bind_Ret _ _ _ _ _ E), assert_pass, (bind_Ret _ _ _ _ _ E1), assert_pass.
    by rewrite (bind_Ret _ _ _ _ _ (hello_read l Hm)).
Qed.
End Tests.

(** Codecs that know these two bodies and reject any other. *)
Definition knowing : Codecs := {|
  zstream := unit; inflateInit2 := λ _, tt;
  inflate := λ z _ inp room,
    if bool_decide (inp = GZIP_HELLO) && (11 <=? room) then (z, zlen inp, string_bytes "hello world", Z_STREAM_END)
    else (z, 0, [], -3);
  brotli := unit; BrotliDecoderCreateInstance := tt;
  BrotliDecoderDecompressStream := λ b inp room,
    if bool_decide (inp = BROTLI_HELLO) && (11 <=? room)
    then (b, zlen inp, string_bytes "hello world", BROTLI_DECODER_RESULT_SUCCESS)
    else (b, 0, [], BROTLI_DECODER_RESULT_ERROR) |}.

Example round_trip_tests_pass_knowing :
  ∃ l, gzip_round_trip_hello_world (C:=knowing) boot_lcm = Ret tt l ∧ l_gzip l = ∅.
Proof. refine (proj1 (@round_trip_tests_pass knowing _)). split; by exists tt. Qed.
End CompressTests.
